(* ===== verification/_CoqProject ===== *)
-Q . S2P
Prelude.v
Common.v
Nodes.v
SortedEntries.v
Forest.v
Walker.v
TransientTree.v
Instances.v
Repr.v
Spine.v
Fuse.v
Edits.v
Batch.v
Persist.v
Read.v
Integrate.v
Differential.v
Frontier.v
DifferentialCorrect.v
Demo.v
Geometric.v
Storage.v
Journal.v
Access.v
Transactional.v
StorageDemo.v
Artifact.v
Columnar.v
ArtifactKeys.v
ArtifactFacts.v
ArtifactTree.v
ArtifactTreeCorrect.v
Layer.v
LayerCorrect.v
ArtifactDemo.v
Ipld.v
Predicate.v
GlobCorrect.v
UcanBase.v
Delegation.v
DelegationCorrect.v
Chain.v
ChainCorrect.v
Proving.v
ProvingCorrect.v
Ucan.v
UcanCorrect.v
UcanDemo.v
Providers.v
Cells.v
Revisions.v
BlobIndex.v
Sync.v
SyncBase.v
Rebase.v
SyncCorrect.v
PushCorrect.v
CommitCorrect.v
History.v
SyncInstances.v
SyncDemo.v
TypeSystem.v
Terms.v
Unifier.v
UnifierCorrect.v
Numbers.v
Constraints.v
Formulas.v
AttributeQuery.v
Scans.v
Premises.v
Planner.v
PlannerCorrect.v
InferenceCorrect.v
Rules.v
Evaluation.v
EvaluationCorrect.v
Session.v
SessionCorrect.v
QueryDemo.v
