(* ===== verification/Prelude.v ===== *)
(** * Verification of Dialog DB

    Dialog DB (rust/ of the repository) is an embeddable database of semantic
    triples.  Facts are kept in a content-addressed, canonical, probabilistic
    B-tree; branches of a repository point at roots of such trees, commit to
    them, and are synchronized by differentiating and merging trees; access to a
    repository is proved by chains of delegations (UCANs).  This development is a
    shallow embedding of that core, from the nodes of the tree up to commit, pull
    and push, and of the authorization of invocations.

    ** Conventions

    A fallible Rust function is a function into [outcome] (below): [Ok], [Err]
    with the source's error, [Panic] for [unwrap], [expect], an index out of
    range or an underflow, and [OutOfFuel] for a loop whose recursion is not
    structural and whose fuel ran out.  Code that changes state is a function of
    the state ([stateful] and, for the effects of a repository, the state monads
    of Providers).  Bytes are [byte], hashes are lists of 32 bytes, sized integers
    are [N] or [Z] with their bounds written out.  Strings are the bytes of their
    UTF-8 encoding.  A [Vec] updated by index is a list, and the source's panics
    are written out; a [HashMap] or [BTreeMap] is a [gmap].

    Code outside the repository is a parameter: BLAKE3 (with collision freedom on
    the inputs at hand where a theorem needs it), the rkyv serialization of nodes
    (with a round trip law), CBOR and IPLD codecs, signatures, URL parsing, and the
    bounded cache.  Each theorem that relies on such a law has a witness
    in one of the Demo files, where the parameter is a concrete function.

    ** Fuel

    Loops that descend a tree have the height of the tree as fuel, loops over a
    frontier the number of nodes below it; the theorems of Spine, Edits, Batch,
    Read and DifferentialCorrect are equations with [Ok], so they include that the
    fuel given by the callers is enough.  The search for proofs (Proving) has the
    source's own bound on depth.  The retry loop of Transactional has the source's
    bound on attempts.

    ** The search tree (rust/dialog-search-tree/src)

    - Nodes: nodes, links, keys, deltas and the single-node operations
      (entry.rs, link.rs, kv.rs, node.rs, node/*.rs, delta.rs).
    - TransientTree: batched edits in place, [persist] (tree/transient.rs, tree.rs).
      Walker: search, lookup and range streams (walker.rs).
      Differential: sparse frontiers and the changes between two trees
      (differential.rs).  Geometric: the rank function (distribution.rs).
      Access: verified, cached reads (storage.rs, cache.rs, accessor.rs).
    - Nodes (its groups), SortedEntries and Forest hold the abstract specification: a
      sorted list of entries and the one tree that [canon] builds of it.  Repr
      relates an editable, partly loaded tree to it.
    - Spine, Fuse, Edits, Batch, Persist, Read, Integrate: every edit is the edit of the sorted list and keeps the canonical shape, hence the root
      hash is a function of the contents and history independent; the exception,
      a delete that empties the right edge, is stated exactly (Edits, Demo).
    - Frontier, DifferentialCorrect: a differential is the
      difference of the contents, applying it gives the target, and it ends.

    ** Storage (rust/dialog-storage/src, rust/dialog-common/src)

    - Storage: the memory backend and the overlay, cache, compression and measure
      layers, each shown to keep the laws of the backend below; Journal: the log
      of writes; Transactional: cells with optimistic concurrency over a
      compare-and-swap backend.

    ** Artifacts (rust/dialog-artifacts/src)

    - Artifact, ArtifactKeys: facts, their values and the three index keys.
      ArtifactFacts: keys determine facts; selectors select by key range.
    - ArtifactTree: the interface (a class with laws) through which facts use the
      tree, its instance, and the operations on facts.  ArtifactTreeCorrect: asserting,
      retracting and replacing facts refine a finite map; scans are complete,
      ordered and free of duplicates.
    - Layer, LayerCorrect (with rust/dialog-repository/src/layer.rs,
      branch/session.rs, transaction_query.rs): pending changes and queries over
      several sources.
    - BlobIndex: the sizes of blobs kept beside the facts (blob_index.rs).

    ** Repository (rust/dialog-repository/src/repository, rust/dialog-effects/src)

    - Providers: the memory, archive and blob effects as classes with the
      contracts their documentation states, and the volatile provider
      (rust/dialog-storage/src/storage/provider/volatile) as an instance.
    - Cells (memory/{cell,publish,resolve}.rs): typed cells with shared caches, a
      heap of them.  Revisions: revisions, branches and remotes (revision.rs,
      tree.rs, branch.rs, branch/*.rs, remote/*.rs).
    - Sync: local and networked archives as tree storage (archive/*.rs); commit,
      pull and push (branch/{commit,pull,push}.rs).
    - SyncBase, Rebase, SyncCorrect, PushCorrect, CommitCorrect: a pull is a three-way merge with last-write-wins; a push
      publishes the branch, uploads enough to read it and refuses to overwrite a
      diverged upstream; a commit lands the facts its instructions leave.
    - History: commits by tasks that share a branch, as a step
      relation.  Where tasks switch only at await points (a cooperative executor)
      the commits that succeed form one line; a run of threads that loses a
      commit is shown.
    - Session (rules.rs, schema.rs, branch/{session,select,metadata,transaction}.rs,
      transaction/query.rs and the statements of dialog-query): what is asserted of
      attributes and concepts, transactions, reading a branch, the layers of a query
      with the facts a repository states of itself, and the rules that trees hold,
      with their caches.  SessionCorrect: a select of a branch reads exactly what a
      transaction committed; the caches of rules change no answer, whatever earlier
      heads they recorded; what a concept statement leaves in a batch.

    ** Queries (rust/dialog-query/src)

    - TypeSystem: the kinds of a slot (type_system.rs).  Unifier, UnifierCorrect:
      unification of the kinds of
      variables (type_system/unifier.rs).
    - Terms: terms, schemas, rows (term.rs, schema.rs, selection/match.rs), and what
      the kinds mean: the bindings that inhabit them.
      Numbers, Constraints, Formulas, AttributeQuery: the premises of rules and how
      each handles a row (formula/*.rs, constraint/*.rs, attribute/query/*.rs,
      optional.rs).  A stream of rows is the list of what it yields and how it ends.
      Scans: a lookup is the join of a row with the facts; for a single value both
      strategies of the code find the winners.
    - Premises: what a premise binds, needs and costs, concepts (premise.rs,
      concept/descriptor.rs, planner/feasibility.rs).  Planner, PlannerCorrect: type
      inference over the premises of a rule (rule/types.rs, planner/plan.rs), and the
      greedy planner finds an order whenever there is one, in every scope
      (planner.rs).
    - InferenceCorrect: the types inferred for a rule without formulas are exact.
    - Rules: analysis, compilation, patterns of bound parameters, cached plans
      (rule/*.rs, concept/query/*.rs).  Evaluation: plans on rows, concepts
      through the rules that derive them (planner/*.rs, concept/query.rs); its fuel
      bounds the nesting of concepts, which rules may make endless.
      EvaluationCorrect: a plan binds what it promises and reads nothing unbound, and
      a compiled rule binds its head in every scope.

    ** Authorization (rust/dialog-ucan-core, dialog-ucan, dialog-capability, dialog-varsig)

    - Ipld, Predicate: argument values, selectors and policies;
      GlobCorrect: the patterns of [like] against a reference matcher.
    - UcanBase, Delegation: subjects, commands, time ranges, delegations,
      invocations, and their verification; DelegationCorrect: verification
      succeeds exactly when the chain of proofs hands on the authority.
    - Chain, ChainCorrect: containers and chains.  Proving, ProvingCorrect: the
      search for proofs is sound, complete within its depth and ends.
    - Ucan, UcanCorrect: what [prove] finds and [invoke] sends, [verify] accepts.

    ** Columns and Z-sets (rust/dialog-encoding, dialog-dbsp)

    - Columnar: cells are stored once and decoding gives them back (buffer.rs,
      cellular.rs); its Module ZSet: multiplicities and their group laws (zset.rs).

    ** Demonstrations

    Instances, SyncInstances and the files named ...Demo evaluate the model on
    concrete data and discharge the hypotheses of the theorems there.

    ** Not modelled

    Platform providers (IndexedDB, file system, S3, R2) and the remote services
    are I/O behind the effects that Providers states as contracts.  Procedural
    macros, the web and command line front ends, the test helpers, the operator
    and credential plumbing carry no state of the database.  The bytes of rkyv and
    CBOR are produced by third-party crates.  Streams are modelled by the sequence
    they yield: back pressure and cancellation are not.  Signing and key
    management (dialog-varsig, dialog-credentials) are cryptographic libraries
    used through sign and verify.  The legacy artifact store
    (dialog-artifacts/src/artifacts.rs) is superseded by the repository. *)
From Stdlib Require Export Strings.Byte Lia.
From stdpp Require Export base decidable countable sorting strings option fin_maps gmap.
From stdpp Require Export list list_numbers.

(** * Outcomes of Rust code

    A fallible Rust function returns [Result<A, E>]; it may also panic (an index
    out of range, [unwrap] on [None], [usize] underflow) or, when it loops, fail
    to return.  All four possibilities are values of [outcome]. *)
Inductive outcome (E A : Type) : Type :=
  | Ok (a : A)
  | Err (e : E)
  | Panic (message : string)
  | OutOfFuel.
Arguments Ok {E A} a.
Arguments Err {E A} e.
Arguments Panic {E A} message.
Arguments OutOfFuel {E A}.

#[export] Instance outcome_ret {E} : MRet (outcome E) := fun _ a => Ok a.
#[export] Instance outcome_bind {E} : MBind (outcome E) := fun A B k o =>
  match o with
  | Ok a => k a
  | Err e => Err e
  | Panic m => Panic m
  | OutOfFuel => OutOfFuel
  end.

(** [Result::map_err], also the [From] conversion that [?] inserts. *)
Definition map_err {E F A} (f : E -> F) (o : outcome E A) : outcome F A :=
  match o with
  | Ok a => Ok a
  | Err e => Err (f e)
  | Panic m => Panic m
  | OutOfFuel => OutOfFuel
  end.

(** [Option::ok_or_else]. *)
Definition ok_or {E A} (e : E) (o : option A) : outcome E A :=
  match o with Some a => Ok a | None => Err e end.

(** Indexing a [Vec] or slice: panics out of range. *)
Definition index_or_panic {E A} (l : list A) (i : nat) : outcome E A :=
  match l !! i with Some a => Ok a | None => Panic "index out of bounds" end.

(** [iter().map(f).collect::<Result<Vec<_>, _>>()]: left to right, stopping at
    the first error. *)
Fixpoint map_outcome {E A B} (f : A -> outcome E B) (l : list A) : outcome E (list B) :=
  match l with
  | [] => Ok []
  | a :: l => b ← f a; bs ← map_outcome f l; Ok (b :: bs)
  end.

Definition is_ok {E A} (o : outcome E A) : bool :=
  match o with Ok _ => true | _ => false end.

Lemma bind_Ok {E A B} (k : A -> outcome E B) (a : A) : (Ok a ≫= k) = k a.
Proof. reflexivity. Qed.

Lemma bind_Ok_inv {E A B} (k : A -> outcome E B) (o : outcome E A) b :
  (o ≫= k) = Ok b -> exists a, o = Ok a /\ k a = Ok b.
Proof. destruct o; simpl; try discriminate; eauto. Qed.

Lemma map_outcome_Ok {E A B} (f : A -> outcome E B) l bs :
  map_outcome f l = Ok bs <-> Forall2 (fun a b => f a = Ok b) l bs.
Proof.
  revert bs; induction l as [|a l IH]; intros bs; simpl.
  - split; [intros [= <-]; constructor | inversion 1; reflexivity].
  - split.
    + intros (b & Hb & (bs' & Hbs & [= <-])%bind_Ok_inv)%bind_Ok_inv.
      constructor; [done | by apply IH].
    + inversion 1 as [|? b ? bs' Hb Hbs]; subst.
      rewrite Hb; simpl. apply IH in Hbs. by rewrite Hbs.
Qed.

(** Steps through the binds of an equation [... = Ok _]. *)
Ltac outcome_inv :=
  repeat match goal with
  | H : (_ ≫= _) = Ok _ |- _ =>
      let a := fresh "a" in let Ha := fresh "Ha" in
      apply bind_Ok_inv in H as (a & Ha & H); simpl in H
  | H : Ok _ = Ok _ |- _ => injection H as H; try subst
  | H : Err _ = Ok _ |- _ => discriminate H
  | H : Panic _ = Ok _ |- _ => discriminate H
  | H : OutOfFuel = Ok _ |- _ => discriminate H
  end.

(** * Total orders

    Rust's [Ord]: a three-way comparison that is a strict total order and whose
    [Equal] is equality. *)
Class Ord (A : Type) := {
  cmp : A -> A -> comparison;
  cmp_eq : forall x y, cmp x y = Eq <-> x = y;
  cmp_antisym : forall x y, cmp y x = CompOpp (cmp x y);
  cmp_trans : forall x y z, cmp x y = Lt -> cmp y z = Lt -> cmp x z = Lt
}.

Declare Scope ord_scope.
Delimit Scope ord_scope with ord.
Definition olt {A} `{Ord A} (x y : A) : Prop := cmp x y = Lt.
Definition ole {A} `{Ord A} (x y : A) : Prop := cmp x y <> Gt.
Definition oltb {A} `{Ord A} (x y : A) : bool :=
  match cmp x y with Lt => true | _ => false end.
Definition oleb {A} `{Ord A} (x y : A) : bool :=
  match cmp x y with Gt => false | _ => true end.
Notation "x ≺ y" := (olt x y) (at level 70) : ord_scope.
Notation "x ≼ y" := (ole x y) (at level 70) : ord_scope.
Open Scope ord_scope.

Section ord_lemmas.
Context {A : Type} `{Ord A}.
Implicit Types x y z : A.

Lemma cmp_refl x : cmp x x = Eq.
Proof. by apply cmp_eq. Qed.

Lemma cmp_gt x y : cmp x y = Gt <-> y ≺ x.
Proof. unfold olt. rewrite (cmp_antisym x y). destruct (cmp x y); naive_solver. Qed.

Lemma olt_irrefl x : ~ x ≺ x.
Proof. unfold olt. by rewrite cmp_refl. Qed.

Lemma olt_trans x y z : x ≺ y -> y ≺ z -> x ≺ z.
Proof. apply cmp_trans. Qed.

Lemma ole_not_lt x y : x ≼ y <-> ~ y ≺ x.
Proof. unfold ole. by rewrite cmp_gt. Qed.

Lemma ole_cases x y : x ≼ y <-> x ≺ y \/ x = y.
Proof.
  unfold ole, olt. rewrite <- cmp_eq. destruct (cmp x y); naive_solver.
Qed.

Lemma olt_le x y : x ≺ y -> x ≼ y.
Proof. intros ?. apply ole_cases; auto. Qed.

Lemma ole_refl x : x ≼ x.
Proof. apply ole_cases; auto. Qed.

Lemma olt_le_trans x y z : x ≺ y -> y ≼ z -> x ≺ z.
Proof. intros ? [?| ->]%ole_cases; eauto using olt_trans. Qed.

Lemma ole_lt_trans x y z : x ≼ y -> y ≺ z -> x ≺ z.
Proof. intros [?| ->]%ole_cases ?; eauto using olt_trans. Qed.

Lemma ole_trans x y z : x ≼ y -> y ≼ z -> x ≼ z.
Proof. intros [?| ->]%ole_cases ?; eauto using olt_le, olt_le_trans. Qed.

Lemma ord_total x y : x ≺ y \/ x = y \/ y ≺ x.
Proof.
  destruct (cmp x y) eqn:E; [right; left; by apply cmp_eq | by left | right; right].
  by apply cmp_gt.
Qed.

#[export] Instance ord_eq_dec : EqDecision A | 100.
Proof.
  intros x y. destruct (cmp x y) eqn:E; [left; by apply cmp_eq | right..];
    intros ->; by rewrite cmp_refl in E.
Defined.

#[export] Instance olt_dec x y : Decision (x ≺ y).
Proof. unfold olt. destruct (cmp x y); [right | left | right]; congruence. Defined.

#[export] Instance ole_dec x y : Decision (x ≼ y).
Proof. unfold ole. destruct (cmp x y); [left | left | right]; congruence. Defined.

Lemma oltb_spec x y : oltb x y = true <-> x ≺ y.
Proof. unfold oltb, olt. destruct (cmp x y); naive_solver. Qed.

Lemma oltb_false x y : oltb x y = false <-> y ≼ x.
Proof. rewrite ole_not_lt, <- oltb_spec. destruct (oltb x y); naive_solver. Qed.

Lemma oleb_spec x y : oleb x y = true <-> x ≼ y.
Proof. unfold oleb, ole. destruct (cmp x y); naive_solver. Qed.

Lemma oleb_false x y : oleb x y = false <-> y ≺ x.
Proof.
  rewrite <- cmp_gt. unfold oleb. destruct (cmp x y); naive_solver.
Qed.
End ord_lemmas.

(** Closes a goal about [≺], [≼] and [=] by transitivity, or a context whose
    order facts are contradictory. *)
Ltac order_saturate :=
  repeat match goal with
  | H : ~ _ ≺ _ |- _ => apply ole_not_lt in H
  | H : ~ _ ≼ _ |- _ => rewrite ole_not_lt in H; apply dec_stable in H
  | H : cmp ?x ?y = Lt |- _ => change (olt x y) in H
  | H : cmp _ _ = Gt |- _ => apply cmp_gt in H
  | H : cmp _ _ = Eq |- _ => apply cmp_eq in H; first [progress subst | try rewrite -> H in *]
  | H : oltb _ _ = true |- _ => apply oltb_spec in H
  | H : oltb _ _ = false |- _ => apply oltb_false in H
  | H : oleb _ _ = true |- _ => apply oleb_spec in H
  | H : oleb _ _ = false |- _ => apply oleb_false in H
  end.
Ltac order_step :=
  match goal with
  | H : ?x ≺ ?x |- _ => destruct (olt_irrefl x H)
  | H1 : ?x ≺ ?y, H2 : ?y ≺ ?z |- _ =>
      lazymatch goal with H : x ≺ z |- _ => fail | _ => pose proof (olt_trans x y z H1 H2) end
  | H1 : ?x ≺ ?y, H2 : ?y ≼ ?z |- _ =>
      lazymatch goal with H : x ≺ z |- _ => fail | _ => pose proof (olt_le_trans x y z H1 H2) end
  | H1 : ?x ≼ ?y, H2 : ?y ≺ ?z |- _ =>
      lazymatch goal with H : x ≺ z |- _ => fail | _ => pose proof (ole_lt_trans x y z H1 H2) end
  | H1 : ?x ≼ ?y, H2 : ?y ≼ ?z |- _ =>
      lazymatch goal with
      | H : x ≼ z |- _ => fail
      | _ => pose proof (ole_trans x y z H1 H2) end
  end.
Ltac order :=
  order_saturate;
  try match goal with
  | |- ?x ≼ ?y => apply ole_not_lt; intro
  | |- ~ _ ≺ _ => intro
  | |- ?x ≺ ?y => destruct (decide (x ≺ y)) as [|]; [assumption | exfalso]; order_saturate
  | |- ?x <> ?y => intros ->
  end; solve [repeat order_step].

Create HintDb dialog.
#[export] Hint Resolve ole_refl olt_le : dialog.

(** * Natural numbers and bytes as ordered types *)
#[export] Instance nat_ord : Ord nat.
Proof.
  refine {| cmp := Nat.compare |}.
  - intros; apply Nat.compare_eq_iff.
  - intros; apply Nat.compare_antisym.
  - intros x y z; rewrite !Nat.compare_lt_iff; lia.
Defined.

#[export] Instance N_ord : Ord N.
Proof.
  refine {| cmp := N.compare |}.
  - intros; apply N.compare_eq_iff.
  - intros; apply N.compare_antisym.
  - intros x y z; rewrite !N.compare_lt_iff; lia.
Defined.

#[export] Instance byte_eq_dec : EqDecision byte := Byte.byte_eq_dec.
#[export] Program Instance byte_countable : Countable byte :=
  inj_countable Byte.to_N Byte.of_N _.
Next Obligation. intros b. apply Byte.of_to_N. Qed.

Lemma to_N_inj (x y : byte) : Byte.to_N x = Byte.to_N y -> x = y.
Proof.
  intros E. assert (Some x = Some y) as [= ->]; [|done].
  by rewrite <- !Byte.of_to_N, E.
Qed.

#[export] Instance byte_ord : Ord byte.
Proof.
  refine {| cmp x y := N.compare (Byte.to_N x) (Byte.to_N y) |}.
  - intros x y. rewrite N.compare_eq_iff. split; [apply to_N_inj | by intros ->].
  - intros; apply N.compare_antisym.
  - intros x y z; rewrite !N.compare_lt_iff; lia.
Defined.

(** Slices compare lexicographically. *)
Fixpoint list_cmp {A} `{Ord A} (l1 l2 : list A) : comparison :=
  match l1, l2 with
  | [], [] => Eq
  | [], _ => Lt
  | _, [] => Gt
  | x :: l1, y :: l2 => match cmp x y with Eq => list_cmp l1 l2 | c => c end
  end.

#[export] Instance list_ord {A} `{Ord A} : Ord (list A).
Proof.
  refine {| cmp := list_cmp |}.
  - induction x as [|x l1 IH]; intros [|y l2]; simpl; try done.
    destruct (cmp x y) eqn:E.
    + apply cmp_eq in E as ->. rewrite IH. naive_solver.
    + split; [done|]. intros [= -> ->]. by rewrite cmp_refl in E.
    + split; [done|]. intros [= -> ->]. by rewrite cmp_refl in E.
  - induction x as [|x l1 IH]; intros [|y l2]; simpl; try done.
    rewrite (cmp_antisym x y). destruct (cmp x y); simpl; auto.
  - induction x as [|x l1 IH]; intros [|y l2] [|z l3]; simpl; try done.
    destruct (cmp x y) eqn:E1; intros H1 H2; try done.
    + apply cmp_eq in E1 as ->. destruct (cmp y z); eauto.
    + destruct (cmp y z) eqn:E2; try done.
      * apply cmp_eq in E2 as ->. by rewrite E1.
      * by rewrite (cmp_trans x y z).
Defined.

Abbreviation bytes := (list byte).

(** * [Vec] and slice operations of the Rust standard library *)

(** The halving loop of [slice::binary_search_by]: [base] is the candidate and
    [size] the length of the window that starts at it. *)
Fixpoint binary_search_loop {A} (f : A -> comparison) (l : list A)
    (fuel base size : nat) : nat :=
  match fuel with
  | O => base
  | S fuel =>
      if decide (size <= 1)%nat then base
      else
        let half := (size / 2)%nat in
        let mid := (base + half)%nat in
        let base := match f <$> l !! mid with Some Gt => base | _ => mid end in
        binary_search_loop f l fuel base (size - half)
  end.

(** [slice::binary_search_by]: [inl i] stands for [Ok(i)], a match at [i], and
    [inr i] for [Err(i)], the insertion point. *)
Definition binary_search_by {A} (f : A -> comparison) (l : list A) : nat + nat :=
  match l with
  | [] => inr 0%nat
  | _ =>
      let base := binary_search_loop f l (length l) 0 (length l) in
      match f <$> l !! base with
      | Some Eq => inl base
      | Some Lt => inr (base + 1)%nat
      | _ => inr base
      end
  end.

(** [slice::partition_point]. *)
Definition partition_point {A} (p : A -> bool) (l : list A) : nat :=
  match binary_search_by (fun a => if p a then Lt else Gt) l with
  | inl i => i
  | inr i => i
  end.

(** [Vec::insert] (panics past the end) and [Vec::splice] over [a..b]. *)
Definition vec_insert {A} (l : list A) (at_ : nat) (x : A) : list A :=
  take at_ l ++ x :: drop at_ l.
Definition splice {A} (l : list A) (a b : nat) (replacement : list A) : list A :=
  take a l ++ replacement ++ drop b l.

Section binary_search.
Context {A : Type} (f : A -> comparison).

(** [l] is partitioned by [f]: [Lt], then at most one [Eq], then [Gt]. *)
Definition below (l : list A) : Prop := Forall (fun a => f a = Lt) l.
Definition above (l : list A) : Prop := Forall (fun a => f a = Gt) l.

Lemma binary_search_loop_inv l fuel base size :
  (size <= fuel)%nat -> (1 <= size)%nat -> (base + size <= length l)%nat ->
  (base = 0%nat \/ exists a, l !! base = Some a /\ f a <> Gt) ->
  (forall i a, (base + size <= i)%nat -> l !! i = Some a -> f a = Gt) ->
  (forall i j a b, (i < j)%nat -> l !! i = Some a -> l !! j = Some b ->
     f a = Gt -> f b = Gt) ->
  let r := binary_search_loop f l fuel base size in
  (r < length l)%nat /\ (r = 0%nat \/ exists a, l !! r = Some a /\ f a <> Gt) /\
  (forall i a, (r < i)%nat -> l !! i = Some a -> f a = Gt).
Proof.
  revert base size; induction fuel as [|fuel IH]; intros base size Hf Hs Hb Hc Hgt Hmono;
    [lia|]. cbn -[Nat.div]. case_decide as Hsz.
  { split_and!; [lia | done |]. intros i a Hi. apply Hgt. lia. }
  assert (1 <= size / 2 < size)%nat.
  { split; [apply Nat.div_le_lower_bound; lia | apply Nat.div_lt; lia]. }
  destruct (lookup_lt_is_Some_2 l (base + size / 2)%nat) as [m Hm]; [lia|].
  rewrite Hm; cbn -[Nat.div]. destruct (f m) eqn:Em.
  1,2: apply IH; [lia | lia | lia | right; exists m; rewrite Em; done | | done];
       intros i a Hi; apply Hgt; revert Hi; generalize (size / 2)%nat; lia.
  apply IH; [lia | lia | lia | done | | done]. intros i a Hi Ha.
  destruct (decide (i = base + size / 2)%nat) as [->|]; [congruence|].
  eapply (Hmono _ i); [|exact Hm|exact Ha|exact Em].
  pose proof (Nat.Div0.mul_div_le size 2). lia.
Qed.

Lemma partitioned_mono l m r :
  below l -> (length m <= 1)%nat -> Forall (fun a => f a = Eq) m -> above r ->
  forall i j a b, (i < j)%nat -> (l ++ m ++ r) !! i = Some a ->
    (l ++ m ++ r) !! j = Some b -> f a = Gt -> f b = Gt.
Proof.
  unfold below, above; rewrite !Forall_lookup.
  intros Hl Hlen Hm Hr i j a b Hij Hi Hj Ha.
  apply lookup_app_Some in Hi as [Hi|[Hli Hi]];
    [by rewrite (Hl _ _ Hi) in Ha|].
  apply lookup_app_Some in Hi as [Hi|[Hmi Hi]];
    [by rewrite (Hm _ _ Hi) in Ha|].
  rewrite !lookup_app_r in Hj by lia. eauto.
Qed.

(** Search in [l ++ r] with no match stops at the length of [l]. *)
Lemma binary_search_missing l r :
  below l -> above r -> binary_search_by f (l ++ r) = inr (length l).
Proof.
  intros Hl Hr. unfold binary_search_by.
  destruct (l ++ r) as [|x xs] eqn:E.
  { apply app_eq_nil in E as [-> ->]. done. }
  rewrite <- E.
  pose proof (partitioned_mono l [] r Hl ltac:(simpl; lia) ltac:(done) Hr) as Hmono.
  simpl in Hmono.
  destruct (binary_search_loop_inv (l ++ r) (length (l ++ r)) 0 (length (l ++ r)))
    as (Hlt & Hc & Hgt);
    [lia | rewrite E; simpl; lia | lia | by left | | exact Hmono |].
  { intros i a Hi Ha. apply lookup_lt_Some in Ha. lia. }
  set (n := binary_search_loop _ _ _ _ _) in *. clearbody n.
  unfold below, above in Hl, Hr; rewrite !Forall_lookup in Hl, Hr.
  destruct (lookup_lt_is_Some_2 _ _ Hlt) as [a Ha]. rewrite Ha; simpl.
  assert (length l <= n + 1)%nat.
  { destruct (decide (length l <= n + 1)%nat) as [|Hn]; [done|].
    destruct (lookup_lt_is_Some_2 l (n + 1)%nat) as [b Hb]; [lia|].
    assert (f b = Gt); [|rewrite (Hl _ _ Hb) in *; done].
    apply (Hgt (n + 1)%nat); [lia|]. by apply lookup_app_l_Some. }
  apply lookup_app_Some in Ha as [Ha|[Hn Ha]].
  - rewrite (Hl _ _ Ha). f_equal. apply lookup_lt_Some in Ha. lia.
  - rewrite (Hr _ _ Ha). f_equal. destruct Hc as [Hc|(b & Hb & Hbn)]; [lia|].
    rewrite lookup_app_r in Hb by lia. by rewrite (Hr _ _ Hb) in Hbn.
Qed.

Lemma binary_search_found l x r :
  below l -> f x = Eq -> above r -> binary_search_by f (l ++ x :: r) = inl (length l).
Proof.
  intros Hl Hx Hr. unfold binary_search_by.
  destruct (l ++ x :: r) as [|y ys] eqn:E; [by apply app_eq_nil in E as [??]|].
  rewrite <- E.
  pose proof (partitioned_mono l [x] r Hl ltac:(simpl; lia) ltac:(by repeat constructor) Hr)
    as Hmono; simpl in Hmono.
  destruct (binary_search_loop_inv (l ++ x :: r) (length (l ++ x :: r)) 0
              (length (l ++ x :: r))) as (Hlt & Hc & Hgt);
    [lia | rewrite E; simpl; lia | lia | by left | | exact Hmono |].
  { intros i a Hi Ha. apply lookup_lt_Some in Ha. lia. }
  set (n := binary_search_loop _ _ _ _ _) in *. clearbody n.
  assert (Hxl : (l ++ x :: r) !! length l = Some x) by by apply list_lookup_middle.
  assert (length l <= n)%nat.
  { destruct (decide (length l <= n)%nat) as [|Hn]; [done|].
    assert (f x = Gt); [|congruence]. apply (Hgt (length l)); [lia | done]. }
  assert (n <= length l)%nat.
  { destruct Hc as [->|(b & Hb & Hbn)]; [lia|].
    destruct (decide (n <= length l)%nat) as [|Hn]; [done|].
    rewrite lookup_app_r in Hb by lia.
    destruct (n - length l)%nat as [|k] eqn:Ek; [lia|]. simpl in Hb.
    unfold above in Hr; rewrite Forall_lookup in Hr. by rewrite (Hr _ _ Hb) in Hbn. }
  assert (n = length l) as -> by lia. by rewrite Hxl; simpl; rewrite Hx.
Qed.
End binary_search.

Lemma partition_point_app {A} (p : A -> bool) l r :
  Forall (fun a => p a = true) l -> Forall (fun a => p a = false) r ->
  partition_point p (l ++ r) = length l.
Proof.
  intros Hl Hr. unfold partition_point.
  rewrite (binary_search_missing _ l r); unfold below, above; try done;
    rewrite Forall_forall in *; intros a Ha; simpl; [by rewrite Hl | by rewrite Hr].
Qed.

(** * Stateful code

    A Rust function over [&mut S] (or over interior-mutable state) that returns a
    [Result]: the state it leaves is there on every outcome, errors included. *)
Definition stateful (S E A : Type) : Type := S -> S * outcome E A.

#[export] Instance stateful_ret {S E} : MRet (stateful S E) := fun _ a s => (s, Ok a).
#[export] Instance stateful_bind {S E} : MBind (stateful S E) := fun A B k m s =>
  match m s with
  | (s, Ok a) => k a s
  | (s, Err e) => (s, Err e)
  | (s, Panic msg) => (s, Panic msg)
  | (s, OutOfFuel) => (s, OutOfFuel)
  end.
Definition lift_outcome {S E A} (o : outcome E A) : stateful S E A := fun s => (s, o).
Definition modify {S E} (f : S -> S) : stateful S E unit := fun s => (f s, Ok tt).

Lemma stateful_bind_Ok {S E A B} (k : A -> stateful S E B) (m : stateful S E A) s s' a :
  m s = (s', Ok a) -> (m ≫= k) s = k a s'.
Proof. unfold mbind, stateful_bind. by intros ->. Qed.

(** * Lists *)
Lemma elem_of_concat {A} (x : A) (ls : list (list A)) :
  x ∈ concat ls <-> exists l, l ∈ ls /\ x ∈ l.
Proof.
  induction ls as [|l ls IH]; simpl; [set_solver|].
  rewrite elem_of_app, IH. set_solver.
Qed.

Lemma fmap_nil_iff {A B} (f : A -> B) (l : list A) : f <$> l = [] <-> l = [].
Proof. split; [apply fmap_nil_inv | by intros ->]. Qed.


(** Writing at the position where two parts of a list meet. *)
Lemma list_insert_mid {A} (l : list A) x y r : <[length l := y]> (l ++ x :: r) = l ++ y :: r.
Proof. rewrite insert_app_r_alt by lia. by rewrite Nat.sub_diag. Qed.

Lemma pop_last_snoc {A} (l : list A) x : take (length (l ++ [x]) - 1) (l ++ [x]) = l.
Proof. rewrite length_app; simpl. by rewrite Nat.add_sub, take_app_length. Qed.
