(* ===== verification/Common.v ===== *)
(** Hashes and buffers (rust/dialog-common/src/hash.rs and buffer.rs). *)
From S2P Require Import Prelude.

(** [Blake3Hash]: a wrapper around the digest bytes.  Every digest the program
    computes has [BLAKE3_HASH_SIZE] bytes ([blake3_length] below). *)
Definition BLAKE3_HASH_SIZE : nat := 32.

Record Blake3Hash := mkBlake3Hash { as_bytes : bytes }.

#[export] Instance Blake3Hash_eq_dec : EqDecision Blake3Hash.
Proof. solve_decision. Defined.
#[export] Program Instance Blake3Hash_countable : Countable Blake3Hash :=
  inj_countable' as_bytes mkBlake3Hash _.
Next Obligation. by intros []. Qed.

(** [NULL_BLAKE3_HASH]: the root of the empty tree. *)
Definition NULL_BLAKE3_HASH : Blake3Hash := mkBlake3Hash (replicate BLAKE3_HASH_SIZE x00).

(** The [blake3] crate: a function from bytes to 32-byte digests. *)
Class Blake3 := {
  blake3 : bytes -> Blake3Hash;
  blake3_length : forall b, length (as_bytes (blake3 b)) = BLAKE3_HASH_SIZE
}.

Inductive ConversionError := InvalidSize (len : nat).

(** [TryFrom<Vec<u8>> for Blake3Hash]. *)
Definition Blake3Hash_try_from (b : bytes) : outcome ConversionError Blake3Hash :=
  if decide (length b = BLAKE3_HASH_SIZE) then Ok (mkBlake3Hash b)
  else Err (InvalidSize (length b)).

(** [Blake3Hash::matches]. *)
Definition matches `{Blake3} (self : Blake3Hash) (b : bytes) : bool :=
  bool_decide (blake3 b = self).

(** No two buffers of [P] share a digest, and none has the all-zero digest that
    stands for the empty tree.  BLAKE3 is collision resistant, so this holds of
    any set of buffers the program ever comes to store. *)
Definition collision_free `{Blake3} (P : bytes -> Prop) : Prop :=
  (forall b1 b2, P b1 -> P b2 -> blake3 b1 = blake3 b2 -> b1 = b2) /\
  (forall b, P b -> blake3 b <> NULL_BLAKE3_HASH).

Lemma matches_true `{Blake3} h b : matches h b = true <-> blake3 b = h.
Proof. unfold matches. by rewrite bool_decide_eq_true. Qed.

Lemma collision_free_impl `{Blake3} (P Q : bytes -> Prop) :
  (forall b, Q b -> P b) -> collision_free P -> collision_free Q.
Proof. intros HQ [Hinj Hnull]. split; eauto. Qed.

(** Absence of collisions in a list of buffers, by comparing all pairs. *)
Definition collision_freeb `{Blake3} (l : list bytes) : bool :=
  let hashed := (fun b => (b, as_bytes (blake3 b))) <$> l in
  forallb (fun bh1 =>
    bool_decide (bh1.2 <> as_bytes NULL_BLAKE3_HASH) &&
    forallb (fun bh2 => bool_decide (bh1.2 <> bh2.2) || bool_decide (bh1.1 = bh2.1)) hashed) hashed.

Lemma collision_freeb_spec `{Blake3} l :
  collision_freeb l = true -> collision_free (fun b => b ∈ l).
Proof.
  unfold collision_freeb. rewrite forallb_forall. intros Hall.
  assert (forall b, b ∈ l -> List.In (b, as_bytes (blake3 b)) ((fun b => (b, as_bytes (blake3 b))) <$> l)) as Hin.
  { intros b Hb. apply list_elem_of_In, list_elem_of_fmap. eauto. }
  split.
  - intros b1 b2 H1%Hin H2%Hin E. specialize (Hall _ H1).
    apply andb_true_iff in Hall as [_ Hall]. rewrite forallb_forall in Hall.
    specialize (Hall _ H2). cbn [fst snd] in Hall. rewrite E in Hall.
    apply orb_true_iff in Hall as [Hall|Hall]; apply bool_decide_eq_true in Hall; done.
  - intros b Hb%Hin E. specialize (Hall _ Hb). apply andb_true_iff in Hall as [Hall _].
    apply bool_decide_eq_true in Hall. cbn [snd] in Hall. by rewrite E in Hall.
Qed.
