(* ===== verification/Nodes.v ===== *)
(** The data of the search tree: entries, links, nodes in their serialized and
    editable forms, and the operations on single nodes
    (rust/dialog-search-tree/src: entry.rs, link.rs, kv.rs, error.rs, node.rs,
    node/persistent.rs, node/archive.rs, node/transient.rs, delta.rs); and the
    specification of the grouping of children by rank. *)
From S2P Require Import Prelude Common.

(** * Errors (dialog-storage/src/error.rs, dialog-search-tree/src/error.rs) *)
Inductive DialogStorageError :=
  | EncodeFailed (message : string)
  | DecodeFailed (message : string)
  | StorageBackendError (message : string)
  | Verification (message : string).

Inductive DialogSearchTreeError :=
  | NodeError (message : string)
  | StorageError (error : DialogStorageError)
  | OperationError (message : string)
  | CacheError (message : string)
  | AccessError (message : string)
  | EncodingError (message : string).

Abbreviation tree_result := (outcome DialogSearchTreeError).

(** * Keys, ranks, entries and links *)

(** [trait Key]: ordered keys with a byte representation and extremes. *)
Class Key (K : Type) := {
  key_ord :: Ord K;
  key_as_ref : K -> bytes;
  key_min : K;
  key_max : K;
  key_min_le : forall k, key_min ≼ k;
  key_max_le : forall k, k ≼ key_max
}.

(** [Rank] is a [u64]; ranks and levels are small (see [Distribution]) and are
    modelled without their width. *)
Abbreviation Rank := nat.

(** [trait Distribution]: the rank of a key from its bytes. *)
Class Distribution := rank : bytes -> Rank.

Record Entry (K V : Type) := mkEntry { key : K; value : V }.
Arguments mkEntry {K V} key value.
Arguments key {K V} e.
Arguments value {K V} e.

Record Link (K : Type) := mkLink { link_upper_bound : K; link_node : Blake3Hash }.
Arguments mkLink {K} link_upper_bound link_node.
Arguments link_upper_bound {K} l.
Arguments link_node {K} l.

(** * Serialized nodes *)

(** [PersistentNodeBody], with its [PersistentIndex] and [PersistentSegment]. *)
Inductive PersistentNodeBody (K V : Type) :=
  | Index (links : list (Link K))
  | Segment (entries : list (Entry K V)).
Arguments Index {K V} links.
Arguments Segment {K V} entries.

(** [PersistentNode]: the serialized body.  The lazily computed hash of the
    underlying [Buffer] is a function of its bytes. *)
Record PersistentNode := mkPersistentNode { buffer : bytes }.

(** rkyv: [to_bytes] of a body and validated [access] to serialized bytes.
    Accessing what was serialized gives the body back. *)
Class NodeCodec (K V : Type) := {
  to_bytes : PersistentNodeBody K V -> option bytes;
  access : bytes -> option (PersistentNodeBody K V);
  access_to_bytes : forall body b, to_bytes body = Some b -> access b = Some body
}.

(** * Editable nodes *)
Inductive Node (K V : Type) : Type :=
  | Persistent (link : Link K)
  | Transient (t : TransientNode K V)
with TransientNode (K V : Type) : Type :=
  | TransientIndex (children : list (Node K V))
  | TransientSegment (entries : list (Entry K V)).
Arguments Persistent {K V} link.
Arguments Transient {K V} t.
Arguments TransientIndex {K V} children.
Arguments TransientSegment {K V} entries.

(** * The delta: nodes produced by a batch, keyed by hash (delta.rs)

    The [Arc<RwLock<_>>] only shares the map between handles. *)
Module Delta.
Abbreviation t := (gmap Blake3Hash bytes).
Definition zero : t := ∅.
Definition branch (d : t) : t := d.
Definition add (d : t) (k : Blake3Hash) (v : bytes) : t := <[k := v]> d.
Fixpoint add_all (d : t) (entries : list (Blake3Hash * bytes)) : t :=
  match entries with
  | [] => d
  | (k, v) :: entries => add_all (<[k := v]> d) entries
  end.
Definition remove (d : t) (k : Blake3Hash) : t := delete k d.
Fixpoint remove_all (d : t) (keys : list Blake3Hash) : t :=
  match keys with [] => d | k :: keys => remove_all (delete k d) keys end.
Definition get (d : t) (k : Blake3Hash) : option bytes := d !! k.
Definition len (d : t) : nat := size d.
Definition is_empty (d : t) : bool := bool_decide (d = ∅).
(** [flush] drains the delta: what it returns, and the delta it leaves. *)
Definition flush (d : t) : list (Blake3Hash * bytes) * t := (map_to_list d, ∅).
End Delta.

Section nodes.
Context {K V : Type} `{Key K} `{NodeCodec K V} `{Blake3} `{Distribution}.

(** ** [ArchivedNodeBody] (node/archive.rs); the archived view of a value and
    its owned copy are the same value here. *)
Definition body_upper_bound (body : PersistentNodeBody K V) : tree_result K :=
  ok_or (NodeError "Node was unexpectedly empty")
    match body return option K with
    | Index links => link_upper_bound <$> last links
    | Segment entries => key <$> last entries
    end.

Definition find_entry (body : PersistentNodeBody K V) (k : K)
    : tree_result (option (Entry K V)) :=
  match body with
  | Index _ => Err (AccessError "Attempted to find an entry in an index node")
  | Segment entries =>
      Ok match binary_search_by (fun e => cmp (key e) k) entries with
         | inl i => entries !! i
         | inr _ => None
         end
  end.

(** ** [PersistentNode] (node/persistent.rs) *)
Definition hash (self : PersistentNode) : Blake3Hash := blake3 (buffer self).

Definition body (self : PersistentNode) : tree_result (PersistentNodeBody K V) :=
  ok_or (AccessError "invalid archive") (access (buffer self)).

Definition to_link (self : PersistentNode) : tree_result (Link K) :=
  b ← body self;
  bound ← body_upper_bound b;
  Ok (mkLink bound (hash self)).

Definition node_upper_bound (self : PersistentNode) : tree_result (option K) :=
  b ← body self;
  Ok match b return option K with
     | Index links => link_upper_bound <$> last links
     | Segment entries => key <$> last entries
     end.

Definition as_index (self : PersistentNode) : tree_result (list (Link K)) :=
  b ← body self;
  match b with
  | Index links => Ok links
  | Segment _ =>
      Err (AccessError "Attempted to interpret a segment node as an index node")
  end.

Definition as_segment (self : PersistentNode) : tree_result (list (Entry K V)) :=
  b ← body self;
  match b with
  | Segment entries => Ok entries
  | Index _ =>
      Err (AccessError "Attempted to interpret a index node as an segment node")
  end.

Definition get_child_index (self : PersistentNode) (k : K) : tree_result (option nat) :=
  b ← body self;
  Ok match
       match b with
       | Index links => binary_search_by (fun l => cmp (link_upper_bound l) k) links
       | Segment entries => binary_search_by (fun e => cmp (key e) k) entries
       end
     with inl i => Some i | inr _ => None end.

(** [TryFrom<Vec<Link>>] and [TryFrom<Vec<Entry>>] for [PersistentNodeBody]. *)
Definition body_from_links (links : list (Link K)) : tree_result (PersistentNodeBody K V) :=
  match links with
  | [] => Err (NodeError "Attempted to create an index from zero links")
  | _ => Ok (Index links)
  end.

Definition body_from_entries (entries : list (Entry K V))
    : tree_result (PersistentNodeBody K V) :=
  match entries with
  | [] => Err (NodeError "Attempted to create an index from zero links")
  | _ => Ok (Segment entries)
  end.

(** [PersistentNodeBody::as_bytes]. *)
Definition body_as_bytes (b : PersistentNodeBody K V) : tree_result bytes :=
  ok_or (EncodingError "serialization failed") (to_bytes b).

(** ** [Node] and [TransientNode] (node.rs, node/transient.rs) *)
Definition into_transient (self : Node K V) : tree_result (TransientNode K V) :=
  match self with
  | Transient t => Ok t
  | Persistent _ => Err (NodeError "Expected a lifted transient node")
  end.

(** [Node::upper_bound_ref] (and [upper_bound], its clone): the bound carried
    by a link, or the key of the rightmost descendant entry. *)
Fixpoint upper_bound (self : Node K V) : tree_result K :=
  match self with
  | Persistent link => Ok (link_upper_bound link)
  | Transient t => transient_upper_bound t
  end
with transient_upper_bound (t : TransientNode K V) : tree_result K :=
  match t with
  | TransientIndex children =>
      (fix last_bound (cs : list (Node K V)) : tree_result K :=
         match cs with
         | [] => Err (NodeError "Index was unexpectedly empty")
         | [c] => upper_bound c
         | _ :: cs => last_bound cs
         end) children
  | TransientSegment entries =>
      ok_or (NodeError "Segment was unexpectedly empty") (key <$> last entries)
  end.

Definition transient_as_index (self : TransientNode K V) : tree_result (list (Node K V)) :=
  match self with
  | TransientIndex children => Ok children
  | TransientSegment _ =>
      Err (NodeError "Attempted to interpret a segment node as an index node")
  end.

Definition transient_as_segment (self : TransientNode K V) : tree_result (list (Entry K V)) :=
  match self with
  | TransientSegment entries => Ok entries
  | TransientIndex _ =>
      Err (NodeError "Attempted to interpret an index node as a segment node")
  end.

(** [TransientNode::child_mut]: the already lifted child at [at_]. *)
Definition child_mut (self : TransientNode K V) (at_ : nat) : tree_result (TransientNode K V) :=
  children ← transient_as_index self;
  match children !! at_ with
  | Some (Transient child) => Ok child
  | Some (Persistent _) =>
      Err (NodeError "Re-shape path descended into a node that was not lifted")
  | None => Err (NodeError "Re-shape path child index out of range")
  end.

(** [TransientNode::open_index] and [TryFrom<&PersistentNode>]: one level is
    opened, the grandchildren stay references. *)
Definition open_index (node : PersistentNode) : tree_result (list (Node K V)) :=
  as_index node ≫= fun links : list (Link K) =>
  Ok (Persistent <$> links).

Definition transient_try_from (node : PersistentNode) : tree_result (TransientNode K V) :=
  b ← body node;
  match b with
  | Index _ => children ← open_index node; Ok (TransientIndex children)
  | Segment entries => Ok (TransientSegment entries)
  end.

(** [TransientNode::persist] and [Node::into_link]: bottom-up serialization;
    each new node is recorded in the delta under its hash. *)
Definition seal_node (b : tree_result (PersistentNodeBody K V))
    : stateful Delta.t DialogSearchTreeError PersistentNode :=
  node_bytes ← lift_outcome (b ≫= body_as_bytes);
  let node := mkPersistentNode node_bytes in
  _ ← modify (fun delta => Delta.add delta (hash node) (buffer node));
  mret node.

Fixpoint into_link (self : Node K V)
    : stateful Delta.t DialogSearchTreeError (Link K) :=
  match self with
  | Persistent link => mret link
  | Transient t => node ← persist t; lift_outcome (to_link node)
  end
with persist (self : TransientNode K V)
    : stateful Delta.t DialogSearchTreeError PersistentNode :=
  match self with
  | TransientSegment entries => seal_node (body_from_entries entries)
  | TransientIndex children =>
      links ← (fix collect (cs : list (Node K V))
                 : stateful Delta.t DialogSearchTreeError (list (Link K)) :=
                 match cs with
                 | [] => mret []
                 | c :: cs => l ← into_link c; ls ← collect cs; mret (l :: ls)
                 end) children;
      seal_node (body_from_links links)
  end.

(** ** The canonical cut rule *)
Definition BOTTOM_RANK : Rank := 1.

(** The loop of [group_by_rank]: [groups] are the closed groups and [pending]
    the open one. *)
Fixpoint group_by_rank_loop {C} (children : list (C * Rank)) (level_threshold : Rank)
    (groups : list (list C)) (pending : list C) : list (list C) :=
  match children with
  | [] => if decide (length pending = 0%nat) then groups else groups ++ [pending]
  | (child, r) :: children =>
      let pending := pending ++ [child] in
      if decide (level_threshold < r)%nat
      then group_by_rank_loop children level_threshold (groups ++ [pending]) []
      else group_by_rank_loop children level_threshold groups pending
  end.
Definition group_by_rank {C} (children : list (C * Rank)) (level_threshold : Rank)
    : list (list C) := group_by_rank_loop children level_threshold [] [].

Definition rank_of_node (node : Node K V) : tree_result Rank :=
  bound ← upper_bound node; Ok (rank (key_as_ref bound)).

Definition regroup_children (children : list (Node K V)) (level : Rank)
    : tree_result (list (Node K V)) :=
  ranked ← map_outcome (fun child => r ← rank_of_node child; Ok (child, r)) children;
  Ok ((fun group => Transient (TransientIndex group)) <$>
        group_by_rank ranked (BOTTOM_RANK + level)).

Definition regroup_entries (entries : list (Entry K V)) : list (Node K V) :=
  (fun group => Transient (TransientSegment group)) <$>
    group_by_rank ((fun e => (e, rank (key_as_ref (key e)))) <$> entries) BOTTOM_RANK.
End nodes.

(** * Groups

    Cutting a list after every boundary element: the combinatorics behind the
    canonical shape of the tree.  [grp f] is the specification of
    [group_by_rank] (node/transient.rs). *)
Section grouping.
Context {A : Type} (f : A -> bool).

(** A group ends right after an element that satisfies [f], or with the list. *)
Fixpoint grp (l : list A) : list (list A) :=
  match l with
  | [] => []
  | x :: l =>
      if f x then [x] :: grp l
      else match grp l with [] => [[x]] | g :: gs => (x :: g) :: gs end
  end.

(** Nothing follows [l] in its last group. *)
Definition closed (l : list A) : Prop :=
  match last l with None => True | Some x => f x = true end.

Lemma closed_nil : closed [].
Proof. done. Qed.

Lemma closed_snoc l x : closed (l ++ [x]) <-> f x = true.
Proof. unfold closed. by rewrite last_snoc. Qed.

Lemma closed_app_r l k : k <> [] -> closed (l ++ k) <-> closed k.
Proof.
  intros Hk. unfold closed. destruct (last k) eqn:E.
  - by rewrite last_app, E.
  - by apply last_None in E.
Qed.

Lemma closed_cons x l : l <> [] -> closed (x :: l) <-> closed l.
Proof. apply (closed_app_r [x]). Qed.

Lemma concat_grp l : concat (grp l) = l.
Proof.
  induction l as [|x l IH]; [done|]; simpl. destruct (f x); simpl.
  - by rewrite IH.
  - destruct (grp l) as [|g gs]; simpl in *; by rewrite <- IH.
Qed.

Lemma grp_nil_iff l : grp l = [] <-> l = [].
Proof.
  destruct l as [|x l]; simpl; [done|].
  split; [|done]. destruct (f x); [done|]. by destruct (grp l).
Qed.

Lemma grp_nonempty l : Forall (fun g => g <> []) (grp l).
Proof.
  induction l as [|x l IH]; simpl; [done|].
  destruct (f x); [by constructor|].
  destruct IH; by repeat constructor.
Qed.

Lemma grp_app l k : closed l -> grp (l ++ k) = grp l ++ grp k.
Proof.
  induction l as [|x l IH]; [done|]; simpl. intros Hc.
  destruct (f x) eqn:E.
  - simpl. f_equal. apply IH. destruct l; [done|]. by rewrite closed_cons in Hc.
  - destruct l as [|y l]; [by unfold closed in Hc; simpl in Hc; congruence|].
    rewrite closed_cons in Hc by done. rewrite IH by done.
    destruct (grp (y :: l)) eqn:E2; [by apply grp_nil_iff in E2 | done].
Qed.

(** Inside a group only the last element is a boundary. *)
Definition run (l : list A) : Prop :=
  forall a x b, l = a ++ x :: b -> b <> [] -> f x = false.

Lemma grp_single l : grp l = [l] <-> l <> [] /\ run l.
Proof.
  split.
  - intros E. split; [intros ->; done|]. intros a x b -> Hb.
    destruct (f x) eqn:Ex; [exfalso|done].
    rewrite (cons_middle x a b) in E at 1.
    rewrite app_assoc, grp_app in E by by apply closed_snoc.
    apply (f_equal length) in E. rewrite length_app in E; simpl in E.
    destruct (grp (a ++ [x])) eqn:E1.
    { apply grp_nil_iff in E1. by destruct a. }
    destruct (grp b) eqn:E2; [by apply grp_nil_iff in E2|]. simpl in E; lia.
  - intros [Hn Hr]. induction l as [|x l IH]; [done|]; simpl.
    destruct l as [|y l].
    { by destruct (f x). }
    rewrite (Hr [] x (y :: l)) by done. rewrite IH; [done|done|].
    intros a z b E Hb. apply (Hr (x :: a) z b); [by rewrite E | done].
Qed.

(** A list of groups splits anywhere; what is before the split is closed. *)
Lemma run_single x : run [x].
Proof. intros [|y a] z b; simpl; [by intros [= <- <-]|]. intros [= _ E]. by destruct a. Qed.

Lemma run_app l k : k <> [] -> run (l ++ k) <-> Forall (fun x => f x = false) l /\ run k.
Proof.
  intros Hk. split.
  - intros Hr. split.
    + apply Forall_forall. intros x (a & b & ->)%list_elem_of_split.
      apply (Hr a x (b ++ k)); [by rewrite <- app_assoc|]. by destruct b.
    + intros a x b -> Hb. apply (Hr (l ++ a) x b); [by rewrite app_assoc|done].
  - intros [Hl Hr] a x b E Hb.
    destruct (app_eq_inv _ _ _ _ E) as [(c & -> & E')|(c & -> & E')].
    + destruct c as [|y c]; [by apply (Hr [] x b)|]. injection E' as -> ->.
      rewrite Forall_app, Forall_cons in Hl. naive_solver.
    + by apply (Hr c x b).
Qed.

Lemma run_cons x l : l <> [] -> run (x :: l) <-> f x = false /\ run l.
Proof.
  intros Hl. rewrite (run_app [x] l) by done. by rewrite Forall_singleton.
Qed.

Lemma grp_split l gs1 gs2 :
  grp l = gs1 ++ gs2 ->
  (gs2 <> [] -> closed (concat gs1)) /\ grp (concat gs1) = gs1 /\ grp (concat gs2) = gs2.
Proof.
  revert gs1; induction l as [|x l IH]; intros gs1; simpl.
  { intros E. symmetry in E. apply app_eq_nil in E as [-> ->]. done. }
  destruct (f x) eqn:E.
  - destruct gs1 as [|g gs1]; simpl; intros H0.
    + rewrite <- H0. simpl. rewrite E, concat_grp. split_and!; done.
    + injection H0 as <- H0. destruct (IH _ H0) as (Hc & H1 & H2).
      split_and!; [|simpl; by rewrite E, H1|done].
      intros Hn. simpl. destruct (concat gs1) eqn:Eg.
      * apply (closed_snoc []); done.
      * apply closed_cons; [done|]. by apply Hc.
  - destruct (grp l) as [|g gs] eqn:Eg.
    + apply grp_nil_iff in Eg as ->. destruct gs1 as [|g1 gs1]; simpl; intros H0.
      * rewrite <- H0. simpl. rewrite E. split_and!; done.
      * injection H0 as <- H0. symmetry in H0. apply app_eq_nil in H0 as [-> ->].
        simpl. rewrite E. split_and!; done.
    + destruct gs1 as [|g1 gs1]; simpl; intros H0.
      * rewrite <- H0. simpl. rewrite E.
        assert (g ++ concat gs = l) as -> by (rewrite <- (concat_grp l), Eg; done).
        by rewrite Eg.
      * injection H0 as <- H0. destruct (IH (g :: gs1)) as (Hc & H1 & H2).
        { simpl. by rewrite H0. }
        simpl in H1, Hc. simpl. rewrite E, H1. split_and!; [|done|done].
        intros Hn. apply closed_cons; [|by apply Hc].
        intros [-> _]%app_eq_nil. pose proof (grp_nonempty l) as Hne.
        rewrite Eg in Hne. by inversion Hne.
Qed.

Lemma grp_last_closed l gs g x :
  grp l = gs ++ [g] -> last l = Some x -> last g = Some x.
Proof.
  intros Hg Hx. assert (l = concat gs ++ g) as ->.
  { rewrite <- (concat_grp l), Hg, concat_app; simpl. by rewrite app_nil_r. }
  rewrite last_app in Hx. destruct (last g) eqn:E; [done|].
  apply last_None in E as ->. pose proof (grp_nonempty (concat gs ++ [])) as Hne.
  rewrite Hg, Forall_app in Hne. destruct Hne as [_ Hne]. by inversion Hne.
Qed.

(** Every group but the last ends with a boundary. *)
Lemma grp_closed_group l gs1 g gs2 :
  grp l = gs1 ++ g :: gs2 -> gs2 <> [] -> closed g.
Proof.
  intros Hg Hn. rewrite (cons_middle g gs1 gs2), app_assoc in Hg.
  pose proof (grp_split _ _ _ Hg) as (Hc & _ & _).
  rewrite concat_app in Hc; simpl in Hc; rewrite app_nil_r in Hc.
  rewrite closed_app_r in Hc by
    (pose proof (grp_nonempty l) as Hne; rewrite Hg, !Forall_app in Hne;
     destruct Hne as [[_ Hne] _]; by inversion Hne).
  by apply Hc.
Qed.

Lemma length_grp_le l : (length (grp l) <= length l)%nat.
Proof.
  rewrite <- (concat_grp l) at 2. pose proof (grp_nonempty l) as Hne.
  induction Hne as [|g gs Hg _ IH]; simpl; [done|].
  rewrite length_app. destruct g; [done|]; simpl; lia.
Qed.
End grouping.

Lemma grp_ext {A} (f g : A -> bool) l :
  (forall x, x ∈ l -> f x = g x) -> grp f l = grp g l.
Proof.
  induction l as [|x l IH]; [done|]; simpl; intros E.
  rewrite (E x) by set_solver. rewrite IH; [done|]. intros; apply E; set_solver.
Qed.

Lemma closed_impl {A} (f g : A -> bool) l :
  (forall x, f x = true -> g x = true) -> closed f l -> closed g l.
Proof. intros Hfg. unfold closed. destruct (last l); auto. Qed.

Lemma grp_fmap {A B} (f : B -> bool) (h : A -> B) (l : list A) :
  grp f (h <$> l) = (fmap (M := list) h) <$> grp (f ∘ h) l.
Proof.
  induction l as [|x l IH]; [done|]; csimpl. rewrite IH.
  destruct (f (h x)); [done|]. by destruct (grp (f ∘ h) l).
Qed.

(** The loop of [group_by_rank] computes the groups. *)
Lemma group_by_rank_loop_spec {C} (l : list (C * Rank)) t groups pending :
  group_by_rank_loop l t groups pending =
  groups ++ match pending, (fmap (M := list) fst) <$> grp (fun c => bool_decide (t < c.2)%nat) l with
            | [], gs => gs
            | _, [] => [pending]
            | _, g :: gs => (pending ++ g) :: gs
            end.
Proof.
  revert groups pending; induction l as [|[c r] l IH]; intros groups pending; csimpl.
  - destruct pending; simpl; [by rewrite app_nil_r | done].
  - rewrite !IH. case_bool_decide as E; destruct (decide (t < r)%nat); try done; simpl.
    + rewrite <- app_assoc; csimpl. f_equal. by destruct pending.
    + destruct pending as [|p pending]; csimpl;
        destruct (grp _ l) as [|g gs]; csimpl; try done.
      by rewrite <- app_assoc.
Qed.

Lemma group_by_rank_spec {C} (l : list (C * Rank)) t :
  group_by_rank l t = (fmap (M := list) fst) <$> grp (fun c => bool_decide (t < c.2)%nat) l.
Proof. unfold group_by_rank. by rewrite group_by_rank_loop_spec. Qed.

(** The same when the ranks are computed from the children. *)
Lemma group_by_rank_fn {C} (rk : C -> Rank) (l : list C) t :
  group_by_rank ((fun c => (c, rk c)) <$> l) t = grp (fun c => bool_decide (t < rk c)%nat) l.
Proof.
  rewrite group_by_rank_spec, grp_fmap, <- list_fmap_compose.
  rewrite (list_fmap_ext _ id), list_fmap_id; [done|]. intros _ g _.
  unfold compose. rewrite <- list_fmap_compose, (list_fmap_ext _ id), list_fmap_id; done.
Qed.
