(* ===== verification/SortedEntries.v ===== *)
(** The abstract contents of a tree: entries in strictly ascending key order,
    with the finite-map operations the tree implements. *)
From S2P Require Import Prelude Common Nodes.

Section entries.
Context {K V : Type} `{Key K}.
Implicit Types (e : Entry K V) (es : list (Entry K V)) (k : K).

Definition entry_lt (e1 e2 : Entry K V) : Prop := key e1 ≺ key e2.
Abbreviation sorted es := (StronglySorted entry_lt es).

(** Insert, or replace the value of an entry that has the key. *)
Fixpoint upsert e es : list (Entry K V) :=
  match es with
  | [] => [e]
  | x :: es =>
      match cmp (key e) (key x) with
      | Lt => e :: x :: es
      | Eq => mkEntry (key x) (value e) :: es
      | Gt => x :: upsert e es
      end
  end.

Fixpoint remove k es : list (Entry K V) :=
  match es with
  | [] => []
  | x :: es =>
      match cmp k (key x) with
      | Lt => x :: es
      | Eq => es
      | Gt => x :: remove k es
      end
  end.

Fixpoint lookup_entry k es : option V :=
  match es with
  | [] => None
  | x :: es =>
      match cmp k (key x) with
      | Lt => None
      | Eq => Some (value x)
      | Gt => lookup_entry k es
      end
  end.

Definition last_key es : option K := key <$> last es.

Lemma sorted_app es1 es2 :
  sorted (es1 ++ es2) <->
  sorted es1 /\ sorted es2 /\
  (forall e1 e2, e1 ∈ es1 -> e2 ∈ es2 -> key e1 ≺ key e2).
Proof.
  induction es1 as [|x es1 IH]; simpl.
  - split; [intros; split_and!; [constructor|done|set_solver] | by intros (_ & ? & _)].
  - split.
    + inversion 1 as [|? ? Hs Hx]; subst. apply IH in Hs as (H1 & H2 & H3).
      rewrite Forall_app, !Forall_forall in Hx. destruct Hx as [Hx1 Hx2].
      split_and!; [constructor; [done | by apply Forall_forall] | done |].
      intros e1 e2 [->|]%elem_of_cons ?; [by apply Hx2 | by apply H3].
    + intros (H1 & H2 & H3). inversion H1 as [|? ? Hs Hx]; subst. constructor.
      * apply IH. split_and!; [done|done|]. intros; apply H3; set_solver.
      * rewrite Forall_app. split; [done|]. apply Forall_forall. intros.
        apply H3; set_solver.
Qed.

Lemma sorted_cons e es :
  sorted (e :: es) <-> sorted es /\ (forall x, x ∈ es -> key e ≺ key x).
Proof.
  split.
  - inversion 1; subst. by rewrite <- Forall_forall.
  - intros [? ?]. constructor; [done | by apply Forall_forall].
Qed.

Lemma upsert_elem e es x : x ∈ upsert e es -> key x = key e \/ x ∈ es.
Proof.
  induction es as [|y es IH]; simpl.
  - set_solver.
  - destruct (cmp (key e) (key y)) eqn:E.
    + apply cmp_eq in E. set_solver.
    + set_solver.
    + set_solver.
Qed.

Lemma remove_elem k es x : x ∈ remove k es -> x ∈ es.
Proof. induction es as [|y es IH]; simpl; [done|]. destruct (cmp _ _); set_solver. Qed.

Lemma upsert_sorted e es : sorted es -> sorted (upsert e es).
Proof.
  induction es as [|x es IH]; simpl; intros Hs.
  - repeat constructor.
  - apply sorted_cons in Hs as [Hs Hx]. destruct (cmp (key e) (key x)) eqn:E.
    + apply sorted_cons; simpl; auto.
    + apply sorted_cons; split; [by apply sorted_cons|].
      intros y [->|Hy]%elem_of_cons; [order|]. specialize (Hx y Hy). order.
    + apply sorted_cons; split; [auto|].
      intros y [->|Hy]%upsert_elem; [order | auto].
Qed.

Lemma remove_sorted k es : sorted es -> sorted (remove k es).
Proof.
  induction es as [|x es IH]; simpl; intros Hs; [done|].
  pose proof Hs as [Hs' Hx]%sorted_cons. destruct (cmp k (key x)); [done|done|].
  apply sorted_cons; split; [auto|]. intros y Hy%remove_elem; auto.
Qed.

Lemma lookup_below k es :
  sorted es -> (forall x, x ∈ es -> k ≺ key x) -> lookup_entry k es = None.
Proof.
  destruct es as [|x es]; simpl; [done|]. intros _ Hk.
  specialize (Hk x ltac:(set_solver)). unfold olt in Hk. by rewrite Hk.
Qed.

Lemma lookup_upsert k e es :
  sorted es ->
  lookup_entry k (upsert e es) =
  if decide (k = key e) then Some (value e) else lookup_entry k es.
Proof.
  induction es as [|x es IH]; intros Hs; simpl.
  - case_decide as E; [subst; by rewrite cmp_refl|].
    destruct (cmp k (key e)) eqn:E2; [by apply cmp_eq in E2 | done | done].
  - apply sorted_cons in Hs as [Hs Hx]. destruct (cmp (key e) (key x)) eqn:E; simpl.
    + apply cmp_eq in E. rewrite <- E. case_decide; [subst; by rewrite cmp_refl|].
      destruct (cmp k (key e)) eqn:E2; [by apply cmp_eq in E2 | done | done].
    + case_decide; [subst; by rewrite cmp_refl|].
      destruct (cmp k (key e)) eqn:E2; [by apply cmp_eq in E2 | | done].
      rewrite (cmp_trans k (key e) (key x)); done.
    + rewrite IH by done. case_decide; [|done]. subst. by rewrite E.
Qed.

Lemma lookup_remove k k' es :
  sorted es ->
  lookup_entry k (remove k' es) = if decide (k = k') then None else lookup_entry k es.
Proof.
  induction es as [|x es IH]; intros Hs; simpl; [by case_decide|].
  pose proof Hs as [Hs' Hx]%sorted_cons. destruct (cmp k' (key x)) eqn:E; simpl.
  - apply cmp_eq in E. case_decide as Ek.
    + apply lookup_below; [done|]. by subst.
    + destruct (cmp k (key x)) eqn:E2; [by apply cmp_eq in E2; subst | | done].
      apply lookup_below; [done|]. intros y Hy. specialize (Hx y Hy). order.
  - case_decide; [|done]. subst. by rewrite E.
  - rewrite IH by done. case_decide; [|done]. subst. by rewrite E.
Qed.

(** Sorted contents are determined by their lookups. *)
Lemma lookup_Some_elem k v es : lookup_entry k es = Some v -> mkEntry k v ∈ es.
Proof.
  induction es as [|x es IH]; simpl; [done|]. destruct (cmp k (key x)) eqn:E; [|done|].
  - intros [= <-]. apply cmp_eq in E as ->. destruct x; set_solver.
  - set_solver.
Qed.

Lemma elem_lookup e es : sorted es -> e ∈ es -> lookup_entry (key e) es = Some (value e).
Proof.
  induction es as [|x es IH]; [set_solver|]. intros Hs [->|He]%elem_of_cons; simpl.
  - by rewrite cmp_refl.
  - apply sorted_cons in Hs as [Hs Hx]. specialize (Hx _ He).
    destruct (cmp (key e) (key x)) eqn:E; [order | order | auto].
Qed.

Lemma sorted_ext es1 es2 :
  sorted es1 -> sorted es2 ->
  (forall k, lookup_entry k es1 = lookup_entry k es2) -> es1 = es2.
Proof.
  revert es2; induction es1 as [|x es1 IH]; intros [|y es2] Hs1 Hs2 E; [done|..].
  - specialize (E (key y)). simpl in E. by rewrite cmp_refl in E.
  - specialize (E (key x)). simpl in E. by rewrite cmp_refl in E.
  - pose proof Hs1 as [Hs1' Hx]%sorted_cons. pose proof Hs2 as [Hs2' Hy]%sorted_cons.
    assert (key x = key y) as Exy.
    { destruct (ord_total (key x) (key y)) as [Hlt|[?|Hlt]]; [|done|].
      - specialize (E (key x)). simpl in E. rewrite cmp_refl in E.
        unfold olt in Hlt. by rewrite Hlt in E.
      - specialize (E (key y)). simpl in E. rewrite cmp_refl in E.
        unfold olt in Hlt. by rewrite Hlt in E. }
    f_equal.
    + specialize (E (key x)). simpl in E. rewrite <- Exy, !cmp_refl in E.
      injection E. destruct x, y; simpl in *; congruence.
    + apply IH; [done|done|]. intros k. specialize (E k). simpl in E.
      rewrite <- Exy in E. destruct (cmp k (key x)) eqn:Ek; [| |done].
      * apply cmp_eq in Ek as ->. rewrite !lookup_below; try done.
        by rewrite Exy.
      * rewrite !lookup_below; try done; intros z Hz;
          [specialize (Hy z Hz); rewrite <- Exy in Hy | specialize (Hx z Hz)]; order.
Qed.

(** ** Locality: an operation at [k] only touches the part that covers [k]. *)
Lemma upsert_app_r e es1 es2 :
  (forall x, x ∈ es1 -> key x ≺ key e) -> upsert e (es1 ++ es2) = es1 ++ upsert e es2.
Proof.
  induction es1 as [|x es1 IH]; [done|]; simpl. intros Hx.
  assert (cmp (key e) (key x) = Gt) as -> by (apply cmp_gt, Hx; set_solver).
  f_equal. apply IH. set_solver.
Qed.

Lemma upsert_app_l e es1 es2 :
  (exists x, x ∈ es1 /\ key e ≼ key x) -> upsert e (es1 ++ es2) = upsert e es1 ++ es2.
Proof.
  induction es1 as [|y es1 IH]; simpl; intros (x & Hx & Hle); [set_solver|].
  destruct (cmp (key e) (key y)) eqn:E; [done|done|]. simpl. f_equal. apply IH.
  apply elem_of_cons in Hx as [->|]; [|eauto]. order.
Qed.

Lemma remove_app_r k es1 es2 :
  (forall x, x ∈ es1 -> key x ≺ k) -> remove k (es1 ++ es2) = es1 ++ remove k es2.
Proof.
  induction es1 as [|x es1 IH]; [done|]; simpl. intros Hx.
  assert (cmp k (key x) = Gt) as -> by (apply cmp_gt, Hx; set_solver).
  f_equal. apply IH. set_solver.
Qed.

Lemma remove_app_l k es1 es2 :
  (exists x, x ∈ es1 /\ k ≼ key x) -> remove k (es1 ++ es2) = remove k es1 ++ es2.
Proof.
  induction es1 as [|y es1 IH]; simpl; intros (x & Hx & Hle); [set_solver|].
  destruct (cmp k (key y)) eqn:E; [done|done|]. simpl. f_equal. apply IH.
  apply elem_of_cons in Hx as [->|]; [|eauto]. order.
Qed.

Lemma lookup_entry_app_r k es1 es2 :
  (forall x, x ∈ es1 -> key x ≺ k) -> lookup_entry k (es1 ++ es2) = lookup_entry k es2.
Proof.
  induction es1 as [|x es1 IH]; [done|]; simpl. intros Hx.
  assert (cmp k (key x) = Gt) as -> by (apply cmp_gt, Hx; set_solver).
  apply IH. set_solver.
Qed.

Lemma lookup_entry_app_l k es1 es2 :
  (exists x, x ∈ es1 /\ k ≼ key x) -> lookup_entry k (es1 ++ es2) = lookup_entry k es1.
Proof.
  induction es1 as [|y es1 IH]; simpl; intros (x & Hx & Hle); [set_solver|].
  destruct (cmp k (key y)) eqn:E; [done|done|]. apply IH.
  apply elem_of_cons in Hx as [->|]; [|eauto]. order.
Qed.

Lemma last_key_Some es k : last_key es = Some k -> exists e, e ∈ es /\ key e = k.
Proof.
  unfold last_key. destruct (last es) as [e|] eqn:E; simpl; [|done]. intros [= <-].
  exists e. split; [|done]. by apply last_Some_elem_of.
Qed.

Lemma last_key_snoc es e : last_key (es ++ [e]) = Some (key e).
Proof. unfold last_key. by rewrite last_snoc. Qed.

Lemma last_key_max es e k :
  sorted es -> last_key es = Some k -> e ∈ es -> key e ≼ k.
Proof.
  destruct es as [|x es _] using rev_ind; [done|]. rewrite last_key_snoc.
  intros (_ & _ & Hlt)%sorted_app [= <-] [He| ->%list_elem_of_singleton]%elem_of_app.
  - apply olt_le, Hlt; set_solver.
  - apply ole_refl.
Qed.

(** An insertion at or below the last key, and the removal of another key,
    leave the last key as it is. *)
Lemma upsert_nonempty e es : upsert e es <> [].
Proof. destruct es as [|x es]; simpl; [done|]. by destruct (cmp _ _). Qed.

Lemma last_key_cons e es : es <> [] -> last_key (e :: es) = last_key es.
Proof. unfold last_key. by destruct es. Qed.

Lemma last_key_upsert e es k :
  last_key es = Some k -> key e ≼ k -> last_key (upsert e es) = Some k.
Proof.
  induction es as [|x es IH]; [done|]; simpl. intros Hl Hle.
  destruct es as [|y es].
  - unfold last_key in Hl; simpl in Hl. injection Hl as <-.
    simpl. destruct (cmp (key e) (key x)) eqn:E; [done|done|order].
  - rewrite last_key_cons in Hl by done.
    destruct (cmp (key e) (key x)) eqn:E.
    + by rewrite last_key_cons.
    + rewrite last_key_cons by done. by rewrite last_key_cons.
    + rewrite last_key_cons by apply upsert_nonempty. by apply IH.
Qed.

Lemma last_key_remove k es k' :
  last_key es = Some k' -> k <> k' -> last_key (remove k es) = Some k'.
Proof.
  induction es as [|x es IH]; [done|]; simpl. intros Hl Hne.
  destruct es as [|y es].
  - unfold last_key in Hl; simpl in Hl. injection Hl as <-.
    simpl. destruct (cmp k (key x)) eqn:E; [by apply cmp_eq in E|done|done].
  - rewrite last_key_cons in Hl by done. destruct (cmp k (key x)) eqn:E.
    + done.
    + by rewrite last_key_cons.
    + specialize (IH Hl Hne). rewrite last_key_cons; [done|].
      intros E0. by rewrite E0 in IH.
Qed.

Lemma remove_snoc es e : sorted (es ++ [e]) -> remove (key e) (es ++ [e]) = es.
Proof.
  intros (_ & _ & Hlt)%sorted_app. rewrite remove_app_r by set_solver.
  simpl. rewrite cmp_refl. by rewrite app_nil_r.
Qed.

Lemma remove_absent k es : sorted es -> lookup_entry k es = None -> remove k es = es.
Proof.
  induction es as [|x es IH]; [done|]; simpl. intros [Hs _]%sorted_cons.
  destruct (cmp k (key x)); [done|done|]. intros. by rewrite IH.
Qed.

(** A sorted sequence is checked by comparing neighbors. *)
Fixpoint sortedb es : bool :=
  match es with
  | e1 :: ((e2 :: _) as es) => oltb (key e1) (key e2) && sortedb es
  | _ => true
  end.

Lemma sortedb_sorted es : sortedb es = true -> sorted es.
Proof.
  induction es as [|e1 [|e2 es] IH]; [constructor|repeat constructor|].
  cbn [sortedb]. intros [Hlt%oltb_spec Hs]%andb_true_iff. specialize (IH Hs).
  apply sorted_cons. split; [done|]. apply sorted_cons in IH as [_ Hlt2].
  intros x [->|Hx]%elem_of_cons; [done|]. specialize (Hlt2 _ Hx). order.
Qed.
End entries.
Abbreviation sorted es := (StronglySorted entry_lt es).
