(* ===== verification/Forest.v ===== *)
(** The canonical shape of a tree as a function of its entries.

    [forest h es] is the row of height-[h] nodes over the entries [es]: segments
    are cut after every entry whose rank exceeds [BOTTOM_RANK], and the nodes of
    height [h] are grouped into nodes of height [h + 1] after every node whose
    upper bound has a rank above [BOTTOM_RANK + (h + 1)].  [canon es] is the root
    of the canonical tree: the lowest row of height at least one that is a
    single node (the root is always an index). *)
From S2P Require Import Prelude Common Nodes SortedEntries.

(** A tree with every reference resolved. *)
Inductive ptree (K V : Type) : Type :=
  | PSegment (entries : list (Entry K V))
  | PIndex (children : list (ptree K V)).
Arguments PSegment {K V} entries.
Arguments PIndex {K V} children.

Section ptree_ind.
Context {K V : Type} (P : ptree K V -> Prop)
  (Hseg : forall es, P (PSegment es))
  (Hidx : forall ps, Forall P ps -> P (PIndex ps)).

Fixpoint ptree_nested_ind (p : ptree K V) : P p :=
  match p with
  | PSegment es => Hseg es
  | PIndex ps =>
      Hidx ps ((fix go ps : Forall P ps :=
                  match ps with
                  | [] => Forall_nil_2 P
                  | p :: ps => Forall_cons_2 P p ps (ptree_nested_ind p) (go ps)
                  end) ps)
  end.
End ptree_ind.

Section forest.
Context {K V : Type} `{Key K} {D : Distribution}.
Implicit Types (es : list (Entry K V)) (p : ptree K V) (ps : list (ptree K V)).

Fixpoint flatten p : list (Entry K V) :=
  match p with
  | PSegment es => es
  | PIndex ps =>
      (fix go ps := match ps with [] => [] | p :: ps => flatten p ++ go ps end) ps
  end.
Definition flattens ps : list (Entry K V) := concat (flatten <$> ps).

Definition key_rank (k : K) : Rank := rank (key_as_ref k).

(** A key that closes a node of height [h]. *)
Definition boundary (h : nat) (k : K) : bool := bool_decide (BOTTOM_RANK + h < key_rank k)%nat.
Definition ebound (h : nat) (e : Entry K V) : bool := boundary h (key e).
Definition pbound (h : nat) p : bool :=
  match last (flatten p) with Some e => ebound h e | None => false end.

Fixpoint forest (h : nat) es : list (ptree K V) :=
  match h with
  | O => PSegment <$> grp (ebound 0) es
  | S h => PIndex <$> grp (pbound (S h)) (forest h es)
  end.

Lemma flatten_index ps : flatten (PIndex ps) = flattens ps.
Proof.
  unfold flattens. induction ps as [|p ps IH]; [done|]. csimpl. by rewrite <- IH.
Qed.

Lemma flattens_app ps1 ps2 : flattens (ps1 ++ ps2) = flattens ps1 ++ flattens ps2.
Proof. unfold flattens. by rewrite fmap_app, concat_app. Qed.

Lemma flattens_cons p ps : flattens (p :: ps) = flatten p ++ flattens ps.
Proof. done. Qed.

Lemma flattens_single p : flattens [p] = flatten p.
Proof. unfold flattens; csimpl. by rewrite app_nil_r. Qed.

Lemma flattens_index gs : flattens (PIndex <$> gs) = flattens (concat gs).
Proof.
  induction gs as [|g gs IH]; [done|]. csimpl.
  by rewrite flattens_cons, flattens_app, flatten_index, IH.
Qed.

Lemma flattens_forest h es : flattens (forest h es) = es.
Proof.
  induction h as [|h IH]; simpl.
  - unfold flattens. rewrite <- list_fmap_compose, (list_fmap_ext _ id), list_fmap_id.
    + apply concat_grp.
    + done.
  - by rewrite flattens_index, concat_grp.
Qed.

Lemma forest_nil_iff h es : forest h es = [] <-> es = [].
Proof.
  induction h as [|h IH]; simpl; rewrite fmap_nil_iff, grp_nil_iff; done.
Qed.

Lemma forest_nonempty h es : Forall (fun p => flatten p <> []) (forest h es).
Proof.
  induction h as [|h IH]; simpl; apply Forall_fmap.
  - apply grp_nonempty.
  - apply Forall_forall. intros g Hg. unfold compose. rewrite flatten_index.
    pose proof (grp_nonempty (pbound (S h)) (forest h es)) as Hne.
    rewrite Forall_forall in Hne. specialize (Hne g Hg).
    destruct g as [|p g]; [done|]. rewrite flattens_cons. intros [Hp _]%app_eq_nil.
    rewrite Forall_forall in IH. apply (IH p); [|done].
    rewrite <- (concat_grp (pbound (S h)) (forest h es)).
    apply elem_of_concat. exists (p :: g). set_solver.
Qed.

(** The last node of a row ends with the last entry. *)
Lemma last_flattens ps p :
  flatten p <> [] -> last (flattens (ps ++ [p])) = last (flatten p).
Proof.
  intros Hp. rewrite flattens_app, flattens_single, last_app.
  destruct (last (flatten p)) eqn:E; [done|]. by apply last_None in E.
Qed.

Lemma closed_forest j h es : closed (pbound j) (forest h es) <-> closed (ebound j) es.
Proof.
  pose proof (forest_nonempty h es) as Hne. rewrite <- (flattens_forest h es) at 2.
  destruct (forest h es) as [|p ps _] using rev_ind; [done|].
  apply Forall_app in Hne as [_ Hne]. inversion Hne as [|? ? Hp _]; subst.
  rewrite closed_snoc. unfold closed. rewrite last_flattens by done. unfold pbound.
  destruct (last (flatten p)) eqn:E; [done|]. by apply last_None in E.
Qed.

Lemma boundary_mono h k : boundary (S h) k = true -> boundary h k = true.
Proof. unfold boundary. rewrite !bool_decide_eq_true. lia. Qed.

Lemma closed_mono h es : closed (ebound (S h)) es -> closed (ebound h) es.
Proof. apply closed_impl. intros e. apply boundary_mono. Qed.

(** Rows are local: they can be computed separately on both sides of a
    boundary. *)
Lemma forest_app h es1 es2 :
  closed (ebound h) es1 -> forest h (es1 ++ es2) = forest h es1 ++ forest h es2.
Proof.
  induction h as [|h IH]; simpl; intros Hc.
  - by rewrite grp_app, fmap_app.
  - rewrite IH by by apply closed_mono.
    rewrite grp_app by by apply closed_forest. by rewrite fmap_app.
Qed.

Lemma forest_split h es ps1 ps2 :
  forest h es = ps1 ++ ps2 ->
  es = flattens ps1 ++ flattens ps2 /\
  forest h (flattens ps1) = ps1 /\ forest h (flattens ps2) = ps2 /\
  (ps2 <> [] -> closed (ebound h) (flattens ps1)).
Proof.
  revert ps1 ps2; induction h as [|h IH]; simpl; intros ps1 ps2 E.
  - apply fmap_app_inv in E as (gs1 & gs2 & -> & -> & E).
    pose proof (grp_split _ _ _ _ E) as (Hc & H1 & H2).
    assert (forall gs, flattens (PSegment <$> gs) = concat gs) as Hf.
    { intros gs. unfold flattens.
      by rewrite <- list_fmap_compose, (list_fmap_ext _ id), list_fmap_id. }
    rewrite !Hf, H1, H2. split_and!; [|done|done|].
    + by rewrite <- (concat_grp (ebound 0) es), E, concat_app.
    + intros Hn. apply Hc. by intros ->.
  - apply fmap_app_inv in E as (gs1 & gs2 & -> & -> & E).
    pose proof (grp_split _ _ _ _ E) as (Hc & H1 & H2).
    assert (forest h es = concat gs1 ++ concat gs2) as Ef.
    { by rewrite <- (concat_grp (pbound (S h)) (forest h es)), E, concat_app. }
    destruct (IH _ _ Ef) as (He & Hf1 & Hf2 & Hcl).
    rewrite !flattens_index, Hf1, Hf2, H1, H2. split_and!; try done.
    intros Hn. rewrite <- (closed_forest _ h), Hf1. apply Hc. by intros ->.
Qed.

(** The children of a lone node of height [h + 1] are the row below it. *)
Lemma forest_index h es p :
  forest (S h) es = [p] -> p = PIndex (forest h es).
Proof.
  simpl. intros E. destruct (grp _ _) as [|g [|]] eqn:Eg; csimpl in E; try done.
  injection E as <-. f_equal.
  rewrite <- (concat_grp (pbound (S h)) (forest h es)), Eg; simpl.
  by rewrite app_nil_r.
Qed.

Lemma forest_segment es p : forest 0 es = [p] -> p = PSegment es.
Proof.
  simpl. intros E. destruct (grp _ _) as [|g [|]] eqn:Eg; csimpl in E; try done.
  injection E as <-. f_equal.
  rewrite <- (concat_grp (ebound 0) es), Eg; simpl. by rewrite app_nil_r.
Qed.

Lemma forest_flatten h es p : forest h es = [p] -> flatten p = es.
Proof. intros E. by rewrite <- (flattens_forest h es), E, flattens_single. Qed.

Lemma length_forest_S h es : (length (forest (S h) es) <= length (forest h es))%nat.
Proof. simpl. rewrite length_fmap. apply length_grp_le. Qed.

Lemma length_forest_mono h h' es :
  (h <= h')%nat -> (length (forest h' es) <= length (forest h es))%nat.
Proof.
  induction 1 as [|h' _ IH]; [done|]. pose proof (length_forest_S h' es). lia.
Qed.

(** Above every rank, one node holds everything. *)
Definition max_rank es : nat := max_list ((fun e => key_rank (key e)) <$> es).

Lemma max_rank_elem e es : e ∈ es -> (key_rank (key e) <= max_rank es)%nat.
Proof.
  intros He. apply max_list_elem_of_le. apply list_elem_of_fmap. eauto.
Qed.

Lemma pbound_high j h es p :
  (max_rank es <= BOTTOM_RANK + j)%nat -> p ∈ forest h es -> pbound j p = false.
Proof.
  intros Hr Hp. unfold pbound. destruct (last (flatten p)) as [e|] eqn:E; [|done].
  unfold ebound, boundary. apply bool_decide_eq_false. apply last_Some_elem_of in E.
  assert (e ∈ es) as He.
  { rewrite <- (flattens_forest h es). unfold flattens. apply elem_of_concat.
    exists (flatten p). split; [|done]. apply list_elem_of_fmap. eauto. }
  pose proof (max_rank_elem e es He). lia.
Qed.

Lemma forest_high h es :
  es <> [] -> (max_rank es <= BOTTOM_RANK + S h)%nat -> length (forest (S h) es) = 1%nat.
Proof.
  intros Hn Hr. simpl.
  rewrite (proj2 (grp_single (pbound (S h)) (forest h es))); [reflexivity|]. split.
  - by rewrite forest_nil_iff.
  - intros a p b E _. apply (pbound_high _ h es); [done|]. rewrite E. set_solver.
Qed.

(** ** The canonical root *)
Fixpoint climb (fuel h : nat) es : option (ptree K V) :=
  match forest h es with
  | [p] => Some p
  | _ => match fuel with O => None | S fuel => climb fuel (S h) es end
  end.
Definition canon es : option (ptree K V) :=
  match es with [] => None | _ => climb (max_rank es) 1 es end.

(** [h] is the height of the canonical root. *)
Definition canon_height (h : nat) es : Prop :=
  (1 <= h)%nat /\ length (forest h es) = 1%nat /\
  forall h', (1 <= h' < h)%nat -> (1 < length (forest h' es))%nat.

Lemma length_1 {A} (l : list A) : length l = 1%nat <-> exists x, l = [x].
Proof.
  split; [|by intros [x ->]]. destruct l as [|x [|]]; simpl; [lia|eauto|lia].
Qed.

Lemma climb_spec fuel h es :
  es <> [] -> (1 <= h)%nat -> (max_rank es <= fuel + h)%nat ->
  (forall h', (1 <= h' < h)%nat -> (1 < length (forest h' es))%nat) ->
  exists h' p, climb fuel h es = Some p /\ canon_height h' es /\ forest h' es = [p].
Proof.
  revert h; induction fuel as [|fuel IH]; intros h Hn Hh Hr Hlow.
  - assert (length (forest h es) = 1%nat) as Hl.
    { destruct h as [|h]; [lia|]. apply forest_high; [done|]. unfold BOTTOM_RANK. lia. }
    apply length_1 in Hl as [p Hp]. exists h, p.
    cbn [climb]. rewrite Hp. split_and!; [done| |done]. by split_and!; [|rewrite Hp|].
  - destruct (decide (length (forest h es) = 1%nat)) as [Hl|Hl].
    + pose proof Hl as [p Hp]%length_1. exists h, p.
      cbn [climb]. rewrite Hp. split_and!; [done| |done]. by split_and!.
    + assert (1 < length (forest h es))%nat.
      { destruct (forest h es) eqn:E; [by apply forest_nil_iff in E|]. simpl in *; lia. }
      destruct (IH (S h)) as (h' & p & Hc & Hch & Hp); [done|lia|lia|..].
      { intros h' Hh'. destruct (decide (h' = h)) as [->|]; [done|]. apply Hlow. lia. }
      exists h', p. split_and!; [|done|done]. cbn [climb].
      destruct (forest h es) as [|? [|]]; [done|done|done].
Qed.

Lemma canon_spec es :
  es <> [] -> exists h p, canon es = Some p /\ canon_height h es /\ forest h es = [p].
Proof.
  intros Hn. unfold canon. destruct es as [|e es]; [done|].
  apply climb_spec; [done|lia|lia|]. intros; lia.
Qed.

Lemma canon_height_unique h1 h2 es :
  canon_height h1 es -> canon_height h2 es -> h1 = h2.
Proof.
  intros (H1 & H2 & H3) (H4 & H5 & H6).
  destruct (Nat.lt_trichotomy h1 h2) as [Hlt|[->|Hlt]]; [|done|].
  - specialize (H6 h1). lia.
  - specialize (H3 h2). lia.
Qed.

Lemma canon_of_height h es p :
  canon_height h es -> forest h es = [p] -> canon es = Some p.
Proof.
  intros Hc Hp. assert (es <> []) as Hn.
  { intros ->. destruct h; simpl in Hp; [done|]. by rewrite (proj2 (forest_nil_iff h [])) in Hp. }
  destruct (canon_spec es Hn) as (h' & p' & -> & Hc' & Hp').
  rewrite (canon_height_unique _ _ _ Hc Hc'), Hp' in Hp. congruence.
Qed.

Lemma canon_flatten es p : canon es = Some p -> flatten p = es.
Proof.
  intros E. destruct (decide (length es = 0)%nat) as [Hn|Hn].
  { by destruct es. }
  destruct (canon_spec es) as (h & p' & E' & _ & Hp); [by intros ->|].
  rewrite E in E'. injection E' as ->. by apply (forest_flatten h).
Qed.
End forest.
