(* ===== verification/Walker.v ===== *)
(** Reading a persistent tree: search, point lookup and range streams
    (rust/dialog-search-tree/src: walker.rs, tree.rs). *)
From S2P Require Import Prelude Common Nodes.

(** [Accessor::get_node]: the node stored under a hash.  [Storage] shows that the
    cache in front of the storage does not change what it returns. *)
Abbreviation Accessor := (Blake3Hash -> tree_result PersistentNode).

(** [std::ops::Bound] and [RangeBounds::contains]. *)
Inductive Bound (K : Type) := Included (k : K) | Excluded (k : K) | Unbounded.
Arguments Included {K} k.
Arguments Excluded {K} k.
Arguments Unbounded {K}.

Record Range (K : Type) := mkRange { start_bound : Bound K; end_bound : Bound K }.
Arguments mkRange {K} start_bound end_bound.
Arguments start_bound {K} r.
Arguments end_bound {K} r.

Definition contains {K} `{Ord K} (range : Range K) (k : K) : bool :=
  match start_bound range with
  | Included s => oleb s k
  | Excluded s => oltb s k
  | Unbounded => true
  end &&
  match end_bound range with
  | Included e => oleb k e
  | Excluded e => oltb k e
  | Unbounded => true
  end.

(** A layer of a search path: the index node and the child slot taken. *)
Record TreeLayer := mkTreeLayer { host : PersistentNode; layer_index : nat }.

Record RightNeighbor := mkRightNeighbor {
  lca_depth : nat;
  diverged_path : list TreeLayer;
  right_leaf : PersistentNode
}.

Record SearchResult := mkSearchResult {
  leaf : PersistentNode;
  path : list TreeLayer;
  right_neighbor : option RightNeighbor
}.

(** [SearchOptions]; [Default] is no prefetching. *)
Record SearchOptions := mkSearchOptions { prefetch_right_neighbor : bool }.
Definition SearchOptions_default : SearchOptions := mkSearchOptions false.

Definition MAXIMUM_TREE_DEPTH : nat := 32.

Section walker.
Context {K V : Type} `{Key K} `{NodeCodec K V}.
Context (accessor : Accessor).

(** ** [TreeLayer] *)
Definition has_left_siblings (self : TreeLayer) : bool :=
  bool_decide (0 < layer_index self)%nat.

Definition has_right_siblings (self : TreeLayer) : bool :=
  match as_index (K := K) (V := V) (host self) with
  | Ok links => bool_decide (layer_index self + 1 < length links)%nat
  | _ => false
  end.

Definition siblings (self : TreeLayer) (start end_ : nat) : tree_result (option (list (Link K))) :=
  links ← as_index (K := K) (V := V) (host self);
  if decide (start <= end_ /\ end_ <= length links)%nat then
    Ok match drop start (take end_ links) with [] => None | l => Some l end
  else Panic "slice index out of range".
Definition left_siblings (self : TreeLayer) : tree_result (option (list (Link K))) :=
  siblings self 0 (layer_index self).
Definition right_siblings (self : TreeLayer) : tree_result (option (list (Link K))) :=
  links ← as_index (K := K) (V := V) (host self);
  siblings self (layer_index self + 1) (length links).

(** The index of the last layer that has a right sibling ([Iterator::rposition]). *)
Fixpoint rposition (layers : list TreeLayer) (at_ : nat) : option nat :=
  match layers with
  | [] => None
  | l :: layers =>
      match rposition layers (S at_) with
      | Some i => Some i
      | None => if has_right_siblings l then Some at_ else None
      end
  end.

(** The leftmost descent of [prefetch_right_neighbor]. *)
Fixpoint leftmost_descent (fuel : nat) (next_hash : Blake3Hash) (diverged : list TreeLayer)
    : tree_result (list TreeLayer * PersistentNode) :=
  match fuel with
  | O => OutOfFuel
  | S fuel =>
      node ← accessor next_hash;
      b ← body (K := K) (V := V) node;
      match b with
      | Index links =>
          match links with
          | [] => Err (NodeError "Empty index node during right-neighbor descent")
          | first :: _ =>
              leftmost_descent fuel (link_node first) (diverged ++ [mkTreeLayer node 0])
          end
      | Segment _ => Ok (diverged, node)
      end
  end.

Definition prefetch_right (fuel : nat) (k : K) (lf : PersistentNode) (layers : list TreeLayer)
    : tree_result (option RightNeighbor) :=
  bound ← node_upper_bound (K := K) (V := V) lf;
  match bound with
  | None => Ok None
  | Some bound =>
      if decide (k = bound) then
        match rposition layers 0 with
        | None => Ok None
        | Some depth =>
            lca ← index_or_panic layers depth;
            links ← as_index (K := K) (V := V) (host lca);
            sibling ← index_or_panic links (layer_index lca + 1);
            '(diverged, rleaf) ← leftmost_descent fuel (link_node sibling) [];
            Ok (Some (mkRightNeighbor depth diverged rleaf))
        end
      else Ok None
  end.

(** ** [TreeWalker::search]

    The descent takes the first child whose upper bound is at least the key,
    or the last child.  The depth check bounds the loop, so its fuel is a
    constant; [prefetch_fuel] is for the right-neighbor descent, which the
    default options do not make. *)
Definition search_child (links : list (Link K)) (k : K) : nat :=
  Nat.min (partition_point (fun l => oltb (link_upper_bound l) k) links) (length links - 1).

Fixpoint search_loop (prefetch_fuel fuel : nat) (k : K) (options : SearchOptions) (next_node : Blake3Hash)
    (layers : list TreeLayer) : tree_result (option SearchResult) :=
  match fuel with
  | O => OutOfFuel
  | S fuel =>
      if decide (MAXIMUM_TREE_DEPTH < length layers)%nat then
        Err (OperationError "Tree depth exceded the soft maximum (32)")
      else
        node ← accessor next_node;
        b ← body (K := K) (V := V) node;
        match b with
        | Index links =>
            match links with
            | [] => Panic "attempt to subtract with overflow"
            | _ =>
                let child_index := search_child links k in
                link ← index_or_panic links child_index;
                search_loop prefetch_fuel fuel k options (link_node link)
                  (layers ++ [mkTreeLayer node child_index])
            end
        | Segment _ =>
            neighbor ← (if prefetch_right_neighbor options
                        then prefetch_right prefetch_fuel k node layers
                        else Ok None);
            Ok (Some (mkSearchResult node layers neighbor))
        end
  end.

Definition search (prefetch_fuel : nat) (root : Blake3Hash) (k : K) (options : SearchOptions)
    : tree_result (option SearchResult) :=
  if decide (root = NULL_BLAKE3_HASH) then Ok None
  else search_loop prefetch_fuel (MAXIMUM_TREE_DEPTH + 2) k options root [].

(** ** [PersistentTree::get] *)
Definition tree_get (root : Blake3Hash) (k : K) : tree_result (option V) :=
  result ← search 0 root k SearchOptions_default;
  match result with
  | None => Ok None
  | Some result =>
      b ← body (K := K) (V := V) (leaf result);
      entry ← find_entry b k;
      Ok (option_map value entry)
  end.

(** ** [TreeWalker::stream]

    A stream is what it yields and how it ends.  [search_path] is a stack whose
    top is the last element in Rust and the head here. *)
Definition IndexedPath : Type := list (PersistentNode * option nat).

(** [SearchResult::into_indexed], leaf first. *)
Definition into_indexed (self : SearchResult) : IndexedPath :=
  (leaf self, None) :: ((fun l => (host l, Some (layer_index l))) <$> rev (path self)).

(** The entries of one leaf: what it yields, whether the range was entered, and
    whether it was left again. *)
Fixpoint stream_segment (range : Range K) (entered : bool) (entries : list (Entry K V))
    : list (Entry K V) * bool * bool :=
  match entries with
  | [] => ([], entered, false)
  | e :: entries =>
      if contains range (key e) then
        let '(out, entered, done) := stream_segment range true entries in
        (e :: out, entered, done)
      else if entered then ([], entered, true)
      else stream_segment range entered entries
  end.

Fixpoint stream_loop (fuel : nat) (range : Range K) (search_path : IndexedPath)
    (entered : bool) : list (Entry K V) * tree_result () :=
  match fuel with
  | O => ([], OutOfFuel)
  | S fuel =>
      match search_path with
      | [] => ([], Ok tt)
      | (node, maybe_index) :: search_path =>
          match body (K := K) (V := V) node with
          | Ok (Index links) =>
              let child_index := match maybe_index with Some i => S i | None => 0%nat end in
              match links !! child_index with
              | Some link =>
                  match accessor (link_node link) with
                  | Ok next_node =>
                      stream_loop fuel range
                        ((next_node, None) :: (node, Some child_index) :: search_path) entered
                  | Err e => ([], Err e)
                  | Panic m => ([], Panic m)
                  | OutOfFuel => ([], OutOfFuel)
                  end
              | None => stream_loop fuel range search_path entered
              end
          | Ok (Segment entries) =>
              let '(out, entered, done) := stream_segment range entered entries in
              if done then (out, Ok tt)
              else
                let '(rest, status) := stream_loop fuel range search_path entered in
                (out ++ rest, status)
          | Err e => ([], Err e)
          | Panic m => ([], Panic m)
          | OutOfFuel => ([], OutOfFuel)
          end
      end
  end.

Definition stream (fuel : nat) (root : Blake3Hash) (range : Range K)
    : list (Entry K V) * tree_result () :=
  let start_key :=
    match start_bound range with
    | Included start => start
    | Excluded start => start
    | Unbounded => key_min
    end in
  match search 0 root start_key SearchOptions_default with
  | Ok None => ([], Ok tt)
  | Ok (Some result) => stream_loop fuel range (into_indexed result) false
  | Err e => ([], Err e)
  | Panic m => ([], Panic m)
  | OutOfFuel => ([], OutOfFuel)
  end.
End walker.
