(* ===== verification/TransientTree.v ===== *)
(** In-place batched edits of a tree (rust/dialog-search-tree/src/tree/transient.rs,
    and [PersistentTree] of tree.rs).

    A [&mut TransientNode] reached by a path is modelled by reading the node at
    the path ([follow]) and writing the changed node back ([store_at]).  Loops
    that descend a tree carry fuel; [TransientCorrect] shows that the height of
    the tree is enough. *)
From S2P Require Import Prelude Common Nodes Walker.

(** [enum Edit]. *)
Inductive Edit (K V : Type) :=
  | Upsert (entry : Entry K V)
  | Delete (k : K).
Arguments Upsert {K V} entry.
Arguments Delete {K V} k.

Definition edit_key {K V} (self : Edit K V) : K :=
  match self with Upsert entry => key entry | Delete k => k end.

(** [usize]/[u64] subtraction of one: panics at zero. *)
Definition pred_or_panic {E} (n : nat) : outcome E nat :=
  match n with O => Panic "attempt to subtract with overflow" | S n => Ok n end.

Section edit.
Context {K V : Type} `{Key K} `{NodeCodec K V} {D : Distribution}.
Context (accessor : Accessor).
Implicit Types (t : TransientNode K V) (n : Node K V) (edit : Edit K V).

(** [child_for]: the first child whose upper bound is at least the key, or the
    last child.  [children] is the slice from index [at_] on. *)
Fixpoint child_for_from (children : list (Node K V)) (k : K) (at_ : nat) : nat :=
  match children with
  | c :: ((_ :: _) as rest) =>
      match upper_bound c with
      | Ok bound => if oltb bound k then child_for_from rest k (S at_) else at_
      | _ => at_
      end
  | _ => at_
  end.
Definition child_for (children : list (Node K V)) (k : K) : nat := child_for_from children k 0.

(** [follow]. *)
Fixpoint follow (root : TransientNode K V) (path : list nat) : tree_result (TransientNode K V) :=
  match path with
  | [] => Ok root
  | at_ :: path =>
      match root with
      | TransientIndex children =>
          child ← index_or_panic children at_;
          match child with
          | Transient child => follow child path
          | Persistent _ =>
              Err (NodeError "Path descended into a node that was not lifted")
          end
      | TransientSegment _ => Err (NodeError "Path descended through a segment")
      end
  end.

(** Writing through the reference [follow] returns. *)
Fixpoint store_at (root : TransientNode K V) (path : list nat) (node : TransientNode K V)
    : TransientNode K V :=
  match path with
  | [] => node
  | at_ :: path =>
      match root with
      | TransientIndex children =>
          match children !! at_ with
          | Some (Transient child) =>
              TransientIndex (<[at_ := Transient (store_at child path node)]> children)
          | _ => root
          end
      | TransientSegment _ => root
      end
  end.

(** [lift]. *)
Definition lift (node : Node K V) : tree_result (Node K V) :=
  match node with
  | Persistent link =>
      persistent ← accessor (link_node link);
      t ← transient_try_from persistent;
      Ok (Transient t)
  | Transient _ => Ok node
  end.

(** [apply_to_segment]. *)
Definition apply_to_segment (entries : list (Entry K V)) edit : list (Entry K V) :=
  match edit with
  | Upsert entry =>
      match binary_search_by (fun e => cmp (key e) (key entry)) entries with
      | inl at_ => alter (fun e => mkEntry (key e) (value entry)) at_ entries
      | inr at_ => vec_insert entries at_ entry
      end
  | Delete k =>
      match binary_search_by (fun e => cmp (key e) k) entries with
      | inl at_ => delete at_ entries
      | inr _ => entries
      end
  end.

(** [fast_path_keeps_canonical]. *)
Definition fast_path_keeps_canonical (entries : list (Entry K V)) edit : bool :=
  match edit with
  | Upsert entry =>
      match binary_search_by (fun e => cmp (key e) (key entry)) entries with
      | inl _ => true
      | inr at_ =>
          if decide (BOTTOM_RANK < rank (key_as_ref (key entry)))%nat then false
          else
            let appends_last := bool_decide (at_ = length entries) in
            let last_is_boundary :=
              match last entries with
              | Some e => bool_decide (BOTTOM_RANK < rank (key_as_ref (key e)))%nat
              | None => false
              end in
            negb (appends_last && last_is_boundary)
      end
  | Delete k =>
      match binary_search_by (fun e => cmp (key e) k) entries with
      | inl _ => bool_decide (1 < length entries)%nat
      | inr _ => true
      end
  end.

(** [splice_and_regroup]. *)
Definition splice_and_regroup (children : list (Node K V)) (start end_ : nat)
    (replacement : list (Node K V)) (height : Rank) : tree_result (list (Node K V)) :=
  if decide (start <= end_ /\ end_ <= length children)%nat then
    match splice children start end_ replacement with
    | [] => Ok []
    | children => regroup_children children height
    end
  else Panic "range end index out of range".

(** [reshape_path]. *)
Fixpoint reshape_path (node : TransientNode K V) (path : list nat) edit (height : Rank)
    : tree_result (list (Node K V)) :=
  match path with
  | [] =>
      match node with
      | TransientSegment entries => Ok (regroup_entries (apply_to_segment entries edit))
      | TransientIndex _ =>
          Err (NodeError "Reshape reached an index where a leaf was expected")
      end
  | at_ :: rest =>
      child ← child_mut node at_;
      below ← pred_or_panic height;
      replacement ← reshape_path child rest edit below;
      children ← transient_as_index node;
      splice_and_regroup children at_ (at_ + 1) replacement height
  end.

(** [take_transient] and [remove_first]: the child and the list without it. *)
Definition take_transient (children : list (Node K V)) (at_ : nat)
    : tree_result (TransientNode K V * list (Node K V)) :=
  match children !! at_ with
  | None => Err (NodeError "Re-shape child index out of range")
  | Some child => t ← into_transient child; Ok (t, delete at_ children)
  end.

Definition remove_first (children : list (Node K V))
    : tree_result (Node K V * list (Node K V)) :=
  match children with
  | [] => Err (NodeError "Fused neighbour index had no children")
  | c :: children => Ok (c, children)
  end.

(** [Vec::pop]. *)
Definition pop {A} (l : list A) : option (A * list A) :=
  match last l with Some x => Some (x, take (length l - 1) l) | None => None end.

(** [fuse_subtrees]; [height] is the height of both subtrees. *)
Fixpoint fuse_subtrees (height : Rank) (main neighbor : TransientNode K V) (k : K)
    : tree_result (list (Node K V)) :=
  match main, neighbor with
  | TransientSegment main, TransientSegment neighbor =>
      let main :=
        match pop main with
        | Some (e, rest) => if decide (key e = k) then rest else main
        | None => main
        end in
      Ok (regroup_entries (main ++ neighbor))
  | TransientIndex main, TransientIndex neighbor =>
      '(main_last, main) ← ok_or (NodeError "Fused main index had no children") (pop main);
      main_last ← into_transient main_last;
      '(neighbor_first, neighbor) ← remove_first neighbor;
      neighbor_first ← into_transient neighbor_first;
      match height with
      | O => Panic "attempt to subtract with overflow"
      | S below =>
          fused ← fuse_subtrees below main_last neighbor_first k;
          regroup_children (main ++ fused ++ neighbor) height
      end
  | _, _ => Err (NodeError "Fused subtrees had mismatched heights")
  end.

(** [reshape_fused]. *)
Fixpoint reshape_fused (node : TransientNode K V) (path neighbor_path : list nat)
    (lca_depth : nat) (k : K) (height : Rank) : tree_result (list (Node K V)) :=
  match path with
  | [] => Panic "index out of bounds"
  | at_ :: path =>
      match lca_depth with
      | O =>
          children ← transient_as_index node;
          '(main, children) ← take_transient children at_;
          '(neighbor, children) ← take_transient children at_;
          below ← pred_or_panic height;
          fused ← fuse_subtrees below main neighbor k;
          splice_and_regroup children at_ at_ fused height
      | S lca_depth =>
          child ← child_mut node at_;
          match neighbor_path with
          | [] => Panic "range start index out of range"
          | _ :: neighbor_path =>
              below ← pred_or_panic height;
              replacement ← reshape_fused child path neighbor_path lca_depth k below;
              children ← transient_as_index node;
              splice_and_regroup children at_ (at_ + 1) replacement height
          end
      end
  end.

(** The level-raising loop of [seal_root]. *)
Definition needs_parent (replacement : list (Node K V)) : bool :=
  bool_decide (1 < length replacement)%nat ||
  match replacement with Transient (TransientSegment _) :: _ => true | _ => false end.

Fixpoint raise_root (fuel : nat) (replacement : list (Node K V)) (level : Rank)
    : tree_result (list (Node K V)) :=
  match fuel with
  | O => OutOfFuel
  | S fuel =>
      if needs_parent replacement then
        replacement ← regroup_children replacement level;
        raise_root fuel replacement (level + 1)
      else Ok replacement
  end.

(** The chain-stripping loop of [seal_root]. *)
Fixpoint strip_chain (root : TransientNode K V) : TransientNode K V :=
  match root with
  | TransientIndex [Transient child] =>
      match child with
      | TransientIndex _ => strip_chain child
      | TransientSegment _ => root
      end
  | _ => root
  end.

(** [seal_root]. *)
Definition seal_root (fuel : nat) (replacement : list (Node K V)) (height : Rank)
    : tree_result (option (TransientNode K V)) :=
  match replacement with
  | [] => Ok None
  | _ =>
      replacement ← raise_root fuel replacement (height + 1);
      match pop replacement with
      | Some (Transient t, _) => Ok (Some (strip_chain t))
      | Some (Persistent link, _) => Ok (Some (TransientIndex [Persistent link]))
      | None => Ok None
      end
  end.

(** Phase one of [Edit::apply]: lift the path to the target leaf. *)
Fixpoint descend (fuel : nat) (k : K) (root : TransientNode K V) (path : list nat)
    : tree_result (TransientNode K V * list nat) :=
  match fuel with
  | O => OutOfFuel
  | S fuel =>
      node ← follow root path;
      match node with
      | TransientIndex children =>
          let at_ := child_for children k in
          child ← index_or_panic children at_;
          child ← lift child;
          descend fuel k
            (store_at root path (TransientIndex (<[at_ := child]> children)))
            (path ++ [at_])
      | TransientSegment _ => Ok (root, path)
      end
  end.

(** [lift_right_neighbor_spine]: the deepest ancestor with a right sibling ... *)
Fixpoint find_right_sibling (root : TransientNode K V) (path : list nat) (depth : nat)
    : tree_result (option (list nat)) :=
  match depth with
  | O => Ok None
  | S depth =>
      ancestor ← follow root (take depth path);
      at_ ← index_or_panic path depth;
      match ancestor with
      | TransientIndex children =>
          if decide (at_ + 1 < length children)%nat
          then Ok (Some (take depth path ++ [(at_ + 1)%nat]))
          else find_right_sibling root path depth
      | TransientSegment _ => find_right_sibling root path depth
      end
  end.

(** ... and the lifting of the leftmost edge below that sibling. *)
Fixpoint lift_left_edge (fuel : nat) (root : TransientNode K V) (path : list nat)
    : tree_result (TransientNode K V * list nat) :=
  match fuel with
  | O => OutOfFuel
  | S fuel =>
      node ← follow root path;
      match node with
      | TransientIndex children =>
          child ← index_or_panic children 0;
          child ← lift child;
          lift_left_edge fuel (store_at root path (TransientIndex (<[0%nat := child]> children)))
            (path ++ [0%nat])
      | TransientSegment _ => Ok (root, path)
      end
  end.

Definition lift_right_neighbor_spine (fuel : nat) (root : TransientNode K V) (path : list nat)
    : tree_result (TransientNode K V * option (list nat)) :=
  neighbor_path ← find_right_sibling root path (length path);
  match neighbor_path with
  | None => Ok (root, None)
  | Some neighbor_path =>
      match pop neighbor_path with
      | None => Panic "attempt to subtract with overflow"
      | Some (sibling, parent_path) =>
          parent ← follow root parent_path;
          children ← transient_as_index parent;
          child ← index_or_panic children sibling;
          child ← lift child;
          '(root, neighbor_path) ←
            lift_left_edge fuel
              (store_at root parent_path (TransientIndex (<[sibling := child]> children)))
              neighbor_path;
          Ok (root, Some neighbor_path)
      end
  end.

(** [path.iter().zip(neighbor_path.iter()).position(|(a, b)| a != b)]. *)
Fixpoint diverge (path neighbor_path : list nat) : option nat :=
  match path, neighbor_path with
  | a :: path, b :: neighbor_path =>
      if decide (a = b) then S <$> diverge path neighbor_path else Some 0%nat
  | _, _ => None
  end.

(** [Edit::apply]. *)
Definition apply (fuel : nat) edit (root : TransientNode K V)
    : tree_result (option (TransientNode K V)) :=
  '(root, path) ← descend fuel (edit_key edit) root [];
  let height := length path in
  leaf ← follow root path;
  let is_boundary_delete :=
    match edit, leaf with
    | Delete k, TransientSegment entries =>
        match last entries with Some e => bool_decide (key e = k) | None => false end
    | _, _ => false
    end in
  if is_boundary_delete then
    '(root, neighbor_path) ← lift_right_neighbor_spine fuel root path;
    replacement ←
      match neighbor_path with
      | Some neighbor_path =>
          lca_depth ← ok_or (NodeError "Boundary delete had no diverging neighbor path")
                        (diverge path neighbor_path);
          reshape_fused root path neighbor_path lca_depth (edit_key edit) height
      | None => reshape_path root path edit height
      end;
    seal_root fuel replacement height
  else
    match leaf with
    | TransientIndex _ => Err (NodeError "Path did not reach a segment")
    | TransientSegment entries =>
        if fast_path_keeps_canonical entries edit then
          Ok (Some (store_at root path (TransientSegment (apply_to_segment entries edit))))
        else
          replacement ← reshape_path root path edit height;
          seal_root fuel replacement height
    end.
End edit.

(** ** [TransientTree] and [PersistentTree]

    The node cache both carry is behind the [Accessor]. *)
Inductive TransientRoot (K V : Type) :=
  | Unloaded (hash : Blake3Hash)
  | Loaded (node : TransientNode K V).
Arguments Unloaded {K V} hash.
Arguments Loaded {K V} node.

Inductive Change (K V : Type) :=
  | Add (entry : Entry K V)
  | Remove (entry : Entry K V).
Arguments Add {K V} entry.
Arguments Remove {K V} entry.

Inductive StreamStep (K V : Type) :=
  | PersistentStep (hash : Blake3Hash)
  | EntryStep (entry : Entry K V).
Arguments PersistentStep {K V} hash.
Arguments EntryStep {K V} entry.

(** [PersistentTree::empty], [edit] / [TransientTree::new]. *)
Definition empty_tree : Blake3Hash := NULL_BLAKE3_HASH.
Definition edit_tree {K V} (root : Blake3Hash) : TransientRoot K V := Unloaded root.

Section transient_tree.
Context {K V : Type} `{Key K} `{NodeCodec K V} `{Blake3} {D : Distribution}.
Context (accessor : Accessor).
Implicit Types (root : TransientRoot K V).

(** [TransientTree::load]. *)
Definition load root : tree_result (option (TransientNode K V)) :=
  match root with
  | Loaded node => Ok (Some node)
  | Unloaded hash =>
      if decide (hash = NULL_BLAKE3_HASH) then Ok None
      else
        node ← accessor hash;
        t ← transient_try_from node;
        Ok (Some t)
  end.

(** [TransientTree::insert]. *)
Definition insert (fuel : nat) (k : K) (v : V) root : tree_result (TransientRoot K V) :=
  let entry := mkEntry k v in
  loaded ← load root;
  node ← match loaded with
         | None => Ok (TransientIndex [Transient (TransientSegment [entry])])
         | Some t =>
             edited ← apply accessor fuel (Upsert entry) t;
             match edited with
             | Some node => Ok node
             | None => Panic "an insert never empties the tree"
             end
         end;
  Ok (Loaded node).

(** [TransientTree::delete]. *)
Definition delete_key (fuel : nat) (k : K) root : tree_result (TransientRoot K V) :=
  loaded ← load root;
  match loaded with
  | None => Ok (Unloaded NULL_BLAKE3_HASH)
  | Some t =>
      edited ← apply accessor fuel (Delete k) t;
      Ok match edited with
         | Some node => Loaded node
         | None => Unloaded NULL_BLAKE3_HASH
         end
  end.

(** [TransientTree::get]: the edited spine in memory, the rest through
    [PersistentTree::get]. *)
Fixpoint transient_get (node : TransientNode K V) (k : K) : tree_result (option V) :=
  match node with
  | TransientIndex children =>
      (fix go (cs : list (Node K V)) (at_ : nat) {struct cs} : tree_result (option V) :=
         match cs, at_ with
         | [], _ => Panic "index out of bounds"
         | Persistent link :: _, O => tree_get accessor (link_node link) k
         | Transient child :: _, O => transient_get child k
         | _ :: cs, S at_ => go cs at_
         end) children (child_for children k)
  | TransientSegment entries =>
      match binary_search_by (fun e => cmp (key e) k) entries with
      | inl at_ => e ← index_or_panic entries at_; Ok (Some (value e))
      | inr _ => Ok None
      end
  end.

Definition get root (k : K) : tree_result (option V) :=
  match root with
  | Unloaded hash => tree_get accessor hash k
  | Loaded node => transient_get node k
  end.

(** [collect_stream_plan] and [TransientTree::stream_range]. *)
Fixpoint collect_stream_plan (node : TransientNode K V) : list (StreamStep K V) :=
  match node with
  | TransientIndex children =>
      (fix go (cs : list (Node K V)) : list (StreamStep K V) :=
         match cs with
         | [] => []
         | Persistent link :: cs => PersistentStep (link_node link) :: go cs
         | Transient child :: cs => collect_stream_plan child ++ go cs
         end) children
  | TransientSegment entries => EntryStep <$> entries
  end.

Fixpoint run_stream_plan (fuel : nat) (range : Range K) (plan : list (StreamStep K V))
    : list (Entry K V) * tree_result () :=
  match plan with
  | [] => ([], Ok tt)
  | PersistentStep hash :: plan =>
      match stream accessor fuel hash range with
      | (out, Ok _) =>
          let '(rest, status) := run_stream_plan fuel range plan in (out ++ rest, status)
      | (out, Err e) => (out, Err e)
      | (out, Panic m) => (out, Panic m)
      | (out, OutOfFuel) => (out, OutOfFuel)
      end
  | EntryStep entry :: plan =>
      let '(rest, status) := run_stream_plan fuel range plan in
      (if contains range (key entry) then entry :: rest else rest, status)
  end.

Definition stream_range (fuel : nat) root (range : Range K)
    : list (Entry K V) * tree_result () :=
  run_stream_plan fuel range
    match root with
    | Unloaded hash => [PersistentStep hash]
    | Loaded node => collect_stream_plan node
    end.

(** [TransientTree::persist]: the new root hash; new nodes go to the delta. *)
Definition persist_tree root : stateful Delta.t DialogSearchTreeError Blake3Hash :=
  match root with
  | Unloaded hash => mret hash
  | Loaded t => node ← persist t; mret (hash node)
  end.

(** ** [TransientTree::integrate]

    [value_identity] is the hash of the value's serialized form; the
    serializer (rkyv) is a parameter.  [Value: PartialEq] is the equality
    decision. *)
Context `{EqDecision V} (value_to_bytes : V -> option bytes).

Definition value_identity (v : V) : tree_result Blake3Hash :=
  b ← ok_or (EncodingError "serialization failed") (value_to_bytes v);
  Ok (blake3 b).

Definition integrate_change (fuel : nat) root (change : Change K V)
    : tree_result (TransientRoot K V) :=
  match change with
  | Add entry =>
      existing ← get root (key entry);
      match existing with
      | None => insert fuel (key entry) (value entry) root
      | Some existing =>
          if decide (existing = value entry) then Ok root
          else
            existing_hash ← value_identity existing;
            new_hash ← value_identity (value entry);
            if oltb (as_bytes existing_hash) (as_bytes new_hash)
            then insert fuel (key entry) (value entry) root
            else Ok root
      end
  | Remove entry =>
      existing ← get root (key entry);
      match existing with
      | Some existing =>
          if decide (existing = value entry) then delete_key fuel (key entry) root
          else Ok root
      | None => Ok root
      end
  end.

(** The change stream is a list of items that may be errors. *)
Fixpoint integrate (fuel : nat) root (changes : list (tree_result (Change K V)))
    : tree_result (TransientRoot K V) :=
  match changes with
  | [] => Ok root
  | change :: changes =>
      change ← change;
      root ← integrate_change fuel root change;
      integrate fuel root changes
  end.
End transient_tree.
