(* ===== verification/Instances.v ===== *)
(** Concrete keys, codec, hash and distribution on which the development is
    evaluated: one-byte keys and values, an invertible serialization of node
    bodies, a polynomial 32-byte digest, and ranks read off the key.  The instances are local: the sections that
    evaluate the model declare them. *)
From S2P Require Import Prelude Common Nodes.

#[local] Program Instance byte_key : Key byte := {|
  key_as_ref b := [b];
  key_min := x00;
  key_max := xff
|}.
Next Obligation. intros []; discriminate. Qed.
Next Obligation. intros []; discriminate. Qed.

(** Bodies as a tag byte and pairs of bytes: an entry is its key and value; a
    link is [x02] and its bound, then [x01] and each byte of its hash. *)
Definition link_to_bytes (l : Link byte) : bytes :=
  x02 :: link_upper_bound l :: concat ((fun b => [x01; b]) <$> as_bytes (link_node l)).
Definition entry_to_bytes (e : Entry byte byte) : bytes := [key e; value e].

Fixpoint links_of_bytes (b : bytes) : option (list (Link byte) * bytes) :=
  match b with
  | [] => Some ([], [])
  | x01 :: x :: b =>
      '(links, pending) ← links_of_bytes b; Some (links, x :: pending)
  | x02 :: k :: b =>
      '(links, pending) ← links_of_bytes b;
      Some (mkLink k (mkBlake3Hash pending) :: links, [])
  | _ => None
  end.
Fixpoint entries_of_bytes (b : bytes) : option (list (Entry byte byte)) :=
  match b with
  | [] => Some []
  | k :: v :: b => entries ← entries_of_bytes b; Some (mkEntry k v :: entries)
  | _ => None
  end.

Lemma links_of_to_bytes links :
  links_of_bytes (concat (link_to_bytes <$> links)) = Some (links, []).
Proof.
  induction links as [|[k [h]] links IH]; [done|]. csimpl.
  assert (links_of_bytes (concat ((fun b => [x01; b]) <$> h) ++ concat (link_to_bytes <$> links))
          = Some (links, h)) as ->; [|done].
  induction h as [|x h IHh]; [done|]. csimpl. by rewrite IHh.
Qed.

Lemma entries_of_to_bytes entries :
  entries_of_bytes (concat (entry_to_bytes <$> entries)) = Some entries.
Proof. induction entries as [|[k v] entries IH]; [done|]. csimpl. by rewrite IH. Qed.

Definition body_to_bytes (b : PersistentNodeBody byte byte) : bytes :=
  match b with
  | Index links => x00 :: concat (link_to_bytes <$> links)
  | Segment entries => x01 :: concat (entry_to_bytes <$> entries)
  end.
Definition body_of_bytes (b : bytes) : option (PersistentNodeBody byte byte) :=
  match b with
  | x00 :: b => '(links, _) ← links_of_bytes b; Some (Index links)
  | x01 :: b => entries ← entries_of_bytes b; Some (Segment entries)
  | _ => None
  end.

Lemma body_of_to_bytes b : body_of_bytes (body_to_bytes b) = Some b.
Proof.
  destruct b as [links|entries]; simpl.
  - by rewrite links_of_to_bytes.
  - by rewrite entries_of_to_bytes.
Qed.

#[local] Instance byte_codec : NodeCodec byte byte.
Proof.
  refine {| to_bytes b := Some (body_to_bytes b); access := body_of_bytes |}.
  intros body b [= <-]. apply body_of_to_bytes.
Defined.

(** A polynomial digest modulo 2^256, as 32 little-endian bytes. *)
Fixpoint N_to_bytes (len : nat) (n : N) : bytes :=
  match len with
  | O => []
  | S len =>
      default x00 (Byte.of_N (N.land n 255)) :: N_to_bytes len (N.shiftr n 8)
  end.
Definition digest (b : bytes) : N :=
  fold_left (fun acc x => (N.land (acc * 1000003 + Byte.to_N x + 1) (N.ones 256))%N) b 7%N.

Lemma length_N_to_bytes len n : length (N_to_bytes len n) = len.
Proof. revert n; induction len as [|len IH]; intros n; simpl; [done|]. by rewrite IH. Qed.

#[local] Program Instance toy_blake3 : Blake3 := {|
  blake3 b := mkBlake3Hash (N_to_bytes BLAKE3_HASH_SIZE (digest b))
|}.
Next Obligation. intros b. apply length_N_to_bytes. Qed.

(** Multiples of 4, 8 and 16 have ranks 2, 3 and 4; other keys have rank 1. *)
#[local] Instance toy_distribution : Distribution := fun b =>
  match b with
  | k :: _ =>
      let n := Byte.to_N k in
      if decide (n mod 16 = 0)%N then 4%nat
      else if decide (n mod 8 = 0)%N then 3%nat
      else if decide (n mod 4 = 0)%N then 2%nat
      else 1%nat
  | [] => 1%nat
  end.

Lemma toy_rank_le b : (rank b <= 4)%nat.
Proof.
  unfold rank, toy_distribution. destruct b as [|k b]; [lia|]. cbn zeta.
  repeat case_decide; lia.
Qed.

(** Entries from a list of keys, each with its key as value. *)
Definition demo_entries (keys : list byte) : list (Entry byte byte) := (fun k => mkEntry k k) <$> keys.
