(* ===== verification/Repr.v ===== *)
(** What an editable tree stands for: [repr p n] says that the node [n], with
    its references resolved through the accessor, is the tree [p].  The lemmas
    here give the single-node operations of [Nodes] their meaning. *)
From S2P Require Import Prelude Common Nodes SortedEntries Forest Walker TransientTree.

Section uniform.
Context {K V : Type} `{Key K} {D : Distribution}.
Implicit Types (p : ptree K V) (es : list (Entry K V)).

(** A non-empty tree all of whose leaves are at depth [h]. *)
Fixpoint uniform (h : nat) (p : ptree K V) : Prop :=
  match h, p with
  | O, PSegment es => es <> []
  | S h, PIndex ps => ps <> [] /\ Forall (uniform h) ps
  | _, _ => False
  end.

Lemma uniform_nonempty h p : uniform h p -> flatten p <> [].
Proof.
  revert p; induction h as [|h IH]; intros [es|ps]; simpl; try done.
  intros [Hn Hps]. destruct Hps as [|p ps Hp _]; [done|].
  intros [E _]%app_eq_nil. by apply (IH p).
Qed.

Lemma forest_uniform h es : Forall (uniform h) (forest h es).
Proof.
  induction h as [|h IH]; simpl; apply Forall_fmap.
  - apply grp_nonempty.
  - apply Forall_forall. intros g Hg. simpl. split.
    + pose proof (grp_nonempty (pbound (S h)) (forest h es)) as Hne.
      rewrite Forall_forall in Hne. by apply Hne.
    + apply Forall_forall. intros p Hp. rewrite Forall_forall in IH. apply IH.
      rewrite <- (concat_grp (pbound (S h)) (forest h es)).
      apply elem_of_concat. eauto.
Qed.

Lemma forest_uniform_one h es p : forest h es = [p] -> uniform h p.
Proof. intros E. pose proof (forest_uniform h es) as Hu. rewrite E in Hu. by inversion Hu. Qed.

Lemma last_key_nonempty (es : list (Entry K V)) : es <> [] -> exists k, last_key es = Some k.
Proof.
  unfold last_key. intros Hn. destruct (last es) eqn:E; [eauto|]. by apply last_None in E.
Qed.

Lemma pbound_last_key h p k :
  last_key (flatten p) = Some k -> pbound h p = boundary h k.
Proof.
  unfold last_key, pbound, ebound. destruct (last (flatten p)); simpl; [|done].
  by intros [= <-].
Qed.
End uniform.

Section repr.
Context {K V : Type} `{Key K} `{NodeCodec K V} {D : Distribution}.
Context (accessor : Accessor).
Implicit Types (p : ptree K V) (n : Node K V) (t : TransientNode K V).

(** The editable form of a node, loading it if it is a reference. *)
Definition lifted n : tree_result (TransientNode K V) :=
  match n with
  | Transient t => Ok t
  | Persistent link => persistent ← accessor (link_node link); transient_try_from persistent
  end.

(** The bound recorded in a reference is the last key below it. *)
Definition bound_ok n p : Prop :=
  match n with
  | Persistent link => last_key (flatten p) = Some (link_upper_bound link)
  | Transient _ => True
  end.

Fixpoint repr p n {struct p} : Prop :=
  bound_ok n p /\
  exists t, lifted n = Ok t /\
  match p with
  | PSegment es => t = TransientSegment es
  | PIndex ps =>
      exists cs, t = TransientIndex cs /\
      (fix all (ps : list (ptree K V)) (cs : list (Node K V)) : Prop :=
         match ps, cs with
         | [], [] => True
         | p :: ps, c :: cs => repr p c /\ all ps cs
         | _, _ => False
         end) ps cs
  end.

Definition repr_transient p t : Prop :=
  match p with
  | PSegment es => t = TransientSegment es
  | PIndex ps => exists cs, t = TransientIndex cs /\ Forall2 repr ps cs
  end.

Lemma repr_unfold p n :
  repr p n <-> bound_ok n p /\ exists t, lifted n = Ok t /\ repr_transient p t.
Proof.
  destruct p as [es|ps]; simpl; [done|].
  assert (forall cs,
    (fix all (ps : list (ptree K V)) (cs : list (Node K V)) : Prop :=
         match ps, cs with
         | [], [] => True
         | p :: ps, c :: cs => repr p c /\ all ps cs
         | _, _ => False
         end) ps cs <-> Forall2 repr ps cs) as Hall.
  { induction ps as [|p ps IH]; intros [|c cs]; simpl; try done.
    - split; [done | by inversion 1].
    - split; [done | by inversion 1].
    - rewrite IH, Forall2_cons. done. }
  by setoid_rewrite Hall.
Qed.

Lemma repr_Transient p t : repr p (Transient t) <-> repr_transient p t.
Proof. rewrite repr_unfold; simpl. naive_solver. Qed.

Lemma repr_lift p n :
  repr p n -> exists t, lift accessor n = Ok (Transient t) /\ repr_transient p t.
Proof.
  rewrite repr_unfold. intros (_ & t & Ht & Hr). exists t. split; [|done].
  destruct n as [link|t']; simpl in *.
  - outcome_inv. rewrite Ha; simpl. by rewrite Ht.
  - congruence.
Qed.

(** The height of the tree a node holds is determined. *)
Lemma uniform_repr_height h1 h2 p1 p2 t :
  uniform h1 p1 -> uniform h2 p2 -> repr_transient p1 t -> repr_transient p2 t -> h1 = h2.
Proof.
  revert h2 p1 p2 t; induction h1 as [|h1 IH]; intros h2 p1 p2 t Hu1 Hu2 Hr1 Hr2.
  - destruct p1; [|done]. simpl in Hr1; subst t. destruct h2; [done|].
    destruct p2; [done|]. by destruct Hr2 as (? & ? & _).
  - destruct p1 as [|[|p1 ps1]]; [done|by destruct Hu1|]. destruct Hr1 as (cs & -> & Hr1).
    destruct h2 as [|h2]; [by destruct p2|].
    destruct p2 as [|[|p2 ps2]]; [done|by destruct Hu2|]. destruct Hr2 as (cs' & [= <-] & Hr2).
    destruct Hu1 as [_ [Hu1 _]%Forall_cons], Hu2 as [_ [Hu2 _]%Forall_cons].
    inversion Hr1 as [|? c ? ? H1 _]; subst. inversion Hr2 as [|? ? ? ? H2 _]; subst.
    apply repr_unfold in H1 as (_ & t1 & Ht1 & H1), H2 as (_ & t2 & Ht2 & H2).
    rewrite Ht1 in Ht2. injection Ht2 as <-. f_equal. by apply (IH h2 p1 p2 t1).
Qed.

Lemma transient_upper_bound_index (cs : list (Node K V)) :
  transient_upper_bound (TransientIndex cs) =
  match last cs with
  | Some c => upper_bound c
  | None => Err (NodeError "Index was unexpectedly empty")
  end.
Proof. induction cs as [|c [|c' cs] IH]; [done|done|]. by rewrite last_cons_cons, <- IH. Qed.

(** The upper bound of a node is the last key below it. *)
Lemma repr_upper_bound h p n k :
  uniform h p -> repr p n -> last_key (flatten p) = Some k -> upper_bound n = Ok k.
Proof.
  revert p n; induction h as [|h IH]; intros p n Hu Hr Hk; apply repr_unfold in Hr as (Hb & t & Ht & Hr);
    (destruct n as [link|t']; simpl in *; [congruence|]); injection Ht as ->.
  - destruct p as [es|]; [|done]. simpl in *. subst t. simpl. unfold last_key in Hk.
    by rewrite Hk.
  - destruct p as [|ps]; [done|]. destruct Hu as [Hn Hu], Hr as (cs & -> & Hcs).
    rewrite transient_upper_bound_index.
    destruct ps as [|p ps _] using rev_ind; [done|].
    apply Forall2_app_inv_l in Hcs as (cs1 & cs2 & _ & Hcs & ->).
    apply Forall2_cons_inv_l in Hcs as (c & cs' & Hc & Hnil & ->).
    apply Forall2_nil_inv_l in Hnil as ->.
    apply Forall_app in Hu as [_ Hu]. inversion Hu as [|? ? Hup _]; subst.
    rewrite last_snoc. apply (IH p c); [done|done|].
    rewrite flatten_index in Hk. unfold last_key in *.
    by rewrite last_flattens in Hk by by eapply uniform_nonempty.
Qed.

(** ** Regrouping implements the rows of the canonical shape *)
Lemma grp_Forall2 {A B} (R : A -> B -> Prop) (f : A -> bool) (g : B -> bool) l1 l2 :
  Forall2 (fun a b => R a b /\ f a = g b) l1 l2 ->
  Forall2 (Forall2 R) (grp f l1) (grp g l2).
Proof.
  induction 1 as [|a b l1 l2 [Hab E] _ IH]; simpl; [constructor|]. rewrite E.
  destruct (g b); [by repeat constructor|].
  destruct IH; by repeat constructor.
Qed.

Lemma regroup_entries_spec (es : list (Entry K V)) :
  regroup_entries es = (fun g => Transient (TransientSegment g)) <$> grp (ebound 0) es.
Proof.
  unfold regroup_entries. f_equal. apply (group_by_rank_fn (fun e => rank (key_as_ref (key e)))).
Qed.

Lemma regroup_entries_repr (es : list (Entry K V)) :
  Forall2 repr (forest 0 es) (regroup_entries es).
Proof.
  rewrite regroup_entries_spec. simpl. rewrite Forall2_fmap.
  induction (grp (ebound 0) es); constructor; [|done]. by apply repr_Transient.
Qed.

Lemma regroup_children_repr h (ps : list (ptree K V)) (cs : list (Node K V)) :
  Forall (uniform h) ps -> Forall2 repr ps cs ->
  forall level, exists gs,
    regroup_children cs level = Ok ((fun g => Transient (TransientIndex g)) <$> gs) /\
    concat gs = cs /\
    Forall2 repr (PIndex <$> grp (pbound level) ps)
      ((fun g => Transient (TransientIndex g)) <$> gs).
Proof.
  intros Hu Hr level. unfold regroup_children.
  set (rk (c : Node K V) := match upper_bound c with Ok b => key_rank b | _ => 0%nat end).
  assert (Forall2 (fun p c => repr p c /\ pbound level p = bool_decide (BOTTOM_RANK + level < rk c)%nat
                              /\ rank_of_node c = Ok (rk c)) ps cs) as Hall.
  { induction Hr as [|p c ps cs Hpc Hr IH]; inversion Hu as [|? ? Hup Hu']; subst;
      constructor; [|by apply IH].
    destruct (last_key_nonempty (flatten p)) as [k Hk]; [by eapply uniform_nonempty|].
    pose proof (repr_upper_bound _ _ _ _ Hup Hpc Hk) as Hb.
    split_and!; [done| |].
    - unfold rk. by rewrite Hb, (pbound_last_key _ _ _ Hk).
    - unfold rank_of_node, rk. by rewrite Hb. }
  assert (map_outcome (fun child => r ← rank_of_node child; Ok (child, r)) cs
          = Ok ((fun c => (c, rk c)) <$> cs)) as ->.
  { apply map_outcome_Ok. clear Hr. induction Hall as [|p c ps cs (_ & _ & Hc) _ IH]; csimpl;
      constructor; [by rewrite Hc|]. apply IH. by inversion Hu. }
  simpl. rewrite (group_by_rank_fn rk). set (f := fun c => bool_decide (S level < rk c)%nat).
  exists (grp f cs). split_and!; [done|apply concat_grp|].
  assert (Forall2 (Forall2 repr) (grp (pbound level) ps) (grp f cs)) as Hg.
  { apply grp_Forall2. eapply Forall2_impl; [exact Hall|]. intros p c (? & E & _).
    split; [done|]. by rewrite E. }
  rewrite Forall2_fmap. eapply Forall2_impl; [exact Hg|]. intros g g' Hgg.
  apply repr_Transient. simpl. eauto.
Qed.

(** ** Routing *)
Lemma child_for_from_spec (cs : list (Node K V)) k at_ :
  cs <> [] -> Forall (fun c => exists b, upper_bound c = Ok b) cs ->
  exists l c r,
    cs = l ++ c :: r /\ child_for_from cs k at_ = (at_ + length l)%nat /\
    Forall (fun c => exists b, upper_bound c = Ok b /\ b ≺ k) l /\
    (r = [] \/ exists b, upper_bound c = Ok b /\ k ≼ b).
Proof.
  revert at_; induction cs as [|c [|c' cs] IH]; intros at_ Hn Hb; [done|..].
  - exists [], c, []. simpl. split_and!; [done|lia|constructor|by left].
  - inversion Hb as [|? ? [b Hc] Hb']; subst.
    cbn [child_for_from]. rewrite Hc. destruct (oltb b k) eqn:E.
    + destruct (IH (S at_)) as (l & c0 & r & E0 & E1 & Hl & Hr); [done|done|].
      exists (c :: l), c0, r. split_and!; [by rewrite E0|simpl in *; rewrite E1; lia| |done].
      constructor; [|done]. exists b. split; [done|]. by apply oltb_spec.
    + exists [], c, (c' :: cs). split_and!; [done|simpl; lia|constructor|right].
      exists b. split; [done|]. by apply oltb_false.
Qed.

(** [child_for] on the children of a tree: everything to the left is below the
    key, and unless it is the last, the chosen child reaches the key. *)
Lemma child_for_spec h (ps : list (ptree K V)) (cs : list (Node K V)) k :
  ps <> [] -> Forall (uniform h) ps -> Forall2 repr ps cs -> sorted (flattens ps) ->
  exists pl p pr cl c cr,
    ps = pl ++ p :: pr /\ cs = cl ++ c :: cr /\ child_for cs k = length cl /\
    Forall2 repr pl cl /\ repr p c /\ Forall2 repr pr cr /\
    (forall e, e ∈ flattens pl -> key e ≺ k) /\
    (pr = [] \/ exists b, last_key (flatten p) = Some b /\ k ≼ b).
Proof.
  intros Hn Hu Hr Hs.
  assert (Forall2 (fun p c => exists b, last_key (flatten p) = Some b /\ upper_bound c = Ok b) ps cs)
    as Hb.
  { clear Hs Hn. induction Hr as [|p c ps cs Hpc _ IH]; inversion Hu as [|? ? Hup Hu']; subst;
      constructor; [|by apply IH].
    destruct (last_key_nonempty (flatten p)) as [b Hk]; [by eapply uniform_nonempty|].
    exists b. split; [done|]. by eapply repr_upper_bound. }
  destruct (child_for_from_spec cs k 0) as (cl & c & cr & -> & Hat & Hl & Hc).
  { intros ->. by apply Forall2_nil_inv_r in Hr. }
  { eapply Forall2_Forall_r; [exact Hb|]. apply Forall_true. naive_solver. }
  apply Forall2_app_inv_r in Hr as (pl & pr0 & Hrl & Hr0 & ->).
  apply Forall2_cons_inv_r in Hr0 as (p & pr & Hp & Hpr & ->).
  apply Forall2_app_inv in Hb as [Hbl Hb0]; [|by eapply Forall2_length].
  inversion Hb0 as [|? ? ? ? (b & Hpb & Hcb) _]; subst.
  exists pl, p, pr, cl, c, cr. split_and!; try done.
  - intros e He. unfold flattens in He. apply elem_of_concat in He as (es & Hes & He).
    apply list_elem_of_fmap in Hes as (q & -> & Hq).
    apply list_elem_of_lookup in Hq as [i Hq].
    destruct (Forall2_lookup_l _ _ _ _ _ Hbl Hq) as (c' & Hc' & b' & Hqb & Hcb').
    rewrite Forall_lookup in Hl. destruct (Hl _ _ Hc') as (b'' & Hb'' & Hlt).
    assert (b'' = b') as -> by congruence.
    assert (key e ≼ b').
    { eapply last_key_max; [|exact Hqb|done].
      apply list_elem_of_split_length in Hq as (q1 & q2 & -> & _).
      rewrite !flattens_app, !flattens_cons in Hs.
      apply sorted_app in Hs as (Hs & _ & _).
      apply sorted_app in Hs as (_ & Hs & _). by apply sorted_app in Hs as (? & _ & _). }
    order.
  - destruct Hc as [->|(b' & Hb' & Hle)].
    + left. by apply Forall2_nil_inv_r in Hpr.
    + right. exists b. split; [done|]. congruence.
Qed.

Lemma child_for_ext (cs cs' : list (Node K V)) k :
  Forall2 (fun c c' => upper_bound c = upper_bound c') cs cs' ->
  child_for cs k = child_for cs' k.
Proof.
  unfold child_for. generalize 0%nat. intros at_ Hc. revert at_.
  induction Hc as [|c c' cs cs' E Hcs IH]; intros at_; [done|].
  destruct Hcs as [|d d' cs cs' E' Hcs]; [done|].
  cbn [child_for_from]. rewrite E.
  destruct (upper_bound c') as [b| | |]; try done. destruct (oltb b k); [|done]. apply IH.
Qed.
End repr.
