(* ===== verification/Spine.v ===== *)
(** The path an edit takes: [descend] lifts the nodes from the root to the leaf
    the key routes to, and the leaf is rewritten in place or the path re-shaped
    bottom-up.  Every lemma is stated against the entries below the nodes. *)
From S2P Require Import Prelude Common Nodes SortedEntries Forest Walker TransientTree Repr.

(** What an edit means for the entries of a tree. *)
Definition apply_entries {K V} `{Key K} (edit : Edit K V) (es : list (Entry K V))
    : list (Entry K V) :=
  match edit with Upsert e => upsert e es | Delete k => remove k es end.

Section segment_edits.
Context {K V : Type} `{Key K} {D : Distribution}.
Implicit Types (es : list (Entry K V)) (k : K) (edit : Edit K V).

(** A sorted segment around a key, with the answer of the binary search. *)
Lemma search_cases es k :
  sorted es ->
  (exists l x r, es = l ++ x :: r /\ key x = k /\
     (forall e, e ∈ l -> key e ≺ k) /\ (forall e, e ∈ r -> k ≺ key e) /\
     binary_search_by (fun e => cmp (key e) k) es = inl (length l)) \/
  (exists l r, es = l ++ r /\
     (forall e, e ∈ l -> key e ≺ k) /\ (forall e, e ∈ r -> k ≺ key e) /\
     binary_search_by (fun e => cmp (key e) k) es = inr (length l)).
Proof.
  intros Hs.
  assert ((exists l x r, es = l ++ x :: r /\ key x = k /\
     (forall e, e ∈ l -> key e ≺ k) /\ (forall e, e ∈ r -> k ≺ key e)) \/
    (exists l r, es = l ++ r /\
     (forall e, e ∈ l -> key e ≺ k) /\ (forall e, e ∈ r -> k ≺ key e)))
    as [(l & x & r & -> & <- & Hl & Hr)|(l & r & -> & Hl & Hr)].
  { induction es as [|x es IH].
    - right. exists [], []. set_solver.
    - apply sorted_cons in Hs as [Hs Hx]. destruct (ord_total (key x) k) as [E|[E|E]].
      + destruct (IH Hs) as [(l & y & r & -> & Hy & Hl & Hr)|(l & r & -> & Hl & Hr)].
        * left. exists (x :: l), y, r. split_and!; [done|done| |done]. set_solver.
        * right. exists (x :: l), r. split_and!; [done| |done]. set_solver.
      + left. exists [], x, es. subst k. split_and!; [done|done|set_solver|done].
      + right. exists [], (x :: es). split_and!; [done|set_solver|].
        intros e [->|He]%elem_of_cons; [done|]. specialize (Hx _ He). order. }
  - left. exists l, x, r. split_and!; try done. apply binary_search_found.
    + by apply Forall_forall.
    + by apply cmp_refl.
    + apply Forall_forall. intros e He. apply cmp_gt. by apply Hr.
  - right. exists l, r. split_and!; try done. apply binary_search_missing.
    + by apply Forall_forall.
    + apply Forall_forall. intros e He. apply cmp_gt. by apply Hr.
Qed.

Lemma upsert_above e es : (forall x, x ∈ es -> key e ≺ key x) -> upsert e es = e :: es.
Proof.
  destruct es as [|x es]; [done|]; simpl. intros Hx. specialize (Hx x ltac:(set_solver)).
  unfold olt in Hx. by rewrite Hx.
Qed.

Lemma remove_above k es : (forall x, x ∈ es -> k ≺ key x) -> remove k es = es.
Proof.
  destruct es as [|x es]; [done|]; simpl. intros Hx. specialize (Hx x ltac:(set_solver)).
  unfold olt in Hx. by rewrite Hx.
Qed.

(** [apply_to_segment] performs the edit on the sorted entries. *)
Lemma apply_to_segment_spec es edit :
  sorted es -> apply_to_segment es edit = apply_entries edit es.
Proof.
  intros Hs. destruct edit as [e|k]; simpl.
  - destruct (search_cases es (key e) Hs)
      as [(l & x & r & -> & Ek & Hl & Hr & ->)|(l & r & -> & Hl & Hr & ->)].
    + rewrite upsert_app_r by done. simpl. rewrite Ek, cmp_refl.
      rewrite alter_app_r_alt by lia.
      rewrite Nat.sub_diag. simpl. by rewrite Ek.
    + unfold vec_insert. rewrite take_app_length, drop_app_length.
      by rewrite upsert_app_r, upsert_above.
  - destruct (search_cases es k Hs)
      as [(l & x & r & -> & Ek & Hl & Hr & ->)|(l & r & -> & Hl & Hr & ->)].
    + rewrite remove_app_r by done. simpl. rewrite Ek, cmp_refl.
      by rewrite delete_middle.
    + by rewrite remove_app_r, remove_above.
Qed.

Lemma apply_entries_sorted edit es : sorted es -> sorted (apply_entries edit es).
Proof. destruct edit; [apply upsert_sorted | apply remove_sorted]. Qed.

(** Edits are local to the stretch of entries the key routes to. *)
Lemma apply_entries_app edit pre leaf post :
  (forall e, e ∈ pre -> key e ≺ edit_key edit) ->
  (post = [] \/ exists b, last_key leaf = Some b /\ edit_key edit ≼ b) ->
  apply_entries edit (pre ++ leaf ++ post) = pre ++ apply_entries edit leaf ++ post.
Proof.
  intros Hpre Hpost.
  assert (post = [] \/ exists x, x ∈ leaf /\ edit_key edit ≼ key x) as [->|Hx].
  { destruct Hpost as [->|(b & Hb & Hle)]; [by left|right].
    apply last_key_Some in Hb as (x & Hx & <-). eauto. }
  - rewrite !app_nil_r. destruct edit; simpl in *;
      [by apply upsert_app_r | by apply remove_app_r].
  - destruct edit; simpl in *.
    + by rewrite upsert_app_r, upsert_app_l.
    + by rewrite remove_app_r, remove_app_l.
Qed.

(** The last key survives an edit at or below it that does not delete it. *)
Lemma apply_entries_last_key edit es b :
  last_key es = Some b -> edit_key edit ≼ b ->
  (forall k, edit = Delete k -> k <> b) ->
  last_key (apply_entries edit es) = Some b.
Proof.
  intros Hb Hle Hd. destruct edit as [e|k]; simpl in *.
  - by apply last_key_upsert.
  - apply last_key_remove; [done|]. by apply Hd.
Qed.
End segment_edits.

(** ** Rows after a local change *)
Section rows.
Context {K V : Type} `{Key K} {D : Distribution}.
Implicit Types (es : list (Entry K V)) (p q : ptree K V) (ps : list (ptree K V)).

Lemma forest_one_children h es ps :
  forest (S h) es = [PIndex ps] -> forest h es = ps /\ flattens ps = es.
Proof.
  intros E. pose proof (forest_index _ _ _ E) as [= ->]. split; [done|]. apply flattens_forest.
Qed.

(** The pieces of a row around one of its nodes. *)
Lemma forest_around h es pl q pr :
  forest h es = pl ++ q :: pr ->
  es = flattens pl ++ flatten q ++ flattens pr /\
  forest h (flattens pl) = pl /\ forest h (flatten q) = [q] /\ forest h (flattens pr) = pr /\
  closed (ebound h) (flattens pl) /\ (pr <> [] -> closed (ebound h) (flatten q)).
Proof.
  intros E. destruct (forest_split _ _ _ _ E) as (He & Hl & Hqr & Hc).
  change (q :: pr) with ([q] ++ pr) in Hqr.
  destruct (forest_split _ _ _ _ Hqr) as (He' & Hq & Hr & Hc').
  rewrite flattens_single in *. split_and!; try done. by apply Hc.
Qed.

(** Replacing the entries under one node of a row. *)
Lemma forest_replace h pl pr es' :
  forest h (flattens pl) = pl -> forest h (flattens pr) = pr ->
  closed (ebound h) (flattens pl) -> (pr <> [] -> closed (ebound h) es') ->
  forest h (flattens pl ++ es' ++ flattens pr) = pl ++ forest h es' ++ pr.
Proof.
  intros Hl Hr Hcl Hc. rewrite forest_app by done. rewrite Hl. f_equal.
  destruct pr as [|p pr].
  - by rewrite !app_nil_r.
  - rewrite forest_app by by apply Hc. by rewrite Hr.
Qed.

Lemma closed_last_key h es es' :
  last_key es' = last_key es -> closed (ebound h) es -> closed (ebound h) es'.
Proof.
  unfold last_key, closed, ebound. destruct (last es), (last es'); simpl; try done.
  by intros [= ->].
Qed.

(** Replacing one child by one child with the same last key, or the last child
    by any child, keeps a node a single node. *)
Lemma forest_one_replace h es pl q pr es' q' :
  forest (S h) es = [PIndex (pl ++ q :: pr)] -> forest h es' = [q'] ->
  (pr <> [] -> last_key es' = last_key (flatten q)) ->
  forest (S h) (flattens pl ++ es' ++ flattens pr) = [PIndex (pl ++ q' :: pr)].
Proof.
  intros E Hq' Hk. pose proof (forest_one_children _ _ _ E) as [Hps _].
  destruct (forest_around _ _ _ _ _ Hps) as (-> & Hl & Hq & Hr & Hcl & Hcq).
  assert (forest h (flattens pl ++ es' ++ flattens pr) = pl ++ q' :: pr) as Hrow.
  { rewrite forest_replace; [by rewrite Hq'|done|done|done|].
    intros Hn. eapply closed_last_key; [by apply Hk|]. by apply Hcq. }
  cbn [forest] in E |- *. rewrite Hps in E. rewrite Hrow.
  assert (grp (pbound (S h)) (pl ++ q :: pr) = [pl ++ q :: pr]) as Hg.
  { destruct (grp _ _) as [|g [|]]; csimpl in E; try done. by injection E as ->. }
  apply grp_single in Hg as [_ Hrun].
  rewrite (proj2 (grp_single (pbound (S h)) (pl ++ q' :: pr))); [done|].
  split; [by destruct pl|]. intros a x b Ex Hb.
  destruct (decide (length a = length pl)) as [Hlen|Hlen].
  - apply app_inj_1 in Ex as [<- [= <- <-]]; [|done].
    assert (pbound (S h) q' = pbound (S h) q) as ->.
    { assert (last_key (flatten q') = last_key (flatten q)) as Ek.
      { rewrite (forest_flatten h es' q') by done. by apply Hk. }
      destruct (last_key (flatten q)) as [b'|] eqn:Eb.
      - by rewrite !(pbound_last_key _ _ b').
      - unfold last_key in Ek, Eb. unfold pbound.
        destruct (last (flatten q')), (last (flatten q)); done. }
    by apply (Hrun pl q pr).
  - destruct (app_eq_inv _ _ _ _ Ex) as [(k & Ek1 & Ek2)|(k & Ek1 & Ek2)].
    + destruct k as [|y k]; [rewrite app_nil_r in Ek1; by subst|].
      injection Ek2 as <- ->. rewrite Ek1 in Hrun.
      apply (Hrun a x (k ++ q :: pr)); [by rewrite <- app_assoc|by destruct k].
    + destruct k as [|y k]; [rewrite app_nil_r in Ek1; by subst|].
      injection Ek2 as -> ->.
      apply (Hrun (pl ++ q :: k) x b); [by rewrite <- app_assoc|done].
Qed.
End rows.

(** ** The spine *)
Section spine.
Context {K V : Type} `{Key K} `{NodeCodec K V} {D : Distribution}.
Context (accessor : Accessor).
Local Abbreviation repr := (repr accessor).
Local Abbreviation repr_transient := (repr_transient accessor).
Implicit Types (es : list (Entry K V)) (p q : ptree K V) (t : TransientNode K V).

(** [spine k h p t path pre leaf post]: in the tree [p] of height [h], held as
    [t], the path to the leaf [k] routes to is [path] and is transient; the
    entries of [p] are [pre ++ leaf ++ post]. *)
Inductive spine (k : K) :
    nat -> ptree K V -> TransientNode K V -> list nat ->
    list (Entry K V) -> list (Entry K V) -> list (Entry K V) -> Prop :=
  | spine_leaf es : spine k 0 (PSegment es) (TransientSegment es) [] [] es []
  | spine_step h pl q pr cl t cr path pre leaf post :
      Forall2 repr pl cl -> Forall2 repr pr cr ->
      (forall e, e ∈ flattens pl -> key e ≺ k) ->
      (pr = [] \/ exists b, last_key (flatten q) = Some b /\ k ≼ b) ->
      spine k h q t path pre leaf post ->
      spine k (S h) (PIndex (pl ++ q :: pr)) (TransientIndex (cl ++ Transient t :: cr))
        (length cl :: path) (flattens pl ++ pre) leaf (post ++ flattens pr).

Lemma spine_flatten k h p t path pre leaf post :
  spine k h p t path pre leaf post -> flatten p = pre ++ leaf ++ post.
Proof.
  induction 1 as [es|h pl q pr cl t cr path pre leaf post _ _ _ _ _ IH].
  - simpl. by rewrite app_nil_r.
  - by rewrite flatten_index, flattens_app, flattens_cons, IH, <- !app_assoc.
Qed.

Lemma spine_length k h p t path pre leaf post :
  spine k h p t path pre leaf post -> length path = h.
Proof. induction 1; simpl; auto. Qed.

Lemma spine_pre k h p t path pre leaf post :
  spine k h p t path pre leaf post -> forall e, e ∈ pre -> key e ≺ k.
Proof. induction 1; set_solver. Qed.

Lemma last_key_app es1 es2 : es2 <> [] -> last_key (es1 ++ es2) = last_key es2.
Proof.
  unfold last_key. intros Hn. rewrite last_app. destruct (last es2) eqn:E; [done|].
  by apply last_None in E.
Qed.

(** What follows the leaf is above the key: the leaf reaches it. *)
Lemma spine_post k h p t path pre leaf post :
  spine k h p t path pre leaf post -> leaf <> [] ->
  post = [] \/ exists b, last_key leaf = Some b /\ k ≼ b.
Proof.
  induction 1 as [es|h pl q pr cl t cr path pre leaf post _ _ _ Hq Hsp IH]; [by left|].
  intros Hn. destruct (IH Hn) as [->|Hb]; [|by right].
  destruct Hq as [->|(b & Hb & Hle)]; [by left|right].
  apply spine_flatten in Hsp. rewrite Hsp, app_nil_r, last_key_app in Hb by done. eauto.
Qed.

Lemma spine_repr k h p t path pre leaf post :
  spine k h p t path pre leaf post -> repr_transient p t.
Proof.
  induction 1 as [es|h pl q pr cl t cr path pre leaf post Hl Hr _ _ _ IH]; simpl; [done|].
  eexists; split; [done|]. apply Forall2_app; [done|]. constructor; [|done].
  by apply repr_Transient.
Qed.

Lemma spine_follow k h p t path pre leaf post :
  spine k h p t path pre leaf post -> follow t path = Ok (TransientSegment leaf).
Proof.
  induction 1 as [es|h pl q pr cl t cr path pre leaf post _ _ _ _ _ IH]; [done|].
  cbn [follow]. unfold index_or_panic. by rewrite list_lookup_middle by done.
Qed.

Lemma spine_leaf_nonempty k h p t path pre leaf post :
  spine k h p t path pre leaf post -> uniform h p -> leaf <> [].
Proof.
  induction 1 as [es|h pl q pr cl t cr path pre leaf post _ _ _ _ _ IH]; simpl; [done|].
  intros [_ Hu]. apply IH. by apply Forall_app in Hu as [_ Hu]; inversion Hu.
Qed.

(** The leaf of a tree in canonical rows is one canonical segment. *)
Lemma spine_leaf_forest k h p t path pre leaf post :
  spine k h p t path pre leaf post -> forest h (flatten p) = [p] ->
  forest 0 leaf = [PSegment leaf] /\ closed (ebound 0) pre /\
  (post <> [] -> closed (ebound 0) leaf).
Proof.
  induction 1 as [es|h pl q pr cl t cr path pre leaf post _ _ _ _ Hsp IH]; [done|].
  intros E. apply forest_one_children in E as [E _].
  destruct (forest_around _ _ _ _ _ E) as (_ & _ & Hq & _ & Hcl & Hcq).
  destruct (IH Hq) as (Hleaf & Hpre & Hpost).
  assert (forall es, closed (ebound h) es -> closed (ebound 0) es) as Hmono.
  { clear. induction h; eauto using closed_mono. }
  split_and!; [done| |].
  - destruct pre as [|e pre]; [rewrite app_nil_r; auto|]. by apply closed_app_r.
  - intros Hn. destruct post as [|e post]; [|by apply Hpost].
    apply spine_flatten in Hsp. rewrite app_nil_r in Hsp. simpl in Hn.
    assert (pr <> []) as Hpr by (by intros ->). specialize (Hcq Hpr).
    apply Hmono in Hcq. rewrite Hsp in Hcq. apply closed_app_r in Hcq; [done|].
    intros ->. simpl in Hleaf. done.
Qed.

(** ** [descend] *)
Lemma store_at_cons cs at_ (child : TransientNode K V) path n :
  cs !! at_ = Some (Transient child) ->
  store_at (TransientIndex cs) (at_ :: path) n
  = TransientIndex (<[at_ := Transient (store_at child path n)]> cs).
Proof. intros E. simpl. by rewrite E. Qed.

Lemma follow_cons cs at_ (child : TransientNode K V) path :
  cs !! at_ = Some (Transient child) ->
  follow (TransientIndex cs) (at_ :: path) = follow child path.
Proof. intros E. simpl. unfold index_or_panic. by rewrite E. Qed.

(** Descending from the root along a path is descending inside the child. *)
Lemma descend_cons fuel k at_ path : forall cs (child : TransientNode K V),
  cs !! at_ = Some (Transient child) ->
  descend accessor fuel k (TransientIndex cs) (at_ :: path)
  = ('(child, path) ← descend accessor fuel k child path;
     Ok (TransientIndex (<[at_ := Transient child]> cs), at_ :: path)).
Proof.
  revert path; induction fuel as [|fuel IH]; intros path cs child E; [done|].
  cbn [descend]. rewrite (follow_cons _ _ _ _ E).
  destruct (follow child path) as [[ccs|ces]| | |]; try done.
  - cbn -[store_at index_or_panic]. destruct (index_or_panic ccs _) as [c| | |]; try done.
    cbn -[store_at]. destruct (lift accessor c) as [c'| | |]; try done.
    cbn -[store_at]. rewrite (store_at_cons _ _ _ _ _ E).
    rewrite (IH _ _ (store_at child path (TransientIndex (<[child_for ccs k:=c']> ccs)))).
    2: { rewrite list_lookup_insert_eq; [done|]. by eapply lookup_lt_Some. }
    destruct (descend _ _ _ _ _) as [[c2 p2]| | |]; try done. cbn -[insert].
    by rewrite list_insert_insert_eq.
  - cbn. by rewrite list_insert_id.
Qed.

Lemma descend_spec fuel k h p t :
  (h < fuel)%nat -> uniform h p -> sorted (flatten p) -> repr_transient p t ->
  exists t' path pre leaf post,
    descend accessor fuel k t [] = Ok (t', path) /\ spine k h p t' path pre leaf post.
Proof.
  revert fuel p t; induction h as [|h IH]; intros fuel p t Hf Hu Hs Hr;
    (destruct fuel as [|fuel]; [lia|]); destruct p as [es|ps]; try done.
  - simpl in Hr; subst t. do 5 eexists. split; [reflexivity|constructor].
  - destruct Hu as [Hn Hu], Hr as (cs & -> & Hcs). rewrite flatten_index in Hs.
    destruct (child_for_spec accessor h ps cs k)
      as (pl & q & pr & cl & c & cr & -> & -> & Hat & Hl & Hc & Hrr & Hlt & Hge); try done.
    apply Forall_app in Hu as [_ Hu]. apply Forall_cons in Hu as [Huq _].
    rewrite flattens_app, flattens_cons in Hs. apply sorted_app in Hs as (_ & Hs & _).
    apply sorted_app in Hs as (Hsq & _ & _).
    destruct (repr_lift _ _ _ Hc) as (t & Ht & Hrt).
    destruct (IH fuel q t) as (t' & path & pre & leaf & post & Hd & Hsp); [lia|done..|].
    assert (descend accessor (S fuel) k (TransientIndex (cl ++ c :: cr)) []
            = Ok (TransientIndex (cl ++ Transient t' :: cr), length cl :: path)) as E.
    { cbn -[child_for]. unfold index_or_panic. rewrite Hat, list_lookup_middle by done.
      cbn -[child_for]. rewrite Ht. cbn -[child_for].
      rewrite list_insert_mid.
      rewrite (descend_cons _ _ _ _ _ t) by by apply list_lookup_middle.
      rewrite Hd. cbn. by rewrite list_insert_mid. }
    do 5 eexists. split; [exact E|]. by constructor.
Qed.
End spine.
