(* ===== verification/Fuse.v ===== *)
(** Re-shaping a path: the in-place write of the fast path, the bottom-up
    regrouping of [reshape_path], and the root that [seal_root] makes of the
    result; and, in the second half, fusing the frames of a path that an edit
    emptied or merged. *)
From S2P Require Import Prelude Common Nodes SortedEntries Forest Walker TransientTree Repr Spine.

Section reshape.
Context {K V : Type} `{Key K} `{NodeCodec K V} {D : Distribution}.
Context (accessor : Accessor).
Local Abbreviation repr := (repr accessor).
Local Abbreviation repr_transient := (repr_transient accessor).
Local Abbreviation spine := (spine accessor).
Implicit Types (es : list (Entry K V)) (p q : ptree K V) (t : TransientNode K V).

(** The number of children of an index. *)
Definition arity p : nat := match p with PSegment _ => 0 | PIndex ps => length ps end.

(** Rewriting the leaf in place, when it stays one segment and keeps the bound
    its ancestors were cut by. *)
Lemma store_leaf k h p t path pre leaf post leaf' :
  spine k h p t path pre leaf post -> forest h (flatten p) = [p] -> leaf <> [] ->
  forest 0 leaf' = [PSegment leaf'] -> leaf' <> [] ->
  (post <> [] -> last_key leaf' = last_key leaf) ->
  exists p', forest h (pre ++ leaf' ++ post) = [p'] /\ arity p' = arity p /\
    repr_transient p' (store_at t path (TransientSegment leaf')).
Proof.
  intros Hsp E Hn Hl' Hn' Hk.
  induction Hsp as [es|h pl q pr cl t cr path pre leaf post Hl Hr Hlt Hge Hsp IH].
  - exists (PSegment leaf'). simpl in *. rewrite app_nil_r. auto.
  - pose proof (forest_one_children _ _ _ E) as [E' _].
    destruct (forest_around _ _ _ _ _ E') as (_ & _ & Hq & _ & _ & _).
    destruct IH as (q' & Hq' & _ & Hrq); [done|done| |].
    { intros Hp. apply Hk. by destruct post. }
    exists (PIndex (pl ++ q' :: pr)).
    pose proof (spine_flatten _ _ _ _ _ _ _ _ _ Hsp) as Hfq.
    pose proof (forest_flatten _ _ _ Hq') as Hfq'.
    assert (pr <> [] -> last_key (pre ++ leaf' ++ post) = last_key (flatten q)) as Hk'.
    { intros Hpr. rewrite Hfq. destruct post as [|e post].
      - rewrite !app_nil_r, !last_key_app by done. apply Hk.
        destruct pr as [|p pr]; [done|]. simpl. rewrite flattens_cons. intros [Hp _]%app_eq_nil.
        pose proof (forest_nonempty h (flatten (PIndex (pl ++ q :: p :: pr)))) as Hne.
        rewrite E', Forall_forall in Hne. apply (Hne p); [set_solver|done].
      - rewrite !app_assoc, !last_key_app by done. done. }
    split_and!.
    + rewrite <- (forest_one_replace h _ pl q pr (pre ++ leaf' ++ post) q' E Hq' Hk').
      by rewrite <- !app_assoc.
    + simpl. rewrite !length_app. done.
    + cbn [store_at]. rewrite list_lookup_middle by done. rewrite list_insert_mid.
      eexists; split; [done|]. apply Forall2_app; [done|]. constructor; [|done].
      by apply repr_Transient.
Qed.

Lemma forest_segment_run es : forest 0 es = [PSegment es] <-> es <> [] /\ run (ebound 0) es.
Proof.
  rewrite <- grp_single. simpl. split; [|by intros ->].
  destruct (grp _ _) as [|g [|]]; csimpl; try done. by intros [= ->].
Qed.

(** The check of the fast path is sound: the leaf stays one canonical segment. *)
Lemma fast_path_sound leaf (edit : Edit K V) :
  sorted leaf -> forest 0 leaf = [PSegment leaf] ->
  fast_path_keeps_canonical leaf edit = true ->
  (forall k, edit = Delete k -> last_key leaf <> Some k) ->
  forest 0 (apply_entries edit leaf) = [PSegment (apply_entries edit leaf)].
Proof.
  rewrite !forest_segment_run. intros Hs [Hn Hrun] Hfast Hd.
  destruct edit as [e|k]; simpl in *.
  - destruct (search_cases leaf (key e) Hs)
      as [(l & x & r & -> & Ek & Hl & Hr & Hb)|(l & r & -> & Hl & Hr & Hb)];
      rewrite Hb in Hfast; rewrite upsert_app_r by done.
    + simpl. rewrite Ek, cmp_refl. split; [by destruct l|].
      apply run_app in Hrun as [Hfl Hrx]; [|done]. apply run_app; [done|]. split; [done|].
      destruct r as [|y r]; [apply run_single|].
      apply run_cons in Hrx as [Hx Hrx]; [|done]. apply run_cons; [done|].
      split; [|done]. unfold ebound in *. simpl. by rewrite <- Ek.
    + rewrite upsert_above by done. split; [by destruct l|].
      case_decide as Hrank; [done|].
      assert (ebound 0 e = false) as He.
      { unfold ebound, boundary, key_rank. apply bool_decide_eq_false.
        unfold BOTTOM_RANK in *. lia. }
      destruct r as [|y r].
      * rewrite app_nil_r, bool_decide_true in Hfast by done. simpl in Hfast.
        rewrite !app_nil_r in *. apply run_app; [done|]. split; [|apply run_single].
        destruct l as [|x l _] using rev_ind; [done|]. rewrite last_snoc in Hfast.
        apply run_app in Hrun as [Hfl _]; [|done]. apply Forall_app; split; [done|].
        apply Forall_singleton. unfold ebound, boundary, key_rank.
        apply negb_true_iff in Hfast. by rewrite Nat.add_0_r.
      * apply run_app in Hrun as [Hfl Hry]; [|done]. apply run_app; [done|].
        split; [done|]. by apply run_cons.
  - destruct (search_cases leaf k Hs)
      as [(l & x & r & -> & Ek & Hl & Hr & Hb)|(l & r & -> & Hl & Hr & Hb)];
      rewrite Hb in Hfast; rewrite remove_app_r by done.
    + simpl. rewrite Ek, cmp_refl. destruct r as [|y r].
      { destruct (Hd k); [done|]. by rewrite last_key_snoc, Ek. }
      split; [by destruct l|]. apply run_app in Hrun as [Hfl Hrx]; [|done].
      apply run_cons in Hrx as [_ Hrx]; [|done]. by apply run_app.
    + by rewrite remove_above.
Qed.

(** ** Regrouping a row after a splice *)

(** Some leaf is reached through transient nodes only. *)
Inductive hot : TransientNode K V -> Prop :=
  | hot_segment es : hot (TransientSegment es)
  | hot_index cs t : Transient t ∈ cs -> hot t -> hot (TransientIndex cs).
Definition hots (ns : list (Node K V)) : Prop := exists t, Transient t ∈ ns /\ hot t.

Definition indexes (gs : list (list (Node K V))) : list (Node K V) :=
  (fun g => Transient (TransientIndex g)) <$> gs.

Lemma hots_indexes gs : hots (concat gs) -> hots (indexes gs).
Proof.
  intros (t & (g & Hg & Ht)%elem_of_concat & Hhot). exists (TransientIndex g). split.
  - apply list_elem_of_fmap. eauto.
  - by eapply hot_index.
Qed.

Lemma hots_app_m cl ns cr : hots ns -> hots (cl ++ ns ++ cr).
Proof. intros (t & Ht & Hhot). exists t. set_solver. Qed.

Lemma splice_and_regroup_spec h es' cl mid cr ns :
  Forall2 repr (forest h es') (cl ++ ns ++ cr) ->
  exists gs,
    splice_and_regroup (cl ++ mid ++ cr) (length cl) (length cl + length mid) ns (S h)
      = Ok (indexes gs) /\
    Forall2 repr (forest (S h) es') (indexes gs) /\ (hots ns -> hots (indexes gs)).
Proof.
  intros Hr. unfold splice_and_regroup. rewrite decide_True by (rewrite !length_app; lia).
  assert (splice (cl ++ mid ++ cr) (length cl) (length cl + length mid) ns = cl ++ ns ++ cr)
    as ->.
  { unfold splice. rewrite take_app_length, drop_app_add. by rewrite drop_app_length. }
  destruct (regroup_children_repr accessor h _ _ (forest_uniform h es') Hr (S h))
    as (gs & Hg & Hc & Hgr).
  exists gs. split_and!; [|done|].
  - destruct (cl ++ ns ++ cr) as [|c cs] eqn:E; [|done].
    apply Forall2_nil_inv_r in Hr. cbn [forest] in Hgr. rewrite Hr in Hgr.
    apply Forall2_nil_inv_l in Hgr. unfold indexes. by rewrite Hgr.
  - intros Hh. apply hots_indexes. rewrite Hc. by apply hots_app_m.
Qed.

Lemma child_mut_mid cl t cr : child_mut (TransientIndex (cl ++ Transient t :: cr)) (length cl) = Ok t.
Proof. unfold child_mut. simpl. by rewrite list_lookup_middle. Qed.

(** The last key below a node of the spine that has right siblings is at or
    above the edit's key, and is another key unless the leaf ends with it. *)
Lemma spine_last_key k h q t path pre leaf post b :
  spine k h q t path pre leaf post -> sorted (flatten q) -> leaf <> [] ->
  last_key (flatten q) = Some b ->
  (post <> [] \/ last_key leaf <> Some k) -> k <> b.
Proof.
  intros Hsp Hs Hn Hb Hor ->. pose proof (spine_post _ _ _ _ _ _ _ _ _ Hsp Hn) as Hpost.
  apply spine_flatten in Hsp. rewrite Hsp in *.
  destruct post as [|e post]; [rewrite app_nil_r, last_key_app in Hb by done; naive_solver|].
  destruct Hpost as [|(b' & Hb' & Hle)]; [done|].
  rewrite app_assoc, last_key_app in Hb by done.
  apply last_key_Some in Hb as (x & Hx & <-), Hb' as (y & Hy & <-).
  apply sorted_app in Hs as (_ & Hs & _). apply sorted_app in Hs as (_ & _ & Hlt).
  specialize (Hlt _ _ Hy Hx). order.
Qed.

(** [reshape_path] yields the canonical row over the edited entries. *)
Lemma reshape_path_spec (edit : Edit K V) h p t path pre leaf post :
  spine (edit_key edit) h p t path pre leaf post ->
  forest h (flatten p) = [p] -> sorted (flatten p) ->
  (forall k, edit = Delete k -> post <> [] -> last_key leaf <> Some k) ->
  exists ns, reshape_path t path edit h = Ok ns /\
    Forall2 repr (forest h (apply_entries edit (flatten p))) ns /\
    (apply_entries edit leaf <> [] -> hots ns) /\ (h <> 0%nat -> exists gs, ns = indexes gs).
Proof.
  intros Hsp. remember (edit_key edit) as k eqn:Hk.
  induction Hsp as [es|h pl q pr cl t cr path pre leaf post Hl Hr Hlt Hge Hsp IH];
    intros E Hs Hd.
  - cbn -[forest]. rewrite apply_to_segment_spec by done. eexists. split_and!.
    + reflexivity.
    + apply regroup_entries_repr.
    + intros Hn. rewrite regroup_entries_spec.
      destruct (grp _ _) as [|g gs] eqn:Eg; [by apply grp_nil_iff in Eg|].
      exists (TransientSegment g). split; [csimpl; set_solver|constructor].
    + done.
  - pose proof (forest_one_children _ _ _ E) as [E' _].
    destruct (forest_around _ _ _ _ _ E') as (Hes & Hfl & Hq & Hfr & Hcl & Hcq).
    rewrite Hes in Hs. pose proof Hs as (_ & (Hsq & _ & _)%sorted_app & _)%sorted_app.
    destruct IH as (ns & Hns & Hrn & Hhot & _); [done|done| |].
    { intros k' Ek Hp. apply (Hd k' Ek). by destruct post. }
    cbn [reshape_path]. rewrite child_mut_mid. cbn. rewrite Hns. cbn.
    assert (Forall2 repr (forest h (apply_entries edit (flatten (PIndex (pl ++ q :: pr)))))
              (cl ++ ns ++ cr)) as Hrow.
    { rewrite Hes, apply_entries_app; [|by subst k| by subst k; destruct Hge as [->|]; auto].
      rewrite forest_replace; [|done|done|done|].
      - by repeat apply Forall2_app.
      - intros Hpr. destruct Hge as [|(b & Hb & Hle)]; [done|].
        eapply closed_last_key; [|by apply Hcq]. rewrite Hb.
        apply apply_entries_last_key; [done|by subst k|]. intros k' ->. simpl in Hk. subst k'.
        eapply spine_last_key; [done|done| |done|].
        + eapply spine_leaf_nonempty; [done|]. by eapply forest_uniform_one.
        + destruct post as [|e post]; [right|by left]. apply (Hd k eq_refl).
          simpl. intros Hnil. destruct pr as [|p pr]; [done|].
          pose proof (forest_nonempty h (flattens (p :: pr))) as Hne.
          rewrite Hnil in Hfr. by rewrite (proj2 (forest_nil_iff h [])) in Hfr. }
    destruct (splice_and_regroup_spec h _ cl [Transient t] cr ns Hrow)
      as (gs & Hg & Hgr & Hgh).
    exists (indexes gs). split_and!; [exact Hg|done|auto|eauto].
Qed.
End reshape.

(** * Fusion

    Deleting the last key of a leaf: the leaf loses its boundary, so it fuses with
    the leftmost leaf of the subtree to its right. *)

Section fuse.
Context {K V : Type} `{Key K} `{NodeCodec K V} {D : Distribution}.
Context (accessor : Accessor).
Local Abbreviation repr := (repr accessor).
Local Abbreviation repr_transient := (repr_transient accessor).
Local Abbreviation spine := (spine accessor).
Implicit Types (es : list (Entry K V)) (p q : ptree K V) (t : TransientNode K V).

(** The right (left) edge of the tree is transient down to its leaf. *)
Inductive edge_r : nat -> ptree K V -> TransientNode K V -> Prop :=
  | edge_r_leaf es : edge_r 0 (PSegment es) (TransientSegment es)
  | edge_r_step h pl q cl t :
      Forall2 repr pl cl -> edge_r h q t ->
      edge_r (S h) (PIndex (pl ++ [q])) (TransientIndex (cl ++ [Transient t])).

Inductive edge_l : nat -> ptree K V -> TransientNode K V -> Prop :=
  | edge_l_leaf es : edge_l 0 (PSegment es) (TransientSegment es)
  | edge_l_step h q pr t cr :
      Forall2 repr pr cr -> edge_l h q t ->
      edge_l (S h) (PIndex (q :: pr)) (TransientIndex (Transient t :: cr)).

Lemma edge_l_repr h p t : edge_l h p t -> repr_transient p t.
Proof.
  induction 1; simpl; [done|]. eexists; split; [done|]. constructor; [|done].
  by apply repr_Transient.
Qed.

Lemma pop_snoc {A} (l : list A) x : pop (l ++ [x]) = Some (x, l).
Proof. unfold pop. by rewrite last_snoc, pop_last_snoc. Qed.

Lemma pop_Some {A} (l : list A) x r : pop l = Some (x, r) -> l = r ++ [x].
Proof.
  destruct l as [|y l _] using rev_ind; [done|]. rewrite pop_snoc. by intros [= <- <-].
Qed.

(** Fusing two adjacent subtrees without the last key of the first. *)
Lemma fuse_subtrees_spec h pm tm pn tn em en e :
  edge_r h pm tm -> edge_l h pn tn ->
  forest h (em ++ [e]) = [pm] -> forest h en = [pn] -> en <> [] ->
  exists ns, fuse_subtrees h tm tn (key e) = Ok ns /\
    Forall2 repr (forest h (em ++ en)) ns /\ hots ns.
Proof.
  intros Hm. revert pn tn em en e. induction Hm as [es|h pl q cl t Hl Hm IH];
    intros pn tn em en e Hn Em En Hnn; inversion Hn as [es'|h' q' pr t' cr Hr Hn']; subst.
  - apply forest_segment in Em as [= ->], En as [= ->].
    cbn -[forest]. rewrite pop_snoc, decide_True by done. eexists. split_and!.
    + reflexivity.
    + apply regroup_entries_repr.
    + rewrite regroup_entries_spec. destruct (grp _ _) as [|g gs] eqn:Eg.
      { apply grp_nil_iff, app_eq_nil in Eg as [_ ->]. done. }
      exists (TransientSegment g). split; [csimpl; set_solver|constructor].
  - apply forest_one_children in Em as [Em Fm], En as [En Fn].
    destruct (forest_around _ _ _ _ _ Em) as (Ee & Hfl & Hq & _ & Hcl & _).
    destruct (forest_around _ _ [] _ _ En) as (Ee' & _ & Hq' & Hfr & _ & Hcq').
    change (flattens []) with (@nil (Entry K V)) in Ee, Ee'. rewrite app_nil_r in Ee. simpl in Ee'.
    assert (exists eq0, flatten q = eq0 ++ [e]) as [eq0 Eq].
    { destruct (flatten q) as [|y l _] using rev_ind.
      - by rewrite (proj2 (forest_nil_iff h [])) in Hq.
      - rewrite app_assoc in Ee. apply app_inj_2 in Ee as [_ [= ->]]; eauto. }
    assert (em = flattens pl ++ eq0) as ->.
    { rewrite Eq, app_assoc in Ee. by apply app_inj_2 in Ee as [-> _]. }
    assert (flatten q' <> []) as Hnq'.
    { intros E0. rewrite E0 in Hq'. by rewrite (proj2 (forest_nil_iff h [])) in Hq'. }
    rewrite Eq in Hq.
    destruct (IH q' t' eq0 (flatten q') e) as (ns & Hns & Hrn & Hhot); [done..|].
    assert (Forall2 repr (forest h ((flattens pl ++ eq0) ++ en)) (cl ++ ns ++ cr)) as Hrow.
    { rewrite Ee', <- app_assoc, (app_assoc eq0). rewrite forest_replace; [|done|done|done|].
      - by repeat apply Forall2_app.
      - intros Hpr. apply closed_app_r; [done|]. by apply Hcq'. }
    destruct (regroup_children_repr accessor h _ _ (forest_uniform h _) Hrow (S h))
      as (gs & Hg & Hc & Hgr).
    exists (indexes gs). split_and!.
    + cbn [fuse_subtrees]. rewrite pop_snoc. cbn -[regroup_children]. rewrite Hns.
      cbn -[regroup_children]. exact Hg.
    + exact Hgr.
    + apply hots_indexes. rewrite Hc. by apply hots_app_m.
Qed.

(** ** The shape before the fusion: two lifted edges below their common ancestor *)
Inductive fusable (k : K) : nat -> ptree K V -> TransientNode K V -> list nat -> nat -> Prop :=
  | fusable_here h pl pm pn pr cl tm tn cr path :
      Forall2 repr pl cl -> Forall2 repr pr cr ->
      edge_r h pm tm -> edge_l h pn tn ->
      last_key (flatten pm) = Some k -> flatten pn <> [] ->
      fusable k (S h) (PIndex (pl ++ pm :: pn :: pr))
        (TransientIndex (cl ++ Transient tm :: Transient tn :: cr)) (length cl :: path) 0
  | fusable_there h pl q pr cl t cr path d :
      Forall2 repr pl cl -> Forall2 repr pr cr ->
      fusable k h q t path d ->
      fusable k (S h) (PIndex (pl ++ q :: pr))
        (TransientIndex (cl ++ Transient t :: cr)) (length cl :: path) (S d).

Lemma last_key_inv es k : last_key es = Some k -> exists es0 e, es = es0 ++ [e] /\ key e = k.
Proof.
  destruct es as [|e es _] using rev_ind; [done|]. rewrite last_key_snoc. intros [= <-]. eauto.
Qed.

(** The key is there, and is not the last one. *)
Lemma fusable_key k h p t path d :
  fusable k h p t path d ->
  exists a e b, flatten p = a ++ e :: b /\ key e = k /\ b <> [].
Proof.
  induction 1 as [h pl pm pn pr cl tm tn cr path _ _ _ _ Hk Hn
                 |h pl q pr cl t cr path d _ _ _ (a & e & b & E & Hk & Hb)];
    rewrite flatten_index, flattens_app, !flattens_cons.
  - apply last_key_inv in Hk as (es & e & -> & Hk).
    exists (flattens pl ++ es), e, (flatten pn ++ flattens pr).
    split_and!; [by rewrite <- !app_assoc|done|]. by destruct (flatten pn).
  - exists (flattens pl ++ a), e, (b ++ flattens pr). rewrite E.
    split_and!; [by rewrite <- !app_assoc|done|]. by destruct b.
Qed.

Lemma remove_middle (a : list (Entry K V)) e b :
  sorted (a ++ e :: b) -> remove (key e) (a ++ e :: b) = a ++ b.
Proof.
  intros (_ & _ & Hlt)%sorted_app. rewrite remove_app_r by (intros; apply Hlt; set_solver).
  simpl. by rewrite cmp_refl.
Qed.

Lemma reshape_fused_spec k h p t path np d :
  fusable k h p t path d -> (d < length np)%nat ->
  forest h (flatten p) = [p] -> sorted (flatten p) ->
  exists gs, reshape_fused t path np d k h = Ok (indexes gs) /\
    Forall2 repr (forest h (remove k (flatten p))) (indexes gs) /\ hots (indexes gs).
Proof.
  intros Hf. revert np.
  induction Hf as [h pl pm pn pr cl tm tn cr path Hl Hr Hm Hn Hk Hne
                  |h pl q pr cl t cr path d Hl Hr Hf IH]; intros np Hd E Hs.
  - apply last_key_inv in Hk as (em & e & Eem & <-).
    pose proof (forest_one_children _ _ _ E) as [E' _].
    destruct (forest_around _ _ _ _ _ E') as (Hes & Hfl & Hq & Hfr & Hcl & _).
    destruct (forest_around _ _ [] _ _ Hfr) as (_ & _ & Hqn & Hfr' & _ & Hcn).
    rewrite flattens_cons in Hes. rewrite Eem in Hes, Hq.
    destruct (fuse_subtrees_spec h pm tm pn tn em (flatten pn) e) as (ns & Hns & Hrn & Hhot);
      [done..|].
    assert (Forall2 repr (forest h (remove (key e) (flatten (PIndex (pl ++ pm :: pn :: pr)))))
              (cl ++ ns ++ cr)) as Hrow.
    { rewrite Hes in Hs |- *.
      replace (flattens pl ++ (em ++ [e]) ++ flatten pn ++ flattens pr)
        with ((flattens pl ++ em) ++ e :: flatten pn ++ flattens pr) in * by by rewrite <- !app_assoc.
      rewrite remove_middle by done.
      replace ((flattens pl ++ em) ++ flatten pn ++ flattens pr)
        with (flattens pl ++ (em ++ flatten pn) ++ flattens pr) by by rewrite <- !app_assoc.
      rewrite forest_replace; [|done|done|done|].
      - by repeat apply Forall2_app.
      - intros Hpr. apply closed_app_r; [done|]. by apply Hcn. }
    destruct (splice_and_regroup_spec accessor h _ cl [] cr ns Hrow) as (gs & Hg & Hgr & Hgh).
    exists gs. split_and!; [|done|auto].
    cbn -[splice_and_regroup]. unfold take_transient.
    rewrite list_lookup_middle by done. cbn -[splice_and_regroup]. rewrite delete_middle.
    rewrite list_lookup_middle by done. cbn -[splice_and_regroup]. rewrite delete_middle, Hns.
    cbn -[splice_and_regroup]. simpl in Hg. by rewrite Nat.add_0_r in Hg.
  - pose proof (forest_one_children _ _ _ E) as [E' _].
    destruct (forest_around _ _ _ _ _ E') as (Hes & Hfl & Hq & Hfr & Hcl & Hcq).
    rewrite Hes in Hs. pose proof Hs as (_ & (Hsq & _ & _)%sorted_app & Hlt)%sorted_app.
    destruct np as [|a np]; simpl in Hd; [lia|].
    destruct (IH np) as (gs0 & Hns & Hrn & Hhot); [lia|done|done|].
    destruct (fusable_key _ _ _ _ _ _ Hf) as (a0 & e & b0 & Eq & <- & Hb0).
    assert (Forall2 repr (forest h (remove (key e) (flatten (PIndex (pl ++ q :: pr)))))
              (cl ++ indexes gs0 ++ cr)) as Hrow.
    { rewrite Hes, remove_app_r.
      2: { intros x Hx. apply Hlt; [done|]. rewrite Eq. set_solver. }
      rewrite remove_app_l.
      2: { exists e. split; [rewrite Eq; set_solver|apply ole_refl]. }
      rewrite forest_replace; [|done|done|done|].
      - by repeat apply Forall2_app.
      - intros Hpr. eapply closed_last_key; [|by apply Hcq]. rewrite Eq in Hsq |- *.
        rewrite remove_middle by done. rewrite !last_key_app by done.
        by rewrite last_key_cons. }
    destruct (splice_and_regroup_spec accessor h _ cl [Transient t] cr _ Hrow)
      as (gs & Hg & Hgr & Hgh).
    exists gs. split_and!; [|done|auto].
    cbn [reshape_fused]. rewrite child_mut_mid. cbn -[splice_and_regroup]. rewrite Hns. exact Hg.
Qed.

(** ** [lift_right_neighbor_spine] *)
Lemma lift_left_edge_cons fuel at_ path : forall cs (child : TransientNode K V),
  cs !! at_ = Some (Transient child) ->
  lift_left_edge accessor fuel (TransientIndex cs) (at_ :: path)
  = ('(child, path) ← lift_left_edge accessor fuel child path;
     Ok (TransientIndex (<[at_ := Transient child]> cs), at_ :: path)).
Proof.
  revert path; induction fuel as [|fuel IH]; intros path cs child E; [done|].
  cbn [lift_left_edge]. rewrite (follow_cons _ _ _ _ E).
  destruct (follow child path) as [[ccs|ces]| | |]; try done.
  - cbn -[store_at index_or_panic insert]. destruct (index_or_panic ccs 0) as [c| | |]; try done.
    cbn -[store_at insert]. destruct (lift accessor c) as [c'| | |]; try done.
    cbn -[store_at insert]. rewrite (store_at_cons _ _ _ _ _ E).
    rewrite (IH _ _ (store_at child path (TransientIndex (<[0%nat:=c']> ccs)))).
    2: { rewrite list_lookup_insert_eq; [done|]. by eapply lookup_lt_Some. }
    destruct (lift_left_edge _ _ _ _) as [[c2 p2]| | |]; try done. cbn -[insert].
    by rewrite list_insert_insert_eq.
  - cbn. by rewrite list_insert_id.
Qed.

Lemma lift_left_edge_spec fuel h p t :
  (h < fuel)%nat -> uniform h p -> repr_transient p t ->
  exists t' path, lift_left_edge accessor fuel t [] = Ok (t', path) /\ edge_l h p t'.
Proof.
  revert fuel p t; induction h as [|h IH]; intros fuel p t Hf Hu Hr;
    (destruct fuel as [|fuel]; [lia|]); destruct p as [es|ps]; try done.
  - simpl in Hr; subst t. do 2 eexists. split; [reflexivity|constructor].
  - destruct Hu as [Hn Hu], Hr as (cs & -> & Hcs).
    destruct Hcs as [|q c ps cs Hc Hcs]; [done|]. apply Forall_cons in Hu as [Huq _].
    destruct (repr_lift _ _ _ Hc) as (t & Ht & Hrt).
    destruct (IH fuel q t) as (t' & path & Hd & He); [lia|done..|].
    exists (TransientIndex (Transient t' :: cs)), (0%nat :: path). split; [|by constructor].
    cbn [lift_left_edge follow mbind outcome_bind index_or_panic lookup list_lookup]. rewrite Ht.
    cbn -[lift_left_edge]. rewrite (lift_left_edge_cons _ _ _ _ t) by done. by rewrite Hd.
Qed.

Lemma find_right_sibling_cons at_ path d cs (child : TransientNode K V) :
  cs !! at_ = Some (Transient child) ->
  find_right_sibling (TransientIndex cs) (at_ :: path) (S d)
  = (found ← find_right_sibling child path d;
     match found with
     | Some np => Ok (Some (at_ :: np))
     | None => if decide (at_ + 1 < length cs)%nat then Ok (Some [(at_ + 1)%nat]) else Ok None
     end).
Proof.
  intros E. induction d as [|d IH]; [done|].
  set (r := find_right_sibling _ _ (S d)) in IH.
  cbn [find_right_sibling]. change (take (S d) (at_ :: path)) with (at_ :: take d path).
  rewrite (follow_cons _ _ _ _ E).
  change (index_or_panic (at_ :: path) (S d)) with (index_or_panic (E := DialogSearchTreeError) path d).
  destruct (follow child (take d path)) as [[ccs|ces]| | |]; try done;
    cbn [mbind outcome_bind]; destruct (index_or_panic path d) as [a| | |]; try done;
    cbn [mbind outcome_bind].
  destruct (decide (a + 1 < length ccs)%nat); [done|]. exact IH.
Qed.

(** A neighbor found below a child is lifted inside that child. *)
Lemma lift_right_neighbor_cons fuel at_ path cs (child child' : TransientNode K V) np :
  cs !! at_ = Some (Transient child) ->
  lift_right_neighbor_spine accessor fuel child path = Ok (child', Some np) ->
  lift_right_neighbor_spine accessor fuel (TransientIndex cs) (at_ :: path)
  = Ok (TransientIndex (<[at_ := Transient child']> cs), Some (at_ :: np)).
Proof.
  intros E Hc. unfold lift_right_neighbor_spine in *. cbn [length].
  rewrite (find_right_sibling_cons _ _ _ _ _ E).
  destruct (find_right_sibling child path (length path)) as [[np0|]| | |]; try done.
  cbn [mbind outcome_bind] in *.
  destruct (pop np0) as [[sib parent]|] eqn:Ep; [|done]. apply pop_Some in Ep as ->.
  rewrite app_comm_cons, pop_snoc, (follow_cons _ _ _ _ E).
  destruct (follow child parent) as [node| | |] eqn:Ef; try done. cbn [mbind outcome_bind] in *.
  destruct (transient_as_index node) as [ncs| | |]; try done. cbn [mbind outcome_bind] in *.
  destruct (index_or_panic ncs sib) as [c| | |]; try done. cbn [mbind outcome_bind] in *.
  destruct (lift accessor c) as [c'| | |]; try done. cbn [mbind outcome_bind] in *.
  rewrite (store_at_cons _ _ _ _ _ E). cbn [app].
  erewrite lift_left_edge_cons.
  2: { rewrite list_lookup_insert_eq; [done|]. by eapply lookup_lt_Some. }
  destruct (lift_left_edge _ _ _ _) as [[c2 p2]| | |]; try done. cbn [mbind outcome_bind] in *.
  injection Hc as <- <-. by rewrite list_insert_insert_eq.
Qed.

Lemma spine_rightmost k h p t path pre leaf :
  spine k h p t path pre leaf [] -> uniform h p ->
  edge_r h p t /\ find_right_sibling t path (length path) = Ok None.
Proof.
  remember [] as post eqn:Epost. intros Hsp. revert Epost.
  induction Hsp as [es|h pl q pr cl t cr path pre leaf post Hl Hr _ _ Hsp IH];
    intros Epost Hu; [split; [constructor|done]|].
  apply app_eq_nil in Epost as [-> Epr]. destruct Hu as [_ Hu].
  apply Forall_app in Hu as [_ Hu]. apply Forall_cons in Hu as [Huq Hur].
  assert (pr = []) as ->.
  { destruct pr as [|p pr]; [done|]. apply Forall_cons in Hur as [Hup _].
    rewrite flattens_cons in Epr. apply app_eq_nil in Epr as [Ep _].
    by apply uniform_nonempty in Hup. }
  apply Forall2_nil_inv_l in Hr as ->. destruct (IH eq_refl Huq) as [He Hf].
  split; [by constructor|]. cbn [length].
  rewrite (find_right_sibling_cons _ _ _ _ t) by by apply list_lookup_middle.
  rewrite Hf. cbn. rewrite decide_False; [done|]. rewrite length_app; simpl; lia.
Qed.

Lemma lift_right_neighbor_spec fuel k h p t path pre leaf post :
  spine k h p t path pre leaf post -> uniform h p -> (h < fuel)%nat ->
  post <> [] -> last_key leaf = Some k ->
  exists t' np d,
    lift_right_neighbor_spine accessor fuel t path = Ok (t', Some np) /\
    diverge path np = Some d /\ (d < length np)%nat /\ fusable k h p t' path d.
Proof.
  intros Hsp. induction Hsp as [es|h pl q pr cl t cr path pre leaf post Hl Hr _ _ Hsp IH];
    intros Hu Hf Hn Hk; [done|].
  pose proof Hu as [_ Hus]. apply Forall_app in Hus as [_ Hus].
  apply Forall_cons in Hus as [Huq Hur].
  destruct post as [|e post].
  - destruct (spine_rightmost _ _ _ _ _ _ _ Hsp Huq) as [He Hfind].
    destruct Hr as [|pn cn pr cr Hpn Hr]; [done|]. apply Forall_cons in Hur as [Hun _].
    destruct (repr_lift _ _ _ Hpn) as (tn0 & Hlift & Hrn).
    destruct (lift_left_edge_spec fuel h pn tn0) as (tn & np & Hedge & Hel); [lia|done..|].
    exists (TransientIndex (cl ++ Transient t :: Transient tn :: cr)),
      ((length cl + 1)%nat :: np), 0%nat. split_and!.
    + unfold lift_right_neighbor_spine. cbn [length].
      rewrite (find_right_sibling_cons _ _ _ _ t) by by apply list_lookup_middle.
      rewrite Hfind. cbn [mbind outcome_bind].
      rewrite decide_True by (rewrite length_app; simpl; lia).
      cbn [mbind outcome_bind]. change (pop [(length cl + 1)%nat]) with (Some ((length cl + 1)%nat, @nil nat)).
      cbn [follow mbind outcome_bind transient_as_index]. unfold index_or_panic.
      assert (length cl + 1 = length (cl ++ [Transient t]))%nat as Elen
        by (rewrite length_app; simpl; lia).
      rewrite Elen, (cons_middle (Transient t)), app_assoc.
      rewrite list_lookup_middle by done. cbn [mbind outcome_bind]. rewrite Hlift.
      cbn [mbind outcome_bind store_at]. rewrite list_insert_mid.
      rewrite (lift_left_edge_cons _ _ _ _ tn0) by by apply list_lookup_middle.
      rewrite Hedge. cbn [mbind outcome_bind]. rewrite list_insert_mid.
      by rewrite <- app_assoc.
    + cbn [diverge]. by rewrite decide_False by lia.
    + simpl. lia.
    + constructor; try done.
      * apply spine_flatten in Hsp. rewrite Hsp, app_nil_r, last_key_app; [done|].
        by intros ->.
      * by eapply uniform_nonempty.
  - destruct IH as (t' & np & d & Hlr & Hdv & Hd & Hfus); [done|lia|done|done|].
    do 3 eexists. split_and!.
    + eapply lift_right_neighbor_cons; [by apply list_lookup_middle|exact Hlr].
    + cbn [diverge]. rewrite decide_True by done. by rewrite Hdv.
    + simpl. lia.
    + rewrite list_insert_mid. by constructor.
Qed.
End fuse.
