(* ===== verification/Edits.v ===== *)
(** [Edit::apply] performs the edit on the entries and keeps the shape canonical:
    the root [seal_root] makes, the whole edit, and the one case in which the
    canonical root is missed. *)
From S2P Require Import Prelude Common Nodes SortedEntries Forest Walker TransientTree Repr Spine Fuse.

Section seal.
Context {K V : Type} `{Key K} `{NodeCodec K V} {D : Distribution}.
Context (accessor : Accessor).
Local Abbreviation repr := (repr accessor).
Local Abbreviation repr_transient := (repr_transient accessor).
Implicit Types (es : list (Entry K V)) (p q : ptree K V) (t : TransientNode K V).

Lemma forest_length_pos h es : es <> [] -> (1 <= length (forest h es))%nat.
Proof.
  intros Hn. destruct (forest h es) eqn:E; [by apply forest_nil_iff in E|]. simpl; lia.
Qed.

(** [canon_height] by the row just below. *)
Lemma canon_height_below h es p :
  (1 <= h)%nat -> forest h es = [p] -> (h = 1 \/ 1 < arity p)%nat -> canon_height h es.
Proof.
  intros Hh Hp Har. split_and!; [done|by rewrite Hp|].
  intros h' Hh'. destruct Har as [->|Har]; [lia|]. destruct h as [|h]; [lia|].
  apply forest_index in Hp as ->. simpl in Har.
  pose proof (length_forest_mono h' h es). lia.
Qed.

Lemma canon_height_arity h es p :
  canon_height h es -> forest h es = [p] -> (h = 1 \/ 1 < arity p)%nat.
Proof.
  intros (Hh & _ & Hlow) Hp. destruct (decide (h = 1%nat)); [by left|right].
  destruct h as [|h]; [lia|]. apply forest_index in Hp as ->. simpl. apply Hlow. lia.
Qed.

Lemma repr_not_segment h p t : (1 <= h)%nat -> uniform h p -> repr_transient p t ->
  exists cs, t = TransientIndex cs.
Proof. intros Hh Hu Hr. destruct h, p; simpl in *; try done; try lia. destruct Hr; naive_solver. Qed.

(** Raising: rows are grouped until one node is left. *)
Lemma raise_root_spec fuel h es gs :
  (1 <= fuel)%nat -> (max_rank es <= fuel + h)%nat -> (1 <= h)%nat -> es <> [] ->
  Forall2 repr (forest h es) (indexes gs) ->
  exists h' g, raise_root fuel (indexes gs) (h + 1) = Ok (indexes [g]) /\
    (h <= h' <= Nat.max h (max_rank es))%nat /\
    Forall2 repr (forest h' es) (indexes [g]) /\
    (hots (indexes gs) -> hots (indexes [g])).
Proof.
  revert h gs; induction fuel as [|fuel IH]; intros h gs Hf Hr Hh Hn Hrow; [lia|].
  pose proof (Forall2_length _ _ _ Hrow) as Hlen. unfold indexes in Hlen.
  rewrite length_fmap in Hlen. pose proof (forest_length_pos h es Hn).
  destruct gs as [|g [|g' gs]]; simpl in Hlen; [lia|..].
  - exists h, g. split_and!; [reflexivity|lia|lia|done|done].
  - assert (~ max_rank es <= BOTTOM_RANK + h)%nat as Hlow.
    { intros Hle. destruct h as [|h]; [lia|]. apply forest_high in Hle; [|done]. lia. }
    unfold BOTTOM_RANK in Hlow.
    destruct (regroup_children_repr accessor h _ _ (forest_uniform h es) Hrow (S h))
      as (gs' & Hg & Hc & Hgr).
    destruct (IH (S h) gs') as (h' & g'' & Hra & Hh' & Hrow' & Hhot); [lia..|done|exact Hgr|].
    exists h', g''. split_and!; [|lia|lia|done|].
    + cbn [raise_root]. unfold needs_parent. rewrite bool_decide_true by (simpl; lia).
      cbn [orb]. rewrite (Nat.add_1_r h), Hg. exact Hra.
    + intros Hh0. apply Hhot, hots_indexes. by rewrite Hc.
Qed.

Lemma hot_single cs t : hot (TransientIndex (K := K) (V := V) [Transient t]) -> cs = [Transient t] -> hot t.
Proof.
  intros Hh _. inversion Hh as [|? t' Ht Ht']; subst.
  apply list_elem_of_singleton in Ht as [= ->]. done.
Qed.

(** Stripping: transient one-child chains above height one are removed. *)
Lemma strip_chain_spec h es p t :
  (1 <= h)%nat -> forest h es = [p] -> repr_transient p t ->
  exists h' p', (1 <= h' <= h)%nat /\ forest h' es = [p'] /\
    repr_transient p' (strip_chain t) /\ (hot t -> hot (strip_chain t)) /\
    ((h' = 1 \/ 1 < arity p')%nat \/ exists l, strip_chain t = TransientIndex [Persistent l]).
Proof.
  revert p t; induction h as [|h IH]; intros p t Hh Hp Hr; [lia|].
  pose proof (forest_uniform_one _ _ _ Hp) as Hu.
  pose proof (forest_index _ _ _ Hp) as ->. destruct Hr as (cs & -> & Hcs).
  pose proof (Forall2_length _ _ _ Hcs) as Hlen.
  assert (strip_chain (TransientIndex cs) = TransientIndex cs /\
          (h = 0%nat \/ 1 < length (forest h es) \/ exists l, cs = [Persistent l])%nat \/
          (1 <= h)%nat /\ exists q t, forest h es = [q] /\ repr_transient q t /\
          cs = [Transient t] /\ strip_chain (TransientIndex cs) = strip_chain t)
    as [[Hs Hor]|(Hh' & q & t & Hq & Hrq & -> & Hs)].
  { destruct cs as [|c [|c' cs]]; simpl in *.
    - destruct Hu as [Hn _]. destruct (forest h es); done.
    - destruct c as [l|[ccs|ces]]; [left; eauto 6| |].
      + right. destruct (forest h es) as [|q [|]] eqn:Eq; simpl in Hlen; try lia.
        inversion Hcs as [|? ? ? ? Hq _]; subst. apply repr_Transient in Hq.
        destruct h as [|h].
        { apply forest_segment in Eq as ->. done. }
        split; [lia|]. exists q, (TransientIndex ccs). done.
      + left. split; [done|]. destruct h as [|h]; [by left|exfalso].
        destruct (forest (S h) es) as [|q [|]] eqn:Eq; simpl in Hlen; try lia.
        inversion Hcs as [|? ? ? ? Hq _]; subst. apply repr_Transient in Hq.
        apply forest_index in Eq as ->. by destruct Hq as (? & ? & _).
    - left. split; [by destruct c|]. right; left. lia. }
  - exists (S h), (PIndex (forest h es)). rewrite Hs. split_and!; [lia|lia|done|by exists cs|done|].
    destruct Hor as [->|[Hor|[l ->]]]; [left; by left|left; by right|right; eauto].
  - destruct (IH q t Hh' Hq Hrq) as (h' & p' & Hle & Hp' & Hrp & Hhot & Hor).
    rewrite Hs. exists h', p'. split_and!; [lia|lia|done|done| |done].
    intros Ht. apply Hhot. by eapply hot_single.
Qed.

(** [seal_root] turns a row into a root over the same entries. *)
Lemma seal_root_spec fuel h es gs :
  (1 <= fuel)%nat -> (max_rank es <= fuel + h)%nat -> (1 <= h)%nat -> es <> [] ->
  Forall2 repr (forest h es) (indexes gs) ->
  exists t h' p, seal_root fuel (indexes gs) h = Ok (Some t) /\
    (1 <= h' <= Nat.max h (max_rank es))%nat /\ forest h' es = [p] /\ repr_transient p t /\
    (hots (indexes gs) -> hot t) /\
    ((h' = 1 \/ 1 < arity p)%nat \/ exists l, t = TransientIndex [Persistent l]).
Proof.
  intros Hf Hr Hh Hn Hrow.
  destruct (raise_root_spec fuel h es gs) as (h1 & g & Hra & Hh1 & Hrow1 & Hhot1); try done.
  inversion Hrow1 as [|p ? ps ? Hp Hnil Ep]; subst. apply Forall2_nil_inv_r in Hnil as ->.
  apply repr_Transient in Hp. symmetry in Ep.
  destruct (strip_chain_spec h1 es p (TransientIndex g)) as (h' & p' & Hh' & Hp' & Hrp & Hhot & Hor);
    [lia|done|done|].
  exists (strip_chain (TransientIndex g)), h', p'. split_and!; try done; try lia.
  - unfold seal_root. destruct (indexes gs) eqn:Eg.
    { apply Forall2_nil_inv_r in Hrow. by apply forest_nil_iff in Hrow. }
    rewrite Hra. done.
  - intros Hh0. apply Hhot. destruct (Hhot1 Hh0) as (t & Ht & Htt).
    apply list_elem_of_singleton in Ht as [= ->]. done.
Qed.
End seal.

(** ** The whole edit *)
Section apply.
Context {K V : Type} `{Key K} `{NodeCodec K V} {D : Distribution}.
Context (accessor : Accessor).
Local Abbreviation repr := (repr accessor).
Local Abbreviation repr_transient := (repr_transient accessor).
Local Abbreviation spine := (spine accessor).
Implicit Types (es : list (Entry K V)) (p q : ptree K V) (t : TransientNode K V).
Implicit Types (edit : Edit K V).

(** [t] is a tree of height [h] over the entries [es], in canonical rows. *)
Definition tree_at (h : nat) es t : Prop :=
  (1 <= h)%nat /\ sorted es /\ exists p, forest h es = [p] /\ repr_transient p t.

(** The edit deletes the last entry of the tree, and it is alone in its leaf. *)
Definition lone_tail edit es : Prop :=
  exists es0 e, edit = Delete (key e) /\ es = es0 ++ [e] /\ closed (ebound 0) es0.

(** What an edit leaves: a tree over the edited entries, canonical if the tree
    was, unless the [lone_tail] case hides a chain behind a reference. *)
Definition edited (h : nat) es edit (o : option (TransientNode K V)) : Prop :=
  let es' := apply_entries edit es in
  match o with
  | None => es' = []
  | Some t => exists h', (h' <= Nat.max h (max_rank es'))%nat /\ tree_at h' es' t /\
      (canon_height h es ->
       canon_height h' es' \/ (exists l, t = TransientIndex [Persistent l]) /\ lone_tail edit es)
  end.

Lemma hot_not_reference (l : Link K) : ~ hot (TransientIndex (K := K) (V := V) [Persistent l]).
Proof. inversion 1 as [|? t Ht]; subst. by apply list_elem_of_singleton in Ht. Qed.

Lemma seal_edited fuel h es edit gs :
  sorted es -> (1 <= fuel)%nat -> (1 <= h)%nat ->
  (max_rank (apply_entries edit es) <= fuel + h)%nat ->
  Forall2 repr (forest h (apply_entries edit es)) (indexes gs) ->
  (hots (indexes gs) \/ lone_tail edit es) ->
  exists o, seal_root fuel (indexes gs) h = Ok o /\ edited h es edit o.
Proof.
  intros Hs Hf Hh Hr Hrow Hor. set (es' := apply_entries edit es) in *.
  destruct (decide (length es' = 0)%nat) as [Hn|Hn].
  { apply length_zero_iff_nil in Hn. exists None. split; [|done]. rewrite Hn in Hrow.
    rewrite (proj2 (forest_nil_iff h [])) in Hrow by done.
    apply Forall2_nil_inv_l in Hrow. by rewrite Hrow. }
  assert (es' <> []) as Hn' by by intros E; rewrite E in Hn.
  destruct (seal_root_spec accessor fuel h es' gs)
    as (t & h' & p & Ht & Hh' & Hp & Hrp & Hhot & Hshape); try done.
  exists (Some t). split; [done|]. exists h'. subst es'. split_and!; [lia| |].
  - split_and!; [lia|by apply apply_entries_sorted|eauto].
  - intros _. destruct Hshape as [Hshape|[l ->]].
    + left. by apply (canon_height_below h' _ p); [lia|..].
    + destruct Hor as [Hh0|Hlone]; [|right; eauto].
      by destruct (hot_not_reference l (Hhot Hh0)).
Qed.

(** Splitting off the pieces of [apply] that the branches share. *)
Section branches.
Context (fuel h : nat) es edit p t' (path : list nat) (pre leaf post : list (Entry K V)).
Context (Hh : (1 <= h)%nat) (Hs : sorted es) (Hp : forest h es = [p]).
Context (Hsp : spine (edit_key edit) h p t' path pre leaf post).
Context (Hf : (h < fuel)%nat) (Hr : (max_rank (apply_entries edit es) <= fuel)%nat).

Lemma branch_flatten : flatten p = es.
Proof. by apply (forest_flatten h). Qed.
Lemma branch_row : forest h (flatten p) = [p].
Proof. by rewrite branch_flatten. Qed.
Lemma branch_sorted : sorted (flatten p).
Proof. by rewrite branch_flatten. Qed.
Lemma branch_entries : es = pre ++ leaf ++ post.
Proof. rewrite <- branch_flatten. by eapply spine_flatten. Qed.
Lemma branch_leaf : leaf <> [].
Proof. eapply spine_leaf_nonempty; [done|]. by eapply forest_uniform_one. Qed.
Lemma branch_leaf_sorted : sorted leaf.
Proof.
  pose proof Hs as Hs'. rewrite branch_entries in Hs'.
  apply sorted_app in Hs' as (_ & Hs' & _). by apply sorted_app in Hs' as (? & _ & _).
Qed.

(** Deleting the last key of a leaf that has a right neighbor. *)
Lemma apply_fused :
  edit = Delete (edit_key edit) -> last_key leaf = Some (edit_key edit) -> post <> [] ->
  exists o,
    ('(root, neighbor_path) ← lift_right_neighbor_spine accessor fuel t' path;
     replacement ←
       match neighbor_path with
       | Some neighbor_path =>
           lca_depth ← ok_or (NodeError "Boundary delete had no diverging neighbor path")
                         (diverge path neighbor_path);
           reshape_fused root path neighbor_path lca_depth (edit_key edit) h
       | None => reshape_path root path edit h
       end;
     seal_root fuel replacement h) = Ok o /\ edited h es edit o.
Proof.
  intros Ed Hk Hpost.
  destruct (lift_right_neighbor_spec accessor fuel (edit_key edit) h p t' path pre leaf post)
    as (t2 & np & d & Hlr & Hdv & Hd & Hfus); try done.
  { by eapply forest_uniform_one. }
  destruct (reshape_fused_spec accessor _ h p t2 path np d Hfus Hd branch_row branch_sorted)
    as (gs & Hre & Hrow & Hhot).
  rewrite Hlr. cbn [mbind outcome_bind]. rewrite Hdv. cbn [ok_or mbind outcome_bind].
  rewrite Hre. cbn [mbind outcome_bind]. apply seal_edited; try done; try lia.
  - rewrite branch_flatten in Hrow. by rewrite Ed.
  - by left.
Qed.

(** Every other edit that re-shapes the path. *)
Lemma apply_reshaped :
  (forall k, edit = Delete k -> post <> [] -> last_key leaf <> Some k) ->
  exists o, (replacement ← reshape_path t' path edit h; seal_root fuel replacement h) = Ok o /\
    edited h es edit o.
Proof.
  intros Hd.
  destruct (reshape_path_spec accessor edit h p t' path pre leaf post Hsp branch_row
              branch_sorted Hd) as (ns & Hre & Hrow & Hhot & Hgs).
  destruct Hgs as [gs ->]; [lia|]. rewrite Hre. cbn [mbind outcome_bind].
  apply seal_edited; try done; try lia; [by rewrite branch_flatten in Hrow|].
  destruct (decide (length (apply_entries edit leaf) = 0)%nat) as [Hn|Hn].
  2: { left. apply Hhot. intros E. by rewrite E in Hn. }
  right. apply length_zero_iff_nil in Hn. pose proof branch_leaf as Hnl.
  pose proof branch_entries as Hes.
  pose proof (spine_leaf_forest _ _ _ _ _ _ _ _ _ Hsp branch_row) as (_ & Hclosed & _).
  clear Hhot Hrow Hre Hf Hr Hsp.
  destruct edit as [e|k]; simpl in Hn; [by apply upsert_nonempty in Hn|].
  destruct leaf as [|x [|y l]] eqn:El; [done|..].
  - simpl in Hn. destruct (cmp k (key x)) eqn:Ex; try done. apply cmp_eq in Ex as ->.
    assert (post = []) as Hpost.
    { destruct post; [done|]. by destruct (Hd (key x)). }
    exists pre, x. rewrite Hes, Hpost. by split_and!.
  - simpl in Hn. destruct (cmp k (key x)) eqn:Ex; try done.
Qed.

(** The fast path. *)
Lemma apply_fast :
  (forall k, edit = Delete k -> last_key leaf <> Some k) ->
  fast_path_keeps_canonical leaf edit = true ->
  edited h es edit (Some (store_at t' path (TransientSegment (apply_to_segment leaf edit)))).
Proof.
  intros Hd Hfast.
  destruct (spine_leaf_forest _ _ _ _ _ _ _ _ _ Hsp branch_row) as (Hl & _ & _).
  pose proof (fast_path_sound leaf edit branch_leaf_sorted Hl Hfast Hd) as Hl'.
  rewrite apply_to_segment_spec by apply branch_leaf_sorted.
  pose proof (spine_post _ _ _ _ _ _ _ _ _ Hsp branch_leaf) as Hpost.
  destruct (store_leaf accessor (edit_key edit) h p t' path pre leaf post (apply_entries edit leaf))
    as (p' & Hp' & Har & Hrp); try done.
  - apply branch_row.
  - apply branch_leaf.
  - by apply forest_segment_run in Hl' as [? _].
  - intros Hn. destruct Hpost as [|(b & Hb & Hle)]; [done|]. rewrite Hb.
    apply apply_entries_last_key; [done|done|]. intros k Ek ->. by apply (Hd b).
  - assert (apply_entries edit es = pre ++ apply_entries edit leaf ++ post) as Ees.
    { rewrite branch_entries. apply apply_entries_app; [|done].
      by eapply spine_pre. }
    exists h. rewrite Ees. split_and!; [lia| |].
    + split_and!; [done| |eauto]. rewrite <- Ees. by apply apply_entries_sorted.
    + intros Hc. left. apply (canon_height_below h _ p'); [done..|]. rewrite Har.
      by eapply canon_height_arity.
Qed.
End branches.

(** With enough fuel an edit returns, and what it returns holds the edited
    entries. *)
Lemma apply_correct fuel h es edit t :
  tree_at h es t -> (h < fuel)%nat -> (max_rank (apply_entries edit es) <= fuel)%nat ->
  exists o, apply accessor fuel edit t = Ok o /\ edited h es edit o.
Proof.
  intros (Hh & Hs & p & Hp & Hr) Hf Hrk.
  destruct (descend_spec accessor fuel (edit_key edit) h p t)
    as (t' & path & pre & leaf & post & Hdesc & Hsp); [done|by eapply forest_uniform_one| |done|].
  { by rewrite (forest_flatten h es p). }
  unfold apply. rewrite Hdesc. cbn [mbind outcome_bind].
  rewrite (spine_length _ _ _ _ _ _ _ _ _ Hsp), (spine_follow _ _ _ _ _ _ _ _ _ Hsp).
  cbn [mbind outcome_bind].
  set (bd := match edit with Upsert _ => _ | Delete _ => _ end).
  destruct bd eqn:Ebd; subst bd.
  - destruct edit as [|k]; [done|]. destruct (last leaf) as [e|] eqn:El; [|done].
    apply bool_decide_eq_true in Ebd. subst k.
    assert (last_key leaf = Some (key e)) as Hk by (unfold last_key; by rewrite El).
    destruct (decide (length post = 0)%nat) as [Hn|Hn].
    + apply length_zero_iff_nil in Hn as ->.
      destruct (spine_rightmost accessor _ h p t' path pre leaf Hsp) as [_ Hfind].
      { by eapply forest_uniform_one. }
      unfold lift_right_neighbor_spine. rewrite Hfind. cbn [mbind outcome_bind].
      eapply apply_reshaped; done.
    + eapply apply_fused; try done. by intros ->.
  - assert (forall k, edit = Delete k -> last_key leaf <> Some k) as Hd.
    { intros k ->. unfold last_key. destruct (last leaf) as [e|]; [|done]. simpl.
      apply bool_decide_eq_false in Ebd. naive_solver. }
    destruct (fast_path_keeps_canonical leaf edit) eqn:Ef.
    + eexists. split; [done|]. by eapply apply_fast.
    + eapply apply_reshaped; eauto.
Qed.
End apply.
