(* ===== verification/Batch.v ===== *)
(** Batches of edits ([TransientTree::insert], [TransientTree::delete]) refine
    edits of a sorted sequence of entries; a batch built in memory depends on its
    contents only. *)
From S2P Require Import Prelude Common Nodes SortedEntries Forest Walker TransientTree Repr Spine Fuse Edits Instances.

Section batch.
Context {K V : Type} `{Key K} `{NodeCodec K V} {D : Distribution}.
Implicit Types (es : list (Entry K V)) (t : TransientNode K V) (root : TransientRoot K V).

(** One operation of a batch, and a batch. *)
Definition apply_edit accessor (fuel : nat) (edit : Edit K V) root : tree_result (TransientRoot K V) :=
  match edit with
  | Upsert e => insert accessor fuel (key e) (value e) root
  | Delete k => delete_key accessor fuel k root
  end.
Fixpoint apply_edits accessor (fuel : nat) (edits : list (Edit K V)) root
    : tree_result (TransientRoot K V) :=
  match edits with
  | [] => Ok root
  | edit :: edits => root ← apply_edit accessor fuel edit root; apply_edits accessor fuel edits root
  end.

(** The specification: the same edits on a sorted sequence. *)
Definition edit_entries (edits : list (Edit K V)) es : list (Entry K V) :=
  fold_left (fun es edit => apply_entries edit es) edits es.

(** Ranks are bounded ([R]); so are the heights of the trees, and the fuel any
    edit needs. *)
Context (R : nat).

(** [root] holds the entries [es] (the abstraction relation). *)
Definition represents accessor es root : Prop :=
  sorted es /\ exists o, load accessor root = Ok o /\
  match o with
  | None => es = []
  | Some t => exists h, (h <= S R)%nat /\ tree_at accessor h es t
  end.

(** ... in the canonical shape. *)
Definition canonical accessor es root : Prop :=
  sorted es /\ exists o, load accessor root = Ok o /\
  match o with
  | None => es = []
  | Some t => exists h, canon_height h es /\ tree_at accessor h es t
  end.

Context (rank_le : forall b, (rank b <= R)%nat).

Lemma max_rank_le es : (max_rank es <= R)%nat.
Proof.
  unfold max_rank. induction es as [|e es IH]; csimpl; [lia|].
  pose proof (rank_le (key_as_ref (key e))). unfold key_rank in *. simpl. lia.
Qed.

Lemma canon_height_le h es : canon_height h es -> (h <= S R)%nat.
Proof.
  intros (Hh & Hl & Hlow). destruct (decide (h <= 1)%nat) as [|Hn]; [lia|].
  destruct h as [|[|h]]; [lia|lia|]. specialize (Hlow (S h) ltac:(lia)).
  destruct (decide (max_rank es <= BOTTOM_RANK + S h)%nat) as [Hm|Hm].
  - apply forest_high in Hm; [lia|]. intros ->.
    by rewrite (proj2 (forest_nil_iff (S h) [])) in Hlow; simpl in Hlow; [lia|].
  - pose proof (max_rank_le es). unfold BOTTOM_RANK in Hm. lia.
Qed.

Lemma canonical_represents accessor es root :
  canonical accessor es root -> represents accessor es root.
Proof.
  intros (Hs & o & Ho & Hc). split; [done|]. exists o. split; [done|].
  destruct o as [t|]; [|done]. destruct Hc as (h & Hh & Ht). exists h.
  split; [by eapply canon_height_le|done].
Qed.

Lemma forest_singleton (e : Entry K V) : forest 1 [e] = [PIndex [PSegment [e]]].
Proof.
  cbn -[pbound ebound]. destruct (ebound 0 e); cbn -[pbound]; by destruct (pbound 1 _).
Qed.

Lemma load_null accessor : load accessor (Unloaded (K := K) (V := V) NULL_BLAKE3_HASH) = Ok None.
Proof. unfold load. by rewrite decide_True. Qed.

(** The one-entry tree an insert into the empty tree makes. *)
Lemma singleton_tree accessor (e : Entry K V) :
  canon_height 1 [e] /\ tree_at accessor 1 [e] (TransientIndex [Transient (TransientSegment [e])]).
Proof.
  split.
  - split_and!; [lia|by rewrite forest_singleton|lia].
  - split_and!; [lia|repeat constructor|]. eexists. split; [apply forest_singleton|].
    eexists. split; [done|]. constructor; [|done]. by apply repr_Transient.
Qed.

Lemma edited_represents accessor h es edit t :
  sorted es -> (h <= S R)%nat -> edited accessor h es edit (Some t) ->
  represents accessor (apply_entries edit es) (Loaded t).
Proof.
  intros Hs Hh (h' & Hle & Ht & _). split; [by apply apply_entries_sorted|].
  eexists. split; [done|]. exists h'. split; [|done].
  pose proof (max_rank_le (apply_entries edit es)). lia.
Qed.

(** One operation, with what it does to the shape. *)
Lemma apply_edit_correct accessor fuel es edit root :
  (S R < fuel)%nat -> represents accessor es root ->
  exists root', apply_edit accessor fuel edit root = Ok root' /\
    represents accessor (apply_entries edit es) root' /\
    (canonical accessor es root ->
     canonical accessor (apply_entries edit es) root' \/
     (exists l, root' = Loaded (TransientIndex [Persistent l])) /\ lone_tail edit es).
Proof.
  intros Hf (Hs & o & Ho & Hr).
  pose proof (apply_entries_sorted edit es Hs) as Hs'.
  pose proof (max_rank_le (apply_entries edit es)) as Hm.
  destruct o as [t|].
  - destruct Hr as (h & Hh & Ht).
    destruct (apply_correct accessor fuel h es edit t) as (o & Happ & Hed); [done|lia|lia|].
    assert (canonical accessor es root -> canon_height h es) as Hcan.
    { intros (_ & o' & Ho' & Hc). rewrite Ho in Ho'. injection Ho' as <-.
      destruct Hc as (h0 & Hc & Ht0).
      destruct Ht as (_ & _ & p & Hp & Hrp), Ht0 as (_ & _ & p0 & Hp0 & Hrp0).
      assert (h = h0); [|by subst].
      pose proof (forest_uniform_one _ _ _ Hp) as Hu.
      pose proof (forest_uniform_one _ _ _ Hp0) as Hu0.
      by eapply uniform_repr_height. }
    destruct o as [t'|].
    + exists (Loaded t'). split_and!.
      * destruct edit as [[k v]|k]; cbn [apply_edit key value]; unfold insert, delete_key;
          rewrite Ho; cbn [mbind outcome_bind]; by rewrite Happ.
      * by eapply edited_represents.
      * intros Hc. destruct Hed as (h' & Hle & Ht' & Hsh).
        destruct (Hsh (Hcan Hc)) as [Hc'|[[l ->] Hlone]]; [left|right; eauto].
        split; [done|]. eexists. split; [done|]. by exists h'.
    + simpl in Hed. exists (Unloaded NULL_BLAKE3_HASH). split_and!.
      * destruct edit as [e|k]; [by apply upsert_nonempty in Hed|].
        simpl. unfold delete_key. rewrite Ho; simpl. by rewrite Happ.
      * split; [done|]. exists None. by rewrite load_null.
      * intros _. left. split; [done|]. exists None. by rewrite load_null.
  - subst es. destruct edit as [e|k].
    + destruct (singleton_tree accessor e) as [Hc Ht].
      exists (Loaded (TransientIndex [Transient (TransientSegment [e])])). split_and!.
      * simpl. unfold insert. rewrite Ho. by destruct e.
      * split; [done|]. eexists. split; [done|]. exists 1%nat. split; [lia|done].
      * intros _. left. split; [done|]. eexists. split; [done|]. by exists 1%nat.
    + exists (Unloaded NULL_BLAKE3_HASH). split_and!.
      * simpl. unfold delete_key. by rewrite Ho.
      * split; [done|]. exists None. by rewrite load_null.
      * intros _. left. split; [done|]. exists None. by rewrite load_null.
Qed.
End batch.

(** ** Loading more never changes what an edit does *)
Section monotone.
Context {K V : Type} `{Key K} `{NodeCodec K V} {D : Distribution}.

(** [acc'] answers whatever [acc] answers. *)
Definition extends (acc acc' : Accessor) : Prop :=
  forall h node, acc h = Ok node -> acc' h = Ok node.

Context (acc acc' : Accessor) (Hext : extends acc acc').
Implicit Types (t : TransientNode K V) (root : TransientRoot K V).

Lemma lift_mono (n n' : Node K V) : lift acc n = Ok n' -> lift acc' n = Ok n'.
Proof.
  destruct n as [l|t]; simpl; [|done]. intros Hn. outcome_inv.
  rewrite (Hext _ _ Ha). simpl. by rewrite Ha0.
Qed.

Lemma descend_mono fuel k : forall t path r,
  descend acc fuel k t path = Ok r -> descend acc' fuel k t path = Ok r.
Proof.
  induction fuel as [|fuel IH]; intros t path r Hd; [done|]. cbn [descend] in *.
  destruct (follow t path) as [[cs|es]| | |]; try done. cbn [mbind outcome_bind] in *.
  destruct (index_or_panic cs _) as [c| | |]; try done. cbn [mbind outcome_bind] in *.
  destruct (lift acc c) as [c'| | |] eqn:Hc; try done. cbn [mbind outcome_bind] in *.
  rewrite (lift_mono _ _ Hc). cbn [mbind outcome_bind]. by apply IH.
Qed.

Lemma lift_left_edge_mono fuel : forall t path r,
  lift_left_edge acc fuel t path = Ok r -> lift_left_edge acc' fuel t path = Ok r.
Proof.
  induction fuel as [|fuel IH]; intros t path r Hd; [done|]. cbn [lift_left_edge] in *.
  destruct (follow t path) as [[cs|es]| | |]; try done. cbn [mbind outcome_bind] in *.
  destruct (index_or_panic cs _) as [c| | |]; try done. cbn [mbind outcome_bind] in *.
  destruct (lift acc c) as [c'| | |] eqn:Hc; try done. cbn [mbind outcome_bind] in *.
  rewrite (lift_mono _ _ Hc). cbn [mbind outcome_bind]. by apply IH.
Qed.

Lemma lift_right_neighbor_mono fuel t path r :
  lift_right_neighbor_spine acc fuel t path = Ok r ->
  lift_right_neighbor_spine acc' fuel t path = Ok r.
Proof.
  unfold lift_right_neighbor_spine. intros Hr.
  apply bind_Ok_inv in Hr as (np & -> & Hr). cbn [mbind outcome_bind].
  destruct np as [np|]; [|done]. destruct (pop np) as [[sib parent]|]; [|done].
  apply bind_Ok_inv in Hr as (node & -> & Hr). cbn [mbind outcome_bind].
  apply bind_Ok_inv in Hr as (cs & -> & Hr). cbn [mbind outcome_bind].
  apply bind_Ok_inv in Hr as (c & -> & Hr). cbn [mbind outcome_bind].
  apply bind_Ok_inv in Hr as (c' & Hc & Hr). rewrite (lift_mono _ _ Hc). cbn [mbind outcome_bind].
  apply bind_Ok_inv in Hr as ([t' p'] & Hl & Hr). by rewrite (lift_left_edge_mono _ _ _ _ Hl).
Qed.

Lemma apply_mono fuel edit t o : apply acc fuel edit t = Ok o -> apply acc' fuel edit t = Ok o.
Proof.
  unfold apply. intros Ho. apply bind_Ok_inv in Ho as ([t' path] & Hd & Ho).
  rewrite (descend_mono _ _ _ _ _ Hd). cbn [mbind outcome_bind].
  apply bind_Ok_inv in Ho as (leaf & -> & Ho). cbn [mbind outcome_bind] in *.
  match goal with |- context [if ?b then _ else _] => destruct b end; [|done].
  apply bind_Ok_inv in Ho as ([t2 np] & Hl & Ho). by rewrite (lift_right_neighbor_mono _ _ _ _ Hl).
Qed.

Lemma load_mono root o : load acc root = Ok o -> load acc' root = Ok o.
Proof.
  unfold load. destruct root; [|done]. case_decide; [done|]. intros Hl. outcome_inv.
  rewrite (Hext _ _ Ha). simpl. by rewrite Ha0.
Qed.

Lemma apply_edit_mono fuel edit root root' :
  apply_edit acc fuel edit root = Ok root' -> apply_edit acc' fuel edit root = Ok root'.
Proof.
  destruct edit as [e|k]; simpl; unfold insert, delete_key; intros Hr;
    apply bind_Ok_inv in Hr as (o & Hl & Hr); rewrite (load_mono _ _ Hl); cbn [mbind outcome_bind].
  - destruct o as [t|]; [|done].
    apply bind_Ok_inv in Hr as (t' & Ht & Hr). apply bind_Ok_inv in Ht as (o & Ha & Ht).
    rewrite (apply_mono _ _ _ _ Ha). cbn [mbind outcome_bind]. by rewrite Ht.
  - destruct o as [t|]; [|done].
    apply bind_Ok_inv in Hr as (o & Ha & Hr). by rewrite (apply_mono _ _ _ _ Ha).
Qed.

Lemma apply_edits_mono fuel edits : forall root root',
  apply_edits acc fuel edits root = Ok root' -> apply_edits acc' fuel edits root = Ok root'.
Proof.
  induction edits as [|edit edits IH]; intros root root' Hr; [done|]; simpl in *.
  apply bind_Ok_inv in Hr as (r & Hr1 & Hr2). rewrite (apply_edit_mono _ _ _ _ Hr1). simpl. auto.
Qed.
End monotone.

(** ** Trees built in memory *)
Section in_memory.
Context {K V : Type} `{Key K} `{NodeCodec K V} {D : Distribution}.
Implicit Types (p : ptree K V) (es : list (Entry K V)).

(** An accessor without storage: what runs with it loads nothing. *)
Definition no_storage : Accessor := fun _ => Err (OperationError "no storage").

Fixpoint embed p : TransientNode K V :=
  match p with
  | PSegment es => TransientSegment es
  | PIndex ps => TransientIndex ((fun p => Transient (embed p)) <$> ps)
  end.

(** Without storage a tree is held by its transient copy only. *)
Lemma repr_no_storage p n : repr no_storage p n -> n = Transient (embed p).
Proof.
  revert n; induction p as [es|ps IH] using ptree_nested_ind; intros n Hr;
    apply repr_unfold in Hr as (_ & t & Ht & Hr); (destruct n as [l|t']; [done|]);
    injection Ht as ->.
  - by simpl in Hr; subst t.
  - destruct Hr as (cs & -> & Hcs). simpl. do 2 f_equal.
    revert cs Hcs; induction IH as [|p ps Hp _ IHps]; intros cs Hcs.
    + by apply Forall2_nil_inv_l in Hcs.
    + apply Forall2_cons_inv_l in Hcs as (c & cs' & Hc & Hcs' & ->). csimpl.
      f_equal; auto.
Qed.

Lemma repr_transient_no_storage p t : repr_transient no_storage p t -> t = embed p.
Proof.
  intros Hr. assert (Transient t = Transient (embed p)) as [= ->]; [|done].
  apply repr_no_storage. by apply repr_Transient.
Qed.

(** The in-memory root over given entries, as a function. *)
Definition memory_root es : TransientRoot K V :=
  match canon es with
  | None => Unloaded NULL_BLAKE3_HASH
  | Some p => Loaded (embed p)
  end.

Lemma canonical_memory es root : canonical no_storage es root -> root = memory_root es.
Proof.
  intros (_ & o & Ho & Hc). unfold memory_root. destruct root as [h|t]; simpl in Ho.
  - case_decide as Hh; [|done]. injection Ho as <-. subst. done.
  - injection Ho as <-. destruct Hc as (h & Hc & _ & _ & p & Hp & Hr).
    rewrite (canon_of_height h es p) by done. by rewrite (repr_transient_no_storage p t).
Qed.
End in_memory.

(** Every sorted sequence has its tree, whatever the storage. *)
Section existence.
Context {K V : Type} `{Key K} `{NodeCodec K V} {D : Distribution}.

Lemma embed_repr accessor (p : ptree K V) : repr_transient accessor p (embed p).
Proof.
  induction p as [es|ps IH] using ptree_nested_ind; simpl; [done|].
  eexists. split; [done|]. induction IH as [|p ps Hp _ IH]; csimpl; constructor; [|done].
  by apply repr_Transient.
Qed.

Lemma memory_root_canonical accessor (es : list (Entry K V)) :
  sorted es -> canonical accessor es (memory_root es).
Proof.
  intros Hs. split; [done|]. unfold memory_root.
  destruct (decide (length es = 0)%nat) as [Hn|Hn].
  - apply length_zero_iff_nil in Hn as ->. exists None. split; [apply load_null|done].
  - destruct (canon_spec es) as (h & p & -> & Hc & Hp); [by intros ->|].
    eexists. split; [done|]. exists h. split; [done|]. pose proof Hc as (Hh & _ & _).
    split_and!; [done|done|]. exists p. split; [done|apply embed_repr].
Qed.
End existence.

(** ** What the operations of a batch promise *)
Section promises.
Context {K V : Type} `{Key K} `{NodeCodec K V} {D : Distribution}.
Context (R : nat) (rank_le : forall b, (rank b <= R)%nat).
Context (accessor : Accessor) (fuel : nat) (enough : (S R < fuel)%nat).
Implicit Types (es : list (Entry K V)) (root : TransientRoot K V).

Lemma insert_represents es root k v :
  represents R accessor es root ->
  exists root', insert accessor fuel k v root = Ok root' /\
    represents R accessor (upsert (mkEntry k v) es) root'.
Proof.
  intros Hr. destruct (apply_edit_correct R rank_le accessor fuel es (Upsert (mkEntry k v)) root)
    as (root' & Ha & Hr' & _); eauto.
Qed.

Lemma delete_represents es root k :
  represents R accessor es root ->
  exists root', delete_key accessor fuel k root = Ok root' /\
    represents R accessor (remove k es) root'.
Proof.
  intros Hr. destruct (apply_edit_correct R rank_le accessor fuel es (Delete k) root)
    as (root' & Ha & Hr' & _); eauto.
Qed.

(** C2: Inserting a key into any tree, loaded or still in storage, returns (it
    neither fails, panics nor runs out of fuel), and the tree it returns holds
    the value under that key and what the tree held under every other key. *)
Theorem insert_correct es root k v :
  represents R accessor es root ->
  exists root' es', insert accessor fuel k v root = Ok root' /\ represents R accessor es' root' /\
    lookup_entry k es' = Some v /\ forall k', k' <> k -> lookup_entry k' es' = lookup_entry k' es.
Proof.
  intros Hr. destruct (insert_represents es root k v Hr) as (root' & Hi & Hr').
  exists root', (upsert (mkEntry k v) es). pose proof (proj1 Hr) as Hs. split_and!; [done|done| |].
  - rewrite lookup_upsert by done. by rewrite decide_True.
  - intros k' Hk. rewrite lookup_upsert by done. by rewrite decide_False.
Qed.

(** C3: Deleting a key from any tree returns, and the tree it returns holds
    nothing under that key and what the tree held under every other key; when
    nothing is left it is the empty tree. *)
Theorem delete_correct es root k :
  represents R accessor es root ->
  exists root' es', delete_key accessor fuel k root = Ok root' /\ represents R accessor es' root' /\
    lookup_entry k es' = None /\ (forall k', k' <> k -> lookup_entry k' es' = lookup_entry k' es) /\
    (es' = [] -> root' = edit_tree empty_tree).
Proof.
  intros Hr. destruct (delete_represents es root k Hr) as (root' & Hi & Hr').
  exists root', (remove k es). pose proof (proj1 Hr) as Hs. split_and!; [done|done| | |].
  - rewrite lookup_remove by done. by rewrite decide_True.
  - intros k' Hk. rewrite lookup_remove by done. by rewrite decide_False.
  - intros E. rewrite E in Hr'. destruct Hr' as (_ & o & Ho & Ht).
    destruct o as [t|].
    + destruct Ht as (h & _ & _ & _ & p & Hp & _).
      by rewrite (proj2 (forest_nil_iff h [])) in Hp.
    + unfold delete_key in Hi. outcome_inv. destruct a; outcome_inv; [|done].
      destruct a; [done|]. by subst.
Qed.

(** C19: An insert into a tree of canonical shape leaves the canonical shape:
    the fast path, the split of a leaf and the growth of the root included. *)
Theorem insert_keeps_canonical es root k v :
  canonical accessor es root ->
  exists root', insert accessor fuel k v root = Ok root' /\
    canonical accessor (upsert (mkEntry k v) es) root'.
Proof.
  intros Hc. pose proof (canonical_represents R rank_le _ _ _ Hc) as Hr.
  destruct (apply_edit_correct R rank_le accessor fuel es (Upsert (mkEntry k v)) root)
    as (root' & Ha & _ & Hc'); [done|done|]. exists root'. split; [done|].
  destruct (Hc' Hc) as [?|[_ (es0 & e & ? & _)]]; done.
Qed.

(** C20: A delete from a tree of canonical shape leaves the canonical shape,
    the fusion with the right neighbor across subtrees included, unless it
    deletes the last entry of the tree from a leaf that holds nothing else. *)
Theorem delete_keeps_canonical es root k :
  canonical accessor es root -> ~ lone_tail (Delete k) es ->
  exists root', delete_key accessor fuel k root = Ok root' /\
    canonical accessor (remove k es) root'.
Proof.
  intros Hc Hlone. pose proof (canonical_represents R rank_le _ _ _ Hc) as Hr.
  destruct (apply_edit_correct R rank_le accessor fuel es (Delete k) root)
    as (root' & Ha & _ & Hc'); [done|done|]. exists root'. split; [done|].
  destruct (Hc' Hc) as [?|[_ ?]]; done.
Qed.

Lemma apply_edits_correct edits es root :
  represents R accessor es root ->
  exists root', apply_edits accessor fuel edits root = Ok root' /\
    represents R accessor (edit_entries edits es) root'.
Proof.
  revert es root; induction edits as [|edit edits IH]; intros es root Hr; simpl; [eauto|].
  destruct (apply_edit_correct R rank_le accessor fuel es edit root) as (r1 & -> & Hr1 & _);
    [done|done|]. simpl. by apply IH.
Qed.
End promises.

Section memory_batches.
Context {K V : Type} `{Key K} `{NodeCodec K V} {D : Distribution}.
Context (R : nat) (rank_le : forall b, (rank b <= R)%nat).
Context (fuel : nat) (enough : (S R < fuel)%nat).

Lemma memory_canonical (edits : list (Edit K V)) es root :
  canonical no_storage es root ->
  exists root', apply_edits no_storage fuel edits root = Ok root' /\
    canonical no_storage (edit_entries edits es) root'.
Proof.
  revert es root; induction edits as [|edit edits IH]; intros es root Hc; simpl; [eauto|].
  destruct (apply_edit_correct R rank_le no_storage fuel es edit root) as (r1 & -> & Hr1 & Hc1);
    [done|by apply canonical_represents|]. simpl. apply IH.
  destruct (Hc1 Hc) as [?|[[l ->] _]]; [done|exfalso].
  destruct Hr1 as (_ & o & [= <-] & h & _ & _ & _ & p & _ & Hr).
  apply repr_transient_no_storage in Hr. destruct p as [|[|? [|]]]; csimpl in Hr; done.
Qed.

(** A batch of edits that starts from the empty tree never touches the
    storage, whatever the edits are, and the tree it builds is a function of
    the entries it leaves. *)
Theorem memory_batch_canonical (accessor : Accessor) (edits : list (Edit K V)) :
  apply_edits accessor fuel edits (edit_tree empty_tree) = Ok (memory_root (edit_entries edits [])).
Proof.
  assert (canonical no_storage ([] : list (Entry K V)) (edit_tree empty_tree)) as Hc.
  { split; [constructor|]. exists None. by rewrite load_null. }
  destruct (memory_canonical edits _ _ Hc) as (root' & Ha & Hc').
  apply (apply_edits_mono no_storage); [done|]. by rewrite Ha, (canonical_memory _ _ Hc').
Qed.

Lemma edit_entries_sorted (edits : list (Edit K V)) es : sorted es -> sorted (edit_entries edits es).
Proof.
  revert es; induction edits as [|edit edits IH]; intros es Hs; [done|].
  apply IH. by apply apply_entries_sorted.
Qed.

(** C1: History independence: two batches of inserts and deletes, in any order
    and with any repetitions, that leave the same value (or none) under every
    key build the same tree, node for node. *)
Theorem memory_batch_history_independent (acc1 acc2 : Accessor) (edits1 edits2 : list (Edit K V)) :
  (forall k, lookup_entry k (edit_entries edits1 []) = lookup_entry k (edit_entries edits2 [])) ->
  apply_edits acc1 fuel edits1 (edit_tree empty_tree)
  = apply_edits acc2 fuel edits2 (edit_tree empty_tree).
Proof.
  intros Hk.
  assert (edit_entries edits1 [] = edit_entries edits2 []) as E.
  { apply sorted_ext; [apply edit_entries_sorted; constructor..|done]. }
  assert (canonical no_storage ([] : list (Entry K V)) (edit_tree empty_tree)) as Hc.
  { split; [constructor|]. exists None. by rewrite load_null. }
  destruct (memory_canonical edits1 _ _ Hc) as (r1 & Ha1 & Hc1).
  destruct (memory_canonical edits2 _ _ Hc) as (r2 & Ha2 & Hc2).
  rewrite (apply_edits_mono no_storage acc1 ltac:(done) _ _ _ _ Ha1).
  rewrite (apply_edits_mono no_storage acc2 ltac:(done) _ _ _ _ Ha2).
  by rewrite (canonical_memory _ _ Hc1), (canonical_memory _ _ Hc2), E.
Qed.
End memory_batches.

(** ** On concrete trees *)
Section demo.
#[local] Existing Instances byte_key byte_codec toy_blake3 toy_distribution.

Definition demo : list (Entry byte byte) := demo_entries [x01; x02; x04; x05; x08; x09; x10; x11].

Lemma demo_sorted : sorted demo.
Proof. apply sortedb_sorted. reflexivity. Qed.
Lemma demo_canonical : canonical no_storage demo (memory_root demo).
Proof. apply memory_root_canonical, demo_sorted. Qed.
Lemma demo_represents : represents 4 no_storage demo (memory_root demo).
Proof. apply canonical_represents, demo_canonical. apply toy_rank_le. Qed.

Lemma insert_correct_witness :
  exists root' es', insert no_storage 6 x06 x06 (memory_root demo) = Ok root' /\
    represents 4 no_storage es' root' /\
    lookup_entry x06 es' = Some x06 /\
    forall k', k' <> x06 -> lookup_entry k' es' = lookup_entry k' demo.
Proof. apply (insert_correct 4 toy_rank_le); [lia|apply demo_represents]. Defined.

Lemma delete_correct_witness :
  exists root' es', delete_key no_storage 6 x08 (memory_root demo) = Ok root' /\
    represents 4 no_storage es' root' /\
    lookup_entry x08 es' = None /\
    (forall k', k' <> x08 -> lookup_entry k' es' = lookup_entry k' demo) /\
    (es' = [] -> root' = edit_tree empty_tree).
Proof. apply (delete_correct 4 toy_rank_le); [lia|apply demo_represents]. Defined.

Lemma insert_keeps_canonical_witness :
  exists root', insert no_storage 6 x0c x06 (memory_root demo) = Ok root' /\
    canonical no_storage (upsert (mkEntry x0c x06) demo) root'.
Proof. apply (insert_keeps_canonical 4 toy_rank_le); [lia|apply demo_canonical]. Defined.

Lemma delete_keeps_canonical_witness :
  exists root', delete_key no_storage 6 x08 (memory_root demo) = Ok root' /\
    canonical no_storage (remove x08 demo) root'.
Proof.
  apply (delete_keeps_canonical 4 toy_rank_le); [lia|apply demo_canonical|].
  intros (es0 & e & [= Hk] & E & _). apply (f_equal last_key) in E.
  rewrite last_key_snoc in E. change (last_key demo) with (Some x11) in E. congruence.
Defined.

Lemma memory_batch_canonical_witness :
  apply_edits no_storage 6 (Upsert <$> demo) (edit_tree empty_tree)
  = Ok (memory_root (edit_entries (Upsert <$> demo) [])).
Proof. apply (memory_batch_canonical 4 toy_rank_le). lia. Defined.

(** Inserting the keys in another order, with a detour over a key that is
    deleted again. *)
Lemma memory_batch_history_independent_witness :
  apply_edits no_storage 6 (Upsert <$> demo) (edit_tree empty_tree)
  = apply_edits no_storage 6 ((Upsert <$> reverse demo) ++ [Upsert (mkEntry x0c x00); Delete x0c])
      (edit_tree empty_tree).
Proof.
  apply (memory_batch_history_independent 4 toy_rank_le); [lia|]. intros k.
  assert (edit_entries (Upsert <$> demo) []
          = edit_entries ((Upsert <$> reverse demo) ++ [Upsert (mkEntry x0c x00); Delete x0c]) [])
    as ->; [|done].
  vm_compute. reflexivity.
Defined.
End demo.
