(* ===== verification/Persist.v ===== *)
(** Serializing an edited tree ([TransientTree::persist]): the root hash is a
    function of the contents, and the nodes written to the delta are the tree. *)
From S2P Require Import Prelude Common Nodes SortedEntries Forest Walker TransientTree Instances Repr Spine Fuse Edits Batch.

Section serialized.
Context {K V : Type} `{Key K} `{NodeCodec K V} `{Blake3} {D : Distribution}.
Implicit Types (es : list (Entry K V)) (p : ptree K V) (t : TransientNode K V) (n : Node K V).

(** The serialized form of a tree of references, and the reference to it. *)
Definition encode (b : PersistentNodeBody K V) : bytes := default [] (to_bytes b).
Definition top p : K := default key_min (last_key (flatten p)).

Fixpoint ser p : bytes :=
  match p with
  | PSegment es => encode (Segment es)
  | PIndex ps => encode (Index ((fun p => mkLink (top p) (blake3 (ser p))) <$> ps))
  end.
Definition link_of p : Link K := mkLink (top p) (blake3 (ser p)).
Definition body_of p : PersistentNodeBody K V :=
  match p with PSegment es => Segment es | PIndex ps => Index (link_of <$> ps) end.

Lemma ser_body p : ser p = encode (body_of p).
Proof. by destruct p. Qed.

(** The serialized forms of all subtrees. *)
Fixpoint sealed p : list bytes :=
  ser p :: match p with
           | PSegment _ => []
           | PIndex ps => concat (sealed <$> ps)
           end.

Lemma sealed_self p : ser p ∈ sealed p.
Proof. destruct p; simpl; set_solver. Qed.

Lemma sealed_child ps p b : p ∈ ps -> b ∈ sealed p -> b ∈ sealed (PIndex ps).
Proof.
  intros Hp Hb. simpl. apply elem_of_cons. right. apply elem_of_concat.
  exists (sealed p). split; [|done]. apply list_elem_of_fmap. eauto.
Qed.

(** What is in storage was serialized from a body, under its own hash. *)
Definition well_stored (acc : Accessor) : Prop :=
  forall h node, acc h = Ok node ->
    hash node = h /\ exists body : PersistentNodeBody K V, to_bytes body = Some (buffer node).

(** Serialization does not fail. *)
Definition codec_total : Prop := forall b : PersistentNodeBody K V, exists bs, to_bytes b = Some bs.

Lemma body_encoded b bs : to_bytes b = Some bs -> body (mkPersistentNode bs) = Ok b.
Proof. intros E. unfold body. simpl. by rewrite (access_to_bytes _ _ E). Qed.

Lemma open_encoded b bs :
  to_bytes b = Some bs ->
  transient_try_from (mkPersistentNode bs)
  = Ok match b with
       | Index links => TransientIndex (Persistent <$> links)
       | Segment entries => TransientSegment entries
       end.
Proof.
  intros E. unfold transient_try_from, open_index, as_index. rewrite (body_encoded _ _ E).
  by destruct b.
Qed.

Lemma top_spec h p : uniform h p -> last_key (flatten p) = Some (top p).
Proof.
  intros Hu. destruct (last_key_nonempty (flatten p)) as [k Hk]; [by eapply uniform_nonempty|].
  unfold top. by rewrite Hk.
Qed.

(** A stored node that holds the tree [p] is the serialized form of [p]. *)
Lemma stored_ser acc h p node t :
  well_stored acc -> uniform h p ->
  (exists b : PersistentNodeBody K V, to_bytes b = Some (buffer node)) ->
  transient_try_from node = Ok t -> repr_transient acc p t -> buffer node = ser p.
Proof.
  intros Hws. revert p node t; induction h as [|h IH]; intros p [bs] t Hu (b & Hb) Ht Hr;
    simpl in Hb; rewrite (open_encoded _ _ Hb) in Ht; injection Ht as <-; simpl.
  - destruct p as [es|]; [|done]. simpl in Hr. destruct b; [done|]. injection Hr as ->.
    simpl. unfold encode. by rewrite Hb.
  - destruct p as [|ps]; [done|]. destruct Hr as (cs & Hcs & Hr). destruct b as [links|]; [|done].
    injection Hcs as <-. rewrite ser_body. simpl.
    assert (links = link_of <$> ps) as ->; [|unfold encode; by rewrite Hb].
    destruct Hu as [_ Hu]. clear Hb bs. revert links Hr.
    induction ps as [|p ps IHps]; intros [|l links] Hr; csimpl in Hr; try done;
      [by apply Forall2_nil_inv_l in Hr|by apply Forall2_nil_inv_r in Hr|].
    apply Forall2_cons in Hr as [Hp Hr]. apply Forall_cons in Hu as [Hup Hu]. csimpl.
    f_equal; [|by apply IHps].
    apply repr_unfold in Hp as (Hbound & t & Hl & Hp). simpl in Hbound, Hl. outcome_inv.
    destruct (Hws _ _ Ha) as [Hh Hbody].
    rewrite (top_spec h p) in Hbound by done. injection Hbound as Htop.
    destruct l as [k hs]; simpl in *. unfold link_of. f_equal; [done|].
    by rewrite <- (IH p a t Hup Hbody Hl Hp), <- Hh.
Qed.

Lemma stored_link acc h p l :
  well_stored acc -> uniform h p -> repr acc p (Persistent l) -> l = link_of p.
Proof.
  intros Hws Hu (Hbound & t & Hl & Hp)%repr_unfold. simpl in Hbound, Hl. outcome_inv.
  destruct (Hws _ _ Ha) as [Hh Hbody].
  rewrite (top_spec h p) in Hbound by done. injection Hbound as Htop.
  destruct l as [k hs]; simpl in *. unfold link_of. f_equal; [done|].
  by rewrite <- (stored_ser acc h p a t Hws Hu Hbody Hl Hp), <- Hh.
Qed.

Lemma repr_extends acc acc' p n : extends acc acc' -> repr acc p n -> repr acc' p n.
Proof.
  intros Hext. revert n; induction p as [es|ps IH] using ptree_nested_ind; intros n;
    rewrite !repr_unfold; intros (Hb & t & Ht & Hr); (split; [done|]); exists t;
    (split; [destruct n; simpl in *; [outcome_inv; rewrite (Hext _ _ Ha); simpl|]; done|]).
  - done.
  - destruct Hr as (cs & -> & Hcs). exists cs. split; [done|].
    clear Ht Hb. induction Hcs as [|p c ps cs Hp _ IHps]; constructor;
      apply Forall_cons in IH as [IHp IH']; auto.
Qed.
End serialized.

Section persisting.
Context {K V : Type} `{Key K} `{NodeCodec K V} `{Blake3} {D : Distribution}.
Context (Htotal : codec_total (K := K) (V := V)).
Context (acc : Accessor) (Hws : well_stored (K := K) (V := V) acc).
Implicit Types (es : list (Entry K V)) (p : ptree K V) (t : TransientNode K V) (n : Node K V).

Lemma ser_encoded p : to_bytes (body_of p) = Some (ser p).
Proof. rewrite ser_body. unfold encode. by destruct (Htotal (body_of p)) as [bs ->]. Qed.

(** The links of an index, collected left to right. *)
Fixpoint collect_links (cs : list (Node K V)) : stateful Delta.t DialogSearchTreeError (list (Link K)) :=
  match cs with
  | [] => mret []
  | c :: cs => l ← into_link c; ls ← collect_links cs; mret (l :: ls)
  end.

Lemma persist_index cs :
  persist (TransientIndex cs) = (links ← collect_links cs; seal_node (body_from_links links)).
Proof. reflexivity. Qed.

Lemma body_upper_bound_of h p : uniform h p -> body_upper_bound (body_of p) = Ok (top p).
Proof.
  intros Hu. pose proof (top_spec h p Hu) as Ht. unfold body_upper_bound.
  destruct h as [|h], p as [es|ps]; simpl in Hu; try done.
  - simpl in *. unfold last_key in Ht. by rewrite Ht.
  - destruct Hu as [Hn Hu]. destruct ps as [|p ps _] using rev_ind; [done|].
    apply Forall_app in Hu as [_ [Hup _]%Forall_cons].
    rewrite flatten_index in Ht. unfold last_key in Ht.
    rewrite last_flattens in Ht by by eapply uniform_nonempty.
    cbn [body_of]. rewrite fmap_app. csimpl. rewrite last_snoc. cbn. f_equal.
    fold (last_key (flatten p)) in Ht. rewrite (top_spec h p Hup) in Ht. congruence.
Qed.

Lemma to_link_ser h p : uniform h p -> to_link (mkPersistentNode (ser p)) = Ok (link_of p).
Proof.
  intros Hu. unfold to_link. rewrite (body_encoded _ _ (ser_encoded p)). simpl.
  by rewrite (body_upper_bound_of h p Hu).
Qed.

Lemma seal_node_spec p d :
  seal_node (Ok (body_of p)) d
  = (Delta.add d (blake3 (ser p)) (ser p), Ok (mkPersistentNode (ser p))).
Proof.
  unfold seal_node, mbind, stateful_bind, lift_outcome, modify, body_as_bytes. simpl.
  by rewrite ser_encoded.
Qed.

Lemma into_link_transient t :
  into_link (Transient t) = (node ← persist t; lift_outcome (to_link node)).
Proof. reflexivity. Qed.

(** [P] is a set of buffers that contains what is written; that it has no hash
    collisions is needed for reading back only. *)
Section delta.
Context (P : bytes -> Prop).

Definition delta_ok (d : Delta.t) : Prop :=
  forall h b, d !! h = Some b ->
    h = blake3 b /\ P b /\ exists body : PersistentNodeBody K V, to_bytes body = Some b.

(** [acc'] reads what [acc] and the delta hold. *)
Definition reads (acc' : Accessor) (d : Delta.t) : Prop :=
  extends acc acc' /\ forall h b, d !! h = Some b -> acc' h = Ok (mkPersistentNode b).

Lemma reads_mono acc' (d d' : Delta.t) : d ⊆ d' -> reads acc' d' -> reads acc' d.
Proof.
  intros Hd [He Hr]. split; [done|]. intros h b Hb. apply Hr. by eapply lookup_weaken.
Qed.

Lemma delta_add d b :
  collision_free P -> delta_ok d -> P b ->
  (exists body : PersistentNodeBody K V, to_bytes body = Some b) ->
  delta_ok (Delta.add d (blake3 b) b) /\ d ⊆ Delta.add d (blake3 b) b.
Proof.
  intros Hcf Hd Hb Hbody. unfold Delta.add. split.
  - intros h b'. rewrite lookup_insert_Some. intros [[<- <-]|[_ Hl]]; eauto.
  - apply map_subseteq_spec. intros h b' Hl. destruct (Hd _ _ Hl) as (-> & Hb' & _).
    destruct (decide (blake3 b = blake3 b')) as [E|E].
    + assert (b' = b) as -> by (symmetry; by apply (proj1 Hcf)). by rewrite lookup_insert_eq.
    + by rewrite lookup_insert_ne.
Qed.

(** What persisting does to the delta: it grows, and [Q] holds for whoever
    reads it. *)
Definition grows (d d' : Delta.t) (Q : Accessor -> Prop) : Prop :=
  collision_free P -> delta_ok d ->
  delta_ok d' /\ d ⊆ d' /\ forall acc', reads acc' d' -> Q acc'.

(** Persisting a node returns the reference to its tree, and the tree can be
    read back through it. *)
Definition persisted p (m : stateful Delta.t DialogSearchTreeError (Link K)) : Prop :=
  forall d, exists d', m d = (d', Ok (link_of p)) /\
    grows d d' (fun acc' => repr acc' p (Persistent (link_of p))).

Lemma collect_links_spec h ps cs :
  Forall (uniform h) ps -> Forall2 (fun p c => persisted p (into_link c)) ps cs ->
  forall d, exists d', collect_links cs d = (d', Ok (link_of <$> ps)) /\
    grows d d' (fun acc' => Forall2 (repr acc') ps (Persistent <$> (link_of <$> ps))).
Proof.
  intros Hu Hall. induction Hall as [|p c ps cs Hp Hall IH]; intros d.
  - exists d. split; [done|]. intros _ Hd. split_and!; [done|done|]. intros. constructor.
  - apply Forall_cons in Hu as [Hup Hu]. destruct (Hp d) as (d1 & E1 & Hg1).
    destruct (IH Hu d1) as (d2 & E2 & Hg2). exists d2. split.
    + cbn [collect_links]. rewrite (stateful_bind_Ok _ _ _ _ _ E1).
      by rewrite (stateful_bind_Ok _ _ _ _ _ E2).
    + intros Hcf Hd. destruct (Hg1 Hcf Hd) as (Hd1 & Hs1 & Hr1).
      destruct (Hg2 Hcf Hd1) as (Hd2 & Hs2 & Hr2). split_and!; [done|by etrans|].
      intros acc' Hrd. csimpl. constructor; [|by apply Hr2].
      apply Hr1. by eapply reads_mono.
Qed.

Lemma read_sealed h p d acc' :
  uniform h p -> reads acc' (Delta.add d (blake3 (ser p)) (ser p)) ->
  (forall ps, p = PIndex ps -> Forall2 (repr acc') ps (Persistent <$> (link_of <$> ps))) ->
  repr acc' p (Persistent (link_of p)).
Proof.
  intros Hu [_ Hr] Hps. apply repr_unfold. split; [by apply (top_spec h)|].
  simpl. rewrite (Hr _ (ser p)) by by apply lookup_insert_eq. simpl.
  rewrite (open_encoded _ _ (ser_encoded p)). eexists. split; [done|].
  destruct p as [es|ps]; simpl; [done|]. eauto.
Qed.

(** A node whose children are collected is sealed and linked. *)
Lemma seal_grows h p d d1 (m : stateful Delta.t DialogSearchTreeError PersistentNode) :
  uniform h p -> P (ser p) ->
  m d = seal_node (Ok (body_of p)) d1 ->
  grows d d1 (fun acc' => forall ps, p = PIndex ps ->
                Forall2 (repr acc') ps (Persistent <$> (link_of <$> ps))) ->
  exists d', (node ← m; lift_outcome (to_link node)) d = (d', Ok (link_of p)) /\
    grows d d' (fun acc' => repr acc' p (Persistent (link_of p))).
Proof.
  intros Hu HP Hm Hg. rewrite seal_node_spec in Hm. eexists. split.
  - rewrite (stateful_bind_Ok _ _ _ _ _ Hm). unfold lift_outcome. by rewrite (to_link_ser h).
  - intros Hcf Hd. destruct (Hg Hcf Hd) as (Hd1 & Hs1 & Hr1).
    destruct (delta_add d1 (ser p) Hcf Hd1 HP) as [Hd' Hs']; [eexists; apply ser_encoded|].
    split_and!; [done|by etrans|]. intros acc' Hrd.
    apply (read_sealed h p d1); [done|done|]. apply Hr1. by eapply reads_mono.
Qed.

Lemma into_link_spec h p n :
  uniform h p -> repr acc p n -> (forall b, b ∈ sealed p -> P b) -> persisted p (into_link n).
Proof.
  revert p n; induction h as [|h IH]; intros p n Hu Hr HP d;
    (destruct n as [l|t];
     [pose proof (stored_link acc _ p l Hws Hu Hr) as ->; exists d; split; [done|];
        intros _ Hd; split_and!;
        [done|done|]; intros acc' [He _]; exact (repr_extends _ _ _ _ He Hr)|]);
    apply repr_Transient in Hr; pose proof (HP _ (sealed_self p)) as HPp;
    rewrite into_link_transient.
  - destruct p as [es|]; [|done]. simpl in Hr; subst t.
    apply (seal_grows 0 _ d d); [done|done|by destruct es|]. intros _ Hd. done.
  - destruct p as [|ps]; [done|]. pose proof Hu as [Hn Hus]. destruct Hr as (cs & -> & Hcs).
    assert (Forall (fun p => forall b, b ∈ sealed p -> P b) ps) as HPs.
    { apply Forall_forall. intros p Hp b Hb. apply HP. by eapply sealed_child. }
    assert (Forall2 (fun p c => persisted p (into_link c)) ps cs) as Hall.
    { clear Hn HPp HP Hu d. induction Hcs as [|p c ps cs Hp _ IHps]; constructor;
        apply Forall_cons in Hus as [Hup Hus], HPs as [HPp HPs]; auto. }
    destruct (collect_links_spec h ps cs Hus Hall d) as (d1 & E1 & Hg1).
    apply (seal_grows (S h) _ d d1); [done|done| |].
    + rewrite persist_index, (stateful_bind_Ok _ _ _ _ _ E1).
      assert (body_from_links (link_of <$> ps) = Ok (body_of (PIndex ps))) as ->; [|done].
      destruct ps; [done|reflexivity].
    + intros Hcf Hd. destruct (Hg1 Hcf Hd) as (Hd1 & Hs1 & Hr1). split_and!; [done|done|].
      intros acc' Hrd ps' [= <-]. auto.
Qed.
End delta.
End persisting.

(** ** Persisted trees *)
Section roots.
Context {K V : Type} `{Key K} `{NodeCodec K V} `{Blake3} {D : Distribution}.
Context (Htotal : codec_total (K := K) (V := V)).
Implicit Types (es : list (Entry K V)) (p : ptree K V) (root : TransientRoot K V).

(** The root hash of the canonical tree over [es]. *)
Definition root_hash es : Blake3Hash :=
  match canon es with None => NULL_BLAKE3_HASH | Some p => blake3 (ser p) end.

(** Storage with a delta flushed into it. *)
Definition overlay (d : Delta.t) (acc : Accessor) : Accessor := fun h =>
  match d !! h with Some b => Ok (mkPersistentNode b) | None => acc h end.

Lemma persist_tree_of_link (t : TransientNode K V) d d' l :
  into_link (Transient t) d = (d', Ok l) ->
  persist_tree (Loaded t) d = (d', Ok (link_node l)).
Proof.
  rewrite into_link_transient. unfold persist_tree, mbind, stateful_bind, lift_outcome.
  destruct (persist t d) as [d1 [node| | |]]; try done. intros [= <- Hl].
  unfold to_link in Hl. outcome_inv. done.
Qed.

(** Persisting a loaded tree. *)
Lemma persist_loaded acc P h es t p d :
  well_stored (K := K) (V := V) acc -> forest h es = [p] -> repr_transient acc p t ->
  (forall b, b ∈ sealed p -> P b) ->
  exists d', persist_tree (Loaded t) d = (d', Ok (blake3 (ser p))) /\
    grows (K := K) (V := V) acc P d d' (fun acc' => repr acc' p (Persistent (link_of p))).
Proof.
  intros Hws Hp Hr HP.
  destruct (into_link_spec Htotal acc Hws P h p (Transient t)) with (d := d) as (d' & E & Hg).
  - by eapply forest_uniform_one.
  - by apply repr_Transient.
  - done.
  - exists d'. split; [|done]. by apply persist_tree_of_link in E.
Qed.

(** The hash a stored tree is loaded by. *)
Lemma stored_root acc h es (hash : Blake3Hash) t p :
  well_stored (K := K) (V := V) acc ->
  load acc (Unloaded hash) = Ok (Some t) -> forest h es = [p] -> repr_transient acc p t ->
  hash = blake3 (ser p).
Proof.
  intros Hws Hl Hp Hr. unfold load in Hl. case_decide; [done|]. outcome_inv. subst.
  destruct (Hws _ _ Ha) as [<- Hb]. unfold Nodes.hash. f_equal.
  eapply stored_ser; [done| |done|done|done]. by eapply forest_uniform_one.
Qed.

(** C23: The root hash a canonical tree persists to is a function of its entries
    alone: not of the edits that led to them, of what was loaded or kept in
    storage, of the delta, or of the storage. *)
Theorem persist_root_hash acc es root d :
  well_stored (K := K) (V := V) acc -> canonical acc es root ->
  exists d', persist_tree root d = (d', Ok (root_hash es)).
Proof.
  intros Hws (Hs & o & Ho & Hc). unfold root_hash. destruct o as [t|].
  - destruct Hc as (h & Hc & _ & _ & p & Hp & Hr). rewrite (canon_of_height h es p) by done.
    destruct root as [hash|t'].
    + exists d. simpl. by rewrite (stored_root acc h es hash t p).
    + injection Ho as ->.
      destruct (persist_loaded acc (fun _ => True) h es t p d) as (d' & E & _); eauto.
  - subst es. destruct root as [hash|t]; [|done]. simpl in Ho.
    case_decide as Hn; [|outcome_inv; done]. subst. by exists d.
Qed.

Lemma overlay_reads acc P d :
  well_stored (K := K) (V := V) acc -> collision_free P ->
  (forall h node, acc h = Ok node -> P (buffer node)) ->
  delta_ok (K := K) (V := V) P d -> reads acc (overlay d acc) d.
Proof.
  intros Hws [Hinj _] HP Hd. split.
  - intros h node Hn. unfold overlay. destruct (d !! h) as [b|] eqn:Eb; [|done].
    destruct (Hd _ _ Eb) as (Hh & Hb & _), (Hws _ _ Hn) as [Hh' _].
    assert (b = buffer node) as ->; [|by destruct node].
    apply Hinj; [done|by eapply HP|]. unfold hash in Hh'. congruence.
  - intros h b Hb. unfold overlay. by rewrite Hb.
Qed.

Lemma overlay_well_stored acc P d :
  well_stored (K := K) (V := V) acc -> delta_ok (K := K) (V := V) P d ->
  well_stored (K := K) (V := V) (overlay d acc).
Proof.
  intros Hws Hd h node. unfold overlay. destruct (d !! h) as [b|] eqn:Eb; [|apply Hws].
  intros [= <-]. destruct (Hd _ _ Eb) as (-> & _ & Hbody). done.
Qed.

Lemma tree_at_extends acc acc' h es t :
  extends acc acc' -> tree_at acc h es t -> tree_at acc' h es t.
Proof.
  intros Hext (Hh & Hs & p & Hp & Hr). split_and!; [done|done|]. exists p. split; [done|].
  apply repr_Transient, (repr_extends acc); [done|]. by apply repr_Transient.
Qed.

Lemma represents_extends R acc acc' es root :
  extends acc acc' -> represents R acc es root -> represents R acc' es root.
Proof.
  intros Hext (Hs & o & Ho & Hr). split; [done|]. exists o. split; [by apply (load_mono acc)|].
  destruct o as [t|]; [|done]. destruct Hr as (h & Hle & Ht). eauto using tree_at_extends.
Qed.

Lemma canonical_extends acc acc' es root :
  extends acc acc' -> canonical acc es root -> canonical acc' es root.
Proof.
  intros Hext (Hs & o & Ho & Hr). split; [done|]. exists o. split; [by apply (load_mono acc)|].
  destruct o as [t|]; [|done]. destruct Hr as (h & Hle & Ht). eauto using tree_at_extends.
Qed.

(** A reference that holds a tree is a root that loads to it. *)
Lemma load_link acc p h :
  blake3 (ser p) <> NULL_BLAKE3_HASH -> uniform h p -> repr acc p (Persistent (link_of p)) ->
  exists t, load acc (Unloaded (blake3 (ser p))) = Ok (Some t) /\ repr_transient acc p t.
Proof.
  intros Hn Hu (_ & t & Ht & Hr)%repr_unfold. exists t. split; [|done].
  unfold load. rewrite decide_False by done. simpl in Ht. outcome_inv. rewrite Ha. simpl.
  by rewrite Ht.
Qed.

(** What is persisted is in storage: the root hash returned by persisting a
    tree, looked up in the storage with the delta flushed into it, holds the
    same entries, and is canonical if the tree was.  [P] is the set of buffers
    in play; it must be free of hash collisions. *)
Lemma persist_represents R acc P es root :
  well_stored (K := K) (V := V) acc -> collision_free P ->
  (forall h node, acc h = Ok node -> P (buffer node)) ->
  (forall h p b, (h <= S R)%nat -> forest h es = [p] -> b ∈ sealed p -> P b) ->
  represents R acc es root ->
  exists d' hash, persist_tree root Delta.zero = (d', Ok hash) /\
    well_stored (K := K) (V := V) (overlay d' acc) /\
    (forall h node, overlay d' acc h = Ok node -> P (buffer node)) /\
    represents R (overlay d' acc) es (Unloaded hash) /\
    (canonical acc es root -> canonical (overlay d' acc) es (Unloaded hash)).
Proof.
  intros Hws Hcf HPacc HPes Hrep. destruct root as [hash|t].
  - exists Delta.zero, hash.
    assert (extends acc (overlay Delta.zero acc)) as Hext
      by (intros h node; unfold overlay, Delta.zero; by rewrite lookup_empty).
    split_and!; [done| | |by apply (represents_extends _ acc)|by apply canonical_extends].
    + intros h node. unfold overlay, Delta.zero. rewrite lookup_empty. apply Hws.
    + intros h node. unfold overlay, Delta.zero. rewrite lookup_empty. apply HPacc.
  - destruct Hrep as (Hs & o & Ho & Hr).
    injection Ho as <-. destruct Hr as (h & Hle & Hh & _ & p & Hp & Hr).
    destruct (persist_loaded acc P h es t p Delta.zero) as (d' & E & Hg); [done..|by eauto|].
    destruct Hg as (Hd' & _ & Hrd); [done|by intros ? ? ?|].
    pose proof (overlay_reads acc P d' Hws Hcf HPacc Hd') as Hreads.
    pose proof (forest_uniform_one _ _ _ Hp) as Hu.
    destruct (load_link (overlay d' acc) p h) as (t' & Hl & Hr'); [|done|by apply Hrd|].
    { apply (proj2 Hcf). eapply HPes; [exact Hle|exact Hp|apply sealed_self]. }
    exists d', (blake3 (ser p)). split_and!; [done|by eapply overlay_well_stored| | |].
    + intros h0 node. unfold overlay. destruct (d' !! h0) as [b|] eqn:Eb; [|apply HPacc].
      intros [= <-]. by destruct (Hd' _ _ Eb) as (_ & ? & _).
    + split; [done|]. exists (Some t'). split; [done|]. exists h. split; [done|]. split_and!; eauto.
    + intros (_ & o' & [= <-] & h' & Hc & _ & _ & p' & Hp' & Hr'').
      split; [done|]. exists (Some t'). split; [done|]. exists h.
      assert (h' = h) as ->.
      { eapply uniform_repr_height; [by eapply forest_uniform_one|exact Hu|done|done]. }
      split; [done|]. split_and!; eauto.
Qed.
End roots.
