(* ===== verification/Read.v ===== *)
(** Reading: point lookups and range streams over a stored tree, and over a tree
    that is partly edited in memory, answer from the entries. *)
From S2P Require Import Prelude Common Nodes SortedEntries Forest Walker TransientTree Instances Repr Spine Fuse Edits Batch Persist.

(** ** The steps a stream takes over a tree *)
Section cost.
Context {K V : Type} `{Key K} {D : Distribution}.
Implicit Types (p : ptree K V) (ps : list (ptree K V)).

Fixpoint cost p : nat :=
  match p with
  | PSegment _ => 1
  | PIndex ps => S (sum_list ((fun p => S (cost p)) <$> ps))
  end.
Definition costs ps : nat := sum_list ((fun p => S (cost p)) <$> ps).

Lemma cost_index ps : cost (PIndex ps) = S (costs ps).
Proof. done. Qed.

Lemma costs_cons p ps : costs (p :: ps) = (S (cost p) + costs ps)%nat.
Proof. done. Qed.

Lemma costs_app ps1 ps2 : costs (ps1 ++ ps2) = (costs ps1 + costs ps2)%nat.
Proof. induction ps1 as [|p ps1 IH]; [done|]. rewrite <- app_comm_cons, !costs_cons, IH. lia. Qed.

Lemma cost_bound h p : uniform h p -> (cost p <= 2 * S h * length (flatten p))%nat.
Proof.
  revert p; induction h as [|h IH]; intros [es|ps] Hu; try done.
  - simpl in *. destruct es; simpl; [done|lia].
  - destruct Hu as [Hn Hu]. rewrite cost_index, flatten_index.
    assert (length (flattens ps) <> 0%nat) as Hpos.
    { destruct ps as [|p ps]; [done|]. apply Forall_cons in Hu as [Hup _].
      rewrite flattens_cons, length_app. apply uniform_nonempty in Hup.
      destruct (flatten p); [done|]. simpl; lia. }
    assert (costs ps <= length (flattens ps) + 2 * S h * length (flattens ps))%nat; [|nia].
    clear Hn Hpos. induction Hu as [|p ps Hp _ IHps]; [unfold costs; simpl; lia|].
    rewrite costs_cons, flattens_cons, length_app. specialize (IH p Hp).
    apply uniform_nonempty in Hp. destruct (flatten p); [done|]. simpl length in *. nia.
Qed.
End cost.

Section search.
Context {K V : Type} `{Key K} `{NodeCodec K V} {D : Distribution}.
Context (acc : Accessor).
Implicit Types (es : list (Entry K V)) (p q : ptree K V).
Local Abbreviation repr := (repr acc).

(** [node] is the stored root of the tree [p]. *)
Definition stored p (node : PersistentNode) : Prop :=
  match p with
  | PSegment es => body node = Ok (Segment es)
  | PIndex ps => exists links, body (V := V) node = Ok (Index links) /\
                   Forall2 repr ps (Persistent <$> links)
  end.

Lemma stored_opened p node t :
  transient_try_from node = Ok t -> repr_transient acc p t -> stored p node.
Proof.
  unfold transient_try_from, open_index, as_index. intros Ht Hr. outcome_inv.
  destruct a as [links|es]; rewrite ?Ha in Ht; simpl in Ht; injection Ht as <-.
  - destruct p as [|ps]; [done|]. destruct Hr as (cs & [= <-] & Hr). simpl. eauto.
  - destruct p as [es'|]; simpl in *; [congruence|]. by destruct Hr as (? & ? & _).
Qed.

Lemma repr_stored p l :
  repr p (Persistent l) -> exists node, acc (link_node l) = Ok node /\ stored p node.
Proof.
  intros (_ & t & Ht & Hr)%repr_unfold. simpl in Ht. outcome_inv.
  exists a. split; [done|]. by eapply stored_opened.
Qed.

(** [search_child] makes the choice of [child_for]. *)
Lemma search_child_spec h ps links k :
  ps <> [] -> Forall (uniform h) ps -> Forall2 repr ps (Persistent <$> links) ->
  sorted (flattens ps) ->
  exists pl q pr ll l lr,
    ps = pl ++ q :: pr /\ links = ll ++ l :: lr /\ search_child links k = length pl /\
    length ll = length pl /\ repr q (Persistent l) /\
    Forall2 repr pr (Persistent <$> lr) /\
    (forall e, e ∈ flattens pl -> key e ≺ k) /\
    (pr = [] \/ exists b, last_key (flatten q) = Some b /\ k ≼ b).
Proof.
  intros Hn Hu Hr Hs.
  destruct (child_for_spec acc h ps (Persistent <$> links) k)
    as (pl & q & pr & cl & c & cr & -> & Hc & Hat & Hl & Hq & Hrr & Hlt & Hge); try done.
  apply fmap_app_inv in Hc as (ll & lr0 & -> & Ec & ->).
  destruct lr0 as [|l lr]; csimpl in Ec; [done|]. injection Ec as -> ->.
  exists pl, q, pr, ll, l, lr.
  pose proof (Forall2_length _ _ _ Hl) as Hlen. rewrite length_fmap in Hlen.
  split_and!; try done. unfold search_child.
  assert (forall ps' ls', Forall2 repr ps' (Persistent <$> ls') ->
    forall l, l ∈ ls' -> exists e, e ∈ flattens ps' /\ key e = link_upper_bound l) as Hbound.
  { clear. intros ps' ls' Hr l (i & Hi)%list_elem_of_lookup.
    rewrite Forall2_fmap_r in Hr. destruct (Forall2_lookup_r _ _ _ _ _ Hr Hi) as (p & Hp & Hrp).
    apply repr_unfold in Hrp as [Hb _]. apply last_key_Some in Hb as (e & He & Hk).
    exists e. split; [|done]. unfold flattens. apply elem_of_concat. exists (flatten p).
    split; [|done]. apply list_elem_of_fmap. exists p. split; [done|].
    apply list_elem_of_lookup. eauto. }
  assert (Forall (fun l => oltb (link_upper_bound l) k = true) ll) as Htrue.
  { apply Forall_forall. intros x Hx. destruct (Hbound _ _ Hl x Hx) as (e & He & <-).
    apply oltb_spec. auto. }
  pose proof Hq as [Hqb _]%repr_unfold. simpl in Hqb.
  destruct (oltb (link_upper_bound l) k) eqn:El.
  - assert (lr = []) as ->.
    { destruct Hge as [->|(b & Hb & Hle)];
        [apply Forall2_nil_inv_l in Hrr; by apply fmap_nil_inv in Hrr|].
      apply oltb_spec in El. rewrite Hqb in Hb. injection Hb as <-. order. }
    rewrite <- (app_nil_r (ll ++ [l])), partition_point_app; [|by apply Forall_app; auto|done].
    rewrite app_nil_r, length_app; simpl. lia.
  - rewrite partition_point_app; [rewrite length_app; simpl; lia|done|].
    apply Forall_cons. split; [done|]. apply Forall_forall. intros x Hx.
    destruct (Hbound _ _ Hrr x Hx) as (e & He & <-). apply oltb_false. apply oltb_false in El.
    apply last_key_Some in Hqb as (e' & He' & Ee'). rewrite <- Ee' in El.
    rewrite flattens_app, flattens_cons in Hs. apply sorted_app in Hs as (_ & Hs & _).
    apply sorted_app in Hs as (_ & _ & Hs). specialize (Hs _ _ He' He). order.
Qed.

(** ** [TreeWalker::search] *)
(** The leaf a search ends in. *)
Definition leaf_at (k : K) es pre leaf post : Prop :=
  es = pre ++ leaf ++ post /\ leaf <> [] /\ (forall e, e ∈ pre -> key e ≺ k) /\
  (post = [] \/ exists b, last_key leaf = Some b /\ k ≼ b).

(** The layers of a search, outermost first: each host is an index, [rest] are
    the entries right of the slots taken, and [n] the steps to stream them. *)
Inductive layers_rest : list TreeLayer -> list (Entry K V) -> nat -> Prop :=
  | layers_nil : layers_rest [] [] 1
  | layers_snoc layers rest n host at_ ps :
      layers_rest layers rest n -> stored (PIndex ps) host ->
      layers_rest (layers ++ [mkTreeLayer host at_]) (flattens (drop (S at_) ps) ++ rest)
        (S (costs (drop (S at_) ps)) + n).

Lemma search_loop_spec pf k h : forall fuel p hash node layers rest n,
  uniform h p -> sorted (flatten p) -> acc hash = Ok node -> stored p node ->
  (h < fuel)%nat -> (h + length layers <= MAXIMUM_TREE_DEPTH)%nat ->
  layers_rest layers rest n ->
  exists lf path pre leaf post n',
    search_loop (V := V) acc pf fuel k SearchOptions_default hash layers
      = Ok (Some (mkSearchResult lf path None)) /\
    body lf = Ok (Segment leaf) /\ leaf_at k (flatten p) pre leaf post /\
    layers_rest path (post ++ rest) n' /\ (S n' <= cost p + n)%nat.
Proof.
  induction h as [|h IH]; intros fuel p hash node layers rest n Hu Hs Hn Hst Hf Hd Hlay;
    (destruct fuel as [|fuel]; [lia|]); cbn [search_loop]; rewrite decide_False by lia;
    rewrite Hn; cbn [mbind outcome_bind].
  - destruct p as [es|]; [|done]. simpl in Hst. rewrite Hst. cbn.
    exists node, layers, [], es, [], n. split_and!; [done|done| |done|simpl; lia].
    split_and!; [by rewrite app_nil_r|done|set_solver|by left].
  - destruct p as [|ps]; [done|]. destruct Hu as [Hne Hu]. pose proof Hst as (links & Hb & Hr).
    rewrite Hb. cbn [mbind outcome_bind]. rewrite flatten_index in *.
    destruct (search_child_spec h ps links k)
      as (pl & q & pr & ll & l & lr & -> & -> & Hat & Hlen & Hq & Hrr & Hlt & Hge); try done.
    rewrite Hat. unfold index_or_panic. rewrite <- Hlen, list_lookup_middle by done.
    destruct (repr_stored _ _ Hq) as (node' & Hn' & Hst').
    apply Forall_app in Hu as [_ [Huq _]%Forall_cons].
    rewrite flattens_app, flattens_cons in Hs |- *.
    pose proof Hs as (_ & (Hsq & _ & _)%sorted_app & _)%sorted_app.
    assert (drop (S (length ll)) (pl ++ q :: pr) = pr) as Edrop.
    { by rewrite Hlen, <- Nat.add_1_r, drop_app_add. }
    destruct (IH fuel q (link_node l) node' (layers ++ [mkTreeLayer node (length ll)])
                (flattens pr ++ rest) (S (costs pr) + n))
      as (lf & path & pre & leaf & post & n' & Hsl & Hbl & (Eq & Hnl & Hpre & Hpost) & Hlr & Hpl);
      try done; [lia|rewrite length_app; simpl; lia| |].
    { assert (flattens pr = flattens (drop (S (length ll)) (pl ++ q :: pr))) as ->.
      { by rewrite Edrop. }
      rewrite <- Edrop at 2. by constructor. }
    exists lf, path, (flattens pl ++ pre), leaf, (post ++ flattens pr), n'. split_and!.
    + by destruct ll.
    + done.
    + split_and!; [by rewrite Eq, <- !app_assoc|done|set_solver|].
      destruct Hpost as [->|Hb']; [|by right]. destruct Hge as [->|(b & Hb' & Hle)]; [by left|].
      right. rewrite Eq, app_nil_r, last_key_app in Hb' by done. eauto.
    + by rewrite <- app_assoc.
    + rewrite cost_index, costs_app, costs_cons. lia.
Qed.

(** ** [PersistentTree::get] *)
Lemma find_entry_spec (leaf : list (Entry K V)) k :
  sorted leaf ->
  exists e, find_entry (Segment leaf) k = Ok e /\ option_map value e = lookup_entry k leaf.
Proof.
  intros Hs. unfold find_entry. destruct (search_cases leaf k Hs)
    as [(l & x & r & -> & Hx & Hl & Hr & ->)|(l & r & -> & Hl & Hr & ->)]; eexists; split; try done.
  - rewrite list_lookup_middle by done. rewrite lookup_entry_app_r by done. simpl.
    by rewrite Hx, cmp_refl.
  - simpl. rewrite lookup_entry_app_r by done. symmetry. apply lookup_below; [|done].
    by apply sorted_app in Hs as (_ & ? & _).
Qed.

Lemma leaf_at_lookup k es pre (leaf post : list (Entry K V)) :
  leaf_at k es pre leaf post -> sorted es -> lookup_entry k es = lookup_entry k leaf.
Proof.
  intros (-> & Hn & Hpre & Hpost) Hs. rewrite lookup_entry_app_r by done.
  destruct Hpost as [->|(b & Hb & Hle)]; [by rewrite app_nil_r|].
  apply lookup_entry_app_l. apply last_key_Some in Hb as (x & Hx & <-). eauto.
Qed.

Lemma leaf_at_sorted k es pre leaf post : leaf_at k es pre leaf post -> sorted es -> sorted leaf.
Proof.
  intros (-> & _) Hs. apply sorted_app in Hs as (_ & Hs & _).
  by apply sorted_app in Hs as (? & _ & _).
Qed.

(** A stored tree, reached through its hash. *)
Lemma tree_get_stored h p hash node k :
  hash <> NULL_BLAKE3_HASH -> (h <= MAXIMUM_TREE_DEPTH)%nat -> uniform h p -> sorted (flatten p) ->
  acc hash = Ok node -> stored p node -> tree_get acc hash k = Ok (lookup_entry k (flatten p)).
Proof.
  intros Hnull Hh Hu Hs Hn Hst. unfold tree_get, search. rewrite decide_False by done.
  destruct (search_loop_spec 0 k h (MAXIMUM_TREE_DEPTH + 2) p hash node [] [] 1)
    as (lf & path & pre & leaf & post & n & -> & Hb & Hl & _); try done; [lia|simpl; lia|constructor|].
  cbn [mbind outcome_bind Walker.leaf]. rewrite Hb. cbn [mbind outcome_bind].
  destruct (find_entry_spec leaf k) as (e & -> & He); [by eapply leaf_at_sorted|].
  cbn. by rewrite He, (leaf_at_lookup k (flatten p) pre leaf post).
Qed.
End search.

(** ** [TreeWalker::stream] *)
Section streams.
Context {K V : Type} `{Key K} `{NodeCodec K V} {D : Distribution}.
Context (acc : Accessor).
Implicit Types (es : list (Entry K V)) (p q : ptree K V) (range : Range K).
Local Abbreviation repr := (repr acc).
Local Abbreviation stored := (stored acc).

Definition in_range range : list (Entry K V) -> list (Entry K V) :=
  List.filter (fun e => contains range (key e)).

(** The key a range starts from. *)
Definition start_key range : K :=
  match start_bound range with Included s => s | Excluded s => s | Unbounded => key_min end.

(** A leaf is read as a stretch of the whole. *)
Lemma stream_segment_app range entered es1 es2 :
  stream_segment range entered (es1 ++ es2) =
  let '(out, entered, finished) := stream_segment range entered es1 in
  if finished then (out, entered, true)
  else let '(out', entered, finished) := stream_segment range entered es2 in
       (out ++ out', entered, finished).
Proof.
  revert entered; induction es1 as [|e es1 IH]; intros entered; simpl.
  - by destruct (stream_segment _ _ _) as [[??]?].
  - destruct (contains range (key e)); [|by destruct entered].
    rewrite IH. destruct (stream_segment range true es1) as [[o en] f]. destruct f; [done|].
    by destruct (stream_segment range en es2) as [[??]?].
Qed.

Definition scan range entered es : list (Entry K V) :=
  (stream_segment range entered es).1.1.

(** Ranges are convex. *)
Lemma contains_convex range k1 k2 k3 :
  contains range k1 = true -> contains range k3 = true -> k1 ≼ k2 -> k2 ≼ k3 ->
  contains range k2 = true.
Proof.
  unfold contains. rewrite !andb_true_iff. intros [H1 _] [_ H3] H12 H23. split.
  - destruct (start_bound range); rewrite ?oleb_spec, ?oltb_spec in *; [order|order|done].
  - destruct (end_bound range); rewrite ?oleb_spec, ?oltb_spec in *; [order|order|done].
Qed.

Lemma filter_none range es :
  (forall e, e ∈ es -> contains range (key e) = false) -> in_range range es = [].
Proof.
  induction es as [|e es IH]; [done|]; simpl. intros He. rewrite He by set_solver.
  apply IH. set_solver.
Qed.

Lemma scan_entered range e0 es :
  sorted (e0 :: es) -> contains range (key e0) = true -> scan range true es = in_range range es.
Proof.
  intros [Hs He0]%sorted_cons Hc0. unfold scan. induction es as [|e es IH]; [done|]; simpl.
  pose proof Hs as [Hs' Hlt]%sorted_cons.
  assert (scan range true es = in_range range es) as IH'.
  { apply IH; [done|]. intros x Hx. apply He0. set_solver. }
  unfold scan in IH'. destruct (contains range (key e)) eqn:Ee; simpl.
  - destruct (stream_segment range true es) as [[o en] f]. simpl in *. by rewrite IH'.
  - symmetry. apply filter_none. intros x Hx.
    destruct (contains range (key x)) eqn:Ex; [|done].
    assert (contains range (key e) = true); [|congruence].
    apply (contains_convex range (key e0) (key e) (key x)); [done|done| |].
    + apply olt_le, He0. set_solver.
    + by apply olt_le, Hlt.
Qed.

(** Over sorted entries the scan yields exactly the entries in the range. *)
Lemma scan_spec range es : sorted es -> scan range false es = in_range range es.
Proof.
  induction es as [|e es IH]; intros Hs; [done|]. pose proof Hs as [Hs' _]%sorted_cons.
  unfold scan. simpl. destruct (contains range (key e)) eqn:Ee; simpl.
  - pose proof (scan_entered range e es Hs Ee) as Hsc. unfold scan in Hsc.
    destruct (stream_segment range true es) as [[o en] f]. simpl in *. by rewrite Hsc.
  - by apply IH.
Qed.

Lemma in_range_before range pre :
  (forall e, e ∈ pre -> key e ≺ start_key range) -> in_range range pre = [].
Proof.
  intros Hpre. apply filter_none. intros e He. specialize (Hpre _ He). unfold contains, start_key in *.
  apply andb_false_iff. left. destruct (start_bound range) as [s|s|].
  - by apply oleb_false.
  - apply oltb_false. by apply olt_le.
  - pose proof (key_min_le (key e)). order.
Qed.

(** ** The stack of the stream *)
(** [pending stack es n]: the stream has still to read [es], in [n] steps. *)
Inductive pending : IndexedPath -> list (Entry K V) -> nat -> Prop :=
  | pending_nil : pending [] [] 1
  | pending_node p node stack es n :
      stored p node -> pending stack es n ->
      pending ((node, None) :: stack) (flatten p ++ es) (cost p + n)
  | pending_index ps node at_ stack es n :
      stored (PIndex ps) node -> pending stack es n ->
      pending ((node, Some at_) :: stack) (flattens (drop (S at_) ps) ++ es)
        (S (costs (drop (S at_) ps)) + n).

Lemma index_step links at_ ps :
  Forall2 repr ps (Persistent <$> links) ->
  match links !! at_ with
  | Some l => exists p ps', drop at_ ps = p :: ps' /\ drop (S at_) ps = ps' /\ repr p (Persistent l)
  | None => drop at_ ps = []
  end.
Proof.
  intros Hr. rewrite Forall2_fmap_r in Hr. destruct (links !! at_) as [l|] eqn:El.
  - destruct (Forall2_lookup_r _ _ _ _ _ Hr El) as (p & Hp & Hrp).
    exists p, (drop (S at_) ps). split_and!; [by apply drop_S|done|done].
  - apply drop_ge. apply lookup_ge_None in El. apply Forall2_length in Hr. lia.
Qed.

Lemma stream_loop_spec range fuel : forall stack es n entered,
  pending stack es n -> (n <= fuel)%nat ->
  stream_loop (V := V) acc fuel range stack entered = (scan range entered es, Ok tt).
Proof.
  induction fuel as [|fuel IH]; intros stack es n entered Hp Hf.
  { destruct Hp as [|[|]|]; simpl in Hf; lia. }
  cbn [stream_loop]. destruct Hp as [|p node stack es n Hst Hp|ps node at_ stack es n Hst Hp].
  - done.
  - destruct p as [les|ps].
    + simpl in Hst. rewrite Hst. unfold scan. simpl. rewrite stream_segment_app.
      destruct (stream_segment range entered les) as [[o en] f]. destruct f; [done|].
      rewrite (IH stack es n en Hp) by (simpl in Hf; lia). unfold scan.
      by destruct (stream_segment range en es) as [[??]?].
    + pose proof Hst as (links & Hb & Hr). rewrite Hb.
      pose proof (index_step links 0 ps Hr) as Hstep.
      rewrite flatten_index. destruct (links !! 0%nat) as [l|].
      * destruct Hstep as (p & ps' & Eps & Eps' & Hrp). rewrite drop_0 in Eps. subst ps.
        destruct (repr_stored acc _ _ Hrp) as (node' & -> & Hst').
        rewrite flattens_cons, <- app_assoc.
        eapply IH; [apply pending_node; [exact Hst'|]; by apply (pending_index (p :: ps') node 0)|].
        rewrite cost_index, costs_cons in Hf. simpl. rewrite drop_0. lia.
      * rewrite drop_0 in Hstep. subst ps. simpl in *. eapply IH; [done|lia].
  - pose proof Hst as (links & Hb & Hr). rewrite Hb.
    pose proof (index_step links (S at_) ps Hr) as Hstep. destruct (links !! S at_) as [l|].
    + destruct Hstep as (p & ps' & Eps & Eps' & Hrp). rewrite Eps in *.
      destruct (repr_stored acc _ _ Hrp) as (node' & -> & Hst').
      rewrite flattens_cons, <- app_assoc, <- Eps'.
      eapply IH; [apply pending_node; [exact Hst'|]; by eapply pending_index|].
      rewrite Eps'. unfold costs in *. csimpl in Hf. simpl in Hf. lia.
    + rewrite Hstep in *. eapply IH; [done|]. simpl in Hf. lia.
Qed.

(** The stack a search leaves. *)
Lemma layers_pending layers rest n :
  layers_rest acc layers rest n ->
  pending ((fun l => (host l, Some (layer_index l))) <$> rev layers) rest n.
Proof.
  induction 1 as [|layers rest n host at_ ps Hl IH Hst]; [constructor|].
  rewrite rev_app_distr. simpl. by apply pending_index.
Qed.

Lemma in_range_app range es1 es2 :
  in_range range (es1 ++ es2) = in_range range es1 ++ in_range range es2.
Proof. apply List.filter_app. Qed.

(** Streaming a stored tree. *)
Lemma stream_stored fuel h p hash node range :
  hash <> NULL_BLAKE3_HASH -> (h <= MAXIMUM_TREE_DEPTH)%nat -> uniform h p -> sorted (flatten p) ->
  acc hash = Ok node -> stored p node -> (2 * S h * length (flatten p) < fuel)%nat ->
  stream (V := V) acc fuel hash range = (in_range range (flatten p), Ok tt).
Proof.
  intros Hnull Hh Hu Hs Hn Hst Hf. pose proof (cost_bound h p Hu) as Hcost.
  unfold stream, search. rewrite decide_False by done. fold (start_key range).
  destruct (search_loop_spec acc 0 (start_key range) h (MAXIMUM_TREE_DEPTH + 2) p hash node [] [] 1)
    as (lf & path & pre & leaf & post & n & -> & Hb & (Ep & _ & Hpre & _) & Hlay & Hn');
    try done; [lia|simpl; lia|constructor|].
  unfold into_indexed. simpl. rewrite app_nil_r in Hlay.
  rewrite (stream_loop_spec range fuel _ (leaf ++ post) (1 + n)).
  - rewrite scan_spec.
    + by rewrite Ep, (in_range_app range pre), (in_range_before range pre).
    + rewrite Ep in Hs. by apply sorted_app in Hs as (_ & ? & _).
  - apply (pending_node (PSegment leaf)); [done|]. by apply layers_pending.
  - lia.
Qed.
End streams.

(** ** Reading through a batch of edits *)
Section reading.
Context {K V : Type} `{Key K} `{NodeCodec K V} {D : Distribution}.
Context (acc : Accessor).

(** Nothing is stored under the hash that stands for the empty tree. *)
Definition null_absent : Prop := forall node, acc NULL_BLAKE3_HASH <> Ok node.
Context (Hnull : null_absent).
Implicit Types (es : list (Entry K V)) (p q : ptree K V) (t : TransientNode K V).
Implicit Types (root : TransientRoot K V).

Lemma stored_not_null p (l : Link K) : repr acc p (Persistent (V := V) l) -> link_node l <> NULL_BLAKE3_HASH.
Proof. intros (node & Hn & _)%repr_stored E. rewrite E in Hn. by apply Hnull in Hn. Qed.

Lemma transient_get_index cs k :
  transient_get (V := V) acc (TransientIndex cs) k =
  match cs !! child_for cs k with
  | Some (Persistent link) => tree_get acc (link_node link) k
  | Some (Transient child) => transient_get acc child k
  | None => Panic "index out of bounds"
  end.
Proof.
  cbn [transient_get]. generalize (child_for cs k). induction cs as [|c cs IH]; intros at_; [done|].
  destruct at_ as [|at_]; [by destruct c|]. simpl. rewrite <- IH. by destruct c.
Qed.

Lemma transient_get_spec h p t k :
  (h <= MAXIMUM_TREE_DEPTH)%nat -> uniform h p -> sorted (flatten p) -> repr_transient acc p t ->
  transient_get acc t k = Ok (lookup_entry k (flatten p)).
Proof.
  revert p t; induction h as [|h IH]; intros p t Hh Hu Hs Hr; destruct p as [es|ps]; try done.
  - simpl in Hr; subst t. simpl in *. destruct (search_cases es k Hs)
      as [(l & x & r & -> & Hx & Hl & Hr & ->)|(l & r & -> & Hl & Hr & ->)].
    + unfold index_or_panic. rewrite list_lookup_middle by done.
      rewrite lookup_entry_app_r by done. simpl. by rewrite Hx, cmp_refl.
    + rewrite lookup_entry_app_r by done. f_equal. symmetry. apply lookup_below; [|done].
      by apply sorted_app in Hs as (_ & ? & _).
  - destruct Hu as [Hn Hu], Hr as (cs & -> & Hcs). rewrite flatten_index in *.
    destruct (child_for_spec acc h ps cs k)
      as (pl & q & pr & cl & c & cr & -> & -> & Hat & Hl & Hq & Hrr & Hlt & Hge); try done.
    rewrite transient_get_index, Hat, list_lookup_middle by done.
    apply Forall_app in Hu as [_ [Huq _]%Forall_cons].
    rewrite flattens_app, flattens_cons in *.
    pose proof Hs as (_ & (Hsq & _ & _)%sorted_app & _)%sorted_app.
    assert (lookup_entry k (flattens pl ++ flatten q ++ flattens pr) = lookup_entry k (flatten q)) as ->.
    { rewrite lookup_entry_app_r by done. destruct Hge as [->|(b & Hb & Hle)]; [by rewrite app_nil_r|].
      apply lookup_entry_app_l. apply last_key_Some in Hb as (x & Hx & <-). eauto. }
    destruct c as [link|t].
    + pose proof (stored_not_null _ _ Hq). destruct (repr_stored acc _ _ Hq) as (node & Hnode & Hst).
      eapply tree_get_stored; [done| |done..]. lia.
    + apply repr_Transient in Hq. apply IH; [lia|done..].
Qed.

Lemma load_stored (hash : Blake3Hash) t p :
  load acc (Unloaded hash) = Ok (Some t) -> repr_transient acc p t ->
  hash <> NULL_BLAKE3_HASH /\ exists node, acc hash = Ok node /\ stored acc p node.
Proof.
  unfold load. case_decide; [done|]. intros Hl Hr. outcome_inv. subst. split; [done|].
  exists a. split; [done|]. by eapply stored_opened.
Qed.

(** A lookup answers from the entries. *)
Lemma get_represents R es root k :
  (S R <= MAXIMUM_TREE_DEPTH)%nat -> represents R acc es root ->
  get acc root k = Ok (lookup_entry k es).
Proof.
  intros HR (Hs & o & Ho & Hr). destruct o as [t|].
  - destruct Hr as (h & Hh & _ & _ & p & Hp & Hr).
    pose proof (forest_uniform_one _ _ _ Hp) as Hu.
    rewrite <- (forest_flatten h es p) in Hs |- * by done. destruct root as [hash|t'].
    + destruct (load_stored hash t p Ho Hr) as (Hn & node & Hnode & Hst).
      simpl. eapply tree_get_stored; [done| |done..]. lia.
    + injection Ho as ->. apply (transient_get_spec h); [lia|done..].
  - subst es. destruct root as [hash|t]; [|done]. simpl in *. case_decide as Hh.
    + unfold tree_get, search. by rewrite decide_True.
    + outcome_inv. done.
Qed.

Lemma run_plan_app fuel range (plan1 plan2 : list (StreamStep K V)) es1 es2 :
  run_stream_plan acc fuel range plan1 = (es1, Ok tt) ->
  run_stream_plan acc fuel range plan2 = (es2, Ok tt) ->
  run_stream_plan acc fuel range (plan1 ++ plan2) = (es1 ++ es2, Ok tt).
Proof.
  revert es1; induction plan1 as [|[hash|e] plan1 IH]; intros es1 H1 H2; simpl in *.
  - by injection H1 as <-.
  - destruct (stream acc fuel hash range) as [out [[]| | |]]; try done.
    destruct (run_stream_plan acc fuel range plan1) as [rest status] eqn:E1.
    injection H1 as <- ->. rewrite (IH rest eq_refl H2). by rewrite app_assoc.
  - destruct (run_stream_plan acc fuel range plan1) as [rest status] eqn:E1.
    injection H1 as <- ->. rewrite (IH rest eq_refl H2). by destruct (contains _ _).
Qed.

Definition plan_of (c : Node K V) : list (StreamStep K V) :=
  match c with
  | Persistent link => [PersistentStep (link_node link)]
  | Transient child => collect_stream_plan child
  end.

Lemma collect_plan_index cs : collect_stream_plan (TransientIndex cs) = concat (plan_of <$> cs).
Proof.
  cbn [collect_stream_plan]. induction cs as [|[l|t] cs IH]; [done|..]; csimpl; by rewrite IH.
Qed.

Lemma run_plan_entries fuel range es :
  run_stream_plan acc fuel range (EntryStep <$> es) = (in_range range es, Ok tt).
Proof.
  induction es as [|e es IH]; [done|]. csimpl. cbn [run_stream_plan]. rewrite IH.
  simpl. by destruct (contains _ _).
Qed.

Lemma run_plan_spec fuel h p t range :
  (h <= MAXIMUM_TREE_DEPTH)%nat -> uniform h p -> sorted (flatten p) -> repr_transient acc p t ->
  (2 * S h * length (flatten p) < fuel)%nat ->
  run_stream_plan acc fuel range (collect_stream_plan t) = (in_range range (flatten p), Ok tt).
Proof.
  revert p t; induction h as [|h IH]; intros p t Hh Hu Hs Hr Hf; destruct p as [es|ps]; try done.
  - simpl in Hr; subst t. apply run_plan_entries.
  - destruct Hu as [_ Hu], Hr as (cs & -> & Hcs). rewrite flatten_index in *.
    rewrite collect_plan_index.
    induction Hcs as [|q c ps cs Hq Hcs IHcs]; [done|]. csimpl.
    apply Forall_cons in Hu as [Huq Hu].
    rewrite flattens_cons, length_app in *.
    pose proof Hs as (Hsq & Hsps & _)%sorted_app.
    rewrite in_range_app. apply run_plan_app; [|apply IHcs; [done|done|nia]].
    destruct c as [link|t]; simpl.
    + pose proof (stored_not_null _ _ Hq). destruct (repr_stored acc _ _ Hq) as (node & Hnode & Hst).
      rewrite (stream_stored acc fuel h q _ node); [|done|lia|done..|nia].
      by rewrite app_nil_r.
    + apply repr_Transient in Hq. apply IH; [lia|done..|nia].
Qed.

Lemma stream_range_represents R fuel es root range :
  (S R <= MAXIMUM_TREE_DEPTH)%nat -> represents R acc es root ->
  (2 * S (S R) * length es < fuel)%nat ->
  stream_range acc fuel root range = (in_range range es, Ok tt).
Proof.
  intros HR (Hs & o & Ho & Hr) Hf. unfold stream_range. destruct o as [t|].
  - destruct Hr as (h & Hh & _ & _ & p & Hp & Hr).
    pose proof (forest_uniform_one _ _ _ Hp) as Hu.
    rewrite <- (forest_flatten h es p) in Hs, Hf |- * by done. destruct root as [hash|t'].
    + destruct (load_stored hash t p Ho Hr) as (Hn & node & Hnode & Hst). cbn [run_stream_plan].
      rewrite (stream_stored acc fuel h p _ node); [|done|lia|done..|nia]. by rewrite app_nil_r.
    + injection Ho as ->. apply (run_plan_spec fuel h); [lia|done..|nia].
  - subst es. destruct root as [hash|t]; [|done]. simpl in *. case_decide as Hh.
    + unfold stream, search. by rewrite decide_True.
    + outcome_inv. done.
Qed.
End reading.

(** ** Promises about reads *)
Section promises.
Context {K V : Type} `{Key K} `{NodeCodec K V} {D : Distribution}.
Context (R fuel : nat) (rank_le : forall b, (rank b <= R)%nat).
Context (enough : (S R < fuel)%nat) (shallow : (S R <= MAXIMUM_TREE_DEPTH)%nat).
Context (acc : Accessor) (Hnull : null_absent acc).
Implicit Types (es : list (Entry K V)) (root : TransientRoot K V).

(** Reads see writes: after any batch of edits to a tree, in storage or
    already edited, a lookup returns what the edits leave under the key; it
    never fails on a tree of bounded height whose nodes are in storage. *)
Theorem get_after_edits edits es root :
  represents R acc es root ->
  exists root', apply_edits acc fuel edits root = Ok root' /\
    forall k, get acc root' k = Ok (lookup_entry k (edit_entries edits es)).
Proof.
  intros Hr. destruct (apply_edits_correct R rank_le acc fuel enough edits es root Hr)
    as (root' & Ha & Hr'). exists root'. split; [done|]. intros k.
  by apply (get_represents acc Hnull R).
Qed.

(** After any batch of edits, streaming a range yields exactly the entries
    the edits leave whose key is in the range, each once and in key order, and
    ends without an error; the stream terminates. *)
Theorem stream_after_edits edits es root range stream_fuel :
  represents R acc es root ->
  (2 * S (S R) * length (edit_entries edits es) < stream_fuel)%nat ->
  exists root', apply_edits acc fuel edits root = Ok root' /\
    stream_range acc stream_fuel root' range = (in_range range (edit_entries edits es), Ok tt).
Proof.
  intros Hr Hf. destruct (apply_edits_correct R rank_le acc fuel enough edits es root Hr)
    as (root' & Ha & Hr'). exists root'. split; [done|].
  by apply (stream_range_represents acc Hnull R).
Qed.
End promises.

Section durable.
Context {K V : Type} `{Key K} `{NodeCodec K V} `{Blake3} {D : Distribution}.
Context (Htotal : codec_total (K := K) (V := V)).
Context (R : nat) (shallow : (S R <= MAXIMUM_TREE_DEPTH)%nat).
Implicit Types (es : list (Entry K V)) (root : TransientRoot K V).

(** C24: Durability: persisting a tree returns a root hash and a delta such that
    a reader who has only that hash, and the storage with the delta flushed
    into it, finds under every key what the tree held.  [P] is the set of
    buffers in play; it must be free of hash collisions. *)
Theorem persist_reads_back acc P es root :
  well_stored (K := K) (V := V) acc -> collision_free P ->
  (forall h node, acc h = Ok node -> P (buffer node)) ->
  (forall h p b, (h <= S R)%nat -> forest h es = [p] -> b ∈ sealed p -> P b) ->
  represents R acc es root ->
  exists d' hash, persist_tree root Delta.zero = (d', Ok hash) /\
    represents R (overlay d' acc) es (Unloaded hash) /\
    forall k, tree_get (overlay d' acc) hash k = Ok (lookup_entry k es).
Proof.
  intros Hws Hcf HPacc HPes Hr.
  destruct (persist_represents Htotal R acc P es root) as (d' & hash & Hp & Hws' & HP' & Hr' & _); try done.
  exists d', hash. split_and!; [done|done|]. intros k.
  assert (null_absent (overlay d' acc)) as Hnull.
  { intros node Hn. destruct (Hws' _ _ Hn) as [Hh _]. by apply (proj2 Hcf (buffer node)); eauto. }
  apply (get_represents (overlay d' acc) Hnull R es (Unloaded hash) k shallow Hr').
Qed.
End durable.
