(* ===== verification/Integrate.v ===== *)
(** Integrating a differential ([TransientTree::integrate]): last-write-wins
    resolution of changes against the contents of a tree. *)
From S2P Require Import Prelude Common Nodes SortedEntries Forest Walker TransientTree Instances Repr Spine Fuse Edits Batch Persist Read.

Section integrate.
Context {K V : Type} `{Key K} `{NodeCodec K V} `{Blake3} {D : Distribution} `{EqDecision V}.
(** Serialization of values; [identity] is the hash that decides conflicts. *)
Context (value_to_bytes : V -> option bytes).
Context (value_bytes : V -> bytes) (Hvalue : forall v, value_to_bytes v = Some (value_bytes v)).
Implicit Types (es : list (Entry K V)) (root : TransientRoot K V) (change : Change K V).

Definition identity (v : V) : bytes := as_bytes (blake3 (value_bytes v)).

(** The value a key has after an added value meets the existing one. *)
Definition resolve (existing : option V) (new : V) : V :=
  match existing with
  | None => new
  | Some old => if oltb (identity old) (identity new) then new else old
  end.

(** The specification on sorted entries. *)
Definition integrate_entry change es : list (Entry K V) :=
  match change with
  | Add e => upsert (mkEntry (key e) (resolve (lookup_entry (key e) es) (value e))) es
  | Remove e =>
      if decide (lookup_entry (key e) es = Some (value e)) then remove (key e) es else es
  end.
Definition integrate_entries (changes : list (Change K V)) es : list (Entry K V) :=
  fold_left (fun es change => integrate_entry change es) changes es.

Lemma integrate_entry_sorted change es : sorted es -> sorted (integrate_entry change es).
Proof.
  intros Hs. destruct change as [e|e]; simpl; [by apply upsert_sorted|].
  case_decide; [by apply remove_sorted|done].
Qed.

Lemma upsert_present k v es : sorted es -> lookup_entry k es = Some v -> upsert (mkEntry k v) es = es.
Proof.
  intros Hs Hl. apply sorted_ext; [by apply upsert_sorted|done|]. intros k'.
  rewrite lookup_upsert by done. simpl. by case_decide; subst.
Qed.

Context (acc : Accessor) (Hnull : null_absent acc).
Context (R fuel : nat) (rank_le : forall b, (rank b <= R)%nat).
Context (enough : (S R < fuel)%nat) (shallow : (S R <= MAXIMUM_TREE_DEPTH)%nat).
Local Abbreviation represents := (represents R acc).

(** Reading the value and writing the winner implements the resolution. *)
Lemma integrate_change_correct change es root :
  represents es root ->
  exists root', integrate_change acc value_to_bytes fuel root change = Ok root' /\
    represents (integrate_entry change es) root'.
Proof.
  intros Hr. pose proof Hr as [Hs _]. unfold integrate_change.
  destruct change as [[k v]|[k v]]; cbn [key value];
    rewrite (get_represents acc Hnull R es root k shallow Hr); cbn [mbind outcome_bind integrate_entry key value].
  - destruct (lookup_entry k es) as [old|] eqn:El; cbn [resolve].
    2: { by apply (insert_represents R rank_le). }
    case_decide as Hv.
    + subst. exists root. split; [done|]. rewrite upsert_present; [done|done|].
      by destruct (oltb _ _).
    + unfold value_identity. rewrite !Hvalue. cbn [ok_or mbind outcome_bind]. unfold identity.
      destruct (oltb _ _); [by apply (insert_represents R rank_le)|].
      exists root. split; [done|]. by rewrite upsert_present.
  - destruct (lookup_entry k es) as [old|] eqn:El.
    + destruct (decide (old = v)) as [->|Hv].
      * rewrite decide_True by done. by apply (delete_represents R rank_le).
      * rewrite decide_False by naive_solver. eauto.
    + rewrite decide_False by done. eauto.
Qed.

Lemma integrate_represents changes es root :
  represents es root ->
  exists root', integrate acc value_to_bytes fuel root (Ok <$> changes) = Ok root' /\
    represents (integrate_entries changes es) root'.
Proof.
  revert es root; induction changes as [|change changes IH]; intros es root Hr; [by exists root|].
  csimpl. cbn [integrate mbind outcome_bind].
  destruct (integrate_change_correct change es root Hr) as (r1 & -> & Hr1). cbn. by apply IH.
Qed.

(** C27: Integrating a stream of changes into a tree returns, and the tree it
    returns holds the entries with the changes resolved one after the other:
    an added value wins over an existing one when its hash is higher, a removal
    applies only to the exact entry. *)
Theorem integrate_correct changes es root :
  represents es root ->
  exists root', integrate acc value_to_bytes fuel root (Ok <$> changes) = Ok root' /\
    represents (integrate_entries changes es) root'.
Proof. apply integrate_represents. Qed.

(** An error in the stream of changes ends the integration with that error
    (the batch is dropped: nothing is returned to persist). *)
Theorem integrate_stream_error changes rest error es root :
  represents es root ->
  integrate acc value_to_bytes fuel root ((Ok <$> changes) ++ Err error :: rest) = Err error.
Proof.
  revert es root; induction changes as [|change changes IH]; intros es root Hr; [done|].
  csimpl. cbn [integrate mbind outcome_bind app].
  destruct (integrate_change_correct change es root Hr) as (r1 & -> & Hr1). cbn. by eapply IH.
Qed.
End integrate.

(** ** Convergence of concurrent additions *)
Section converge.
Context {K V : Type} `{Key K} `{Blake3} (value_bytes : V -> bytes).
Implicit Types (es adds : list (Entry K V)).
Local Abbreviation identity := (identity value_bytes).
Local Abbreviation resolve := (resolve value_bytes).
Local Abbreviation integrate_entries := (integrate_entries value_bytes).

(** Values in play are told apart by their hash. *)
Context (Q : V -> Prop) (Hinj : forall v1 v2, Q v1 -> Q v2 -> identity v1 = identity v2 -> v1 = v2).

Definition all_in es : Prop := forall k v, lookup_entry k es = Some v -> Q v.

Lemma resolve_comm o v1 v2 :
  (forall v, o = Some v -> Q v) -> Q v1 -> Q v2 ->
  resolve (Some (resolve o v1)) v2 = resolve (Some (resolve o v2)) v1.
Proof.
  intros Ho H1 H2. unfold resolve, Integrate.resolve.
  destruct o as [v|].
  - specialize (Ho v eq_refl).
    destruct (oltb (identity v) (identity v1)) eqn:E1, (oltb (identity v) (identity v2)) eqn:E2;
      rewrite ?E1, ?E2; try done;
      destruct (oltb (identity v1) (identity v2)) eqn:E3, (oltb (identity v2) (identity v1)) eqn:E4;
      try done; order_saturate; try (exfalso; order).
    all: try (assert (identity v1 = identity v2) as E by
                (destruct (ord_total (identity v1) (identity v2)) as [?|[?|?]]; [order|done|order]);
              by apply Hinj in E).
  - destruct (oltb (identity v1) (identity v2)) eqn:E3, (oltb (identity v2) (identity v1)) eqn:E4;
      order_saturate; try done; try (exfalso; order).
    assert (identity v1 = identity v2) as E; [|by apply Hinj in E].
    destruct (ord_total (identity v1) (identity v2)) as [?|[?|?]]; [order|done|order].
Qed.

Context `{EqDecision V}.
Local Abbreviation integrate_entry := (integrate_entry value_bytes).

Lemma resolve_in o v : (forall v, o = Some v -> Q v) -> Q v -> Q (resolve o v).
Proof. intros Ho Hv. unfold Integrate.resolve. destruct o; [|done]. destruct (oltb _ _); auto. Qed.

Lemma integrate_add_in es e :
  sorted es -> all_in es -> Q (value e) -> all_in (integrate_entry (Add e) es).
Proof.
  intros Hs Ha He k v. simpl. rewrite lookup_upsert by done. cbn [key value].
  case_decide; [|apply Ha]. intros [= <-]. apply resolve_in; eauto.
Qed.

Lemma integrate_add_comm es e1 e2 :
  sorted es -> all_in es -> Q (value e1) -> Q (value e2) ->
  integrate_entry (Add e2) (integrate_entry (Add e1) es)
  = integrate_entry (Add e1) (integrate_entry (Add e2) es).
Proof.
  intros Hs Ha H1 H2. simpl.
  apply sorted_ext; [by repeat apply upsert_sorted..|]. intros k.
  repeat (rewrite lookup_upsert by (by repeat apply upsert_sorted)); cbn [key value].
  destruct (decide (key e1 = key e2)) as [E|E].
  - rewrite E, (decide_True _ _ eq_refl). destruct (decide (k = key e2)); [|done].
    f_equal. apply resolve_comm; eauto.
  - rewrite (decide_False (P := key e2 = key e1)) by congruence.
    repeat case_decide; congruence.
Qed.

(** Concurrent additions converge: the same additions, arriving in any
    order, leave the same entries, as long as the values in play have distinct
    hashes. *)
Theorem integrate_adds_converge es adds1 adds2 :
  sorted es -> all_in es -> Forall (fun e => Q (value e)) adds1 -> adds1 ≡ₚ adds2 ->
  integrate_entries (Add <$> adds1) es = integrate_entries (Add <$> adds2) es.
Proof.
  intros Hs Ha Hq Hp. revert es Hs Ha.
  induction Hp as [|e a1 a2 Hp IH|e1 e2 a|a1 a2 a3 Hp1 IH1 Hp2 IH2]; intros es Hs Ha.
  - done.
  - apply Forall_cons in Hq as [He Hq]. csimpl.
    apply IH; [done|by apply upsert_sorted|by apply integrate_add_in].
  - apply Forall_cons in Hq as [He1 Hq]. apply Forall_cons in Hq as [He2 Hq].
    rewrite !fmap_cons. unfold Integrate.integrate_entries. cbn [fold_left].
    by rewrite integrate_add_comm.
  - rewrite IH1 by done. apply IH2; [|done..]. by rewrite <- Hp1.
Qed.

(** Integration is idempotent: additions that arrive again change nothing. *)
Theorem integrate_add_idempotent es e :
  sorted es ->
  integrate_entry (Add e) (integrate_entry (Add e) es) = integrate_entry (Add e) es.
Proof.
  intros Hs. simpl. apply upsert_present; [by apply upsert_sorted|].
  rewrite !lookup_upsert by done. rewrite !decide_True by done. cbn [key value]. f_equal.
  unfold Integrate.resolve. destruct (lookup_entry (key e) es) as [old|].
  - destruct (oltb (identity old) (identity (value e))) eqn:E; rewrite ?E; repeat case_match; done.
  - repeat case_match; done.
Qed.
End converge.
