(* ===== verification/Differential.v ===== *)
(** Differences between two trees (rust/dialog-search-tree/src/differential.rs):
    sparse frontiers are pruned of shared nodes and expanded where they differ,
    then walked side by side. *)
From S2P Require Import Prelude Common Nodes SortedEntries Forest Walker TransientTree Repr Spine Batch Persist Read Integrate.

(** [SparseTreeNode] and [SparseTree]; the storage is an accessor argument. *)
Inductive SparseTreeNode (K : Type) :=
  | LoadedNode (node : PersistentNode) (upper_bound : K)
  | Ref (link : Link K).
Arguments LoadedNode {K} node upper_bound.
Arguments Ref {K} link.

Record SparseTree (K : Type) := mkSparseTree {
  nodes : list (SparseTreeNode K);
  expanded : list PersistentNode
}.
Arguments mkSparseTree {K} nodes expanded.
Arguments nodes {K} s.
Arguments expanded {K} s.

Record TreeDifference (K : Type) := mkTreeDifference { source : SparseTree K; target : SparseTree K }.
Arguments mkTreeDifference {K} source target.
Arguments source {K} t.
Arguments target {K} t.

(** [slice::swap]. *)
Definition swap {A} (l : list A) (i j : nat) : list A :=
  match l !! i, l !! j with
  | Some x, Some y => <[j := x]> (<[i := y]> l)
  | _, _ => l
  end.

Section sparse.
Context {K V : Type} `{Key K} `{NodeCodec K V} `{Blake3}.
Implicit Types (n : SparseTreeNode K).

Definition sparse_upper_bound n : K :=
  match n with LoadedNode _ upper_bound => upper_bound | Ref link => link_upper_bound link end.
Definition sparse_hash n : Blake3Hash :=
  match n with LoadedNode node _ => hash node | Ref link => link_node link end.

(** [SparseTree::from_root]. *)
Definition from_root (accessor : Accessor) (root : Blake3Hash) : tree_result (SparseTree K) :=
  if decide (root = NULL_BLAKE3_HASH) then Ok (mkSparseTree [] [])
  else
    node ← accessor root;
    b ← body (K := K) (V := V) node;
    upper_bound ← body_upper_bound b;
    Ok (mkSparseTree [LoadedNode node upper_bound] []).

Definition load_sparse (accessor : Accessor) n : tree_result PersistentNode :=
  match n with LoadedNode node _ => Ok node | Ref link => accessor (link_node link) end.

(** [iter().position(|node| node.upper_bound() >= bound)]. *)
Fixpoint position_from (ns : list (SparseTreeNode K)) (bound : K) (at_ : nat) : option nat :=
  match ns with
  | [] => None
  | n :: ns => if oleb bound (sparse_upper_bound n) then Some at_ else position_from ns bound (S at_)
  end.

(** [SparseTree::expand_at]: the tree it leaves and whether an index was expanded. *)
Definition expand_at (accessor : Accessor) (bound : K) (self : SparseTree K)
    : tree_result (SparseTree K * bool) :=
  match position_from (nodes self) bound 0 with
  | None => Ok (self, false)
  | Some offset =>
      n ← index_or_panic (nodes self) offset;
      node ← load_sparse accessor n;
      b ← body (K := K) (V := V) node;
      match b with
      | Index links =>
          Ok (mkSparseTree (splice (nodes self) offset (offset + 1) (Ref <$> links))
                (expanded self ++ [node]), true)
      | Segment _ =>
          upper_bound ← body_upper_bound b;
          Ok (mkSparseTree (<[offset := LoadedNode node upper_bound]> (nodes self)) (expanded self), false)
      end
  end.

(** [SparseTree::prune], with its four cursors.  The two [while] loops at the
    end keep what is left of either side. *)
Fixpoint prune_loop (fuel : nat) (left right : list (SparseTreeNode K))
    (at_left at_right to_left to_right : nat)
    : list (SparseTreeNode K) * list (SparseTreeNode K) * nat * nat * nat * nat :=
  match fuel with
  | O => (left, right, at_left, at_right, to_left, to_right)
  | S fuel =>
      match left !! at_left, right !! at_right with
      | Some l, Some r =>
          match cmp (sparse_upper_bound l) (sparse_upper_bound r) with
          | Lt => prune_loop fuel (swap left to_left at_left) right
                    (S at_left) at_right (S to_left) to_right
          | Gt => prune_loop fuel left (swap right to_right at_right)
                    at_left (S at_right) to_left (S to_right)
          | Eq =>
              if decide (sparse_hash l <> sparse_hash r) then
                prune_loop fuel (swap left to_left at_left) (swap right to_right at_right)
                  (S at_left) (S at_right) (S to_left) (S to_right)
              else prune_loop fuel left right (S at_left) (S at_right) to_left to_right
          end
      | _, _ => (left, right, at_left, at_right, to_left, to_right)
      end
  end.

Fixpoint keep_loop (fuel : nat) (l : list (SparseTreeNode K)) (at_ to : nat)
    : list (SparseTreeNode K) * nat :=
  match fuel with
  | O => (l, to)
  | S fuel =>
      if decide (at_ < length l)%nat then keep_loop fuel (swap l to at_) (S at_) (S to) else (l, to)
  end.

Definition prune_nodes (lefts rights : list (SparseTreeNode K))
    : list (SparseTreeNode K) * list (SparseTreeNode K) :=
  let '(lefts, rights, at_left, at_right, to_left, to_right) :=
    prune_loop (length lefts + length rights) lefts rights 0 0 0 0 in
  let '(lefts, to_left) := keep_loop (length lefts) lefts at_left to_left in
  let '(rights, to_right) := keep_loop (length rights) rights at_right to_right in
  (take to_left lefts, take to_right rights).

Definition prune (self other : SparseTree K) : SparseTree K * SparseTree K :=
  let '(lefts, rights) := prune_nodes (nodes self) (nodes other) in
  (mkSparseTree lefts (expanded self), mkSparseTree rights (expanded other)).

(** ** [TreeDifference::compute] *)
Context (source_storage target_storage : Accessor).

(** The lockstep scan: [true] when a node was expanded and the scan left. *)
Fixpoint scan_loop (fuel : nat) (src tgt : SparseTree K) (source_idx target_idx : nat)
    : tree_result (SparseTree K * SparseTree K * bool) :=
  match fuel with
  | O => OutOfFuel
  | S fuel =>
      match nodes src !! source_idx, nodes tgt !! target_idx with
      | Some s, Some t =>
          let source_bound := sparse_upper_bound s in
          let target_bound := sparse_upper_bound t in
          match cmp source_bound target_bound with
          | Lt =>
              '(tgt, grew) ← expand_at target_storage source_bound tgt;
              if grew : bool then Ok (src, tgt, true)
              else scan_loop fuel src tgt (S source_idx) target_idx
          | Gt =>
              '(src, grew) ← expand_at source_storage target_bound src;
              if grew : bool then Ok (src, tgt, true)
              else scan_loop fuel src tgt source_idx (S target_idx)
          | Eq =>
              if decide (sparse_hash s <> sparse_hash t) then
                '(src, grew_source) ← expand_at source_storage source_bound src;
                '(tgt, grew_target) ← expand_at target_storage target_bound tgt;
                if grew_source || grew_target : bool then Ok (src, tgt, true)
                else scan_loop fuel src tgt (S source_idx) (S target_idx)
              else scan_loop fuel src tgt (S source_idx) (S target_idx)
          end
      | _, _ => Ok (src, tgt, false)
      end
  end.

Fixpoint fixpoint_loop (fuel scan_fuel : nat) (src tgt : SparseTree K)
    : tree_result (SparseTree K * SparseTree K) :=
  match fuel with
  | O => OutOfFuel
  | S fuel =>
      let '(src, tgt) := prune src tgt in
      '(src, tgt, grew) ← scan_loop scan_fuel src tgt 0 0;
      if grew : bool then fixpoint_loop fuel scan_fuel src tgt else Ok (src, tgt)
  end.

(** The expansion of what remains on the target side: the [for] loop over the
    indices, and the loop around it. *)
Fixpoint expand_each (index count : nat) (tgt : SparseTree K) : tree_result (SparseTree K * bool) :=
  match count with
  | O => Ok (tgt, false)
  | S count =>
      n ← index_or_panic (nodes tgt) index;
      '(tgt, grew) ← expand_at target_storage (sparse_upper_bound n) tgt;
      if grew : bool then Ok (tgt, true) else expand_each (S index) count tgt
  end.
Fixpoint expand_rest (fuel : nat) (tgt : SparseTree K) : tree_result (SparseTree K) :=
  match fuel with
  | O => OutOfFuel
  | S fuel =>
      '(tgt, grew) ← expand_each 0 (length (nodes tgt)) tgt;
      if grew : bool then expand_rest fuel tgt else Ok tgt
  end.

Definition compute (fuel : nat) (source_root target_root : Blake3Hash) : tree_result (TreeDifference K) :=
  if decide (source_root = target_root) then
    Ok (mkTreeDifference (mkSparseTree [] []) (mkSparseTree [] []))
  else
    src ← from_root source_storage source_root;
    tgt ← from_root target_storage target_root;
    '(src, tgt) ← fixpoint_loop fuel fuel src tgt;
    tgt ← expand_rest fuel tgt;
    Ok (mkTreeDifference src tgt).

(** ** The streams *)
(** A stream is its items; the first that is not [Ok] ends it. *)
Definition item_error {A B} (r : tree_result A) : list (tree_result B) :=
  match r with
  | Ok _ => []
  | Err e => [Err e]
  | Panic m => [Panic m]
  | OutOfFuel => [OutOfFuel]
  end.

(** The in-order walk below one frontier node; [stack] has its top first. *)
Fixpoint walk (accessor : Accessor) (fuel : nat) (stack : list PersistentNode)
    : list (Entry K V) * tree_result () :=
  match fuel with
  | O => ([], OutOfFuel)
  | S fuel =>
      match stack with
      | [] => ([], Ok tt)
      | node :: stack =>
          match body (K := K) (V := V) node with
          | Ok (Index links) =>
              match map_outcome (fun link => accessor (link_node link)) links with
              | Ok children => walk accessor fuel (children ++ stack)
              | Err e => ([], Err e)
              | Panic m => ([], Panic m)
              | OutOfFuel => ([], OutOfFuel)
              end
          | Ok (Segment entries) =>
              let '(rest, status) := walk accessor fuel stack in (entries ++ rest, status)
          | Err e => ([], Err e)
          | Panic m => ([], Panic m)
          | OutOfFuel => ([], OutOfFuel)
          end
      end
  end.

Fixpoint sparse_stream (accessor : Accessor) (fuel : nat) (ns : list (SparseTreeNode K))
    : list (tree_result (Entry K V)) :=
  match ns with
  | [] => []
  | n :: ns =>
      match load_sparse accessor n with
      | Ok node =>
          let '(es, status) := walk accessor fuel [node] in
          (Ok <$> es) ++
          match status with Ok _ => sparse_stream accessor fuel ns | r => item_error r end
      | r => item_error r
      end
  end.

(** [TreeDifference::changes]: the two-cursor walk; the end of a stream is its
    first error. *)
Context `{EqDecision V}.

Fixpoint two_cursor (fuel : nat) (s t : list (tree_result (Entry K V))) : list (tree_result (Change K V)) :=
  match fuel with
  | O => [OutOfFuel]
  | S fuel =>
      match s, t with
      | [], [] => []
      | Ok se :: s, [] => Ok (Remove se) :: two_cursor fuel s []
      | [], Ok te :: t => Ok (Add te) :: two_cursor fuel [] t
      | Ok se :: s', Ok te :: t' =>
          match cmp (key se) (key te) with
          | Lt => Ok (Remove se) :: two_cursor fuel s' t
          | Gt => Ok (Add te) :: two_cursor fuel s t'
          | Eq =>
              if decide (value se <> value te)
              then Ok (Remove se) :: Ok (Add te) :: two_cursor fuel s' t'
              else two_cursor fuel s' t'
          end
      | r :: _, [] | [], r :: _ => item_error r
      | (Err _ | Panic _ | OutOfFuel) as r :: _, _ => item_error r
      | _, r :: _ => item_error r
      end
  end.

Definition changes (walk_fuel : nat) (self : TreeDifference K) : list (tree_result (Change K V)) :=
  let s := sparse_stream source_storage walk_fuel (nodes (source self)) in
  let t := sparse_stream target_storage walk_fuel (nodes (target self)) in
  two_cursor (S (length s + length t)) s t.

(** [TreeDifference::novel_nodes]. *)
Fixpoint frontier_nodes (ns : list (SparseTreeNode K)) : list (tree_result PersistentNode) :=
  match ns with
  | [] => []
  | n :: ns =>
      match load_sparse target_storage n with
      | Ok node => Ok node :: frontier_nodes ns
      | r => item_error r
      end
  end.
Definition novel_nodes (self : TreeDifference K) : list (tree_result PersistentNode) :=
  (Ok <$> expanded (target self)) ++ frontier_nodes (nodes (target self)).
End sparse.
