(* ===== verification/Frontier.v ===== *)
(** Frontiers of two trees.  The in-place pruning of two frontiers computes a
    simple merge (the swaps of [prune] keep exactly the nodes without a shared
    partner, in order), and a frontier is an abstract antichain of a tree that
    pruning and expansion refine. *)
From S2P Require Import Prelude Common Nodes Walker Differential.

Section prune.
Context {K V : Type} `{Key K} `{NodeCodec K V} `{Blake3}.
Local Abbreviation SNode := (SparseTreeNode K).
Implicit Types (l r kept junk rest : list SNode) (x y : SNode).

(** The specification: a merge by upper bound that drops equal pairs. *)
Fixpoint pruned (l : list SNode) : list SNode -> list SNode * list SNode :=
  match l with
  | [] => fun r => ([], r)
  | x :: l' =>
      fix go (r : list SNode) : list SNode * list SNode :=
        match r with
        | [] => (x :: l', [])
        | y :: r' =>
            match cmp (sparse_upper_bound x) (sparse_upper_bound y) with
            | Lt => let '(a, b) := pruned l' (y :: r') in (x :: a, b)
            | Gt => let '(a, b) := go r' in (a, y :: b)
            | Eq =>
                if decide (sparse_hash x <> sparse_hash y)
                then let '(a, b) := pruned l' r' in (x :: a, y :: b)
                else pruned l' r'
            end
        end
  end.

(** Swapping the element at the read cursor down to the write cursor. *)
Lemma swap_down kept junk x rest :
  exists junk', swap (kept ++ junk ++ x :: rest) (length kept) (length kept + length junk)
                = (kept ++ [x]) ++ junk' ++ rest /\ length junk' = length junk.
Proof.
  unfold swap. destruct junk as [|y junk].
  - exists []. simpl. rewrite Nat.add_0_r.
    assert ((kept ++ x :: rest) !! length kept = Some x) as -> by by apply list_lookup_middle.
    split; [|done]. rewrite !list_insert_mid. by rewrite <- app_assoc.
  - exists (junk ++ [y]).
    assert ((kept ++ (y :: junk) ++ x :: rest) !! length kept = Some y) as -> by by apply list_lookup_middle.
    assert ((kept ++ (y :: junk) ++ x :: rest) !! (length kept + length (y :: junk))%nat = Some x) as ->.
    { rewrite app_assoc. apply list_lookup_middle. by rewrite length_app. }
    simpl. rewrite list_insert_mid. split; [|rewrite length_app; simpl; lia].
    rewrite app_comm_cons, app_assoc.
    replace (length kept + S (length junk))%nat with (length (kept ++ x :: junk))
      by (rewrite length_app; simpl; lia).
    rewrite list_insert_mid. by rewrite <- !app_assoc.
Qed.

Lemma keep_loop_spec fuel kept junk rest :
  (length rest <= fuel)%nat ->
  let '(l, to) := keep_loop fuel (kept ++ junk ++ rest) (length kept + length junk) (length kept) in
  take to l = kept ++ rest.
Proof.
  revert kept junk rest; induction fuel as [|fuel IH]; intros kept junk rest Hf; cbn [keep_loop].
  - destruct rest; [|simpl in Hf; lia]. by rewrite !app_nil_r, take_app_length.
  - case_decide as Hlt.
    + destruct rest as [|x rest]; [rewrite app_nil_r, !length_app in Hlt; lia|].
      destruct (swap_down kept junk x rest) as (junk' & -> & Hlen).
      specialize (IH (kept ++ [x]) junk' rest ltac:(simpl in Hf; lia)).
      rewrite length_app, Hlen in IH. simpl in IH.
      replace (length kept + 1 + length junk)%nat with (S (length kept + length junk)) in IH by lia.
      replace (length kept + 1)%nat with (S (length kept)) in IH by lia.
      destruct (keep_loop fuel _ _ _) as [l to]. by rewrite IH, <- app_assoc.
    + rewrite !length_app in Hlt. destruct rest; [|simpl in Hlt; lia].
      by rewrite !app_nil_r, take_app_length.
Qed.

(** The truncations after the loop. *)
Definition truncated (st : list SNode * list SNode * nat * nat * nat * nat) : list SNode * list SNode :=
  let '(l, r, al, ar, tl, tr) := st in
  let '(l', tl') := keep_loop (length l) l al tl in
  let '(r', tr') := keep_loop (length r) r ar tr in
  (take tl' l', take tr' r').

Lemma truncated_spec kl jl rl kr jr rr :
  truncated (kl ++ jl ++ rl, kr ++ jr ++ rr, (length kl + length jl)%nat,
             (length kr + length jr)%nat, length kl, length kr) = (kl ++ rl, kr ++ rr).
Proof.
  unfold truncated.
  pose proof (keep_loop_spec (length (kl ++ jl ++ rl)) kl jl rl) as Hl.
  pose proof (keep_loop_spec (length (kr ++ jr ++ rr)) kr jr rr) as Hr.
  destruct (keep_loop (length (kl ++ jl ++ rl)) _ _ _) as [l tl].
  destruct (keep_loop (length (kr ++ jr ++ rr)) _ _ _) as [r tr].
  rewrite Hl, Hr; [done|rewrite !length_app; lia..].
Qed.

Lemma prune_loop_spec fuel : forall kl jl rl kr jr rr,
  (length rl + length rr <= fuel)%nat ->
  truncated (prune_loop fuel (kl ++ jl ++ rl) (kr ++ jr ++ rr)
               (length kl + length jl) (length kr + length jr) (length kl) (length kr))
  = (kl ++ (pruned rl rr).1, kr ++ (pruned rl rr).2).
Proof.
  induction fuel as [|fuel IH]; intros kl jl rl kr jr rr Hf.
  { destruct rl, rr; simpl in Hf; try lia. cbn [prune_loop]. rewrite truncated_spec. done. }
  cbn [prune_loop]. destruct rl as [|x rl].
  { assert ((kl ++ jl ++ []) !! (length kl + length jl)%nat = None) as ->.
    { apply lookup_ge_None. rewrite app_nil_r, length_app. lia. }
    rewrite truncated_spec. done. }
  assert ((kl ++ jl ++ x :: rl) !! (length kl + length jl)%nat = Some x) as ->.
  { rewrite app_assoc. apply list_lookup_middle. by rewrite length_app. }
  destruct rr as [|y rr].
  { assert ((kr ++ jr ++ []) !! (length kr + length jr)%nat = None) as ->.
    { apply lookup_ge_None. rewrite app_nil_r, length_app. lia. }
    rewrite truncated_spec. done. }
  assert ((kr ++ jr ++ y :: rr) !! (length kr + length jr)%nat = Some y) as ->.
  { rewrite app_assoc. apply list_lookup_middle. by rewrite length_app. }
  assert (forall k j : list SNode, S (length k + length j) = (length (k ++ [x]) + length j)%nat /\
            S (length k) = length (k ++ [x])) as Hlen by (intros; rewrite length_app; simpl; lia).
  assert (forall (k j : list SNode) z, S (length k + length j) = (length k + length (j ++ [z]))%nat) as Hjunk
    by (intros; rewrite length_app; simpl; lia).
  cbn [pruned]. destruct (cmp (sparse_upper_bound x) (sparse_upper_bound y)) eqn:Ec.
  - case_decide as Hh.
    + destruct (swap_down kl jl x rl) as (jl' & -> & Hjl), (swap_down kr jr y rr) as (jr' & -> & Hjr).
      rewrite <- Hjl, <- Hjr.
      replace (S (length kl + length jl')) with (length (kl ++ [x]) + length jl')%nat by (rewrite length_app; simpl; lia).
      replace (S (length kr + length jr')) with (length (kr ++ [y]) + length jr')%nat by (rewrite length_app; simpl; lia).
      replace (S (length kl)) with (length (kl ++ [x])) by (rewrite length_app; simpl; lia).
      replace (S (length kr)) with (length (kr ++ [y])) by (rewrite length_app; simpl; lia).
      rewrite IH by (simpl in Hf; lia). destruct (pruned rl rr) as [a b]. simpl.
      by rewrite <- !app_assoc.
    + rewrite (Hjunk kl jl x), (Hjunk kr jr y).
      replace (kl ++ jl ++ x :: rl) with (kl ++ (jl ++ [x]) ++ rl) by by rewrite <- app_assoc.
      replace (kr ++ jr ++ y :: rr) with (kr ++ (jr ++ [y]) ++ rr) by by rewrite <- app_assoc.
      by rewrite IH by (simpl in Hf; lia).
  - destruct (swap_down kl jl x rl) as (jl' & -> & Hjl). rewrite <- Hjl.
    replace (S (length kl + length jl')) with (length (kl ++ [x]) + length jl')%nat by (rewrite length_app; simpl; lia).
    replace (S (length kl)) with (length (kl ++ [x])) by (rewrite length_app; simpl; lia).
    rewrite IH by (simpl in *; lia). destruct (pruned rl (y :: rr)) as [a b]. simpl.
    by rewrite <- !app_assoc.
  - destruct (swap_down kr jr y rr) as (jr' & -> & Hjr). rewrite <- Hjr.
    replace (S (length kr + length jr')) with (length (kr ++ [y]) + length jr')%nat by (rewrite length_app; simpl; lia).
    replace (S (length kr)) with (length (kr ++ [y])) by (rewrite length_app; simpl; lia).
    rewrite IH by (simpl in *; lia).
    change ((fix go (r : list SNode) := _) rr) with (pruned (x :: rl) rr).
    destruct (pruned (x :: rl) rr) as [a b]. simpl. by rewrite <- !app_assoc.
Qed.

Lemma prune_nodes_spec l r : prune_nodes l r = pruned l r.
Proof.
  pose proof (prune_loop_spec (length l + length r) [] [] l [] [] r ltac:(lia)) as Hp. simpl in Hp.
  unfold prune_nodes. unfold truncated in Hp.
  destruct (prune_loop _ _ _ _ _ _ _) as [[[[[l' r'] al] ar] tl] tr].
  rewrite Hp. by destruct (pruned l r).
Qed.
End prune.

(** * Frontiers

    What the two frontiers of a differential stand for: lists of subtrees of the
    two trees.  Expansion keeps the entries, pruning drops the same subtrees from
    both sides, and every loop of [compute] ends. *)
From S2P Require Import SortedEntries Forest TransientTree Instances Repr Spine Fuse Edits Batch Persist Read Integrate.

(** ** Trees and their serialized form *)
Section trees.
Context {K V : Type} `{Key K} `{NodeCodec K V} `{Blake3} {D : Distribution}.
Context (Htotal : codec_total (K := K) (V := V)).
Implicit Types (p q : ptree K V) (ps qs : list (ptree K V)).

Definition sealeds ps : list bytes := concat (sealed <$> ps).

Lemma sealed_index ps : sealed (PIndex ps) = ser (PIndex ps) :: sealeds ps.
Proof. done. Qed.
Lemma sealeds_cons p ps : sealeds (p :: ps) = sealed p ++ sealeds ps.
Proof. done. Qed.
Lemma sealeds_app ps qs : sealeds (ps ++ qs) = sealeds ps ++ sealeds qs.
Proof. unfold sealeds. by rewrite fmap_app, concat_app. Qed.

#[global] Instance sealeds_perm : Proper ((≡ₚ) ==> (≡ₚ)) sealeds.
Proof. intros ps qs E. unfold sealeds. by rewrite E. Qed.
#[global] Instance flattens_perm : Proper ((≡ₚ) ==> (≡ₚ)) (flattens (K := K) (V := V)).
Proof. intros ps qs E. unfold flattens. by rewrite E. Qed.

Lemma ser_body_inj p q : ser p = ser q -> body_of p = body_of q.
Proof.
  intros E. pose proof (access_to_bytes _ _ (ser_encoded Htotal p)) as Hp.
  rewrite E, (access_to_bytes _ _ (ser_encoded Htotal q)) in Hp. congruence.
Qed.

(** Without hash collisions a serialized form determines the tree. *)
Lemma ser_inj P p q :
  collision_free P -> Forall P (sealed p) -> Forall P (sealed q) -> ser p = ser q -> p = q.
Proof.
  intros Hcf. revert q; induction p as [es|ps IH] using ptree_nested_ind;
    intros [es'|qs] Hp Hq Eb%ser_body_inj; try done; cbn in Eb; injection Eb as Eb; [by rewrite Eb|].
  f_equal. rewrite sealed_index in Hp, Hq. apply Forall_cons in Hp as [_ Hp], Hq as [_ Hq].
  revert qs Hq Eb; induction ps as [|p ps IHps]; intros [|q qs] Hq Eb; csimpl in Eb; try done.
  injection Eb as Etop Eh Eb. rewrite sealeds_cons in Hp, Hq.
  apply Forall_app in Hp as [Hp Hps], Hq as [Hq Hqs]. apply Forall_cons in IH as [IHp IH].
  rewrite (IHps IH Hps qs Hqs Eb). f_equal. apply IHp; [done..|].
  apply (proj1 Hcf); [| |done]; [rewrite Forall_forall in Hp|rewrite Forall_forall in Hq];
    auto using sealed_self.
Qed.

Lemma cost_pos p : (0 < cost p)%nat.
Proof. destruct p; simpl; lia. Qed.
Lemma length_costs ps : (length ps <= costs ps)%nat.
Proof. induction ps as [|p ps IH]; simpl; [lia|]. rewrite costs_cons. lia. Qed.

(** Dropping subtrees keeps order. *)
Lemma flattens_sublist ps qs : ps `sublist_of` qs -> flattens ps `sublist_of` flattens qs.
Proof.
  induction 1 as [|p ps qs _ IH|p ps qs _ IH]; [done| |]; rewrite !flattens_cons.
  - by apply sublist_app.
  - by apply sublist_inserts_l.
Qed.
Lemma costs_sublist ps qs : ps `sublist_of` qs -> (costs ps <= costs qs)%nat.
Proof. induction 1; rewrite ?costs_cons; lia. Qed.

Lemma sorted_sublist (es1 es2 : list (Entry K V)) :
  es1 `sublist_of` es2 -> sorted es2 -> sorted es1.
Proof.
  induction 1 as [|e es1 es2 Hsub IH|e es1 es2 Hsub IH]; [done| |]; intros [Hs Hlt]%sorted_cons.
  - apply sorted_cons. split; [by apply IH|]. intros x Hx. apply Hlt. by eapply elem_of_sublist.
  - by apply IH.
Qed.
End trees.

(** ** Frontier nodes *)
Section frontier.
Context {K V : Type} `{Key K} `{NodeCodec K V} `{Blake3} {D : Distribution}.
Context (Htotal : codec_total (K := K) (V := V)).
Context (acc : Accessor) (Hws : well_stored (K := K) (V := V) acc).
Context (P : bytes -> Prop) (HP : forall h node, acc h = Ok node -> P (buffer node)).
Implicit Types (p q : ptree K V) (ps qs W : list (ptree K V)) (n : SparseTreeNode K) (tree : SparseTree K).

(** The frontier node [n] is the root of the tree [p]. *)
Record srepr p n : Prop := {
  srepr_uniform : exists h, uniform h p;
  srepr_bound : sparse_upper_bound n = top p;
  srepr_hash : sparse_hash n = blake3 (ser p);
  srepr_sealed : Forall P (sealed p);
  srepr_node : exists node, load_sparse acc n = Ok node /\ stored acc p node /\ buffer node = ser p
}.

(** Everything below a stored node is in storage. *)
Lemma stored_sealed h p node :
  uniform h p -> stored acc p node -> buffer node = ser p -> P (buffer node) -> Forall P (sealed p).
Proof.
  revert p node; induction h as [|h IH]; intros [es|ps] node Hu Hst E Hb; try done.
  - rewrite E in Hb. by repeat constructor.
  - rewrite sealed_index. constructor; [by rewrite E in Hb|]. destruct Hst as (links & _ & Hr).
    destruct Hu as [_ Hu]. clear E Hb node. rewrite Forall2_fmap_r in Hr.
    induction Hr as [|p l ps links Hp _ IHps]; [constructor|].
    apply Forall_cons in Hu as [Hup Hu]. rewrite sealeds_cons. apply Forall_app. split; [|by apply IHps].
    pose proof Hp as (_ & t & Ht & Hr)%repr_unfold. simpl in Ht. outcome_inv.
    destruct (Hws _ _ Ha) as [_ Hbody].
    apply (IH p a); [done|by eapply stored_opened| |by eapply HP]. by eapply stored_ser.
Qed.

Lemma srepr_ref h p l : uniform h p -> repr acc p (Persistent l) -> srepr p (Ref l).
Proof.
  intros Hu Hr. pose proof (stored_link acc h p l Hws Hu Hr) as ->.
  pose proof Hr as (_ & t & Ht & Hrt)%repr_unfold. simpl in Ht. outcome_inv.
  destruct (Hws _ _ Ha) as [_ Hbody].
  assert (buffer a = ser p) as E by by eapply stored_ser.
  assert (stored acc p a) as Hst by by eapply stored_opened.
  split; [eauto|done|done| |exists a; done]. eapply (stored_sealed h p a); eauto.
Qed.

Lemma srepr_children ps node links :
  (exists h, uniform h (PIndex ps)) -> body (V := V) node = Ok (Index links) ->
  stored acc (PIndex ps) node -> Forall2 srepr ps (Ref <$> links).
Proof.
  intros (h & Hu) Hb (links' & Hb' & Hr). rewrite Hb in Hb'. injection Hb' as <-.
  destruct h as [|h]; [done|]. destruct Hu as [_ Hu]. rewrite Forall2_fmap_r in Hr. rewrite Forall2_fmap_r. clear Hb.
  induction Hr as [|p l ps ls Hp _ IH]; constructor; apply Forall_cons in Hu as [Hup Hu];
    [by eapply srepr_ref|by apply IH].
Qed.

(** A loaded segment stays a frontier node. *)
Lemma srepr_loaded es n node :
  srepr (PSegment es) n -> load_sparse acc n = Ok node ->
  srepr (PSegment es) (LoadedNode node (top (PSegment es))).
Proof.
  intros [Hu Hb Hh Hs (node' & Hl & Hst & E)] Hl'. rewrite Hl in Hl'. injection Hl' as <-.
  split; try done; [simpl; unfold hash; by rewrite E|]. by exists node'.
Qed.

(** ** [expand_at] *)
(** A list of subtrees of the trees [W], with the indices expanded so far. *)
Record frontier W ps tree : Prop := {
  frontier_srepr : Forall2 srepr ps (nodes tree);
  frontier_sorted : sorted (flattens ps);
  frontier_within b : b ∈ sealeds ps -> b ∈ sealeds W;
  frontier_expanded b : b ∈ buffer <$> expanded tree -> b ∈ sealeds W
}.
Definition accounted ps tree (b : bytes) : Prop := b ∈ sealeds ps \/ b ∈ buffer <$> expanded tree.

(** The frontier after an expansion: the same entries, and a smaller frontier
    if an index was expanded; else only segments were loaded. *)
Record advanced W ps tree ps' tree' (grew : bool) : Prop := {
  advanced_frontier : frontier W ps' tree';
  advanced_entries : flattens ps' = flattens ps;
  advanced_smaller : if grew then (costs ps' < costs ps)%nat else ps' = ps;
  advanced_accounted b : accounted ps tree b -> accounted ps' tree' b
}.

Lemma advanced_refl W ps tree : frontier W ps tree -> advanced W ps tree ps tree false.
Proof. intros Hf. by split. Qed.

Lemma position_from_spec ps ns bound at_ :
  Forall2 srepr ps ns ->
  match position_from ns bound at_ with
  | None => Forall (fun p => top p ≺ bound) ps
  | Some i => exists pl p pr nl n nr,
      ps = pl ++ p :: pr /\ ns = nl ++ n :: nr /\ length nl = length pl /\ i = (at_ + length nl)%nat /\
      Forall2 srepr pl nl /\ srepr p n /\ Forall2 srepr pr nr /\
      Forall (fun p => top p ≺ bound) pl /\ bound ≼ top p
  end.
Proof.
  intros Hall. revert at_; induction Hall as [|p n ps ns Hp Hall IH]; intros at_; simpl; [constructor|].
  rewrite (srepr_bound _ _ Hp). destruct (oleb bound (top p)) eqn:E.
  - exists [], p, ps, [], n, ns. split_and!; simpl; try done; try lia; by apply oleb_spec.
  - apply oleb_false in E.
    specialize (IH (S at_)). destruct (position_from ns bound (S at_)); [|by constructor].
    destruct IH as (pl & q & pr & nl & m & nr & -> & -> & Hlen & -> & Hl & Hm & Hr & Hlts & Hle).
    exists (p :: pl), q, pr, (n :: nl), m, nr. split_and!; try done; try (by constructor); simpl; lia.
Qed.

Lemma frontier_replace W pl p pr qs tree nl n nr ms ex :
  frontier W (pl ++ p :: pr) tree -> nodes tree = nl ++ n :: nr -> length nl = length pl ->
  Forall2 srepr qs ms -> flattens qs = flatten p ->
  (forall b, b ∈ sealeds qs -> b ∈ sealed p) -> (forall node, node ∈ ex -> buffer node ∈ sealed p) ->
  frontier W (pl ++ qs ++ pr) (mkSparseTree (nl ++ ms ++ nr) (expanded tree ++ ex)).
Proof.
  intros [Hn Hs Hin Hex] E Hlen Hqs Eq Hsub Hexp. rewrite E in Hn.
  apply Forall2_app_inv in Hn as [Hl [_ Hr]%Forall2_cons]; [|done].
  rewrite sealeds_app, sealeds_cons in Hin. split; cbn [nodes expanded].
  - by repeat apply Forall2_app.
  - by rewrite !flattens_app, Eq in *.
  - intros b. rewrite !sealeds_app. set_solver.
  - intros b. rewrite fmap_app. intros [Hb|Hb]%elem_of_app; [auto|].
    apply list_elem_of_fmap in Hb as (node & -> & Hb). set_solver.
Qed.

Definition is_segment p : Prop := match p with PSegment _ => True | PIndex _ => False end.

Lemma first_split_unique (Q : ptree K V -> Prop) pl p pr pl' p' pr' :
  pl ++ p :: pr = pl' ++ p' :: pr' -> Forall Q pl -> ~ Q p -> Forall Q pl' -> ~ Q p' -> p = p'.
Proof.
  revert pl'; induction pl as [|x pl IH]; intros [|y pl']; simpl; intros [= -> E] Hl Hp Hl' Hp'; try done.
  - by apply Forall_cons in Hl' as [? _].
  - by apply Forall_cons in Hl as [? _].
  - apply Forall_cons in Hl as [_ Hl], Hl' as [_ Hl']. by eapply IH.
Qed.

(** The trees left of a frontier node end before it. *)
Lemma frontier_tops W pl p pr tree :
  frontier W (pl ++ p :: pr) tree -> Forall (fun q => top q ≺ top p) pl.
Proof.
  intros [Hn Hs _ _]. apply Forall2_app_inv_l in Hn as (nl & nr & Hl & Hr & _).
  inversion Hr as [|? n ? nr' Hp _]; subst. destruct (srepr_uniform _ _ Hp) as (h & Hu).
  pose proof (top_spec h p Hu) as (e & He & Ee)%last_key_Some.
  rewrite flattens_app, flattens_cons in Hs. apply sorted_app in Hs as (_ & _ & Hlt).
  apply Forall_forall. intros q Hq.
  apply list_elem_of_lookup in Hq as (i & Hi).
  destruct (Forall2_lookup_l _ _ _ _ _ Hl Hi) as (m & _ & Hm).
  destruct (srepr_uniform _ _ Hm) as (hq & Huq).
  pose proof (top_spec hq q Huq) as (e' & He' & Ee')%last_key_Some. rewrite <- Ee, <- Ee'.
  apply Hlt; [|set_solver]. unfold flattens. apply elem_of_concat. exists (flatten q).
  split; [|done]. apply list_elem_of_fmap. exists q. split; [done|]. by eapply list_elem_of_lookup_2.
Qed.

(** No index is expanded only if the first tree that reaches the bound is a
    segment. *)
Lemma expand_at_spec W ps tree bound :
  frontier W ps tree ->
  exists ps' tree' grew, expand_at (V := V) acc bound tree = Ok (tree', grew) /\
    advanced W ps tree ps' tree' grew /\
    (grew = false -> forall pl p pr, ps = pl ++ p :: pr ->
       Forall (fun q => top q ≺ bound) pl -> bound ≼ top p -> is_segment p).
Proof.
  intros Hf. unfold expand_at.
  pose proof (position_from_spec ps (nodes tree) bound 0 (frontier_srepr _ _ _ Hf)) as Hpos.
  destruct (position_from _ _ _) as [i|]; cycle 1.
  { exists ps, tree, false. split_and!; [done|by apply advanced_refl|]. intros _ pl p pr -> _ Hle.
    apply Forall_app in Hpos as [_ [Hlt _]%Forall_cons]. order. }
  destruct Hpos as (pl & p & pr & nl & n & nr & -> & E & Hlen & -> & Hl & Hn & Hr & Hlt & Hle).
  unfold index_or_panic. rewrite E, list_lookup_middle by done. cbn [mbind outcome_bind].
  destruct (srepr_node _ _ Hn) as (node & Hload & Hst & Ebuf). rewrite Hload. cbn [mbind outcome_bind].
  destruct p as [es|qs].
  - simpl in Hst. rewrite Hst. cbn [mbind outcome_bind].
    destruct (srepr_uniform _ _ Hn) as (h & Hu).
    rewrite (body_upper_bound_of h (PSegment es)) by done. cbn [mbind outcome_bind].
    eexists (pl ++ [PSegment es] ++ pr), _, false. split; [done|]. split; cycle 1.
    { intros _ pl' p' pr' Esplit Hlt' Hle'.
      rewrite <- (first_split_unique (fun q => top q ≺ bound) _ _ _ _ _ _ Esplit); try done;
        intros Hlt2; order. }
    rewrite Nat.add_0_l, list_insert_mid.
    pose proof (frontier_replace W pl (PSegment es) pr [PSegment es] tree nl n nr
                  [LoadedNode node (top (PSegment es))] [] Hf E Hlen) as Hf'.
    rewrite app_nil_r in Hf'. split; try done.
    apply Hf'; [constructor; [by eapply srepr_loaded|done]|by rewrite flattens_single| |set_solver].
    intros b. rewrite sealeds_cons. set_solver.
  - pose proof Hst as (links & Hb & _). rewrite Hb. cbn [mbind outcome_bind].
    eexists (pl ++ qs ++ pr), _, true. split; [done|]. split; [|done].
    assert (splice (nl ++ n :: nr) (0 + length nl) (0 + length nl + 1) (Ref <$> links)
            = nl ++ (Ref <$> links) ++ nr) as ->.
    { unfold splice. rewrite Nat.add_0_l, take_app_length, drop_app_add. done. }
    split.
    + apply (frontier_replace W pl (PIndex qs) pr qs tree nl n nr); try done.
      * eapply srepr_children; [apply (srepr_uniform _ _ Hn)|done|done].
      * by rewrite flatten_index.
      * intros b. rewrite sealed_index. set_solver.
      * intros node' ->%list_elem_of_singleton. rewrite Ebuf. apply sealed_self.
    + by rewrite !flattens_app, flattens_cons, flatten_index.
    + rewrite !costs_app, costs_cons, cost_index. lia.
    + intros b. unfold accounted. cbn [expanded]. rewrite !sealeds_app, sealeds_cons, sealed_index, fmap_app.
      csimpl. rewrite Ebuf. set_solver.
Qed.
End frontier.

(** ** Both frontiers *)
Section both.
Context {K V : Type} `{Key K} `{NodeCodec K V} `{Blake3} {D : Distribution}.
Context (Htotal : codec_total (K := K) (V := V)).
Context (accS accT : Accessor).
Context (HwsS : well_stored (K := K) (V := V) accS) (HwsT : well_stored (K := K) (V := V) accT).
Context (P : bytes -> Prop) (Hcf : collision_free P).
Context (HPS : forall h node, accS h = Ok node -> P (buffer node)).
Context (HPT : forall h node, accT h = Ok node -> P (buffer node)).
(** The two trees; an empty tree is an empty list. *)
Context (WS WT : list (ptree K V)).
Implicit Types (p q : ptree K V) (ps pt cs : list (ptree K V)) (src tgt : SparseTree K).

(** Nodes with the same hash are the same tree. *)
Lemma srepr_hash_eq p q n m :
  srepr accS P p n -> srepr accT P q m -> sparse_hash n = sparse_hash m -> p = q.
Proof.
  intros Hp Hq E. rewrite (srepr_hash _ _ _ _ Hp), (srepr_hash _ _ _ _ Hq) in E.
  pose proof (srepr_sealed _ _ _ _ Hp) as HsP. pose proof (srepr_sealed _ _ _ _ Hq) as HsQ.
  apply (ser_inj Htotal P); try done. rewrite Forall_forall in HsP, HsQ.
  apply (proj1 Hcf); auto using sealed_self.
Qed.

(** What is kept of each side, and the subtrees dropped from both. *)
Definition prunes ps pt ps' pt' : Prop :=
  exists cs, ps ≡ₚ cs ++ ps' /\ pt ≡ₚ cs ++ pt' /\ ps' `sublist_of` ps /\ pt' `sublist_of` pt.

Lemma prunes_keep_l p ps pt ps' pt' : prunes ps pt ps' pt' -> prunes (p :: ps) pt (p :: ps') pt'.
Proof.
  intros (cs & Es & Et & Hs & Ht). exists cs. split_and!; [|done|by constructor|done].
  rewrite Es. apply Permutation_middle.
Qed.
Lemma prunes_keep_r q ps pt ps' pt' : prunes ps pt ps' pt' -> prunes ps (q :: pt) ps' (q :: pt').
Proof.
  intros (cs & Es & Et & Hs & Ht). exists cs. split_and!; [done| |done|by constructor].
  rewrite Et. apply Permutation_middle.
Qed.
Lemma prunes_drop p ps pt ps' pt' : prunes ps pt ps' pt' -> prunes (p :: ps) (p :: pt) ps' pt'.
Proof.
  intros (cs & Es & Et & Hs & Ht). exists (p :: cs).
  split_and!; [by rewrite Es|by rewrite Et|by constructor|by constructor].
Qed.
Lemma prunes_refl ps pt : prunes ps pt ps pt.
Proof. by exists []. Qed.

Lemma pruned_spec ps l : Forall2 (srepr accS P) ps l -> forall pt r, Forall2 (srepr accT P) pt r ->
  exists ps' pt', Forall2 (srepr accS P) ps' (pruned l r).1 /\ Forall2 (srepr accT P) pt' (pruned l r).2 /\
    prunes ps pt ps' pt'.
Proof.
  induction 1 as [|p n ps l Hp Hl IHl].
  { intros pt r Hr. exists [], pt. split_and!; [constructor|done|apply prunes_refl]. }
  induction 1 as [|q m pt r Hq Hr IHr].
  { exists (p :: ps), []. split_and!; [by constructor|constructor|apply prunes_refl]. }
  assert (pruned (n :: l) (m :: r) =
    match cmp (sparse_upper_bound n) (sparse_upper_bound m) with
    | Lt => let '(a, b) := pruned l (m :: r) in (n :: a, b)
    | Gt => let '(a, b) := pruned (n :: l) r in (a, m :: b)
    | Eq => if decide (sparse_hash n <> sparse_hash m)
            then let '(a, b) := pruned l r in (n :: a, m :: b) else pruned l r
    end) as -> by done.
  destruct (cmp (sparse_upper_bound n) (sparse_upper_bound m)).
  - destruct (IHl pt r Hr) as (ps' & pt' & Hs & Ht & Hprune). case_decide as Hh.
    + destruct (pruned l r) as [a b]; simpl in *. exists (p :: ps'), (q :: pt').
      split_and!; [by constructor|by constructor|]. by apply prunes_keep_l, prunes_keep_r.
    + assert (p = q) as -> by by eapply srepr_hash_eq.
      exists ps', pt'. split_and!; [done|done|by apply prunes_drop].
  - destruct (IHl (q :: pt) (m :: r)) as (ps' & pt' & Hs & Ht & Hprune); [by constructor|].
    destruct (pruned l (m :: r)) as [a b]; simpl in *. exists (p :: ps'), pt'.
    split_and!; [by constructor|done|by apply prunes_keep_l].
  - destruct IHr as (ps' & pt' & Hs & Ht & Hprune).
    destruct (pruned (n :: l) r) as [a b]; simpl in *. exists ps', (q :: pt').
    split_and!; [done|by constructor|by apply prunes_keep_r].
Qed.

(** The entries outside both frontiers are common to both trees; every node of
    the target is in the source, expanded, or below the frontier. *)
Record differing ps src pt tgt : Prop := {
  differing_source : frontier accS P WS ps src;
  differing_target : frontier accT P WT pt tgt;
  differing_common : exists common,
    flattens WS ≡ₚ common ++ flattens ps /\ flattens WT ≡ₚ common ++ flattens pt;
  differing_novel b : b ∈ sealeds WT -> b ∈ sealeds WS \/ accounted pt tgt b
}.

Lemma prune_frontier acc W ps ps' tree ns :
  frontier acc P W ps tree -> ps' `sublist_of` ps -> Forall2 (srepr acc P) ps' ns ->
  (forall b, b ∈ sealeds ps' -> b ∈ sealeds ps) ->
  frontier acc P W ps' (mkSparseTree ns (expanded tree)).
Proof.
  intros [Hn Hs Hin Hex] Hsub Hns Hsealed. split; [done| |eauto|done].
  eapply sorted_sublist; [by apply flattens_sublist|done].
Qed.

Lemma prune_differing ps src pt tgt :
  differing ps src pt tgt ->
  exists ps' pt' src' tgt', prune src tgt = (src', tgt') /\ differing ps' src' pt' tgt' /\
    (costs ps' + costs pt' <= costs ps + costs pt)%nat.
Proof.
  intros [HS HT (common & ES & ET) Hnov]. unfold prune. rewrite prune_nodes_spec.
  destruct (pruned_spec ps (nodes src) (frontier_srepr _ _ _ _ _ HS) pt (nodes tgt)
              (frontier_srepr _ _ _ _ _ HT)) as (ps' & pt' & Hs & Ht & cs & Eps & Ept & HsubS & HsubT).
  destruct (pruned (nodes src) (nodes tgt)) as [l r]. simpl in Hs, Ht.
  assert (forall b, b ∈ sealeds ps' -> b ∈ sealeds ps) as HinS.
  { intros b. rewrite Eps, sealeds_app. set_solver. }
  assert (forall b, b ∈ sealeds pt' -> b ∈ sealeds pt) as HinT.
  { intros b. rewrite Ept, sealeds_app. set_solver. }
  eexists ps', pt', _, _. split; [done|]. split.
  - split.
    + by eapply prune_frontier.
    + by eapply prune_frontier.
    + exists (common ++ flattens cs). rewrite ES, ET, Eps, Ept, !flattens_app, !app_assoc. done.
    + intros b Hb. destruct (Hnov b Hb) as [Hb'|[Hb'|Hb']]; [by left| |by right; right].
      rewrite Ept, sealeds_app in Hb'. apply elem_of_app in Hb' as [Hb'|Hb']; [left|by right; left].
      apply (frontier_within _ _ _ _ _ HS). rewrite Eps, sealeds_app. set_solver.
  - pose proof (costs_sublist _ _ HsubS). pose proof (costs_sublist _ _ HsubT). lia.
Qed.

Lemma advance_source ps src pt tgt ps' src' grew :
  differing ps src pt tgt -> advanced accS P WS ps src ps' src' grew -> differing ps' src' pt tgt.
Proof. intros [HS HT Hc Hn] [HS' E _ _]. split; [done|done|by rewrite E|done]. Qed.
Lemma advance_target ps src pt tgt pt' tgt' grew :
  differing ps src pt tgt -> advanced accT P WT pt tgt pt' tgt' grew -> differing ps src pt' tgt'.
Proof.
  intros [HS HT Hc Hn] [HT' E _ Ha]. split; [done|done|by rewrite E|].
  intros b Hb. destruct (Hn b Hb); auto.
Qed.
Lemma frontier_lookup acc W ps tree i n :
  frontier acc P W ps tree -> nodes tree !! i = Some n -> (i < length ps)%nat.
Proof.
  intros Hf Hi. rewrite (Forall2_length _ _ _ (frontier_srepr _ _ _ _ _ Hf)).
  by eapply lookup_lt_Some.
Qed.

(** The state a pass over the frontiers leaves. *)
Definition passed ps pt src' tgt' (grew : bool) : Prop :=
  exists ps' pt', differing ps' src' pt' tgt' /\
    if grew then (costs ps' + costs pt' < costs ps + costs pt)%nat else ps' = ps /\ pt' = pt.

Lemma scan_loop_spec fuel : forall ps src pt tgt si ti,
  differing ps src pt tgt ->
  ((length ps - si) + (length pt - ti) < fuel)%nat ->
  exists src' tgt' grew, scan_loop (V := V) accS accT fuel src tgt si ti = Ok (src', tgt', grew) /\
    passed ps pt src' tgt' grew.
Proof.
  induction fuel as [|fuel IH]; intros ps src pt tgt si ti Hd Hf; [lia|]. cbn [scan_loop].
  destruct (nodes src !! si) as [s|] eqn:Es; [|by exists src, tgt, false; split; [|exists ps, pt]].
  destruct (nodes tgt !! ti) as [t|] eqn:Et; [|by exists src, tgt, false; split; [|exists ps, pt]].
  pose proof (frontier_lookup _ _ _ _ _ _ (differing_source _ _ _ _ Hd) Es) as Hsi.
  pose proof (frontier_lookup _ _ _ _ _ _ (differing_target _ _ _ _ Hd) Et) as Hti.
  destruct (expand_at_spec Htotal accS HwsS P HPS WS ps src (sparse_upper_bound s) (differing_source _ _ _ _ Hd))
    as (ps1 & src1 & g1 & E1 & Ha1 & _).
  destruct (expand_at_spec Htotal accS HwsS P HPS WS ps src (sparse_upper_bound t) (differing_source _ _ _ _ Hd))
    as (ps2 & src2 & g2 & E2 & Ha2 & _).
  destruct (expand_at_spec Htotal accT HwsT P HPT WT pt tgt (sparse_upper_bound s) (differing_target _ _ _ _ Hd))
    as (pt1 & tgt1 & g3 & E3 & Ha3 & _).
  destruct (expand_at_spec Htotal accT HwsT P HPT WT pt tgt (sparse_upper_bound t) (differing_target _ _ _ _ Hd))
    as (pt2 & tgt2 & g4 & E4 & Ha4 & _).
  destruct (cmp (sparse_upper_bound s) (sparse_upper_bound t)).
  - case_decide; [|apply IH; [done|lia]]. rewrite E1. cbn [mbind outcome_bind]. rewrite E4.
    cbn [mbind outcome_bind]. pose proof (advance_target _ _ _ _ _ _ _ (advance_source _ _ _ _ _ _ _ Hd Ha1) Ha4) as Hd'.
    destruct (g1 || g4) eqn:Eg.
    + exists src1, tgt2, true. split; [done|]. exists ps1, pt2. split; [done|].
      pose proof (advanced_smaller _ _ _ _ _ _ _ _ Ha1). pose proof (advanced_smaller _ _ _ _ _ _ _ _ Ha4).
      destruct g1, g4; try done; subst; lia.
    + apply orb_false_iff in Eg as [-> ->].
      pose proof (advanced_smaller _ _ _ _ _ _ _ _ Ha1) as ->. pose proof (advanced_smaller _ _ _ _ _ _ _ _ Ha4) as ->.
      apply IH; [done|lia].
  - rewrite E3. cbn [mbind outcome_bind]. pose proof (advance_target _ _ _ _ _ _ _ Hd Ha3) as Hd'.
    pose proof (advanced_smaller _ _ _ _ _ _ _ _ Ha3) as Hsm. destruct g3.
    + exists src, tgt1, true. split; [done|]. exists ps, pt1. split; [done|lia].
    + subst pt1. apply IH; [done|lia].
  - rewrite E2. cbn [mbind outcome_bind]. pose proof (advance_source _ _ _ _ _ _ _ Hd Ha2) as Hd'.
    pose proof (advanced_smaller _ _ _ _ _ _ _ _ Ha2) as Hsm. destruct g2.
    + exists src2, tgt, true. split; [done|]. exists ps2, pt. split; [done|lia].
    + subst ps2. apply IH; [done|lia].
Qed.

Lemma fixpoint_loop_spec fuel scan_fuel : forall ps src pt tgt,
  differing ps src pt tgt -> (costs ps + costs pt < fuel)%nat -> (costs ps + costs pt < scan_fuel)%nat ->
  exists ps' pt' src' tgt', fixpoint_loop (V := V) accS accT fuel scan_fuel src tgt = Ok (src', tgt') /\
    differing ps' src' pt' tgt' /\ (costs ps' + costs pt' <= costs ps + costs pt)%nat.
Proof.
  induction fuel as [|fuel IH]; intros ps src pt tgt Hd Hf Hsf; [lia|]. cbn [fixpoint_loop].
  destruct (prune_differing ps src pt tgt Hd) as (ps1 & pt1 & src1 & tgt1 & -> & Hd1 & Hle).
  destruct (scan_loop_spec scan_fuel ps1 src1 pt1 tgt1 0 0 Hd1) as (src2 & tgt2 & grew & -> & ps2 & pt2 & Hd2 & Hsm).
  { pose proof (length_costs ps1). pose proof (length_costs pt1). lia. }
  cbn [mbind outcome_bind]. destruct grew.
  - destruct (IH ps2 src2 pt2 tgt2 Hd2) as (ps3 & pt3 & src3 & tgt3 & E & Hd3 & Hle3); [lia|lia|].
    exists ps3, pt3, src3, tgt3. split_and!; [done|done|lia].
  - destruct Hsm as [-> ->]. exists ps1, pt1, src2, tgt2. done.
Qed.

(** ** The remaining target indices *)
Lemma expand_each_spec count : forall ps src pt tgt index,
  differing ps src pt tgt -> (index + count)%nat = length pt -> Forall is_segment (take index pt) ->
  exists pt' tgt' grew, expand_each (V := V) accT index count tgt = Ok (tgt', grew) /\
    differing ps src pt' tgt' /\
    if grew then (costs pt' < costs pt)%nat else pt' = pt /\ Forall is_segment pt.
Proof.
  induction count as [|count IH]; intros ps src pt tgt index Hd Hlen Hseg; cbn [expand_each].
  { exists pt, tgt, false. split_and!; [done..|].
    by rewrite take_ge in Hseg by lia. }
  pose proof (differing_target _ _ _ _ Hd) as Hft.
  pose proof (frontier_srepr _ _ _ _ _ Hft) as Hnodes.
  destruct (lookup_lt_is_Some_2 pt index) as [p Hp]; [lia|].
  destruct (Forall2_lookup_l _ _ _ _ _ Hnodes Hp) as (n & Hn & Hpn).
  unfold index_or_panic. rewrite Hn. cbn [mbind outcome_bind]. rewrite (srepr_bound _ _ _ _ Hpn).
  destruct (expand_at_spec Htotal accT HwsT P HPT WT pt tgt (top p) Hft) as (pt1 & tgt1 & g & -> & Ha & Hstop).
  cbn [mbind outcome_bind]. pose proof (advance_target _ _ _ _ _ _ _ Hd Ha) as Hd'.
  pose proof (advanced_smaller _ _ _ _ _ _ _ _ Ha) as Hsm. destruct g; [by exists pt1, tgt1, true|].
  subst pt1. apply IH; [done|lia|]. rewrite (take_S_r _ _ _ Hp). apply Forall_app. split; [done|].
  constructor; [|constructor]. pose proof (take_drop_middle _ _ _ Hp) as E.
  apply (Hstop eq_refl (take index pt) p (drop (S index) pt)); [done| |order].
  rewrite <- E in Hft. by eapply frontier_tops.
Qed.

Lemma expand_rest_spec fuel : forall ps src pt tgt,
  differing ps src pt tgt -> (costs pt < fuel)%nat ->
  exists pt' tgt', expand_rest (V := V) accT fuel tgt = Ok tgt' /\
    differing ps src pt' tgt' /\ Forall is_segment pt' /\ (costs pt' <= costs pt)%nat.
Proof.
  induction fuel as [|fuel IH]; intros ps src pt tgt Hd Hf; [lia|]. cbn [expand_rest].
  rewrite <- (Forall2_length _ _ _ (frontier_srepr _ _ _ _ _ (differing_target _ _ _ _ Hd))).
  destruct (expand_each_spec (length pt) ps src pt tgt 0 Hd eq_refl) as (pt1 & tgt1 & g & -> & Hd1 & Hg);
    [constructor|]. cbn [mbind outcome_bind]. destruct g.
  - destruct (IH ps src pt1 tgt1 Hd1) as (pt2 & tgt2 & E & Hd2 & Hs & Hle); [lia|].
    exists pt2, tgt2. split_and!; [done|done|done|lia].
  - destruct Hg as [-> Hs]. by exists pt, tgt1.
Qed.
End both.
