(* ===== verification/DifferentialCorrect.v ===== *)
(** Correctness of differentiation: the changes are exactly the difference of the
    two contents, applying them to the source gives the target, and the novel
    nodes are enough to materialize the target. *)
From S2P Require Import Prelude Common Nodes SortedEntries Forest Walker TransientTree Instances Repr Spine Fuse Edits Batch Persist Read Integrate Differential Frontier.

(** ** The difference of two lists of entries *)
Section diff.
Context {K V : Type} `{Key K} `{Blake3} `{EqDecision V}.
Implicit Types (s t es : list (Entry K V)) (e x y : Entry K V) (c : Change K V).

Fixpoint diff_entries s : list (Entry K V) -> list (Change K V) :=
  match s with
  | [] => fun t => Add <$> t
  | x :: s' =>
      fix go t :=
        match t with
        | [] => Remove <$> (x :: s')
        | y :: t' =>
            match cmp (key x) (key y) with
            | Lt => Remove x :: diff_entries s' (y :: t')
            | Gt => Add y :: go t'
            | Eq => if decide (value x <> value y)
                    then Remove x :: Add y :: diff_entries s' t' else diff_entries s' t'
            end
        end
  end.

Lemma diff_entries_cons x s y t :
  diff_entries (x :: s) (y :: t) =
  match cmp (key x) (key y) with
  | Lt => Remove x :: diff_entries s (y :: t)
  | Gt => Add y :: diff_entries (x :: s) t
  | Eq => if decide (value x <> value y)
          then Remove x :: Add y :: diff_entries s t else diff_entries s t
  end.
Proof. done. Qed.

Lemma merge_ind (Q : list (Entry K V) -> list (Entry K V) -> Prop) :
  (forall t, Q [] t) -> (forall x s, Q (x :: s) []) ->
  (forall x s y t, Q s (y :: t) -> Q (x :: s) t -> Q s t -> Q (x :: s) (y :: t)) ->
  forall s t, Q s t.
Proof. intros Hl Hr Hs. induction s as [|x s IHs]; [done|]. induction t as [|y t IHt]; auto. Qed.

(** The comparison of two streams without errors. *)
Lemma two_cursor_nil_l t fuel :
  (length t < fuel)%nat -> two_cursor fuel [] (Ok <$> t) = Ok <$> (Add <$> t).
Proof.
  revert fuel; induction t as [|y t IH]; intros [|fuel] Hf; simpl in Hf; try lia; [done|].
  csimpl. rewrite <- (IH fuel) by lia. by destruct t.
Qed.
Lemma two_cursor_nil_r s fuel :
  (length s < fuel)%nat -> two_cursor fuel (Ok <$> s) [] = Ok <$> (Remove <$> s).
Proof.
  revert fuel; induction s as [|x s IH]; intros [|fuel] Hf; simpl in Hf; try lia; [done|].
  csimpl. by rewrite <- (IH fuel) by lia.
Qed.
Lemma two_cursor_spec s t : forall fuel,
  (length s + length t < fuel)%nat ->
  two_cursor fuel (Ok <$> s) (Ok <$> t) = Ok <$> diff_entries s t.
Proof.
  revert s t. refine (merge_ind _ _ _ _).
  - intros t fuel Hf. by apply two_cursor_nil_l.
  - intros x s fuel Hf. apply two_cursor_nil_r. simpl in *; lia.
  - intros x s y t IHl IHr IHb [|fuel] Hf; [lia|]. rewrite diff_entries_cons. csimpl. simpl in Hf.
    destruct (cmp (key x) (key y)); [case_decide|..]; csimpl.
    + by rewrite IHb by lia.
    + by rewrite IHb by lia.
    + f_equal. apply (IHl fuel). simpl; lia.
    + f_equal. apply (IHr fuel). simpl; lia.
Qed.

(** ** What the difference contains *)
Lemma diff_entries_elem s t :
  sorted s -> sorted t ->
  forall e, (Remove e ∈ diff_entries s t <-> e ∈ s /\ e ∉ t) /\ (Add e ∈ diff_entries s t <-> e ∈ t /\ e ∉ s).
Proof.
  revert s t. refine (merge_ind _ _ _ _).
  - intros t _ _ e. simpl. rewrite !list_elem_of_fmap. set_solver.
  - intros x s _ _ e. change (diff_entries (x :: s) []) with (Remove <$> (x :: s)). rewrite !list_elem_of_fmap. set_solver.
  - intros x s y t IHl IHr IHb Hs Ht e. rewrite diff_entries_cons.
    pose proof Hs as [Hs' Hx]%sorted_cons. pose proof Ht as [Ht' Hy]%sorted_cons.
    assert (forall z, key z ≺ key x -> z ∉ x :: s) as Hnx.
    { intros z Hz [->|Hin]%elem_of_cons; [order|]. specialize (Hx _ Hin). order. }
    assert (forall z, key z ≺ key y -> z ∉ y :: t) as Hny.
    { intros z Hz [->|Hin]%elem_of_cons; [order|]. specialize (Hy _ Hin). order. }
    assert (x ∉ s) as Hxs by (intros Hin; specialize (Hx _ Hin); order).
    assert (y ∉ t) as Hyt by (intros Hin; specialize (Hy _ Hin); order).
    destruct (cmp (key x) (key y)) eqn:Ec.
    + apply cmp_eq in Ec. destruct (IHb Hs' Ht' e) as [HR HA].
      assert (x ∉ t) by (intros Hin; specialize (Hy _ Hin); rewrite Ec in Hy; order).
      assert (y ∉ s) by (intros Hin; specialize (Hx _ Hin); rewrite Ec in Hx; order).
      case_decide as Hv.
      * rewrite !elem_of_cons, HR, HA. assert (x <> y) by naive_solver. clear -Hxs Hyt H1 H2 H3. naive_solver.
      * assert (x = y) as -> by (destruct x, y; simpl in *; congruence).
        rewrite !elem_of_cons, HR, HA. clear -Hxs Hyt. naive_solver.
    + destruct (IHl Hs' Ht e) as [HR HA]. pose proof (Hny x Ec) as Hxt.
      rewrite !elem_of_cons, HR, HA, !elem_of_cons.
      rewrite elem_of_cons in Hxt. clear -Hxs Hxt. naive_solver.
    + apply cmp_gt in Ec. destruct (IHr Hs Ht' e) as [HR HA]. pose proof (Hnx y Ec) as Hyx.
      rewrite !elem_of_cons, HR, HA, !elem_of_cons.
      rewrite elem_of_cons in Hyx. clear -Hyt Hyx. naive_solver.
Qed.

(** Changes come in key order, a removal before the addition at its key. *)
Definition change_key c : K := match c with Add e | Remove e => key e end.
Definition change_lt c1 c2 : Prop :=
  change_key c1 ≺ change_key c2 \/
  match c1, c2 with Remove e1, Add e2 => key e1 = key e2 | _, _ => False end.
Definition ordered : list (Change K V) -> Prop := StronglySorted change_lt.

Lemma diff_entries_keys s t c :
  c ∈ diff_entries s t -> exists e, e ∈ s ++ t /\ change_key c = key e.
Proof.
  revert s t. refine (merge_ind _ _ _ _).
  - intros t (e & -> & He)%list_elem_of_fmap. exists e. set_solver.
  - intros x s (e & -> & He)%list_elem_of_fmap. exists e. set_solver.
  - intros x s y t IHl IHr IHb Hc. rewrite diff_entries_cons in Hc.
    destruct (cmp (key x) (key y)); [case_decide|..]; rewrite ?elem_of_cons in Hc.
    + destruct Hc as [->|[->|Hc]]; [exists x; set_solver|exists y; set_solver|].
      destruct (IHb Hc) as (e & He & Ee). exists e. set_solver.
    + destruct (IHb Hc) as (e & He & Ee). exists e. set_solver.
    + destruct Hc as [->|Hc]; [exists x; set_solver|].
      destruct (IHl Hc) as (e & He & Ee). exists e. set_solver.
    + destruct Hc as [->|Hc]; [exists y; set_solver|].
      destruct (IHr Hc) as (e & He & Ee). exists e. set_solver.
Qed.

Lemma ordered_cons c cs :
  ordered cs -> (forall c', c' ∈ cs -> change_lt c c') -> ordered (c :: cs).
Proof. intros Hs Hc. constructor; [done|]. by apply Forall_forall. Qed.

Lemma ordered_same_kind (f : Entry K V -> Change K V) es :
  (forall e, change_key (f e) = key e) -> sorted es -> ordered (f <$> es).
Proof.
  intros Hf. induction es as [|e es IH]; intros Hs; [constructor|].
  apply sorted_cons in Hs as [Hs Hlt]. csimpl. apply ordered_cons; [by apply IH|].
  intros c (x & -> & Hx)%list_elem_of_fmap. left. rewrite !Hf. auto.
Qed.

Lemma diff_entries_ordered s t : sorted s -> sorted t -> ordered (diff_entries s t).
Proof.
  revert s t. refine (merge_ind _ _ _ _).
  - intros t _ Ht. by apply ordered_same_kind.
  - intros x s Hs _. by apply (ordered_same_kind Remove (x :: s)).
  - intros x s y t IHl IHr IHb Hs Ht. rewrite diff_entries_cons.
    pose proof Hs as [Hs' Hx]%sorted_cons. pose proof Ht as [Ht' Hy]%sorted_cons.
    destruct (cmp (key x) (key y)) eqn:Ec.
    + apply cmp_eq in Ec. assert (forall c, c ∈ diff_entries s t -> key y ≺ change_key c) as Hlt.
      { intros c (e & He & ->)%diff_entries_keys. apply elem_of_app in He as [He|He]; [rewrite <- Ec|]; auto. }
      case_decide; [|by apply IHb]. apply ordered_cons; [apply ordered_cons; [by apply IHb|]|].
      * intros c Hc. left. by apply Hlt.
      * intros c [->|Hc]%elem_of_cons; [by right|]. left. simpl. rewrite Ec. by apply Hlt.
    + apply ordered_cons; [by apply IHl|]. intros c (e & He & Ee)%diff_entries_keys. left. rewrite Ee. simpl.
      rewrite elem_of_app, elem_of_cons in He. destruct He as [He|[->|He]]; [by apply Hx|done|].
      specialize (Hy _ He). change (key x ≺ key y) in Ec. order.
    + apply cmp_gt in Ec. apply ordered_cons; [by apply IHr|].
      intros c (e & He & Ee)%diff_entries_keys. left. rewrite Ee. simpl.
      rewrite elem_of_app, elem_of_cons in He. destruct He as [[->|He]|He]; [done| |by apply Hy].
      specialize (Hx _ He). order.
Qed.

(** Ordered changes are determined by what they contain. *)
Lemma change_lt_asym c1 c2 : change_lt c1 c2 -> ~ change_lt c2 c1.
Proof.
  unfold change_lt. intros [H1|H1] [H2|H2]; destruct c1, c2; simpl in *; try done;
    try (rewrite ?H1 in *; rewrite ?H2 in *); order.
Qed.
Lemma ordered_NoDup cs : ordered cs -> NoDup cs.
Proof.
  induction 1 as [|c cs Hs IH Hc]; constructor; [|done]. intros Hin.
  rewrite Forall_forall in Hc. by eapply change_lt_asym; apply Hc.
Qed.
Lemma ordered_unique cs1 cs2 :
  ordered cs1 -> ordered cs2 -> (forall c, c ∈ cs1 <-> c ∈ cs2) -> cs1 = cs2.
Proof.
  intros H1 H2 E. apply (StronglySorted_unique_strong change_lt); [|done|done|].
  - intros c1 c2 _ _ Hlt Hgt. by apply change_lt_asym in Hlt.
  - apply NoDup_Permutation; auto using ordered_NoDup.
Qed.

(** The difference only depends on the entries that are not common. *)
Lemma sorted_NoDup es : sorted es -> NoDup es.
Proof.
  induction es as [|e es IH]; [constructor|]. intros [Hs Hlt]%sorted_cons. constructor; [|auto].
  intros Hin. specialize (Hlt _ Hin). order.
Qed.
Lemma elem_common (S common s : list (Entry K V)) e :
  sorted S -> S ≡ₚ common ++ s -> (e ∈ S <-> e ∈ common \/ e ∈ s) /\ (e ∈ common -> e ∉ s).
Proof.
  intros HS E. split; [by rewrite E, elem_of_app|]. pose proof (sorted_NoDup _ HS) as Hnd.
  rewrite E in Hnd. apply NoDup_app in Hnd as (_ & Hnd & _). apply Hnd.
Qed.
Lemma diff_entries_common (S T s t common : list (Entry K V)) :
  sorted S -> sorted T -> sorted s -> sorted t ->
  S ≡ₚ common ++ s -> T ≡ₚ common ++ t -> diff_entries s t = diff_entries S T.
Proof.
  intros HS HT Hs Ht ES ET. apply ordered_unique; [by apply diff_entries_ordered..|].
  intros [e|e]; destruct (diff_entries_elem s t Hs Ht e) as [HR HA];
    destruct (diff_entries_elem S T HS HT e) as [HR' HA'];
    destruct (elem_common S common s e HS ES) as [HinS HnS];
    destruct (elem_common T common t e HT ET) as [HinT HnT]; rewrite ?HR, ?HA, ?HR', ?HA'; clear -HinS HnS HinT HnT;
    naive_solver.
Qed.
End diff.

(** ** Applying a difference *)
Section applying.
Context {K V : Type} `{Key K} `{Blake3} `{EqDecision V} (value_bytes : V -> bytes).
Implicit Types (s t es : list (Entry K V)).
Local Abbreviation integrate_entries := (integrate_entries value_bytes).
Local Abbreviation integrate_entry := (integrate_entry value_bytes).

Lemma integrate_entries_sorted cs es : sorted es -> sorted (integrate_entries cs es).
Proof.
  revert es; induction cs as [|c cs IH]; intros es Hs; [done|].
  apply IH. by apply integrate_entry_sorted.
Qed.

(** Before [diff_entries s t] is applied, [es] agrees with [s] on the keys of
    [s] and [t]; after it, with [t]. *)
Definition has_key k es : Prop := exists e, e ∈ es /\ key e = k.
Definition agrees es s t : Prop :=
  forall k, has_key k s \/ has_key k t -> lookup_entry k es = lookup_entry k s.

Lemma has_key_cons k x es : has_key k (x :: es) <-> key x = k \/ has_key k es.
Proof. unfold has_key. set_solver. Qed.
Lemma has_key_nil k : ~ has_key k ([] : list (Entry K V)).
Proof. unfold has_key. set_solver. Qed.
Lemma lookup_has_key k es : ~ has_key k es -> lookup_entry k es = None.
Proof.
  intros Hk. destruct (lookup_entry k es) as [v|] eqn:E; [|done].
  apply lookup_Some_elem in E. exfalso. apply Hk. by exists (mkEntry k v).
Qed.
Lemma has_key_above k x es : sorted (x :: es) -> has_key k es -> key x ≺ k.
Proof. intros [_ Hlt]%sorted_cons (e & He & <-). auto. Qed.
Lemma lookup_cons_head (x : Entry K V) es : lookup_entry (key x) (x :: es) = Some (value x).
Proof. simpl. by rewrite cmp_refl. Qed.
Lemma lookup_cons_tail k x es : key x ≺ k -> lookup_entry k (x :: es) = lookup_entry k es.
Proof. intros Hlt%cmp_gt. simpl. by rewrite Hlt. Qed.
Lemma lookup_cons_below k x es : k ≺ key x -> lookup_entry k (x :: es) = None.
Proof. intros Hlt. simpl. unfold olt in Hlt. by rewrite Hlt. Qed.

(** One change at the head of both. *)
Lemma lookup_remove_change x es k :
  sorted es -> lookup_entry (key x) es = Some (value x) ->
  lookup_entry k (integrate_entry (Remove x) es) = if decide (k = key x) then None else lookup_entry k es.
Proof. intros Hs Hx. simpl. rewrite decide_True by done. by rewrite lookup_remove. Qed.
Lemma lookup_add_change y es k :
  sorted es -> lookup_entry (key y) es = None ->
  lookup_entry k (integrate_entry (Add y) es)
  = if decide (k = key y) then Some (value y) else lookup_entry k es.
Proof. intros Hs Hy. simpl. rewrite lookup_upsert by done. simpl. by rewrite Hy. Qed.

Definition applied es es' s t : Prop := forall k,
  (has_key k s \/ has_key k t -> lookup_entry k es' = lookup_entry k t) /\
  (~ (has_key k s \/ has_key k t) -> lookup_entry k es' = lookup_entry k es).

Lemma applied_remove x s t es es' :
  sorted es -> sorted (x :: s) -> (forall k, has_key k t -> key x ≼ k) -> agrees es (x :: s) t ->
  agrees (integrate_entry (Remove x) es) s t /\
  (applied (integrate_entry (Remove x) es) es' s t -> applied es es' (x :: s) t).
Proof.
  intros Hes Hs Ht Ha.
  assert (lookup_entry (key x) es = Some (value x)) as Hx.
  { rewrite Ha by (left; apply has_key_cons; auto). apply lookup_cons_head. }
  assert (~ has_key (key x) s) as Hxs by (intros Hk; apply (has_key_above _ _ _ Hs) in Hk; order).
  split; [intros k Hk|intros Happ k].
  - rewrite lookup_remove_change by done. case_decide as E; [by subst; rewrite lookup_has_key|].
    rewrite Ha by (rewrite has_key_cons; naive_solver). apply lookup_cons_tail.
    destruct Hk as [Hk|Hk]; [by eapply has_key_above|]. apply Ht in Hk.
    destruct (ord_total (key x) k) as [?|[?|?]]; [done|congruence|order].
  - destruct (Happ k) as [Hin Hout]. rewrite lookup_remove_change in Hout by done.
    rewrite has_key_cons. split.
    + intros [[<-|Hk]|Hk]; [|auto|auto].
      destruct (lookup_entry (key x) t) as [v|] eqn:E.
      * apply Hin. right. apply lookup_Some_elem in E. by exists (mkEntry (key x) v).
      * assert (~ has_key (key x) t \/ has_key (key x) t) as [Hn|Hy].
        { destruct (decide (Exists (fun e => key e = key x) t)) as [He|He]; rewrite Exists_exists in He;
            [right|left]; done. }
        -- rewrite Hout by naive_solver. by rewrite decide_True.
        -- apply Hin. auto.
    + intros Hk. rewrite Hout by naive_solver. rewrite decide_False; [done|]. naive_solver.
Qed.

Lemma applied_add y s t es es' :
  sorted es -> sorted (y :: t) -> (forall k, has_key k s -> key y ≺ k) -> agrees es s (y :: t) ->
  agrees (integrate_entry (Add y) es) s t /\
  (applied (integrate_entry (Add y) es) es' s t -> applied es es' s (y :: t)).
Proof.
  intros Hes Ht Hs Ha.
  assert (~ has_key (key y) s) as Hys by (intros Hk%Hs; order).
  assert (~ has_key (key y) t) as Hyt by (intros Hk; apply (has_key_above _ _ _ Ht) in Hk; order).
  assert (lookup_entry (key y) es = None) as Hy.
  { rewrite Ha by (right; apply has_key_cons; auto). by apply lookup_has_key. }
  split; [intros k Hk|intros Happ k].
  - rewrite lookup_add_change by done. case_decide as E; [naive_solver|].
    apply Ha. rewrite has_key_cons. naive_solver.
  - destruct (Happ k) as [Hin Hout]. rewrite lookup_add_change in Hout by done.
    rewrite has_key_cons. split.
    + intros [Hk|[<-|Hk]].
      * rewrite Hin by auto. rewrite lookup_cons_tail; auto.
      * rewrite Hout, lookup_cons_head by naive_solver. by rewrite decide_True.
      * rewrite Hin by auto. rewrite lookup_cons_tail; [done|]. by eapply has_key_above.
    + intros Hk. rewrite Hout by naive_solver. rewrite decide_False; [done|]. naive_solver.
Qed.

Lemma applied_same x s t es es' :
  sorted (x :: s) -> sorted (x :: t) -> agrees es (x :: s) (x :: t) ->
  agrees es s t /\ (applied es es' s t -> applied es es' (x :: s) (x :: t)).
Proof.
  intros Hs Ht Ha.
  assert (forall k, has_key k s \/ has_key k t -> key x ≺ k) as Hlt.
  { intros k [Hk|Hk]; [by apply (has_key_above _ _ s)|by apply (has_key_above _ _ t)]. }
  assert (lookup_entry (key x) es = Some (value x)) as Hx.
  { rewrite Ha by (left; apply has_key_cons; auto). apply lookup_cons_head. }
  split; [intros k Hk|intros Happ k].
  - rewrite Ha by (rewrite !has_key_cons; naive_solver). by apply lookup_cons_tail, Hlt.
  - destruct (Happ k) as [Hin Hout]. rewrite !has_key_cons. split.
    + assert (has_key k s \/ has_key k t -> lookup_entry k es' = lookup_entry k (x :: t)) as Hk'.
      { intros Hk. rewrite Hin, lookup_cons_tail by auto. done. }
      assert (~ (has_key (key x) s \/ has_key (key x) t)) as Hn by (intros Hk%Hlt; order).
      intros [[<-|Hk]|[<-|Hk]]; auto; rewrite lookup_cons_head, <- Hx.
      * apply (proj2 (Happ (key x)) Hn).
      * apply (proj2 (Happ (key x)) Hn).
    + naive_solver.
Qed.

Lemma integrate_diff s t : forall es,
  sorted s -> sorted t -> sorted es -> agrees es s t ->
  applied es (integrate_entries (diff_entries s t) es) s t.
Proof.
  revert s t. refine (merge_ind _ _ _ _).
  - induction t as [|y t IH]; intros es Hs Ht Hes Ha.
    + intros k. split; [|done]. intros [[]%has_key_nil|[]%has_key_nil].
    + destruct (applied_add y [] t es (integrate_entries (diff_entries [] (y :: t)) es)) as [Ha' Happ]; try done.
      { intros k []%has_key_nil. }
      apply Happ, (IH (integrate_entry (Add y) es)); [done| |by apply integrate_entry_sorted|done].
      by apply sorted_cons in Ht as [? _].
  - intros x s. revert x. induction s as [|x' s IH]; intros x es Hs Ht Hes Ha.
    + destruct (applied_remove x [] [] es (integrate_entry (Remove x) es) Hes Hs) as [_ Happ];
        [intros k []%has_key_nil|done|].
      apply Happ. intros k. split; [|done]. intros [[]%has_key_nil|[]%has_key_nil].
    + destruct (applied_remove x (x' :: s) [] es (integrate_entries (Remove <$> x :: x' :: s) es) Hes Hs)
        as [Ha' Happ]; [intros k []%has_key_nil|done|].
      apply Happ, (IH x' (integrate_entry (Remove x) es)); [|done|by apply integrate_entry_sorted|done].
      by apply sorted_cons in Hs as [? _].
  - intros x s y t IHl IHr IHb es Hs Ht Hes Ha. rewrite diff_entries_cons.
    pose proof Hs as [Hs' _]%sorted_cons. pose proof Ht as [Ht' _]%sorted_cons.
    destruct (cmp (key x) (key y)) eqn:Ec; [apply cmp_eq in Ec; case_decide as Hv| |apply cmp_gt in Ec].
    + destruct (applied_remove x s (y :: t) es
        (integrate_entries (Remove x :: Add y :: diff_entries s t) es) Hes Hs) as [Ha1 Happ1]; [|done|].
      { intros k. rewrite has_key_cons, Ec. intros [<-|Hk]; [order|].
        apply (has_key_above _ _ _ Ht) in Hk. order. }
      apply Happ1.
      destruct (applied_add y s t (integrate_entry (Remove x) es)
        (integrate_entries (Remove x :: Add y :: diff_entries s t) es)) as [Ha2 Happ2]; try done.
      { by apply integrate_entry_sorted. }
      { intros k Hk. rewrite <- Ec. by eapply has_key_above. }
      apply Happ2, IHb; try done. by repeat apply integrate_entry_sorted.
    + assert (x = y) as -> by (destruct x, y; simpl in *; congruence).
      destruct (applied_same y s t es (integrate_entries (diff_entries s t) es)) as [Ha' Happ]; auto.
    + destruct (applied_remove x s (y :: t) es
        (integrate_entries (Remove x :: diff_entries s (y :: t)) es) Hes Hs) as [Ha' Happ]; [|done|].
      { intros k. rewrite has_key_cons. intros [<-|Hk]; [by apply olt_le|].
        apply (has_key_above _ _ _ Ht) in Hk. change (key x ≺ key y) in Ec. order. }
      apply Happ, IHl; try done. by apply integrate_entry_sorted.
    + destruct (applied_add y (x :: s) t es
        (integrate_entries (Add y :: diff_entries (x :: s) t) es)) as [Ha' Happ]; try done.
      { intros k. rewrite has_key_cons. intros [<-|Hk]; [done|].
        apply (has_key_above _ _ _ Hs) in Hk. order. }
      apply Happ, IHr; try done. by apply integrate_entry_sorted.
Qed.

(** The difference of two contents leads from one to the other. *)
Lemma integrate_diff_entries s t :
  sorted s -> sorted t -> integrate_entries (diff_entries s t) s = t.
Proof.
  intros Hs Ht. apply sorted_ext; [by apply integrate_entries_sorted|done|]. intros k.
  destruct (integrate_diff s t s Hs Ht Hs ltac:(done) k) as [Hin Hout].
  destruct (lookup_entry k s) as [v|] eqn:Es.
  { apply Hin. left. apply lookup_Some_elem in Es. by exists (mkEntry k v). }
  destruct (lookup_entry k t) as [v|] eqn:Et.
  { rewrite Hin; [done|]. right. apply lookup_Some_elem in Et. by exists (mkEntry k v). }
  rewrite Hout; [done|]. intros [(e & He & <-)|(e & He & <-)];
    [rewrite (elem_lookup e s) in Es|rewrite (elem_lookup e t) in Et]; done.
Qed.
End applying.

(** ** The streams of a frontier *)
Section frontier_streams.
Context {K V : Type} `{Key K} `{NodeCodec K V} `{Blake3} {D : Distribution}.
Context (acc : Accessor) (P : bytes -> Prop).
Implicit Types (p : ptree K V) (ps qs : list (ptree K V)).

(** Loading the children of an index. *)
Lemma load_children ps links :
  Forall2 (repr acc) ps (Persistent <$> links) ->
  exists children, map_outcome (fun link => acc (link_node link)) links = Ok children /\
    Forall2 (stored acc) ps children.
Proof.
  rewrite Forall2_fmap_r. induction 1 as [|p l ps links Hp _ (children & E & Hc)]; [by exists []|].
  destruct (repr_stored acc p l Hp) as (node & Hn & Hst).
  exists (node :: children). simpl. rewrite Hn. cbn [mbind outcome_bind]. rewrite E. cbn. auto.
Qed.

Lemma walk_spec fuel : forall qs stack,
  Forall2 (stored acc) qs stack -> (costs qs < fuel)%nat ->
  walk acc fuel stack = (flattens qs, Ok tt).
Proof.
  induction fuel as [|fuel IH]; intros qs stack Hall Hf; [lia|]. cbn [walk].
  destruct Hall as [|p node qs stack Hp Hall]; [done|]. rewrite costs_cons in Hf.
  destruct p as [es|ps].
  - simpl in Hp. rewrite Hp, (IH qs stack Hall) by lia. by rewrite flattens_cons.
  - destruct Hp as (links & -> & Hr). destruct (load_children ps links Hr) as (children & -> & Hc).
    rewrite (IH (ps ++ qs)); [|by apply Forall2_app|rewrite costs_app, cost_index in *; lia].
    by rewrite flattens_app, flattens_cons, flatten_index.
Qed.

Lemma sparse_stream_spec fuel ps ns :
  Forall2 (srepr acc P) ps ns -> (costs ps < fuel)%nat ->
  sparse_stream acc fuel ns = Ok <$> flattens ps.
Proof.
  induction 1 as [|p n ps ns Hp _ IH]; intros Hf; [done|]. rewrite costs_cons in Hf.
  cbn [sparse_stream]. destruct (srepr_node _ _ _ _ Hp) as (node & -> & Hst & _).
  rewrite (walk_spec fuel [p]); [|by repeat constructor|rewrite costs_cons; unfold costs; simpl; lia].
  rewrite IH by lia. by rewrite flattens_single, flattens_cons, fmap_app.
Qed.

Lemma frontier_nodes_spec ps ns :
  Forall2 (srepr acc P) ps ns ->
  exists bufs, frontier_nodes acc ns = Ok <$> bufs /\ buffer <$> bufs = ser <$> ps.
Proof.
  induction 1 as [|p n ps ns Hp _ (bufs & E & Hb)]; [by exists []|]. cbn [frontier_nodes].
  destruct (srepr_node _ _ _ _ Hp) as (node & -> & _ & Eb). rewrite E. exists (node :: bufs).
  csimpl. by rewrite Eb, Hb.
Qed.
End frontier_streams.

(** ** [TreeDifference::compute] *)
Section computing.
Context {K V : Type} `{Key K} `{NodeCodec K V} `{Blake3} {D : Distribution}.
Context (Htotal : codec_total (K := K) (V := V)) (R : nat).
Context (P : bytes -> Prop) (Hcf : collision_free P).
Implicit Types (es : list (Entry K V)) (p : ptree K V) (W : list (ptree K V)).

(** What a tree over [es] costs to walk: each entry is in one node per level. *)
Definition tree_cost es : nat := S (2 * (R + 2) * length es).

(** The tree, if any, a root hash stands for. *)
Definition rooted (root : Blake3Hash) W : Prop :=
  match W with
  | [] => root = NULL_BLAKE3_HASH
  | [p] => root = blake3 (ser p) /\ Forall P (sealed p)
  | _ => False
  end.

Lemma rooted_inj root W1 W2 : rooted root W1 -> rooted root W2 -> W1 = W2.
Proof.
  destruct Hcf as [Hinj Hnull].
  assert (forall p, Forall P (sealed p) -> P (ser p)) as Hself.
  { intros p Hp. rewrite Forall_forall in Hp. auto using sealed_self. }
  destruct W1 as [|p1 [|? ?]], W2 as [|p2 [|? ?]]; simpl; try done.
  - intros -> [E Hp]. symmetry in E. exfalso. eapply Hnull; [|done]. auto.
  - intros [-> Hp] E. exfalso. eapply Hnull; [|done]. auto.
  - intros [-> Hp1] [E Hp2]. f_equal. apply (ser_inj Htotal P); auto.
Qed.

Lemma from_root_spec acc es root :
  well_stored (K := K) (V := V) acc -> (forall h node, acc h = Ok node -> P (buffer node)) ->
  represents R acc es (Unloaded root) ->
  exists W tree, flattens W = es /\ rooted root W /\ (costs W <= tree_cost es)%nat /\
    from_root (V := V) acc root = Ok tree /\ frontier acc P W W tree.
Proof.
  intros Hws HP (Hs & o & Ho & Hr). pose proof Ho as Ho'. unfold load in Ho'. unfold from_root.
  case_decide as Hnull.
  - injection Ho' as <-. subst. exists [], (mkSparseTree [] []). split_and!; try done.
    unfold costs, tree_cost; simpl; lia.
  - outcome_inv. rename a0 into t.
    destruct Hr as (h & Hle & _ & _ & p & Hp & Hrt).
    pose proof (forest_uniform_one _ _ _ Hp) as Hu.
    destruct (Hws _ _ Ha) as [Hh Hbody].
    pose proof (stored_ser acc h p a t Hws Hu Hbody Ha0 Hrt) as Eb.
    pose proof (stored_opened acc p a t Ha0 Hrt) as Hst.
    assert (flatten p = es) as Ees.
    { rewrite <- flattens_single, <- Hp. apply flattens_forest. }
    assert (Forall P (sealed p)) as Hsealed by (eapply (stored_sealed acc Hws P HP h p a); eauto).
    exists [p], (mkSparseTree [LoadedNode a (top p)] []). split_and!.
    + by rewrite flattens_single.
    + simpl. split; [|done]. rewrite <- Hh. unfold hash. by rewrite Eb.
    + rewrite costs_cons. unfold costs, tree_cost. simpl.
      pose proof (cost_bound h p Hu) as Hc. rewrite Ees in Hc. nia.
    + rewrite Ha. cbn [mbind outcome_bind].
      assert (body a = Ok (body_of p)) as ->.
      { destruct a as [bs]. simpl in Eb. subst bs. apply body_encoded, ser_encoded, Htotal. }
      cbn [mbind outcome_bind]. by rewrite (body_upper_bound_of h p Hu).
    + split; [|by rewrite flattens_single, Ees|done|set_solver].
      constructor; [|constructor]. split; [by exists h|done|simpl; unfold hash; by rewrite Eb|done|].
      by exists a.
Qed.

Context (accS accT : Accessor).
Context (HwsS : well_stored (K := K) (V := V) accS) (HwsT : well_stored (K := K) (V := V) accT).
Context (HPS : forall h node, accS h = Ok node -> P (buffer node)).
Context (HPT : forall h node, accT h = Ok node -> P (buffer node)).

Lemma compute_spec S T rs rt fuel :
  represents R accS S (Unloaded rs) -> represents R accT T (Unloaded rt) ->
  (tree_cost S + tree_cost T < fuel)%nat ->
  exists d WS WT ps pt, compute (V := V) accS accT fuel rs rt = Ok d /\
    rooted rs WS /\ rooted rt WT /\ flattens WS = S /\ flattens WT = T /\
    differing accS accT P WS WT ps (source d) pt (target d) /\ Forall is_segment pt /\
    (costs ps < fuel)%nat /\ (costs pt < fuel)%nat.
Proof.
  intros HS HT Hf.
  destruct (from_root_spec accS S rs HwsS HPS HS) as (WS & src & ES & HrS & HcS & EfS & HfS).
  destruct (from_root_spec accT T rt HwsT HPT HT) as (WT & tgt & ET & HrT & HcT & EfT & HfT).
  unfold compute. case_decide as Hroots.
  - subst rt. rewrite (rooted_inj _ _ _ HrT HrS) in *. eexists _, WS, WS, [], [].
    split_and!; try done; [|unfold costs; simpl; unfold tree_cost in Hf; lia..].
    split; [by split; [constructor|constructor|set_solver..]..| |].
    + exists (flattens WS). by rewrite app_nil_r.
    + intros b Hb. by left.
  - rewrite EfS. cbn [mbind outcome_bind]. rewrite EfT. cbn [mbind outcome_bind].
    assert (differing accS accT P WS WT WS src WT tgt) as Hd.
    { split; [done|done|by exists []|]. intros b Hb. by right; left. }
    destruct (fixpoint_loop_spec Htotal accS accT HwsS HwsT P Hcf HPS HPT WS WT fuel fuel WS src WT tgt Hd)
      as (ps & pt & src' & tgt' & -> & Hd' & Hle); [lia|lia|]. cbn [mbind outcome_bind].
    destruct (expand_rest_spec Htotal accS accT HwsT P HPT WS WT fuel ps src' pt tgt' Hd')
      as (pt' & tgt'' & -> & Hd'' & Hseg & Hle'); [lia|]. cbn [mbind outcome_bind].
    eexists _, WS, WT, ps, pt'. split_and!; try done; lia.
Qed.

Context `{EqDecision V}.

Lemma changes_spec S T rs rt fuel walk_fuel :
  represents R accS S (Unloaded rs) -> represents R accT T (Unloaded rt) ->
  (tree_cost S + tree_cost T < fuel)%nat -> (fuel <= walk_fuel)%nat ->
  exists d, compute (V := V) accS accT fuel rs rt = Ok d /\
    changes accS accT walk_fuel d = Ok <$> diff_entries S T.
Proof.
  intros HS HT Hf Hwf. pose proof HS as [HsS _]. pose proof HT as [HsT _].
  destruct (compute_spec S T rs rt fuel HS HT Hf)
    as (d & WS & WT & ps & pt & E & _ & _ & ES & ET & [HfS HfT (common & EpS & EpT) _] & _ & HcS & HcT).
  exists d. split; [done|]. unfold changes.
  rewrite (sparse_stream_spec accS P walk_fuel ps) by (apply HfS || lia).
  rewrite (sparse_stream_spec accT P walk_fuel pt) by (apply HfT || lia).
  rewrite two_cursor_spec by (rewrite !length_fmap; lia). f_equal.
  rewrite ES in EpS. rewrite ET in EpT.
  eapply diff_entries_common; [done|done|apply HfS|apply HfT|done|done].
Qed.

(** C7: Differentiation is exact.  Comparing two stored trees, with the shared
    subtrees pruned and only differing nodes expanded, returns; every item of
    the stream of changes is a change; an entry is removed exactly if it is in
    the source and not in the target, and added exactly if it is in the target
    and not in the source; and changes come in key order, a removal before the
    addition at the same key. *)
Theorem changes_exact S T rs rt fuel walk_fuel :
  represents R accS S (Unloaded rs) -> represents R accT T (Unloaded rt) ->
  (tree_cost S + tree_cost T < fuel)%nat -> (fuel <= walk_fuel)%nat ->
  exists d cs, compute (V := V) accS accT fuel rs rt = Ok d /\
    changes accS accT walk_fuel d = Ok <$> cs /\ ordered cs /\
    (forall e, Remove e ∈ cs <-> e ∈ S /\ e ∉ T) /\ (forall e, Add e ∈ cs <-> e ∈ T /\ e ∉ S).
Proof.
  intros HS HT Hf Hwf. destruct (changes_spec S T rs rt fuel walk_fuel HS HT Hf Hwf) as (d & E & Ec).
  destruct HS as [HsS _], HT as [HsT _]. exists d, (diff_entries S T).
  split_and!; [done|done|by apply diff_entries_ordered|..]; intros e; by apply diff_entries_elem.
Qed.

(** What [novel_nodes] yields. *)
Lemma novel_nodes_spec S T rs rt fuel :
  represents R accS S (Unloaded rs) -> represents R accT T (Unloaded rt) ->
  (tree_cost S + tree_cost T < fuel)%nat ->
  exists d WS WT novel, compute (V := V) accS accT fuel rs rt = Ok d /\
    rooted rs WS /\ rooted rt WT /\ flattens WS = S /\ flattens WT = T /\
    novel_nodes accT d = Ok <$> novel /\
    (forall b, b ∈ sealeds WT -> b ∈ sealeds WS \/ b ∈ buffer <$> novel) /\
    (forall b, b ∈ buffer <$> novel -> b ∈ sealeds WT).
Proof.
  intros HS HT Hf.
  destruct (compute_spec S T rs rt fuel HS HT Hf)
    as (d & WS & WT & ps & pt & E & HrS & HrT & ES & ET & [HfS HfT _ Hnov] & Hseg & _ & _).
  destruct (frontier_nodes_spec accT P pt (nodes (target d)) (frontier_srepr _ _ _ _ _ HfT)) as (bufs & Eb & Ebuf).
  assert (sealeds pt = ser <$> pt) as Esealed.
  { clear -Hseg. induction Hseg as [|p pt Hp _ IH]; [done|]. rewrite sealeds_cons, IH. by destruct p. }
  exists d, WS, WT, (expanded (target d) ++ bufs). split_and!; try done.
  - unfold novel_nodes. by rewrite Eb, fmap_app.
  - intros b Hb. rewrite fmap_app, Ebuf, <- Esealed, elem_of_app.
    destruct (Hnov b Hb) as [?|[?|?]]; auto.
  - intros b. rewrite fmap_app, Ebuf, <- Esealed, elem_of_app. intros [Hb|Hb].
    + by apply (frontier_expanded _ _ _ _ _ HfT).
    + by apply (frontier_within _ _ _ _ _ HfT).
Qed.

(** The novel nodes are enough and belong to the target: every serialized
    node of the target tree is a node of the source tree or one of the novel
    nodes, and every novel node is a node of the target tree. *)
Theorem novel_nodes_suffice S T rs rt fuel :
  represents R accS S (Unloaded rs) -> represents R accT T (Unloaded rt) ->
  (tree_cost S + tree_cost T < fuel)%nat ->
  exists d WS WT novel, compute (V := V) accS accT fuel rs rt = Ok d /\
    rooted rs WS /\ rooted rt WT /\ flattens WS = S /\ flattens WT = T /\
    novel_nodes accT d = Ok <$> novel /\
    (forall b, b ∈ sealeds WT -> b ∈ sealeds WS \/ b ∈ buffer <$> novel) /\
    (forall b, b ∈ buffer <$> novel -> b ∈ sealeds WT).
Proof. apply novel_nodes_spec. Qed.
End computing.

(** ** Differentiate, then integrate *)
Section replicate.
Context {K V : Type} `{Key K} `{NodeCodec K V} `{Blake3} {D : Distribution} `{EqDecision V}.
Context (Htotal : codec_total (K := K) (V := V)) (R : nat).
Context (P : bytes -> Prop) (Hcf : collision_free P).
Context (accS accT : Accessor).
Context (HwsS : well_stored (K := K) (V := V) accS) (HwsT : well_stored (K := K) (V := V) accT).
Context (HPS : forall h node, accS h = Ok node -> P (buffer node)).
Context (HPT : forall h node, accT h = Ok node -> P (buffer node)).
Context (value_to_bytes : V -> option bytes) (value_bytes : V -> bytes).
Context (Hvalue : forall v, value_to_bytes v = Some (value_bytes v)).
Context (rank_le : forall b, (rank b <= R)%nat) (shallow : (S R <= MAXIMUM_TREE_DEPTH)%nat).

(** C21: Replication: the changes that lead from a source tree to a target tree,
    integrated into the source, give a tree that holds the target's entries
    exactly, whatever the hashes of the values are. *)
Theorem differentiate_then_integrate S T rs rt fuel walk_fuel edit_fuel :
  represents R accS S (Unloaded rs) -> represents R accT T (Unloaded rt) ->
  (tree_cost R S + tree_cost R T < fuel)%nat -> (fuel <= walk_fuel)%nat -> (Datatypes.S R < edit_fuel)%nat ->
  exists d root, compute (V := V) accS accT fuel rs rt = Ok d /\
    integrate accS value_to_bytes edit_fuel (Unloaded rs) (changes accS accT walk_fuel d) = Ok root /\
    represents R accS T root.
Proof.
  intros HS HT Hf Hwf Hef.
  destruct (changes_spec Htotal R P Hcf accS accT HwsS HwsT HPS HPT S T rs rt fuel walk_fuel HS HT Hf Hwf)
    as (d & E & Ec). pose proof HS as [HsS _]. pose proof HT as [HsT _].
  assert (null_absent accS) as Hnull.
  { intros node Hn. destruct (HwsS _ _ Hn) as [Hh _]. by apply (proj2 Hcf (buffer node)); eauto. }
  destruct (integrate_represents value_to_bytes value_bytes Hvalue accS Hnull R edit_fuel rank_le Hef shallow
              (diff_entries S T) S (Unloaded rs) HS) as (root & Ei & Hr).
  exists d, root. rewrite Ec. split_and!; [done|done|]. by rewrite integrate_diff_entries in Hr.
Qed.
End replicate.
