(* ===== verification/Demo.v ===== *)
(** The theorems on concrete trees: one-byte keys, a small rank function, an
    invertible codec and a toy digest (see [Instances]); and the case in which a
    delete misses the canonical root. *)
From S2P Require Import Prelude Common Nodes SortedEntries Forest Walker TransientTree Instances Repr Spine Fuse Edits Batch Persist Read Integrate.

#[local] Existing Instances byte_key byte_codec toy_blake3 toy_distribution.

(** What a list of entries serializes to, at every height a tree may have. *)
Definition buffers (es : list (Entry byte byte)) : list bytes :=
  concat ((fun h => match forest h es with [p] => sealed p | _ => [] end) <$> seq 0 6).

Lemma buffers_spec es h p b :
  (h <= 5)%nat -> forest h es = [p] -> b ∈ sealed p -> b ∈ buffers es.
Proof.
  intros Hh Hp Hb. unfold buffers. apply elem_of_concat. exists (sealed p). split; [|done].
  apply list_elem_of_fmap. exists h. split; [by rewrite Hp|]. apply elem_of_seq. lia.
Qed.

Lemma byte_codec_total : codec_total (K := byte) (V := byte).
Proof. intros b. by eexists. Qed.

Lemma no_storage_well_stored : well_stored (K := byte) (V := byte) no_storage.
Proof. intros h node. done. Qed.

Lemma demo_collision_free : collision_free (fun b => b ∈ buffers demo).
Proof. apply collision_freeb_spec. vm_compute. reflexivity. Qed.

(** The demo tree in storage: its delta and its root hash. *)
Definition demo_delta : Delta.t := (persist_tree (memory_root demo) Delta.zero).1.
Definition demo_root : Blake3Hash :=
  match (persist_tree (memory_root demo) Delta.zero).2 with Ok h => h | _ => NULL_BLAKE3_HASH end.
Definition demo_storage : Accessor := overlay demo_delta no_storage.

Lemma demo_stored :
  well_stored (K := byte) (V := byte) demo_storage /\ null_absent demo_storage /\
  represents 4 demo_storage demo (Unloaded demo_root) /\
  canonical demo_storage demo (Unloaded demo_root).
Proof.
  destruct (persist_represents byte_codec_total 4 no_storage (fun b => b ∈ buffers demo) demo
              (memory_root demo)) as (d' & hash & Hp & Hws & HP & Hr & Hc).
  - apply no_storage_well_stored.
  - apply demo_collision_free.
  - done.
  - intros h p b. apply buffers_spec.
  - apply demo_represents.
  - unfold demo_storage, demo_delta, demo_root. rewrite Hp. simpl.
    split_and!; [done| |done|apply Hc, demo_canonical].
    intros node Hn. destruct (Hws _ _ Hn) as [Hh _].
    by apply (proj2 demo_collision_free (buffer node)); eauto.
Qed.

Lemma persist_root_hash_witness :
  exists d', persist_tree (Unloaded demo_root : TransientRoot byte byte) Delta.zero = (d', Ok (root_hash demo)).
Proof.
  apply (persist_root_hash byte_codec_total demo_storage); apply demo_stored.
Defined.

Lemma get_after_edits_witness :
  exists root', apply_edits demo_storage 6 [Upsert (mkEntry x06 x66); Delete x08] (Unloaded demo_root) = Ok root' /\
    forall k, get demo_storage root' k
              = Ok (lookup_entry k (edit_entries [Upsert (mkEntry x06 x66); Delete x08] demo)).
Proof.
  apply (get_after_edits 4 6 toy_rank_le);
    [lia|unfold MAXIMUM_TREE_DEPTH; lia|apply demo_stored|apply demo_stored].
Defined.

Lemma stream_after_edits_witness :
  exists root', apply_edits demo_storage 6 [Upsert (mkEntry x06 x66); Delete x08] (Unloaded demo_root) = Ok root' /\
    stream_range demo_storage 200 root' (mkRange (Included x04) (Excluded x10))
    = (in_range (mkRange (Included x04) (Excluded x10))
         (edit_entries [Upsert (mkEntry x06 x66); Delete x08] demo), Ok tt).
Proof.
  apply (stream_after_edits 4 6 toy_rank_le);
    [lia|unfold MAXIMUM_TREE_DEPTH; lia|apply demo_stored|apply demo_stored|].
  change (length (edit_entries [Upsert (mkEntry x06 x66); Delete x08] demo)) with 8%nat. lia.
Defined.

Lemma persist_reads_back_witness :
  exists d' hash, persist_tree (memory_root demo) Delta.zero = (d', Ok hash) /\
    represents 4 (overlay d' no_storage) demo (Unloaded hash) /\
    forall k, tree_get (overlay d' no_storage) hash k = Ok (lookup_entry k demo).
Proof.
  apply (persist_reads_back byte_codec_total 4 ltac:(unfold MAXIMUM_TREE_DEPTH; lia) no_storage
           (fun b => b ∈ buffers demo)).
  - apply no_storage_well_stored.
  - apply demo_collision_free.
  - done.
  - intros h p b. apply buffers_spec.
  - apply demo_represents.
Defined.

(** Integration of concurrent changes into the stored tree. *)
Definition demo_changes : list (Change byte byte) :=
  [Add (mkEntry x05 x55); Remove (mkEntry x01 x01); Remove (mkEntry x02 x07); Add (mkEntry x07 x77)].

Lemma integrate_correct_witness :
  exists root', integrate demo_storage (fun v => Some [v]) 6 (Unloaded demo_root) (Ok <$> demo_changes) = Ok root' /\
    represents 4 demo_storage (integrate_entries (fun v => [v]) demo_changes demo) root'.
Proof.
  apply (integrate_correct (fun v => Some [v]) (fun v => [v]));
    [done|apply demo_stored|apply toy_rank_le|lia|unfold MAXIMUM_TREE_DEPTH; lia|apply demo_stored].
Defined.

Lemma integrate_stream_error_witness :
  integrate demo_storage (fun v => Some [v]) 6 (Unloaded demo_root)
    ((Ok <$> demo_changes) ++ Err (OperationError "lost") :: []) = Err (OperationError "lost").
Proof.
  apply (integrate_stream_error (fun v => Some [v]) (fun v => [v])) with (R := 4%nat) (es := demo);
    [done|apply demo_stored|apply toy_rank_le|lia|unfold MAXIMUM_TREE_DEPTH; lia|apply demo_stored].
Defined.

(** Three additions to one key and one to another, in two orders. *)
Definition demo_adds : list (Entry byte byte) :=
  [mkEntry x05 x55; mkEntry x05 x99; mkEntry x05 x33; mkEntry x03 x03].

Lemma integrate_adds_converge_witness :
  integrate_entries (fun v => [v]) (Add <$> demo_adds) demo
  = integrate_entries (fun v => [v]) (Add <$> reverse demo_adds) demo.
Proof.
  apply (integrate_adds_converge (fun v => [v])
           (fun v => v ∈ [x01; x02; x03; x04; x05; x08; x09; x10; x11; x55; x99; x33])).
  - intros v1 v2 H1 H2 E.
    assert (collision_free (fun b => b ∈ (fun v : byte => [v]) <$>
              [x01; x02; x03; x04; x05; x08; x09; x10; x11; x55; x99; x33])) as [Hinj _].
    { apply collision_freeb_spec. vm_compute. reflexivity. }
    assert ([v1] = [v2]) as [= ->]; [|done]. apply Hinj.
    + apply list_elem_of_fmap. eauto.
    + apply list_elem_of_fmap. eauto.
    + unfold identity in E. destruct (blake3 [v1]), (blake3 [v2]). simpl in E. by f_equal.
  - apply demo_sorted.
  - intros k v Hl. apply lookup_Some_elem in Hl. unfold demo, demo_entries in Hl.
    apply list_elem_of_fmap in Hl as (k' & [= -> ->] & Hk). set_solver.
  - repeat constructor; set_solver.
  - symmetry. apply reverse_Permutation.
Defined.

Lemma integrate_add_idempotent_witness :
  integrate_entry (fun v => [v]) (Add (mkEntry x05 x55)) (integrate_entry (fun v => [v]) (Add (mkEntry x05 x55)) demo)
  = integrate_entry (fun v => [v]) (Add (mkEntry x05 x55)) demo.
Proof. apply integrate_add_idempotent, demo_sorted. Defined.

(** ** The chain hidden behind a reference *)
Definition chain : list (Entry byte byte) := demo_entries [x01; x02; x04; x05; x08; x09].

Definition chain_delta : Delta.t := (persist_tree (memory_root chain) Delta.zero).1.
Definition chain_root : Blake3Hash :=
  match (persist_tree (memory_root chain) Delta.zero).2 with Ok h => h | _ => NULL_BLAKE3_HASH end.


(** * Differentials

    Differentiation on concrete trees, and the case in which a node that the
    source already holds is reported as novel. *)
From S2P Require Import Differential Frontier DifferentialCorrect.

#[local] Existing Instances byte_key byte_codec toy_blake3 toy_distribution.

(** A tree of entries in a storage of its own, and its root hash. *)
Definition stored_delta (es : list (Entry byte byte)) : Delta.t := (persist_tree (memory_root es) Delta.zero).1.
Definition stored_root (es : list (Entry byte byte)) : Blake3Hash :=
  match (persist_tree (memory_root es) Delta.zero).2 with Ok h => h | _ => NULL_BLAKE3_HASH end.
Definition stored_accessor (es : list (Entry byte byte)) : Accessor := overlay (stored_delta es) no_storage.

Lemma stored_represents (P : bytes -> Prop) es :
  collision_free P -> sorted es -> (forall b, b ∈ buffers es -> P b) ->
  well_stored (K := byte) (V := byte) (stored_accessor es) /\
  (forall h node, stored_accessor es h = Ok node -> P (buffer node)) /\
  represents 4 (stored_accessor es) es (Unloaded (stored_root es)).
Proof.
  intros Hcf Hs HP.
  destruct (persist_represents byte_codec_total 4 no_storage P es (memory_root es))
    as (d' & hash & Hp & Hws & HP' & Hr & _).
  - apply no_storage_well_stored.
  - done.
  - done.
  - intros h p b Hle Hp Hb. apply HP. by eapply buffers_spec.
  - apply canonical_represents; [apply toy_rank_le|by apply memory_root_canonical].
  - unfold stored_accessor, stored_delta, stored_root. by rewrite Hp.
Qed.

(** The demo tree, and a variant of it. *)
Definition variant : list (Entry byte byte) :=
  edit_entries [Upsert (mkEntry x06 x66); Delete x08; Upsert (mkEntry x02 x20)] demo.
Definition in_play (b : bytes) : Prop := b ∈ buffers demo ++ buffers variant.

Lemma in_play_collision_free : collision_free in_play.
Proof. apply collision_freeb_spec. vm_compute. reflexivity. Qed.
Lemma demo_in_play b : b ∈ buffers demo -> in_play b.
Proof. intros Hb. apply elem_of_app. by left. Qed.
Lemma variant_in_play b : b ∈ buffers variant -> in_play b.
Proof. intros Hb. apply elem_of_app. by right. Qed.
Lemma variant_sorted : sorted variant.
Proof. apply sortedb_sorted. vm_compute. reflexivity. Qed.

Definition demo_facts := stored_represents in_play demo in_play_collision_free demo_sorted demo_in_play.
Definition variant_facts :=
  stored_represents in_play variant in_play_collision_free variant_sorted variant_in_play.

Lemma demo_fuel : (tree_cost 4 demo + tree_cost 4 variant < 200)%nat.
Proof. vm_compute. lia. Qed.

Lemma changes_exact_witness :
  exists d cs, compute (V := byte) (stored_accessor demo) (stored_accessor variant) 200
                 (stored_root demo) (stored_root variant) = Ok d /\
    changes (stored_accessor demo) (stored_accessor variant) 200 d = Ok <$> cs /\ ordered cs /\
    (forall e, Remove e ∈ cs <-> e ∈ demo /\ e ∉ variant) /\ (forall e, Add e ∈ cs <-> e ∈ variant /\ e ∉ demo).
Proof.
  apply (changes_exact byte_codec_total 4 in_play in_play_collision_free);
    [apply demo_facts|apply variant_facts|apply demo_facts|apply variant_facts
    |apply demo_facts|apply variant_facts|apply demo_fuel|lia].
Defined.

Lemma novel_nodes_suffice_witness :
  exists d WS WT novel,
    compute (V := byte) (stored_accessor demo) (stored_accessor variant) 200
      (stored_root demo) (stored_root variant) = Ok d /\
    rooted in_play (stored_root demo) WS /\ rooted in_play (stored_root variant) WT /\
    flattens WS = demo /\ flattens WT = variant /\
    novel_nodes (stored_accessor variant) d = Ok <$> novel /\
    (forall b, b ∈ sealeds WT -> b ∈ sealeds WS \/ b ∈ buffer <$> novel) /\
    (forall b, b ∈ buffer <$> novel -> b ∈ sealeds WT).
Proof.
  apply (novel_nodes_suffice byte_codec_total 4 in_play in_play_collision_free);
    [apply demo_facts|apply variant_facts|apply demo_facts|apply variant_facts
    |apply demo_facts|apply variant_facts|apply demo_fuel].
Defined.

Lemma differentiate_then_integrate_witness :
  exists d root,
    compute (V := byte) (stored_accessor demo) (stored_accessor variant) 200
      (stored_root demo) (stored_root variant) = Ok d /\
    integrate (stored_accessor demo) (fun v => Some [v]) 6 (Unloaded (stored_root demo))
      (changes (stored_accessor demo) (stored_accessor variant) 200 d) = Ok root /\
    represents 4 (stored_accessor demo) variant root.
Proof.
  apply (differentiate_then_integrate byte_codec_total 4 in_play in_play_collision_free
           (stored_accessor demo) (stored_accessor variant)) with (S := demo) (value_bytes := fun v => [v]);
    [apply demo_facts|apply variant_facts|apply demo_facts|apply variant_facts|done
    |apply toy_rank_le|unfold MAXIMUM_TREE_DEPTH; lia|apply demo_facts|apply variant_facts|apply demo_fuel|lia|lia].
Defined.

(** ** A shared root is reported *)
(** The tree over [tail] is a subtree of the tree over [whole]. *)
Definition tail_entries : list (Entry byte byte) := demo_entries [x09; x0c; x0d].
Definition whole_entries : list (Entry byte byte) := demo_entries [x01; x04; x08; x09; x0c; x0d].

(** The novel nodes are not only nodes absent from the source: when the
    target is a proper subtree of the source, both roots are expanded because
    their bounds agree and their hashes differ, and the target's root is reported
    as novel although the source holds it. *)
Theorem novel_nodes_report_shared_root :
  exists d root rest,
    compute (V := byte) (stored_accessor whole_entries) (stored_accessor tail_entries) 200
      (stored_root whole_entries) (stored_root tail_entries) = Ok d /\
    novel_nodes (stored_accessor tail_entries) d = Ok root :: rest /\
    stored_accessor whole_entries (stored_root tail_entries) = Ok root.
Proof. do 3 eexists. split_and!; vm_compute; reflexivity. Qed.
