(* ===== verification/Geometric.v ===== *)
(** The production rank function (rust/dialog-search-tree/src/distribution.rs):
    geometrically decreasing thresholds on a 64-bit prefix of the key's hash. *)
From S2P Require Import Prelude Common Nodes SortedEntries Forest Walker TransientTree Repr Edits Batch Read Instances.

Definition U64_MAX : N := 2 ^ 64 - 1.
Definition BRANCH_FACTOR : N := 254.

(** [u64::from_le_bytes]. *)
Fixpoint from_le_bytes (b : bytes) : N :=
  match b with [] => 0 | x :: b => Byte.to_N x + 256 * from_le_bytes b end.

(** [u64] division: panics at zero. *)
Definition div_or_panic {E} (a m : N) : outcome E N :=
  if decide (m = 0)%N then Panic "attempt to divide by zero" else Ok (a / m)%N.

(** The [while] loop of [compute_geometric_rank].  A threshold below [2^64] is
    zero after 64 halvings, and no prefix is below zero: 65 tests are enough. *)
Fixpoint geometric_loop {E} (fuel : nat) (prefix threshold m : N) (rank : Rank) : outcome E Rank :=
  match fuel with
  | O => OutOfFuel
  | S fuel =>
      if decide (prefix < threshold)%N then
        threshold ← div_or_panic threshold m;
        geometric_loop fuel prefix threshold m (rank + 1)
      else Ok rank
  end.

Definition compute_geometric_rank {E} (hash : Blake3Hash) (m : N) : outcome E Rank :=
  let prefix := from_le_bytes (take 8 (as_bytes hash)) in
  threshold ← div_or_panic U64_MAX m;
  geometric_loop 65 prefix threshold m 1.

(** [geometric::rank]; every call returns ([geometric_rank_returns]). *)
Definition geometric_rank (hash : Blake3Hash) : Rank :=
  match compute_geometric_rank (E := DialogSearchTreeError) hash BRANCH_FACTOR with
  | Ok r => r
  | _ => 0%nat
  end.

(** [impl Distribution for Geometric]. *)
Definition Geometric `{Blake3} : Distribution := fun key => geometric_rank (blake3 key).

Section geometric.
Context {E : Type} (prefix m : N) (Hm : (2 <= m)%N).
Open Scope N_scope.

(** The threshold after [j] divisions. *)
Definition threshold (j : nat) : N := U64_MAX / m ^ N.of_nat j.

Lemma threshold_S j : threshold j / m = threshold (S j).
Proof.
  unfold threshold. rewrite N.Div0.div_div, Nat2N.inj_succ, N.pow_succ_r'.
  by rewrite N.mul_comm.
Qed.

Lemma threshold_mono j : threshold (S j) <= threshold j.
Proof. rewrite <- threshold_S. apply N.Div0.div_le_upper_bound. nia. Qed.

Lemma threshold_anti i j : (i <= j)%nat -> threshold j <= threshold i.
Proof.
  induction 1 as [|j _ IH]; [lia|]. pose proof (threshold_mono j). lia.
Qed.

Lemma threshold_64 : threshold 64 = 0.
Proof.
  unfold threshold. apply N.div_small. change (N.of_nat 64) with 64.
  apply N.lt_le_trans with (2 ^ 64); [reflexivity|]. by apply N.pow_le_mono_l.
Qed.

Lemma div_or_panic_Ok a : div_or_panic (E := E) a m = Ok (a / m).
Proof. unfold div_or_panic. rewrite decide_False by lia. done. Qed.

(** The loop stops at the first threshold the prefix is not below. *)
Lemma geometric_loop_spec fuel j :
  (1 <= j)%nat -> (65 <= fuel + j)%nat -> (1 <= fuel)%nat ->
  (forall i, (1 <= i < j)%nat -> prefix < threshold i) ->
  exists r, geometric_loop (E := E) fuel prefix (threshold j) m j = Ok r /\
    (1 <= r)%nat /\ (forall i, (1 <= i < r)%nat -> prefix < threshold i) /\ threshold r <= prefix.
Proof.
  revert j; induction fuel as [|fuel IH]; intros j Hj Hf Hf1 Hbelow; [lia|]. cbn [geometric_loop].
  case_decide as Hlt.
  - assert (j < 64)%nat as Hj64.
    { destruct (decide (j < 64)%nat) as [|Hge]; [done|].
      pose proof (threshold_anti 64 j ltac:(lia)) as Hle. rewrite threshold_64 in Hle. lia. }
    rewrite div_or_panic_Ok. cbn [mbind outcome_bind]. rewrite threshold_S, Nat.add_1_r.
    apply IH; [lia..|]. intros i Hi. destruct (decide (i = j)) as [->|]; [done|]. apply Hbelow. lia.
  - exists j. split_and!; [done|done|done|lia].
Qed.
End geometric.

Section ranks.
Context `{Blake3}.
Implicit Types (h : Blake3Hash).

Definition prefix_of h : N := from_le_bytes (take 8 (as_bytes h)).

Lemma compute_rank_spec {E} h m :
  (2 <= m)%N ->
  exists r, compute_geometric_rank (E := E) h m = Ok r /\ (1 <= r)%nat /\
    forall j, (1 <= j)%nat -> (j < r)%nat <-> (prefix_of h < U64_MAX / m ^ N.of_nat j)%N.
Proof.
  intros Hm. unfold compute_geometric_rank. rewrite (div_or_panic_Ok m Hm).
  cbn [mbind outcome_bind]. fold (prefix_of h).
  destruct (geometric_loop_spec (E := E) (prefix_of h) m Hm 65 1) as (r & Hr & H1 & Hlow & Hhigh);
    [lia..|].
  exists r. split_and!; [|done|].
  - rewrite <- Hr. f_equal. unfold threshold. by rewrite N.pow_1_r.
  - intros j Hj. fold (threshold m j). split.
    + intros Hjr. apply Hlow. lia.
    + intros Hlt. destruct (decide (j < r)%nat) as [|Hn]; [done|].
      pose proof (threshold_anti m Hm r j ltac:(lia)). lia.
Qed.

(** The rank loop terminates for every hash and every branch factor of at
    least two, without a division by zero; the rank is one more than the number
    of thresholds [u64::MAX / m^j] the 64-bit prefix of the hash is below. *)
Theorem geometric_rank_thresholds {E} h m :
  (2 <= m)%N ->
  exists r, compute_geometric_rank (E := E) h m = Ok r /\ (1 <= r)%nat /\
    forall j, (1 <= j)%nat -> (j < r)%nat <-> (prefix_of h < U64_MAX / m ^ N.of_nat j)%N.
Proof. apply compute_rank_spec. Qed.

Lemma geometric_rank_le h : (geometric_rank h <= 9)%nat.
Proof.
  unfold geometric_rank.
  destruct (compute_rank_spec (E := DialogSearchTreeError) h BRANCH_FACTOR) as (r & -> & _ & Hr); [done|].
  destruct (decide (9 < r)%nat) as [Hlt|]; [|lia]. apply Hr in Hlt; [|lia].
  assert (U64_MAX / BRANCH_FACTOR ^ N.of_nat 9 = 0)%N as E by (vm_compute; reflexivity).
  rewrite E in Hlt. lia.
Qed.

(** With the production branch factor a rank is at least 1 and at most 9. *)
Theorem geometric_rank_bounds h : (1 <= geometric_rank h <= 9)%nat.
Proof.
  split; [|apply geometric_rank_le]. unfold geometric_rank.
  by destruct (compute_rank_spec (E := DialogSearchTreeError) h BRANCH_FACTOR) as (r & -> & ? & _).
Qed.
End ranks.

(** ** Trees under the production distribution *)
Section production.
Context {K V : Type} `{Key K} `{NodeCodec K V} `{Blake3}.
#[local] Existing Instance Geometric.
Context (acc : Accessor) (Hnull : null_absent acc).
Implicit Types (es : list (Entry K V)) (root : TransientRoot K V).

(** C32: Under the production distribution no tree is higher than 10 levels, so
    no lookup meets the walker's depth limit of 32: after any batch of edits
    every lookup succeeds, with constant fuel. *)
Theorem production_depth_suffices edits es root :
  represents 9 acc es root ->
  exists root', apply_edits acc 11 edits root = Ok root' /\
    forall k, get acc root' k = Ok (lookup_entry k (edit_entries edits es)).
Proof.
  intros Hr.
  destruct (apply_edits_correct 9 (fun b => geometric_rank_le (blake3 b)) acc 11 ltac:(lia) edits es root Hr)
    as (root' & Ha & Hr'). exists root'. split; [done|]. intros k.
  apply (get_represents acc Hnull 9 _ root' k); [unfold MAXIMUM_TREE_DEPTH; lia|done].
Qed.
End production.

Section demo.
#[local] Existing Instances byte_key byte_codec toy_blake3 Geometric.

Lemma geometric_rank_thresholds_witness :
  exists r, compute_geometric_rank (E := DialogSearchTreeError) (blake3 [x01]) 254 = Ok r /\ (1 <= r)%nat /\
    forall j, (1 <= j)%nat ->
      (j < r)%nat <-> (prefix_of (blake3 [x01]) < U64_MAX / 254 ^ N.of_nat j)%N.
Proof. apply geometric_rank_thresholds. lia. Defined.

Lemma production_depth_suffices_witness :
  exists root', apply_edits no_storage 11 [Upsert (mkEntry x01 x02)] (edit_tree empty_tree : TransientRoot byte byte) = Ok root' /\
    forall k, get no_storage root' k = Ok (lookup_entry k (edit_entries [Upsert (mkEntry x01 x02)] [])).
Proof.
  apply (production_depth_suffices no_storage); [by intros node|].
  split; [constructor|]. exists None. split; [|done]. apply load_null.
Defined.

(** The boundaries of the ranks (the tests of distribution.rs). *)
Definition hash_for (prefix : N) : Blake3Hash := mkBlake3Hash (N_to_bytes 32 prefix).
Example rank_of_zero : geometric_rank (hash_for 0) = 9%nat.
Proof. vm_compute. reflexivity. Qed.
Example rank_of_max : geometric_rank (hash_for U64_MAX) = 1%nat.
Proof. vm_compute. reflexivity. Qed.
Example rank_at_threshold :
  geometric_rank (hash_for (U64_MAX / 254)) = 1%nat /\
  geometric_rank (hash_for (U64_MAX / 254 - 1)) = 2%nat.
Proof. vm_compute. split; reflexivity. Qed.
End demo.
