(* ===== verification/Storage.v ===== *)
(** Storage backends and the layers that wrap them
    (rust/dialog-storage/src/storage: backend.rs, backend/memory.rs, overlay.rs,
    cache.rs, compress.rs, measure.rs).

    A backend is a state with fallible [set] and [get]; what it promises is
    stated once, in [BackendLaws], and every layer keeps the promise of the
    backend below it. *)
From S2P Require Import Prelude Common Nodes.

(** [trait StorageBackend].  [get] takes the state too: layers count and cache. *)
Class StorageBackend (S K V E : Type) := {
  backend_set : K -> V -> stateful S E unit;
  backend_get : K -> stateful S E (option V)
}.

(** What a backend promises: it behaves like the finite map [contents], as long
    as its operations succeed from a state that is [valid]. *)
Class BackendLaws (S K V E : Type) `{Countable K} `{!StorageBackend S K V E} := {
  contents : S -> gmap K V;
  valid : S -> Prop;
  get_law : forall k s s' o, valid s -> backend_get k s = (s', Ok o) ->
    o = contents s !! k /\ contents s' = contents s /\ valid s';
  set_law : forall k v s s', valid s -> backend_set k v s = (s', Ok tt) ->
    contents s' = <[k := v]> (contents s) /\ valid s'
}.

(** The [sieve_cache] crate: a bounded map that may forget. *)
Class SieveCache (C K V : Type) `{Countable K} := {
  cache_entries : C -> gmap K V;
  cache_new : nat -> option C;
  cache_get : K -> C -> C * option V;
  cache_insert : K -> V -> C -> C;
  cache_new_capacity : forall n, cache_new n = None <-> n = 0%nat;
  cache_new_empty : forall n c, cache_new n = Some c -> cache_entries c = ∅;
  cache_get_entries : forall k c, cache_entries (cache_get k c).1 = cache_entries c;
  cache_get_value : forall k c, (cache_get k c).2 = cache_entries c !! k;
  cache_insert_entries : forall k v c, cache_entries (cache_insert k v c) ⊆ <[k := v]> (cache_entries c)
}.

(** * The memory backend *)
Record MemoryStorageBackend (K V : Type) `{Countable K} := mkMemory { entries : gmap K V }.
Arguments mkMemory {K V _ _} entries.
Arguments entries {K V _ _} m.

Section memory.
Context {K V : Type} `{Countable K}.
Local Abbreviation Memory := (MemoryStorageBackend K V).

Definition memory_set (k : K) (v : V) : stateful Memory DialogStorageError unit := fun s =>
  (mkMemory (<[k := v]> (entries s)), Ok tt).
Definition memory_get (k : K) : stateful Memory DialogStorageError (option V) := fun s =>
  (s, Ok (entries s !! k)).

#[export] Instance memory_backend : StorageBackend Memory K V DialogStorageError := {|
  backend_set := memory_set; backend_get := memory_get |}.

#[export] Instance memory_laws : BackendLaws Memory K V DialogStorageError.
Proof.
  refine {| contents := entries; valid := fun _ => True |}.
  - intros k s s' o _ [= <- <-]. done.
  - intros k v s s' _ [= <-]. done.
Defined.

(** [StorageSource::read] and [drain]. *)
Definition memory_read (s : Memory) : list (K * V) := map_to_list (entries s).
Definition memory_drain (s : Memory) : list (K * V) * Memory := (map_to_list (entries s), mkMemory ∅).
End memory.

(** * Transactional memory over the memory backend: compare and swap *)
Section cas.
Context {K : Type} `{Countable K} `{Blake3}.
Local Abbreviation Memory := (MemoryStorageBackend K bytes).

(** [TransactionalMemoryBackend::resolve] and [replace]; the edition of a value
    is its content hash. *)
Definition memory_resolve (address : K)
    : stateful Memory DialogStorageError (option (bytes * Blake3Hash)) := fun s =>
  (s, Ok (option_map (fun value => (value, blake3 value)) (entries s !! address))).

Definition memory_replace (address : K) (edition : option Blake3Hash) (content : option bytes)
    : stateful Memory DialogStorageError (option Blake3Hash) := fun s =>
  let conflict message := (s, Err (StorageBackendError message)) in
  let commit :=
    match content with
    | Some value => (mkMemory (<[address := value]> (entries s)), Ok (Some (blake3 value)))
    | None => (mkMemory (delete address (entries s)), Ok None)
    end in
  match edition, entries s !! address with
  | None, Some _ => conflict "CAS conflict: key already exists"
  | Some expected_hash, Some existing_value =>
      if decide (blake3 existing_value = expected_hash) then commit
      else conflict "CAS conflict: content hash mismatch"
  | Some _, None => conflict "CAS conflict: key does not exist"
  | None, None => commit
  end.

(** Compare-and-swap in the memory backend: a replace succeeds exactly when
    the edition is the one of the current value (or none and there is no
    value); it then stores the content, or deletes, at that address only, and
    returns the edition a later resolve returns; on a conflict nothing changes. *)
Theorem memory_replace_cas address edition content s :
  let current := blake3 <$> entries s !! address in
  if decide (edition = current) then
    exists s', memory_replace address edition content s = (s', Ok (blake3 <$> content)) /\
      entries s' !! address = content /\
      (forall k, k <> address -> entries s' !! k = entries s !! k) /\
      memory_resolve address s' = (s', Ok ((fun v => (v, blake3 v)) <$> content))
  else exists message, memory_replace address edition content s = (s, Err (StorageBackendError message)).
Proof.
  unfold memory_replace, memory_resolve. simpl.
  case_decide as Hd.
  - subst edition.
    assert (exists s', match content with
            | Some value => (mkMemory (<[address := value]> (entries s)), Ok (Some (blake3 value)))
            | None => (mkMemory (delete address (entries s)), Ok None)
            end = (s', Ok (E := DialogStorageError) (blake3 <$> content)) /\
            entries s' !! address = content /\
            (forall k, k <> address -> entries s' !! k = entries s !! k)) as (s' & Hc & Ha & Hk).
    { destruct content as [value|]; eexists; (split; [reflexivity|]); simpl.
      - split; [by rewrite lookup_insert_eq|]. intros. by rewrite lookup_insert_ne.
      - split; [by rewrite lookup_delete_eq|]. intros. by rewrite lookup_delete_ne. }
    exists s'. rewrite Ha. destruct (entries s !! address) as [b|]; simpl.
    + rewrite decide_True by done. by split_and!.
    + by split_and!.
  - destruct edition as [e|], (entries s !! address) as [b|]; simpl in *; try done; [|eauto..].
    rewrite decide_False by (intros E; apply Hd; by f_equal). eauto.
Qed.
End cas.

(** * Layers *)

(** [StorageOverlay]: writes go to the overlay, reads fall through it. *)
Section overlay.
Context {B O K V E F : Type} `{Countable K} `{!StorageBackend B K V E} `{!StorageBackend O K V F}.
Context (from_overlay : F -> E).

Record StorageOverlay := mkOverlay { overlay_backend : B; overlay_overlay : O }.

Definition overlay_set (k : K) (v : V) : stateful StorageOverlay E unit := fun s =>
  let '(o, r) := backend_set k v (overlay_overlay s) in
  (mkOverlay (overlay_backend s) o, map_err from_overlay r).
Definition overlay_get (k : K) : stateful StorageOverlay E (option V) := fun s =>
  let '(o, r) := backend_get k (overlay_overlay s) in
  match r with
  | Ok (Some v) => (mkOverlay (overlay_backend s) o, Ok (Some v))
  | Ok None =>
      let '(b, r) := backend_get k (overlay_backend s) in (mkOverlay b o, r)
  | Err e => (mkOverlay (overlay_backend s) o, Err (from_overlay e))
  | Panic m => (mkOverlay (overlay_backend s) o, Panic m)
  | OutOfFuel => (mkOverlay (overlay_backend s) o, OutOfFuel)
  end.

#[export] Instance overlay_storage : StorageBackend StorageOverlay K V E := {|
  backend_set := overlay_set; backend_get := overlay_get |}.

Context `{!BackendLaws B K V E} `{!BackendLaws O K V F}.

#[export] Instance overlay_laws : BackendLaws StorageOverlay K V E.
Proof.
  refine {| contents s := contents (overlay_overlay s) ∪ contents (overlay_backend s);
            valid s := valid (overlay_overlay s) /\ valid (overlay_backend s) |}.
  - intros k [b o] s' r [Ho Hb]. simpl. unfold overlay_get. simpl.
    destruct (backend_get k o) as [o' ro] eqn:Eo. destruct ro as [[v|]| | |]; try done.
    + intros [= <- <-]. destruct (get_law _ _ _ _ Ho Eo) as (Hv & Hco & Ho'). simpl. rewrite Hco.
      split_and!; [|done|done|done]. by rewrite (lookup_union_Some_l _ _ _ v).
    + destruct (backend_get k b) as [b' rb] eqn:Eb. intros [= <- ->].
      destruct (get_law _ _ _ _ Ho Eo) as (Hv & Hco & Ho').
      destruct (get_law _ _ _ _ Hb Eb) as (-> & Hcb & Hb'). simpl. rewrite Hco, Hcb.
      split_and!; [|done|done|done]. by rewrite lookup_union_r.
  - intros k v [b o] s' [Ho Hb]. simpl. unfold overlay_set. simpl.
    destruct (backend_set k v o) as [o' ro] eqn:Eo. destruct ro as [[]| | |]; try done.
    intros [= <-]. destruct (set_law _ _ _ _ Ho Eo) as [Hco Ho']. simpl. rewrite Hco.
    split; [by rewrite insert_union_l|done].
Defined.

(** A write through an overlay reaches the overlay only: whether it succeeds
    or fails, the state of the checkpointed backend is untouched, and the write
    is what the overlay then returns. *)
Theorem overlay_set_keeps_backend k v s s' r :
  backend_set (S := StorageOverlay) k v s = (s', r) ->
  overlay_backend s' = overlay_backend s /\
  (r = Ok tt -> valid (overlay_overlay s) ->
   forall s'' o, backend_get k s' = (s'', Ok o) -> o = Some v).
Proof.
  destruct s as [b o]. simpl. unfold overlay_set. simpl.
  destruct (backend_set k v o) as [o' ro] eqn:Eo. intros [= <- <-]. split; [done|].
  intros Hr Hv s'' r'. destruct ro as [[]| | |]; try done.
  destruct (set_law _ _ _ _ Hv Eo) as [Hc Hv']. unfold overlay_get. simpl.
  destruct (backend_get k o') as [o'' [[v'|]| | |]] eqn:Eg; try done.
  - intros [= <- <-]. destruct (get_law _ _ _ _ Hv' Eg) as [Hl _].
    by rewrite Hc, lookup_insert_eq in Hl.
  - destruct (get_law _ _ _ _ Hv' Eg) as [Hl _]. by rewrite Hc, lookup_insert_eq in Hl.
Qed.
End overlay.
Arguments StorageOverlay : clear implicits.
Arguments mkOverlay {B O} overlay_backend overlay_overlay.

(** [StorageCache]: a cache in front of a backend. *)
Section cache.
Context {B C K V E : Type} `{Countable K} `{!StorageBackend B K V E} `{!SieveCache C K V}.

Record StorageCache := mkStorageCache { cache_backend : B; cache_cache : C }.

Definition StorageCache_new (backend : B) (cache_size : nat)
    : outcome DialogStorageError StorageCache :=
  cache ← ok_or (StorageBackendError "Could not initialize cache") (cache_new cache_size);
  Ok (mkStorageCache backend cache).

Definition cache_storage_set (k : K) (v : V) : stateful StorageCache E unit := fun s =>
  let cache := cache_insert k v (cache_cache s) in
  let '(b, r) := backend_set k v (cache_backend s) in
  (mkStorageCache b cache, r).
Definition cache_storage_get (k : K) : stateful StorageCache E (option V) := fun s =>
  let '(cache, hit) := cache_get k (cache_cache s) in
  match hit with
  | Some v => (mkStorageCache (cache_backend s) cache, Ok (Some v))
  | None =>
      let '(b, fetched) := backend_get k (cache_backend s) in
      match fetched with
      | Ok (Some v) => (mkStorageCache b (cache_insert k v cache), Ok (Some v))
      | r => (mkStorageCache b cache, r)
      end
  end.

#[export] Instance cache_storage : StorageBackend StorageCache K V E := {|
  backend_set := cache_storage_set; backend_get := cache_storage_get |}.

Context `{!BackendLaws B K V E}.

(** The cache is coherent when it holds nothing the backend does not. *)
#[export] Instance cache_storage_laws : BackendLaws StorageCache K V E.
Proof.
  refine {| contents s := contents (cache_backend s);
            valid s := valid (cache_backend s) /\ cache_entries (cache_cache s) ⊆ contents (cache_backend s) |}.
  - intros k [b c] s' o [Hv Hc]. simpl in *. unfold cache_storage_get. simpl.
    pose proof (cache_get_value k c) as Hhit. pose proof (cache_get_entries k c) as Hent.
    destruct (cache_get k c) as [c' hit]. simpl in *. subst hit.
    destruct (cache_entries c !! k) as [v|] eqn:Ek.
    + intros [= <- <-]. simpl. split_and!; [|done|done|by rewrite Hent].
      symmetry. by eapply lookup_weaken.
    + destruct (backend_get k b) as [b' [[v|]| | |]] eqn:Eg; intros [= <- <-];
        destruct (get_law _ _ _ _ Hv Eg) as (Hl & Hcb & Hv'); simpl; rewrite Hcb;
        (split_and!; [done|done|done|]); [|by rewrite Hent].
      etrans; [apply cache_insert_entries|]. rewrite Hent. apply insert_subseteq_l; [by symmetry|done].
  - intros k v [b c] s' [Hv Hc]. simpl in *. unfold cache_storage_set. simpl.
    destruct (backend_set k v b) as [b' r] eqn:Es. intros [= <- ->].
    destruct (set_law _ _ _ _ Hv Es) as [Hcb Hv']. simpl. rewrite Hcb. split_and!; [done|done|].
    etrans; [apply cache_insert_entries|]. by apply insert_mono.
Defined.

(** A failed write is served from the cache: when the backend refuses a
    write, a read through the cache that still holds the entry returns the
    refused value as if it had been stored. *)
Theorem cache_serves_refused_write k v s b' error :
  backend_set k v (cache_backend s) = (b', Err error) ->
  cache_entries (cache_insert k v (cache_cache s)) !! k = Some v ->
  exists s' s'', backend_set (S := StorageCache) k v s = (s', Err error) /\
    backend_get k s' = (s'', Ok (Some v)) /\ cache_backend s'' = b'.
Proof.
  intros Hset Hent. destruct s as [b c]. simpl in *. unfold cache_storage_set. simpl. rewrite Hset.
  pose proof (cache_get_value k (cache_insert k v c)) as Hhit. rewrite Hent in Hhit.
  destruct (cache_get k (cache_insert k v c)) as [c' hit] eqn:Eg. simpl in Hhit. subst hit.
  exists (mkStorageCache b' (cache_insert k v c)), (mkStorageCache b' c').
  unfold cache_storage_get. simpl. by rewrite Eg.
Qed.
End cache.
Arguments StorageCache : clear implicits.
Arguments mkStorageCache {B C} cache_backend cache_cache.

(** [CompressedStorage]: the [brotli] crate's writer and reader are parameters. *)
Class Brotli := {
  compress : bytes -> option bytes;
  decompress : bytes -> option bytes;
  decompress_compress : forall b c, compress b = Some c -> decompress c = Some b
}.

Section compressed.
Context {B K E : Type} `{Countable K} `{!StorageBackend B K bytes E} `{!Brotli}.
Context (into : E -> DialogStorageError).

Record CompressedStorage := mkCompressed { compressed_backend : B }.

Definition compressed_set (k : K) (v : bytes) : stateful CompressedStorage DialogStorageError unit := fun s =>
  match compress v with
  | None => (s, Err (StorageBackendError "Could not compress blob"))
  | Some c =>
      let '(b, r) := backend_set k c (compressed_backend s) in (mkCompressed b, map_err into r)
  end.
Definition compressed_get (k : K)
    : stateful CompressedStorage DialogStorageError (option bytes) := fun s =>
  let '(b, r) := backend_get k (compressed_backend s) in
  (mkCompressed b,
   value ← map_err into r;
   match value with
   | Some value =>
       match decompress value with
       | Some d => Ok (Some d)
       | None => Err (StorageBackendError "Could not decompress blob")
       end
   | None => Ok None
   end).

#[export] Instance compressed_storage : StorageBackend CompressedStorage K bytes DialogStorageError := {|
  backend_set := compressed_set; backend_get := compressed_get |}.

Context `{!BackendLaws B K bytes E}.

#[export] Instance compressed_laws : BackendLaws CompressedStorage K bytes DialogStorageError.
Proof.
  refine {| contents s := omap decompress (contents (compressed_backend s));
            valid s := valid (compressed_backend s) /\
              forall k v, contents (compressed_backend s) !! k = Some v -> is_Some (decompress v) |}.
  - intros k [b] s' o [Hv Hd]. simpl in *. unfold compressed_get. simpl.
    destruct (backend_get k b) as [b' r] eqn:Eg. intros [= <- Ho]. simpl.
    destruct r as [r| | |]; try done. destruct (get_law _ _ _ _ Hv Eg) as (Hl & -> & Hv').
    simpl in Ho. rewrite lookup_omap. destruct r as [v|]; simpl in *.
    + rewrite <- Hl. simpl. destruct (decompress v) as [d|] eqn:Ed; [|done]. by injection Ho as <-.
    + rewrite <- Hl. by injection Ho as <-.
  - intros k v [b] s' [Hv Hd]. simpl in *. unfold compressed_set. simpl.
    destruct (compress v) as [c|] eqn:Ec; [|done].
    destruct (backend_set k c b) as [b' r] eqn:Es. intros [= <- Hr].
    destruct r as [[]| | |]; try done. destruct (set_law _ _ _ _ Hv Es) as [Hcb Hv']. simpl. rewrite Hcb.
    pose proof (decompress_compress _ _ Ec) as Hdc. split_and!; [|done|].
    + by rewrite (omap_insert_Some _ _ _ _ v).
    + intros k' v'. rewrite lookup_insert_Some. intros [[<- <-]|[_ Hl]]; eauto.
Defined.
End compressed.
Arguments CompressedStorage : clear implicits.
Arguments mkCompressed {B} compressed_backend.

(** [MeasuredStorage]: counters that wrap around at the width of [usize]. *)
Section measured.
Context {B K V E : Type} `{Countable K} `{!StorageBackend B K V E}.
Context (key_len : K -> N) (value_len : V -> N).

Definition fetch_add (counter n : N) : N := (counter + n) mod 2 ^ 64.

Record MeasuredStorage := mkMeasured {
  reads : N; read_bytes : N; writes : N; write_bytes : N; measured_backend : B
}.

Definition MeasuredStorage_new (backend : B) : MeasuredStorage := mkMeasured 0 0 0 0 backend.

Definition measured_set (k : K) (v : V) : stateful MeasuredStorage E unit := fun s =>
  let '(b, r) := backend_set k v (measured_backend s) in
  (mkMeasured (reads s) (read_bytes s) (fetch_add (writes s) 1)
     (fetch_add (write_bytes s) (key_len k + value_len v)) b, r).
Definition measured_get (k : K) : stateful MeasuredStorage E (option V) := fun s =>
  let reads' := fetch_add (reads s) 1 in
  let '(b, r) := backend_get k (measured_backend s) in
  match r with
  | Ok value =>
      (mkMeasured reads' (fetch_add (read_bytes s) (from_option value_len 0%N value))
         (writes s) (write_bytes s) b, Ok value)
  | r => (mkMeasured reads' (read_bytes s) (writes s) (write_bytes s) b, r)
  end.

#[export] Instance measured_storage : StorageBackend MeasuredStorage K V E := {|
  backend_set := measured_set; backend_get := measured_get |}.

Context `{!BackendLaws B K V E}.

#[export] Instance measured_laws : BackendLaws MeasuredStorage K V E.
Proof.
  refine {| contents s := contents (measured_backend s); valid s := valid (measured_backend s) |}.
  - intros k s s' o Hv. simpl. unfold measured_get.
    destruct (backend_get k (measured_backend s)) as [b' [r| | |]] eqn:Eg; intros [= <- <-].
    by apply get_law.
  - intros k v s s' Hv. simpl. unfold measured_set.
    destruct (backend_set k v (measured_backend s)) as [b' r] eqn:Es. intros [= <- ->].
    by apply set_law.
Defined.
End measured.
Arguments MeasuredStorage : clear implicits.

(** * What the promise gives a client

    A client that issues reads and writes sees a finite map, whatever stack of
    layers it talks to. *)
Section client.
Context {S K V E : Type} `{Countable K} `{!StorageBackend S K V E} `{!BackendLaws S K V E}.

Inductive request := Get (k : K) | Set_ (k : K) (v : V).

Fixpoint serve (requests : list request) : stateful S E (list (option V)) :=
  match requests with
  | [] => mret []
  | Get k :: rest => o ← backend_get k; os ← serve rest; mret (o :: os)
  | Set_ k v :: rest => _ ← backend_set k v; serve rest
  end.

Fixpoint answers (requests : list request) (m : gmap K V) : list (option V) :=
  match requests with
  | [] => []
  | Get k :: rest => (m !! k) :: answers rest m
  | Set_ k v :: rest => answers rest (<[k := v]> m)
  end.

Lemma serve_refines requests : forall s s' os,
  valid s -> serve requests s = (s', Ok os) -> os = answers requests (contents s) /\ valid s'.
Proof.
  induction requests as [|[k|k v] rest IH]; intros s s' os Hv; cbn [serve answers].
  - intros [= <- <-]. done.
  - unfold mbind, stateful_bind. destruct (backend_get k s) as [s1 [o| | |]] eqn:Eg; try done.
    destruct (get_law _ _ _ _ Hv Eg) as (-> & Hc & Hv1).
    destruct (serve rest s1) as [s2 [os'| | |]] eqn:Es; try done. intros [= <- <-].
    destruct (IH _ _ _ Hv1 Es) as [-> Hv2]. by rewrite Hc.
  - unfold mbind, stateful_bind. destruct (backend_set k v s) as [s1 [[]| | |]] eqn:Eg; try done.
    destruct (set_law _ _ _ _ Hv Eg) as (Hc & Hv1). intros Es.
    destruct (IH _ _ _ Hv1 Es) as [-> Hv2]. by rewrite Hc.
Qed.
End client.
Arguments request : clear implicits.

(** Backends whose operations always succeed. *)
Class BackendTotal (S K V E : Type) `{!StorageBackend S K V E} := {
  get_total : forall k s, exists s' o, backend_get k s = (s', Ok o);
  set_total : forall k v s, exists s', backend_set k v s = (s', Ok tt)
}.

Section total.
Context {K V : Type} `{Countable K}.

#[export] Instance memory_total : BackendTotal (MemoryStorageBackend K V) K V DialogStorageError.
Proof. split; intros; simpl; unfold memory_get, memory_set; eauto. Qed.

#[export] Instance overlay_total {B O E F} (from_overlay : F -> E)
  `{!StorageBackend B K V E} `{!StorageBackend O K V F}
  `{!BackendTotal B K V E} `{!BackendTotal O K V F} :
  @BackendTotal (StorageOverlay B O) K V E (overlay_storage from_overlay).
Proof.
  split.
  - intros k [b o]. simpl. unfold overlay_get. simpl.
    destruct (get_total k o) as (o' & [v|] & ->); [eauto|].
    destruct (get_total k b) as (b' & r & ->). eauto.
  - intros k v [b o]. simpl. unfold overlay_set. simpl.
    destruct (set_total k v o) as (o' & ->). eauto.
Qed.

#[export] Instance cache_total {B C E} `{!StorageBackend B K V E} `{!SieveCache C K V}
  `{!BackendTotal B K V E} : BackendTotal (StorageCache B C) K V E.
Proof.
  split.
  - intros k [b c]. simpl. unfold cache_storage_get. simpl. destruct (cache_get k c) as [c' [v|]]; [eauto|].
    destruct (get_total k b) as (b' & [v|] & ->); eauto.
  - intros k v [b c]. simpl. unfold cache_storage_set. simpl.
    destruct (set_total k v b) as (b' & ->). eauto.
Qed.

#[export] Instance measured_total {B E} key_len value_len `{!StorageBackend B K V E}
  `{!BackendTotal B K V E} :
  @BackendTotal (MeasuredStorage B) K V E (measured_storage key_len value_len).
Proof.
  split.
  - intros k s. simpl. unfold measured_get.
    destruct (get_total k (measured_backend s)) as (b' & o & ->). eauto.
  - intros k v s. simpl. unfold measured_set.
    destruct (set_total k v (measured_backend s)) as (b' & ->). eauto.
Qed.

Lemma serve_total {S E} `{!StorageBackend S K V E} `{!BackendTotal S K V E} requests :
  forall s : S, exists s' os, serve (K := K) (V := V) (E := E) requests s = (s', Ok os).
Proof.
  induction requests as [|[k|k v] rest IH]; intros s; cbn [serve].
  - do 2 eexists. done.
  - destruct (get_total k s) as (s1 & o & Eg). destruct (IH s1) as (s2 & os & Es).
    exists s2, (o :: os). rewrite (stateful_bind_Ok _ _ _ _ _ Eg). by rewrite (stateful_bind_Ok _ _ _ _ _ Es).
  - destruct (set_total k v s) as (s1 & Eg). destruct (IH s1) as (s2 & os & Es).
    exists s2, os. by rewrite (stateful_bind_Ok _ _ _ _ _ Eg).
Qed.
End total.

Section stack.
Context {K V C : Type} `{Countable K} `{!SieveCache C K V} (key_len : K -> N) (value_len : V -> N).
Local Abbreviation Memory := (MemoryStorageBackend K V).
#[local] Existing Instances overlay_storage overlay_laws overlay_total
  measured_storage measured_laws measured_total.
Local Abbreviation Stack := (MeasuredStorage (StorageCache (StorageOverlay Memory Memory) C)).
#[local] Instance stack_storage : StorageBackend Stack K V DialogStorageError :=
  measured_storage key_len value_len (StorageBackend0 := cache_storage (StorageBackend0 := overlay_storage id)).

(** C31: Layers are transparent: a client of a measured cache over an overlay
    over two memory backends gets, for every sequence of reads and writes, the
    answers of one finite map (the overlay's entries over the backend's); a
    cache that forgets entries at will changes nothing, and no request fails. *)
Theorem layers_refine_map (backend overlay : Memory) (cache : C) size requests :
  cache_new size = Some cache ->
  exists s' : Stack,
    serve requests (MeasuredStorage_new (mkStorageCache (mkOverlay backend overlay) cache))
    = (s', Ok (answers requests (entries overlay ∪ entries backend))).
Proof.
  intros Hc.
  destruct (serve_total (S := Stack) requests
              (MeasuredStorage_new (mkStorageCache (mkOverlay backend overlay) cache))) as (s' & os & Es).
  exists s'. rewrite Es. f_equal. f_equal.
  eapply (serve_refines (S := Stack)) in Es as [-> _]; [reflexivity|].
  simpl. split_and!; [done|done|]. rewrite (cache_new_empty _ _ Hc). apply map_empty_subseteq.
Qed.
End stack.
