(* ===== verification/Journal.v ===== *)
(** The journaled backend (rust/dialog-storage/src/storage/journal.rs): a log of
    operations and two indices into it. *)
From S2P Require Import Prelude Common Nodes Storage.

Inductive Operation := Read | Write.
#[export] Instance Operation_eq_dec : EqDecision Operation.
Proof. solve_decision. Defined.

Record JournalEntry (K : Type) := mkJournalEntry { operation : Operation; entry_key : K }.
Arguments mkJournalEntry {K} operation entry_key.
Arguments operation {K} j.
Arguments entry_key {K} j.

Record JournalState (K : Type) `{Countable K} := mkJournalState {
  log : list (JournalEntry K);
  read_index : gmap K (list nat);
  write_index : gmap K (list nat);
  enabled : bool
}.
Arguments mkJournalState {K _ _} log read_index write_index enabled.
Arguments log {K _ _} j.
Arguments read_index {K _ _} j.
Arguments write_index {K _ _} j.
Arguments enabled {K _ _} j.

Section journal.
Context {K : Type} `{Countable K}.
Implicit Types (s : JournalState K) (entry : JournalEntry K) (k : K).

Definition JournalState_new : JournalState K := mkJournalState [] ∅ ∅ true.

(** [entry(key).or_default().push(offset)]. *)
Definition push_offset (index : gmap K (list nat)) k (offset : nat) : gmap K (list nat) :=
  <[k := default [] (index !! k) ++ [offset]]> index.

Definition push entry s : JournalState K :=
  if enabled s then
    let offset := length (log s) in
    let k := entry_key entry in
    match operation entry with
    | Read => mkJournalState (log s ++ [entry]) (push_offset (read_index s) k offset)
                (write_index s) (enabled s)
    | Write => mkJournalState (log s ++ [entry]) (read_index s)
                 (push_offset (write_index s) k offset) (enabled s)
    end
  else s.

Definition clear s : JournalState K := mkJournalState [] ∅ ∅ (enabled s).
Definition disable_journal s : JournalState K :=
  mkJournalState (log s) (read_index s) (write_index s) false.
Definition enable_journal s : JournalState K :=
  mkJournalState (log s) (read_index s) (write_index s) true.

Definition get_journal s : list (JournalEntry K) := log s.
Definition of_operation (op : Operation) (entry : JournalEntry K) : bool :=
  bool_decide (operation entry = op).
Definition get_reads s : list K := entry_key <$> List.filter (of_operation Read) (log s).
Definition get_writes s : list K := entry_key <$> List.filter (of_operation Write) (log s).
Definition journal_len s : nat := length (log s).
Definition read_count s : nat := length (List.filter (of_operation Read) (log s)).
Definition write_count s : nat := length (List.filter (of_operation Write) (log s)).
Definition get_read_counts s : gmap K nat := length <$> read_index s.
Definition get_write_counts s : gmap K nat := length <$> write_index s.
Definition get_operation_counts s : gmap K nat :=
  union_with (fun a b : nat => Some (a + b)%nat) (get_read_counts s) (get_write_counts s).

(** The entries at given offsets; indexing the log panics out of range. *)
Definition at_offsets {E} s (offsets : list nat) : outcome E (list (JournalEntry K)) :=
  map_outcome (index_or_panic (log s)) offsets.
Definition get_reads_for_key {E} s k : outcome E (list (JournalEntry K)) :=
  match read_index s !! k with Some offsets => at_offsets s offsets | None => Ok [] end.
Definition get_writes_for_key {E} s k : outcome E (list (JournalEntry K)) :=
  match write_index s !! k with Some offsets => at_offsets s offsets | None => Ok [] end.
Definition get_operations_for_key {E} s k : outcome E (list (JournalEntry K)) :=
  at_offsets s (merge_sort le (default [] (read_index s !! k) ++ default [] (write_index s !! k))).
Definition keys_read s : list K := (map_to_list (read_index s)).*1.
Definition keys_written s : list K := (map_to_list (write_index s)).*1.
Definition unique_keys_read_count s : nat := size (read_index s).
Definition unique_keys_written_count s : nat := size (write_index s).

(** ** The indices point at the log *)
(** The offsets, from [at_] on, of the entries that satisfy [f]. *)
Fixpoint positions {A} (f : A -> bool) (l : list A) (at_ : nat) : list nat :=
  match l with
  | [] => []
  | x :: l => if f x then at_ :: positions f l (S at_) else positions f l (S at_)
  end.

Lemma positions_app {A} (f : A -> bool) l1 l2 at_ :
  positions f (l1 ++ l2) at_ = positions f l1 at_ ++ positions f l2 (at_ + length l1).
Proof.
  revert at_; induction l1 as [|x l1 IH]; intros at_; simpl.
  - by rewrite Nat.add_0_r.
  - rewrite IH, Nat.add_succ_comm. by destruct (f x).
Qed.

Lemma positions_lookup {E A} (f : A -> bool) l pre :
  map_outcome (E := E) (index_or_panic (pre ++ l)) (positions f l (length pre)) = Ok (List.filter f l).
Proof.
  revert pre; induction l as [|x l IH]; intros pre; [done|]. simpl.
  assert (map_outcome (E := E) (index_or_panic (pre ++ x :: l)) (positions f l (S (length pre)))
          = Ok (List.filter f l)) as Hl.
  { specialize (IH (pre ++ [x])). rewrite <- app_assoc, length_app, Nat.add_comm in IH. exact IH. }
  destruct (f x); [|done]. cbn [map_outcome].
  assert (index_or_panic (E := E) (pre ++ x :: l) (length pre) = Ok x) as ->
    by (unfold index_or_panic; by rewrite list_lookup_middle).
  cbn [mbind outcome_bind]. by rewrite Hl.
Qed.

Lemma positions_ge {A} (f : A -> bool) l at_ : Forall (le at_) (positions f l at_).
Proof.
  revert at_; induction l as [|x l IH]; intros at_; simpl; [constructor|].
  assert (Forall (le at_) (positions f l (S at_))) as Hl.
  { eapply Forall_impl; [apply IH|]. intros; lia. }
  by destruct (f x); [constructor|].
Qed.

Lemma positions_sorted {A} (f : A -> bool) l at_ : Sorted le (positions f l at_).
Proof.
  apply StronglySorted_Sorted. revert at_; induction l as [|x l IH]; intros at_; simpl; [constructor|].
  destruct (f x); [|done]. constructor; [done|].
  eapply Forall_impl; [apply positions_ge|]. intros; lia.
Qed.

(** Positions of a disjoint union. *)
Lemma positions_or {A} (f g : A -> bool) l at_ :
  (forall x, x ∈ l -> f x && g x = false) ->
  positions f l at_ ++ positions g l at_ ≡ₚ positions (fun x => f x || g x) l at_.
Proof.
  revert at_; induction l as [|x l IH]; intros at_ Hd; simpl; [done|].
  specialize (IH (S at_) ltac:(intros; apply Hd; set_solver)).
  pose proof (Hd x ltac:(set_solver)) as Hx.
  destruct (f x), (g x); simpl; try done; [by rewrite IH|].
  by rewrite <- IH, Permutation_middle.
Qed.

Definition for_key (op : Operation) k (entry : JournalEntry K) : bool :=
  of_operation op entry && bool_decide (entry_key entry = k).

Definition indexed (op : Operation) (index : gmap K (list nat)) (l : list (JournalEntry K)) : Prop :=
  forall k, index !! k = match positions (for_key op k) l 0 with [] => None | offsets => Some offsets end.

(** The invariant of the journal. *)
Definition journal_ok s : Prop :=
  indexed Read (read_index s) (log s) /\ indexed Write (write_index s) (log s).

Lemma push_indexed op index l entry :
  indexed op index l -> operation entry = op ->
  indexed op (push_offset index (entry_key entry) (length l)) (l ++ [entry]).
Proof.
  intros Hi Hop k. unfold push_offset. rewrite positions_app. simpl.
  unfold for_key at 2, of_operation. rewrite bool_decide_true by done. simpl.
  destruct (decide (entry_key entry = k)) as [<-|Hk].
  - rewrite lookup_insert_eq, bool_decide_true, Hi by done.
    destruct (positions _ l 0); [done|]. done.
  - rewrite lookup_insert_ne, bool_decide_false, Hi by done. by rewrite app_nil_r.
Qed.

Lemma push_not_indexed op index l entry :
  indexed op index l -> operation entry <> op -> indexed op index (l ++ [entry]).
Proof.
  intros Hi Hop k. rewrite positions_app. simpl.
  unfold for_key at 2, of_operation. rewrite bool_decide_false by done. simpl.
  by rewrite app_nil_r.
Qed.

Lemma push_ok entry s : journal_ok s -> journal_ok (push entry s).
Proof.
  intros [Hr Hw]. unfold push. destruct (enabled s); [|done].
  destruct (operation entry) eqn:Eo; split; simpl.
  - by apply push_indexed.
  - apply push_not_indexed; [done|by rewrite Eo].
  - apply push_not_indexed; [done|by rewrite Eo].
  - by apply push_indexed.
Qed.

(** What a user does to a journal. *)
Inductive journal_step : JournalState K -> JournalState K -> Prop :=
  | step_push entry s : journal_step s (push entry s)
  | step_clear s : journal_step s (clear s)
  | step_disable s : journal_step s (disable_journal s)
  | step_enable s : journal_step s (enable_journal s).

Lemma reachable_ok s : rtc journal_step JournalState_new s -> journal_ok s.
Proof.
  assert (forall s1 s2, rtc journal_step s1 s2 -> journal_ok s1 -> journal_ok s2) as Hall.
  { induction 1 as [|s1 s2 s3 Hstep _ IH]; [done|]. intros Hok. apply IH.
    destruct Hstep; [by apply push_ok|done|done|done]. }
  intros Hr. eapply Hall; [exact Hr|]. by split; intros k; simpl; rewrite lookup_empty.
Qed.

Lemma indexed_offsets op index l k :
  indexed op index l -> default [] (index !! k) = positions (for_key op k) l 0.
Proof. intros Hi. rewrite Hi. by destruct (positions _ _ _). Qed.

(** Whatever was recorded, cleared, disabled or enabled before, looking up
    the operations of a key never indexes outside the log, and returns exactly
    the logged operations on that key, in the order they occurred: the reads,
    the writes, and both merged. *)
Theorem journal_lookup_exact {E} s k :
  rtc journal_step JournalState_new s ->
  get_reads_for_key (E := E) s k = Ok (List.filter (for_key Read k) (log s)) /\
  get_writes_for_key (E := E) s k = Ok (List.filter (for_key Write k) (log s)) /\
  get_operations_for_key (E := E) s k
    = Ok (List.filter (fun entry => bool_decide (entry_key entry = k)) (log s)).
Proof.
  intros [Hr Hw]%reachable_ok.
  assert (forall op index, indexed op index (log s) ->
    match index !! k with Some offsets => at_offsets (E := E) s offsets | None => Ok [] end
    = Ok (List.filter (for_key op k) (log s))) as Hone.
  { intros op index Hi. pose proof (positions_lookup (E := E) (for_key op k) (log s) []) as Hp.
    rewrite Hi. simpl in Hp. destruct (positions (for_key op k) (log s) 0); exact Hp. }
  split_and!; [by apply Hone..|].
  unfold get_operations_for_key. rewrite !(indexed_offsets _ _ _ k Hr), !(indexed_offsets _ _ _ k Hw).
  assert (merge_sort le (positions (for_key Read k) (log s) 0 ++ positions (for_key Write k) (log s) 0)
          = positions (fun e => for_key Read k e || for_key Write k e) (log s) 0) as ->.
  { apply (Sorted_unique le); [apply Sorted_merge_sort; apply _|apply positions_sorted|].
    rewrite merge_sort_Permutation. apply positions_or.
    intros e _. unfold for_key, of_operation.
    by destruct (operation e), (bool_decide (entry_key e = k)). }
  unfold at_offsets. rewrite (positions_lookup _ (log s) []). f_equal.
  apply List.filter_ext. intros e. unfold for_key, of_operation.
  by destruct (operation e); simpl; rewrite ?orb_false_r.
Qed.
End journal.

(** * Journaling a backend *)
Section backend.
Context {K : Type} `{Countable K} {B V E : Type} `{!StorageBackend B K V E}.

Record JournaledStorage := mkJournaled { journaled_backend : B; state : JournalState K }.

Definition JournaledStorage_new (backend : B) : JournaledStorage :=
  mkJournaled backend JournalState_new.

Definition journaled_set (k : K) (v : V) : stateful JournaledStorage E unit := fun s =>
  let journal := push (mkJournalEntry Write k) (state s) in
  let '(b, r) := backend_set k v (journaled_backend s) in (mkJournaled b journal, r).
Definition journaled_get (k : K) : stateful JournaledStorage E (option V) := fun s =>
  let journal := push (mkJournalEntry Read k) (state s) in
  let '(b, r) := backend_get k (journaled_backend s) in (mkJournaled b journal, r).

#[export] Instance journaled_storage : StorageBackend JournaledStorage K V E := {|
  backend_set := journaled_set; backend_get := journaled_get |}.

Context `{!BackendLaws B K V E}.
#[export] Instance journaled_laws : BackendLaws JournaledStorage K V E.
Proof.
  refine {| contents s := contents (journaled_backend s); valid s := valid (journaled_backend s) |}.
  - intros k s s' o Hv. simpl. unfold journaled_get.
    destruct (backend_get k (journaled_backend s)) as [b' r] eqn:Eg. intros [= <- ->].
    by apply get_law.
  - intros k v s s' Hv. simpl. unfold journaled_set.
    destruct (backend_set k v (journaled_backend s)) as [b' r] eqn:Es. intros [= <- ->].
    by apply set_law.
Defined.
End backend.
Arguments JournaledStorage K {_ _} B.
