(* ===== verification/Access.v ===== *)
(** Reading nodes from storage (rust/dialog-search-tree/src: storage.rs, cache.rs,
    accessor.rs): hash-verified blocks behind a cache.  The theorems on trees are
    stated for an accessor that is a function of the hash; here that function is
    shown to be what the cached, stateful accessor computes. *)
From S2P Require Import Prelude Common Nodes Walker Batch Persist Storage.

Section content_addressed.
Context {B : Type} `{!StorageBackend B Blake3Hash bytes DialogStorageError} `{Blake3}.

(** [ContentAddressedStorage::store] and [retrieve]. *)
Definition store (b : bytes) (expected_identity : Blake3Hash) : stateful B DialogStorageError unit :=
  if matches expected_identity b then
    _ ← backend_set expected_identity b; mret tt
  else lift_outcome (Err (Verification "Cannot store the provided bytes")).

Definition retrieve (identity : Blake3Hash) : stateful B DialogStorageError (option bytes) :=
  found ← backend_get identity;
  match found with
  | Some b =>
      if matches identity b then mret (Some b)
      else lift_outcome (Err (Verification "Retrieved bytes did not match the provided hash"))
  | None => mret None
  end.

Context `{!BackendLaws B Blake3Hash bytes DialogStorageError}.

(** What a retrieval returns has the hash it was asked for: bytes that were
    corrupted or swapped in the backend are reported as a verification error
    and never returned. *)
Theorem retrieve_verifies identity s s' r :
  valid s -> retrieve identity s = (s', r) ->
  match r with
  | Ok (Some b) => contents s !! identity = Some b /\ blake3 b = identity
  | Ok None => contents s !! identity = None
  | _ => True
  end /\
  (forall b, contents s !! identity = Some b -> blake3 b <> identity -> forall o, r <> Ok o).
Proof.
  intros Hv. unfold retrieve, mbind, stateful_bind.
  destruct (backend_get identity s) as [s1 [o| | |]] eqn:Eg; [|by intros [= _ <-]..].
  destruct (get_law _ _ _ _ Hv Eg) as (-> & _ & _).
  destruct (contents s !! identity) as [b|] eqn:Eb.
  - destruct (matches identity b) eqn:Em; intros [= <- <-].
    + apply matches_true in Em. split; [done|]. intros b' [= <-] Hne. done.
    + split; [done|]. done.
  - intros [= <- <-]. split; [done|]. done.
Qed.

(** Storing bytes under their hash and retrieving them gives them back;
    storing them under any other hash is refused and leaves the backend as it
    was. *)
Theorem store_retrieve b identity s s' :
  valid s ->
  (store b identity s = (s', Ok tt) ->
   blake3 b = identity /\ contents s' = <[identity := b]> (contents s) /\
   forall s'' r, retrieve identity s' = (s'', Ok r) -> r = Some b) /\
  (blake3 b <> identity ->
   store b identity s = (s, Err (Verification "Cannot store the provided bytes"))).
Proof.
  intros Hv. unfold store. split.
  - destruct (matches identity b) eqn:Em; [|done]. apply matches_true in Em.
    unfold mbind, stateful_bind. destruct (backend_set identity b s) as [s1 [[]| | |]] eqn:Es; try done.
    intros [= <-]. destruct (set_law _ _ _ _ Hv Es) as [Hc Hv']. split_and!; [done|done|].
    intros s'' r. unfold retrieve, mbind, stateful_bind.
    destruct (backend_get identity s1) as [s2 [o| | |]] eqn:Eg; try done.
    destruct (get_law _ _ _ _ Hv' Eg) as (-> & _ & _). rewrite Hc, lookup_insert_eq.
    destruct (matches identity b); [by intros [= _ <-]|done].
  - intros Hne. destruct (matches identity b) eqn:Em; [|done]. by apply matches_true in Em.
Qed.
End content_addressed.

Section accessor.
Context {B C : Type} `{!StorageBackend B Blake3Hash bytes DialogStorageError} `{Blake3}.
Context `{!SieveCache C Blake3Hash bytes}.

(** [Cache::get_or_fetch] and [Cache::insert]; the cache is shared by handles. *)
Definition get_or_fetch {E} (k : Blake3Hash) (fetcher : Blake3Hash -> stateful B E (option bytes))
    : stateful (C * B) E (option bytes) := fun '(c, b) =>
  let '(c, hit) := cache_get k c in
  match hit with
  | Some value => ((c, b), Ok (Some value))
  | None =>
      let '(b, fetched) := fetcher k b in
      match fetched with
      | Ok (Some value) => ((cache_insert k value c, b), Ok (Some value))
      | r => ((c, b), r)
      end
  end.

(** [Accessor::get_node]. *)
Definition get_node (hash : Blake3Hash) : stateful (C * B) DialogSearchTreeError PersistentNode := fun s =>
  let '(s, r) := get_or_fetch hash retrieve s in
  (s, found ← map_err StorageError r;
      buffer ← ok_or (NodeError "Blob not found in storage") found;
      Ok (mkPersistentNode buffer)).

Context `{!BackendLaws B Blake3Hash bytes DialogStorageError}.
Context `{!BackendTotal B Blake3Hash bytes DialogStorageError}.

(** The function of the hash that a storage gives. *)
Definition accessor_of (m : gmap Blake3Hash bytes) : Accessor := fun hash =>
  match m !! hash with
  | Some b =>
      if matches hash b then Ok (mkPersistentNode b)
      else Err (StorageError (Verification "Retrieved bytes did not match the provided hash"))
  | None => Err (NodeError "Blob not found in storage")
  end.

(** The cache holds verified blocks of the storage. *)
Definition coherent (s : C * B) : Prop :=
  valid s.2 /\ forall h b, cache_entries s.1 !! h = Some b -> blake3 b = h /\ contents s.2 !! h = Some b.

(** C30: The cache is invisible: through any cache that holds verified blocks
    only, and whatever it has forgotten, a node access returns what the storage
    alone determines; the access leaves storage contents as they are and the
    cache coherent.  A cold cache is coherent. *)
Theorem get_node_transparent hash s :
  coherent s ->
  exists s', get_node hash s = (s', accessor_of (contents s.2) hash) /\
    contents s'.2 = contents s.2 /\ coherent s'.
Proof.
  destruct s as [c b]. intros [Hv Hc]. simpl in *. unfold get_node, get_or_fetch.
  pose proof (cache_get_value hash c) as Hhit. pose proof (cache_get_entries hash c) as Hent.
  destruct (cache_get hash c) as [c' hit]. simpl in *. subst hit.
  destruct (cache_entries c !! hash) as [v|] eqn:Ek.
  - destruct (Hc _ _ Ek) as [Hh Hl]. exists (c', b). split_and!; [|done|].
    + unfold accessor_of. rewrite Hl, (proj2 (matches_true hash v)); done.
    + split; [done|]. simpl. by rewrite Hent.
  - unfold retrieve, mbind, stateful_bind.
    destruct (get_total hash b) as (b' & o & Eg). rewrite Eg.
    destruct (get_law _ _ _ _ Hv Eg) as (-> & Hcb & Hv').
    unfold accessor_of. destruct (contents b !! hash) as [v|] eqn:El.
    + destruct (matches hash v) eqn:Em; simpl.
      * exists (cache_insert hash v c', b'). split_and!; [done|done|]. split; [done|]. simpl.
        intros h w Hw. eapply lookup_weaken in Hw; [|apply cache_insert_entries].
        rewrite Hent in Hw. apply lookup_insert_Some in Hw as [[<- <-]|[_ Hw]].
        -- rewrite Hcb. split; [by apply matches_true|done].
        -- destruct (Hc _ _ Hw). by rewrite Hcb.
      * exists (c', b'). split_and!; [done|done|]. split; [done|]. simpl. by rewrite Hent, Hcb.
    + exists (c', b'). simpl. split_and!; [done|done|]. split; [done|]. simpl. by rewrite Hent, Hcb.
Qed.

Lemma new_cache_coherent n c b : cache_new n = Some c -> valid b -> coherent (c, b).
Proof.
  intros Hn Hv. split; [done|]. simpl. rewrite (cache_new_empty _ _ Hn). intros h v. by rewrite lookup_empty.
Qed.
End accessor.

(** ** Flushing a delta into storage *)
Section flush.
Context {B : Type} `{!StorageBackend B Blake3Hash bytes DialogStorageError} `{Blake3}.
Context `{!BackendLaws B Blake3Hash bytes DialogStorageError}.
Context `{!BackendTotal B Blake3Hash bytes DialogStorageError}.

(** The flush of [Artifacts::commit]: each buffer of the delta is written under
    the hash computed from its bytes; the first failure ends the flush.  The
    writes are issued concurrently, so they happen in any order. *)
Fixpoint write_blocks (buffers : list bytes) : stateful B DialogStorageError unit :=
  match buffers with
  | [] => mret tt
  | b :: buffers => _ ← backend_set (blake3 b) b; write_blocks buffers
  end.

Definition block_map (buffers : list bytes) : gmap Blake3Hash bytes :=
  list_to_map ((fun b => (blake3 b, b)) <$> buffers).

Lemma write_blocks_spec buffers : forall s,
  valid s -> NoDup (blake3 <$> buffers) ->
  exists s', write_blocks buffers s = (s', Ok tt) /\ valid s' /\
    contents s' = block_map buffers ∪ contents s.
Proof.
  unfold block_map. induction buffers as [|b buffers IH]; intros s Hv Hnd; csimpl.
  - exists s. split_and!; [done|done|]. by rewrite map_empty_union.
  - apply NoDup_cons in Hnd as [Hni Hnd].
    destruct (set_total (blake3 b) b s) as [s1 Es]. destruct (set_law _ _ _ _ Hv Es) as [Hc Hv1].
    destruct (IH s1 Hv1 Hnd) as (s' & E' & Hv' & Hc'). exists s'. split_and!; [|done|].
    + cbn [write_blocks]. by rewrite (stateful_bind_Ok _ _ _ _ _ Es).
    + rewrite Hc', Hc. rewrite <- insert_union_l, insert_union_r; [done|].
      apply not_elem_of_list_to_map_1. by rewrite <- list_fmap_compose.
Qed.

(** What the flush of a delta writes, in any order, is the delta. *)
Lemma block_map_flush (delta : Delta.t) buffers :
  (forall h b, delta !! h = Some b -> blake3 b = h) -> buffers ≡ₚ (Delta.flush delta).1.*2 ->
  NoDup (blake3 <$> buffers) /\ block_map buffers = delta.
Proof.
  intros Hd Hperm. unfold Delta.flush in Hperm. simpl in Hperm.
  assert ((fun b => (blake3 b, b)) <$> (map_to_list delta).*2 = map_to_list delta) as Hpairs.
  { rewrite <- list_fmap_compose. rewrite <- (list_fmap_id (map_to_list delta)) at 2.
    apply list_fmap_ext. intros i [h b] Hi. simpl. f_equal. apply Hd.
    apply elem_of_map_to_list, list_elem_of_lookup. eauto. }
  assert (blake3 <$> (map_to_list delta).*2 = (map_to_list delta).*1) as Hkeys.
  { rewrite <- Hpairs at 2. generalize ((map_to_list delta).*2).
    intros l. induction l as [|b l IH]; csimpl; by f_equal. }
  split; [rewrite Hperm, Hkeys; apply NoDup_fst_map_to_list|].
  unfold block_map. rewrite <- (list_to_map_to_list delta).
  apply list_to_map_proper; [|by rewrite Hperm, Hpairs].
  rewrite <- list_fmap_compose. rewrite Hperm. change (NoDup (blake3 <$> (map_to_list delta).*2)).
  rewrite Hkeys. apply NoDup_fst_map_to_list.
Qed.

(** Flushing a delta stores every node of it, in whatever order the
    concurrent writes happen: none fails, and the storage then answers every
    node access like the storage before with the delta in front of it. *)
Theorem flush_delta_overlays (delta : Delta.t) buffers s :
  valid s -> (forall h b, delta !! h = Some b -> blake3 b = h) ->
  buffers ≡ₚ (Delta.flush delta).1.*2 ->
  exists s', write_blocks buffers s = (s', Ok tt) /\ (Delta.flush delta).2 = Delta.zero /\
    valid s' /\ contents s' = delta ∪ contents s /\
    forall h, accessor_of (contents s') h = overlay delta (accessor_of (contents s)) h.
Proof.
  intros Hv Hd Hperm. destruct (block_map_flush delta buffers Hd Hperm) as [Hnd Hmap].
  destruct (write_blocks_spec buffers s Hv Hnd) as (s' & E & Hv' & Hc).
  rewrite Hmap in Hc. exists s'. split_and!; try done. intros h.
  unfold accessor_of, overlay. rewrite Hc. destruct (delta !! h) as [b|] eqn:Eb.
  - rewrite (lookup_union_Some_l _ _ _ b) by done.
    by rewrite (proj2 (matches_true h b) (Hd _ _ Eb)).
  - by rewrite lookup_union_r.
Qed.
End flush.
