(* ===== verification/Transactional.v ===== *)
(** Optimistic concurrency over a compare-and-swap backend
    (rust/dialog-storage/src/storage/transactional_memory.rs): cached cells, and
    the read-modify-write loop that retries on conflict. *)
From S2P Require Import Prelude Common Nodes Storage.

Record CellState (T : Type) := mkCellState { cell_value : option T; cell_edition : option Blake3Hash }.
Arguments mkCellState {T} cell_value cell_edition.
Arguments cell_value {T} c.
Arguments cell_edition {T} c.

Definition CellState_default {T} : CellState T := mkCellState None None.

(** [UpdatePolicy]; the default is one retry. *)
Inductive UpdatePolicy := MaxRetries (n : nat).
Definition UpdatePolicy_default : UpdatePolicy := MaxRetries 1.

(** The [Encoder] of a cell (CBOR); decoding inverts encoding. *)
Class CellCodec (T : Type) := {
  cell_encode : T -> option bytes;
  cell_decode : bytes -> option T;
  cell_decode_encode : forall v b, cell_encode v = Some b -> cell_decode b = Some v
}.

Section cells.
Context {A T : Type} `{Countable A} `{Blake3} `{!CellCodec T}.
Local Abbreviation Memory := (MemoryStorageBackend A bytes).
Local Abbreviation DSE := DialogStorageError.
Implicit Types (address : A) (cell : CellState T) (m : Memory).

(** Fetching and decoding what is stored ([TransactionalMemoryCell::open]). *)
Definition fetch address : stateful Memory DSE (CellState T) :=
  found ← memory_resolve address;
  match found with
  | Some (b, edition) =>
      match cell_decode b with
      | Some v => mret (mkCellState (Some v) (Some edition))
      | None => lift_outcome (Err (DecodeFailed "decode"))
      end
  | None => mret (mkCellState None None)
  end.

(** The operations of a cell act on its cached state and the backend. *)
Definition cell_read (cell : CellState T) : option T := cell_value cell.

Definition reload address : stateful (CellState T * Memory) DSE unit := fun '(cell, m) =>
  match fetch address m with
  | (m, Ok fresh) => ((fresh, m), Ok tt)
  | (m, Err e) => ((cell, m), Err e)
  | (m, Panic msg) => ((cell, m), Panic msg)
  | (m, OutOfFuel) => ((cell, m), OutOfFuel)
  end.

Definition encode_value (value : option T) : outcome DSE (option bytes) :=
  match value with
  | Some v => b ← ok_or (EncodeFailed "encode") (cell_encode v); Ok (Some b)
  | None => Ok None
  end.

Definition replace address (value : option T) : stateful (CellState T * Memory) DSE unit := fun '(cell, m) =>
  match encode_value value with
  | Ok encoded =>
      match memory_replace address (cell_edition cell) encoded m with
      | (m, Ok new_edition) => ((mkCellState value new_edition, m), Ok tt)
      | (m, Err e) => ((cell, m), Err e)
      | (m, Panic msg) => ((cell, m), Panic msg)
      | (m, OutOfFuel) => ((cell, m), OutOfFuel)
      end
  | Err e => ((cell, m), Err e)
  | Panic msg => ((cell, m), Panic msg)
  | OutOfFuel => ((cell, m), OutOfFuel)
  end.

(** [replace_with] with [n] retries left.  [others n] is what other writers do
    to the backend between the moment the cell is read and the attempt to
    replace. *)
Fixpoint replace_with (others : nat -> Memory -> Memory) address (f : option T -> option T) (n : nat)
    : stateful (CellState T * Memory) DSE unit := fun '(cell, m) =>
  let new_value := f (cell_value cell) in
  match replace address new_value (cell, others n m) with
  | (s, Err e) =>
      match n with
      | O => (s, Err e)
      | S n => (_ ← reload address; replace_with others address f n) s
      end
  | r => r
  end.

(** ** The broker: cells for one address share their state *)
(** Live cells by address: the shared state and how many handles hold it; the
    weak references of dropped cells are the absent or zero entries. *)
Local Abbreviation Cells := (gmap A (CellState T * nat)).

Definition broker_open address : stateful (Cells * Memory) DSE (CellState T) := fun '(cells, m) =>
  match cells !! address with
  | Some (cell, S n) => ((<[address := (cell, S (S n))]> cells, m), Ok cell)
  | _ =>
      match fetch address m with
      | (m, Ok fresh) =>
          ((<[address := (fresh, 1%nat)]> (filter (fun e => e.2.2 <> 0%nat) cells), m), Ok fresh)
      | (m, Err e) => ((cells, m), Err e)
      | (m, Panic msg) => ((cells, m), Panic msg)
      | (m, OutOfFuel) => ((cells, m), OutOfFuel)
      end
  end.

(** ** Correctness *)
(** What is stored at the address. *)
Definition stored_value address m : option T := entries m !! address ≫= cell_decode.

Section coherent.
(** Values in play; the hash tells them apart. *)
Context (P : bytes -> Prop) (Hcf : collision_free P).

Definition cell_ok cell : Prop :=
  match cell_edition cell with
  | None => cell_value cell = None
  | Some e => exists b, e = blake3 b /\ P b /\ cell_decode b = cell_value cell
  end.
Definition memory_ok m : Prop := forall k b, entries m !! k = Some b -> P b.

Lemma fetch_spec address m m' cell :
  memory_ok m -> fetch address m = (m', Ok cell) ->
  m' = m /\ cell_ok cell /\ cell_value cell = stored_value address m.
Proof.
  intros Hm. unfold fetch, mbind, stateful_bind, memory_resolve, stored_value. simpl.
  destruct (entries m !! address) as [b|] eqn:Eb; simpl.
  - destruct (cell_decode b) as [v|] eqn:Ed; intros [= <- <-]. split_and!; [done| |done].
    exists b. split_and!; [done|by eapply Hm|done].
  - by intros [= <- <-].
Qed.

(** A replace that succeeds met the value the cell had cached. *)
Lemma replace_commit address value cell m s :
  cell_ok cell -> memory_ok m -> replace address value (cell, m) = (s, Ok tt) ->
  cell_value cell = stored_value address m /\
  cell_value s.1 = value /\ stored_value address s.2 = value /\
  (forall k, k <> address -> entries s.2 !! k = entries m !! k).
Proof.
  intros Hc Hm. unfold replace. destruct (encode_value value) as [encoded| | |] eqn:Ee; try done.
  assert (encoded ≫= cell_decode = value) as Hdec.
  { unfold encode_value in Ee. destruct value as [v|]; [|by injection Ee as <-].
    destruct (cell_encode v) as [b|] eqn:Eb; [|done]. injection Ee as <-.
    simpl. by apply cell_decode_encode. }
  unfold memory_replace.
  assert (forall m1 e1, match encoded with
    | Some value => (mkMemory (<[address:=value]> (entries m)), Ok (Some (blake3 value)))
    | None => (mkMemory (delete address (entries m)), Ok None)
    end = (m1, Ok (E := DSE) e1) ->
    stored_value address m1 = value /\ forall k, k <> address -> entries m1 !! k = entries m !! k) as Hcommit.
  { intros m1 e1. unfold stored_value. destruct encoded as [b|]; intros [= <- <-]; simpl.
    - rewrite lookup_insert_eq. split; [done|]. intros. by rewrite lookup_insert_ne.
    - rewrite lookup_delete_eq. split; [done|]. intros. by rewrite lookup_delete_ne. }
  unfold cell_ok, stored_value in Hc |- *.
  destruct (cell_edition cell) as [e|], (entries m !! address) as [b|] eqn:Eb; try done.
  - case_decide as Hh; [|done]. destruct Hc as (b' & -> & Hb' & Hd').
    assert (b' = b) as -> by (apply (proj1 Hcf); [done|by eapply Hm|done]).
    destruct encoded; intros [= <-]; simpl; (split; [done|]); (split; [done|]);
      apply (Hcommit _ _ eq_refl).
  - destruct encoded; intros [= <-]; simpl; (split; [by rewrite Hc|]); (split; [done|]);
      apply (Hcommit _ _ eq_refl).
Qed.

Lemma replace_conflict address value cell m s e :
  replace address value (cell, m) = (s, Err e) -> s = (cell, m).
Proof.
  unfold replace. destruct (encode_value value) as [encoded| | |]; try done; [|by intros [= <- _]].
  unfold memory_replace. destruct (cell_edition cell), (entries m !! address); try case_decide;
    destruct encoded; by intros [= <- _].
Qed.

(** The backend at the [j]-th retry of [replace_with] with [n] retries: what
    the other writers made of it, nothing else having been written. *)
Fixpoint interfered (others : nat -> Memory -> Memory) (n j : nat) m : Memory :=
  match j with
  | O => others n m
  | S j => interfered others (Nat.pred n) j (others n m)
  end.


Lemma encode_total value : (forall v, is_Some (cell_encode v)) -> exists e, encode_value value = Ok e.
Proof.
  intros Henc. unfold encode_value. destruct value as [v|]; [|eauto].
  destruct (Henc v) as [b ->]. simpl. eauto.
Qed.

(** A cell that was just fetched commits. *)
Lemma replace_fresh address value cell m m' :
  (forall v, is_Some (cell_encode v)) -> fetch address m = (m', Ok cell) ->
  exists s, replace address value (cell, m) = (s, Ok tt).
Proof.
  intros Henc Hf. destruct (encode_total value Henc) as [e He]. unfold replace. rewrite He.
  unfold fetch, mbind, stateful_bind, memory_resolve in Hf. simpl in Hf. unfold memory_replace.
  destruct (entries m !! address) as [b|] eqn:Eb; simpl in Hf.
  - destruct (cell_decode b); [|done]. injection Hf as <- <-. simpl.
    rewrite decide_True by done. destruct e; eauto.
  - injection Hf as <- <-. simpl. destruct e; eauto.
Qed.

Lemma replace_not_stuck address value cell m :
  (forall v, is_Some (cell_encode v)) ->
  exists s, replace address value (cell, m) = (s, Ok tt) \/
            exists e, replace address value (cell, m) = (s, Err e).
Proof.
  intros Henc. destruct (encode_total value Henc) as [e He]. unfold replace. rewrite He.
  unfold memory_replace.
  destruct (cell_edition cell), (entries m !! address); try case_decide; destruct e; eauto.
Qed.

(** C29: Without interference one retry is enough: from any coherent cached
    state, however stale, [replace_with] succeeds and stores the function of
    what is stored. *)
Theorem replace_with_quiet address f n cell m :
  (forall v, is_Some (cell_encode v)) ->
  (forall b, entries m !! address = Some b -> is_Some (cell_decode b)) ->
  cell_ok cell -> memory_ok m ->
  exists s, replace_with (fun _ m => m) address f (S n) (cell, m) = (s, Ok tt) /\
    stored_value address s.2 = f (stored_value address m) /\
    (forall k, k <> address -> entries s.2 !! k = entries m !! k).
Proof.
  intros Henc Hdec Hc Hm. cbn [replace_with].
  destruct (replace_not_stuck address (f (cell_value cell)) cell m Henc) as (s & [E|[e E]]); rewrite E.
  - exists s. destruct (replace_commit _ _ _ _ _ Hc Hm E) as (<- & _ & Hs & Hk). done.
  - apply replace_conflict in E as ->.
    assert (exists fresh, fetch address m = (m, Ok fresh)) as [fresh Ef].
    { unfold fetch, mbind, stateful_bind, memory_resolve. simpl.
      destruct (entries m !! address) as [b|]; simpl; [|eauto].
      destruct (Hdec b eq_refl) as [v ->]. eauto. }
    destruct (fetch_spec _ _ _ _ Hm Ef) as (_ & Hfresh & Hval).
    destruct (replace_fresh address (f (cell_value fresh)) fresh m m Henc Ef) as [s Es].
    exists s. destruct (replace_commit _ _ _ _ _ Hfresh Hm Es) as (_ & _ & Hs & Hk).
    rewrite <- Hval. split_and!; [|done|done].
    unfold mbind, stateful_bind, reload. rewrite Ef. destruct n; cbn [replace_with]; by rewrite Es.
Qed.
End coherent.
End cells.
