(* ===== verification/StorageDemo.v ===== *)
(** The storage theorems on concrete instances: a bounded cache, a backend that
    refuses writes, byte values as their own encoding, the toy digest. *)
From S2P Require Import Prelude Common Nodes Walker Instances Batch Persist Storage Journal Access Transactional.

#[local] Existing Instances byte_key byte_codec toy_blake3.

(** A cache that is emptied when it is full. *)
Record toy_cache (K V : Type) `{Countable K} := mkToyCache { capacity : nat; held : gmap K V }.
Arguments mkToyCache {K V _ _} capacity held.
Arguments capacity {K V _ _} t.
Arguments held {K V _ _} t.

#[local] Program Instance toy_sieve {K V} `{Countable K} : SieveCache (toy_cache K V) K V := {|
  cache_entries := held;
  cache_new n := match n with O => None | S _ => Some (mkToyCache n ∅) end;
  cache_get k c := (c, held c !! k);
  cache_insert k v c :=
    if decide (size (held c) < capacity c)%nat
    then mkToyCache (capacity c) (<[k := v]> (held c)) else mkToyCache (capacity c) {[k := v]}
|}.
Next Obligation. by intros K V ?? []. Qed.
Next Obligation. by intros K V ?? [] c [= <-]. Qed.
Next Obligation. done. Qed.
Next Obligation. done. Qed.
Next Obligation.
  intros K V ?? k v c. simpl. case_decide; simpl; [done|]. apply insert_mono, map_empty_subseteq.
Qed.

(** A backend that refuses every write. *)
Inductive read_only := mkReadOnly (m : gmap nat nat).
#[local] Instance read_only_backend : StorageBackend read_only nat nat DialogStorageError := {|
  backend_set _ _ s := (s, Err (StorageBackendError "read only"));
  backend_get k s := match s with mkReadOnly m => (s, Ok (m !! k)) end
|}.

Definition memory_of (m : gmap nat nat) : MemoryStorageBackend nat nat := mkMemory m.

Lemma overlay_set_keeps_backend_witness :
  let s := mkOverlay (memory_of {[1%nat := 10%nat]}) (memory_of ∅) in
  let s' := mkOverlay (memory_of {[1%nat := 10%nat]}) (memory_of {[1%nat := 20%nat]}) in
  overlay_backend s' = overlay_backend s /\
  (Ok (E := DialogStorageError) tt = Ok tt -> valid (overlay_overlay s) ->
   forall s'' o, overlay_get (id : DialogStorageError -> DialogStorageError) 1%nat s' = (s'', Ok o) -> o = Some 20%nat).
Proof.
  intros s s'.
  apply (overlay_set_keeps_backend (id : DialogStorageError -> DialogStorageError) 1%nat 20%nat s s' (Ok tt)).
  reflexivity.
Defined.

Lemma cache_serves_refused_write_witness :
  let s := mkStorageCache (mkReadOnly ∅) (mkToyCache 4 ∅ : toy_cache nat nat) in
  exists s' s'' : StorageCache read_only (toy_cache nat nat),
    backend_set 1%nat 7%nat s = (s', Err (StorageBackendError "read only")) /\
    backend_get 1%nat s' = (s'', Ok (Some 7%nat)) /\ cache_backend s'' = mkReadOnly ∅.
Proof. intros s. apply (cache_serves_refused_write 1%nat 7%nat s (mkReadOnly ∅)); reflexivity. Defined.

Lemma layers_refine_map_witness :
  let backend := memory_of {[1%nat := 10%nat; 2%nat := 20%nat]} in
  let overlay := memory_of {[2%nat := 21%nat]} in
  let requests := [Get 1%nat; Set_ 3%nat 30%nat; Get 3%nat; Get 2%nat; Get 1%nat; Get 4%nat] in
  exists s', serve (StorageBackend0 := stack_storage (fun _ => 8%N) (fun _ => 8%N)) requests
               (MeasuredStorage_new (mkStorageCache (mkOverlay backend overlay) (mkToyCache 1 ∅)))
             = (s', Ok (answers requests (entries overlay ∪ entries backend))).
Proof.
  intros backend overlay requests.
  apply (layers_refine_map (fun _ => 8%N) (fun _ => 8%N) backend overlay (mkToyCache 1 ∅) 1 requests).
  reflexivity.
Defined.

(** A journal that was used, disabled, and used again. *)
Definition demo_journal : JournalState nat :=
  push (mkJournalEntry Read 1%nat) (enable_journal (push (mkJournalEntry Read 2%nat) (disable_journal
    (push (mkJournalEntry Read 2%nat) (push (mkJournalEntry Write 1%nat) JournalState_new))))).

Lemma journal_lookup_exact_witness :
  get_reads_for_key (E := unit) demo_journal 1%nat = Ok (List.filter (for_key Read 1%nat) (log demo_journal)) /\
  get_writes_for_key (E := unit) demo_journal 1%nat = Ok (List.filter (for_key Write 1%nat) (log demo_journal)) /\
  get_operations_for_key (E := unit) demo_journal 1%nat
    = Ok (List.filter (fun entry => bool_decide (entry_key entry = 1%nat)) (log demo_journal)).
Proof.
  apply (journal_lookup_exact demo_journal 1%nat). unfold demo_journal.
  eapply rtc_l; [apply step_push|]. eapply rtc_l; [apply step_push|]. eapply rtc_l; [apply step_disable|].
  eapply rtc_l; [apply step_push|]. eapply rtc_l; [apply step_enable|]. eapply rtc_l; [apply step_push|].
  apply rtc_refl.
Defined.

(** ** Verified blocks *)
Local Abbreviation Blocks := (MemoryStorageBackend Blake3Hash bytes).

(** Bytes under another block's hash. *)
Definition corrupted : Blocks := mkMemory {[blake3 [x01] := [x02]]}.

Lemma retrieve_verifies_witness :
  match (retrieve (blake3 [x01]) corrupted).2 with
  | Ok (Some b) => contents corrupted !! blake3 [x01] = Some b /\ blake3 b = blake3 [x01]
  | Ok None => contents corrupted !! blake3 [x01] = None
  | _ => True
  end /\
  (forall b, contents corrupted !! blake3 [x01] = Some b -> blake3 b <> blake3 [x01] ->
   forall o, (retrieve (blake3 [x01]) corrupted).2 <> Ok o).
Proof.
  apply (retrieve_verifies (blake3 [x01]) corrupted (retrieve (blake3 [x01]) corrupted).1
           (retrieve (blake3 [x01]) corrupted).2); [exact I|].
  apply surjective_pairing.
Defined.

Lemma store_retrieve_witness :
  let s : Blocks := mkMemory ∅ in
  let s' : Blocks := mkMemory {[blake3 [x05] := [x05]]} in
  (store [x05] (blake3 [x05]) s = (s', Ok tt) ->
   blake3 [x05] = blake3 [x05] /\ contents s' = <[blake3 [x05] := [x05]]> (contents s) /\
   forall s'' r, retrieve (blake3 [x05]) s' = (s'', Ok r) -> r = Some [x05]) /\
  (blake3 [x05] <> blake3 [x05] ->
   store [x05] (blake3 [x05]) s = (s, Err (Verification "Cannot store the provided bytes"))).
Proof. intros s s'. apply (store_retrieve [x05] (blake3 [x05]) s s'). exact I. Defined.

(** A cold cache over a block store with one good and one corrupted block. *)
Definition demo_blocks : Blocks := mkMemory (<[blake3 [x01] := [x02]]> {[blake3 [x05] := [x05]]}).
Definition cold : toy_cache Blake3Hash bytes * Blocks := (mkToyCache 2 ∅, demo_blocks).

Lemma get_node_transparent_witness :
  exists s', get_node (blake3 [x05]) cold = (s', accessor_of (contents cold.2) (blake3 [x05])) /\
    contents s'.2 = contents cold.2 /\ coherent s'.
Proof. apply (get_node_transparent (blake3 [x05]) cold). apply (new_cache_coherent 2); done. Defined.

(** Flushing two new blocks, in the reverse order. *)
Definition demo_flush : Delta.t := <[blake3 [x07] := [x07]]> {[blake3 [x05] := [x05]]}.

Lemma flush_delta_overlays_witness :
  let buffers := reverse ((Delta.flush demo_flush).1.*2) in
  exists s', write_blocks buffers demo_blocks = (s', Ok tt) /\ (Delta.flush demo_flush).2 = Delta.zero /\
    valid s' /\ contents s' = demo_flush ∪ contents demo_blocks /\
    forall h, accessor_of (contents s') h = overlay demo_flush (accessor_of (contents demo_blocks)) h.
Proof.
  intros buffers. apply (flush_delta_overlays demo_flush buffers demo_blocks); [exact I| |].
  - intros h b. unfold demo_flush. rewrite lookup_insert_Some, lookup_singleton_Some.
    intros [[<- <-]|[_ [<- <-]]]; reflexivity.
  - apply reverse_Permutation.
Defined.

(** ** Cells *)
#[local] Program Instance bytes_cell : CellCodec bytes := {| cell_encode v := Some v; cell_decode b := Some b |}.
Next Obligation. naive_solver. Qed.

Definition cell_values : list bytes := [[x01]; [x02]; [x01; x00]; [x02; x00]; [x00]].
Lemma cell_values_free : collision_free (fun b => b ∈ cell_values).
Proof. apply collision_freeb_spec. vm_compute. reflexivity. Qed.

(** Appending a byte, from a stale cell; another writer interferes once. *)
Definition append_zero (v : option bytes) : option bytes := Some (default [] v ++ [x00]).
Definition stale : CellState bytes := mkCellState None None.
Definition cells_memory : MemoryStorageBackend nat bytes := mkMemory {[0%nat := [x01]]}.
Definition interfere (n : nat) (m : MemoryStorageBackend nat bytes) : MemoryStorageBackend nat bytes :=
  match n with O => mkMemory (<[0%nat := [x02]]> (entries m)) | S _ => m end.

Definition cells_ok := memory_ok (A := nat) (fun b => b ∈ cell_values).
Lemma cells_memory_ok : cells_ok cells_memory.
Proof. intros k b. simpl. rewrite lookup_singleton_Some. intros [_ <-]. set_solver. Qed.
Lemma interfere_ok n m : cells_ok m -> cells_ok (interfere n m).
Proof.
  intros Hm k b. destruct n as [|n]; simpl; [|apply Hm].
  rewrite lookup_insert_Some. intros [[_ <-]|[_ Hb]]; [set_solver|by eapply Hm].
Qed.


Lemma replace_with_quiet_witness :
  exists s, replace_with (fun _ m => m) 0%nat append_zero 1 (stale, cells_memory) = (s, Ok tt) /\
    stored_value 0%nat s.2 = append_zero (stored_value 0%nat cells_memory) /\
    (forall k, k <> 0%nat -> entries s.2 !! k = entries cells_memory !! k).
Proof.
  apply (replace_with_quiet (fun b => b ∈ cell_values) cell_values_free 0%nat append_zero 0 stale cells_memory).
  - intros v. by eexists.
  - intros b _. by eexists.
  - reflexivity.
  - apply cells_memory_ok.
Defined.
