(* ===== verification/Artifact.v ===== *)
(** Semantic triples and their stored form (rust/dialog-artifacts/src: uri.rs,
    artifacts/{attribute,entity,value,artifact,data,cause}.rs, error.rs,
    reference.rs).  Strings are the bytes of their UTF-8 encoding. *)
From S2P Require Import Prelude Common Nodes Geometric.

(** [DialogArtifactsError]; a [Tree] error keeps the error it formats. *)
Inductive DialogArtifactsError :=
  | Storage (message : string)
  | Tree (error : DialogSearchTreeError)
  | MalformedIndex (message : string)
  | InvalidRevision (message : string)
  | InvalidKey (len : nat)
  | InvalidUri (s : bytes)
  | InvalidValue (message : string)
  | InvalidAttribute (s : bytes)
  | InvalidEntity (s : bytes).
Local Abbreviation DAE := DialogArtifactsError.

(** * Strings *)
Definition in_byte_range (lo hi : N) (b : byte) : bool :=
  (lo <=? Byte.to_N b)%N && (Byte.to_N b <=? hi)%N.
Definition continuation (b : byte) : bool := in_byte_range 128 191 b.

(** [core::str::from_utf8]. *)
Fixpoint utf8_valid (s : bytes) : bool :=
  match s with
  | [] => true
  | b :: s =>
      if in_byte_range 0 127 b then utf8_valid s
      else match s with
      | [] => false
      | b1 :: s1 =>
          if in_byte_range 194 223 b then continuation b1 && utf8_valid s1
          else match s1 with
          | [] => false
          | b2 :: s2 =>
              if in_byte_range 224 224 b then in_byte_range 160 191 b1 && continuation b2 && utf8_valid s2
              else if in_byte_range 237 237 b then in_byte_range 128 159 b1 && continuation b2 && utf8_valid s2
              else if in_byte_range 225 239 b then continuation b1 && continuation b2 && utf8_valid s2
              else match s2 with
              | [] => false
              | b3 :: s3 =>
                  if in_byte_range 240 240 b
                  then in_byte_range 144 191 b1 && continuation b2 && continuation b3 && utf8_valid s3
                  else if in_byte_range 244 244 b
                  then in_byte_range 128 143 b1 && continuation b2 && continuation b3 && utf8_valid s3
                  else in_byte_range 241 243 b && continuation b1 && continuation b2 && continuation b3
                       && utf8_valid s3
              end
          end
      end
  end.

(** [str::split_once] and the first piece of [str::split], for a one-byte
    separator. *)
Fixpoint split_once (separator : byte) (s : bytes) : option (bytes * bytes) :=
  match s with
  | [] => None
  | b :: s =>
      if decide (b = separator) then Some ([], s)
      else '(l, r) ← split_once separator s; Some (b :: l, r)
  end.
Fixpoint first_piece (separator : byte) (s : bytes) : bytes :=
  match s with
  | [] => []
  | b :: s => if decide (b = separator) then [] else b :: first_piece separator s
  end.
Definition starts_with (prefix s : bytes) : bool := bool_decide (take (length prefix) s = prefix).

(** A fixed-size array, zero after the bytes copied into it. *)
Definition zero_padded (n : nat) (s : bytes) : bytes := s ++ replicate (n - length s) x00.

(** * Attributes *)
Definition ATTRIBUTE_LENGTH : nat := 64.

Record Attribute := mkAttribute { attribute_name : bytes; attribute_key_bytes : bytes }.

(** [TryFrom<String> for Attribute] (the [FromStr] instance calls it). *)
Definition Attribute_try_from (value : bytes) : outcome DAE Attribute :=
  if decide (ATTRIBUTE_LENGTH < length value)%nat then Err (InvalidAttribute value)
  else match split_once x2f value with
  | None => Err (InvalidAttribute value)
  | Some _ => Ok (mkAttribute value (zero_padded ATTRIBUTE_LENGTH value))
  end.

(** * Entities *)
(** The [url] crate: parsing, as the serialization of the URL that is read.  A
    serialization is ASCII without control characters and parses to itself. *)
Class Url := {
  url_parse : bytes -> option bytes;
  url_parse_serialization : forall s u, url_parse s = Some u -> url_parse u = Some u;
  url_ascii : forall s u, url_parse s = Some u -> Forall (fun b => in_byte_range 32 126 b = true) u
}.

Definition ENTITY_LENGTH : nat := 64.
Definition ENTITY_RAW_HEAD : nat := 32.

Record Uri := mkUri { uri_str : bytes }.
Record Entity := mkEntity { entity_uri : Uri; entity_key_bytes : bytes }.
Definition entity_str (e : Entity) : bytes := uri_str (entity_uri e).

(** [make_reference]. *)
Definition make_reference `{Blake3} (b : bytes) : bytes := as_bytes (blake3 b).

(** [Uri::key_bytes]; the writes into the fixed array always fit. *)
Definition key_bytes `{Blake3} (self : Uri) : bytes :=
  let b := uri_str self in
  if decide (32 <= length b)%nat
  then take 32 b ++ make_reference (drop 32 b)
  else zero_padded 32 b ++ replicate 32 x00.

Definition Uri_from_str `{Url} (s : bytes) : outcome DAE Uri :=
  match url_parse s with Some u => Ok (mkUri u) | None => Err (InvalidUri s) end.
Definition Entity_from_uri `{Blake3} (uri : Uri) : outcome DAE Entity := Ok (mkEntity uri (key_bytes uri)).
Definition Entity_from_str `{Blake3, Url} (s : bytes) : outcome DAE Entity :=
  uri ← Uri_from_str s; Entity_from_uri uri.
(** [TryFrom<Vec<u8>> for Entity]. *)
Definition Entity_from_bytes `{Blake3, Url} (b : bytes) : outcome DAE Entity :=
  if utf8_valid b then Entity_from_str b else Err (InvalidEntity b).

(** * Values *)
(** Module names avoid the clash of constructors with the types. *)
Module ValueDataType.
Inductive t := Bytes | Entity | Boolean | String | UnsignedInt | SignedInt | Float | Record_ | Symbol.
#[global] Instance t_eq_dec : EqDecision t.
Proof. solve_decision. Defined.

(** [From<ValueDataType> for u8] and back; unknown tags are read as bytes. *)
Definition to_u8 (self : t) : byte :=
  match self with
  | Bytes => x00 | Entity => x01 | Boolean => x02 | String => x03 | UnsignedInt => x04
  | SignedInt => x05 | Float => x06 | Record_ => x07 | Symbol => x08
  end.
Definition from_u8 (value : byte) : t :=
  match value with
  | x00 => Bytes | x01 => Entity | x02 => Boolean | x03 => String | x04 => UnsignedInt
  | x05 => SignedInt | x06 => Float | x07 => Record_ | x08 => Symbol
  | _ => Bytes
  end.
End ValueDataType.

Module Value.
Inductive t :=
  | Bytes (b : bytes)
  | Entity (e : Artifact.Entity)
  | Boolean (b : bool)
  | String (s : bytes)
  | UnsignedInt (n : N)
  | SignedInt (z : Z)
  | Float (bits : N)
  | Record_ (b : bytes)
  | Symbol (a : Attribute).
End Value.

#[export] Instance Attribute_eq_dec : EqDecision Attribute.
Proof. solve_decision. Defined.
#[export] Instance Uri_eq_dec : EqDecision Uri.
Proof. solve_decision. Defined.
#[export] Instance Entity_eq_dec : EqDecision Entity.
Proof. solve_decision. Defined.
(** [PartialEq for Value]: floats are compared by their bits. *)
#[export] Instance Value_eq_dec : EqDecision Value.t.
Proof. solve_decision. Defined.

Definition data_type (self : Value.t) : ValueDataType.t :=
  match self with
  | Value.Bytes _ => ValueDataType.Bytes
  | Value.Entity _ => ValueDataType.Entity
  | Value.Boolean _ => ValueDataType.Boolean
  | Value.String _ => ValueDataType.String
  | Value.UnsignedInt _ => ValueDataType.UnsignedInt
  | Value.SignedInt _ => ValueDataType.SignedInt
  | Value.Float _ => ValueDataType.Float
  | Value.Record_ _ => ValueDataType.Record_
  | Value.Symbol _ => ValueDataType.Symbol
  end.

(** [to_le_bytes] of an unsigned integer of [len] bytes. *)
Fixpoint to_le_bytes (len : nat) (n : N) : bytes :=
  match len with
  | O => []
  | S len => default x00 (Byte.of_N (n mod 256)) :: to_le_bytes len (n / 256)
  end.
(** Two's complement at 128 bits. *)
Definition i128_to_u128 (z : Z) : N := Z.to_N (z mod 2 ^ 128).
Definition i128_of_u128 (n : N) : Z :=
  if decide (n < 2 ^ 127)%N then Z.of_N n else (Z.of_N n - 2 ^ 128)%Z.

Definition value_to_bytes (self : Value.t) : bytes :=
  match self with
  | Value.Bytes b => b
  | Value.Entity e => entity_str e
  | Value.Boolean b => [if b then x01 else x00]
  | Value.String s => s
  | Value.UnsignedInt n => to_le_bytes 16 n
  | Value.SignedInt z => to_le_bytes 16 (i128_to_u128 z)
  | Value.Float bits => to_le_bytes 8 bits
  | Value.Record_ b => b
  | Value.Symbol a => attribute_key_bytes a
  end.
Definition to_reference `{Blake3} (self : Value.t) : bytes := make_reference (value_to_bytes self).

(** [TryFrom<(ValueDataType, Vec<u8>)> for Value]. *)
Definition Value_try_from `{Blake3, Url} (value_data_type : ValueDataType.t) (value : bytes)
    : outcome DAE Value.t :=
  match value_data_type with
  | ValueDataType.Bytes => Ok (Value.Bytes value)
  | ValueDataType.Entity => e ← Entity_from_bytes value; Ok (Value.Entity e)
  | ValueDataType.Boolean =>
      match value with
      | [b] => Ok (Value.Boolean (bool_decide (b <> x00)))
      | _ => Err (InvalidValue "Wrong byte length for boolean")
      end
  | ValueDataType.String =>
      if utf8_valid value then Ok (Value.String value) else Err (InvalidValue "Not a valid UTF-8 string")
  | ValueDataType.UnsignedInt =>
      if decide (length value = 16%nat) then Ok (Value.UnsignedInt (from_le_bytes value))
      else Err (InvalidValue "Wrong number of bytes for u128")
  | ValueDataType.SignedInt =>
      if decide (length value = 16%nat) then Ok (Value.SignedInt (i128_of_u128 (from_le_bytes value)))
      else Err (InvalidValue "Wrong number of bytes for i128")
  | ValueDataType.Float =>
      if decide (length value = 8%nat) then Ok (Value.Float (from_le_bytes value))
      else Err (InvalidValue "Wrong number of bytes for f64")
  | ValueDataType.Record_ => Panic "not implemented: TBD but probably flatbuffers?"
  | ValueDataType.Symbol =>
      if utf8_valid value then a ← Attribute_try_from (first_piece x00 value); Ok (Value.Symbol a)
      else Err (InvalidValue "Not a valid UTF-8 string")
  end.

(** * Artifacts and their stored form *)
Record Artifact := mkArtifact {
  artifact_the : Attribute; artifact_of : Entity; artifact_is : Value.t; artifact_cause : option bytes
}.
#[export] Instance Artifact_eq_dec : EqDecision Artifact.
Proof. solve_decision. Defined.

Record Datum := mkDatum {
  datum_entity : bytes;
  datum_attribute : bytes;
  datum_value_type : byte;
  datum_value : bytes;
  datum_cause : option bytes
}.
#[export] Instance Datum_eq_dec : EqDecision Datum.
Proof. solve_decision. Defined.

(** [From<Artifact> for Datum] and [TryFrom<Datum> for Artifact]. *)
Definition Datum_from (artifact : Artifact) : Datum :=
  mkDatum (entity_str (artifact_of artifact)) (attribute_name (artifact_the artifact))
    (ValueDataType.to_u8 (data_type (artifact_is artifact))) (value_to_bytes (artifact_is artifact)) (artifact_cause artifact).
Definition Artifact_try_from `{Blake3, Url} (value : Datum) : outcome DAE Artifact :=
  a_the ← Attribute_try_from (datum_attribute value);
  a_of ← Entity_from_str (datum_entity value);
  a_is ← Value_try_from (ValueDataType.from_u8 (datum_value_type value)) (datum_value value);
  Ok (mkArtifact a_the a_of a_is (datum_cause value)).

(** [From<&Artifact> for Cause]. *)
Definition Cause_from `{Blake3} (artifact : Artifact) : bytes :=
  make_reference (attribute_key_bytes (artifact_the artifact) ++ entity_key_bytes (artifact_of artifact)
                  ++ value_to_bytes (artifact_is artifact) ++ default [] (artifact_cause artifact)).

(** [State<Datum>]. *)
Inductive State := Added (datum : Datum) | Removed.
#[export] Instance State_eq_dec : EqDecision State.
Proof. solve_decision. Defined.

(** * Well-formed data: what the types of the program guarantee *)
Section wf.
Context `{Blake3, Url}.

Definition nul_free (s : bytes) : Prop := x00 ∉ s.
Definition wf_attribute (a : Attribute) : Prop :=
  Attribute_try_from (attribute_name a) = Ok a /\ utf8_valid (attribute_name a) = true.
Definition wf_entity (e : Entity) : Prop := exists s, Entity_from_str s = Ok e.
Definition wf_value (v : Value.t) : Prop :=
  match v with
  | Value.Entity e => wf_entity e
  | Value.String s => utf8_valid s = true
  | Value.UnsignedInt n => (n < 2 ^ 128)%N
  | Value.SignedInt z => (- 2 ^ 127 <= z < 2 ^ 127)%Z
  | Value.Float bits => (bits < 2 ^ 64)%N
  | Value.Symbol a => wf_attribute a
  | _ => True
  end.
Definition wf_artifact (artifact : Artifact) : Prop :=
  wf_attribute (artifact_the artifact) /\ wf_entity (artifact_of artifact) /\ wf_value (artifact_is artifact).

(** No NUL in a name that is read back from a padded key. *)
Definition symbol_nul_free (v : Value.t) : Prop :=
  match v with Value.Symbol a => nul_free (attribute_name a) | _ => True end.

Lemma in_byte_range_ascii b : in_byte_range 32 126 b = true -> in_byte_range 0 127 b = true.
Proof. unfold in_byte_range. rewrite !andb_true_iff, !N.leb_le. lia. Qed.

Lemma utf8_valid_ascii s : Forall (fun b => in_byte_range 0 127 b = true) s -> utf8_valid s = true.
Proof. induction 1 as [|b s Hb _ IH]; simpl; [done|]. by rewrite Hb. Qed.

Lemma utf8_valid_zeros n : utf8_valid (replicate n x00) = true.
Proof. induction n; done. Qed.

Lemma utf8_valid_app_aux n : forall s t,
  (length s <= n)%nat -> utf8_valid s = true -> utf8_valid t = true -> utf8_valid (s ++ t) = true.
Proof.
  induction n as [|n IH]; intros [|b s] t Hn Hs Ht; simpl in Hn; try done; try lia.
  simpl in Hs |- *. destruct (in_byte_range 0 127 b); [by apply IH; [lia|..]|].
  destruct s as [|b1 s]; [done|]. simpl in Hn |- *.
  destruct (in_byte_range 194 223 b).
  { apply andb_true_iff in Hs as [-> Hs]. by apply IH; [lia|..]. }
  destruct s as [|b2 s]; [done|]. simpl in Hn |- *.
  destruct (in_byte_range 224 224 b).
  { rewrite !andb_true_iff in Hs. destruct Hs as [[-> ->] Hs]. by apply IH; [lia|..]. }
  destruct (in_byte_range 237 237 b).
  { rewrite !andb_true_iff in Hs. destruct Hs as [[-> ->] Hs]. by apply IH; [lia|..]. }
  destruct (in_byte_range 225 239 b).
  { rewrite !andb_true_iff in Hs. destruct Hs as [[-> ->] Hs]. by apply IH; [lia|..]. }
  destruct s as [|b3 s]; [done|]. simpl in Hn |- *.
  destruct (in_byte_range 240 240 b).
  { rewrite !andb_true_iff in Hs. destruct Hs as [[[-> ->] ->] Hs]. by apply IH; [lia|..]. }
  destruct (in_byte_range 244 244 b).
  { rewrite !andb_true_iff in Hs. destruct Hs as [[[-> ->] ->] Hs]. by apply IH; [lia|..]. }
  rewrite !andb_true_iff in Hs. destruct Hs as [[[[-> ->] ->] ->] Hs]. by apply IH; [lia|..].
Qed.
Lemma utf8_valid_app s t : utf8_valid s = true -> utf8_valid t = true -> utf8_valid (s ++ t) = true.
Proof. by apply (utf8_valid_app_aux (length s)). Qed.

Lemma first_piece_padded n s : nul_free s -> first_piece x00 (s ++ replicate n x00) = s.
Proof.
  unfold nul_free. induction s as [|b s IH]; intros Hs; simpl; [by destruct n|].
  rewrite decide_False by set_solver. rewrite IH by set_solver. done.
Qed.

(** Little-endian round trips. *)
Lemma length_to_le_bytes len n : length (to_le_bytes len n) = len.
Proof. revert n; induction len; intros n; simpl; auto. Qed.
Lemma from_to_le_bytes len n : (n < 256 ^ N.of_nat len)%N -> from_le_bytes (to_le_bytes len n) = n.
Proof.
  revert n; induction len as [|len IH]; intros n Hn; [change (256 ^ N.of_nat 0)%N with 1%N in Hn; simpl; lia|].
  rewrite Nat2N.inj_succ, N.pow_succ_r' in Hn. cbn [to_le_bytes from_le_bytes].
  rewrite IH by (apply N.Div0.div_lt_upper_bound; lia).
  pose proof (N.mod_lt n 256 ltac:(lia)) as Hm.
  destruct (Byte.of_N (n mod 256)) as [b|] eqn:E.
  - apply Byte.to_of_N in E. simpl. rewrite E. pose proof (N.div_mod' n 256). lia.
  - apply Byte.of_N_None_iff in E. lia.
Qed.
Lemma i128_roundtrip z : (- 2 ^ 127 <= z < 2 ^ 127)%Z ->
  (i128_to_u128 z < 2 ^ 128)%N /\ i128_of_u128 (i128_to_u128 z) = z.
Proof.
  intros Hz. unfold i128_of_u128, i128_to_u128.
  pose proof (Z.mod_pos_bound z (2 ^ 128) ltac:(lia)) as Hm.
  split; [lia|]. rewrite Z2N.id by lia.
  destruct (decide (0 <= z)%Z).
  - rewrite Z.mod_small by lia. rewrite decide_True by lia. done.
  - assert (z mod 2 ^ 128 = z + 2 ^ 128)%Z as ->.
    { rewrite <- (Z_mod_plus_full z 1), Z.mod_small by lia. lia. }
    rewrite decide_False by lia. lia.
Qed.

Lemma from_u8_to_u8 t : ValueDataType.from_u8 (ValueDataType.to_u8 t) = t.
Proof. by destruct t. Qed.

Lemma Attribute_try_from_name s a :
  Attribute_try_from s = Ok a ->
  attribute_name a = s /\ attribute_key_bytes a = zero_padded ATTRIBUTE_LENGTH s /\ (length s <= ATTRIBUTE_LENGTH)%nat.
Proof.
  unfold Attribute_try_from. case_decide; [done|]. destruct (split_once _ _); [|done].
  intros [= <-]. split_and!; [done|done|lia].
Qed.

Lemma wf_entity_str e : wf_entity e -> Entity_from_str (entity_str e) = Ok e.
Proof.
  intros [s Hs]. unfold Entity_from_str, Uri_from_str, Entity_from_uri in *. simpl in Hs.
  destruct (url_parse s) as [u|] eqn:Eu; [|done]. injection Hs as <-. unfold entity_str. simpl.
  by rewrite (url_parse_serialization _ _ Eu).
Qed.
Lemma wf_entity_ascii e : wf_entity e -> Forall (fun b => in_byte_range 32 126 b = true) (entity_str e).
Proof.
  intros [s Hs]. unfold Entity_from_str, Uri_from_str, Entity_from_uri in *. simpl in Hs.
  destruct (url_parse s) as [u|] eqn:Eu; [|done]. injection Hs as <-. by eapply url_ascii.
Qed.
Lemma wf_entity_key e : wf_entity e -> entity_key_bytes e = key_bytes (entity_uri e).
Proof.
  intros [s Hs]. unfold Entity_from_str, Uri_from_str, Entity_from_uri in *. simpl in Hs.
  destruct (url_parse s); [|done]. by injection Hs as <-.
Qed.

Lemma Value_roundtrip v :
  wf_value v -> symbol_nul_free v -> data_type v <> ValueDataType.Record_ ->
  Value_try_from (data_type v) (value_to_bytes v) = Ok v.
Proof.
  destruct v as [b|e|b|s|n|z|bits|b|a]; cbn [wf_value symbol_nul_free data_type value_to_bytes Value_try_from];
    intros Hwf Hnul Hrec.
  - done.
  - unfold Entity_from_bytes. rewrite (utf8_valid_ascii (entity_str e)).
    + by rewrite (wf_entity_str e).
    + eapply Forall_impl; [by apply wf_entity_ascii|]. apply in_byte_range_ascii.
  - by destruct b.
  - by rewrite Hwf.
  - rewrite length_to_le_bytes, decide_True by done. rewrite from_to_le_bytes; [done|exact Hwf].
  - destruct (i128_roundtrip z Hwf) as [Hlt Hz]. rewrite length_to_le_bytes, decide_True by done.
    rewrite from_to_le_bytes; [by rewrite Hz|exact Hlt].
  - rewrite length_to_le_bytes, decide_True by done. rewrite from_to_le_bytes; [done|exact Hwf].
  - done.
  - destruct Hwf as [Ha Hu]. destruct (Attribute_try_from_name _ _ Ha) as (_ & Hk & _).
    rewrite Hk. unfold zero_padded. rewrite utf8_valid_app by auto using utf8_valid_zeros.
    rewrite first_piece_padded by done. by rewrite Ha.
Qed.

End wf.

(** Names of attributes are not checked for NUL bytes: two different names
    are accepted that have the same bytes in every index key. *)
Theorem attribute_names_collide :
  exists a1 a2, Attribute_try_from [x61; x2f; x62] = Ok a1 /\
    Attribute_try_from [x61; x2f; x62; x00] = Ok a2 /\
    a1 <> a2 /\ attribute_key_bytes a1 = attribute_key_bytes a2.
Proof. do 2 eexists. split_and!; [reflexivity|reflexivity|discriminate|reflexivity]. Qed.
