(* ===== verification/Columnar.v ===== *)
(** The columnar encoding of cells (rust/dialog-encoding/src: error.rs,
    cellular.rs, buffer.rs), and Z-sets (rust/dialog-dbsp/src/zset.rs). *)
From Stdlib Require Import String.
From S2P Require Import Prelude Common Geometric Artifact.

(** * Cells in a buffer *)
(** The [leb128] crate: the variable-length form of a [u64], and its reader, which
    fails at the end of its input and on numbers that do not fit. *)
Class Leb128 := {
  write_unsigned : N -> bytes;
  read_unsigned : bytes -> option (N * bytes);
  read_write n rest : (n < 2 ^ 64)%N -> read_unsigned (write_unsigned n ++ rest) = Some (n, rest);
  read_shorter b n rest : read_unsigned b = Some (n, rest) -> (length rest < length b)%nat
}.

Inductive DialogEncodingError := IntegerDecode | BufferDecode (message : string).

(** [Cellular]: a value as its cells; an iterator is what it yields until its end. *)
Class Cellular (A : Type) := {
  cells : A -> list bytes;
  try_from_cells : list bytes * outcome DialogEncodingError unit -> outcome DialogEncodingError A
}.
(** The contract that the trait documents. *)
Class CellularLaws (A : Type) `{!Cellular A} :=
  try_from_cells_cells : forall x : A, try_from_cells (cells x, Ok tt) = Ok x.

Section buffer.
Context `{Leb128}.

(** The loop of [encode]; lengths of what is in memory fit a [usize]. *)
Record EncodeState := mkEncode {
  data : bytes; ranges : bytes; cell_indexes : bytes;
  bytes_to_index : gmap bytes N; next_index : N; data_length : N
}.
Definition encode_new : EncodeState := mkEncode [] [] [] ∅ 0 0.
Definition encode_cell (s : EncodeState) (cell : bytes) : EncodeState :=
  match bytes_to_index s !! cell with
  | Some index =>
      mkEncode (data s) (ranges s) (cell_indexes s ++ write_unsigned index) (bytes_to_index s) (next_index s) (data_length s)
  | None =>
      let len := N.of_nat (length cell) in
      mkEncode (data s ++ cell) (ranges s ++ write_unsigned (data_length s) ++ write_unsigned len)
        (cell_indexes s ++ write_unsigned (next_index s)) (<[cell := next_index s]> (bytes_to_index s))
        (next_index s + 1) (data_length s + len)
  end.
Definition encode_sections (s : EncodeState) : bytes :=
  write_unsigned (N.of_nat (length (data s))) ++ data s ++
  write_unsigned (N.of_nat (length (ranges s))) ++ ranges s ++ cell_indexes s.
(** [encode], into a buffer that takes every write. *)
Definition encode `{Cellular A} (layout : A) : bytes := encode_sections (fold_left encode_cell (cells layout) encode_new).

Record CellDecoder := mkDecoder { decoder_data : bytes; decoder_ranges : list (N * N); decoder_cells : bytes }.

(** A section that announces its length: the slice, and what is behind it. *)
Definition read_section (b : bytes) : outcome DialogEncodingError (bytes * bytes) :=
  match read_unsigned b with
  | None => Err IntegerDecode
  | Some (len, rest) =>
      if (len <=? N.of_nat (length rest))%N then Ok (take (N.to_nat len) rest, drop (N.to_nat len) rest)
      else Panic "range end index out of range for slice"
  end.
Fixpoint read_ranges (fuel : nat) (b : bytes) : outcome DialogEncodingError (list (N * N)) :=
  match b with
  | [] => Ok []
  | _ =>
      match fuel with
      | O => OutOfFuel
      | S fuel =>
          '(offset, b) ← match read_unsigned b with Some r => Ok r | None => Err IntegerDecode end;
          '(len, b) ← match read_unsigned b with Some r => Ok r | None => Err IntegerDecode end;
          ranges ← read_ranges fuel b; Ok ((offset, len) :: ranges)
      end
  end.
Definition decode_sections (b : bytes) : outcome DialogEncodingError CellDecoder :=
  '(data, b) ← read_section b;
  '(range_data, b) ← read_section b;
  ranges ← read_ranges (length range_data) range_data;
  Ok (mkDecoder data ranges b).

(** [CellDecoder::next]. *)
Definition next_cell (self : CellDecoder) : outcome DialogEncodingError (option (bytes * CellDecoder)) :=
  match read_unsigned (decoder_cells self) with
  | None => Ok None
  | Some (index, rest) =>
      match decoder_ranges self !! N.to_nat index with
      | None => Panic "index out of bounds"
      | Some (offset, len) =>
          if (offset + len <=? N.of_nat (length (decoder_data self)))%N
          then Ok (Some (take (N.to_nat len) (drop (N.to_nat offset) (decoder_data self)),
                         mkDecoder (decoder_data self) (decoder_ranges self) rest))
          else Panic "range end index out of range for slice"
      end
  end.
Fixpoint drain_cells (fuel : nat) (self : CellDecoder) : list bytes * outcome DialogEncodingError unit :=
  match fuel with
  | O => ([], OutOfFuel)
  | S fuel =>
      match next_cell self with
      | Ok None => ([], Ok tt)
      | Ok (Some (cell, self)) => let '(rest, status) := drain_cells fuel self in (cell :: rest, status)
      | Err e => ([], Err e)
      | Panic m => ([], Panic m)
      | OutOfFuel => ([], OutOfFuel)
      end
  end.
Definition decode `{Cellular A} (b : bytes) : outcome DialogEncodingError A :=
  decoder ← decode_sections b; try_from_cells (drain_cells (S (length (decoder_cells decoder))) decoder).

(** * What the buffer holds *)
(** The distinct cells in the order in which they come first. *)
Definition distinct_step (seen : list bytes) (cell : bytes) : list bytes :=
  if decide (cell ∈ seen) then seen else seen ++ [cell].
Definition distinct_cells (l : list bytes) : list bytes := fold_left distinct_step l [].
Fixpoint layout_ranges (offset : N) (l : list bytes) : list (N * N) :=
  match l with
  | [] => []
  | cell :: l => (offset, N.of_nat (length cell)) :: layout_ranges (offset + N.of_nat (length cell)) l
  end.
Definition write_range (range : N * N) : bytes := write_unsigned range.1 ++ write_unsigned range.2.

(** The state of the loop after some cells: their distinct ones, laid out, and the
    place of each. *)
Record encoded (l distinct : list bytes) (s : EncodeState) : Prop := {
  encoded_data : data s = concat distinct;
  encoded_ranges : ranges s = concat (write_range <$> layout_ranges 0 distinct);
  encoded_cells : exists indexes : list nat, cell_indexes s = concat ((fun i => write_unsigned (N.of_nat i)) <$> indexes) /\
    Forall2 (fun i cell => distinct !! i = Some cell) indexes l;
  encoded_index cell i : bytes_to_index s !! cell = Some i <-> exists n, i = N.of_nat n /\ distinct !! n = Some cell;
  encoded_next : next_index s = N.of_nat (length distinct);
  encoded_length : data_length s = N.of_nat (length (concat distinct))
}.

Lemma layout_ranges_app offset l1 l2 :
  layout_ranges offset (l1 ++ l2) = layout_ranges offset l1 ++ layout_ranges (offset + N.of_nat (length (concat l1))) l2.
Proof.
  revert offset. induction l1 as [|c l1 IH]; intros offset; simpl; [by rewrite N.add_0_r|].
  rewrite IH, length_app, Nat2N.inj_add, N.add_assoc. done.
Qed.
Lemma layout_ranges_lookup l i cell : forall offset, l !! i = Some cell ->
  layout_ranges offset l !! i = Some ((offset + N.of_nat (length (concat (take i l))))%N, N.of_nat (length cell)).
Proof.
  revert i. induction l as [|c l IH]; intros [|i] offset Hi; simpl in *; [done|done| |].
  - injection Hi as ->. by rewrite N.add_0_r.
  - rewrite (IH i _ Hi), length_app, Nat2N.inj_add, N.add_assoc. done.
Qed.
Lemma concat_slice (l : list bytes) i cell : l !! i = Some cell ->
  take (length cell) (drop (length (concat (take i l))) (concat l)) = cell /\
  (length (concat (take i l)) + length cell <= length (concat l))%nat.
Proof.
  intros Hi. apply take_drop_middle in Hi as E. rewrite <- E at 2 4. rewrite concat_app, drop_app_length, concat_cons.
  split; [apply take_app_length|]. rewrite !length_app. lia.
Qed.

Lemma encoded_new : encoded [] [] encode_new.
Proof.
  split; simpl; try done.
  - by exists [].
  - intros cell i. rewrite lookup_empty. split; [done|]. intros (n & _ & Hn). by rewrite lookup_nil in Hn.
Qed.
Lemma encoded_cell l distinct s cell : NoDup distinct -> encoded l distinct s ->
  encoded (l ++ [cell]) (distinct_step distinct cell) (encode_cell s cell).
Proof.
  intros Hnd [Ed Er (indexes & Ec & Hall) Hi En El]. unfold encode_cell, distinct_step.
  destruct (bytes_to_index s !! cell) as [index|] eqn:Eindex.
  - apply Hi in Eindex as Hn. destruct Hn as (n & -> & Hn). rewrite decide_True by (by eapply list_elem_of_lookup_2).
    split; simpl; try done. exists (indexes ++ [n]). split; [|apply Forall2_app; [done|by constructor]].
    rewrite Ec, fmap_app, concat_app. simpl. by rewrite app_nil_r.
  - assert (cell ∉ distinct) as Hcell.
    { intros (n & Hn)%list_elem_of_lookup_1. assert (bytes_to_index s !! cell = Some (N.of_nat n)) as E by (apply Hi; eauto).
      by rewrite E in Eindex. }
    rewrite decide_False by done. split; simpl.
    + by rewrite Ed, concat_app; simpl; rewrite app_nil_r.
    + rewrite Er, layout_ranges_app, fmap_app, concat_app, El. simpl. by rewrite app_nil_r.
    + exists (indexes ++ [length distinct]). split.
      * rewrite Ec, fmap_app, concat_app, En. simpl. by rewrite app_nil_r.
      * apply Forall2_app; [|constructor; [by apply list_lookup_middle|constructor]].
        eapply Forall2_impl; [exact Hall|]. intros i c Hic. by apply lookup_app_l_Some.
    + intros c i. rewrite lookup_insert_Some, Hi, En. split.
      * intros [[<- <-]|[Hne (n & -> & Hn)]]; [exists (length distinct); by rewrite list_lookup_middle|].
        exists n. split; [done|by apply lookup_app_l_Some].
      * intros (n & -> & [Hn|[Hle Hn]]%lookup_app_Some).
        -- right. split; [intros ->; by apply Hcell, list_elem_of_lookup_2 with n|eauto].
        -- left. apply list_lookup_singleton_Some in Hn as [Hz ->]. split; [done|]. f_equal. lia.
    + rewrite En, length_app. simpl. lia.
    + rewrite El, concat_app, length_app. simpl. rewrite app_nil_r. lia.
Qed.
Lemma distinct_step_NoDup seen cell : NoDup seen -> NoDup (distinct_step seen cell).
Proof.
  intros Hs. unfold distinct_step. case_decide as Hc; [done|]. apply NoDup_app. split_and!; [done| |apply NoDup_singleton].
  intros x Hx ->%list_elem_of_singleton. done.
Qed.
Lemma encode_loop l : forall before distinct s, NoDup distinct -> encoded before distinct s ->
  encoded (before ++ l) (fold_left distinct_step l distinct) (fold_left encode_cell l s) /\ NoDup (fold_left distinct_step l distinct).
Proof.
  induction l as [|cell l IH]; intros before distinct s Hnd He; simpl; [by rewrite app_nil_r|].
  rewrite (cons_middle cell), app_assoc. apply IH; [by apply distinct_step_NoDup|by apply encoded_cell].
Qed.

(** ** Reading it back *)
Lemma read_section_spec (section rest : bytes) : (N.of_nat (length section) < 2 ^ 64)%N ->
  read_section (write_unsigned (N.of_nat (length section)) ++ section ++ rest) = Ok (section, rest).
Proof.
  intros Hlen. unfold read_section. rewrite read_write by done.
  rewrite (proj2 (N.leb_le _ _)) by (rewrite length_app; lia). by rewrite Nat2N.id, take_app_length, drop_app_length.
Qed.
Lemma write_unsigned_nonempty n : (n < 2 ^ 64)%N -> write_unsigned n <> [].
Proof.
  intros Hn E. pose proof (read_write n [] Hn) as Hr. rewrite E in Hr. apply read_shorter in Hr. simpl in Hr. lia.
Qed.
Lemma read_ranges_S fuel b : b <> [] -> read_ranges (S fuel) b =
  '(offset, b) ← match read_unsigned b with Some r => Ok r | None => Err IntegerDecode end;
  '(len, b) ← match read_unsigned b with Some r => Ok r | None => Err IntegerDecode end;
  ranges ← read_ranges fuel b; Ok ((offset, len) :: ranges).
Proof. by destruct b. Qed.
Definition fits (range : N * N) : Prop := (range.1 < 2 ^ 64)%N /\ (range.2 < 2 ^ 64)%N.
Lemma read_ranges_spec l : forall fuel, Forall fits l ->
  (length (concat (write_range <$> l)) <= fuel)%nat -> read_ranges fuel (concat (write_range <$> l)) = Ok l.
Proof.
  induction l as [|[offset len] l IH]; intros fuel Hall Hf; [by destruct fuel|].
  apply Forall_cons in Hall as [[H1 H2] Hall]. csimpl in *. unfold write_range at 1 in Hf. unfold write_range at 1. simpl in *.
  pose proof (write_unsigned_nonempty offset H1) as Hne. rewrite <- app_assoc in *.
  rewrite !length_app in Hf. assert (0 < length (write_unsigned offset))%nat by (destruct (write_unsigned offset); simpl; [done|lia]).
  destruct fuel as [|fuel]; [lia|]. rewrite read_ranges_S by (intros [? _]%app_nil; done).
  rewrite read_write, bind_Ok, read_write, bind_Ok, IH by (done || lia). done.
Qed.

(** The cells are read through their ranges. *)
Lemma drain_cells_spec distinct indexes l : forall fuel,
  Forall2 (fun i cell => distinct !! i = Some cell) indexes l -> (N.of_nat (length distinct) < 2 ^ 64)%N ->
  (length (concat ((fun i => write_unsigned (N.of_nat i)) <$> indexes)) < fuel)%nat ->
  drain_cells fuel (mkDecoder (concat distinct) (layout_ranges 0 distinct)
    (concat ((fun i => write_unsigned (N.of_nat i)) <$> indexes))) = (l, Ok tt).
Proof.
  intros fuel Hall Hn. revert fuel. induction Hall as [|i cell indexes l Hi Hall IH]; intros [|fuel] Hf; try lia; cbn [drain_cells].
  - unfold next_cell. simpl. destruct (read_unsigned []) as [[n rest]|] eqn:E; [|done]. apply read_shorter in E. simpl in E. lia.
  - csimpl. unfold next_cell. cbn [decoder_cells decoder_ranges decoder_data].
    assert (N.of_nat i < 2 ^ 64)%N as Hi64 by (apply lookup_lt_Some in Hi; lia).
    rewrite read_write, Nat2N.id, (layout_ranges_lookup _ _ _ 0 Hi), N.add_0_l by done.
    destruct (concat_slice _ _ _ Hi) as [Es Hle]. rewrite (proj2 (N.leb_le _ _)) by lia. rewrite !Nat2N.id, Es.
    csimpl in Hf. rewrite length_app in Hf. pose proof (write_unsigned_nonempty _ Hi64) as Hne.
    assert (0 < length (write_unsigned (N.of_nat i)))%nat by (destruct (write_unsigned _); simpl; [done|lia]).
    rewrite IH by lia. done.
Qed.

Lemma layout_ranges_fit l : forall offset, (offset + N.of_nat (length (concat l)) < 2 ^ 64)%N -> Forall fits (layout_ranges offset l).
Proof.
  induction l as [|cell l IH]; intros offset Hl; simpl in *; [constructor|]. rewrite length_app, Nat2N.inj_add in Hl.
  constructor; [unfold fits; simpl; lia|apply IH; lia].
Qed.
Lemma length_layout_ranges l : forall offset, length (layout_ranges offset l) = length l.
Proof. induction l as [|cell l IH]; intros offset; simpl; [done|by rewrite IH]. Qed.
Lemma length_write_ranges l : Forall fits l -> (length l <= length (concat (write_range <$> l)))%nat.
Proof.
  induction 1 as [|r l [Hr _] _ IH]; csimpl; [done|]. rewrite length_app. unfold write_range at 1. rewrite length_app.
  pose proof (write_unsigned_nonempty _ Hr) as Hne. destruct (write_unsigned r.1); simpl; [done|lia].
Qed.
Lemma distinct_cells_encoded l : encoded l (distinct_cells l) (fold_left encode_cell l encode_new) /\ NoDup (distinct_cells l).
Proof. apply (encode_loop l [] []); [constructor|apply encoded_new]. Qed.

(** What a buffer is made of: the distinct cells, each once and in the order in
    which they first come, where each is, and the place of every cell. *)
Definition reference_sections (l : list bytes) (indexes : list nat) : bytes :=
  let distinct := distinct_cells l in
  let data := concat distinct in
  let ranges := concat (write_range <$> layout_ranges 0 distinct) in
  write_unsigned (N.of_nat (length data)) ++ data ++ write_unsigned (N.of_nat (length ranges)) ++ ranges ++
  concat ((fun i => write_unsigned (N.of_nat i)) <$> indexes).

(** C40: Cells survive the columnar encoding, and no cell is stored twice: the
    buffer of a value holds its distinct cells once, in the order in which they
    first come, with their ranges, and for every cell the place of its bytes; and
    decoding the buffer gives the value back, for any value that keeps the
    contract of its trait and whose sections have lengths that fit 64 bits. *)
Theorem encode_decode_roundtrip `{CellularLaws A} (x : A) :
  let distinct := distinct_cells (cells x) in
  (N.of_nat (length (concat distinct)) < 2 ^ 64)%N ->
  (N.of_nat (length (concat (write_range <$> layout_ranges 0 distinct))) < 2 ^ 64)%N ->
  NoDup distinct /\
  (exists indexes, encode x = reference_sections (cells x) indexes /\
    Forall2 (fun i cell => distinct !! i = Some cell) indexes (cells x)) /\
  decode (encode x) = Ok x.
Proof.
  intros distinct Hdata Hranges.
  destruct (distinct_cells_encoded (cells x)) as [[Ed Er (indexes & Ec & Hall) _ _ _] Hnd]. fold distinct in Ed, Er, Hall, Hnd.
  assert (encode x = reference_sections (cells x) indexes) as E.
  { unfold encode, encode_sections, reference_sections. fold distinct. by rewrite Ed, Er, Ec. }
  split; [done|split; [by exists indexes|]]. rewrite E. unfold reference_sections. cbv zeta. fold distinct.
  unfold decode, decode_sections. rewrite read_section_spec, bind_Ok, read_section_spec, bind_Ok by done.
  assert (Forall fits (layout_ranges 0 distinct)) as Hfits by (by apply layout_ranges_fit).
  rewrite read_ranges_spec, bind_Ok by done. rewrite bind_Ok. cbn [decoder_cells].
  rewrite (drain_cells_spec distinct indexes (cells x)); [apply try_from_cells_cells|done| |lia].
  pose proof (length_write_ranges _ Hfits) as Hlen. rewrite length_layout_ranges in Hlen. lia.
Qed.

(** A buffer that announces more than it has is not an error but a panic. *)
Lemma decode_panics `{Cellular A} n rest : (n < 2 ^ 64)%N -> (N.of_nat (length rest) < n)%N ->
  decode (A := A) (write_unsigned n ++ rest) = Panic "range end index out of range for slice".
Proof.
  intros Hn Hlen. unfold decode, decode_sections, read_section. rewrite read_write by done.
  by rewrite (proj2 (N.leb_gt _ _)).
Qed.
End buffer.

(** * At work *)
(** Eight bytes for every number. *)
#[local] Program Instance fixed_leb128 : Leb128 := {|
  write_unsigned n := to_le_bytes 8 n;
  read_unsigned b := if decide (8 <= length b)%nat then Some (from_le_bytes (take 8 b), drop 8 b) else None
|}.
Next Obligation.
  intros n rest Hn. cbv beta. pose proof (length_to_le_bytes 8 n) as Hlen.
  rewrite decide_True by (rewrite length_app; lia).
  rewrite take_app_length', drop_app_length' by lia. by rewrite from_to_le_bytes.
Qed.
Next Obligation.
  intros b n rest. cbv beta. case_decide; [|done]. intros [= _ <-]. rewrite length_drop. lia.
Qed.

(** Three fields, two of them the same. *)
#[local] Instance list_cellular : Cellular (list bytes) := {|
  cells l := l;
  try_from_cells stream := _ ← stream.2; Ok stream.1
|}.
#[local] Instance list_cellular_laws : CellularLaws (list bytes).
Proof. intros x. reflexivity. Qed.
Definition demo_cells : list bytes := [[x61; x62]; []; [x61; x62]].
Lemma encode_decode_roundtrip_witness : decode (encode demo_cells) = Ok demo_cells.
Proof. apply (encode_decode_roundtrip demo_cells); vm_compute; reflexivity. Defined.

(** * Z-sets *)
Module ZSet.
Section zset.
Context {T : Type} `{Countable T}.

(** [ZSet]: multiplicities that were set, of the width of an [isize] with the
    wrap-around of a release build. *)
Abbreviation t := (gmap T Z).
Definition isize (z : Z) : Z := ((z + 2 ^ 63) mod 2 ^ 64 - 2 ^ 63)%Z.
Implicit Types (self other : t) (entry : T) (multiplicity : Z).

Definition set self entry multiplicity : t := <[entry := multiplicity]> self.
Definition get self entry : Z := default 0%Z (self !! entry).
Definition update (f : Z -> Z -> Z) (init : Z -> Z) self entry multiplicity : t * Z :=
  let m := match self !! entry with Some current => isize (f current multiplicity) | None => init multiplicity end in
  (<[entry := m]> self, m).
Definition add self entry multiplicity : t * Z := update Z.add id self entry multiplicity.
Definition subtract self entry multiplicity : t * Z := update Z.sub (fun m => isize (- m)) self entry multiplicity.
Definition multiply self entry multiplicity : t * Z :=
  match self !! entry with
  | Some current => let m := isize (current * multiplicity) in (<[entry := m]> self, m)
  | None => (self, 0%Z)
  end.
Definition increment self entry : t := (update Z.add id self entry 1).1.
Definition decrement self entry : t := (update Z.sub (fun m => isize (- m)) self entry 1).1.

(** The loops over the entries of the other set. *)
Definition update_each (f : Z -> Z -> Z) (init : Z -> Z) (entries : list (T * Z)) self : t :=
  fold_left (fun self '(entry, multiplicity) => (update f init self entry multiplicity).1) entries self.
Definition sum self other : t := update_each Z.add id (map_to_list other) self.
Definition difference self other : t := update_each Z.sub (fun m => isize (- m)) (map_to_list other) self.
Definition merge self other : t := update_each Z.add id (map_to_list other) self.

Lemma update_each_lookup f init entries self entry : NoDup entries.*1 ->
  update_each f init entries self !! entry =
  match (list_to_map entries : t) !! entry with
  | Some m => Some (match self !! entry with Some current => isize (f current m) | None => init m end)
  | None => self !! entry
  end.
Proof.
  revert self. induction entries as [|[k m] entries IH]; intros self Hnd; [simpl; by rewrite lookup_empty|].
  apply NoDup_cons in Hnd as [Hk Hnd].
  change (update_each f init ((k, m) :: entries) self) with (update_each f init entries (update f init self k m).1).
  change (list_to_map ((k, m) :: entries) : t) with (<[k := m]> (list_to_map entries : t)).
  rewrite IH by done. unfold update. cbn [fst]. destruct (decide (entry = k)) as [->|Hne].
  - rewrite (not_elem_of_list_to_map_1 entries k Hk). by rewrite !lookup_insert_eq.
  - by rewrite !lookup_insert_ne by done.
Qed.
Lemma update_each_map f init self other entry :
  update_each f init (map_to_list other) self !! entry =
  match other !! entry with
  | Some m => Some (match self !! entry with Some current => isize (f current m) | None => init m end)
  | None => self !! entry
  end.
Proof. rewrite update_each_lookup by apply NoDup_fst_map_to_list. by rewrite list_to_map_to_list. Qed.

(** Sets whose multiplicities fit. *)
Definition fits (z : Z) : Prop := (- 2 ^ 63 <= z < 2 ^ 63)%Z.
Definition wf self : Prop := forall entry m, self !! entry = Some m -> fits m.
Lemma isize_fits z : fits (isize z).
Proof. unfold fits, isize. pose proof (Z.mod_pos_bound (z + 2 ^ 63) (2 ^ 64) ltac:(lia)). lia. Qed.
Lemma isize_id z : fits z -> isize z = z.
Proof. unfold fits, isize. intros Hz. rewrite Z.mod_small by lia. lia. Qed.
Lemma isize_eq a b : (exists k, a = b + k * 2 ^ 64)%Z -> isize a = isize b.
Proof.
  intros [k ->]. unfold isize. f_equal. replace (b + k * 2 ^ 64 + 2 ^ 63)%Z with (b + 2 ^ 63 + k * 2 ^ 64)%Z by lia.
  apply Z_mod_plus_full.
Qed.
Lemma isize_shift z : exists k, (isize z = z + k * 2 ^ 64)%Z.
Proof. unfold isize. pose proof (Z.div_mod (z + 2 ^ 63) (2 ^ 64) ltac:(lia)). exists (- ((z + 2 ^ 63) / 2 ^ 64))%Z. lia. Qed.
Lemma wf_get self entry : wf self -> fits (get self entry).
Proof. intros Hwf. unfold get. destruct (self !! entry) as [m|] eqn:E; [by eapply Hwf|]. unfold fits. simpl. lia. Qed.

(** Multiplicities add and subtract, modulo the width; merging is the sum. *)
Lemma sum_get self other entry : wf self -> wf other -> get (sum self other) entry = isize (get self entry + get other entry).
Proof.
  intros Hs Ho. unfold get, sum. rewrite update_each_map.
  destruct (other !! entry) as [m|] eqn:Eo; destruct (self !! entry) as [c|] eqn:Es; simpl; rewrite ?Es; simpl; try done.
  - unfold id. rewrite isize_id; [done|]. by eapply Ho.
  - rewrite Z.add_0_r, isize_id; [done|]. by eapply Hs.
Qed.
Lemma difference_get self other entry : wf self -> wf other ->
  get (difference self other) entry = isize (get self entry - get other entry).
Proof.
  intros Hs Ho. unfold get, difference. rewrite update_each_map.
  destruct (other !! entry) as [m|] eqn:Eo; destruct (self !! entry) as [c|] eqn:Es; simpl; rewrite ?Es; simpl; try done.
  rewrite Z.sub_0_r, isize_id; [done|]. by eapply Hs.
Qed.
Lemma sum_wf self other : wf self -> wf other -> wf (sum self other).
Proof.
  intros Hs Ho entry m. unfold sum. rewrite update_each_map.
  destruct (other !! entry) as [o|] eqn:Eo; [|by apply Hs].
  destruct (self !! entry); intros [= <-]; [apply isize_fits|by eapply Ho].
Qed.

(** Z-sets form a commutative group, as multiplicities. *)
Lemma sum_comm a b entry : wf a -> wf b -> get (sum a b) entry = get (sum b a) entry.
Proof. intros Ha Hb. by rewrite !sum_get, Z.add_comm. Qed.
Lemma sum_assoc a b c entry : wf a -> wf b -> wf c -> get (sum (sum a b) c) entry = get (sum a (sum b c)) entry.
Proof.
  intros Ha Hb Hc. rewrite !sum_get by (done || by apply sum_wf). apply isize_eq.
  destruct (isize_shift (get a entry + get b entry)) as [k1 ->], (isize_shift (get b entry + get c entry)) as [k2 ->].
  exists (k1 - k2)%Z. lia.
Qed.
Lemma difference_sum a b entry : wf a -> wf b -> get (difference (sum a b) b) entry = get a entry.
Proof.
  intros Ha Hb. rewrite difference_get, sum_get by (done || by apply sum_wf).
  destruct (isize_shift (get a entry + get b entry)) as [k ->].
  rewrite (isize_eq _ (get a entry)) by (exists k; lia). apply isize_id. by apply wf_get.
Qed.
Lemma merge_sum self other : merge self other = sum self other.
Proof. done. Qed.
End zset.
End ZSet.
