(* ===== verification/ArtifactKeys.v ===== *)
(** Index keys (rust/dialog-artifacts/src: key.rs, key/{entity,attribute,value}.rs,
    artifacts/selector.rs, artifacts/match.rs): one fact has a key in each of
    three orders, all fields of fixed width. *)
From S2P Require Import Prelude Common Nodes Artifact.

Definition TAG_LENGTH : nat := 1.
Definition VALUE_DATA_TYPE_LENGTH : nat := 1.
Definition VALUE_REFERENCE_LENGTH : nat := 32.
Definition KEY_LENGTH : nat :=
  TAG_LENGTH + ENTITY_LENGTH + ATTRIBUTE_LENGTH + VALUE_DATA_TYPE_LENGTH + VALUE_REFERENCE_LENGTH.

(** [KeyBytes], an array of [KEY_LENGTH] bytes, and [Key], a wrapper around it. *)
Record KeyBytes := mkKeyBytes { key_raw : bytes; key_raw_length : bool_decide (length key_raw = KEY_LENGTH) = true }.

Lemma KeyBytes_eq (k1 k2 : KeyBytes) : key_raw k1 = key_raw k2 -> k1 = k2.
Proof.
  destruct k1 as [b1 p1], k2 as [b2 p2]. simpl. intros <-. f_equal. apply Eqdep_dec.UIP_dec. decide equality.
Qed.
Lemma key_length (k : KeyBytes) : length (key_raw k) = KEY_LENGTH.
Proof. destruct k as [b p]. exact (bool_decide_eq_true_1 _ p). Qed.

(** The array of the first [KEY_LENGTH] bytes, zero where there are none; the
    arrays below are always written in full. *)
Program Definition make_key (b : bytes) : KeyBytes :=
  mkKeyBytes (take KEY_LENGTH (b ++ replicate KEY_LENGTH x00)) _.
Next Obligation.
  intros b. apply bool_decide_eq_true_2. rewrite length_take, length_app, length_replicate. lia.
Qed.
Lemma make_key_raw b : length b = KEY_LENGTH -> key_raw (make_key b) = b.
Proof. intros Hb. simpl. rewrite <- Hb. apply take_app_length. Qed.

(** Arrays are ordered lexicographically. *)
#[export] Instance KeyBytes_ord : Ord KeyBytes.
Proof.
  refine {| cmp k1 k2 := cmp (key_raw k1) (key_raw k2) |}.
  - intros x y. rewrite cmp_eq. split; [apply KeyBytes_eq|by intros ->].
  - intros x y. apply cmp_antisym.
  - intros x y z. apply cmp_trans.
Defined.

(** Lexicographic order on lists of the same length. *)
Lemma list_le_app (x1 y1 x2 y2 : bytes) :
  length x1 = length y1 -> x1 ≼ y1 -> x2 ≼ y2 -> (x1 ++ x2) ≼ (y1 ++ y2).
Proof.
  revert y1; induction x1 as [|a x1 IH]; intros [|b y1] Hl H1 H2; try done.
  simpl in Hl. unfold ole in *. simpl in H1 |- *. destruct (Byte.to_N a ?= Byte.to_N b)%N; [|done|done].
  by apply IH; [lia|..].
Qed.
Lemma list_le_cons (a b : byte) (x y : bytes) :
  (Byte.to_N a <= Byte.to_N b)%N -> x ≼ y -> (a :: x) ≼ (b :: y).
Proof.
  intros Hab Hxy. unfold ole. change (cmp (a :: x) (b :: y)) with
    (match (Byte.to_N a ?= Byte.to_N b)%N with Eq => cmp x y | c => c end).
  destruct (N.compare_spec (Byte.to_N a) (Byte.to_N b)); [exact Hxy|done|lia].
Qed.
Lemma list_le_zeros (b : bytes) n : length b = n -> replicate n x00 ≼ b.
Proof.
  intros <-. induction b as [|x b IH]; [done|]. apply list_le_cons; [|done].
  change (Byte.to_N x00) with 0%N. lia.
Qed.
Lemma list_le_ones (b : bytes) n : length b = n -> b ≼ replicate n xff.
Proof.
  intros <-. induction b as [|x b IH]; [done|]. apply list_le_cons; [|done].
  change (Byte.to_N xff) with 255%N. pose proof (Byte.to_N_bounded x). lia.
Qed.

(** [impl Key for [u8; N]]. *)
Definition MINIMUM_KEY : KeyBytes := make_key (replicate KEY_LENGTH x00).
Definition MAXIMUM_KEY : KeyBytes := make_key (replicate KEY_LENGTH xff).
#[export] Instance KeyBytes_key : Key KeyBytes.
Proof.
  refine {| key_as_ref := key_raw; key_min := MINIMUM_KEY; key_max := MAXIMUM_KEY |}.
  - intros k. change (key_raw MINIMUM_KEY ≼ key_raw k). unfold MINIMUM_KEY. rewrite make_key_raw by done.
    apply list_le_zeros, key_length.
  - intros k. change (key_raw k ≼ key_raw MAXIMUM_KEY). unfold MAXIMUM_KEY. rewrite make_key_raw by done.
    apply list_le_ones, key_length.
Defined.

(** [copy_from_slice] into an array at an offset. *)
Definition copy_at (offset : nat) (part b : bytes) : bytes :=
  take offset b ++ part ++ drop (offset + length part) b.
Definition slice_at (offset len : nat) (b : bytes) : bytes := take len (drop offset b).

(** * Views *)
(** The three implementations of [KeyView], [KeyViewMut] and [KeyViewConstruct]
    are the same code over different constants. *)
Record Layout := mkLayout {
  key_tag : byte;
  entity_offset : nat;
  attribute_offset : nat;
  value_data_type_offset : nat;
  value_reference_offset : nat
}.
Definition ENTITY_KEY_TAG : byte := x00.
Definition ATTRIBUTE_KEY_TAG : byte := x01.
Definition VALUE_KEY_TAG : byte := x02.
Definition EntityKey : Layout :=
  mkLayout ENTITY_KEY_TAG TAG_LENGTH (TAG_LENGTH + ENTITY_LENGTH)
    (TAG_LENGTH + ENTITY_LENGTH + ATTRIBUTE_LENGTH)
    (TAG_LENGTH + ENTITY_LENGTH + ATTRIBUTE_LENGTH + VALUE_DATA_TYPE_LENGTH).
Definition AttributeKey : Layout :=
  mkLayout ATTRIBUTE_KEY_TAG (TAG_LENGTH + ATTRIBUTE_LENGTH) TAG_LENGTH
    (TAG_LENGTH + ENTITY_LENGTH + ATTRIBUTE_LENGTH)
    (TAG_LENGTH + ENTITY_LENGTH + ATTRIBUTE_LENGTH + VALUE_DATA_TYPE_LENGTH).
Definition ValueKey : Layout :=
  mkLayout VALUE_KEY_TAG
    (TAG_LENGTH + VALUE_DATA_TYPE_LENGTH + VALUE_REFERENCE_LENGTH + ATTRIBUTE_LENGTH)
    (TAG_LENGTH + VALUE_DATA_TYPE_LENGTH + VALUE_REFERENCE_LENGTH)
    TAG_LENGTH (TAG_LENGTH + VALUE_DATA_TYPE_LENGTH).

Definition tag (k : KeyBytes) : byte := default x00 (head (key_raw k)).
Definition set_tag (k : KeyBytes) (t : byte) : KeyBytes := make_key (copy_at 0 [t] (key_raw k)).

Section views.
Context (l : Layout).
Implicit Types (k : KeyBytes).

(** [KeyViewConstruct::min], [max]; [default] is [min]. *)
Definition view_min : KeyBytes := set_tag MINIMUM_KEY (key_tag l).
Definition view_max : KeyBytes := set_tag MAXIMUM_KEY (key_tag l).

Definition view_entity k : bytes := slice_at (entity_offset l) ENTITY_LENGTH (key_raw k).
Definition view_attribute k : bytes := slice_at (attribute_offset l) ATTRIBUTE_LENGTH (key_raw k).
Definition view_value_type k : ValueDataType.t :=
  ValueDataType.from_u8 (default x00 (key_raw k !! value_data_type_offset l)).
Definition view_value_reference k : bytes :=
  slice_at (value_reference_offset l) VALUE_REFERENCE_LENGTH (key_raw k).

Definition set_entity (part : bytes) k : KeyBytes := make_key (copy_at (entity_offset l) part (key_raw k)).
Definition set_attribute (part : bytes) k : KeyBytes := make_key (copy_at (attribute_offset l) part (key_raw k)).
Definition set_value_type (t : ValueDataType.t) k : KeyBytes :=
  make_key (copy_at (value_data_type_offset l) [ValueDataType.to_u8 t] (key_raw k)).
Definition set_value_reference (part : bytes) k : KeyBytes :=
  make_key (copy_at (value_reference_offset l) part (key_raw k)).
End views.

(** [FromKey::from_key]: from the view [m] to the view [l]. *)
Definition from_key (l m : Layout) (k : KeyBytes) : KeyBytes :=
  set_value_reference l (view_value_reference m k)
    (set_value_type l (view_value_type m k)
      (set_attribute l (view_attribute m k) (set_entity l (view_entity m k) (view_min l)))).

(** [From<&Artifact> for EntityKey<Key>]. *)
Definition entity_key `{Blake3} (fact : Artifact) : KeyBytes :=
  set_value_reference EntityKey (to_reference (artifact_is fact))
    (set_value_type EntityKey (data_type (artifact_is fact))
      (set_attribute EntityKey (attribute_key_bytes (artifact_the fact))
        (set_entity EntityKey (entity_key_bytes (artifact_of fact)) (view_min EntityKey)))).

(** * Selectors *)
(** [ArtifactSelector]; its builders keep [selector_value_reference] in step with
    the value, and the [Constrained] state means that one was called. *)
Record ArtifactSelector := mkSelector {
  selector_entity : option Entity;
  selector_attribute : option Attribute;
  selector_value : option Value.t;
  selector_value_reference : option bytes;
  selector_entity_prefix : option bytes;
  selector_attribute_prefix : option bytes
}.
Definition selector_new : ArtifactSelector := mkSelector None None None None None None.
Section builders.
Context `{Blake3}.
Implicit Types (s : ArtifactSelector).
Definition selector_the s (attribute : Attribute) : ArtifactSelector :=
  mkSelector (selector_entity s) (Some attribute) (selector_value s) (selector_value_reference s)
    (selector_entity_prefix s) (selector_attribute_prefix s).
Definition selector_of s (entity : Entity) : ArtifactSelector :=
  mkSelector (Some entity) (selector_attribute s) (selector_value s) (selector_value_reference s)
    (selector_entity_prefix s) (selector_attribute_prefix s).
Definition selector_is s (value : Value.t) : ArtifactSelector :=
  mkSelector (selector_entity s) (selector_attribute s) (Some value) (Some (to_reference value))
    (selector_entity_prefix s) (selector_attribute_prefix s).
Definition the_starting_with s (prefix : bytes) : ArtifactSelector :=
  mkSelector (selector_entity s) (selector_attribute s) (selector_value s) (selector_value_reference s)
    (selector_entity_prefix s) (Some prefix).
Definition of_starting_with s (prefix : bytes) : ArtifactSelector :=
  mkSelector (selector_entity s) (selector_attribute s) (selector_value s) (selector_value_reference s)
    (Some prefix) (selector_attribute_prefix s).

(** What the builders can make. *)
Inductive built : bool -> ArtifactSelector -> Prop :=
  | built_new : built false selector_new
  | built_the c s a : built c s -> built true (selector_the s a)
  | built_of c s e : built c s -> built true (selector_of s e)
  | built_is c s v : built c s -> built true (selector_is s v)
  | built_the_starting c s p : built c s -> built true (the_starting_with s p)
  | built_of_starting c s p : built c s -> built true (of_starting_with s p).
Definition Constrained s : Prop := built true s.
End builders.

(** [KeyViewMut::apply_selector]. *)
Definition set_part {A} (set : A -> KeyBytes -> KeyBytes) (part : option A) (k : KeyBytes) : KeyBytes :=
  match part with Some a => set a k | None => k end.
Definition apply_selector (l : Layout) (selector : ArtifactSelector) (k : KeyBytes) : KeyBytes :=
  set_part (set_value_reference l) (selector_value_reference selector)
    (set_part (set_value_type l) (data_type <$> selector_value selector)
      (set_part (fun a => set_attribute l (attribute_key_bytes a)) (selector_attribute selector)
        (set_part (fun e => set_entity l (entity_key_bytes e)) (selector_entity selector) k))).

(** [match_selector_and_key_view]; each test is an early return. *)
Definition match_selector_and_key_view (l : Layout) (selector : ArtifactSelector) (k : KeyBytes) : bool :=
  match selector_entity selector with
  | Some e => bool_decide (entity_key_bytes e = view_entity l k)
  | None => true
  end &&
  match selector_attribute selector with
  | Some a => bool_decide (attribute_key_bytes a = view_attribute l k)
  | None => true
  end &&
  match selector_value selector with
  | Some v => bool_decide (data_type v = view_value_type l k)
  | None => true
  end &&
  match selector_value_reference selector with
  | Some r => bool_decide (r = view_value_reference l k)
  | None => true
  end &&
  match selector_attribute_prefix selector with
  | Some prefix =>
      bool_decide (length prefix <= ATTRIBUTE_LENGTH)%nat && starts_with prefix (view_attribute l k)
  | None => true
  end &&
  match selector_entity_prefix selector with
  | Some prefix =>
      let head := Nat.min (length prefix) ENTITY_RAW_HEAD in
      bool_decide (take head (view_entity l k) = take head prefix)
  | None => true
  end.

(** [MatchCandidate for Entry<Key, State<Datum>>]. *)
Definition matches_selector (selector : ArtifactSelector) (entry : Entry KeyBytes State) : bool :=
  let t := tag (key entry) in
  (if decide (t = ENTITY_KEY_TAG) then match_selector_and_key_view EntityKey selector (key entry)
   else if decide (t = ATTRIBUTE_KEY_TAG) then match_selector_and_key_view AttributeKey selector (key entry)
   else if decide (t = VALUE_KEY_TAG) then match_selector_and_key_view ValueKey selector (key entry)
   else false) &&
  match selector_entity_prefix selector, value entry with
  | Some prefix, Added datum =>
      if decide (ENTITY_RAW_HEAD < length prefix)%nat then starts_with prefix (datum_entity datum) else true
  | _, _ => true
  end.

(** ** Scan ranges (tree.rs) *)
(** [prefix_segment]. *)
Definition prefix_segment (n : nat) (prefix : bytes) (head : nat) (fill : byte) : bytes :=
  let take_ := Nat.min (Nat.min (length prefix) head) n in
  copy_at 0 (take take_ prefix) (replicate n fill).

(** [apply_prefix_bounds], on the start ([fill] zero) or the end ([fill] 255) of
    a range. *)
Definition apply_prefix_bound (l : Layout) (selector : ArtifactSelector) (fill : byte) (k : KeyBytes) : KeyBytes :=
  let k :=
    match selector_attribute selector, selector_attribute_prefix selector with
    | None, Some prefix => set_attribute l (prefix_segment ATTRIBUTE_LENGTH prefix ATTRIBUTE_LENGTH fill) k
    | _, _ => k
    end in
  match selector_entity selector, selector_entity_prefix selector with
  | None, Some prefix => set_entity l (prefix_segment ENTITY_LENGTH prefix ENTITY_RAW_HEAD fill) k
  | _, _ => k
  end.

(** * Keys as sequences of fields *)
Definition layouts : list Layout := [EntityKey; AttributeKey; ValueKey].

Lemma layouts_case (Q : Layout -> Prop) : Q EntityKey -> Q AttributeKey -> Q ValueKey -> forall l, l ∈ layouts -> Q l.
Proof. intros HE HA HV l. unfold layouts. rewrite !elem_of_cons, elem_of_nil. by intros [->|[->|[->|[]]]]. Qed.

(** The fields in the order of a layout; [t] is the byte of the value type. *)
Definition fields (l : Layout) (tg : byte) (e a : bytes) (t : byte) (r : bytes) : bytes :=
  if decide (key_tag l = ENTITY_KEY_TAG) then tg :: e ++ a ++ [t] ++ r
  else if decide (key_tag l = ATTRIBUTE_KEY_TAG) then tg :: a ++ e ++ [t] ++ r
  else tg :: [t] ++ r ++ a ++ e.
Definition fits (e a r : bytes) : Prop :=
  length e = ENTITY_LENGTH /\ length a = ATTRIBUTE_LENGTH /\ length r = VALUE_REFERENCE_LENGTH.

(** A field with what stands before and after it. *)
Definition part_at (offset : nat) (b pre mid post : bytes) : Prop :=
  b = pre ++ mid ++ post /\ length pre = offset.

Lemma copy_part offset b pre old post part :
  part_at offset b pre old post -> length part = length old -> copy_at offset part b = pre ++ part ++ post.
Proof.
  intros [-> <-] E. unfold copy_at. rewrite take_app_length, E. f_equal. f_equal.
  rewrite app_assoc, <- length_app. apply drop_app_length.
Qed.
Lemma slice_part offset b pre mid post : part_at offset b pre mid post -> slice_at offset (length mid) b = mid.
Proof. intros [-> <-]. unfold slice_at. by rewrite drop_app_length, take_app_length. Qed.

Lemma fields_length l tg e a t r : fits e a r -> length (fields l tg e a t r) = KEY_LENGTH.
Proof.
  intros (He & Ha & Hr). unfold fields. repeat case_decide; simpl; rewrite !length_app; simpl;
    rewrite ?length_app, He, Ha, Hr; done.
Qed.

(** Where the fields of each layout are. *)
Ltac field_at_solve :=
  split; [cbn; rewrite <- ?app_assoc, ?app_nil_r; reflexivity
         |cbn; rewrite ?length_app; cbn; rewrite ?length_app; cbn;
          unfold TAG_LENGTH, ENTITY_LENGTH, ATTRIBUTE_LENGTH, VALUE_DATA_TYPE_LENGTH, VALUE_REFERENCE_LENGTH; lia].
Lemma entity_at l tg e a t r : l ∈ layouts -> fits e a r ->
  exists pre post, forall e', part_at (entity_offset l) (fields l tg e' a t r) pre e' post.
Proof.
  intros Hl (He & Ha & Hr). unfold ENTITY_LENGTH, ATTRIBUTE_LENGTH, VALUE_REFERENCE_LENGTH in *.
  revert l Hl. apply layouts_case.
  - exists [tg], (a ++ [t] ++ r). intros e'. field_at_solve.
  - exists (tg :: a), ([t] ++ r). intros e'. field_at_solve.
  - exists (tg :: [t] ++ r ++ a), []. intros e'. field_at_solve.
Qed.
Lemma attribute_at l tg e a t r : l ∈ layouts -> fits e a r ->
  exists pre post, forall a', part_at (attribute_offset l) (fields l tg e a' t r) pre a' post.
Proof.
  intros Hl (He & Ha & Hr). unfold ENTITY_LENGTH, ATTRIBUTE_LENGTH, VALUE_REFERENCE_LENGTH in *.
  revert l Hl. apply layouts_case.
  - exists (tg :: e), ([t] ++ r). intros a'. field_at_solve.
  - exists [tg], (e ++ [t] ++ r). intros a'. field_at_solve.
  - exists (tg :: [t] ++ r), e. intros a'. field_at_solve.
Qed.
Lemma type_at l tg e a r : l ∈ layouts -> fits e a r ->
  exists pre post, forall t', part_at (value_data_type_offset l) (fields l tg e a t' r) pre [t'] post.
Proof.
  intros Hl (He & Ha & Hr). unfold ENTITY_LENGTH, ATTRIBUTE_LENGTH, VALUE_REFERENCE_LENGTH in *.
  revert l Hl. apply layouts_case.
  - exists (tg :: e ++ a), r. intros t'. field_at_solve.
  - exists (tg :: a ++ e), r. intros t'. field_at_solve.
  - exists [tg], (r ++ a ++ e). intros t'. field_at_solve.
Qed.
Lemma reference_at l tg e a t r : l ∈ layouts -> fits e a r ->
  exists pre post, forall r', part_at (value_reference_offset l) (fields l tg e a t r') pre r' post.
Proof.
  intros Hl (He & Ha & Hr). unfold ENTITY_LENGTH, ATTRIBUTE_LENGTH, VALUE_REFERENCE_LENGTH in *.
  revert l Hl. apply layouts_case.
  - exists (tg :: e ++ a ++ [t]), []. intros r'. field_at_solve.
  - exists (tg :: a ++ e ++ [t]), []. intros r'. field_at_solve.
  - exists [tg; t], (a ++ e). intros r'. field_at_solve.
Qed.

(** ** Reading and writing the fields of a key *)
Section field_ops.
Context (l : Layout) (tg : byte) (e a : bytes) (t : byte) (r : bytes).
Context (Hl : l ∈ layouts) (Hfit : fits e a r).
Local Abbreviation k := (make_key (fields l tg e a t r)).

Lemma fields_raw : key_raw k = fields l tg e a t r.
Proof. apply make_key_raw. by apply fields_length. Qed.

Lemma tag_fields : tag k = tg.
Proof. unfold tag. rewrite fields_raw. unfold fields. by repeat case_decide. Qed.

Lemma view_entity_fields : view_entity l k = e.
Proof.
  destruct (entity_at l tg e a t r Hl Hfit) as (pre & post & Hp).
  unfold view_entity. rewrite fields_raw, <- (proj1 Hfit). eapply slice_part, Hp.
Qed.
Lemma view_attribute_fields : view_attribute l k = a.
Proof.
  destruct (attribute_at l tg e a t r Hl Hfit) as (pre & post & Hp).
  unfold view_attribute. rewrite fields_raw, <- (proj1 (proj2 Hfit)). eapply slice_part, Hp.
Qed.
Lemma view_value_reference_fields : view_value_reference l k = r.
Proof.
  destruct (reference_at l tg e a t r Hl Hfit) as (pre & post & Hp).
  unfold view_value_reference. rewrite fields_raw, <- (proj2 (proj2 Hfit)). eapply slice_part, Hp.
Qed.
Lemma view_value_type_fields : view_value_type l k = ValueDataType.from_u8 t.
Proof.
  destruct (type_at l tg e a r Hl Hfit) as (pre & post & Hp).
  unfold view_value_type. rewrite fields_raw. destruct (Hp t) as [-> <-]. by rewrite lookup_app_r, Nat.sub_diag by lia.
Qed.

Lemma set_entity_fields e' : length e' = ENTITY_LENGTH ->
  set_entity l e' k = make_key (fields l tg e' a t r).
Proof.
  intros He'. destruct (entity_at l tg e a t r Hl Hfit) as (pre & post & Hp).
  unfold set_entity. rewrite fields_raw, (copy_part _ _ _ _ _ _ (Hp e)) by (by rewrite He', (proj1 Hfit)).
  by rewrite <- (proj1 (Hp e')).
Qed.
Lemma set_attribute_fields a' : length a' = ATTRIBUTE_LENGTH ->
  set_attribute l a' k = make_key (fields l tg e a' t r).
Proof.
  intros Ha'. destruct (attribute_at l tg e a t r Hl Hfit) as (pre & post & Hp).
  unfold set_attribute. rewrite fields_raw, (copy_part _ _ _ _ _ _ (Hp a)) by (by rewrite Ha', (proj1 (proj2 Hfit))).
  by rewrite <- (proj1 (Hp a')).
Qed.
Lemma set_value_reference_fields r' : length r' = VALUE_REFERENCE_LENGTH ->
  set_value_reference l r' k = make_key (fields l tg e a t r').
Proof.
  intros Hr'. destruct (reference_at l tg e a t r Hl Hfit) as (pre & post & Hp).
  unfold set_value_reference. rewrite fields_raw, (copy_part _ _ _ _ _ _ (Hp r)) by (by rewrite Hr', (proj2 (proj2 Hfit))).
  by rewrite <- (proj1 (Hp r')).
Qed.
Lemma set_value_type_fields t' : set_value_type l t' k = make_key (fields l tg e a (ValueDataType.to_u8 t') r).
Proof.
  destruct (type_at l tg e a r Hl Hfit) as (pre & post & Hp).
  unfold set_value_type. rewrite fields_raw, (copy_part _ _ _ _ _ _ (Hp t)) by done.
  by rewrite <- (proj1 (Hp (ValueDataType.to_u8 t'))).
Qed.
End field_ops.

(** The extreme keys of a view. *)
Lemma zero_fits : fits (replicate ENTITY_LENGTH x00) (replicate ATTRIBUTE_LENGTH x00)
  (replicate VALUE_REFERENCE_LENGTH x00).
Proof. done. Qed.
Lemma view_min_fields l : l ∈ layouts ->
  view_min l = make_key (fields l (key_tag l) (replicate ENTITY_LENGTH x00) (replicate ATTRIBUTE_LENGTH x00)
                           x00 (replicate VALUE_REFERENCE_LENGTH x00)).
Proof. revert l. by apply layouts_case; apply KeyBytes_eq; vm_compute. Qed.
Lemma view_max_fields l : l ∈ layouts ->
  view_max l = make_key (fields l (key_tag l) (replicate ENTITY_LENGTH xff) (replicate ATTRIBUTE_LENGTH xff)
                           xff (replicate VALUE_REFERENCE_LENGTH xff)).
Proof. revert l. by apply layouts_case; apply KeyBytes_eq; vm_compute. Qed.

(** * The key of a fact *)
(** What the keys of a fact in the three orders have in common. *)
Record FactKey := mkFactKey {
  fact_entity : bytes; fact_attribute : bytes; fact_type : ValueDataType.t; fact_reference : bytes
}.
#[export] Instance ValueDataType_countable : Countable ValueDataType.t.
Proof.
  apply (inj_countable ValueDataType.to_u8 (fun b => Some (ValueDataType.from_u8 b))).
  intros t. by rewrite from_u8_to_u8.
Defined.
#[export] Instance FactKey_eq_dec : EqDecision FactKey.
Proof. solve_decision. Defined.
#[export] Instance FactKey_countable : Countable FactKey.
Proof.
  apply (inj_countable' (fun f => (fact_entity f, fact_attribute f, fact_type f, fact_reference f))
           (fun '(e, a, t, r) => mkFactKey e a t r)).
  by intros [].
Defined.

Implicit Types (f : FactKey) (l m : Layout).
Definition well_sized f : Prop := fits (fact_entity f) (fact_attribute f) (fact_reference f).
Definition encode l f : KeyBytes :=
  make_key (fields l (key_tag l) (fact_entity f) (fact_attribute f) (ValueDataType.to_u8 (fact_type f)) (fact_reference f)).

Lemma tag_encode l f : well_sized f -> tag (encode l f) = key_tag l.
Proof. apply tag_fields. Qed.
Lemma views_encode l f : l ∈ layouts -> well_sized f ->
  view_entity l (encode l f) = fact_entity f /\ view_attribute l (encode l f) = fact_attribute f /\
  view_value_type l (encode l f) = fact_type f /\ view_value_reference l (encode l f) = fact_reference f.
Proof.
  intros Hl Hf. unfold encode.
  by rewrite view_entity_fields, view_attribute_fields, view_value_type_fields, view_value_reference_fields,
    from_u8_to_u8.
Qed.

Lemma key_tag_inj l m : l ∈ layouts -> m ∈ layouts -> key_tag l = key_tag m -> l = m.
Proof.
  intros Hl. revert l Hl m. apply (layouts_case (fun l => forall m, m ∈ layouts -> key_tag l = key_tag m -> l = m));
    by apply (layouts_case (fun m => _ = key_tag m -> _ = m)).
Qed.
Lemma encode_inj l m f f' : l ∈ layouts -> m ∈ layouts -> well_sized f -> well_sized f' ->
  encode l f = encode m f' -> l = m /\ f = f'.
Proof.
  intros Hl Hm Hf Hf' E.
  assert (l = m) as <- by (apply key_tag_inj; [done..|]; by rewrite <- (tag_encode l f), E, tag_encode).
  split; [done|].
  destruct (views_encode l f Hl Hf) as (He & Ha & Ht & Hr), (views_encode l f' Hl Hf') as (He' & Ha' & Ht' & Hr').
  rewrite E in *. destruct f, f'; simpl in *. congruence.
Qed.

(** One fact's keys are each other's conversions. *)
Lemma from_key_encode l m f : l ∈ layouts -> m ∈ layouts -> well_sized f -> from_key l m (encode m f) = encode l f.
Proof.
  intros Hl Hm Hf. unfold from_key. destruct (views_encode m f Hm Hf) as (-> & -> & -> & ->).
  pose proof Hf as (He & Ha & Hr). pose proof zero_fits.
  rewrite view_min_fields, set_entity_fields, set_attribute_fields, set_value_type_fields,
    set_value_reference_fields; done.
Qed.

Section fact_keys.
Context `{Blake3, Url}.

Definition fact_key (artifact : Artifact) : FactKey :=
  mkFactKey (entity_key_bytes (artifact_of artifact)) (attribute_key_bytes (artifact_the artifact))
    (data_type (artifact_is artifact)) (to_reference (artifact_is artifact)).

Lemma length_attribute_key a : wf_attribute a -> length (attribute_key_bytes a) = ATTRIBUTE_LENGTH.
Proof.
  intros [(_ & -> & Hn)%Attribute_try_from_name _]. unfold zero_padded.
  rewrite length_app, length_replicate. lia.
Qed.
Lemma length_reference b : length (make_reference b) = VALUE_REFERENCE_LENGTH.
Proof. apply blake3_length. Qed.
Lemma length_entity_key e : wf_entity e -> length (entity_key_bytes e) = ENTITY_LENGTH.
Proof.
  intros He. rewrite (wf_entity_key e He). unfold key_bytes, zero_padded. cbv zeta.
  case_decide; rewrite !length_app, ?length_take, ?length_replicate, ?length_reference;
    unfold ENTITY_LENGTH, VALUE_REFERENCE_LENGTH; lia.
Qed.
Lemma fact_key_sized artifact : wf_artifact artifact -> well_sized (fact_key artifact).
Proof.
  intros (Ha & He & _). split_and!; [by apply length_entity_key|by apply length_attribute_key|apply length_reference].
Qed.

Lemma entity_key_encode artifact : wf_artifact artifact -> entity_key artifact = encode EntityKey (fact_key artifact).
Proof.
  intros Hwf. destruct (fact_key_sized _ Hwf) as (He & Ha & Hr). unfold entity_key. pose proof zero_fits.
  assert (EntityKey ∈ layouts) by by left.
  rewrite view_min_fields, set_entity_fields, set_attribute_fields, set_value_type_fields,
    set_value_reference_fields; done.
Qed.
End fact_keys.

(** * Ranges *)
Lemma fields_le l tg e a t r e' a' t' r' :
  fits e a r -> fits e' a' r' -> e ≼ e' -> a ≼ a' -> (Byte.to_N t <= Byte.to_N t')%N -> r ≼ r' ->
  make_key (fields l tg e a t r) ≼ make_key (fields l tg e' a' t' r').
Proof.
  intros Hf Hf' He Ha Ht Hr.
  change (key_raw (make_key (fields l tg e a t r)) ≼ key_raw (make_key (fields l tg e' a' t' r'))).
  rewrite !fields_raw by done. destruct Hf as (Le & La & Lr), Hf' as (Le' & La' & Lr').
  unfold fields. repeat case_decide; apply list_le_cons; try lia.
  - apply list_le_app; [congruence|done|]. apply list_le_app; [congruence|done|]. by apply list_le_cons.
  - apply list_le_app; [congruence|done|]. apply list_le_app; [congruence|done|]. by apply list_le_cons.
  - apply list_le_cons; [done|]. apply list_le_app; [congruence|done|]. by apply list_le_app; [congruence|..].
Qed.

(** Every key between two keys of one view has its tag. *)
Lemma tag_between (k1 k k2 : KeyBytes) tg : tag k1 = tg -> tag k2 = tg -> k1 ≼ k -> k ≼ k2 -> tag k = tg.
Proof.
  unfold tag. change (k1 ≼ k) with (key_raw k1 ≼ key_raw k). change (k ≼ k2) with (key_raw k ≼ key_raw k2).
  pose proof (key_length k1) as L1. pose proof (key_length k) as L. pose proof (key_length k2) as L2.
  destruct (key_raw k1) as [|b1 x1], (key_raw k) as [|b x], (key_raw k2) as [|b2 x2]; try done.
  simpl. intros <- -> Hle1 Hle2. apply to_N_inj.
  unfold ole in *. simpl in Hle1, Hle2.
  destruct (N.compare_spec (Byte.to_N b1) (Byte.to_N b)); [done| |done].
  destruct (N.compare_spec (Byte.to_N b) (Byte.to_N b1)); [done| |done]. lia.
Qed.

(** The part of a bound that a constraint fixes: the exact value, or a segment
    that brackets the prefix, or nothing. *)
Definition bound_entity (selector : ArtifactSelector) (fill : byte) : bytes :=
  match selector_entity selector, selector_entity_prefix selector with
  | Some e, _ => entity_key_bytes e
  | None, Some prefix => prefix_segment ENTITY_LENGTH prefix ENTITY_RAW_HEAD fill
  | None, None => replicate ENTITY_LENGTH fill
  end.
Definition bound_attribute (selector : ArtifactSelector) (fill : byte) : bytes :=
  match selector_attribute selector, selector_attribute_prefix selector with
  | Some a, _ => attribute_key_bytes a
  | None, Some prefix => prefix_segment ATTRIBUTE_LENGTH prefix ATTRIBUTE_LENGTH fill
  | None, None => replicate ATTRIBUTE_LENGTH fill
  end.
Definition bound_type (selector : ArtifactSelector) (fill : byte) : byte :=
  default fill (ValueDataType.to_u8 <$> (data_type <$> selector_value selector)).
Definition bound_reference (selector : ArtifactSelector) (fill : byte) : bytes :=
  default (replicate VALUE_REFERENCE_LENGTH fill) (selector_value_reference selector).

(** Exact values have the size of their field. *)
Definition selector_sized (selector : ArtifactSelector) : Prop :=
  (forall e, selector_entity selector = Some e -> length (entity_key_bytes e) = ENTITY_LENGTH) /\
  (forall a, selector_attribute selector = Some a -> length (attribute_key_bytes a) = ATTRIBUTE_LENGTH) /\
  (forall r, selector_value_reference selector = Some r -> length r = VALUE_REFERENCE_LENGTH).

Lemma length_prefix_segment n prefix head fill : length (prefix_segment n prefix head fill) = n.
Proof.
  unfold prefix_segment, copy_at. cbv zeta.
  rewrite !length_app, !length_take, length_drop, length_replicate. lia.
Qed.
Lemma bounds_fit selector fill : selector_sized selector ->
  fits (bound_entity selector fill) (bound_attribute selector fill) (bound_reference selector fill).
Proof.
  intros (He & Ha & Hr). unfold bound_entity, bound_attribute, bound_reference. split_and!.
  - destruct (selector_entity selector); [by apply He|].
    destruct (selector_entity_prefix selector); auto using length_prefix_segment, length_replicate.
  - destruct (selector_attribute selector); [by apply Ha|].
    destruct (selector_attribute_prefix selector); auto using length_prefix_segment, length_replicate.
  - destruct (selector_value_reference selector); [by apply Hr|]. apply length_replicate.
Qed.

(** The bound that [scan] computes from the extreme key of a view. *)
Lemma bound_fields l selector fill : l ∈ layouts -> selector_sized selector ->
  apply_prefix_bound l selector fill (apply_selector l selector
    (make_key (fields l (key_tag l) (replicate ENTITY_LENGTH fill) (replicate ATTRIBUTE_LENGTH fill) fill
                 (replicate VALUE_REFERENCE_LENGTH fill)))) =
  make_key (fields l (key_tag l) (bound_entity selector fill) (bound_attribute selector fill)
              (bound_type selector fill) (bound_reference selector fill)).
Proof.
  intros Hl (He & Ha & Hr).
  assert (forall s, length s = ENTITY_LENGTH -> forall a r, length a = ATTRIBUTE_LENGTH ->
    length r = VALUE_REFERENCE_LENGTH -> fits s a r) as Hfits by done.
  unfold apply_prefix_bound, apply_selector, set_part, bound_entity, bound_attribute, bound_type, bound_reference.
  assert (forall n, length (replicate n fill) = n) as Hrep by (intros; apply length_replicate).
  pose proof length_prefix_segment as Hseg.
  destruct (selector_entity selector) as [e|]; [specialize (He e eq_refl)|];
    [rewrite set_entity_fields by auto|].
  all: destruct (selector_attribute selector) as [a|]; [specialize (Ha a eq_refl)|];
    [rewrite set_attribute_fields by auto|].
  all: destruct (selector_value selector) as [v|]; simpl; [rewrite set_value_type_fields by auto|].
  all: destruct (selector_value_reference selector) as [r|]; [specialize (Hr r eq_refl)|];
    [rewrite set_value_reference_fields by auto|].
  all: simpl; destruct (selector_attribute_prefix selector) as [p|];
    try rewrite set_attribute_fields by auto.
  all: destruct (selector_entity_prefix selector) as [q|]; try rewrite set_entity_fields by auto; reflexivity.
Qed.

Lemma segment_le n prefix head x :
  length x = n -> (let m := Nat.min (Nat.min (length prefix) head) n in take m x = take m prefix) ->
  prefix_segment n prefix head x00 ≼ x /\ x ≼ prefix_segment n prefix head xff.
Proof.
  intros Hx E. cbv zeta in E. unfold prefix_segment, copy_at. cbv zeta. rewrite !take_0. simpl app.
  set (m := Nat.min (Nat.min (length prefix) head) n) in *.
  assert (length (take m prefix) = m) as Hm by (rewrite length_take; lia).
  rewrite Hm, !drop_replicate, <- E. rewrite <- (take_drop m x) at 2 3.
  split; (apply list_le_app; [done|apply ole_refl|]).
  - apply list_le_zeros. rewrite length_drop. lia.
  - apply list_le_ones. rewrite length_drop. lia.
Qed.

(** What a match says of the fact, constraint by constraint. *)
Definition fact_matches (selector : ArtifactSelector) f : Prop :=
  (forall e, selector_entity selector = Some e -> entity_key_bytes e = fact_entity f) /\
  (forall a, selector_attribute selector = Some a -> attribute_key_bytes a = fact_attribute f) /\
  (forall v, selector_value selector = Some v -> data_type v = fact_type f) /\
  (forall r, selector_value_reference selector = Some r -> r = fact_reference f) /\
  (forall p, selector_attribute_prefix selector = Some p ->
     (length p <= ATTRIBUTE_LENGTH)%nat /\ starts_with p (fact_attribute f) = true) /\
  (forall p, selector_entity_prefix selector = Some p ->
     let head := Nat.min (length p) ENTITY_RAW_HEAD in take head (fact_entity f) = take head p).

Lemma match_encode l selector f : l ∈ layouts -> well_sized f ->
  match_selector_and_key_view l selector (encode l f) = true <-> fact_matches selector f.
Proof.
  intros Hl Hf. unfold match_selector_and_key_view, fact_matches.
  destruct (views_encode l f Hl Hf) as (-> & -> & -> & ->). rewrite !andb_true_iff, !Logic.and_assoc.
  repeat apply Morphisms_Prop.and_iff_morphism.
  - destruct (selector_entity selector); [rewrite bool_decide_eq_true|]; naive_solver.
  - destruct (selector_attribute selector); [rewrite bool_decide_eq_true|]; naive_solver.
  - destruct (selector_value selector); [rewrite bool_decide_eq_true|]; naive_solver.
  - destruct (selector_value_reference selector); [rewrite bool_decide_eq_true|]; naive_solver.
  - destruct (selector_attribute_prefix selector);
      [rewrite andb_true_iff, bool_decide_eq_true|]; naive_solver.
  - destruct (selector_entity_prefix selector); [rewrite bool_decide_eq_true|]; naive_solver.
Qed.

Definition bound_key l selector fill : KeyBytes :=
  make_key (fields l (key_tag l) (bound_entity selector fill) (bound_attribute selector fill)
              (bound_type selector fill) (bound_reference selector fill)).

(** The range between the bounds has every fact that matches, and nothing of the
    other views. *)
Lemma match_in_bounds l selector f : l ∈ layouts -> well_sized f -> selector_sized selector ->
  fact_matches selector f ->
  bound_key l selector x00 ≼ encode l f /\ encode l f ≼ bound_key l selector xff.
Proof.
  intros Hl Hf Hs (Me & Ma & Mv & Mr & Mpa & Mpe).
  pose proof (bounds_fit selector x00 Hs) as F0. pose proof (bounds_fit selector xff Hs) as F1.
  pose proof Hf as (Le & La & Lr).
  assert (bound_entity selector x00 ≼ fact_entity f /\ fact_entity f ≼ bound_entity selector xff) as [E0 E1].
  { unfold bound_entity. destruct (selector_entity selector) as [e|].
    - rewrite (Me e eq_refl). split; apply ole_refl.
    - destruct (selector_entity_prefix selector) as [p|].
      + apply segment_le; [done|]. cbv zeta. rewrite Nat.min_l.
        * by apply Mpe.
        * unfold ENTITY_LENGTH, ENTITY_RAW_HEAD. lia.
      + split; [by apply list_le_zeros|by apply list_le_ones]. }
  assert (bound_attribute selector x00 ≼ fact_attribute f /\ fact_attribute f ≼ bound_attribute selector xff) as [A0 A1].
  { unfold bound_attribute. destruct (selector_attribute selector) as [a|].
    - rewrite (Ma a eq_refl). split; apply ole_refl.
    - destruct (selector_attribute_prefix selector) as [p|].
      + destruct (Mpa p eq_refl) as [Hp Hst]. apply bool_decide_eq_true in Hst.
        apply segment_le; [done|]. cbv zeta. rewrite Nat.min_l, Nat.min_l by lia. by rewrite firstn_all.
      + split; [by apply list_le_zeros|by apply list_le_ones]. }
  assert (bound_reference selector x00 ≼ fact_reference f /\ fact_reference f ≼ bound_reference selector xff) as [R0 R1].
  { unfold bound_reference. destruct (selector_value_reference selector) as [r|]; cbn [default from_option].
    - rewrite (Mr r eq_refl). split; apply ole_refl.
    - split; [by apply list_le_zeros|by apply list_le_ones]. }
  pose proof (Byte.to_N_bounded (ValueDataType.to_u8 (fact_type f))) as Hb.
  split; (apply fields_le; [done..|try done|done]); unfold bound_type;
    (destruct (selector_value selector) as [v|]; simpl; [rewrite (Mv v eq_refl); lia|]).
  - change (Byte.to_N x00) with 0%N. lia.
  - change (Byte.to_N xff) with 255%N. lia.
Qed.

Lemma tag_bound l selector fill : selector_sized selector -> tag (bound_key l selector fill) = key_tag l.
Proof. intros Hs. unfold bound_key. apply tag_fields. by apply bounds_fit. Qed.
