(* ===== verification/ArtifactFacts.v ===== *)
(** What index keys and selectors mean: keys determine facts, and a selector
    matches an index entry exactly when the fact satisfies it.  Attribute names
    and prefixes must be free of NUL bytes and the hashed tails of long entities
    and of values must not collide. *)
From S2P Require Import Prelude Common Nodes Artifact ArtifactKeys.

(** No two byte strings of [P] share a digest. *)
Definition digests_distinct `{Blake3} (P : bytes -> Prop) : Prop :=
  forall b1 b2, P b1 -> P b2 -> blake3 b1 = blake3 b2 -> b1 = b2.

Section facts.
Context `{Blake3, Url}.
Implicit Types (artifact : Artifact) (selector : ArtifactSelector) (e : Entity) (v : Value.t) (s p : bytes).

(** An artifact that can be stored and read back under its own key. *)
Definition storable artifact : Prop :=
  wf_artifact artifact /\ symbol_nul_free (artifact_is artifact) /\
  data_type (artifact_is artifact) <> ValueDataType.Record_ /\ nul_free (attribute_name (artifact_the artifact)).

Lemma storable_roundtrip artifact : storable artifact -> Artifact_try_from (Datum_from artifact) = Ok artifact.
Proof.
  intros ((Ha & He & Hv) & Hsym & Hrec & _). unfold Artifact_try_from. cbn [Datum_from datum_attribute].
  destruct Ha as [-> _]. cbn. rewrite (wf_entity_str _ He). cbn.
  rewrite from_u8_to_u8, Value_roundtrip by done. by destruct artifact.
Qed.

(** ** Keys determine facts *)
Lemma attribute_key_inj (a1 a2 : Attribute) :
  wf_attribute a1 -> wf_attribute a2 -> nul_free (attribute_name a1) -> nul_free (attribute_name a2) ->
  attribute_key_bytes a1 = attribute_key_bytes a2 -> a1 = a2.
Proof.
  intros [H1 _] [H2 _] Hn1 Hn2 E.
  destruct (Attribute_try_from_name _ _ H1) as (_ & K1 & _), (Attribute_try_from_name _ _ H2) as (_ & K2 & _).
  rewrite K1, K2 in E. unfold zero_padded in E. apply (f_equal (first_piece x00)) in E.
  rewrite !first_piece_padded in E by done. congruence.
Qed.

Lemma ascii_nul_free s : Forall (fun b => in_byte_range 32 126 b = true) s -> nul_free s.
Proof. intros Hs Hin. rewrite Forall_forall in Hs. by specialize (Hs _ Hin). Qed.
Lemma wf_entity_nul_free e : wf_entity e -> nul_free (entity_str e).
Proof. intros He. by apply ascii_nul_free, wf_entity_ascii. Qed.
Lemma nul_free_take n s : nul_free s -> nul_free (take n s).
Proof. intros Hs Hin. apply Hs. by eapply elem_of_take in Hin as (? & ?%list_elem_of_lookup_2 & _). Qed.

(** The raw head of an entity key: the string, cut or padded to 32 bytes. *)
Lemma entity_key_head e : wf_entity e ->
  exists tail, entity_key_bytes e = zero_padded ENTITY_RAW_HEAD (take ENTITY_RAW_HEAD (entity_str e)) ++ tail /\
    ((ENTITY_RAW_HEAD <= length (entity_str e))%nat ->
      tail = make_reference (drop ENTITY_RAW_HEAD (entity_str e))).
Proof.
  intros He. rewrite (wf_entity_key e He). unfold key_bytes. cbv zeta.
  change (uri_str (entity_uri e)) with (entity_str e). change 32%nat with ENTITY_RAW_HEAD at 1 2 3 4 5.
  case_decide.
  - eexists. split; [|done]. f_equal. unfold zero_padded.
    rewrite length_take, Nat.min_l, Nat.sub_diag by lia. by rewrite app_nil_r.
  - exists (replicate 32 x00). split; [|lia]. by rewrite take_ge by lia.
Qed.

Lemma length_zero_padded n s : (length s <= n)%nat -> length (zero_padded n s) = n.
Proof. intros Hs. unfold zero_padded. rewrite length_app, length_replicate. lia. Qed.

Lemma entity_key_inj (P : bytes -> Prop) e1 e2 :
  digests_distinct P -> P (drop ENTITY_RAW_HEAD (entity_str e1)) -> P (drop ENTITY_RAW_HEAD (entity_str e2)) ->
  wf_entity e1 -> wf_entity e2 -> entity_key_bytes e1 = entity_key_bytes e2 -> e1 = e2.
Proof.
  intros HP P1 P2 H1 H2 E.
  assert (entity_str e1 = entity_str e2) as Es; [|pose proof (wf_entity_str e1 H1); pose proof (wf_entity_str e2 H2); congruence].
  destruct (entity_key_head e1 H1) as (t1 & K1 & T1), (entity_key_head e2 H2) as (t2 & K2 & T2).
  rewrite K1, K2 in E. apply app_inj_1 in E as [Eh Et];
    [|rewrite !length_zero_padded by (rewrite length_take; lia); done].
  apply (f_equal (first_piece x00)) in Eh. unfold zero_padded in Eh.
  rewrite !first_piece_padded in Eh by auto using nul_free_take, wf_entity_nul_free.
  rewrite <- (take_drop ENTITY_RAW_HEAD (entity_str e1)), <- (take_drop ENTITY_RAW_HEAD (entity_str e2)), Eh.
  f_equal. apply (f_equal length) in Eh. rewrite !length_take in Eh.
  destruct (decide (ENTITY_RAW_HEAD <= length (entity_str e1))%nat) as [L1|L1].
  - rewrite T1, T2 in Et by lia. apply HP; [done|done|].
    unfold make_reference in Et. destruct (blake3 (drop _ (entity_str e1))), (blake3 (drop _ (entity_str e2))).
    by simpl in Et; subst.
  - by rewrite !drop_ge by lia.
Qed.

Lemma value_key_inj (P : bytes -> Prop) v1 v2 :
  digests_distinct P -> P (value_to_bytes v1) -> P (value_to_bytes v2) ->
  wf_value v1 -> wf_value v2 -> symbol_nul_free v1 -> symbol_nul_free v2 ->
  data_type v2 <> ValueDataType.Record_ ->
  data_type v1 = data_type v2 -> to_reference v1 = to_reference v2 -> v1 = v2.
Proof.
  intros HP P1 P2 W1 W2 S1 S2 Hrec Et Er.
  assert (value_to_bytes v1 = value_to_bytes v2) as Eb.
  { apply HP; [done|done|]. unfold to_reference, make_reference in Er.
    destruct (blake3 (value_to_bytes v1)), (blake3 (value_to_bytes v2)). by simpl in Er; subst. }
  pose proof (Value_roundtrip v1 W1 S1) as R1. pose proof (Value_roundtrip v2 W2 S2 Hrec) as R2.
  rewrite Et, Eb in R1. specialize (R1 Hrec). congruence.
Qed.

(** What is hashed for a fact. *)
Definition hashed artifact : list bytes :=
  [drop ENTITY_RAW_HEAD (entity_str (artifact_of artifact)); value_to_bytes (artifact_is artifact)].

Lemma fact_key_inj (P : bytes -> Prop) a1 a2 :
  digests_distinct P -> Forall P (hashed a1) -> Forall P (hashed a2) -> storable a1 -> storable a2 ->
  fact_key a1 = fact_key a2 ->
  artifact_the a1 = artifact_the a2 /\ artifact_of a1 = artifact_of a2 /\ artifact_is a1 = artifact_is a2.
Proof.
  unfold hashed. rewrite !Forall_cons. intros HP (P1 & Q1 & _) (P2 & Q2 & _)
    ((A1 & E1 & V1) & S1 & R1 & N1) ((A2 & E2 & V2) & S2 & R2 & N2) [= Ke Ka Kt Kr].
  split_and!; [by apply attribute_key_inj|by apply (entity_key_inj P)|by apply (value_key_inj P)].
Qed.

(** ** Selectors *)
Definition satisfies selector artifact : Prop :=
  (forall e, selector_entity selector = Some e -> artifact_of artifact = e) /\
  (forall a, selector_attribute selector = Some a -> artifact_the artifact = a) /\
  (forall v, selector_value selector = Some v -> artifact_is artifact = v) /\
  (forall p, selector_attribute_prefix selector = Some p ->
     starts_with p (attribute_name (artifact_the artifact)) = true) /\
  (forall p, selector_entity_prefix selector = Some p -> starts_with p (entity_str (artifact_of artifact)) = true).

Definition wf_selector selector : Prop :=
  (forall e, selector_entity selector = Some e -> wf_entity e) /\
  (forall a, selector_attribute selector = Some a -> wf_attribute a /\ nul_free (attribute_name a)) /\
  (forall v, selector_value selector = Some v -> wf_value v /\ symbol_nul_free v) /\
  (forall p, selector_attribute_prefix selector = Some p -> nul_free p) /\
  (forall p, selector_entity_prefix selector = Some p -> nul_free p).

Definition selector_hashed selector : list bytes :=
  match selector_entity selector with Some e => [drop ENTITY_RAW_HEAD (entity_str e)] | None => [] end ++
  match selector_value selector with Some v => [value_to_bytes v] | None => [] end.

Lemma built_invariant c selector : built c selector ->
  selector_value_reference selector = to_reference <$> selector_value selector /\
  (c = true -> is_Some (selector_entity selector) \/ is_Some (selector_attribute selector) \/
     is_Some (selector_value selector) \/ is_Some (selector_attribute_prefix selector) \/
     is_Some (selector_entity_prefix selector)).
Proof. induction 1 as [|c s a _ [E _]|c s e _ [E _]|c s v _ [E _]|c s p _ [E _]|c s p _ [E _]]; simpl; naive_solver. Qed.

Lemma selector_wf_sized selector : Constrained selector -> wf_selector selector -> selector_sized selector.
Proof.
  intros [Hr _]%built_invariant (He & Ha & _). split_and!.
  - intros e ?%He. by apply length_entity_key.
  - intros a [? _]%Ha. by apply length_attribute_key.
  - intros r E. rewrite Hr in E. apply fmap_Some in E as (v & _ & ->). apply length_reference.
Qed.

(** Prefixes of zero-padded names. *)
Lemma starts_with_spec p s : starts_with p s = true <-> exists r, s = p ++ r.
Proof.
  unfold starts_with. rewrite bool_decide_eq_true. split.
  - intros E. exists (drop (length p) s). rewrite <- E at 1. by rewrite take_drop.
  - intros [r ->]. apply take_app_length.
Qed.
Lemma starts_with_padded p s n : nul_free p -> starts_with p (s ++ replicate n x00) = starts_with p s.
Proof.
  intros Hp. apply Bool.eq_iff_eq_true. rewrite !starts_with_spec. split; [|intros [r ->]; rewrite <- app_assoc; eauto].
  intros [r E]. apply app_eq_inv in E as [(k & -> & _)|(k & -> & Ek)]; [eauto|].
  destruct k as [|b k]; [exists []; by rewrite !app_nil_r|]. exfalso. apply Hp.
  destruct n as [|n]; [done|]. injection Ek as <- _. set_solver.
Qed.
Lemma starts_with_take p s n : (length p <= n)%nat -> starts_with p (take n s) = starts_with p s.
Proof. intros Hn. unfold starts_with. by rewrite take_take, Nat.min_l by lia. Qed.

Lemma attribute_prefix_match p a : nul_free p -> wf_attribute a ->
  (length p <= ATTRIBUTE_LENGTH)%nat /\ starts_with p (attribute_key_bytes a) = true <->
  starts_with p (attribute_name a) = true.
Proof.
  intros Hp [(_ & -> & Hl)%Attribute_try_from_name _]. unfold zero_padded. rewrite starts_with_padded by done.
  split; [by intros [_ ?]|]. intros Hs. split; [|done].
  apply starts_with_spec in Hs as [r Hr]. apply (f_equal length) in Hr. rewrite length_app in Hr. lia.
Qed.

(** The key shows a prefix of at most 32 bytes, and the head of a longer one;
    the stored string shows the rest. *)
Lemma entity_prefix_match p e : nul_free p -> wf_entity e ->
  (let head := Nat.min (length p) ENTITY_RAW_HEAD in take head (entity_key_bytes e) = take head p) /\
  (if decide (ENTITY_RAW_HEAD < length p)%nat then starts_with p (entity_str e) else true) = true <->
  starts_with p (entity_str e) = true.
Proof.
  intros Hp He. cbv zeta. destruct (entity_key_head e He) as (tail & -> & _).
  assert (length (zero_padded ENTITY_RAW_HEAD (take ENTITY_RAW_HEAD (entity_str e))) = ENTITY_RAW_HEAD) as Hz
    by (apply length_zero_padded; rewrite length_take; lia).
  rewrite take_app_le by lia.
  assert (forall q, nul_free q -> length q = Nat.min (length p) ENTITY_RAW_HEAD ->
    take (Nat.min (length p) ENTITY_RAW_HEAD) (zero_padded ENTITY_RAW_HEAD (take ENTITY_RAW_HEAD (entity_str e))) = q
    <-> starts_with q (entity_str e) = true) as Hq.
  { intros q Hnq Hlq. rewrite <- Hlq, <- (starts_with_take q (entity_str e) ENTITY_RAW_HEAD) by lia.
    rewrite <- (starts_with_padded q _ (ENTITY_RAW_HEAD - length (take ENTITY_RAW_HEAD (entity_str e)))) by done.
    unfold starts_with. by rewrite bool_decide_eq_true. }
  rewrite Hq; [|by apply nul_free_take|by rewrite length_take; lia].
  case_decide as Hd.
  - split; [by intros [_ ?]|]. intros Hs. split; [|done].
    apply starts_with_spec in Hs as [r ->]. rewrite starts_with_spec.
    eexists. by rewrite app_assoc, take_drop.
  - rewrite take_ge by lia. naive_solver.
Qed.

(** A selector matches an index entry exactly when the artifact satisfies it. *)
Lemma match_satisfies (P : bytes -> Prop) l selector artifact :
  digests_distinct P -> Forall P (hashed artifact) -> Forall P (selector_hashed selector) ->
  l ∈ layouts -> storable artifact -> Constrained selector -> wf_selector selector ->
  matches_selector selector (mkEntry (encode l (fact_key artifact)) (Added (Datum_from artifact))) = true <->
  satisfies selector artifact.
Proof.
  intros HP Pa Ps Hl Hst Hb Hw. pose proof Hst as ((Wa & We & Wv) & Ws & Hrec & Hn).
  assert (well_sized (fact_key artifact)) as Hf by (by apply fact_key_sized).
  assert (matches_selector selector (mkEntry (encode l (fact_key artifact)) (Added (Datum_from artifact))) = true <->
    fact_matches selector (fact_key artifact) /\
    forall p, selector_entity_prefix selector = Some p ->
      (if decide (ENTITY_RAW_HEAD < length p)%nat then starts_with p (entity_str (artifact_of artifact)) else true) = true) as ->.
  { unfold matches_selector. cbn [key value]. rewrite tag_encode by done. rewrite andb_true_iff.
    apply Morphisms_Prop.and_iff_morphism.
    - rewrite <- (match_encode l) by done. revert l Hl. by apply layouts_case.
    - destruct (selector_entity_prefix selector) as [p|]; [|naive_solver].
      change (datum_entity (Datum_from artifact)) with (entity_str (artifact_of artifact)).
      split; [intros Hx q [= <-]; done|intros Hx; by apply Hx]. }
  apply built_invariant in Hb as [Hr _]. destruct Hw as (Se & Sa & Sv & Spa & Spe).
  unfold hashed, selector_hashed in *. rewrite !Forall_cons in Pa. destruct Pa as (Pe & Pv & _).
  apply Forall_app in Ps as [Pse Psv].
  unfold fact_matches, satisfies. cbn [fact_key fact_entity fact_attribute fact_type fact_reference]. split.
  - intros ((Me & Ma & Mv & Mr & Mpa & Mpe) & Mlong). split_and!.
    + intros e E. rewrite E in Pse. rewrite Forall_singleton in Pse. symmetry.
      apply (entity_key_inj P); auto.
    + intros a E. symmetry. destruct (Sa a E). apply attribute_key_inj; auto.
    + intros v E. rewrite E, Forall_singleton in Psv. symmetry. destruct (Sv v E).
      apply (value_key_inj P); auto. apply Mr. by rewrite Hr, E.
    + intros p E. apply attribute_prefix_match; auto.
    + intros p E. apply entity_prefix_match; [auto..|]. split; [by apply Mpe|by apply Mlong].
  - intros (Me & Ma & Mv & Mpa & Mpe). split_and!.
    + by intros e ->%Me.
    + by intros a ->%Ma.
    + by intros v ->%Mv.
    + intros r E. rewrite Hr in E. apply fmap_Some in E as (v & ->%Mv & ->). done.
    + intros p E. apply attribute_prefix_match; auto.
    + intros p E. by apply (entity_prefix_match p (artifact_of artifact) (Spe p E) We), Mpe.
    + intros p E. by apply (entity_prefix_match p (artifact_of artifact) (Spe p E) We), Mpe.
Qed.
End facts.
