(* ===== verification/ArtifactTree.v ===== *)
(** The interface through which the artifact layer uses the search tree: an
    ordered map with fallible operations, the laws its clients rely on, and the
    search tree as an implementation of it.  Then the operations on facts that
    go through it (rust/dialog-artifacts/src/tree.rs). *)
From S2P Require Import Prelude Common Nodes SortedEntries Forest Walker TransientTree Instances Repr Spine Fuse Edits Batch Persist Read.

(** The operations of an in-flight tree [T]. *)
Class OrderedTree (K V E T : Type) := {
  tree_insert : K -> V -> T -> outcome E T;
  tree_delete : K -> T -> outcome E T;
  tree_stream_range : Range K -> T -> list (Entry K V) * outcome E ()
}.

(** [holds es t]: the tree holds the entries [es], in ascending key order.
    Every operation succeeds and does to the entries what it says; streams
    succeed while the tree has at most [capacity] entries. *)
Class OrderedTreeLaws (K V E T : Type) `{Key K} `{!OrderedTree K V E T} := {
  holds : list (Entry K V) -> T -> Prop;
  capacity : nat;
  holds_sorted : forall es t, holds es t -> sorted es;
  insert_holds : forall es t k v, holds es t ->
    exists t', tree_insert k v t = Ok t' /\ holds (upsert (mkEntry k v) es) t';
  delete_holds : forall es t k, holds es t ->
    exists t', tree_delete k t = Ok t' /\ holds (remove k es) t';
  stream_holds : forall es t range, holds es t -> (length es <= capacity)%nat ->
    tree_stream_range range t = (in_range range es, Ok tt)
}.

(** ** Membership after an edit *)
Section edits.
Context {K V : Type} `{Key K}.
Implicit Types (e x : Entry K V) (es : list (Entry K V)).

Lemma elem_of_lookup_entry x es : sorted es -> x ∈ es <-> lookup_entry (key x) es = Some (value x).
Proof.
  intros Hs. split; [by apply elem_lookup|]. intros Hx%lookup_Some_elem. by destruct x.
Qed.
Lemma elem_of_upsert x e es : sorted es -> x ∈ upsert e es <-> x = e \/ x ∈ es /\ key x <> key e.
Proof.
  intros Hs. rewrite !elem_of_lookup_entry, lookup_upsert by auto using upsert_sorted.
  case_decide as Hk; [|naive_solver].
  destruct x as [k v], e as [k' v']; simpl in *; subst. naive_solver.
Qed.
Lemma elem_of_remove x k es : sorted es -> x ∈ remove k es <-> x ∈ es /\ key x <> k.
Proof.
  intros Hs. rewrite !elem_of_lookup_entry, lookup_remove by auto using remove_sorted.
  case_decide; naive_solver.
Qed.
Lemma sorted_entries_NoDup es : sorted es -> NoDup es.
Proof.
  induction es as [|x es IH]; [constructor|]. intros [Hs Hx]%sorted_cons. constructor; [|auto].
  intros Hin. specialize (Hx _ Hin). order.
Qed.
Lemma sorted_elem_ext es1 es2 : sorted es1 -> sorted es2 -> (forall x, x ∈ es1 <-> x ∈ es2) -> es1 = es2.
Proof.
  intros H1 H2 Hx. apply sorted_ext; [done..|]. intros k.
  apply option_eq. intros v. rewrite <- !(elem_of_lookup_entry (mkEntry k v)) by done. apply Hx.
Qed.
Lemma sorted_filter (p : Entry K V -> bool) es : sorted es -> sorted (List.filter p es).
Proof.
  induction es as [|x es IH]; [done|]. intros [Hs Hx]%sorted_cons. simpl.
  destruct (p x); [|by apply IH]. apply sorted_cons. split; [by apply IH|].
  intros y [Hy _]%list_elem_of_In%filter_In. apply Hx. by apply list_elem_of_In.
Qed.
End edits.

(** ** The search tree *)
Section search_tree.
Context {K V : Type} `{Key K} `{NodeCodec K V} {D : Distribution}.
Context (acc : Accessor) (fuel : nat).

#[local] Instance search_tree : OrderedTree K V DialogSearchTreeError (TransientRoot K V) := {|
  tree_insert := insert acc fuel;
  tree_delete := delete_key acc fuel;
  tree_stream_range range root := stream_range acc fuel root range
|}.

(** Ranks are at most [R] and nothing is stored under the null hash. *)
Context (R : nat) (rank_le : forall b, (rank b <= R)%nat) (enough : (S R < fuel)%nat).
Context (shallow : (S R <= MAXIMUM_TREE_DEPTH)%nat) (Hnull : null_absent acc).

Definition search_tree_capacity : nat := (fuel - 1) / (2 * S (S R)).

#[local] Program Instance search_tree_laws : OrderedTreeLaws K V DialogSearchTreeError (TransientRoot K V) := {|
  holds := represents R acc;
  capacity := search_tree_capacity
|}.
Next Obligation. by intros es t []. Qed.
Next Obligation. intros es t k v Hr. by apply (insert_represents R rank_le acc fuel enough). Qed.
Next Obligation. intros es t k Hr. by apply (delete_represents R rank_le acc fuel enough). Qed.
Next Obligation.
  intros es t range Hr Hlen. apply (stream_range_represents acc Hnull R); [done..|].
  unfold search_tree_capacity in Hlen. pose proof (Nat.Div0.mul_div_le (fuel - 1) (2 * S (S R))). nia.
Qed.
End search_tree.

(** * Facts in a tree

    Operations on the artifact search tree (rust/dialog-artifacts/src: tree.rs,
    artifacts/instruction.rs): instructions write a fact under its three keys, and
    a selector becomes a range of one index. *)
From S2P Require Import Artifact ArtifactKeys.

(** [Instruction]. *)
Inductive Instruction :=
  | Assert (artifact : Artifact)
  | Replace (artifact : Artifact)
  | Retract (artifact : Artifact).

Section tree.
Context `{Blake3, Url} {T : Type} `{!OrderedTree KeyBytes State DialogSearchTreeError T}.
Implicit Types (artifact : Artifact) (selector : ArtifactSelector) (transient : T).
Local Abbreviation tree_entry := (Entry KeyBytes State).
Local Abbreviation result := (outcome DialogArtifactsError).

(** The [?] on a tree operation. *)
Definition tree_err {A} (o : outcome DialogSearchTreeError A) : result A := map_err Tree o.

(** The three inserts of an instruction; [from_key] converts the entity key. *)
Definition insert_all (k : KeyBytes) (s : State) transient : result T :=
  let value_key := from_key ValueKey EntityKey k in
  let attribute_key := from_key AttributeKey EntityKey k in
  transient ← tree_err (tree_insert k s transient);
  transient ← tree_err (tree_insert attribute_key s transient);
  tree_err (tree_insert value_key s transient).

(** The three deletes of a superseded key. *)
Definition delete_all (k : KeyBytes) transient : result T :=
  let value_key := from_key ValueKey EntityKey k in
  let attribute_key := from_key AttributeKey EntityKey k in
  transient ← tree_err (tree_delete k transient);
  transient ← tree_err (tree_delete value_key transient);
  tree_err (tree_delete attribute_key transient).
Fixpoint delete_each (keys : list KeyBytes) transient : result T :=
  match keys with
  | [] => Ok transient
  | k :: keys => transient ← delete_all k transient; delete_each keys transient
  end.

(** The scan of [Replace] over one entity and attribute: the keys whose value
    differs from [v], in the order read, and whether [v] itself is there. *)
Fixpoint collect_priors (v : Value.t) (candidates : list tree_entry) (superseded_keys : list KeyBytes)
    (found_same_value : bool) : result (list KeyBytes * bool) :=
  match candidates with
  | [] => Ok (superseded_keys, found_same_value)
  | candidate :: candidates =>
      match value candidate with
      | Added current_element =>
          current ← Artifact_try_from current_element;
          if decide (artifact_is current = v) then collect_priors v candidates superseded_keys true
          else collect_priors v candidates (superseded_keys ++ [key candidate]) found_same_value
      | Removed => collect_priors v candidates superseded_keys found_same_value
      end
  end.

Definition search_start (k : KeyBytes) : KeyBytes :=
  set_attribute EntityKey (view_attribute EntityKey k) (set_entity EntityKey (view_entity EntityKey k) (view_min EntityKey)).
Definition search_end (k : KeyBytes) : KeyBytes :=
  set_attribute EntityKey (view_attribute EntityKey k) (set_entity EntityKey (view_entity EntityKey k) (view_max EntityKey)).

(** One iteration of the loop of [ArtifactTreeExt::apply]. *)
Definition apply_instruction (instruction : Instruction) transient : result T :=
  match instruction with
  | Assert artifact => insert_all (entity_key artifact) (Added (Datum_from artifact)) transient
  | Replace artifact =>
      let k := entity_key artifact in
      let '(candidates, status) :=
        tree_stream_range (mkRange (Included (search_start k)) (Included (search_end k))) transient in
      '(superseded_keys, found_same_value) ← collect_priors (artifact_is artifact) candidates [] false;
      _ ← tree_err status;
      transient ← delete_each superseded_keys transient;
      if found_same_value : bool then Ok transient
      else insert_all (entity_key artifact) (Added (Datum_from artifact)) transient
  | Retract artifact => insert_all (entity_key artifact) Removed transient
  end.
Fixpoint apply_instructions (instructions : list Instruction) transient : result T :=
  match instructions with
  | [] => Ok transient
  | instruction :: instructions =>
      transient ← apply_instruction instruction transient; apply_instructions instructions transient
  end.

(** ** [ArtifactTreeExt::scan] *)
(** The index a selector is answered from. *)
Definition scan_index selector : option Layout :=
  if bool_decide (is_Some (selector_entity selector)) ||
     (bool_decide (is_Some (selector_entity_prefix selector)) &&
      bool_decide (selector_value selector = None) && bool_decide (selector_attribute selector = None) &&
      bool_decide (selector_attribute_prefix selector = None))
  then Some EntityKey
  else if bool_decide (is_Some (selector_value selector)) then Some ValueKey
  else if bool_decide (is_Some (selector_attribute selector)) ||
          bool_decide (is_Some (selector_attribute_prefix selector))
  then Some AttributeKey
  else None.
Definition scan_range (l : Layout) selector : Range KeyBytes :=
  mkRange (Included (apply_prefix_bound l selector x00 (apply_selector l selector (view_min l))))
          (Included (apply_prefix_bound l selector xff (apply_selector l selector (view_max l)))).

(** The loop over the stream: what it yields, and how it ends. *)
Fixpoint scan_entries selector (entries : list tree_entry) : list Artifact * result () :=
  match entries with
  | [] => ([], Ok tt)
  | entry :: entries =>
      if matches_selector selector entry then
        match value entry with
        | Added datum =>
            match Artifact_try_from datum with
            | Ok artifact =>
                let '(rest, status) := scan_entries selector entries in (artifact :: rest, status)
            | Err e => ([], Err e)
            | Panic m => ([], Panic m)
            | OutOfFuel => ([], OutOfFuel)
            end
        | Removed => scan_entries selector entries
        end
      else scan_entries selector entries
  end.

Definition scan (stream_range : Range KeyBytes -> list tree_entry * outcome DialogSearchTreeError ()) selector
    : list Artifact * result () :=
  match scan_index selector with
  | None => ([], Panic "ArtifactSelector will always have at least one field specified")
  | Some l =>
      let '(entries, status) := stream_range (scan_range l selector) in
      match scan_entries selector entries with
      | (artifacts, Ok _) => (artifacts, tree_err status)
      | r => r
      end
  end.
End tree.
