(* ===== verification/ArtifactTreeCorrect.v ===== *)
(** The artifact tree refines a finite map of facts: every instruction keeps the
    three indexes in step, [Replace] leaves one value per entity and attribute,
    and a scan yields the asserted artifacts that satisfy its selector, once
    each, in the order of its index. *)
From S2P Require Import Prelude Common Nodes SortedEntries Walker Read ArtifactTree Artifact ArtifactKeys ArtifactFacts.

(** * The specification *)
(** What is known under a key: an artifact, or a tombstone. *)
Abbreviation Facts := (gmap FactKey (option Artifact)).
Definition state_of (o : option Artifact) : State :=
  match o with Some artifact => Added (Datum_from artifact) | None => Removed end.

Section specification.
Context `{Blake3}.
Implicit Types (artifact : Artifact) (facts : Facts) (f : FactKey) (o : option Artifact).

(** The facts of one entity and attribute. *)
Definition same_subject artifact f : Prop :=
  fact_entity f = entity_key_bytes (artifact_of artifact) /\
  fact_attribute f = attribute_key_bytes (artifact_the artifact).
#[export] Instance same_subject_dec artifact f : Decision (same_subject artifact f).
Proof. unfold same_subject. apply _. Defined.

(** Asserted at the same entity and attribute, with another value or the same. *)
Definition superseded artifact (p : FactKey * option Artifact) : Prop :=
  same_subject artifact p.1 /\ from_option (fun current => artifact_is current <> artifact_is artifact) False p.2.
Definition same_value artifact (p : FactKey * option Artifact) : Prop :=
  same_subject artifact p.1 /\ from_option (fun current => artifact_is current = artifact_is artifact) False p.2.
#[export] Instance superseded_dec artifact p : Decision (superseded artifact p).
Proof. unfold superseded. destruct p as [f [current|]]; cbn; apply _. Defined.
#[export] Instance same_value_dec artifact p : Decision (same_value artifact p).
Proof. unfold same_value. destruct p as [f [current|]]; cbn; apply _. Defined.

Definition apply_fact facts (instruction : Instruction) : Facts :=
  match instruction with
  | Assert artifact => <[fact_key artifact := Some artifact]> facts
  | Retract artifact => <[fact_key artifact := None]> facts
  | Replace artifact =>
      let kept := filter (fun p => ~ superseded artifact p) facts in
      if decide (filter (same_value artifact) facts = ∅)
      then <[fact_key artifact := Some artifact]> kept else kept
  end.

(** The index entries of a map of facts. *)
Definition entry_of (l : Layout) (p : FactKey * option Artifact) : Entry KeyBytes State :=
  mkEntry (encode l p.1) (state_of p.2).
Definition fact_entries (ps : list (FactKey * option Artifact)) : list (Entry KeyBytes State) :=
  ps ≫= (fun p => (fun l => entry_of l p) <$> layouts).
Definition index_entries facts : list (Entry KeyBytes State) :=
  foldr upsert [] (fact_entries (map_to_list facts)).

(** Keys have the sizes of their fields; artifacts are storable and under their
    own keys. *)
Definition wf_facts `{Url} facts : Prop :=
  forall f o, facts !! f = Some o ->
    well_sized f /\ forall artifact, o = Some artifact -> storable artifact /\ fact_key artifact = f.
End specification.

(** ** The entries of a map of facts *)
Section entries.
Context `{Blake3, Url}.
Implicit Types (artifact : Artifact) (facts : Facts) (f : FactKey) (o : option Artifact).

Definition entry_at (x : Entry KeyBytes State) facts : Prop :=
  exists l f o, l ∈ layouts /\ facts !! f = Some o /\ x = entry_of l (f, o).

Lemma elem_of_fact_entries x facts : x ∈ fact_entries (map_to_list facts) <-> entry_at x facts.
Proof.
  unfold fact_entries, entry_at. rewrite list_elem_of_bind. split.
  - intros ([f o] & (l & -> & Hl)%list_elem_of_fmap & Hf%elem_of_map_to_list). eauto 10.
  - intros (l & f & o & Hl & Hf & ->). exists (f, o). split; [|by apply elem_of_map_to_list].
    apply list_elem_of_fmap. eauto.
Qed.

Lemma entry_at_key_inj x y facts : wf_facts facts -> entry_at x facts -> entry_at y facts -> key x = key y -> x = y.
Proof.
  intros Hwf (l & f & o & Hl & Hf & ->) (m & g & u & Hm & Hg & ->) E.
  apply encode_inj in E as [<- E]; [|done|done|by apply (Hwf _ _ Hf)|by apply (Hwf _ _ Hg)].
  simpl in E. subst g. congruence.
Qed.

Lemma foldr_upsert_sorted (xs : list (Entry KeyBytes State)) : sorted (foldr upsert [] xs).
Proof. induction xs; simpl; [constructor|by apply upsert_sorted]. Qed.
Lemma elem_of_foldr_upsert (xs : list (Entry KeyBytes State)) x :
  (forall y z, y ∈ xs -> z ∈ xs -> key y = key z -> y = z) -> x ∈ foldr upsert [] xs <-> x ∈ xs.
Proof.
  induction xs as [|y xs IH]; intros Hinj; [done|]. simpl.
  rewrite elem_of_upsert, IH, elem_of_cons by eauto using foldr_upsert_sorted, list_elem_of_further.
  split; [naive_solver|]. intros [->|Hx]; [by left|].
  destruct (decide (key x = key y)) as [E|E]; [left|by right].
  apply Hinj; [by right|by left|done].
Qed.

Lemma index_entries_sorted facts : sorted (index_entries facts).
Proof. apply foldr_upsert_sorted. Qed.
Lemma elem_of_index_entries x facts : wf_facts facts -> x ∈ index_entries facts <-> entry_at x facts.
Proof.
  intros Hwf. unfold index_entries. rewrite elem_of_foldr_upsert, elem_of_fact_entries; [done|].
  intros y z Hy%elem_of_fact_entries Hz%elem_of_fact_entries. by apply (entry_at_key_inj _ _ facts).
Qed.
(** The entries are determined by the facts. *)
Lemma index_entries_unique facts es : wf_facts facts -> sorted es ->
  (forall x, x ∈ es <-> entry_at x facts) -> es = index_entries facts.
Proof.
  intros Hwf Hs Hx. apply sorted_elem_ext; [done|apply index_entries_sorted|].
  intros x. by rewrite Hx, elem_of_index_entries.
Qed.

Lemma length_foldr_upsert (xs : list (Entry KeyBytes State)) : (length (foldr upsert [] xs) <= length xs)%nat.
Proof.
  induction xs as [|x xs IH]; simpl; [lia|]. etrans; [|by apply le_n_S].
  clear. generalize (foldr upsert [] xs). intros es.
  induction es as [|y es IH]; simpl; [lia|]. case_match; simpl; lia.
Qed.
Lemma length_index_entries facts : (length (index_entries facts) <= 3 * size facts)%nat.
Proof.
  unfold index_entries. etrans; [apply length_foldr_upsert|]. rewrite <- length_map_to_list.
  unfold fact_entries. induction (map_to_list facts) as [|p ps IH]; [done|].
  rewrite bind_cons, length_app, length_fmap. change (length layouts) with 3%nat. cbn [length]. lia.
Qed.

(** The entries of one fact, among those of the map. *)
Definition fact_key_at (k : KeyBytes) f : Prop := exists l, l ∈ layouts /\ k = encode l f.

Lemma entry_at_insert x f o facts : wf_facts facts -> well_sized f ->
  entry_at x (<[f := o]> facts) <-> (exists l, l ∈ layouts /\ x = entry_of l (f, o)) \/ entry_at x facts /\ ~ fact_key_at (key x) f.
Proof.
  intros Hwf Hf. unfold entry_at. split.
  - intros (l & g & u & Hl & [[<- <-]|[Hne Hg]]%lookup_insert_Some & ->); [left; eauto|right].
    split; [by eauto 10|]. intros (m & Hm & E).
    apply encode_inj in E as [_ E]; [|done|done|by apply (Hwf _ _ Hg)|done]. by simpl in E.
  - intros [(l & Hl & ->)|[(l & g & u & Hl & Hg & ->) Hn]].
    + exists l, f, o. by rewrite lookup_insert_eq.
    + exists l, g, u. split; [done|]. rewrite lookup_insert_ne; [done|]. intros ->. apply Hn. exists l. done.
Qed.
Lemma entry_at_delete x f facts : wf_facts facts -> well_sized f ->
  entry_at x (delete f facts) <-> entry_at x facts /\ ~ fact_key_at (key x) f.
Proof.
  intros Hwf Hf. unfold entry_at. split.
  - intros (l & g & u & Hl & [Hne Hg]%lookup_delete_Some & ->).
    split; [by eauto 10|]. intros (m & Hm & E).
    apply encode_inj in E as [_ E]; [|done|done|by apply (Hwf _ _ Hg)|done]. by simpl in E.
  - intros [(l & g & u & Hl & Hg & ->) Hn].
    exists l, g, u. split; [done|]. rewrite lookup_delete_ne; [done|]. intros ->. apply Hn. exists l. done.
Qed.

Lemma wf_insert f o facts : wf_facts facts -> well_sized f ->
  (forall artifact, o = Some artifact -> storable artifact /\ fact_key artifact = f) -> wf_facts (<[f := o]> facts).
Proof. intros Hwf Hf Ho g u [[<- <-]|[_ Hg]]%lookup_insert_Some; [done|by apply Hwf]. Qed.
Lemma wf_subset facts facts' : facts' ⊆ facts -> wf_facts facts -> wf_facts facts'.
Proof. intros Hsub Hwf f o Hf. apply Hwf. by eapply lookup_weaken. Qed.
End entries.

(** * Writes *)
Section writes.
Context `{Blake3, Url} {T : Type}.
Context `{!OrderedTree KeyBytes State DialogSearchTreeError T} `{!OrderedTreeLaws KeyBytes State DialogSearchTreeError T}.
Implicit Types (artifact : Artifact) (facts : Facts) (f : FactKey) (o : option Artifact) (t : T).

(** The abstraction relation: the tree holds the entries of the facts. *)
Definition tree_facts facts t : Prop := wf_facts facts /\ holds (index_entries facts) t.

Lemma insert_holds_elem es t k s : holds es t -> exists t' es', tree_err (tree_insert k s t) = Ok t' /\
  holds es' t' /\ forall x, x ∈ es' <-> x = mkEntry k s \/ x ∈ es /\ key x <> k.
Proof.
  intros Hes. destruct (insert_holds es t k s Hes) as (t' & E & Ht'). exists t', (upsert (mkEntry k s) es).
  unfold tree_err. rewrite E. split_and!; [done..|]. intros x. rewrite elem_of_upsert; [done|].
  by eapply holds_sorted.
Qed.
Lemma delete_holds_elem es t k : holds es t -> exists t' es', tree_err (tree_delete k t) = Ok t' /\
  holds es' t' /\ forall x, x ∈ es' <-> x ∈ es /\ key x <> k.
Proof.
  intros Hes. destruct (delete_holds es t k Hes) as (t' & E & Ht'). exists t', (remove k es).
  unfold tree_err. rewrite E. split_and!; [done..|]. intros x. rewrite elem_of_remove; [done|].
  by eapply holds_sorted.
Qed.

Lemma keys_of_fact f : well_sized f ->
  from_key ValueKey EntityKey (encode EntityKey f) = encode ValueKey f /\
  from_key AttributeKey EntityKey (encode EntityKey f) = encode AttributeKey f.
Proof. intros Hf. unfold layouts. split; apply from_key_encode; unfold layouts; try done; set_solver. Qed.

Lemma fact_key_at_layouts k f :
  fact_key_at k f <-> k = encode EntityKey f \/ k = encode AttributeKey f \/ k = encode ValueKey f.
Proof.
  unfold fact_key_at, layouts. split.
  - intros (l & Hl & ->). rewrite !elem_of_cons, elem_of_nil in Hl. by destruct Hl as [->|[->|[->|[]]]]; auto.
  - intros [->|[->| ->]]; eexists; (split; [|reflexivity]); rewrite !elem_of_cons; auto.
Qed.
Lemma entry_of_layouts x p :
  (exists l, l ∈ layouts /\ x = entry_of l p) <->
  x = entry_of EntityKey p \/ x = entry_of AttributeKey p \/ x = entry_of ValueKey p.
Proof.
  unfold layouts. split.
  - intros (l & Hl & ->). rewrite !elem_of_cons, elem_of_nil in Hl. by destruct Hl as [->|[->|[->|[]]]]; auto.
  - intros [->|[->| ->]]; eexists; (split; [|reflexivity]); rewrite !elem_of_cons; auto.
Qed.

Lemma distinct_keys f : well_sized f ->
  encode EntityKey f <> encode AttributeKey f /\ encode EntityKey f <> encode ValueKey f /\
  encode AttributeKey f <> encode ValueKey f.
Proof. intros Hf. split_and!; intros E; apply (f_equal tag) in E; by rewrite !tag_encode in E. Qed.

(** The three inserts write one fact. *)
Lemma insert_all_facts facts t f o : tree_facts facts t -> well_sized f ->
  (forall artifact, o = Some artifact -> storable artifact /\ fact_key artifact = f) ->
  exists t', insert_all (encode EntityKey f) (state_of o) t = Ok t' /\ tree_facts (<[f := o]> facts) t'.
Proof.
  intros [Hwf Hes] Hf Ho. unfold insert_all. destruct (keys_of_fact f Hf) as [-> ->].
  destruct (insert_holds_elem _ t (encode EntityKey f) (state_of o) Hes) as (t1 & es1 & -> & H1 & E1). simpl.
  destruct (insert_holds_elem _ t1 (encode AttributeKey f) (state_of o) H1) as (t2 & es2 & -> & H2 & E2). simpl.
  destruct (insert_holds_elem _ t2 (encode ValueKey f) (state_of o) H2) as (t3 & es3 & -> & H3 & E3).
  exists t3. split; [done|]. assert (wf_facts (<[f := o]> facts)) as Hwf' by by apply wf_insert.
  split; [done|]. erewrite <- index_entries_unique; [exact H3|done|by eapply holds_sorted|].
  intros x. rewrite E3, E2, E1, entry_at_insert, entry_of_layouts, fact_key_at_layouts, elem_of_index_entries by done.
  destruct (distinct_keys f Hf) as (D1 & D2 & D3). unfold entry_of; simpl.
  split; [intuition congruence|]. intros [[->|[->| ->]]|[Hx Hk]]; simpl; intuition congruence.
Qed.

Lemma delete_all_facts facts t f : tree_facts facts t -> well_sized f ->
  exists t', delete_all (encode EntityKey f) t = Ok t' /\ tree_facts (delete f facts) t'.
Proof.
  intros [Hwf Hes] Hf. unfold delete_all. destruct (keys_of_fact f Hf) as [-> ->].
  destruct (delete_holds_elem _ t (encode EntityKey f) Hes) as (t1 & es1 & -> & H1 & E1). simpl.
  destruct (delete_holds_elem _ t1 (encode ValueKey f) H1) as (t2 & es2 & -> & H2 & E2). simpl.
  destruct (delete_holds_elem _ t2 (encode AttributeKey f) H2) as (t3 & es3 & -> & H3 & E3).
  exists t3. split; [done|].
  assert (wf_facts (delete f facts)) as Hwf' by (eapply wf_subset; [apply delete_subseteq|done]).
  split; [done|]. erewrite <- index_entries_unique; [exact H3|done|by eapply holds_sorted|].
  intros x. rewrite E3, E2, E1, entry_at_delete, fact_key_at_layouts, elem_of_index_entries by done. tauto.
Qed.

Lemma delete_each_facts fs facts t : tree_facts facts t -> Forall well_sized fs ->
  exists t', delete_each (encode EntityKey <$> fs) t = Ok t' /\
    tree_facts (filter (fun p => p.1 ∉ fs) facts) t'.
Proof.
  revert facts t; induction fs as [|f fs IH]; intros facts t Ht Hfs; csimpl; cbn [delete_each].
  - exists t. split; [done|]. rewrite map_filter_id; [done|]. intros; apply not_elem_of_nil.
  - apply Forall_cons in Hfs as [Hf Hfs]. destruct (delete_all_facts facts t f Ht Hf) as (t1 & -> & H1). rewrite bind_Ok.
    destruct (IH _ _ H1 Hfs) as (t2 & -> & H2). exists t2. split; [done|].
    assert (filter (fun p => p.1 ∉ f :: fs) facts = filter (fun p => p.1 ∉ fs) (delete f facts)) as ->; [|done].
    apply map_eq. intros g. apply option_eq. intros u.
    rewrite !map_lookup_filter_Some, lookup_delete_Some, not_elem_of_cons. simpl. naive_solver.
Qed.
End writes.

(** * Replacement *)
(** Between two keys that begin alike, every key begins alike. *)
Lemma list_between (p x1 y x2 : bytes) : p ++ x1 ≼ y -> y ≼ p ++ x2 -> take (length p) y = p.
Proof.
  revert y; induction p as [|b p IH]; intros y H1 H2; [done|]. destruct y as [|c y]; [done|].
  unfold ole in *. simpl in H1, H2 |- *. destruct (N.compare_spec (Byte.to_N b) (Byte.to_N c)) as [E|Hlt|Hlt]; [| |done].
  - apply to_N_inj in E as ->. rewrite N.compare_refl in H2. by rewrite IH.
  - destruct (N.compare_spec (Byte.to_N c) (Byte.to_N b)); [lia|lia|done].
Qed.

Section replacing.
Context `{Blake3, Url} {T : Type}.
Context `{!OrderedTree KeyBytes State DialogSearchTreeError T} `{!OrderedTreeLaws KeyBytes State DialogSearchTreeError T}.
Implicit Types (artifact : Artifact) (facts : Facts) (f : FactKey) (o : option Artifact) (t : T).
Implicit Types (ps : list (FactKey * option Artifact)).

Lemma in_range_elem (range : Range KeyBytes) (es : list (Entry KeyBytes State)) x :
  x ∈ in_range range es <-> x ∈ es /\ contains range (key x) = true.
Proof. unfold in_range. rewrite !list_elem_of_In, filter_In. done. Qed.
Lemma contains_inclusive (k lo hi : KeyBytes) :
  contains (mkRange (Included lo) (Included hi)) k = true <-> lo ≼ k /\ k ≼ hi.
Proof. unfold contains. simpl. by rewrite andb_true_iff, !oleb_spec. Qed.

Lemma search_bounds k f : k = encode EntityKey f -> well_sized f ->
  search_start k = make_key (fields EntityKey ENTITY_KEY_TAG (fact_entity f) (fact_attribute f) x00
                               (replicate VALUE_REFERENCE_LENGTH x00)) /\
  search_end k = make_key (fields EntityKey ENTITY_KEY_TAG (fact_entity f) (fact_attribute f) xff
                             (replicate VALUE_REFERENCE_LENGTH xff)).
Proof.
  intros -> Hf. assert (EntityKey ∈ layouts) as Hl by left. pose proof Hf as (He & Ha & _).
  unfold search_start, search_end. destruct (views_encode EntityKey f Hl Hf) as (-> & -> & _ & _).
  by rewrite view_min_fields, view_max_fields, !set_entity_fields, !set_attribute_fields.
Qed.

Lemma ole_raw (k1 k2 : KeyBytes) : k1 ≼ k2 -> key_raw k1 ≼ key_raw k2.
Proof. done. Qed.
Lemma entity_fields tg e a b r : fields EntityKey tg e a b r = (tg :: e ++ a) ++ (b :: r).
Proof. unfold fields. simpl. by rewrite <- app_assoc. Qed.

(** The range of [Replace] is exactly the facts of the entity and attribute. *)
Lemma search_range_spec f g l : l ∈ layouts -> well_sized f -> well_sized g ->
  contains (mkRange (Included (search_start (encode EntityKey f))) (Included (search_end (encode EntityKey f))))
    (encode l g) = true <->
  l = EntityKey /\ fact_entity g = fact_entity f /\ fact_attribute g = fact_attribute f.
Proof.
  intros Hl Hf Hg. destruct (search_bounds _ f eq_refl Hf) as [-> ->]. rewrite contains_inclusive.
  pose proof Hf as (Le & La & Lr). pose proof Hg as (Le' & La' & Lr').
  split.
  - intros [H1 H2].
    assert (l = EntityKey) as ->.
    { apply key_tag_inj; [done|by left|]. rewrite <- (tag_encode l g Hg).
      by refine (tag_between _ _ _ _ _ _ H1 H2); apply tag_fields. }
    split; [done|].
    apply ole_raw in H1, H2. unfold encode in H1, H2. rewrite !fields_raw in H1, H2 by done.
    rewrite !entity_fields in H1, H2. pose proof (list_between _ _ _ _ H1 H2) as E.
    rewrite take_app_length' in E by (simpl; rewrite !length_app; lia).
    injection E as E. apply app_inj_1 in E as [-> ->]; [done|lia].
  - intros (-> & Ee & Ea). pose proof (Byte.to_N_bounded (ValueDataType.to_u8 (fact_type g))).
    unfold encode. rewrite Ee, Ea. split; apply fields_le; try done; try apply ole_refl; try (by apply list_le_zeros);
      try (by apply list_le_ones).
  change (Byte.to_N x00) with 0%N. lia.
Qed.

(** What the scan of [Replace] reads, as facts. *)
Lemma candidates_facts facts artifact : wf_facts facts -> well_sized (fact_key artifact) ->
  exists ps, in_range (mkRange (Included (search_start (encode EntityKey (fact_key artifact))))
                               (Included (search_end (encode EntityKey (fact_key artifact))))) (index_entries facts)
             = entry_of EntityKey <$> ps /\
    forall f o, (f, o) ∈ ps <-> facts !! f = Some o /\ same_subject artifact f.
Proof.
  intros Hwf Hf. set (range := mkRange _ _).
  assert (forall x, x ∈ in_range range (index_entries facts) <->
    exists f o, facts !! f = Some o /\ same_subject artifact f /\ x = entry_of EntityKey (f, o)) as Hx.
  { intros x. rewrite in_range_elem, elem_of_index_entries by done. split.
    - intros [(l & f & o & Hl & Hfo & ->) Hc]. unfold range, entry_of in Hc. simpl in Hc.
      apply search_range_spec in Hc as (-> & He & Ha); [|done..|by apply (Hwf _ _ Hfo)].
      by exists f, o.
    - intros (f & o & Hfo & [He Ha] & ->). split; [exists EntityKey, f, o; by split; [left|]|].
      unfold range, entry_of. simpl. apply search_range_spec; [by left|done|by apply (Hwf _ _ Hfo)|done]. }
  assert (forall xs, (forall x, x ∈ xs -> exists p, x = entry_of EntityKey p /\ facts !! p.1 = Some p.2) ->
    exists ps, xs = entry_of EntityKey <$> ps /\ Forall (fun p => facts !! p.1 = Some p.2) ps) as Hps.
  { induction xs as [|x xs IH]; intros Hxs; [by exists []|].
    destruct IH as (ps & -> & Hp); [by intros; apply Hxs; right|].
    destruct (Hxs x ltac:(by left)) as (p & -> & Hpp). exists (p :: ps). by split; [|constructor]. }
  destruct (Hps (in_range range (index_entries facts))) as (ps & Eps & Hall).
  { intros x (f & o & Hfo & _ & ->)%Hx. by exists (f, o). }
  exists ps. split; [done|]. rewrite Forall_forall in Hall. intros f o. split.
  - intros Hin. pose proof (Hall _ Hin) as Hfo. split; [done|].
    destruct (proj1 (Hx (entry_of EntityKey (f, o)))) as (g & u & Hg & Hsub & E); [rewrite Eps; by apply list_elem_of_fmap_2|].
    apply (f_equal key) in E. apply encode_inj in E as [_ E]; [|by left|by left|by apply (Hwf _ _ Hfo)|by apply (Hwf _ _ Hg)].
    simpl in E. by subst g.
  - intros [Hfo Hsub].
    assert (entry_of EntityKey (f, o) ∈ entry_of EntityKey <$> ps) as ([g u] & E & Hin)%list_elem_of_fmap.
    { rewrite <- Eps. apply Hx. eauto. }
    apply (f_equal key) in E. apply encode_inj in E as [_ E]; [|by left|by left|by apply (Hwf _ _ Hfo)|by apply (Hwf _ _ (Hall _ Hin))].
    simpl in E. subst g. specialize (Hall _ Hin). simpl in Hall. congruence.
Qed.

Definition differs (v : Value.t) (p : FactKey * option Artifact) : bool :=
  from_option (fun current => bool_decide (artifact_is current <> v)) false p.2.
Definition equals (v : Value.t) (p : FactKey * option Artifact) : bool :=
  from_option (fun current => bool_decide (artifact_is current = v)) false p.2.

Lemma differs_Some v f current : differs v (f, Some current) = bool_decide (artifact_is current <> v).
Proof. done. Qed.
Lemma equals_Some v f current : equals v (f, Some current) = bool_decide (artifact_is current = v).
Proof. done. Qed.

Lemma collect_priors_facts v ps ks b : (forall f artifact, (f, Some artifact) ∈ ps -> storable artifact) ->
  collect_priors v (entry_of EntityKey <$> ps) ks b =
  Ok (ks ++ (encode EntityKey <$> (List.filter (differs v) ps).*1), b || existsb (equals v) ps).
Proof.
  revert ks b; induction ps as [|[f o] ps IH]; intros ks b Hps; csimpl.
  - by rewrite app_nil_r, orb_false_r.
  - assert (forall g artifact, (g, Some artifact) ∈ ps -> storable artifact) as Hps'
      by (intros; eapply Hps; by right).
    destruct o as [current|]; cbn [collect_priors entry_of value state_of snd].
    + rewrite storable_roundtrip by (eapply Hps; by left). rewrite bind_Ok.
      rewrite differs_Some, equals_Some. case_decide as E.
      * rewrite IH by done. rewrite (bool_decide_eq_true_2 _ E), bool_decide_eq_false_2 by auto.
        by rewrite orb_true_r.
      * rewrite IH by done. rewrite (bool_decide_eq_false_2 _ E), bool_decide_eq_true_2 by auto.
        csimpl. by rewrite <- app_assoc.
    + by rewrite IH.
Qed.

Lemma apply_replace_facts facts t artifact : tree_facts facts t -> storable artifact ->
  (3 * size facts <= capacity)%nat ->
  exists t', apply_instruction (Replace artifact) t = Ok t' /\ tree_facts (apply_fact facts (Replace artifact)) t'.
Proof.
  intros Ht Hst Hcap. pose proof Hst as (Hwa & _). pose proof (fact_key_sized _ Hwa) as Hf.
  cbn [apply_instruction]. cbv zeta. rewrite entity_key_encode by done.
  destruct Ht as [Hwf Hes] eqn:Et. clear Et. rewrite (stream_holds _ _ _ Hes).
  2:{ pose proof (length_index_entries facts). lia. }
  destruct (candidates_facts facts artifact Hwf Hf) as (ps & -> & Hps).
  rewrite collect_priors_facts, !bind_Ok.
  2:{ intros f current [Hfc _]%Hps. by apply (Hwf _ _ Hfc). }
  rewrite app_nil_l, orb_false_l.
  destruct (delete_each_facts (List.filter (differs (artifact_is artifact)) ps).*1 facts t) as (t1 & -> & H1).
  { done. }
  { apply Forall_forall. intros f ([f' o] & -> & Hin)%list_elem_of_fmap.
    apply list_elem_of_In, filter_In in Hin as [Hin%list_elem_of_In _]. apply Hps in Hin as [Hin _].
    by apply (Hwf _ _ Hin). }
  rewrite bind_Ok.
  assert (filter (fun p => p.1 ∉ (List.filter (differs (artifact_is artifact)) ps).*1) facts =
          filter (fun p => ~ superseded artifact p) facts) as Ekept.
  { apply map_filter_ext. intros f o Hfo. simpl. apply not_iff_compat. rewrite list_elem_of_fmap. split.
    - intros ([f' o'] & E & Hin). simpl in E. subst f'.
      apply list_elem_of_In, filter_In in Hin as [[Hfo' Hsub]%list_elem_of_In%Hps Hd].
      assert (o' = o) as -> by congruence. split; [done|]. unfold differs in Hd. simpl in *.
      destruct o; simpl in *; [by apply bool_decide_eq_true in Hd|done].
    - intros [Hsub Hd]. exists (f, o). split; [done|]. apply list_elem_of_In, filter_In.
      split; [apply list_elem_of_In, Hps; done|]. unfold differs. simpl in *.
      destruct o; simpl in *; [by apply bool_decide_eq_true|done]. }
  rewrite Ekept in H1. cbn [apply_fact]. cbv zeta.
  assert (existsb (equals (artifact_is artifact)) ps = true <-> filter (same_value artifact) facts <> ∅) as Hsame.
  { rewrite existsb_exists. split.
    - intros ([f o] & [Hfo Hsub]%list_elem_of_In%Hps & He) E.
      assert (filter (same_value artifact) facts !! f = Some o) as Hl; [|by rewrite E in Hl].
      apply map_lookup_filter_Some. split; [done|]. split; [done|]. unfold equals in He. simpl in *.
      destruct o; simpl in *; [by apply bool_decide_eq_true in He|done].
    - intros (f & o & Hin)%map_choose. apply map_lookup_filter_Some in Hin as [Hfo [Hsub He]].
      exists (f, o). split; [apply list_elem_of_In, Hps; done|]. unfold equals. simpl in *.
      destruct o; simpl in *; [by apply bool_decide_eq_true|done]. }
  case_decide as Hempty.
  - destruct (existsb _ ps); [exfalso; by apply Hsame|].
    by apply (insert_all_facts _ t1 (fact_key artifact) (Some artifact)); [|done|intros ? [= <-]].
  - destruct (existsb _ ps); [by exists t1|]. exfalso. assert (false = true); [by apply Hsame|done].
Qed.
End replacing.

(** * Batches of instructions *)
Definition storable_instruction `{Blake3, Url} (instruction : Instruction) : Prop :=
  match instruction with
  | Assert artifact | Replace artifact => storable artifact
  | Retract artifact => wf_artifact artifact
  end.

Section batches.
Context `{Blake3, Url} {T : Type}.
Context `{!OrderedTree KeyBytes State DialogSearchTreeError T} `{!OrderedTreeLaws KeyBytes State DialogSearchTreeError T}.
Implicit Types (artifact : Artifact) (facts : Facts) (f : FactKey) (o : option Artifact) (t : T).
Implicit Types (instruction : Instruction) (instructions : list Instruction).

Lemma apply_instruction_facts facts t instruction :
  tree_facts facts t -> storable_instruction instruction -> (3 * size facts <= capacity)%nat ->
  exists t', apply_instruction instruction t = Ok t' /\ tree_facts (apply_fact facts instruction) t'.
Proof.
  destruct instruction as [artifact|artifact|artifact]; intros Ht Hi Hcap.
  - cbn [apply_instruction apply_fact]. pose proof Hi as (Hwf & _). rewrite entity_key_encode by done.
    apply (insert_all_facts facts t (fact_key artifact) (Some artifact) Ht); [by apply fact_key_sized|by intros ? [= <-]].
  - by apply apply_replace_facts.
  - cbn [apply_instruction apply_fact]. rewrite entity_key_encode by done.
    by apply (insert_all_facts facts t (fact_key artifact) None Ht); [apply fact_key_sized|].
Qed.

Lemma size_apply_fact facts instruction : (size (apply_fact facts instruction) <= S (size facts))%nat.
Proof.
  assert (forall f o (m : Facts), (size (<[f := o]> m) <= S (size m))%nat) as Hins.
  { intros f o m. rewrite map_size_insert. destruct (m !! f); simpl; lia. }
  destruct instruction as [artifact|artifact|artifact]; cbn [apply_fact]; [apply Hins| |apply Hins].
  cbv zeta.
  assert (size (filter (fun p => ~ superseded artifact p) facts) <= size facts)%nat as Hle
    by (apply map_subseteq_size, map_filter_subseteq).
  case_decide; [|lia]. etrans; [apply Hins|lia].
Qed.

(** What is asserted afterwards was asserted before or by the instruction. *)
Definition asserted instruction : list Artifact :=
  match instruction with Assert artifact | Replace artifact => [artifact] | Retract _ => [] end.
Lemma apply_fact_asserted facts instruction f artifact :
  apply_fact facts instruction !! f = Some (Some artifact) ->
  artifact ∈ asserted instruction \/ facts !! f = Some (Some artifact).
Proof.
  destruct instruction as [a|a|a]; cbn [apply_fact asserted]; cbv zeta; try case_decide.
  - intros [[_ [= <-]]|[_ ?]]%lookup_insert_Some; [by left; left|by right].
  - intros [[_ [= <-]]|[_ Hf]]%lookup_insert_Some; [by left; left|right].
    by apply map_lookup_filter_Some in Hf as [? _].
  - intros [? _]%map_lookup_filter_Some. by right.
  - intros [[_ ?]|[_ ?]]%lookup_insert_Some; [done|by right].
Qed.
Lemma apply_facts_asserted instructions : forall facts f artifact,
  fold_left apply_fact instructions facts !! f = Some (Some artifact) ->
  artifact ∈ instructions ≫= asserted \/ facts !! f = Some (Some artifact).
Proof.
  induction instructions as [|instruction instructions IH]; intros facts f artifact Hf; [by right|].
  rewrite bind_cons, elem_of_app. apply IH in Hf as [?|[?|?]%apply_fact_asserted]; auto.
Qed.

Lemma apply_instructions_facts instructions : forall facts t,
  tree_facts facts t -> Forall storable_instruction instructions ->
  (3 * (size facts + length instructions) <= capacity)%nat ->
  exists t', apply_instructions instructions t = Ok t' /\ tree_facts (fold_left apply_fact instructions facts) t'.
Proof.
  induction instructions as [|instruction instructions IH]; intros facts t Ht Hi Hcap; [by exists t|].
  apply Forall_cons in Hi as [Hi His]. simpl length in Hcap. cbn [apply_instructions fold_left].
  destruct (apply_instruction_facts facts t instruction Ht Hi ltac:(lia)) as (t1 & -> & H1). rewrite bind_Ok.
  apply IH; [done..|]. pose proof (size_apply_fact facts instruction). lia.
Qed.

(** C26: Instructions refine edits of one map of facts: applying any list of
    storable assertions, replacements and retractions to a tree that holds the
    facts in its three indexes succeeds, and the tree it leaves holds exactly the
    facts the instructions leave, in all three indexes. *)
Theorem apply_refines_facts instructions facts t :
  tree_facts facts t -> Forall storable_instruction instructions ->
  (3 * (size facts + length instructions) <= capacity)%nat ->
  exists t', apply_instructions instructions t = Ok t' /\
    holds (index_entries (fold_left apply_fact instructions facts)) t'.
Proof.
  intros Ht Hi Hcap. destruct (apply_instructions_facts instructions facts t Ht Hi Hcap) as (t' & E & _ & Hh). eauto.
Qed.
End batches.

(** * Scans *)
Section scans.
Context `{Blake3, Url}.
Implicit Types (artifact : Artifact) (facts : Facts) (f : FactKey) (o : option Artifact) (selector : ArtifactSelector).

Definition before (l : Layout) (a1 a2 : Artifact) : Prop := encode l (fact_key a1) ≺ encode l (fact_key a2).

Lemma scan_range_spec l selector : l ∈ layouts -> selector_sized selector ->
  scan_range l selector = mkRange (Included (bound_key l selector x00)) (Included (bound_key l selector xff)).
Proof. intros Hl Hs. unfold scan_range. rewrite view_min_fields, view_max_fields, !bound_fields; done. Qed.

Lemma scan_entries_spec (P : bytes -> Prop) l selector facts es :
  digests_distinct P -> Forall P (selector_hashed selector) ->
  l ∈ layouts -> Constrained selector -> wf_selector selector -> wf_facts facts ->
  (forall f artifact, facts !! f = Some (Some artifact) -> Forall P (hashed artifact)) -> sorted es ->
  (forall x, x ∈ es -> exists f o, facts !! f = Some o /\ x = entry_of l (f, o)) ->
  exists artifacts, scan_entries selector es = (artifacts, Ok tt) /\ StronglySorted (before l) artifacts /\
    forall artifact, artifact ∈ artifacts <->
      entry_of l (fact_key artifact, Some artifact) ∈ es /\ facts !! fact_key artifact = Some (Some artifact) /\
      satisfies selector artifact.
Proof.
  intros HP Hsel Hl Hb Hw Hwf Hh. induction es as [|x es IH]; intros Hs Hes.
  { exists []. split_and!; [done|constructor|]. intros. rewrite !elem_of_nil. tauto. }
  pose proof Hs as [Hs' Hlt]%sorted_cons.
  destruct IH as (artifacts & Escan & Hsorted & Hart); [done|by intros; apply Hes; right|].
  destruct (Hes x ltac:(by left)) as (f & o & Hfo & ->).
  destruct (Hwf _ _ Hfo) as [Hf Hok]. cbn [scan_entries].
  assert (forall artifact, entry_of l (fact_key artifact, Some artifact) ∈ entry_of l (f, o) :: es /\
      facts !! fact_key artifact = Some (Some artifact) /\ satisfies selector artifact <->
      (o = Some artifact /\ satisfies selector artifact) \/ artifact ∈ artifacts) as Hiff.
  { intros artifact. rewrite Hart, elem_of_cons. split.
    - intros ([E|?] & Ha & Hsat); [left|by auto]. split; [|done].
      apply (f_equal key) in E. apply encode_inj in E as [_ E]; [|done|done|by apply (Hwf _ _ Ha)|done].
      simpl in E. congruence.
    - intros [[-> Hsat]|(? & ? & ?)]; [|by auto]. destruct (Hok artifact eq_refl) as [_ Ek].
      rewrite Ek. by auto. }
  unfold entry_of in Hiff |- *.
  destruct o as [artifact|]; cbn [value state_of fst snd] in Hiff |- *.
  - destruct (Hok artifact eq_refl) as [Hst Ek]. subst f.
    pose proof (match_satisfies P l selector artifact HP (Hh _ _ Hfo) Hsel Hl Hst Hb Hw) as Hm.
    destruct (matches_selector _ _).
    + rewrite storable_roundtrip by done. rewrite Escan. exists (artifact :: artifacts). split_and!; [done| |].
      * constructor; [done|]. apply Forall_forall. intros a (Ha & _)%Hart. by apply (Hlt _ Ha).
      * intros a. rewrite Hiff, elem_of_cons. assert (satisfies selector artifact) by by apply Hm. naive_solver.
    + exists artifacts. split_and!; [done|done|]. intros a. rewrite Hiff.
      assert (~ satisfies selector artifact) by (intros ?%Hm; done). naive_solver.
  - exists artifacts. split_and!; [by case_match|done|]. intros a. rewrite Hiff. naive_solver.
Qed.

Lemma scan_index_layout selector : Constrained selector -> exists l, scan_index selector = Some l /\ l ∈ layouts.
Proof.
  intros [_ Hc]%built_invariant. specialize (Hc eq_refl). unfold scan_index.
  destruct (selector_entity selector); [exists EntityKey; by split; [|left]|].
  destruct (selector_value selector).
  { exists ValueKey. split; [by rewrite andb_false_r|by right; right; left]. }
  destruct (selector_attribute selector).
  { exists AttributeKey. split; [by rewrite andb_false_r|by right; left]. }
  destruct (selector_attribute_prefix selector).
  { exists AttributeKey. split; [by rewrite andb_false_r|by right; left]. }
  destruct (selector_entity_prefix selector).
  { exists EntityKey. by split; [|left]. }
  exfalso. by destruct Hc as [[? ?]|[[? ?]|[[? ?]|[[? ?]|[? ?]]]]].
Qed.

Lemma scan_facts (P : bytes -> Prop) selector facts stream_range :
  digests_distinct P -> Forall P (selector_hashed selector) ->
  (forall f artifact, facts !! f = Some (Some artifact) -> Forall P (hashed artifact)) ->
  Constrained selector -> wf_selector selector -> wf_facts facts ->
  (forall range, stream_range range = (in_range range (index_entries facts), Ok tt)) ->
  exists l artifacts, scan_index selector = Some l /\ scan stream_range selector = (artifacts, Ok tt) /\
    StronglySorted (before l) artifacts /\
    forall artifact, artifact ∈ artifacts <-> (exists f, facts !! f = Some (Some artifact)) /\ satisfies selector artifact.
Proof.
  intros HP Hsel Hh Hb Hw Hwf Hstream. destruct (scan_index_layout selector Hb) as (l & El & Hl).
  pose proof (selector_wf_sized selector Hb Hw) as Hsz.
  unfold scan. rewrite El, Hstream, scan_range_spec by done.
  set (range := mkRange _ _). assert (forall x, x ∈ in_range range (index_entries facts) <->
    entry_at x facts /\ bound_key l selector x00 ≼ key x /\ key x ≼ bound_key l selector xff) as Hx.
  { intros x. by rewrite in_range_elem, elem_of_index_entries, <- contains_inclusive. }
  destruct (scan_entries_spec P l selector facts (in_range range (index_entries facts)))
    as (artifacts & -> & Hsorted & Hart); try done.
  - unfold in_range. apply sorted_filter, index_entries_sorted.
  - intros x ((m & f & o & Hm & Hfo & ->) & H1 & H2)%Hx. exists f, o. split; [done|].
    assert (m = l) as ->; [|done]. apply key_tag_inj; [done..|].
    rewrite <- (tag_encode m f) by by apply (Hwf _ _ Hfo).
    by refine (tag_between _ _ _ _ _ _ H1 H2); apply tag_bound.
  - exists l, artifacts. split_and!; [done..|]. intros a. rewrite Hart. split.
    + intros (_ & Ha & ?). eauto.
    + intros ((f & Hfa) & Hsat). destruct (Hwf _ _ Hfa) as [Hf Hok]. destruct (Hok a eq_refl) as [Hst Ek].
      subst f. split_and!; [|done|done]. apply Hx. split; [exists l, (fact_key a), (Some a); done|].
      apply match_in_bounds; [done..|].
      apply (match_satisfies P l selector a HP (Hh _ _ Hfa) Hsel Hl Hst Hb Hw) in Hsat.
      unfold matches_selector in Hsat. apply andb_true_iff in Hsat as [Hsat _].
      apply (match_encode l); [done..|]. rewrite <- Hsat. cbn [key]. rewrite tag_encode by done. clear -Hl. revert l Hl.
      by apply layouts_case.
Qed.
End scans.

(** * What readers see *)
Section readers.
Context `{Blake3, Url} {T : Type}.
Context `{!OrderedTree KeyBytes State DialogSearchTreeError T} `{!OrderedTreeLaws KeyBytes State DialogSearchTreeError T}.
Implicit Types (artifact : Artifact) (facts : Facts) (f : FactKey) (t : T) (selector : ArtifactSelector).
Context (P : bytes -> Prop) (distinct : digests_distinct P).

(** All that is hashed for the facts is in [P]. *)
Definition hashed_in facts : Prop :=
  forall f artifact, facts !! f = Some (Some artifact) -> Forall P (hashed artifact).

(** A query is answered exactly: on a tree that holds a map of facts, the scan
    of any constrained selector ends without an error, and yields the asserted
    artifacts that satisfy every constraint of the selector and nothing else,
    each once, in the key order of the index that the selector picks; retracted
    facts are not shown.  Names and prefixes have no NUL byte, and the hashes of
    the long tails of entities and of values do not collide. *)
Theorem scan_exact selector facts t :
  tree_facts facts t -> (3 * size facts <= capacity)%nat -> hashed_in facts ->
  Forall P (selector_hashed selector) -> Constrained selector -> wf_selector selector ->
  exists l artifacts, scan_index selector = Some l /\
    scan (fun range => tree_stream_range range t) selector = (artifacts, Ok tt) /\
    StronglySorted (before l) artifacts /\
    forall artifact, artifact ∈ artifacts <-> (exists f, facts !! f = Some (Some artifact)) /\ satisfies selector artifact.
Proof.
  intros [Hwf Hes] Hcap Hh Hsel Hb Hw. apply (scan_facts P); [done..|]. intros range.
  apply stream_holds; [done|]. pose proof (length_index_entries facts). lia.
Qed.

Lemma same_subject_inj a1 a2 : Forall P (hashed a1) -> Forall P (hashed a2) -> storable a1 -> storable a2 ->
  same_subject a1 (fact_key a2) -> artifact_of a2 = artifact_of a1 /\ artifact_the a2 = artifact_the a1.
Proof.
  unfold hashed. rewrite !Forall_cons. intros (P1 & _) (P2 & _) ((A1 & E1 & _) & _ & _ & N1) ((A2 & E2 & _) & _ & _ & N2) [Ke Ka].
  split; [by apply (entity_key_inj P)|by apply attribute_key_inj].
Qed.

(** After a replacement one artifact is asserted of the entity and attribute. *)
Lemma replace_single facts artifact :
  wf_facts facts -> hashed_in facts -> Forall P (hashed artifact) -> storable artifact ->
  exists a', artifact_is a' = artifact_is artifact /\
    forall a, (exists f, apply_fact facts (Replace artifact) !! f = Some (Some a)) /\
      artifact_of a = artifact_of artifact /\ artifact_the a = artifact_the artifact <-> a = a'.
Proof.
  intros Hwf Hh Hp Hst. cbn [apply_fact]. cbv zeta.
  set (kept := filter (fun p => ~ superseded artifact p) facts).
  assert (forall f a, kept !! f = Some (Some a) -> f = fact_key a /\ facts !! f = Some (Some a) /\ storable a /\
    (artifact_of a = artifact_of artifact -> artifact_the a = artifact_the artifact -> artifact_is a = artifact_is artifact)) as Hkept.
  { intros f a [Hfa Hn]%map_lookup_filter_Some. destruct (Hwf _ _ Hfa) as [_ Hok].
    destruct (Hok a eq_refl) as [Ha Ek]. split_and!; [done..|]. intros Eo Et. apply dec_stable. intros Hne.
    apply Hn. split; [|done]. subst f. unfold same_subject. simpl. by rewrite Eo, Et. }
  case_decide as Hempty.
  - exists artifact. split; [done|]. intros a. split.
    + intros ((f & [[<- [= <-]]|[Hne Hfa]]%lookup_insert_Some) & Eo & Et); [done|].
      destruct (Hkept _ _ Hfa) as (-> & Hfa' & _ & His). exfalso. apply Hne.
      specialize (His Eo Et). unfold fact_key. by rewrite Eo, Et, His.
    + intros ->. split; [|done]. exists (fact_key artifact). apply lookup_insert_eq.
  - apply map_choose in Hempty as (f & o & Hf). apply map_lookup_filter_Some in Hf as [Hfo [Hsub Hv]].
    destruct o as [a'|]; [|done]. simpl in Hsub, Hv. destruct (Hwf _ _ Hfo) as [_ Hok].
    destruct (Hok a' eq_refl) as [Ha' Ek']. subst f.
    destruct (same_subject_inj artifact a') as [Eo' Et']; [done|by eapply Hh|done..|].
    exists a'. split; [done|]. intros a. split.
    + intros ((f & Hfa) & Eo & Et). destruct (Hkept _ _ Hfa) as (-> & Hfa' & _ & His).
      specialize (His Eo Et). assert (fact_key a = fact_key a') as E; [|rewrite E in Hfa'; congruence].
      unfold fact_key. by rewrite Eo, Et, His, Eo', Et', Hv.
    + intros ->. split; [|done]. exists (fact_key a'). apply map_lookup_filter_Some. split; [done|].
      by intros [_ Hne].
Qed.

Lemma before_irreflexive l artifact : ~ before l artifact artifact.
Proof. apply olt_irrefl. Qed.

(** Cardinality one: after [Replace] whatever was asserted before of the
    entity and the attribute, a query for the two yields one artifact, and its
    value is the one of the instruction; when that value was there already it
    is the artifact that was there. *)
Theorem scan_after_replace facts t artifact :
  tree_facts facts t -> (3 * S (size facts) <= capacity)%nat -> hashed_in facts ->
  Forall P (hashed artifact) -> storable artifact ->
  exists t' a', apply_instructions [Replace artifact] t = Ok t' /\
    scan (fun range => tree_stream_range range t')
      (selector_of (selector_the selector_new (artifact_the artifact)) (artifact_of artifact)) = ([a'], Ok tt) /\
    artifact_is a' = artifact_is artifact /\
    (a' = artifact \/ exists f, facts !! f = Some (Some a')).
Proof.
  intros Ht Hcap Hh Hp Hst. pose proof Ht as [Hwf _].
  destruct (apply_instructions_facts [Replace artifact] facts t Ht) as (t' & E & Ht'); [by constructor|simpl; lia|].
  cbn [fold_left] in Ht'. set (facts' := apply_fact facts (Replace artifact)) in *.
  assert (forall f a, facts' !! f = Some (Some a) -> a = artifact \/ facts !! f = Some (Some a)) as Hsub.
  { intros f a [Ha|?]%apply_fact_asserted; [left|by right]. by apply list_elem_of_singleton in Ha. }
  set (selector := selector_of _ _).
  destruct (scan_exact selector facts' t') as (l & artifacts & _ & Escan & Hsorted & Hart).
  - done.
  - pose proof (size_apply_fact facts (Replace artifact)) as Hsz. fold facts' in Hsz. lia.
  - intros f a [->|Hfa]%Hsub; [done|by eapply Hh].
  - unfold hashed in Hp. simpl. apply Forall_cons in Hp as [Hp _]. by constructor.
  - eapply built_of, built_the, built_new.
  - destruct Hst as ((Ha & He & _) & _ & _ & Hn). split_and!; by intros ? [= <-].
  - destruct (replace_single facts artifact Hwf Hh Hp Hst) as (a' & Hv & Ha').
    assert (forall a, a ∈ artifacts <-> a = a') as Hall.
    { intros a. rewrite Hart, <- Ha'. unfold satisfies, selector. simpl. naive_solver. }
    assert (artifacts = [a']) as ->.
    { destruct artifacts as [|a [|b artifacts]].
      - exfalso. by eapply not_elem_of_nil, Hall.
      - f_equal. apply Hall. by left.
      - exfalso. apply StronglySorted_inv in Hsorted as [_ Hlt]. apply Forall_cons in Hlt as [Hlt _].
        assert (a = a') as -> by (apply Hall; by left). assert (b = a') as -> by (apply Hall; by right; left).
        by apply before_irreflexive in Hlt. }
    exists t', a'. split_and!; [done..|].
    destruct (proj2 (Ha' a') eq_refl) as [[f [Hf|Hf]%Hsub] _]; eauto.
Qed.
End readers.
