(* ===== verification/Layer.v ===== *)
(** Batches of pending changes (rust/dialog-artifacts/src/artifacts/update.rs), and
    queries over several sources with the order in which the sources agree
    (rust/dialog-repository/src/layer.rs). *)
From S2P Require Import Prelude Common Nodes SortedEntries Walker Read ArtifactTree Artifact ArtifactKeys ArtifactFacts ArtifactTreeCorrect.

(** Tuples compare component by component. *)
#[export] Instance prod_ord {A B} `{Ord A, Ord B} : Ord (A * B).
Proof.
  refine {| cmp x y := match cmp x.1 y.1 with Eq => cmp x.2 y.2 | c => c end |}.
  - intros [x1 x2] [y1 y2]; simpl. destruct (cmp x1 y1) eqn:E.
    + apply cmp_eq in E as ->. rewrite cmp_eq. naive_solver.
    + split; [done|]. intros [= -> ->]. by rewrite cmp_refl in E.
    + split; [done|]. intros [= -> ->]. by rewrite cmp_refl in E.
  - intros [x1 x2] [y1 y2]; simpl. rewrite (cmp_antisym x1 y1). destruct (cmp x1 y1); simpl; auto using cmp_antisym.
  - intros [x1 x2] [y1 y2] [z1 z2]; simpl. destruct (cmp x1 y1) eqn:E1; intros H1 H2; try done.
    + apply cmp_eq in E1 as ->. destruct (cmp y1 z1); [by eapply cmp_trans|done|done].
    + destruct (cmp y1 z1) eqn:E2; try done.
      * apply cmp_eq in E2 as ->. by rewrite E1.
      * by rewrite (cmp_trans x1 y1 z1).
Defined.

#[export] Instance Attribute_countable : Countable Attribute.
Proof.
  apply (inj_countable' (fun a => (attribute_name a, attribute_key_bytes a)) (fun '(n, k) => mkAttribute n k)).
  by intros [].
Defined.
#[export] Instance Entity_countable : Countable Entity.
Proof.
  apply (inj_countable' (fun e => (entity_str e, entity_key_bytes e)) (fun '(s, k) => mkEntity (mkUri s) k)).
  by intros [[] ?].
Defined.

(** [Change]. *)
Module Change.
Inductive t := Assert (v : Value.t) | Replace (v : Value.t) | Retract (v : Value.t).
End Change.

(** [Changes]: the inner hash maps; iteration follows [map_to_list], one of the
    orders a [HashMap] may have. *)
Abbreviation Changes := (gmap Entity (gmap Attribute (list Change.t))).
Definition changes_new : Changes := ∅.

(** [entry(of).or_default().entry(the).or_default()]. *)
Definition changes_at (changes : Changes) (a : Attribute) (e : Entity) : list Change.t :=
  default [] (default ∅ (changes !! e) !! a).
Definition changes_put (changes : Changes) (a : Attribute) (e : Entity) (l : list Change.t) : Changes :=
  <[e := <[a := l]> (default ∅ (changes !! e))]> changes.

(** [impl Update for Changes]. *)
Definition associate (changes : Changes) (a : Attribute) (e : Entity) (v : Value.t) : Changes :=
  changes_put changes a e (changes_at changes a e ++ [Change.Assert v]).
Definition associate_unique (changes : Changes) (a : Attribute) (e : Entity) (v : Value.t) : Changes :=
  changes_put changes a e [Change.Replace v].
Definition dissociate (changes : Changes) (a : Attribute) (e : Entity) (v : Value.t) : Changes :=
  changes_put changes a e (changes_at changes a e ++ [Change.Retract v]).

(** [Changes::iter] and [into_instructions]. *)
Definition changes_iter (changes : Changes) : list (Entity * Attribute * Change.t) :=
  map_to_list changes ≫= (fun '(e, attributes) =>
    map_to_list attributes ≫= (fun '(a, operations) => (fun operation => (e, a, operation)) <$> operations)).
Definition instruction_of (change : Entity * Attribute * Change.t) : Instruction :=
  let '(e, a, operation) := change in
  match operation with
  | Change.Assert v => Assert (mkArtifact a e v None)
  | Change.Replace v => Replace (mkArtifact a e v None)
  | Change.Retract v => Retract (mkArtifact a e v None)
  end.
Definition into_instructions (changes : Changes) : list Instruction := instruction_of <$> changes_iter changes.

(** [impl Statement for Changes]. *)
Definition assert_changes (self update : Changes) : Changes :=
  fold_left (fun update instruction =>
    match instruction with
    | Assert a => associate update (artifact_the a) (artifact_of a) (artifact_is a)
    | Replace a => associate_unique update (artifact_the a) (artifact_of a) (artifact_is a)
    | Retract a => dissociate update (artifact_the a) (artifact_of a) (artifact_is a)
    end) (into_instructions self) update.
Definition retract_changes (self update : Changes) : Changes :=
  fold_left (fun update instruction =>
    match instruction with
    | Assert a | Replace a => dissociate update (artifact_the a) (artifact_of a) (artifact_is a)
    | Retract a => associate update (artifact_the a) (artifact_of a) (artifact_is a)
    end) (into_instructions self) update.

Section sort_keys.
Context `{Blake3}.
Implicit Types (artifact : Artifact) (selector : ArtifactSelector).

(** [SortKey], [sort_key]. *)
Abbreviation SortKey := (bytes * (bytes * (byte * bytes)))%type.
Definition sort_key artifact : SortKey :=
  (attribute_key_bytes (artifact_the artifact),
    (entity_key_bytes (artifact_of artifact),
      (ValueDataType.to_u8 (data_type (artifact_is artifact)), to_reference (artifact_is artifact)))).

(** [sort_by_key] (stable). *)
Fixpoint insert_by_key artifact (l : list Artifact) : list Artifact :=
  match l with
  | [] => [artifact]
  | x :: l => if oleb (sort_key artifact) (sort_key x) then artifact :: x :: l else x :: insert_by_key artifact l
  end.
Definition sort_by_key (l : list Artifact) : list Artifact := foldr insert_by_key [] l.

(** [Provider<Select> for Changes]. *)
Definition change_value (change : Change.t) : option Value.t :=
  match change with Change.Assert v | Change.Replace v => Some v | Change.Retract _ => None end.
Definition matched selector (changes : Changes) : list Artifact :=
  changes_iter changes ≫= (fun '(e, a, change) =>
    match change_value change with
    | Some v =>
        if (match selector_entity selector with Some target => bool_decide (e = target) | None => true end) &&
           (match selector_attribute selector with Some target => bool_decide (a = target) | None => true end) &&
           (match selector_value selector with Some target => bool_decide (v = target) | None => true end)
        then [mkArtifact a e v None] else []
    | None => []
    end).
Definition changes_select selector (changes : Changes) : list Artifact := sort_by_key (matched selector changes).

(** ** What a batch asserts *)
Definition changes_assert (changes : Changes) artifact : Prop :=
  artifact_cause artifact = None /\
  exists change, change ∈ changes_at changes (artifact_the artifact) (artifact_of artifact) /\
    change_value change = Some (artifact_is artifact).
Definition changes_retract (changes : Changes) artifact : Prop :=
  Change.Retract (artifact_is artifact) ∈ changes_at changes (artifact_the artifact) (artifact_of artifact).

Lemma elem_of_changes_iter changes e a change :
  (e, a, change) ∈ changes_iter changes <-> change ∈ changes_at changes a e.
Proof.
  unfold changes_iter, changes_at. rewrite list_elem_of_bind. split.
  - intros ([e' m] & ([a' l] & Hc & Hl%elem_of_map_to_list)%list_elem_of_bind & Hm%elem_of_map_to_list).
    apply list_elem_of_fmap in Hc as (c & [= <- <- <-] & Hc). rewrite Hm. simpl. by rewrite Hl.
  - destruct (changes !! e) as [m|] eqn:Em; simpl; [|rewrite lookup_empty; simpl; by intros ?%not_elem_of_nil].
    destruct (m !! a) as [l|] eqn:El; simpl; [|by intros ?%not_elem_of_nil]. intros Hc.
    exists (e, m). split; [|by apply elem_of_map_to_list]. apply list_elem_of_bind. exists (a, l).
    split; [|by apply elem_of_map_to_list]. apply list_elem_of_fmap. eauto.
Qed.

Definition sorted_by_key (l : list Artifact) : Prop := StronglySorted (fun a b => sort_key a ≼ sort_key b) l.

Lemma elem_of_insert_by_key x artifact l : x ∈ insert_by_key artifact l <-> x = artifact \/ x ∈ l.
Proof.
  induction l as [|y l IH]; simpl; [by rewrite !elem_of_cons|].
  destruct (oleb _ _); rewrite !elem_of_cons; [done|]. rewrite IH. tauto.
Qed.
Lemma insert_by_key_sorted artifact l : sorted_by_key l -> sorted_by_key (insert_by_key artifact l).
Proof.
  unfold sorted_by_key. induction 1 as [|x l Hs IH Hx]; simpl; [repeat constructor|].
  destruct (oleb _ _) eqn:E.
  - apply oleb_spec in E. constructor; [by constructor|]. constructor; [done|].
    eapply Forall_impl; [exact Hx|]. intros y Hy. simpl in Hy. by eapply ole_trans.
  - apply oleb_false in E. constructor; [done|]. apply Forall_forall.
    intros y [->|Hy]%elem_of_insert_by_key; [by apply olt_le|]. rewrite Forall_forall in Hx. by apply Hx.
Qed.
Lemma sort_by_key_spec l : sorted_by_key (sort_by_key l) /\ forall x, x ∈ sort_by_key l <-> x ∈ l.
Proof.
  induction l as [|y l [IHs IHx]]; simpl; [split; [constructor|done]|]. split.
  - by apply insert_by_key_sorted.
  - intros x. by rewrite elem_of_insert_by_key, IHx, elem_of_cons.
Qed.

(** A selector without prefixes, which the overlay would ignore. *)
Definition exact selector : Prop := selector_entity_prefix selector = None /\ selector_attribute_prefix selector = None.

Lemma changes_select_spec selector changes : exact selector ->
  sorted_by_key (changes_select selector changes) /\
  forall artifact, artifact ∈ changes_select selector changes <-> changes_assert changes artifact /\ satisfies selector artifact.
Proof.
  intros [Hpe Hpa]. unfold changes_select. destruct (sort_by_key_spec (matched selector changes)) as [Hs Hx].
  split; [done|]. intros artifact. rewrite Hx. unfold matched. rewrite list_elem_of_bind.
  unfold changes_assert, satisfies. rewrite Hpe, Hpa. split.
  - intros ([[e a] change] & Hm & Hc%elem_of_changes_iter). destruct (change_value change) as [v|] eqn:Ev; [|by apply not_elem_of_nil in Hm].
    case_match eqn:Eb; [|by apply not_elem_of_nil in Hm]. apply list_elem_of_singleton in Hm as ->. simpl.
    apply andb_true_iff in Eb as [[He Ha]%andb_true_iff Hv].
    split; [split; [done|eauto]|]. split_and!; try done.
    + intros ? E. rewrite E in He. by apply bool_decide_eq_true in He.
    + intros ? E. rewrite E in Ha. by apply bool_decide_eq_true in Ha.
    + intros ? E. rewrite E in Hv. by apply bool_decide_eq_true in Hv.
  - intros ([Hcause (change & Hc & Ev)] & He & Ha & Hv & _). exists (artifact_of artifact, artifact_the artifact, change).
    split; [|by apply elem_of_changes_iter]. rewrite Ev. rewrite (proj2 (andb_true_iff _ _)).
    + apply list_elem_of_singleton. destruct artifact. simpl in *. by subst.
    + split; [apply andb_true_iff; split|].
      * destruct (selector_entity selector); [|done]. by apply bool_decide_eq_true, He.
      * destruct (selector_attribute selector); [|done]. by apply bool_decide_eq_true, Ha.
      * destruct (selector_value selector); [|done]. by apply bool_decide_eq_true, Hv.
Qed.
End sort_keys.
Abbreviation SortKey := (bytes * (bytes * (byte * bytes)))%type.

(** * Layers

    Queries over several sources (rust/dialog-repository/src/layer.rs,
    repository/branch/session.rs, transaction_query.rs): the merge of branch
    scans and an overlay of pending changes, in the order of one tree. *)

(** A stream of results: what it yields until it ends or fails. *)
Abbreviation ArtifactStream := (list Artifact * outcome DialogArtifactsError ())%type.

Section layer.
Context `{Blake3}.
Implicit Types (artifact item : Artifact) (streams : list ArtifactStream).

Definition group_key artifact : bytes * bytes :=
  (attribute_key_bytes (artifact_the artifact), entity_key_bytes (artifact_of artifact)).

(** The scan over the peeked heads: a failed head is taken at once. *)
Fixpoint pick_min streams (i : nat) (min_idx : option nat) (min_sort : option SortKey) : option nat :=
  match streams with
  | [] => min_idx
  | ([], Ok _) :: streams => pick_min streams (S i) min_idx min_sort
  | ([], _) :: _ => Some i
  | (head :: _, _) :: streams =>
      let sk := sort_key head in
      if match min_sort with Some cur => oltb sk cur | None => true end
      then pick_min streams (S i) (Some i) (Some sk)
      else pick_min streams (S i) min_idx min_sort
  end.

(** The loop of [merge_grouped]; [fuel] bounds its iterations. *)
Fixpoint merge_loop (fuel : nat) streams (current_key : option (bytes * bytes)) (seen : gset bytes) : ArtifactStream :=
  match fuel with
  | O => ([], OutOfFuel)
  | S fuel =>
      match pick_min streams 0 None None with
      | None => ([], Ok tt)
      | Some idx =>
          match streams !! idx with
          | Some (item :: rest, status) =>
              let streams := <[idx := (rest, status)]> streams in
              let k := group_key item in
              let seen := if decide (current_key = Some k) then seen else ∅ in
              let fingerprint := Cause_from item in
              if decide (fingerprint ∈ seen) then merge_loop fuel streams (Some k) seen
              else let '(out, status) := merge_loop fuel streams (Some k) ({[fingerprint]} ∪ seen) in
                   (item :: out, status)
          | Some ([], status) => ([], status)
          | None => ([], Panic "index out of bounds")
          end
      end
  end.
Definition merge_fuel streams : nat := S (sum_list (length ∘ fst <$> streams)).
Definition merge_grouped streams : ArtifactStream :=
  match streams with
  | [] => ([], Ok tt)
  | [s] => s
  | _ => merge_loop (merge_fuel streams) streams None ∅
  end.

(** [tombstones_from] and [filter_tombstones]. *)
Definition tombstones_from (changes : Changes) : gset SortKey :=
  list_to_set (changes_iter changes ≫= (fun '(e, a, change) =>
    match change with Change.Retract v => [sort_key (mkArtifact a e v None)] | _ => [] end)).
Definition filter_tombstones (inner : ArtifactStream) (tombstones : gset SortKey) : ArtifactStream :=
  if decide (tombstones = ∅) then inner
  else (List.filter (fun artifact => bool_decide (sort_key artifact ∉ tombstones)) inner.1, inner.2).

(** [Provider<Select> for QueryEnv] and for [TransactionEnv] (one branch);
    [scans] are the branches' answers to the selector. *)
Definition query_select (scans : list ArtifactStream) (changes : Changes) (tombstones : gset SortKey)
    (input : ArtifactSelector) : ArtifactStream :=
  merge_grouped (((fun raw => filter_tombstones raw tombstones) <$> scans) ++ [(changes_select input changes, Ok tt)]).
End layer.

(** * The order of an index and the order of sort keys *)
Section orders.
Context `{Blake3, Url}.
Implicit Types (artifact : Artifact) (selector : ArtifactSelector).

Lemma cmp_app (x1 y1 x2 y2 : bytes) : length x1 = length y1 ->
  cmp (x1 ++ x2) (y1 ++ y2) = match cmp x1 y1 with Eq => cmp x2 y2 | c => c end.
Proof.
  revert y1; induction x1 as [|a x1 IH]; intros [|b y1] Hl; try done. simpl in Hl |- *.
  destruct (Byte.to_N a ?= Byte.to_N b)%N; [by apply IH; lia|done|done].
Qed.
Lemma cmp_cons (a b : byte) (x y : bytes) :
  cmp (a :: x) (b :: y) = match cmp a b with Eq => cmp x y | c => c end.
Proof. done. Qed.

(** The comparison of keys, field by field. *)
Lemma cmp_encode l f f' : l ∈ layouts -> well_sized f -> well_sized f' ->
  let e := cmp (fact_entity f) (fact_entity f') in
  let a := cmp (fact_attribute f) (fact_attribute f') in
  let t := cmp (ValueDataType.to_u8 (fact_type f)) (ValueDataType.to_u8 (fact_type f')) in
  let r := cmp (fact_reference f) (fact_reference f') in
  let seq c d := match c with Eq => d | c => c end in
  cmp (encode l f) (encode l f') =
  if decide (key_tag l = ENTITY_KEY_TAG) then seq e (seq a (seq t r))
  else if decide (key_tag l = ATTRIBUTE_KEY_TAG) then seq a (seq e (seq t r))
  else seq t (seq r (seq a e)).
Proof.
  intros Hl (Le & La & Lr) (Le' & La' & Lr') e a t r seq.
  change (cmp (encode l f) (encode l f')) with (cmp (key_raw (encode l f)) (key_raw (encode l f'))).
  unfold encode. rewrite !fields_raw by done. unfold fields.
  repeat case_decide; rewrite cmp_cons, cmp_refl.
  - cbn [app]. rewrite !cmp_app, cmp_cons by congruence. unfold seq, e, a, t, r. by repeat case_match.
  - cbn [app]. rewrite !cmp_app, cmp_cons by congruence. unfold seq, e, a, t, r. by repeat case_match.
  - cbn [app]. rewrite cmp_cons, !cmp_app by congruence. unfold seq, e, a, t, r. by repeat case_match.
Qed.

Lemma cmp_sort_key a1 a2 :
  cmp (sort_key a1) (sort_key a2) =
  let f := fact_key a1 in let f' := fact_key a2 in
  match cmp (fact_attribute f) (fact_attribute f') with
  | Eq => match cmp (fact_entity f) (fact_entity f') with
          | Eq => match cmp (ValueDataType.to_u8 (fact_type f)) (ValueDataType.to_u8 (fact_type f')) with
                  | Eq => cmp (fact_reference f) (fact_reference f') | c => c end
          | c => c end
  | c => c end.
Proof. done. Qed.

(** The index a selector is answered from is not the entity index, unless one
    entity is given. *)
Definition agrees (l : Layout) selector : Prop := l = EntityKey -> is_Some (selector_entity selector).

Lemma order_agrees l selector a1 a2 :
  scan_index selector = Some l -> agrees l selector -> wf_artifact a1 -> wf_artifact a2 ->
  satisfies selector a1 -> satisfies selector a2 ->
  cmp (encode l (fact_key a1)) (encode l (fact_key a2)) = cmp (sort_key a1) (sort_key a2).
Proof.
  intros Hl Hag W1 W2 (Se1 & _ & Sv1 & _) (Se2 & _ & Sv2 & _).
  pose proof (fact_key_sized _ W1) as F1. pose proof (fact_key_sized _ W2) as F2.
  rewrite cmp_sort_key. cbv zeta.
  assert (l = EntityKey \/ l = AttributeKey \/ l = ValueKey /\ is_Some (selector_value selector)) as [->|[->|[-> [v Hv]]]].
  { unfold scan_index in Hl. destruct (_ || _); [injection Hl as <-; by left|].
    case_bool_decide; [injection Hl as <-; auto|]. destruct (_ || _); [injection Hl as <-; auto|done]. }
  - rewrite cmp_encode by (done || by left). rewrite decide_True by done. destruct (Hag eq_refl) as [e He].
    assert (fact_entity (fact_key a1) = fact_entity (fact_key a2)) as ->
      by (simpl; by rewrite (Se1 e He), (Se2 e He)).
    rewrite cmp_refl. cbv zeta. repeat case_match; congruence.
  - rewrite cmp_encode by (done || by right; left). rewrite decide_False, decide_True by done. cbv zeta. repeat case_match; congruence.
  - rewrite cmp_encode by (done || by right; right; left). rewrite !decide_False by done.
    assert (artifact_is a1 = artifact_is a2) as E by by rewrite (Sv1 v Hv), (Sv2 v Hv).
    cbn [fact_key fact_entity fact_attribute fact_type fact_reference]. cbv zeta. rewrite E, !cmp_refl. repeat case_match; congruence.
Qed.

(** A scan answered in such an order is sorted by sort key. *)
Lemma scan_sorted_by_key l selector artifacts :
  scan_index selector = Some l -> agrees l selector -> Forall wf_artifact artifacts -> Forall (satisfies selector) artifacts ->
  StronglySorted (before l) artifacts -> StronglySorted (fun a b => sort_key a ≺ sort_key b) artifacts.
Proof.
  intros Hl Hag Hwf Hsat. induction 1 as [|a artifacts Hs IH Ha]; [constructor|].
  apply Forall_cons in Hwf as [Wa Hwf], Hsat as [Sa Hsat]. constructor; [by apply IH|].
  rewrite Forall_forall in Ha, Hwf, Hsat |- *. intros b Hb. unfold olt.
  rewrite <- (order_agrees l selector) by auto. by apply Ha.
Qed.
End orders.
