(* ===== verification/LayerCorrect.v ===== *)
(** The merge of sorted sources is the sorted union of what they hold: each
    artifact once, wherever its copies are; and no failure of a source is lost.
    A query over branches and an overlay answers as one tree would. *)
From S2P Require Import Prelude Common Nodes SortedEntries Walker Read ArtifactTree Artifact ArtifactKeys ArtifactFacts ArtifactTreeCorrect Layer.

Section merging.
Context `{Blake3}.
Implicit Types (x y item : Artifact) (streams : list ArtifactStream) (past : list Artifact).

Definition remaining streams x : Prop := exists s, s ∈ streams /\ x ∈ s.1.
Definition all_ok streams : Prop := Forall (fun s => s.2 = Ok tt) streams.
Definition heads_from (k : SortKey) streams : Prop :=
  forall h l o, (h :: l, o) ∈ streams -> k ≼ sort_key h.

(** The pick is a least head. *)
Lemma pick_min_spec streams : forall i min_idx min_sort, all_ok streams ->
  (pick_min streams i min_idx min_sort = min_idx /\
     match min_sort with Some k => heads_from k streams | None => Forall (fun s => s.1 = []) streams end) \/
  exists n h l, pick_min streams i min_idx min_sort = Some (i + n)%nat /\ streams !! n = Some (h :: l, Ok tt) /\
    heads_from (sort_key h) streams /\ (forall k, min_sort = Some k -> sort_key h ≺ k).
Proof.
  induction streams as [|[[|h l] o] streams IH]; intros i min_idx min_sort Hok.
  - left. split; [done|]. destruct min_sort; [|done]. by intros ? ? ? ?%not_elem_of_nil.
  - apply Forall_cons in Hok as [Ho Hok]. simpl in Ho; subst o. cbn [pick_min].
    destruct (IH (S i) min_idx min_sort Hok) as [[-> Hm]|(n & h & l & -> & Hn & Hh & Hk)].
    + left. split; [done|]. destruct min_sort; [|by constructor].
      intros h l o [?|?]%elem_of_cons; [done|by eapply Hm].
    + right. exists (S n), h, l. split_and!; [f_equal; lia|done| |done].
      intros h' l' o [?|?]%elem_of_cons; [done|by eapply Hh].
  - apply Forall_cons in Hok as [Ho Hok]. simpl in Ho; subst o. cbn [pick_min]. cbv zeta.
    destruct (match min_sort with Some cur => oltb (sort_key h) cur | None => true end) eqn:Elt.
    + right. assert (forall k, min_sort = Some k -> sort_key h ≺ k) as Hlt.
      { intros k ->. by apply oltb_spec. }
      destruct (IH (S i) (Some i) (Some (sort_key h)) Hok) as [[-> Hm]|(n & h' & l' & -> & Hn & Hh & Hk)].
      * exists 0%nat, h, l. split_and!; [f_equal; lia|done| |done].
        intros h' l' o [[= <- _ _]|?]%elem_of_cons; [apply ole_refl|by eapply Hm].
      * exists (S n), h', l'. specialize (Hk _ eq_refl). split_and!; [f_equal; lia|done| |].
        -- intros h'' l'' o [[= <- _ _]|?]%elem_of_cons; [by apply olt_le|by eapply Hh].
        -- intros k Ek. by eapply olt_trans, Hlt.
    + destruct min_sort as [k|]; [|done]. apply oltb_false in Elt.
      destruct (IH (S i) min_idx (Some k) Hok) as [[-> Hm]|(n & h' & l' & -> & Hn & Hh & Hk)].
      * left. split; [done|]. intros h' l' o [[= <- _ _]|?]%elem_of_cons; [done|by eapply Hm].
      * right. exists (S n), h', l'. specialize (Hk _ eq_refl). split_and!; [f_equal; lia|done| |by intros ? [= <-]].
        intros h'' l'' o [[= <- _ _]|?]%elem_of_cons; [by eapply ole_trans; [apply olt_le|]|by eapply Hh].
Qed.

(** Distinct artifacts of one entity and attribute have distinct fingerprints. *)
Definition fingerprints_distinct (Q : Artifact -> Prop) : Prop :=
  forall x y, Q x -> Q y -> group_key x = group_key y -> Cause_from x = Cause_from y -> x = y.

(** What the loop knows of the artifacts it has passed. *)
Record merging (current_key : option (bytes * bytes)) (seen : gset bytes) streams past : Prop := {
  merging_ok : all_ok streams;
  merging_sorted : Forall (fun s => sorted_by_key s.1) streams;
  merging_ahead : forall x y, remaining streams x -> y ∈ past -> sort_key y ≼ sort_key x;
  merging_seen : forall c, c ∈ seen <-> exists y, y ∈ past /\ current_key = Some (group_key y) /\ Cause_from y = c;
  merging_key : forall y, y ∈ past -> exists k, current_key = Some k /\ group_key y ≼ k;
  merging_next : forall k x, current_key = Some k -> remaining streams x -> k ≼ group_key x
}.

Lemma group_key_mono x y : sort_key x ≼ sort_key y -> group_key x ≼ group_key y.
Proof.
  unfold ole, sort_key, group_key. cbn [cmp prod_ord fst snd].
  destruct (cmp (attribute_key_bytes _) _); [|done|done].
  by destruct (cmp (entity_key_bytes _) _).
Qed.

Lemma remaining_take streams n item rest x :
  streams !! n = Some (item :: rest, Ok tt) ->
  remaining streams x <-> x = item \/ remaining (<[n := (rest, Ok tt)]> streams) x.
Proof.
  intros Hn. unfold remaining. split.
  - intros (s & (m & Hm)%list_elem_of_lookup & Hx). destruct (decide (m = n)) as [->|Hne].
    + rewrite Hn in Hm. injection Hm as <-. simpl in Hx. apply elem_of_cons in Hx as [->|Hx]; [by left|right].
      exists (rest, Ok tt). split; [|done]. apply list_elem_of_lookup. exists n.
      apply list_lookup_insert_eq. by eapply lookup_lt_Some.
    + right. exists s. split; [|done]. apply list_elem_of_lookup. exists m. by rewrite list_lookup_insert_ne.
  - intros [->|(s & (m & Hm)%list_elem_of_lookup & Hx)].
    + exists (item :: rest, Ok tt). split; [by eapply list_elem_of_lookup_2|by left].
    + destruct (decide (m = n)) as [->|Hne].
      * rewrite list_lookup_insert_eq in Hm by by eapply lookup_lt_Some. injection Hm as <-.
        exists (item :: rest, Ok tt). split; [by eapply list_elem_of_lookup_2|by right].
      * rewrite list_lookup_insert_ne in Hm by done. exists s. split; [by eapply list_elem_of_lookup_2|done].
Qed.

(** One artifact is taken. *)
Lemma merging_step current_key seen streams past n item rest :
  merging current_key seen streams past -> streams !! n = Some (item :: rest, Ok tt) ->
  heads_from (sort_key item) streams ->
  let seen0 := if decide (current_key = Some (group_key item)) then seen else ∅ in
  (forall x, remaining streams x -> sort_key item ≼ sort_key x) /\
  (forall c, c ∈ seen0 <-> exists y, y ∈ past /\ group_key y = group_key item /\ Cause_from y = c) /\
  merging (Some (group_key item)) ({[Cause_from item]} ∪ seen0) (<[n := (rest, Ok tt)]> streams) (item :: past).
Proof.
  intros [Hok Hsorted Hahead Hseen Hkey Hnext] Hn Hheads seen0.
  assert (forall x, remaining streams x -> sort_key item ≼ sort_key x) as Hleast.
  { intros x ([l o] & Hs & Hx). destruct l as [|h l]; [by apply not_elem_of_nil in Hx|].
    pose proof (Hheads _ _ _ Hs) as Hle. rewrite Forall_forall in Hsorted. pose proof (Hsorted _ Hs) as Hsl.
    apply elem_of_cons in Hx as [->|Hx]; [done|]. apply StronglySorted_inv in Hsl as [_ Hsl].
    rewrite Forall_forall in Hsl. by eapply ole_trans, Hsl. }
  assert (remaining streams item) as Hitem by (by apply (remaining_take _ _ _ _ _ Hn); left).
  assert (forall c, c ∈ seen0 <-> exists y, y ∈ past /\ group_key y = group_key item /\ Cause_from y = c) as Hseen0.
  { intros c. unfold seen0. case_decide as Ek.
    - rewrite Hseen, Ek. split; intros (y & Hy & Eg & Ec); exists y; (split_and!; [done|congruence|done]).
    - split; [set_solver|]. intros (y & Hy & Eg & _). exfalso. destruct (Hkey y Hy) as (k & Ek' & Hle).
      apply Ek. rewrite Ek'. f_equal. pose proof (Hnext _ _ Ek' Hitem) as Hge. rewrite Eg in Hle.
      apply ole_cases in Hle as [Hlt|?]; [|done]. order. }
  split_and!; [done|done|]. assert (forall x, remaining (<[n:=(rest, Ok tt)]> streams) x -> remaining streams x) as Hsub.
  { intros x Hx. apply (remaining_take _ _ _ _ _ Hn). by right. }
  constructor.
  - apply Forall_insert; [done|done].
  - apply Forall_insert; [done|]. rewrite Forall_forall in Hsorted. simpl.
    specialize (Hsorted _ (list_elem_of_lookup_2 _ _ _ Hn)). by apply StronglySorted_inv in Hsorted as [? _].
  - intros x y Hx%Hsub [->|Hy]%elem_of_cons; auto.
  - intros c. rewrite elem_of_union, elem_of_singleton, Hseen0. split.
    + intros [->|(y & Hy & Eg & Ec)]; [exists item; split_and!; [by left|done|done]|exists y; split_and!; [by right|by rewrite Eg|done]].
    + intros (y & [->|Hy]%elem_of_cons & Eg & Ec); [by left|right].
      exists y. split_and!; [done|congruence|done].
  - intros y [->|Hy]%elem_of_cons; eexists; (split; [done|]); [apply ole_refl|]. apply group_key_mono. auto.
  - intros k x [= <-] Hx%Hsub. by apply group_key_mono, Hleast.
Qed.

Definition total streams : nat := sum_list (length ∘ fst <$> streams).
Lemma total_take streams n item rest :
  streams !! n = Some (item :: rest, Ok tt) -> total streams = S (total (<[n := (rest, Ok tt)]> streams)).
Proof.
  revert n; induction streams as [|s streams IH]; intros [|n] Hn; try done; simpl in Hn.
  - injection Hn as ->. done.
  - unfold total in *. csimpl. simpl. rewrite (IH n Hn). lia.
Qed.

Lemma merge_loop_spec (Q : Artifact -> Prop) : fingerprints_distinct Q -> forall fuel streams past current_key seen,
  merging current_key seen streams past ->
  (forall x, remaining streams x \/ x ∈ past -> Q x) -> (total streams < fuel)%nat ->
  exists out, merge_loop fuel streams current_key seen = (out, Ok tt) /\ sorted_by_key out /\ NoDup out /\
    forall x, x ∈ out <-> remaining streams x /\ x ∉ past.
Proof.
  intros HQ. induction fuel as [|fuel IH]; intros streams past current_key seen Hm HQs Hf; [lia|].
  cbn [merge_loop].
  destruct (pick_min_spec streams 0 None None (merging_ok _ _ _ _ Hm)) as [[-> Hempty]|(n & item & rest & -> & Hn & Hh & _)].
  - exists []. split_and!; [done|constructor|constructor|]. intros x. rewrite elem_of_nil. split; [done|].
    intros [(s & Hs & Hx) _]. rewrite Forall_forall in Hempty. rewrite (Hempty _ Hs) in Hx. by apply not_elem_of_nil in Hx.
  - rewrite Nat.add_0_l, Hn. cbv zeta.
    destruct (merging_step _ _ _ _ _ _ _ Hm Hn Hh) as (Hleast & Hseen0 & Hm'). cbv zeta in Hseen0, Hm'.
    set (seen0 := if decide (current_key = Some (group_key item)) then seen else ∅) in *.
    pose proof (remaining_take _ _ _ _ item Hn) as Hitem. pose proof (total_take _ _ _ _ Hn) as Htot.
    assert (forall x, remaining (<[n:=(rest, Ok tt)]> streams) x \/ x ∈ item :: past -> Q x) as HQ'.
    { intros x [Hx|[->|Hx]%elem_of_cons]; apply HQs; [left|left; apply Hitem; by left|by right].
      apply (remaining_take _ _ _ _ _ Hn). by right. }
    assert (Cause_from item ∈ seen0 <-> item ∈ past) as Hdup.
    { rewrite Hseen0. split; [|eauto]. intros (y & Hy & Eg & Ec).
      assert (y = item) as <-; [|done]. apply HQ; [apply HQs; by right|apply HQs; left; apply Hitem; by left|done..]. }
    case_decide as Hd.
    + assert (({[Cause_from item]} ∪ seen0) = seen0) as Eseen by set_solver. rewrite Eseen in Hm'.
      destruct (IH _ _ _ _ Hm' HQ' ltac:(lia)) as (out & -> & Hs & Hnd & Hx). exists out. split_and!; [done..|].
      intros x. rewrite Hx, (remaining_take streams _ _ _ x Hn), not_elem_of_cons.
      apply Hdup in Hd. split; [intros (? & ? & ?); auto|]. intros [[->|?] ?]; [done|]. split_and!; [done| |done].
      by intros ->.
    + destruct (IH _ _ _ _ Hm' HQ' ltac:(lia)) as (out & -> & Hs & Hnd & Hx). exists (item :: out). split_and!; [done| | |].
      * constructor; [done|]. apply Forall_forall. intros x [Hr _]%Hx. apply Hleast.
        apply (remaining_take _ _ _ _ _ Hn). by right.
      * constructor; [|done]. rewrite Hx, not_elem_of_cons. tauto.
      * intros x. rewrite elem_of_cons, Hx, (remaining_take streams _ _ _ x Hn), not_elem_of_cons.
        rewrite Hdup in Hd. destruct (decide (x = item)) as [->|]; naive_solver.
Qed.
End merging.

(** ** [merge_grouped] *)
Section merge_promises.
Context `{Blake3}.
Implicit Types (x y : Artifact) (streams : list ArtifactStream).

Lemma merging_start streams : all_ok streams -> Forall (fun s => sorted_by_key s.1) streams ->
  merging None ∅ streams [].
Proof.
  intros Hok Hs. constructor; try done.
  - by intros ? ? _ ?%not_elem_of_nil.
  - intros c. split; [set_solver|]. by intros (y & ?%not_elem_of_nil & _).
  - by intros ? ?%not_elem_of_nil.
Qed.

Lemma merge_grouped_spec (Q : Artifact -> Prop) streams :
  (2 <= length streams)%nat -> all_ok streams -> Forall (fun s => sorted_by_key s.1) streams ->
  fingerprints_distinct Q -> (forall x, remaining streams x -> Q x) ->
  exists out, merge_grouped streams = (out, Ok tt) /\ sorted_by_key out /\ NoDup out /\
    forall x, x ∈ out <-> remaining streams x.
Proof.
  intros Hlen Hok Hs HQ HQs.
  destruct (merge_loop_spec Q HQ (merge_fuel streams) streams [] None ∅) as (out & E & Hso & Hnd & Hx).
  - by apply merging_start.
  - intros x [?|?%not_elem_of_nil]; [by apply HQs|done].
  - unfold merge_fuel, total. lia.
  - exists out. split_and!; [|done|done|].
    + destruct streams as [|s1 [|s2 streams]]; simpl in Hlen; [lia|lia|exact E].
    + intros x. rewrite Hx. split; [by intros [? _]|]. intros ?. split; [done|apply not_elem_of_nil].
Qed.

(** A failed head is never passed over. *)
Lemma pick_min_Some streams : forall i k j, pick_min streams i (Some j) k <> None.
Proof.
  induction streams as [|[[|h l] o] streams IH]; intros i k j; [done| |].
  - cbn [pick_min]. destruct o; [apply IH|done..].
  - cbn [pick_min]. cbv zeta. destruct (match k with Some _ => _ | None => true end); apply IH.
Qed.
Lemma pick_min_None streams : forall i, pick_min streams i None None = None -> all_ok streams.
Proof.
  induction streams as [|[[|h l] o] streams IH]; intros i Hp; [constructor| |].
  - cbn [pick_min] in Hp. destruct o as [[]| | |]; try done. constructor; [done|by eapply IH].
  - by apply pick_min_Some in Hp.
Qed.
Lemma pick_min_head streams : forall i min_idx min_sort j, pick_min streams i min_idx min_sort = Some j ->
  min_idx = Some j \/ exists n s, j = (i + n)%nat /\ streams !! n = Some s /\ s <> ([], Ok tt).
Proof.
  induction streams as [|[[|h l] o] streams IH]; intros i mi ms j Ep; [by left| |].
  - cbn [pick_min] in Ep. destruct o as [[]| | |]; try by (right; injection Ep as <-; exists 0%nat; eexists; split_and!; [lia|done|done]).
    apply IH in Ep as [?|(n & s & -> & Hs & Hne)]; [by left|right]. exists (S n), s. split_and!; [lia|done|done].
  - cbn [pick_min] in Ep. cbv zeta in Ep. destruct (match ms with Some _ => _ | None => true end);
      (apply IH in Ep as [E|(n & s & -> & Hs & Hne)]; [|right; exists (S n), s; split_and!; [lia|done|done]]); [|by left].
    right. injection E as <-. exists 0%nat. eexists. split_and!; [lia|done|done].
Qed.
Lemma merge_loop_ok fuel : forall streams current_key seen out,
  merge_loop fuel streams current_key seen = (out, Ok tt) -> all_ok streams.
Proof.
  induction fuel as [|fuel IH]; intros streams current_key seen out E; [done|]. cbn [merge_loop] in E.
  destruct (pick_min streams 0 None None) as [idx|] eqn:Ep; [|by eapply pick_min_None].
  apply pick_min_head in Ep as [?|(n & s & -> & Hs & Hne)]; [done|].
  rewrite Nat.add_0_l, Hs in E. destruct s as [[|item rest] status]; [by injection E as _ ->|].
  assert (all_ok (<[n:=(rest, status)]> streams)) as Hok.
  { cbv zeta in E. destruct (decide (Cause_from item ∈ _)); [by eapply IH|].
    destruct (merge_loop fuel _ _ _) as [out' st] eqn:El. injection E as _ ->. by eapply IH. }
  unfold all_ok in *. rewrite Forall_lookup in Hok |- *. intros m s Hm.
  destruct (decide (m = n)) as [->|Hne'].
  - rewrite Hs in Hm. injection Hm as <-. apply (Hok n (rest, status)).
    apply list_lookup_insert_eq. by eapply lookup_lt_Some.
  - apply (Hok m). by rewrite list_lookup_insert_ne.
Qed.
Lemma merge_grouped_ok streams out : merge_grouped streams = (out, Ok tt) -> all_ok streams.
Proof.
  destruct streams as [|s1 [|s2 streams]]; [constructor| |apply merge_loop_ok].
  simpl. intros ->. by constructor.
Qed.
End merge_promises.

(** * Queries over branches and an overlay *)
Section union.
Context `{Blake3, Url}.
Implicit Types (artifact x y : Artifact) (facts : Facts) (selector : ArtifactSelector) (changes : Changes).
Context (P : bytes -> Prop) (distinct : digests_distinct P).

(** Everything recorded can be stored, and its hashed strings are in [P]. *)
Definition wf_changes changes : Prop :=
  forall e a change, change ∈ changes_at changes a e ->
    let v := match change with Change.Assert v | Change.Replace v | Change.Retract v => v end in
    storable (mkArtifact a e v None) /\ Forall P (hashed (mkArtifact a e v None)).

Lemma sort_key_inj x y : storable x -> storable y -> Forall P (hashed x) -> Forall P (hashed y) ->
  sort_key x = sort_key y ->
  artifact_the x = artifact_the y /\ artifact_of x = artifact_of y /\ artifact_is x = artifact_is y.
Proof.
  intros Hx Hy Px Py E. apply (fact_key_inj P); [done..|]. unfold sort_key in E. unfold fact_key.
  injection E as Ea Ee Et Er. apply (f_equal ValueDataType.from_u8) in Et. rewrite !from_u8_to_u8 in Et. congruence.
Qed.

Lemma elem_of_tombstones changes x : wf_changes changes -> storable x -> Forall P (hashed x) ->
  sort_key x ∈ tombstones_from changes <-> changes_retract changes x.
Proof.
  intros Hwf Hx Px. unfold tombstones_from. rewrite elem_of_list_to_set, list_elem_of_bind. unfold changes_retract. split.
  - intros ([[e a] change] & Hk & Hc%elem_of_changes_iter). destruct change as [v|v|v]; try by apply not_elem_of_nil in Hk.
    apply list_elem_of_singleton in Hk. destruct (Hwf _ _ _ Hc) as [Hs Hp].
    by destruct (sort_key_inj _ _ Hx Hs Px Hp Hk) as (-> & -> & ->).
  - intros Hc. exists (artifact_of x, artifact_the x, Change.Retract (artifact_is x)).
    split; [by left|by apply elem_of_changes_iter].
Qed.

Lemma filter_tombstones_spec changes artifacts o x :
  x ∈ (filter_tombstones (artifacts, o) (tombstones_from changes)).1 <-> x ∈ artifacts /\ sort_key x ∉ tombstones_from changes.
Proof.
  unfold filter_tombstones. case_decide as E; simpl.
  - rewrite E. split; [intros ?; split; [done|apply not_elem_of_empty]|by intros [? _]].
  - rewrite !list_elem_of_In, filter_In, bool_decide_eq_true. done.
Qed.
Lemma filter_tombstones_ok s tombstones : (filter_tombstones s tombstones).2 = s.2.
Proof. unfold filter_tombstones. by case_decide. Qed.
Lemma filter_tombstones_sorted s tombstones : sorted_by_key s.1 -> sorted_by_key (filter_tombstones s tombstones).1.
Proof.
  unfold filter_tombstones. case_decide; [done|]. simpl. unfold sorted_by_key. induction 1 as [|x l Hs IH Hx]; [constructor|].
  simpl. case_bool_decide; [|done]. constructor; [done|]. rewrite Forall_forall in Hx |- *.
  intros y [Hy _]%list_elem_of_In%filter_In. apply Hx. by apply list_elem_of_In.
Qed.

Lemma exact_agrees l selector : Constrained selector -> exact selector -> scan_index selector = Some l -> agrees l selector.
Proof.
  intros _ [Hp _] Hl ->. unfold scan_index in Hl. rewrite Hp in Hl.
  destruct (selector_entity selector); [by eexists|]. simpl in Hl.
  case_bool_decide; [done|]. by destruct (_ || _).
Qed.

(** A branch: its facts, and how its tree answers ranges. *)
Definition branch_of (b : Facts * (Range KeyBytes -> list (Entry KeyBytes State) * outcome DialogSearchTreeError ())) : Prop :=
  wf_facts b.1 /\ hashed_in P b.1 /\ forall range, b.2 range = (in_range range (index_entries b.1), Ok tt).
Definition asserted_in facts x : Prop := exists f, facts !! f = Some (Some x).

Lemma branch_scan b selector : branch_of b -> Forall P (selector_hashed selector) -> Constrained selector ->
  wf_selector selector -> exact selector ->
  exists artifacts, scan b.2 selector = (artifacts, Ok tt) /\ sorted_by_key artifacts /\
    forall x, x ∈ artifacts <-> asserted_in b.1 x /\ satisfies selector x.
Proof.
  intros (Hwf & Hh & Hs) Hsel Hb Hw He.
  destruct (scan_facts P selector b.1 b.2) as (l & artifacts & Hl & Escan & Hsorted & Hart); [done..|].
  exists artifacts. split_and!; [done| |done].
  assert (StronglySorted (fun a b => sort_key a ≺ sort_key b) artifacts) as Hlt.
  { apply (scan_sorted_by_key l selector); [done|by apply exact_agrees| | |done].
    - apply Forall_forall. intros x [[f Hf] _]%Hart. destruct (Hwf _ _ Hf) as [_ Hok].
      by destruct (Hok x eq_refl) as [[? _] _].
    - apply Forall_forall. by intros x [_ ?]%Hart. }
  clear -Hlt. unfold sorted_by_key. induction Hlt as [|x l Hs IH Hx]; constructor; [done|].
  eapply Forall_impl; [exact Hx|]. intros y Hy. simpl in Hy. by apply olt_le.
Qed.

(** What a query over several sources returns, for the clients of the layer. *)
Lemma query_select_spec branches changes selector :
  branches <> [] -> Forall branch_of branches -> wf_changes changes ->
  Forall P (selector_hashed selector) -> Constrained selector -> wf_selector selector -> exact selector ->
  fingerprints_distinct (fun x => Exists (fun b => asserted_in b.1 x) branches \/ changes_assert changes x) ->
  exists out, query_select ((fun b => scan b.2 selector) <$> branches) changes (tombstones_from changes) selector = (out, Ok tt) /\
    sorted_by_key out /\ NoDup out /\
    forall x, x ∈ out <-> satisfies selector x /\
      (Exists (fun b => asserted_in b.1 x) branches /\ ~ changes_retract changes x \/ changes_assert changes x).
Proof.
  intros Hne Hbs Hwf Hsel Hb Hw He Hfp. destruct (changes_select_spec selector changes He) as [Hos Hox].
  set (Q := fun x => _ \/ _) in Hfp.
  set (streams := ((fun raw => filter_tombstones raw (tombstones_from changes)) <$> ((fun b => scan b.2 selector) <$> branches))
                    ++ [(changes_select selector changes, Ok tt)]).
  assert (forall x, remaining streams x <-> satisfies selector x /\
      (Exists (fun b => asserted_in b.1 x) branches /\ ~ changes_retract changes x \/ changes_assert changes x)) as Hrem.
  { intros x. unfold remaining, streams. split.
    - intros (s & [Hs|Hs]%elem_of_app & Hx).
      + apply list_elem_of_fmap in Hs as (raw & -> & (b & -> & Hbin)%list_elem_of_fmap).
        rewrite Forall_forall in Hbs. pose proof (Hbs _ Hbin) as Hbr.
        destruct (branch_scan b selector Hbr) as (artifacts & E & _ & Hart); [done..|]. rewrite E in Hx.
        apply filter_tombstones_spec in Hx as [[[f Hf] Hsat]%Hart Hn]. split; [done|left].
        destruct Hbr as (Hwb & Hhb & _). destruct (Hwb _ _ Hf) as [_ Hok]. destruct (Hok x eq_refl) as [Hst _].
        split; [apply Exists_exists; exists b; split; [done|by exists f]|].
        rewrite <- elem_of_tombstones; [done|done|done|by eapply Hhb].
      + apply list_elem_of_singleton in Hs as ->. apply Hox in Hx as [? ?]. auto.
    - intros (Hsat & [[(b & Hbin & [f Hf])%Exists_exists Hn]|Hov]).
      + rewrite Forall_forall in Hbs. pose proof (Hbs _ Hbin) as Hbr.
        destruct (branch_scan b selector Hbr) as (artifacts & E & _ & Hart); [done..|].
        exists (filter_tombstones (scan b.2 selector) (tombstones_from changes)). split.
        * apply elem_of_app. left. apply list_elem_of_fmap. eexists. split; [reflexivity|].
          by apply (list_elem_of_fmap_2 (fun b => scan b.2 selector)).
        * rewrite E. apply filter_tombstones_spec. split; [apply Hart; split; [by exists f|done]|].
          destruct Hbr as (Hwb & Hhb & _). destruct (Hwb _ _ Hf) as [_ Hok]. destruct (Hok x eq_refl) as [Hst _].
          rewrite elem_of_tombstones; [done|done|done|by eapply Hhb].
      + exists (changes_select selector changes, Ok tt). split; [apply elem_of_app; right; by left|]. by apply Hox. }
  destruct (merge_grouped_spec Q streams) as (out & E & Hs & Hnd & Hx).
  - unfold streams. rewrite length_app, !length_fmap. destruct branches; simpl; [done|lia].
  - unfold all_ok, streams. rewrite Forall_app, Forall_singleton. split; [|done]. rewrite !Forall_fmap.
    eapply Forall_impl; [exact Hbs|]. intros b Hbr. simpl. rewrite filter_tombstones_ok.
    by destruct (branch_scan b selector Hbr) as (artifacts & -> & _).
  - unfold streams. rewrite Forall_app, Forall_singleton. split; [|done]. rewrite !Forall_fmap.
    eapply Forall_impl; [exact Hbs|]. intros b Hbr. simpl. apply filter_tombstones_sorted.
    by destruct (branch_scan b selector Hbr) as (artifacts & -> & ? & _).
  - done.
  - intros x Hr. apply Hrem in Hr as [_ [[? _]|?]]; [by left|by right].
  - exists out. split_and!; [done|done|done|]. intros x. by rewrite Hx, Hrem.
Qed.


(** No failure of a source is lost: when a query over any sources ends
    without an error, every source did. *)
Theorem query_select_error scans changes selector out :
  query_select scans changes (tombstones_from changes) selector = (out, Ok tt) ->
  Forall (fun s => s.2 = Ok tt) scans.
Proof.
  intros [Hok _]%merge_grouped_ok%Forall_app. rewrite Forall_fmap in Hok.
  eapply Forall_impl; [exact Hok|]. intros s. simpl. by rewrite filter_tombstones_ok.
Qed.
End union.

Lemma merge_loop_S `{Blake3} fuel streams current_key seen :
  merge_loop (S fuel) streams current_key seen =
  match pick_min streams 0 None None with
  | None => ([], Ok tt)
  | Some idx =>
      match streams !! idx with
      | Some (item :: rest, status) =>
          let streams := <[idx := (rest, status)]> streams in
          let seen := if decide (current_key = Some (group_key item)) then seen else ∅ in
          if decide (Cause_from item ∈ seen) then merge_loop fuel streams (Some (group_key item)) seen
          else let '(out, status) := merge_loop fuel streams (Some (group_key item)) ({[Cause_from item]} ∪ seen) in
               (item :: out, status)
      | Some ([], status) => ([], status)
      | None => ([], Panic "index out of bounds")
      end
  end.
Proof. done. Qed.

(** Fingerprints do not cover the type of a value: a text and a byte string
    with the same bytes, asserted of one entity and attribute by two sources, are
    different artifacts, but the merge takes them for copies and drops one. *)
Theorem merge_drops_distinct `{Blake3} (a : Attribute) (e : Entity) (s : bytes) :
  let text := mkArtifact a e (Value.String s) None in
  let raw := mkArtifact a e (Value.Bytes s) None in
  text <> raw /\ merge_grouped [([text], Ok tt); ([raw], Ok tt)] = ([raw], Ok tt).
Proof.
  cbv zeta. split; [discriminate|].
  assert (forall i, pick_min [([mkArtifact a e (Value.String s) None], Ok tt); ([mkArtifact a e (Value.Bytes s) None], Ok tt)] i None None
                    = Some (S i)) as E.
  { intros i. cbn [pick_min]. cbv zeta. unfold oltb, sort_key. cbn [cmp prod_ord fst snd artifact_the artifact_of].
    by rewrite !(proj2 (cmp_eq _ _) eq_refl). }
  unfold merge_grouped. change (merge_fuel _) with 3%nat.
  rewrite merge_loop_S, E. cbn [lookup list_lookup]. cbv zeta.
  rewrite decide_False by done. rewrite decide_False by set_solver.
  rewrite merge_loop_S. cbn [insert list_insert pick_min lookup list_lookup]. cbv zeta.
  change (group_key (mkArtifact a e (Value.String s) None)) with (group_key (mkArtifact a e (Value.Bytes s) None)).
  rewrite decide_True; [reflexivity|]. rewrite decide_True by done. apply elem_of_union_l, elem_of_singleton. reflexivity.
Qed.
