(* ===== verification/ArtifactDemo.v ===== *)
(** A concrete artifact store: a toy URL parser, a self-delimiting codec for the
    nodes of the artifact tree, and the theorems on artifacts at work on it. *)
From S2P Require Import Prelude Common Nodes SortedEntries Walker TransientTree Instances Batch Persist Read ArtifactTree Artifact ArtifactKeys ArtifactFacts ArtifactTreeCorrect.

#[local] Existing Instances toy_blake3 toy_distribution search_tree search_tree_laws.

(** Non-empty printable strings are URLs. *)
#[local] Program Instance toy_url : Url := {|
  url_parse s := if bool_decide (s <> []) && forallb (in_byte_range 32 126) s then Some s else None
|}.
Next Obligation. intros s u. cbv beta. destruct (_ && _) eqn:E; [|done]. intros [= <-]. by rewrite E. Qed.
Next Obligation.
  intros s u. cbv beta. destruct (_ && _) eqn:E; [|done]. intros [= <-]. apply andb_true_iff in E as [_ E].
  apply Forall_forall. intros b Hb. rewrite forallb_forall in E. by apply E, list_elem_of_In.
Qed.

(** * Self-delimiting encodings *)
Class Wire (A : Type) := {
  wire : A -> bytes;
  unwire : bytes -> option (A * bytes);
  unwire_wire : forall a rest, unwire (wire a ++ rest) = Some (a, rest)
}.
#[local] Program Instance wire_byte : Wire byte := {|
  wire b := [b]; unwire b := match b with x :: rest => Some (x, rest) | [] => None end
|}.
Next Obligation. done. Qed.

Section wires.
Context {A B : Type} `{Wire A} `{Wire B}.

Definition wire_prod_enc (p : A * B) : bytes := wire p.1 ++ wire p.2.
Definition wire_prod_dec (b : bytes) : option (A * B * bytes) :=
  '(x, b) ← unwire b; '(y, b) ← unwire b; Some (x, y, b).
#[local] Program Instance wire_prod : Wire (A * B) := {| wire := wire_prod_enc; unwire := wire_prod_dec |}.
Next Obligation.
  intros [x y] rest. unfold wire_prod_enc, wire_prod_dec. simpl.
  rewrite <- app_assoc, unwire_wire. simpl. by rewrite unwire_wire.
Qed.

Definition wire_option_enc (o : option A) : bytes := match o with Some a => x01 :: wire a | None => [x00] end.
Definition wire_option_dec (b : bytes) : option (option A * bytes) :=
  match b with
  | x00 :: b => Some (None, b)
  | x01 :: b => '(x, b) ← unwire b; Some (Some x, b)
  | _ => None
  end.
#[local] Program Instance wire_option : Wire (option A) := {| wire := wire_option_enc; unwire := wire_option_dec |}.
Next Obligation. intros [x|] rest; simpl; [|done]. by rewrite unwire_wire. Qed.

(** Each element is announced; [fuel] bounds the number read. *)
Definition wire_list_enc (l : list A) : bytes := concat ((fun a => x01 :: wire a) <$> l) ++ [x00].
Fixpoint wire_list_loop (fuel : nat) (b : bytes) : option (list A * bytes) :=
  match fuel, b with
  | S fuel, x01 :: b => '(x, b) ← unwire b; '(l, b) ← wire_list_loop fuel b; Some (x :: l, b)
  | _, x00 :: b => Some ([], b)
  | _, _ => None
  end.
Lemma wire_list_loop_spec (l : list A) fuel rest : (length l <= fuel)%nat ->
  wire_list_loop fuel (wire_list_enc l ++ rest) = Some (l, rest).
Proof.
  unfold wire_list_enc. revert fuel; induction l as [|x l IH]; intros fuel Hf; [by destruct fuel|].
  destruct fuel as [|fuel]; [simpl in Hf; lia|]. csimpl. cbn [app wire_list_loop].
  rewrite <- !app_assoc, unwire_wire. cbn [mbind option_bind]. rewrite app_assoc, IH by (simpl in Hf; lia). done.
Qed.
#[local] Program Instance wire_list : Wire (list A) := {|
  wire := wire_list_enc; unwire b := wire_list_loop (length b) b |}.
Next Obligation.
  intros l rest. apply wire_list_loop_spec. unfold wire_list_enc. rewrite !length_app.
  enough (length l <= length (concat ((fun a => x01 :: wire a) <$> l)))%nat by lia.
  induction l as [|x l IH]; csimpl; [lia|]. rewrite length_app. simpl. lia.
Qed.

(** Along a bijection. *)
Program Definition wire_via {C} (f : C -> A) (g : A -> option C) (Hg : forall c, g (f c) = Some c) : Wire C := {|
  wire c := wire (f c); unwire b := '(a, b) ← unwire b; c ← g a; Some (c, b) |}.
Next Obligation. intros C f g Hg c rest. cbv beta. rewrite unwire_wire. simpl. by rewrite Hg. Qed.
End wires.
#[local] Existing Instances wire_prod wire_option wire_list.

#[local] Instance wire_key : Wire KeyBytes.
Proof. apply (wire_via key_raw (fun b => Some (make_key b))). intros k. f_equal. apply KeyBytes_eq, make_key_raw, key_length. Defined.
#[local] Instance wire_hash : Wire Blake3Hash.
Proof. apply (wire_via as_bytes (fun b => Some (mkBlake3Hash b))). by intros []. Defined.
#[local] Instance wire_datum : Wire Datum.
Proof.
  apply (wire_via (fun d => (datum_entity d, (datum_attribute d, (datum_value_type d, (datum_value d, datum_cause d)))))
           (fun '(e, (a, (t, (v, c)))) => Some (mkDatum e a t v c))).
  by intros [].
Defined.
#[local] Instance wire_state : Wire State.
Proof.
  apply (wire_via (fun s => match s with Added d => Some d | Removed => None end)
           (fun o => Some (match o with Some d => Added d | None => Removed end))).
  by intros [].
Defined.
#[local] Instance wire_link : Wire (Link KeyBytes).
Proof.
  apply (wire_via (fun l => (link_upper_bound l, link_node l)) (fun '(k, h) => Some (mkLink k h))).
  by intros [].
Defined.
#[local] Instance wire_entry : Wire (Entry KeyBytes State).
Proof. apply (wire_via (fun e => (key e, value e)) (fun '(k, v) => Some (mkEntry k v))). by intros []. Defined.
#[local] Instance wire_body : Wire (PersistentNodeBody KeyBytes State).
Proof.
  apply (wire_via (fun b => match b with Index links => (links, None) | Segment entries => ([], Some entries) end)
           (fun '(links, entries) => Some (match entries with Some entries => Segment entries | None => Index links end))).
  by intros [].
Defined.
#[local] Instance artifact_codec : NodeCodec KeyBytes State.
Proof.
  refine {| to_bytes b := Some (wire b);
            access b := match unwire b with Some (body, []) => Some body | _ => None end |}.
  intros body b Eb. assert (b = wire body) as -> by congruence.
  pose proof (unwire_wire body []) as E. rewrite app_nil_r in E. by rewrite E.
Defined.

(** * Two entities, two attributes *)
Definition str (s : string) : bytes := String.list_byte_of_string s.
Definition attribute (s : string) : Attribute :=
  match Attribute_try_from (str s) with Ok a => a | _ => mkAttribute [] [] end.
Definition entity (s : string) : Entity :=
  match Entity_from_str (str s) with Ok e => e | _ => mkEntity (mkUri []) [] end.
Definition person_name : Attribute := attribute "person/name".
Definition person_age : Attribute := attribute "person/age".
Definition alice : Entity := entity "did:key:zAliceAliceAliceAliceAliceAlice".
Definition bob : Entity := entity "id:bob".
Definition alice_name : Artifact := mkArtifact person_name alice (Value.String (str "Alice")) None.
Definition alice_alias : Artifact := mkArtifact person_name alice (Value.String (str "Alicia")) None.
Definition alice_age : Artifact := mkArtifact person_age alice (Value.SignedInt (-1)) None.
Definition bob_name : Artifact := mkArtifact person_name bob (Value.Symbol person_age) None.

Lemma wf_attribute_demo : wf_attribute person_name /\ wf_attribute person_age.
Proof. split; split; vm_compute; reflexivity. Qed.
Lemma wf_entity_demo : wf_entity alice /\ wf_entity bob.
Proof.
  split; [exists (str "did:key:zAliceAliceAliceAliceAliceAlice")|exists (str "id:bob")]; vm_compute; reflexivity.
Qed.
Definition nul_freeb (s : bytes) : bool := forallb (fun b => bool_decide (b <> x00)) s.
Lemma nul_freeb_spec s : nul_freeb s = true -> nul_free s.
Proof.
  unfold nul_freeb, nul_free. rewrite forallb_forall. intros Hs Hin%list_elem_of_In. apply Hs in Hin.
  by apply bool_decide_eq_true in Hin.
Qed.
Lemma storable_demo : Forall storable [alice_name; alice_alias; alice_age; bob_name].
Proof.
  destruct wf_attribute_demo, wf_entity_demo.
  repeat constructor; try done; try (by apply nul_freeb_spec; vm_compute); try (vm_compute; reflexivity).
Qed.

Lemma storable_in_demo artifact : artifact ∈ [alice_name; alice_alias; alice_age; bob_name] -> storable artifact.
Proof. revert artifact. apply Forall_forall, storable_demo. Qed.
Ltac in_list := repeat first [apply list_elem_of_here | apply list_elem_of_further].


(** * The artifact tree *)
Definition demo_fuel : nat := 300.
Lemma demo_null_absent : null_absent no_storage.
Proof. done. Qed.
#[local] Instance demo_tree : OrderedTree KeyBytes State DialogSearchTreeError (TransientRoot KeyBytes State) :=
  search_tree no_storage demo_fuel.
#[local] Instance demo_tree_laws : OrderedTreeLaws KeyBytes State DialogSearchTreeError (TransientRoot KeyBytes State) :=
  search_tree_laws no_storage demo_fuel 4 toy_rank_le ltac:(unfold demo_fuel; lia)
    ltac:(unfold MAXIMUM_TREE_DEPTH; lia) demo_null_absent.

Definition no_facts : TransientRoot KeyBytes State := edit_tree empty_tree.
Lemma no_facts_hold : tree_facts ∅ no_facts.
Proof.
  split; [intros f o; by rewrite lookup_empty|]. split; [constructor|]. exists None. split; [|done].
  unfold load, no_facts, edit_tree. by rewrite decide_True.
Qed.

(** Two names of alice, then a third instruction that replaces them by the first. *)
Definition demo_instructions : list Instruction :=
  [Assert alice_name; Assert alice_alias; Assert alice_age; Assert bob_name; Retract alice_age; Replace alice_alias].
Lemma demo_instructions_storable : Forall storable_instruction demo_instructions.
Proof.
  pose proof storable_in_demo as Hst. repeat (apply Forall_cons; split); try apply Forall_nil;
    cbn [storable_instruction]; first [apply Hst; in_list|apply (Hst alice_age); in_list]; done.
Qed.

Lemma apply_refines_facts_witness :
  exists t', apply_instructions demo_instructions no_facts = Ok t' /\
    holds (index_entries (fold_left apply_fact demo_instructions ∅)) t'.
Proof.
  apply (apply_refines_facts demo_instructions ∅ no_facts).
  - apply no_facts_hold.
  - apply demo_instructions_storable.
  - apply Nat.leb_le. vm_compute. reflexivity.
Defined.

(** ** Hashed strings *)
Definition digests_distinctb (l : list bytes) : bool :=
  let hashed := (fun b => (b, as_bytes (blake3 b))) <$> l in
  forallb (fun p => forallb (fun q => bool_decide (p.2 <> q.2) || bool_decide (p.1 = q.1)) hashed) hashed.
Lemma digests_distinctb_spec l : digests_distinctb l = true -> digests_distinct (fun b => b ∈ l).
Proof.
  unfold digests_distinctb. cbv zeta. rewrite forallb_forall. intros Hall b1 b2 H1 H2 E.
  assert (forall b, b ∈ l -> In (b, as_bytes (blake3 b)) ((fun b => (b, as_bytes (blake3 b))) <$> l)) as Hin.
  { intros b Hb. apply list_elem_of_In, list_elem_of_fmap. eauto. }
  pose proof (Hall _ (Hin b1 H1)) as Hb. rewrite forallb_forall in Hb.
  specialize (Hb _ (Hin b2 H2)). cbn [fst snd] in Hb. rewrite E in Hb.
  apply orb_true_iff in Hb as [Hb|Hb]; by apply bool_decide_eq_true in Hb.
Qed.

Definition demo_artifacts : list Artifact := [alice_name; alice_alias; alice_age; bob_name].
Definition demo_hashed : list bytes := demo_artifacts ≫= hashed.
Lemma demo_distinct : digests_distinct (fun b => b ∈ demo_hashed).
Proof. apply digests_distinctb_spec. vm_compute. reflexivity. Qed.
Lemma demo_hashed_spec artifact : artifact ∈ demo_artifacts -> Forall (fun b => b ∈ demo_hashed) (hashed artifact).
Proof. intros Ha. apply Forall_forall. intros b Hb. apply list_elem_of_bind. eauto. Qed.

Definition demo_facts : Facts := fold_left apply_fact demo_instructions ∅.
Lemma demo_facts_hashed : hashed_in (fun b => b ∈ demo_hashed) demo_facts.
Proof.
  intros f artifact [Ha|Hf]%apply_facts_asserted; [|by rewrite lookup_empty in Hf].
  apply demo_hashed_spec. change (demo_instructions ≫= asserted) with
    [alice_name; alice_alias; alice_age; bob_name; alice_alias] in Ha.
  repeat (apply elem_of_cons in Ha as [->|Ha]; [unfold demo_artifacts; in_list|]).
  by apply not_elem_of_nil in Ha.
Qed.
Lemma demo_facts_hold : exists t, apply_instructions demo_instructions no_facts = Ok t /\ tree_facts demo_facts t.
Proof.
  apply (apply_instructions_facts demo_instructions ∅ no_facts);
    [apply no_facts_hold|apply demo_instructions_storable|apply Nat.leb_le; vm_compute; reflexivity].
Qed.
Lemma demo_facts_fit : (3 * S (size demo_facts) <= capacity (T := TransientRoot KeyBytes State))%nat.
Proof. apply Nat.leb_le. vm_compute. reflexivity. Qed.

(** The names that start with [person/] of entities that start with [did:]. *)
Definition demo_selector : ArtifactSelector :=
  of_starting_with (the_starting_with selector_new (str "person/")) (str "did:").

Lemma scan_exact_witness :
  exists t, apply_instructions demo_instructions no_facts = Ok t /\
  exists l artifacts, scan_index demo_selector = Some l /\
    scan (fun range => tree_stream_range range t) demo_selector = (artifacts, Ok tt) /\
    StronglySorted (before l) artifacts /\
    forall artifact, artifact ∈ artifacts <->
      (exists f, demo_facts !! f = Some (Some artifact)) /\ satisfies demo_selector artifact.
Proof.
  destruct demo_facts_hold as (t & Ha & Ht). exists t. split; [exact Ha|].
  apply (scan_exact (fun b => b ∈ demo_hashed) demo_distinct demo_selector demo_facts t Ht).
  - pose proof demo_facts_fit. lia.
  - apply demo_facts_hashed.
  - constructor.
  - eapply built_of_starting, built_the_starting, built_new.
  - split_and!; intros ? [= <-]; apply nul_freeb_spec; vm_compute; reflexivity.
Defined.

Lemma scan_after_replace_witness :
  exists t, apply_instructions demo_instructions no_facts = Ok t /\
  exists t' a', apply_instructions [Replace alice_name] t = Ok t' /\
    scan (fun range => tree_stream_range range t')
      (selector_of (selector_the selector_new person_name) alice) = ([a'], Ok tt) /\
    artifact_is a' = Value.String (str "Alice") /\
    (a' = alice_name \/ exists f, demo_facts !! f = Some (Some a')).
Proof.
  destruct demo_facts_hold as (t & Ha & Ht). exists t. split; [exact Ha|].
  apply (scan_after_replace (fun b => b ∈ demo_hashed) demo_distinct demo_facts t alice_name Ht).
  - apply demo_facts_fit.
  - apply demo_facts_hashed.
  - apply demo_hashed_spec. in_list.
  - apply storable_in_demo. in_list.
Defined.

(** * Layers

    Queries over a branch and pending changes at work on the demo facts, and the
    selector for which the sources are not in the order the merge relies on. *)
From S2P Require Import Layer LayerCorrect.

#[local] Existing Instances toy_blake3 toy_distribution toy_url.

Lemma demo_facts_wf : wf_facts demo_facts.
Proof. destruct demo_facts_hold as (t & _ & Hwf & _). exact Hwf. Qed.
Definition demo_branch : Facts * (Range KeyBytes -> list (Entry KeyBytes State) * outcome DialogSearchTreeError ()) :=
  (demo_facts, fun range => (in_range range (index_entries demo_facts), Ok tt)).
Lemma demo_branch_ok : branch_of (fun b => b ∈ demo_hashed) demo_branch.
Proof. split_and!; [apply demo_facts_wf|apply demo_facts_hashed|done]. Qed.

(** Alice's alias is retracted, and she is given her name again. *)
Definition demo_changes : Changes :=
  dissociate (associate changes_new person_name alice (Value.String (str "Alice")))
    person_name alice (Value.String (str "Alicia")).
Lemma demo_changes_iter :
  changes_iter demo_changes = [(alice, person_name, Change.Assert (Value.String (str "Alice")));
                               (alice, person_name, Change.Retract (Value.String (str "Alicia")))].
Proof. vm_compute. reflexivity. Qed.
Lemma demo_changes_wf : wf_changes (fun b => b ∈ demo_hashed) demo_changes.
Proof.
  intros e a change Hc. apply elem_of_changes_iter in Hc. rewrite demo_changes_iter in Hc.
  apply elem_of_cons in Hc as [[= -> -> ->]|Hc%list_elem_of_singleton]; [|injection Hc as -> -> ->]; cbv zeta.
  - change (mkArtifact person_name alice (Value.String (str "Alice")) None) with alice_name.
    split; [apply storable_in_demo; in_list|apply demo_hashed_spec; unfold demo_artifacts; in_list].
  - change (mkArtifact person_name alice (Value.String (str "Alicia")) None) with alice_alias.
    split; [apply storable_in_demo; in_list|apply demo_hashed_spec; unfold demo_artifacts; in_list].
Qed.

Lemma demo_known x :
  Exists (fun b : Facts * (Range KeyBytes -> list (Entry KeyBytes State) * outcome DialogSearchTreeError ()) => asserted_in b.1 x) [demo_branch]
    \/ changes_assert demo_changes x -> x ∈ demo_artifacts.
Proof.
  intros [Hx|Hx].
  - apply Exists_cons in Hx as [[f Hf]|?%Exists_nil]; [|done].
    apply apply_facts_asserted in Hf as [Ha|Hf]; [|by rewrite lookup_empty in Hf].
    change (demo_instructions ≫= asserted) with [alice_name; alice_alias; alice_age; bob_name; alice_alias] in Ha.
    repeat (apply elem_of_cons in Ha as [->|Ha]; [unfold demo_artifacts; in_list|]). by apply not_elem_of_nil in Ha.
  - destruct Hx as [Hcause (change & Hc & Hv)]. apply elem_of_changes_iter in Hc. rewrite demo_changes_iter in Hc.
    apply elem_of_cons in Hc as [[= He Ha ->]|Hc%list_elem_of_singleton]; [|injection Hc as _ _ ->; done].
    destruct x as [xa xe xv xc]. simpl in *. injection Hv as <-. subst. unfold demo_artifacts. in_list.
Qed.

Definition name_selector : ArtifactSelector := selector_the selector_new person_name.


Lemma query_select_error_witness :
  Forall (fun s : ArtifactStream => s.2 = Ok tt) [scan demo_branch.2 name_selector].
Proof.
  apply (query_select_error [scan demo_branch.2 name_selector] demo_changes name_selector
    (query_select [scan demo_branch.2 name_selector] demo_changes (tombstones_from demo_changes) name_selector).1).
  vm_compute. reflexivity.
Defined.

(** * Entity prefixes *)
Definition carol : Entity := entity "did:carol".
Definition dave : Entity := entity "did:dave".
Definition carol_name : Artifact := mkArtifact person_name carol (Value.Boolean true) None.
Definition dave_age : Artifact := mkArtifact person_age dave (Value.Boolean true) None.
Definition did_selector : ArtifactSelector := of_starting_with selector_new (str "did:").
Definition prefix_changes : Changes :=
  associate (associate (associate changes_new person_name carol (Value.Boolean true)) person_age dave (Value.Boolean true))
    person_name bob (Value.Boolean true).

(** The merge relies on every source answering in the order of sort keys, but
    for an entity prefix a branch answers in the order of the entity index, and
    pending changes are not filtered by the prefix at all: a query for the
    entities that start with [did:] yields both artifacts twice and one of
    [id:bob]. *)
Theorem entity_prefix_query_repeats :
  let facts := fold_left apply_fact [Assert carol_name; Assert dave_age] ∅ in
  query_select [scan (fun range => (in_range range (index_entries facts), Ok tt)) did_selector]
    prefix_changes (tombstones_from prefix_changes) did_selector
  = ([dave_age; carol_name; dave_age; carol_name; mkArtifact person_name bob (Value.Boolean true) None], Ok tt) /\
  ~ satisfies did_selector (mkArtifact person_name bob (Value.Boolean true) None).
Proof.
  cbv zeta. split; [|intros (_ & _ & _ & _ & Hp); by specialize (Hp _ eq_refl)].
  vm_compute. reflexivity.
Qed.
