(* ===== verification/Ipld.v ===== *)
(** The data that UCANs carry (rust/dialog-ucan-core/src: ipld.rs, collection.rs,
    number.rs, promise.rs): IPLD values, the collections and numbers selected from
    them, and values that still wait for a promise. *)
From Stdlib Require Import Floats.SpecFloat.
From S2P Require Import Prelude.

(** * Strings, ordered maps and doubles of the Rust standard library *)

(** A [char] is its Unicode scalar value and a [String] the list of its chars;
    strings compare by their UTF-8 bytes, which is the order of the lists. *)
Abbreviation char := N.
Abbreviation str := (list N).
Definition lit (s : string) : str := Ascii.N_of_ascii <$> String.list_ascii_of_string s.

(** [Iterator::try_fold]. *)
Section try_fold.
Context {E A B : Type} (f : B -> A -> outcome E B).
Fixpoint try_fold (acc : B) (l : list A) : outcome E B :=
  match l with
  | [] => Ok acc
  | a :: l => acc ← f acc a; try_fold acc l
  end.
End try_fold.

(** [BTreeMap<String, A>]: its bindings in ascending order of the keys. *)
Abbreviation btree A := (list (str * A)).
Fixpoint bt_get {A} (k : str) (m : btree A) : option A :=
  match m with
  | [] => None
  | (k', a) :: m => if decide (k' = k) then Some a else bt_get k m
  end.
Fixpoint bt_insert {A} (k : str) (a : A) (m : btree A) : btree A :=
  match m with
  | [] => [(k, a)]
  | (k', a') :: m =>
      match cmp k k' with
      | Lt => (k, a) :: (k', a') :: m
      | Eq => (k, a) :: m
      | Gt => (k', a') :: bt_insert k a m
      end
  end.
(** [m.into_iter().map(|(k, v)| (k, f(v))).collect()]. *)
Definition bt_map {A B} (f : A -> B) (m : btree A) : btree B :=
  foldl (fun map '(k, v) => bt_insert k (f v) map) [] m.
Definition bt_sorted {A} (m : btree A) : Prop := StronglySorted olt m.*1.

(** Slices and maps are equal when they have the same length and equal elements. *)
Definition all2 {A B} (f : A -> B -> bool) : list A -> list B -> bool :=
  fix go xs ys :=
    match xs, ys with
    | [], [] => true
    | x :: xs, y :: ys => f x y && go xs ys
    | _, _ => false
    end.

(** [f64]; the comparison is [f64::partial_cmp]. *)
Abbreviation f64 := spec_float.
Definition i128_MAX : Z := 2 ^ 127 - 1.
Definition i128_MIN : Z := - 2 ^ 127.
(** [i as f64] rounds to the nearest even mantissa. *)
Definition f64_of_int (i : Z) : f64 := binary_normalize 53 1024 i 0 false.
(** [f as i128] truncates and saturates; it is zero for a NaN. *)
Definition int_of_f64 (f : f64) : Z :=
  match f with
  | S754_zero _ | S754_nan => 0
  | S754_infinity s => if s then i128_MIN else i128_MAX
  | S754_finite s m e =>
      let magnitude := if decide (0 <= e)%Z then (Zpos m * 2 ^ e)%Z else (Zpos m / 2 ^ (- e))%Z in
      if s then Z.max i128_MIN (- magnitude) else Z.min i128_MAX magnitude
  end.
(** [f64::MAX as i128] and [f64::MIN as i128] saturate. *)
Definition f64_MAX_int : Z := i128_MAX.
Definition f64_MIN_int : Z := i128_MIN.
(** [!f.is_nan() && !f.is_infinite() && f.fract() == 0.0]. *)
Definition f64_whole (f : f64) : bool :=
  match f with
  | S754_zero _ => true
  | S754_infinity _ | S754_nan => false
  | S754_finite _ m e => bool_decide (0 <= e)%Z || bool_decide (Zpos m `mod` 2 ^ (- e) = 0)%Z
  end.

(** * IPLD *)

(** [Cid]: content identifiers are compared and copied only. *)
Record Cid := mkCid { cid_bytes : bytes }.
#[export] Instance Cid_eq_dec : EqDecision Cid.
Proof. solve_decision. Defined.
#[export] Instance Cid_countable : Countable Cid.
Proof. by apply (inj_countable' cid_bytes mkCid); intros []. Defined.

Module Ipld.
Inductive t :=
  | Null
  | Bool (b : bool)
  | Integer (i : Z)
  | Float (f : f64)
  | String (s : str)
  | Bytes (b : bytes)
  | List (xs : list t)
  | Map (m : btree t)
  | Link (c : Cid).

(** [PartialEq]: a NaN differs from itself. *)
Fixpoint eqb (a b : t) : bool :=
  match a, b with
  | Null, Null => true
  | Bool x, Bool y => Bool.eqb x y
  | Integer x, Integer y => Z.eqb x y
  | Float x, Float y => SFeqb x y
  | String x, String y => bool_decide (x = y)
  | Bytes x, Bytes y => bool_decide (x = y)
  | List xs, List ys => all2 eqb xs ys
  | Map xs, Map ys =>
      all2 (fun '(k, x) '(k', y) => bool_decide (k = k') && eqb x y) xs ys
  | Link x, Link y => bool_decide (x = y)
  | _, _ => false
  end.

(** Induction with a hypothesis for every element of a list or map. *)
Section induction.
Context (P : t -> Prop).
Context (HNull : P Null) (HBool : forall b, P (Bool b)) (HInteger : forall i, P (Integer i))
  (HFloat : forall f, P (Float f)) (HString : forall s, P (String s)) (HBytes : forall b, P (Bytes b))
  (HList : forall xs, Forall P xs -> P (List xs)) (HMap : forall m, Forall P m.*2 -> P (Map m))
  (HLink : forall c, P (Link c)).
Fixpoint nested_ind (x : t) : P x :=
  match x with
  | Null => HNull
  | Bool b => HBool b
  | Integer i => HInteger i
  | Float f => HFloat f
  | String s => HString s
  | Bytes b => HBytes b
  | List xs =>
      HList xs ((fix go xs : Forall P xs :=
        match xs with [] => Forall_nil_2 P | x :: xs => Forall_cons_2 P x xs (nested_ind x) (go xs) end) xs)
  | Map m =>
      HMap m ((fix go m : Forall P m.*2 :=
        match m return Forall P m.*2 with
        | [] => Forall_nil_2 P
        | (_, x) :: m => Forall_cons_2 P x m.*2 (nested_ind x) (go m)
        end) m)
  | Link c => HLink c
  end.
End induction.
End Ipld.
Abbreviation Ipld := Ipld.t.

(** * Collections *)
Module Collection.
Inductive t := Array (xs : list Ipld) | Map (m : btree Ipld).

(** [From<&Collection> for Vec<&Ipld>], which [to_vec] is. *)
Definition to_vec (c : t) : list Ipld :=
  match c with Array xs => xs | Map m => m.*2 end.
Definition is_empty (c : t) : bool :=
  match c with
  | Array xs => bool_decide (xs = @nil Ipld)
  | Map m => bool_decide (length m = 0%nat)
  end.

(** [FromIterator<Ipld>]: maps are merged; the first other item ends the loop. *)
Definition from_iter (items : list Ipld) : t :=
  (fix go (map : btree Ipld) (items : list Ipld) : t :=
    match items with
    | [] => Map map
    | Ipld.Map m :: items => go (foldl (fun map '(k, v) => bt_insert k v map) map m) items
    | item :: _ => Array [item]
    end) [] items.

(** [From<Collection> for Ipld]. *)
Definition to_ipld (c : t) : Ipld :=
  match c with Array xs => Ipld.List xs | Map m => Ipld.Map m end.
End Collection.

(** * Numbers *)
Module Number.
Inductive t := Float (f : f64) | Integer (i : Z).

(** [PartialOrd for Number]. *)
Definition partial_cmp (a b : t) : option comparison :=
  match a, b with
  | Float a, Float b => SFcompare a b
  | Integer a, Integer b => Some (Z.compare a b)
  | Float a, Integer b =>
      if decide (f64_MAX_int < b)%Z then Some Lt
      else if decide (b < f64_MIN_int)%Z then Some Gt
      else SFcompare a (f64_of_int b)
  | Integer a, Float b =>
      if decide (f64_MAX_int < a)%Z then Some Gt
      else if decide (a < f64_MIN_int)%Z then Some Lt
      else SFcompare (f64_of_int a) b
  end.
Definition gt (a b : t) : bool := match partial_cmp a b with Some Gt => true | _ => false end.
Definition ge (a b : t) : bool := match partial_cmp a b with Some (Gt | Eq) => true | _ => false end.
Definition lt (a b : t) : bool := match partial_cmp a b with Some Lt => true | _ => false end.
Definition le (a b : t) : bool := match partial_cmp a b with Some (Lt | Eq) => true | _ => false end.

(** [From<Number> for Ipld] and [TryFrom<Ipld> for Number]; the error is the value. *)
Definition to_ipld (n : t) : Ipld :=
  match n with Float f => Ipld.Float f | Integer i => Ipld.Integer i end.
Definition try_from (ipld : Ipld) : outcome Ipld t :=
  match ipld with
  | Ipld.Integer i => Ok (Integer i)
  | Ipld.Float f => Ok (Float f)
  | _ => Err ipld
  end.
End Number.

(** * Values that may wait for a promise *)
Inductive WaitingOn :=
  | WaitingOn_WaitOk (c : Cid)
  | WaitingOn_WaitErr (c : Cid)
  | WaitingOn_WaitAny (c : Cid).

Module Promised.
Inductive t :=
  | Null
  | Bool (b : bool)
  | Integer (i : Z)
  | Float (f : f64)
  | String (s : str)
  | Bytes (b : bytes)
  | Link (c : Cid)
  | WaitOk (c : Cid)
  | WaitErr (c : Cid)
  | WaitAny (c : Cid)
  | List (xs : list t)
  | Map (m : btree t).

(** [promise::from_ipld], through which a [Promised] is deserialized: a map of
    one promise key whose value is a link is a promise. *)
Fixpoint from_ipld (ipld : Ipld) : t :=
  match ipld with
  | Ipld.Null => Null
  | Ipld.Bool b => Bool b
  | Ipld.Integer i => Integer i
  | Ipld.Float f => Float f
  | Ipld.String s => String s
  | Ipld.Bytes b => Bytes b
  | Ipld.Link c => Link c
  | Ipld.List l => List (from_ipld <$> l)
  | Ipld.Map m =>
      let resolved := Map (bt_map from_ipld m) in
      if decide (length m = 1%nat) then
        match bt_get (lit "ucan/await/ok") m, bt_get (lit "ucan/await/err") m,
              bt_get (lit "ucan/await/*") m with
        | Some (Ipld.Link cid), _, _ => WaitOk cid
        | _, Some (Ipld.Link cid), _ => WaitErr cid
        | _, _, Some (Ipld.Link cid) => WaitAny cid
        | _, _, _ => resolved
        end
      else resolved
  end.

(** [TryFrom<&Promised> for Ipld]: fails on the first promise it meets. *)
Fixpoint to_ipld (promised : t) : outcome WaitingOn Ipld :=
  match promised with
  | Null => Ok Ipld.Null
  | Bool b => Ok (Ipld.Bool b)
  | Integer i => Ok (Ipld.Integer i)
  | Float f => Ok (Ipld.Float f)
  | String s => Ok (Ipld.String s)
  | Bytes b => Ok (Ipld.Bytes b)
  | Link c => Ok (Ipld.Link c)
  | WaitOk c => Err (WaitingOn_WaitOk c)
  | WaitErr c => Err (WaitingOn_WaitErr c)
  | WaitAny c => Err (WaitingOn_WaitAny c)
  | List l =>
      resolved ← try_fold (fun resolved item => x ← to_ipld item; Ok (resolved ++ [x])) [] l;
      Ok (Ipld.List resolved)
  | Map m =>
      resolved ← try_fold (fun resolved '(k, v) => x ← to_ipld v; Ok (bt_insert k x resolved)) [] m;
      Ok (Ipld.Map resolved)
  end.

(** [ipld_to_promised] (rust/dialog-ucan/src/scope.rs and parameters.rs), with
    which arguments are made: no map is read as a promise. *)
Fixpoint ipld_to_promised (ipld : Ipld) : t :=
  match ipld with
  | Ipld.Null => Null
  | Ipld.Bool b => Bool b
  | Ipld.Integer i => Integer i
  | Ipld.Float f => Float f
  | Ipld.String s => String s
  | Ipld.Bytes b => Bytes b
  | Ipld.Link c => Link c
  | Ipld.List l => List (ipld_to_promised <$> l)
  | Ipld.Map m => Map (bt_map ipld_to_promised m)
  end.
End Promised.
Abbreviation Promised := Promised.t.

(** Maps with ascending keys, at every depth. *)
Fixpoint ipld_sorted (x : Ipld) : Prop :=
  match x with
  | Ipld.List xs => foldr (fun x P => ipld_sorted x /\ P) True xs
  | Ipld.Map m => bt_sorted m /\ foldr (fun kv P => ipld_sorted kv.2 /\ P) True m
  | _ => True
  end.

(** ** Ordered maps *)
Lemma bt_insert_last {A} k (a : A) m :
  Forall (fun k' => k' ≺ k) m.*1 -> bt_insert k a m = m ++ [(k, a)].
Proof.
  induction m as [|[k' a'] m IH]; [done|]. rewrite fmap_cons. intros [Hk Hm]%Forall_cons. cbn [fst bt_insert] in *.
  destruct (cmp k k') eqn:E; [order|order|]. by rewrite IH.
Qed.

(** Collecting the bindings of an ordered map keeps their order. *)
Lemma bt_collect {A B} (f : A -> B) (m : btree A) (m' : btree B) :
  StronglySorted olt (m'.*1 ++ m.*1) ->
  foldl (fun map '(k, v) => bt_insert k (f v) map) m' m = m' ++ (prod_map id f <$> m).
Proof.
  revert m'; induction m as [|[k a] m IH]; intros m' HS; csimpl; [by rewrite app_nil_r|].
  rewrite bt_insert_last.
  - rewrite IH; [by rewrite <- app_assoc|]. rewrite fmap_app; csimpl. by rewrite <- app_assoc.
  - apply Forall_forall. intros k' Hk'. eapply StronglySorted_app_1_elem_of; [done|done|].
    csimpl. set_solver.
Qed.

Lemma bt_map_sorted {A B} (f : A -> B) m : bt_sorted m -> bt_map f m = prod_map id f <$> m.
Proof. intros HS. unfold bt_map. by rewrite bt_collect. Qed.

(** A fallible fold that appends. *)
Lemma try_fold_collect {E A B} (f : A -> outcome E B) l bs acc :
  Forall2 (fun a b => f a = Ok b) l bs ->
  try_fold (fun acc a => b ← f a; Ok (acc ++ [b])) acc l = Ok (acc ++ bs).
Proof.
  intros Hl; revert acc; induction Hl as [|a b l bs Ha Hl IH]; intros acc; csimpl; [by rewrite app_nil_r|].
  rewrite Ha; csimpl. by rewrite IH, <- app_assoc.
Qed.

Lemma try_fold_bt {E A B} (f : A -> outcome E B) (m : btree A) (m' acc : btree B) :
  Forall2 (fun a b => a.1 = b.1 /\ f a.2 = Ok b.2) m m' ->
  StronglySorted olt (acc.*1 ++ m.*1) ->
  try_fold (fun acc '(k, v) => x ← f v; Ok (bt_insert k x acc)) acc m = Ok (acc ++ m').
Proof.
  intros Hm; revert acc. induction Hm as [|[k a] [k' b] m m' [Hk Ha] Hm IH]; intros acc HS; csimpl in *;
    [by rewrite app_nil_r|]. subst k'.
  rewrite Ha; csimpl. rewrite bt_insert_last.
  - rewrite IH; [by rewrite <- app_assoc|]. rewrite fmap_app; csimpl. by rewrite <- app_assoc.
  - apply Forall_forall. intros k' Hk'. eapply StronglySorted_app_1_elem_of; [done|done|set_solver].
Qed.

(** ** Arguments are resolved to the parameters they were made from *)
Lemma ipld_sorted_list xs : ipld_sorted (Ipld.List xs) <-> Forall ipld_sorted xs.
Proof. cbn [ipld_sorted]. induction xs as [|x xs IH]; csimpl; [done|]. by rewrite Forall_cons, IH. Qed.
Lemma ipld_sorted_map m : ipld_sorted (Ipld.Map m) <-> bt_sorted m /\ Forall ipld_sorted m.*2.
Proof.
  cbn [ipld_sorted]. f_equiv. induction m as [|[k x] m IH]; csimpl; [done|]. by rewrite Forall_cons, IH.
Qed.

Lemma promised_roundtrip x : ipld_sorted x -> Promised.to_ipld (Promised.ipld_to_promised x) = Ok x.
Proof.
  induction x as [|b|i|f|s|b|xs IH|m IH|c] using Ipld.nested_ind; intros HS; try done.
  - apply ipld_sorted_list in HS. cbn [Promised.ipld_to_promised Promised.to_ipld].
    rewrite (try_fold_collect Promised.to_ipld _ xs); [done|].
    apply Forall2_fmap_l, Forall_Forall2_diag, Forall_forall. intros x Hx. rewrite Forall_forall in IH, HS. auto.
  - apply ipld_sorted_map in HS as [HS Hm]. cbn [Promised.ipld_to_promised Promised.to_ipld].
    rewrite bt_map_sorted by done.
    rewrite (try_fold_bt Promised.to_ipld _ m []); [done| |].
    + apply Forall2_fmap_l, Forall_Forall2_diag, Forall_forall. intros [k x] Hx; csimpl. split; [done|].
      rewrite Forall_forall in IH, Hm. apply IH; [|apply Hm]; by apply (list_elem_of_fmap_2 snd) in Hx.
    + csimpl. rewrite <- list_fmap_compose. by erewrite list_fmap_ext; [apply HS|by intros ? []].
Qed.
