(* ===== verification/Predicate.v ===== *)
(** Selecting values from IPLD (rust/dialog-ucan-core/src/delegation/policy:
    selector.rs, selector/{filter,select,selectable,error}.rs): a selector is a
    path of filters, and selection folds them over a value; and the predicates
    of policies over what is selected (policy/predicate.rs). *)
From S2P Require Import Prelude Ipld.

(** [Filter]. *)
Module Filter.
Inductive t :=
  | ArrayIndex (i : Z)
  | Field (k : str)
  | Values
  | Try (inner : t).

(** [Filter::is_in]. *)
Fixpoint is_in (self other : t) : bool :=
  match self, other with
  | ArrayIndex a, ArrayIndex b => Z.eqb a b
  | Field a, Field b => bool_decide (a = b)
  | Values, Values => true
  | ArrayIndex _, Values => true
  | Field _, Values => true
  | Try a, Try b => is_in a b
  | _, _ => false
  end.
End Filter.
Abbreviation Filter := Filter.t.
#[export] Instance Filter_eq_dec : EqDecision Filter.
Proof. solve_decision. Defined.

(** [Selector]; [Select<T>] holds the same filters. *)
Abbreviation Selector := (list Filter).

(** [Selector::is_related]: the filters agree as far as both go. *)
Definition is_related (self other : Selector) : bool :=
  forallb (fun '(a, b) => bool_decide (a = b)) (zip self other).

(** [<[T]>::starts_with]. *)
Definition slice_starts_with {A} `{EqDecision A} (l prefix : list A) : bool :=
  bool_decide (take (length prefix) l = prefix).

(** [PartialOrd for Selector]. *)
Definition selector_partial_cmp (self other : Selector) : option comparison :=
  if decide (self = other) then Some Eq
  else if slice_starts_with self other then Some Gt
  else if slice_starts_with other self then Some Lt
  else None.

(** [SelectorErrorReason] and [SelectorError]. *)
Inductive SelectorErrorReason :=
  | IndexOutOfBounds | KeyNotFound | NotAList | NotAMap | NotACollection | NotANumber | NotAString.
Record SelectorError := from_refs { error_selector : Selector; error_reason : SelectorErrorReason }.

(** [Selectable]. *)
Class Selectable (T : Type) := try_select : Ipld -> outcome SelectorErrorReason T.
#[export] Instance select_ipld : Selectable Ipld := fun ipld => Ok ipld.
#[export] Instance select_number : Selectable Number.t := fun ipld =>
  match ipld with
  | Ipld.Integer i => Ok (Number.Integer i)
  | Ipld.Float f => Ok (Number.Float f)
  | _ => Err NotANumber
  end.
#[export] Instance select_string : Selectable str := fun ipld =>
  match ipld with Ipld.String s => Ok s | _ => Err NotAString end.
#[export] Instance select_collection : Selectable Collection.t := fun ipld =>
  match ipld with
  | Ipld.List xs =>
      xs ← try_fold (fun acc v => x ← try_select (T := Ipld) v; Ok (acc ++ [x])) [] xs;
      Ok (Collection.Array xs)
  | Ipld.Map m =>
      m ← try_fold (fun map '(k, v) => value ← try_select (T := Ipld) v; Ok (bt_insert k value map)) [] m;
      Ok (Collection.Map m)
  | _ => Err NotACollection
  end.

Definition i32_MAX : Z := 2 ^ 31 - 1.

(** ** [Select::get] *)

(** What the fold has reached: the focused value, the filters seen so far and
    whether a [Try] was among them; a failure says the latter too. *)
Record Focus := mkFocus { focused : Ipld; seen_ops : Selector; is_try : bool }.
Definition fails {A} (focus : Focus) (reason : SelectorErrorReason) : outcome (bool * SelectorError) A :=
  Err (is_try focus, from_refs (seen_ops focus) reason).

(** The arm for [Filter::ArrayIndex]. *)
Definition get_index (i : Z) (focus : Focus) : outcome (bool * SelectorError) Ipld :=
  match focused focus with
  | Ipld.List xs =>
      if decide (i32_MAX < Z.of_nat (length xs))%Z then fails focus IndexOutOfBounds
      else if decide (Z.of_nat (length xs) < Z.abs i)%Z then fails focus IndexOutOfBounds
      else
        let idx := if decide (i <= 0)%Z then Z.to_nat (Z.abs i) else (length xs - Z.to_nat (Z.abs i))%nat in
        match xs !! idx with
        | Some x => Ok x
        | None => fails focus IndexOutOfBounds
        end
  | _ => fails focus NotAList
  end.

(** The arms for [Filter::Field] and [Filter::Values]. *)
Definition get_field (k : str) (focus : Focus) : outcome (bool * SelectorError) Ipld :=
  match focused focus with
  | Ipld.Map xs => match bt_get k xs with Some x => Ok x | None => fails focus KeyNotFound end
  | _ => fails focus NotAMap
  end.
Definition get_values (focus : Focus) : outcome (bool * SelectorError) Ipld :=
  match focused focus with
  | Ipld.List xs => Ok (Ipld.List xs)
  | Ipld.Map xs => Ok (Ipld.List xs.*2)
  | _ => fails focus NotACollection
  end.

(** The end of [get]: after a [Try] a failure is a null. *)
Definition settle (got : outcome (bool * SelectorError) Focus) : outcome SelectorError (Ipld * Selector) :=
  match got with
  | Ok focus => Ok (focused focus, seen_ops focus)
  | Err (true, e) => Ok (Ipld.Null, error_selector e)
  | Err (false, e) => Err e
  | Panic m => Panic m
  | OutOfFuel => OutOfFuel
  end.

(** One step of the fold.  [Try] evaluates [Select::new(vec![inner]).get(ctx)],
    a fold of one step, on the value that the whole selection started from. *)
Fixpoint get_step (ctx : Ipld) (op : Filter) (focus : Focus) : outcome (bool * SelectorError) Focus :=
  let focus := mkFocus (focused focus) (seen_ops focus ++ [op]) (is_try focus) in
  match op with
  | Filter.Try inner =>
      let ipld :=
        match settle (get_step ctx inner (mkFocus ctx [] false)) with
        | Ok (ipld, _) => ipld
        | _ => Ipld.Null
        end in
      Ok (mkFocus ipld (seen_ops focus) true)
  | Filter.ArrayIndex i => result ← get_index i focus; Ok (mkFocus result (seen_ops focus) (is_try focus))
  | Filter.Field k => result ← get_field k focus; Ok (mkFocus result (seen_ops focus) (is_try focus))
  | Filter.Values => result ← get_values focus; Ok (mkFocus result (seen_ops focus) (is_try focus))
  end.

Definition get {T} `{Selectable T} (filters : Selector) (ctx : Ipld) : outcome SelectorError T :=
  '(ipld, path) ← settle (try_fold (fun focus op => get_step ctx op focus) (mkFocus ctx [] false) filters);
  map_err (from_refs path) (try_select ipld).

(** ** Basic facts *)

(** [get] has exactly the outcomes of a [Result]. *)
Definition is_result {E A} (o : outcome E A) : bool :=
  match o with Ok _ | Err _ => true | _ => false end.

Lemma is_result_bind {E A B} (o : outcome E A) (k : A -> outcome E B) :
  is_result o = true -> (forall a, o = Ok a -> is_result (k a) = true) -> is_result (o ≫= k) = true.
Proof. destruct o; csimpl; eauto. Qed.
Lemma is_result_map_err {E F A} (f : E -> F) (o : outcome E A) :
  is_result (map_err f o) = is_result o.
Proof. by destruct o. Qed.
Lemma is_result_try_fold {E A B} (f : B -> A -> outcome E B) acc l :
  (forall acc a, a ∈ l -> is_result (f acc a) = true) -> is_result (try_fold f acc l) = true.
Proof.
  revert acc; induction l as [|a l IH]; intros acc Hf; csimpl; [done|].
  apply is_result_bind; [apply Hf; set_solver|]. intros b _. apply IH. intros; apply Hf; set_solver.
Qed.

Lemma is_result_settle got : is_result got = true -> is_result (settle got) = true.
Proof. by destruct got as [?|[[] ?]|?|]. Qed.

Lemma get_step_result ctx op focus : is_result (get_step ctx op focus) = true.
Proof.
  destruct op; csimpl; try done; apply is_result_bind; try done;
    unfold get_index, get_field, get_values, fails; repeat case_match; done.
Qed.

Lemma try_select_result {T} `{Selectable T} filters ctx :
  (forall x, is_result (try_select (T := T) x) = true) -> is_result (get (T := T) filters ctx) = true.
Proof.
  intros Hsel. apply is_result_bind.
  - apply is_result_settle, is_result_try_fold. intros; apply get_step_result.
  - intros [x p] _. by rewrite is_result_map_err.
Qed.

(** A collection holds the elements of the value it is selected from. *)
Lemma try_fold_copy {A E} (l acc : list A) :
  try_fold (E := E) (fun acc v => x ← Ok v; Ok (acc ++ [x])) acc l = Ok (acc ++ l).
Proof.
  revert acc; induction l as [|x l IH]; intros acc; csimpl; [by rewrite app_nil_r|].
  rewrite IH. by rewrite <- app_assoc.
Qed.
Lemma select_collection_list xs :
  select_collection (Ipld.List xs) = Ok (Collection.Array xs).
Proof. unfold select_collection, try_select, select_ipld. by rewrite try_fold_copy. Qed.
Lemma select_collection_map m :
  bt_sorted m -> select_collection (Ipld.Map m) = Ok (Collection.Map m).
Proof.
  intros HS. unfold select_collection, try_select, select_ipld.
  rewrite (try_fold_bt (fun v => Ok v) m m []); [done| |done].
  apply Forall_Forall2_diag, Forall_forall. by intros [].
Qed.

(** * Predicates

    Policy predicates (rust/dialog-ucan-core/src/delegation/policy/predicate.rs):
    running a predicate against the arguments of an invocation, and the glob
    patterns of [like]. *)
From Stdlib Require Import Floats.SpecFloat.

(** * Glob patterns *)

(** [str::split_once]: around the first occurrence. *)
Fixpoint split_once (frag s : str) : option (str * str) :=
  if slice_starts_with s frag then Some ([], drop (length frag) s)
  else
    match s with
    | [] => None
    | c :: s => prod_map (cons c) id <$> split_once frag s
    end.

Definition STAR : char := 42%N.
Definition BACKSLASH : char := 92%N.

(** One char of the fold that splits a pattern at its stars; the state is
    [(saw_escape, acc, working)]. *)
Definition parse_char (state : bool * list str * str) (c : char) : bool * list str * str :=
  let '(saw_escape, acc, working) := state in
  if decide (c = STAR) then
    if saw_escape then (false, acc, working ++ [STAR])
    else (false, acc ++ [working], [])
  else if decide (c = BACKSLASH) then
    (true, acc, if saw_escape then working ++ [BACKSLASH] else working)
  else
    (false, acc, (if saw_escape then working ++ [BACKSLASH] else working) ++ [c]).
Definition parse_pattern (pattern : str) : list str :=
  let '(saw_escape, patterns, working) := foldl parse_char (false, [], []) pattern in
  patterns ++ [if saw_escape then working ++ [BACKSLASH] else working].

(** [starts_with('*')] and [ends_with('*')]. *)
Definition starts_with_star (pattern : str) : bool := bool_decide (head pattern = Some STAR).
Definition ends_with_star (pattern : str) : bool := bool_decide (last pattern = Some STAR).

(** [glob]. *)
Definition glob (input pattern : str) : bool :=
  if decide (pattern = []) then bool_decide (input = [])
  else
    let patterns := parse_pattern pattern in
    is_ok (try_fold (fun acc '(idx, pattern_frag) =>
      match split_once pattern_frag acc with
      | Some (pre, post) =>
          if bool_decide (idx = 0%nat) && negb (starts_with_star pattern) && negb (bool_decide (pre = [])) then Err tt
          else if bool_decide (idx = length patterns - 1)%nat && negb (ends_with_star pattern)
                  && negb (bool_decide (post = [])) then Err tt
          else Ok post
      | None => Err tt
      end) input (imap pair patterns)).

(** * Predicates *)
Module Predicate.
Inductive t :=
  | Equal (lhs : Selector) (rhs : Ipld)
  | GreaterThan (lhs : Selector) (rhs : Number.t)
  | GreaterThanOrEqual (lhs : Selector) (rhs : Number.t)
  | LessThan (lhs : Selector) (rhs : Number.t)
  | LessThanOrEqual (lhs : Selector) (rhs : Number.t)
  | Like (lhs : Selector) (rhs : str)
  | Not (inner : t)
  | And (inner : list t)
  | Or (inner : list t)
  | All (selector : Selector) (p : t)
  | Any (selector : Selector) (p : t).

(** Induction with a hypothesis for every predicate of a conjunction or
    disjunction. *)
Section induction.
Context (P : t -> Prop).
Context (HEqual : forall l r, P (Equal l r)) (HGt : forall l r, P (GreaterThan l r))
  (HGe : forall l r, P (GreaterThanOrEqual l r)) (HLt : forall l r, P (LessThan l r))
  (HLe : forall l r, P (LessThanOrEqual l r)) (HLike : forall l r, P (Like l r))
  (HNot : forall p, P p -> P (Not p)) (HAnd : forall ps, Forall P ps -> P (And ps))
  (HOr : forall ps, Forall P ps -> P (Or ps))
  (HAll : forall s p, P p -> P (All s p)) (HAny : forall s p, P p -> P (Any s p)).
Fixpoint nested_ind (p : t) : P p :=
  let go := fix go ps : Forall P ps :=
    match ps with [] => Forall_nil_2 P | p :: ps => Forall_cons_2 P p ps (nested_ind p) (go ps) end in
  match p with
  | Equal l r => HEqual l r
  | GreaterThan l r => HGt l r
  | GreaterThanOrEqual l r => HGe l r
  | LessThan l r => HLt l r
  | LessThanOrEqual l r => HLe l r
  | Like l r => HLike l r
  | Not p => HNot p (nested_ind p)
  | And ps => HAnd ps (go ps)
  | Or ps => HOr ps (go ps)
  | All s p => HAll s p (nested_ind p)
  | Any s p => HAny s p (nested_ind p)
  end.
End induction.
End Predicate.
Abbreviation Predicate := Predicate.t.

(** [RunError]. *)
Inductive RunError :=
  | CannotCompareNonwholeFloatToInt
  | CannotCompareNaNs
  | RunError_SelectorError (e : SelectorError).

(** The comparison of [Predicate::Equal]: an integer equals a whole float. *)
Definition run_equal (focused_data rhs_data : Ipld) : outcome RunError bool :=
  match focused_data, rhs_data with
  | Ipld.Integer int, Ipld.Float float | Ipld.Float float, Ipld.Integer int =>
      if f64_whole float then Ok (Z.eqb int (int_of_f64 float))
      else Err CannotCompareNonwholeFloatToInt
  | _, _ => Ok (Ipld.eqb focused_data rhs_data)
  end.

Definition select {T} `{Selectable T} (selector : Selector) (data : Ipld) : outcome RunError T :=
  map_err RunError_SelectorError (get (T := T) selector data).

(** [Predicate::run]. *)
Fixpoint run (self : Predicate) (data : Ipld) : outcome RunError bool :=
  match self with
  | Predicate.Equal lhs rhs_data => focused_data ← select (T := Ipld) lhs data; run_equal focused_data rhs_data
  | Predicate.GreaterThan lhs rhs_data => n ← select (T := Number.t) lhs data; Ok (Number.gt n rhs_data)
  | Predicate.GreaterThanOrEqual lhs rhs_data => n ← select (T := Number.t) lhs data; Ok (Number.ge n rhs_data)
  | Predicate.LessThan lhs rhs_data => n ← select (T := Number.t) lhs data; Ok (Number.lt n rhs_data)
  | Predicate.LessThanOrEqual lhs rhs_data => n ← select (T := Number.t) lhs data; Ok (Number.le n rhs_data)
  | Predicate.Like lhs rhs_data => s ← select (T := str) lhs data; Ok (glob s rhs_data)
  | Predicate.Not inner => b ← run inner data; Ok (negb b)
  | Predicate.And inner => try_fold (fun (acc : bool) p => if acc then run p data else Ok false) true inner
  | Predicate.Or inner =>
      match inner with
      | [] => Ok true
      | _ => try_fold (fun (acc : bool) p => if acc then Ok true else run p data) false inner
      end
  | Predicate.All selector p =>
      focus ← select (T := Collection.t) selector data;
      try_fold (fun (acc : bool) each_datum => if acc then run p each_datum else Ok false) true (Collection.to_vec focus)
  | Predicate.Any selector p =>
      focus ← select (T := Collection.t) selector data;
      if Collection.is_empty focus then Ok true
      else
        try_fold (fun (acc : bool) each_datum => if acc then Ok true else run p each_datum) false
          (Collection.to_vec focus)
  end.
