(* ===== verification/GlobCorrect.v ===== *)
(** Glob patterns against a reference matcher: [glob] matches the fragments
    between the stars greedily, which decides patterns that end in a star or have
    none, and is sound for the rest unless the pattern ends in an escaped star. *)
From S2P Require Import Prelude Ipld Predicate.

(** ** The reference: a pattern is a sequence of literal chars and wildcards *)
Inductive token := Lit (c : char) | Star.
Fixpoint tokens (pattern : str) : list token :=
  match pattern with
  | [] => []
  | c :: pattern =>
      if decide (c = STAR) then Star :: tokens pattern
      else if decide (c = BACKSLASH) then
        match pattern with
        | d :: rest => if decide (d = STAR) then Lit STAR :: tokens rest else Lit BACKSLASH :: tokens pattern
        | [] => [Lit BACKSLASH]
        end
      else Lit c :: tokens pattern
  end.

Inductive matches : list token -> str -> Prop :=
  | matches_nil : matches [] []
  | matches_lit c ts s : matches ts s -> matches (Lit c :: ts) (c :: s)
  | matches_star ts gap s : matches ts s -> matches (Star :: ts) (gap ++ s).

(** ** Fragments *)

(** The literal text between the wildcards. *)
Fixpoint fragments (ts : list token) : str * list str :=
  match ts with
  | [] => ([], [])
  | Lit c :: ts => let '(f, fs) := fragments ts in (c :: f, fs)
  | Star :: ts => let '(f, fs) := fragments ts in ([], f :: fs)
  end.

Definition escaped (esc : bool) (p : str) : str := if esc then BACKSLASH :: p else p.

Lemma tokens_star p : tokens (STAR :: p) = Star :: tokens p.
Proof. done. Qed.
Lemma tokens_escape p : tokens (BACKSLASH :: STAR :: p) = Lit STAR :: tokens p.
Proof. done. Qed.
Lemma tokens_backslash c p :
  c <> STAR -> tokens (BACKSLASH :: c :: p) = Lit BACKSLASH :: tokens (c :: p).
Proof.
  intros Hc. generalize (eq_refl (tokens (c :: p))). generalize (tokens (c :: p)) at 1 3. intros ts Hts.
  cbn -[decide]. rewrite (decide_False (P := BACKSLASH = STAR)), (decide_True (P := BACKSLASH = BACKSLASH)) by done.
  rewrite (decide_False (P := c = STAR)) by done. by rewrite Hts.
Qed.
Lemma tokens_lit c p : c <> STAR -> c <> BACKSLASH -> tokens (c :: p) = Lit c :: tokens p.
Proof. intros H1 H2. cbn [tokens]. by rewrite !decide_False. Qed.

Lemma parse_fold_spec p esc acc working :
  let '(f, fs) := fragments (tokens (escaped esc p)) in
  let '(saw, patterns, w) := foldl parse_char (esc, acc, working) p in
  patterns ++ [if saw then w ++ [BACKSLASH] else w] = acc ++ (working ++ f) :: fs.
Proof.
  revert esc acc working. induction p as [|c p IH]; intros esc acc working.
  { destruct esc; csimpl; by rewrite ?app_nil_r. }
  cbn [foldl]. unfold parse_char at 2.
  destruct (decide (c = STAR)) as [->|Hs].
  { destruct esc; cbn [escaped]; rewrite ?tokens_escape, ?tokens_star; cbn [fragments].
    - specialize (IH false acc (working ++ [STAR])). cbn [escaped] in IH.
      destruct (fragments (tokens p)) as [f fs]. destruct (foldl _ _ p) as [[? ?] ?].
      by rewrite IH, <- app_assoc.
    - specialize (IH false (acc ++ [working]) []). cbn [escaped] in IH.
      destruct (fragments (tokens p)) as [f fs]. destruct (foldl _ _ p) as [[? ?] ?].
      by rewrite IH, app_nil_r, <- app_assoc. }
  destruct (decide (c = BACKSLASH)) as [->|Hb].
  { destruct esc; cbn [escaped]; [rewrite tokens_backslash by done; cbn [fragments]|].
    - specialize (IH true acc (working ++ [BACKSLASH])). cbn [escaped] in IH.
      destruct (fragments (tokens (BACKSLASH :: p))) as [f fs]. destruct (foldl _ _ p) as [[? ?] ?].
      by rewrite IH, <- app_assoc.
    - by specialize (IH true acc working). }
  specialize (IH false acc ((if esc then working ++ [BACKSLASH] else working) ++ [c])).
  destruct esc; cbn [escaped] in *; rewrite ?tokens_backslash, tokens_lit by done; cbn [fragments];
    destruct (fragments (tokens p)) as [f fs]; destruct (foldl _ _ p) as [[? ?] ?];
    by rewrite IH, <- !app_assoc.
Qed.

Lemma parse_pattern_spec p :
  parse_pattern p = (fragments (tokens p)).1 :: (fragments (tokens p)).2.
Proof.
  pose proof (parse_fold_spec p false [] []) as Hp. unfold parse_pattern. cbn [escaped] in Hp.
  destruct (fragments (tokens p)) as [f fs]. by destruct (foldl _ _ p) as [[? ?] ?].
Qed.

(** A pattern ends in a star char exactly when its last token is a star, escaped
    or not. *)
Lemma last_star_token p esc :
  p <> [] ->
  last p = Some STAR <->
  last (tokens (escaped esc p)) = Some Star \/ last (tokens (escaped esc p)) = Some (Lit STAR).
Proof.
  revert esc; induction p as [|c p IH]; [done|]; intros esc _.
  assert (Hlast : forall (t : token) ts, ts <> [] -> last (t :: ts) = last ts) by (intros t []; done).
  assert (Htok : forall b q, q <> [] -> tokens (escaped b q) <> []).
  { intros b q Hq E. pose proof (parse_fold_spec q b [] []). destruct q as [|d q]; [done|].
    destruct b; cbn [escaped] in E.
    - destruct (decide (d = STAR)) as [->|]; [by rewrite tokens_escape in E|by rewrite tokens_backslash in E].
    - destruct (decide (d = STAR)) as [->|]; [done|]. destruct (decide (d = BACKSLASH)) as [->|];
        [|by rewrite tokens_lit in E]. destruct q as [|d' q]; [done|].
      destruct (decide (d' = STAR)) as [->|]; [by rewrite tokens_escape in E|by rewrite tokens_backslash in E]. }
  destruct p as [|d p].
  { csimpl. destruct (decide (c = STAR)) as [->|Hs]; [destruct esc; csimpl; naive_solver|].
    destruct (decide (c = BACKSLASH)) as [->|Hb]; [destruct esc; csimpl; naive_solver|].
    destruct esc; cbn [escaped]; rewrite ?(tokens_backslash c), (tokens_lit c) by done; csimpl; naive_solver. }
  change (last (c :: d :: p)) with (last (d :: p)).
  destruct (decide (c = STAR)) as [->|Hs].
  { rewrite (IH false) by done. destruct esc; cbn [escaped]; rewrite ?tokens_escape, ?tokens_star;
      by rewrite (Hlast _ (tokens (d :: p))) by by apply (Htok false (d :: p)). }
  destruct (decide (c = BACKSLASH)) as [->|Hb].
  { rewrite (IH true) by done. destruct esc; cbn [escaped]; [|done]. rewrite (tokens_backslash BACKSLASH) by done.
    by rewrite (Hlast _ (tokens (BACKSLASH :: d :: p))) by by apply (Htok true (d :: p)). }
  rewrite (IH false) by done. cbn [escaped].
  destruct esc; cbn [escaped]; rewrite ?(tokens_backslash c), (tokens_lit c) by done;
    rewrite ?(Hlast (Lit BACKSLASH)) by done; by rewrite (Hlast _ _ (Htok false (d :: p) ltac:(done))).
Qed.

(** ** Chains of fragments *)

(** [chain fs s r]: the fragments occur in [s] in order, with gaps before them,
    and [r] remains. *)
Inductive chain : list str -> str -> str -> Prop :=
  | chain_nil r : chain [] r r
  | chain_cons gap f fs s r : chain fs s r -> chain (f :: fs) (gap ++ f ++ s) r.

Lemma chain_before g fs s r : chain fs s r -> exists r', chain fs (g ++ s) r' /\ (fs <> [] -> r' = r).
Proof.
  destruct 1 as [r|gap f fs s r Hc].
  - exists (g ++ r). split; [constructor|done].
  - exists r. split; [|done]. rewrite app_assoc. by constructor.
Qed.

Lemma matches_fragments ts s :
  matches ts s <->
  exists rest, s = (fragments ts).1 ++ rest /\ chain (fragments ts).2 rest [].
Proof.
  split.
  - induction 1 as [|c ts s Hm (rest & -> & Hc)|ts gap s Hm (rest & -> & Hc)]; cbn [fragments].
    + exists []. split; [done|constructor].
    + destruct (fragments ts) as [f fs]. by exists rest.
    + destruct (fragments ts) as [f fs]. exists (gap ++ f ++ rest). split; [done|by constructor].
  - revert s; induction ts as [|[c|] ts IH]; cbn [fragments]; intros s (rest & -> & Hc).
    + inversion Hc; subst. constructor.
    + destruct (fragments ts) as [f fs]. constructor. apply IH. by exists rest.
    + destruct (fragments ts) as [f fs]. inversion Hc as [|gap ? ? s' ? Hc']; subst. csimpl.
      constructor. apply IH. by exists s'.
Qed.

(** ** The greedy search *)
Lemma starts_with_app (s frag : str) :
  slice_starts_with s frag = true -> s = frag ++ drop (length frag) s.
Proof. intros E%bool_decide_eq_true. rewrite <- E at 1. by rewrite take_drop. Qed.
Lemma app_starts_with (s frag : str) : slice_starts_with (frag ++ s) frag = true.
Proof. apply bool_decide_eq_true. by rewrite take_app_length. Qed.

Lemma split_once_Some frag s pre post :
  split_once frag s = Some (pre, post) ->
  s = pre ++ frag ++ post /\
  forall pre' post', s = pre' ++ frag ++ post' -> exists g, post = g ++ post'.
Proof.
  revert pre post; induction s as [|c s IH]; intros pre post; cbn [split_once];
    destruct (slice_starts_with _ frag) eqn:E.
  1,3: intros [= <- <-]; split; [by apply starts_with_app|]; intros pre' post' Hs;
    apply starts_with_app in E; rewrite Hs in E at 1; exists (drop (length frag) (pre' ++ frag));
    apply (f_equal (drop (length frag))) in E; rewrite drop_app_length in E; rewrite <- E;
    rewrite app_assoc, drop_app_le; [done|rewrite length_app; lia].
  - done.
  - intros Hs. destruct (split_once frag s) as [[pre1 post1]|] eqn:Es; [|done]. injection Hs as <- <-.
    destruct (IH _ _ eq_refl) as [-> Hmin]. split; [done|]. intros [|c' pre'] post' Hs.
    + csimpl in Hs. rewrite Hs, app_starts_with in E. done.
    + injection Hs as -> Hs. eauto.
Qed.

Lemma split_once_front frag s : split_once frag (frag ++ s) = Some ([], s).
Proof.
  assert (split_once frag (frag ++ s) = Some ([], drop (length frag) (frag ++ s))) as ->;
    [|by rewrite drop_app_length].
  pose proof (app_starts_with s frag) as E. revert E. generalize (frag ++ s). intros s' E.
  destruct s'; cbn [split_once]; by rewrite E.
Qed.

Lemma split_once_None frag s : split_once frag s = None -> forall pre post, s <> pre ++ frag ++ post.
Proof.
  induction s as [|c s IH]; cbn [split_once]; destruct (slice_starts_with _ frag) eqn:E; try done.
  - intros _ pre post Hs. symmetry in Hs. apply app_nil in Hs as [-> Hs]. apply app_nil in Hs as [-> ->].
    done.
  - destruct (split_once frag s) as [[]|] eqn:Es; [done|]. intros _ [|c' pre] post Hs.
    + csimpl in Hs. rewrite Hs, app_starts_with in E. done.
    + injection Hs as -> Hs. by eapply IH.
Qed.

Section greedy.
Context (pattern : str) (n : nat).

(** The closure of the second fold of [glob]. *)
Definition glob_step (acc : str) (fragment : nat * str) : outcome unit str :=
  let '(idx, pattern_frag) := fragment in
  match split_once pattern_frag acc with
  | Some (pre, post) =>
      if bool_decide (idx = 0%nat) && negb (starts_with_star pattern) && negb (bool_decide (pre = [])) then Err tt
      else if bool_decide (idx = n - 1)%nat && negb (ends_with_star pattern)
              && negb (bool_decide (post = [])) then Err tt
      else Ok post
  | None => Err tt
  end.

Lemma greedy_sound fs k s r :
  (0 < k)%nat -> (k + length fs = n)%nat ->
  try_fold glob_step s (imap (fun i f => (k + i, f)%nat) fs) = Ok r ->
  chain fs s r /\ (fs <> [] -> ends_with_star pattern = false -> r = []).
Proof.
  revert k s; induction fs as [|f fs IH]; intros k s Hk Hn; csimpl.
  { intros [= ->]. split; [constructor|done]. }
  intros (post & Hstep & Hr)%bind_Ok_inv. csimpl in *.
  destruct (split_once f s) as [[pre post']|] eqn:Es; [|done].
  apply split_once_Some in Es as [-> _]. rewrite bool_decide_false in Hstep by lia. csimpl in Hstep.
  destruct (bool_decide _ && negb _ && negb _) eqn:Ec; [done|]. injection Hstep as ->.
  rewrite (imap_ext _ (fun i f => (S k + i, f)%nat)) in Hr by (intros; f_equal/=; lia).
  apply IH in Hr as [Hc Hr]; [|lia|lia]. split; [by constructor|]. intros _ He.
  destruct fs as [|f' fs]; [|by apply Hr]. inversion Hc; subst.
  rewrite bool_decide_true in Ec by (csimpl in *; lia). rewrite He in Ec. csimpl in Ec.
  apply negb_false_iff in Ec. by apply bool_decide_eq_true in Ec.
Qed.

Lemma greedy_complete fs k s r :
  (0 < k)%nat -> ends_with_star pattern = true -> chain fs s r ->
  is_ok (try_fold glob_step s (imap (fun i f => (k + i, f)%nat) fs)) = true.
Proof.
  intros Hk He. revert k s r Hk; induction fs as [|f fs IH]; intros k s r Hk Hc; [done|].
  inversion Hc as [|gap ? ? s' ? Hc']; subst. csimpl.
  destruct (split_once f (gap ++ f ++ s')) as [[pre post]|] eqn:Es;
    [|by eapply split_once_None in Es].
  apply split_once_Some in Es as [_ Hmin]. destruct (Hmin _ _ eq_refl) as [g ->].
  rewrite bool_decide_false by lia. rewrite He, andb_false_r. csimpl.
  rewrite (imap_ext _ (fun i f => (S k + i, f)%nat)) by (intros; f_equal/=; lia).
  destruct (chain_before g _ _ _ Hc') as (r' & Hr' & _). by eapply IH; [lia|].
Qed.
End greedy.

Lemma glob_eq input pattern :
  pattern <> [] ->
  glob input pattern =
  is_ok (try_fold (glob_step pattern (length (parse_pattern pattern))) input (imap pair (parse_pattern pattern))).
Proof. intros Hp. unfold glob. by rewrite decide_False. Qed.

(** A first fragment that is not preceded by a star is at the front. *)
Lemma glob_front pattern f fs n input post :
  parse_pattern pattern = f :: fs ->
  glob_step pattern n input (0%nat, f) = Ok post ->
  input = f ++ post /\ (n = 1%nat -> ends_with_star pattern = false -> post = []).
Proof.
  intros Hp. csimpl. destruct (split_once f input) as [[pre post']|] eqn:Es; [|done].
  destruct (negb (starts_with_star pattern) && _) eqn:E1; [done|]. intros Hstep.
  assert (pre = []) as ->.
  { apply andb_false_iff in E1 as [E1|E1]; apply negb_false_iff, bool_decide_eq_true in E1; [|done].
    destruct pattern as [|c pattern]; [done|]. injection E1 as ->.
    rewrite parse_pattern_spec, tokens_star in Hp. cbn [fragments] in Hp.
    destruct (fragments (tokens pattern)). injection Hp as <- <-.
    by destruct input; injection Es as <- <-. }
  apply split_once_Some in Es as [-> _]. csimpl.
  destruct (_ && negb _ && negb _) eqn:E2; [done|]. injection Hstep as ->. split; [done|]. intros -> He.
  rewrite He in E2. csimpl in E2. by apply negb_false_iff, bool_decide_eq_true in E2.
Qed.

Lemma fragments_star ts :
  (last ts = Some Star -> exists fs, (fragments ts).2 = fs ++ [[]]) /\
  ((fragments ts).2 = [] <-> Star ∉ ts).
Proof.
  induction ts as [|t ts [IH1 IH2]]; [split; [done|set_solver]|].
  destruct t as [c|]; cbn [fragments]; destruct (fragments ts) as [f fs] eqn:E; csimpl in *.
  - split; [|set_solver]. destruct ts as [|t ts]; [done|]. intros H. by apply IH1.
  - split; [|set_solver]. destruct ts as [|t ts].
    + intros _. injection E as <- <-. by exists [].
    + intros H. destruct (IH1 H) as [fs' ->]. by exists (f :: fs').
Qed.

(** A trailing wildcard takes all that remains. *)
Lemma chain_trailing fs s r : chain (fs ++ [[]]) s r -> chain (fs ++ [[]]) s [].
Proof.
  revert s; induction fs as [|f fs IH]; intros s Hc; csimpl in *;
    inversion Hc as [|gap ? ? s' ? Hc']; subst.
  - inversion Hc'; subst. csimpl. rewrite <- (app_nil_r (gap ++ r)).
    apply (chain_cons _ [] [] [] []). constructor.
  - constructor. by apply IH.
Qed.

Lemma glob_sound input pattern :
  last (tokens pattern) <> Some (Lit STAR) ->
  glob input pattern = true -> matches (tokens pattern) input.
Proof.
  intros Hlast. destruct (decide (pattern = [])) as [->|Hp].
  { unfold glob. rewrite decide_True by done. intros ->%bool_decide_eq_true. constructor. }
  rewrite glob_eq by done. pose proof (parse_pattern_spec pattern) as Hpat.
  destruct (fragments (tokens pattern)) as [f fs] eqn:Ef; cbn [fst snd] in Hpat. rewrite Hpat.
  cbn [imap try_fold length]. intros Hg. apply matches_fragments. rewrite Ef; cbn [fst snd].
  destruct (glob_step pattern _ input (0%nat, f)) as [post|e|m|] eqn:Es; try done. rewrite bind_Ok in Hg.
  destruct (glob_front _ _ _ _ _ _ Hpat Es) as [-> Hone]. exists post. split; [done|].
  destruct (try_fold _ post _) as [r|e|m|] eqn:Er; try done.
  rewrite (imap_ext _ (fun i f => (1 + i, f)%nat)) in Er by done.
  apply greedy_sound in Er as [Hc Hr]; [|lia|done].
  destruct (ends_with_star pattern) eqn:He.
  - apply bool_decide_eq_true in He. apply (last_star_token _ false) in He as [He|He]; [|done|done].
    destruct (fragments_star (tokens pattern)) as [Hf _]. rewrite Ef in Hf; csimpl in Hf.
    cbn [escaped] in He. destruct (Hf He) as [fs' ->]. by eapply chain_trailing.
  - destruct fs as [|f' fs]; [|by rewrite Hr in Hc]. inversion Hc; subst.
    rewrite Hone; [constructor|done..].
Qed.

Lemma glob_complete input pattern :
  last (tokens pattern) = Some Star \/ Star ∉ tokens pattern ->
  matches (tokens pattern) input -> glob input pattern = true.
Proof.
  intros Hshape Hm. destruct (decide (pattern = [])) as [->|Hp].
  { inversion Hm; subst. done. }
  rewrite glob_eq by done. pose proof (parse_pattern_spec pattern) as Hpat.
  apply matches_fragments in Hm as (rest & -> & Hc).
  pose proof (fragments_star (tokens pattern)) as [Hf1 Hf2].
  destruct (fragments (tokens pattern)) as [f fs] eqn:Ef; csimpl in *. rewrite Hpat. csimpl.
  assert (split_once f (f ++ rest) = Some ([], rest)) as ->.
  { apply split_once_front. }
  rewrite (bool_decide_true ([] = [])), andb_false_r by done. csimpl.
  destruct fs as [|f' fs].
  { inversion Hc; subst. by rewrite (bool_decide_true ([] = [])), andb_false_r by done. }
  rewrite bool_decide_false by (csimpl; lia). cbn [andb]. rewrite bind_Ok.
  destruct Hshape as [Hl|Hl]; [|by apply Hf2 in Hl].
  rewrite (imap_ext _ (fun i f => (1 + i, f)%nat)) by done.
  eapply (greedy_complete _ _ (f' :: fs)); [lia| |done].
  apply bool_decide_eq_true. apply (last_star_token _ false); auto.
Qed.

(** C36: The glob matcher of [like] agrees with the reference matcher, in which
    [*] is a wildcard and [\*] a star, on patterns that end in a wildcard or have
    none; it never accepts what the reference rejects, unless the pattern ends in
    an escaped star. *)
Theorem glob_reference input pattern :
  last (tokens pattern) <> Some (Lit STAR) ->
  (glob input pattern = true -> matches (tokens pattern) input) /\
  (last (tokens pattern) = Some Star \/ Star ∉ tokens pattern ->
   (glob input pattern = true <-> matches (tokens pattern) input)).
Proof.
  intros Hlast. split; [by apply glob_sound|]. intros Hshape.
  split; [by apply glob_sound | by apply glob_complete].
Qed.

Lemma glob_reference_witness :
  glob (lit "/photos/2024/*.jpg") (lit "/photos/*/\*.*") = true /\
  matches (tokens (lit "/photos/*/\*.*")) (lit "/photos/2024/*.jpg").
Proof.
  split; [reflexivity|].
  apply (proj2 (glob_reference (lit "/photos/2024/*.jpg") (lit "/photos/*/\*.*") ltac:(done)));
    [by left|reflexivity].
Defined.

(** Patterns the two disagree on: one that ends in an escaped star accepts any
    text after the star, and a wildcard before the last literal gives the literal
    its first occurrence only, so that text ending in it is rejected when the
    literal also occurs earlier. *)
Theorem glob_deviates :
  (forall s, glob (STAR :: s) (lit "\*") = true) /\
  ~ matches (tokens (lit "\*")) (lit "*.txt") /\
  glob (lit "a.b.b") (lit "a*.b") = false /\
  matches (tokens (lit "a*.b")) (lit "a.b.b").
Proof.
  split_and!.
  - intros s. unfold glob. by destruct s.
  - intros Hm. inversion Hm as [|? ? ? Hm'|]; subst. inversion Hm'.
  - reflexivity.
  - constructor. apply (matches_star _ (lit ".b") (lit ".b")). repeat constructor.
Qed.
