(* ===== verification/UcanBase.v ===== *)
(** Vocabulary of UCANs: identifiers (rust/dialog-varsig/src/did.rs), and from
    rust/dialog-ucan-core/src: subject.rs, command.rs, time/{timestamp,range,error}.rs,
    crypto/nonce.rs. *)
From S2P Require Import Prelude Ipld.

(** * Strings *)

(** The Unicode tables of the standard library, of which only the ASCII part is
    fixed here. *)
Class UnicodeTables := {
  is_uppercase : char -> bool;
  is_alphabetic : char -> bool;
  is_alphanumeric : char -> bool;
  uppercase_ascii c : (c < 128)%N -> is_uppercase c = bool_decide (65 <= c <= 90)%N;
  alphabetic_ascii c :
    (c < 128)%N -> is_alphabetic c = bool_decide (65 <= c <= 90)%N || bool_decide (97 <= c <= 122)%N;
  alphanumeric_ascii c :
    (c < 128)%N -> is_alphanumeric c = is_alphabetic c || bool_decide (48 <= c <= 57)%N;
  alphabetic_alphanumeric c : is_alphabetic c = true -> is_alphanumeric c = true
}.

(** [str::split(c)]: one piece more than there are separators. *)
Fixpoint split_on (sep : char) (s : str) : list str :=
  match s with
  | [] => [[]]
  | c :: s =>
      if decide (c = sep) then [] :: split_on sep s
      else
        match split_on sep s with
        | piece :: pieces => (c :: piece) :: pieces
        | [] => [[c]]
        end
  end.
(** [[String]::join]. *)
Fixpoint join (sep : str) (pieces : list str) : str :=
  match pieces with
  | [] => []
  | [piece] => piece
  | piece :: pieces => piece ++ sep ++ join sep pieces
  end.
Definition str_starts_with (s prefix : str) : bool := bool_decide (take (length prefix) s = prefix).

Definition SLASH : char := 47%N.
Definition COLON : char := 58%N.

(** * DIDs *)
Abbreviation Did := str.
Inductive DidParseError := ExpectedDidPrefix (s : str) | ExpectedMethodIdentifier (s : str).

(** [Did::from_str]. *)
Definition Did_from_str (s : str) : outcome DidParseError Did :=
  if negb (str_starts_with s (lit "did:")) then Err (ExpectedDidPrefix s)
  else
    let rest := drop 4 s in
    if negb (bool_decide (COLON ∈ rest)) then Err (ExpectedMethodIdentifier s)
    else Ok s.
Definition ANY_SUBJECT : Did := lit "did:_:_".

(** * Subjects *)
Module Subject.
Inductive t := Specific (did : Did) | Any.
Definition allows (self : t) (subject : Did) : bool :=
  match self with Specific did => bool_decide (did = subject) | Any => true end.
Definition coherent (self other : t) : bool :=
  match self, other with
  | Any, _ | _, Any => true
  | Specific did, Specific other_did => bool_decide (did = other_did)
  end.
End Subject.
Abbreviation Subject := Subject.t.
#[export] Instance Subject_eq_dec : EqDecision Subject.
Proof. solve_decision. Defined.

(** * Commands *)
Inductive CommandParseError := MissingLeadingSlash | TrailingSlash | NotLowercase | EmptySegment.
Abbreviation Command := (list str).

(** [Command::parse], [Display for Command] and [Command::starts_with]. *)
Definition Command_parse `{UnicodeTables} (s : str) : outcome CommandParseError Command :=
  if negb (str_starts_with s [SLASH]) then Err MissingLeadingSlash
  else if decide (s = [SLASH]) then Ok []
  else if bool_decide (last s = Some SLASH) then Err TrailingSlash
  else if existsb is_uppercase s then Err NotLowercase
  else
    let segments := split_on SLASH (drop 1 s) in
    if existsb (fun segment => bool_decide (segment = [])) segments then Err EmptySegment
    else Ok segments.
Definition Command_to_string (self : Command) : str :=
  match self with
  | [] => [SLASH]
  | _ => SLASH :: join [SLASH] self
  end.
Definition Command_starts_with (self prefix : Command) : bool :=
  if decide (length self < length prefix)%nat then false
  else forallb (fun '(a, b) => bool_decide (a = b)) (zip self prefix).

(** * Times *)

(** [SystemTime] is the number of nanoseconds since the Unix epoch; on Unix its
    seconds are an [i64], and adding past them panics. *)
Abbreviation SystemTime := Z.
Definition NANOS : Z := 10 ^ 9.
Definition i64_MAX : Z := 2 ^ 63 - 1.
Definition u64_MAX : Z := 2 ^ 64 - 1.
Definition epoch_plus_secs {E} (secs : Z) : outcome E SystemTime :=
  if decide (secs <= i64_MAX)%Z then Ok (secs * NANOS)%Z
  else Panic "overflow when adding duration to instant".

Record OutOfRangeError := mkOutOfRangeError { tried : SystemTime }.
Inductive NumberIsNotATimestamp := TriedIpldInt (secs : Z) | TriedSystemTime (e : OutOfRangeError).
Inductive TimestampFromIpldError := TimestampIsNotAnInteger | NotATimestamp (e : NumberIsNotATimestamp).

(** [Timestamp] and its conversions. *)
Abbreviation Timestamp := Z.
Definition Timestamp_new (time : SystemTime) : outcome OutOfRangeError Timestamp :=
  if decide (time < 0)%Z then Err (mkOutOfRangeError time)
  else if decide (0x1FFFFFFFFFFFFF < time / NANOS)%Z then Err (mkOutOfRangeError time)
  else Ok time.
Definition to_unix {E} (t : Timestamp) : outcome E Z :=
  if decide (t < 0)%Z then Panic "System time to be after the Unix epoch" else Ok (t / NANOS)%Z.
Definition Timestamp_try_from_i128 (secs : Z) : outcome NumberIsNotATimestamp Timestamp :=
  if decide (0 <= secs <= u64_MAX)%Z then
    time ← epoch_plus_secs secs;
    map_err TriedSystemTime (Timestamp_new time)
  else Err (TriedIpldInt secs).
Definition Timestamp_try_from (ipld : Ipld) : outcome TimestampFromIpldError Timestamp :=
  match ipld with
  | Ipld.Integer secs => map_err NotATimestamp (Timestamp_try_from_i128 secs)
  | _ => Err TimestampIsNotAnInteger
  end.
(** [Deserialize for Timestamp], on the [u64] that was read. *)
Definition Timestamp_deserialize {E} (seconds : Z) : outcome E Timestamp := epoch_plus_secs seconds.

(** [std::ops::Bound]. *)
Inductive Bound := Included (t : Timestamp) | Excluded (t : Timestamp) | Unbounded.
Inductive TimeBoundError := Expired | NotYetValid.

Module TimeRange.
Record t := mk { not_before : Bound; expiration : Bound }.
Definition unbounded : t := mk Unbounded Unbounded.
Definition of_option (o : option Timestamp) : Bound :=
  match o with Some t => Included t | None => Unbounded end.
Definition new (not_before expiration : option Timestamp) : t :=
  mk (of_option not_before) (of_option expiration).
Definition is_valid (self : t) : bool :=
  match not_before self, expiration self with
  | Included nbf, Included exp => bool_decide (nbf <= exp)%Z
  | _, _ => true
  end.
Definition check (self : t) (time : Timestamp) : outcome TimeBoundError unit :=
  let expired := match expiration self with
    | Included exp => bool_decide (exp < time)%Z
    | Excluded exp => bool_decide (exp <= time)%Z
    | Unbounded => false
    end in
  let early := match not_before self with
    | Included nbf => bool_decide (time < nbf)%Z
    | Excluded nbf => bool_decide (time <= nbf)%Z
    | Unbounded => false
    end in
  if expired then Err Expired else if early then Err NotYetValid else Ok tt.
(** In a pair of an excluded and an included bound the guarded arms and those
    they fall through to give the excluded bound alike. *)
Definition intersect (self other : t) : t :=
  mk
    match not_before self, not_before other with
    | Included a, Included b => Included (Z.max a b)
    | Included a, Unbounded => Included a
    | Unbounded, Included b => Included b
    | Unbounded, Unbounded => Unbounded
    | Excluded a, Excluded b => Excluded (Z.max a b)
    | Excluded a, Included b => Excluded a
    | Included a, Excluded b => Excluded b
    | Excluded a, Unbounded => Excluded a
    | Unbounded, Excluded b => Excluded b
    end
    match expiration self, expiration other with
    | Included a, Included b => Included (Z.min a b)
    | Included a, Unbounded => Included a
    | Unbounded, Included b => Included b
    | Unbounded, Unbounded => Unbounded
    | Excluded a, Excluded b => Excluded (Z.min a b)
    | Excluded a, Included b => Excluded a
    | Included a, Excluded b => Excluded b
    | Excluded a, Unbounded => Excluded a
    | Unbounded, Excluded b => Excluded b
    end.
End TimeRange.
Abbreviation TimeRange := TimeRange.t.

(** * Nonces *)
Module Nonce.
Inductive t := Nonce16 (arr : bytes) | Custom (b : bytes).
Definition to_bytes (n : t) : bytes := match n with Nonce16 arr => arr | Custom b => b end.
Definition of_bytes (b : bytes) : t := if decide (length b = 16%nat) then Nonce16 b else Custom b.
Definition eqb (a b : t) : bool := bool_decide (to_bytes a = to_bytes b).
Definition to_ipld (n : t) : Ipld := Ipld.Bytes (to_bytes n).
(** The error is [NoncesMustBeBytes]. *)
Definition try_from (ipld : Ipld) : outcome unit t :=
  match ipld with
  | Ipld.Bytes v => Ok (of_bytes v)
  | _ => Err tt
  end.
End Nonce.
Abbreviation Nonce := Nonce.t.

(** ** Commands *)
Lemma command_starts_with_spec (self prefix : Command) :
  Command_starts_with self prefix = true <-> prefix `prefix_of` self.
Proof.
  unfold Command_starts_with. revert self; induction prefix as [|p prefix IH]; intros [|s self]; csimpl.
  - split; [intros _; apply prefix_nil|done].
  - split; [intros _; apply prefix_nil|done].
  - split; [done|by intros ?%prefix_nil_not].
  - specialize (IH self). case_decide as Hd; case_decide as Hd'; try lia; [split; [done|]|].
    + intros Hp. apply prefix_length in Hp. csimpl in Hp. lia.
    + rewrite andb_true_iff, IH, bool_decide_eq_true. split.
      * intros [-> Hp]. by apply prefix_cons.
      * intros Hp. split; [symmetry; by eapply prefix_cons_inv_1|by eapply prefix_cons_inv_2].
Qed.

Lemma split_on_nonempty sep s : split_on sep s <> [].
Proof. destruct s; csimpl; [done|]. repeat case_match; done. Qed.

Lemma join_split sep s : join [sep] (split_on sep s) = s.
Proof.
  induction s as [|c s IH]; csimpl; [done|]. pose proof (split_on_nonempty sep s) as Hne.
  destruct (split_on sep s) as [|piece pieces] eqn:E; [done|].
  case_decide as Hc; [subst c|].
  - csimpl. by rewrite <- IH.
  - destruct pieces; csimpl in *; by rewrite <- IH.
Qed.

Lemma split_join sep pieces :
  pieces <> [] -> Forall (fun piece => sep ∉ piece) pieces -> split_on sep (join [sep] pieces) = pieces.
Proof.
  intros Hne Hp. destruct pieces as [|piece pieces]; [done|]. clear Hne. revert piece Hp.
  induction pieces as [|next pieces IH]; intros piece [Hpiece Hp]%Forall_cons.
  - csimpl. induction piece as [|c piece IHp]; csimpl; [done|].
    rewrite decide_False by set_solver. by rewrite IHp by set_solver.
  - change (join [sep] (piece :: next :: pieces)) with (piece ++ [sep] ++ join [sep] (next :: pieces)).
    induction piece as [|c piece IHp]; cbn [app split_on].
    + rewrite decide_True by done. by rewrite IH.
    + rewrite decide_False by set_solver. cbn [app] in IHp. by rewrite IHp by set_solver.
Qed.

(** Segments a command may have. *)
Definition wf_segment `{UnicodeTables} (segment : str) : Prop :=
  segment <> [] /\ (SLASH ∉ segment) /\ existsb is_uppercase segment = false.

Lemma existsb_join `{UnicodeTables} pieces :
  existsb is_uppercase (join [SLASH] pieces) = existsb (existsb is_uppercase) pieces.
Proof.
  assert (is_uppercase SLASH = false) as Hs by by rewrite uppercase_ascii.
  induction pieces as [|piece [|next pieces] IH]; [done|by csimpl; rewrite orb_false_r|].
  change (join [SLASH] (piece :: next :: pieces)) with (piece ++ [SLASH] ++ join [SLASH] (next :: pieces)).
  rewrite !existsb_app, IH. cbn [existsb]. by rewrite Hs.
Qed.

Lemma existsb_false {A} (f : A -> bool) l : existsb f l = false <-> Forall (fun a => f a = false) l.
Proof. induction l as [|a l IH]; csimpl; [done|]. by rewrite orb_false_iff, Forall_cons, IH. Qed.

Lemma str_starts_with_cons c s d : str_starts_with (c :: s) [d] = bool_decide (c = d).
Proof. unfold str_starts_with; csimpl. apply bool_decide_ext. naive_solver. Qed.

Lemma last_join_slash pieces :
  pieces <> [] -> Forall (fun piece => piece <> [] /\ SLASH ∉ piece) pieces ->
  last (SLASH :: join [SLASH] pieces) <> Some SLASH.
Proof.
  intros Hne Hp. destruct pieces as [|piece pieces] using rev_ind; [done|]. clear IHpieces.
  apply Forall_app in Hp as [_ [[Hpe Hps] _]%Forall_cons].
  assert (exists pre, SLASH :: join [SLASH] (pieces ++ [piece]) = pre ++ piece) as [pre ->].
  { clear Hne. assert (exists pre, join [SLASH] (pieces ++ [piece]) = pre ++ piece) as [pre ->];
      [|by exists (SLASH :: pre)].
    induction pieces as [|p pieces [pre IH]]; [by exists []|].
    exists (p ++ [SLASH] ++ pre). rewrite <- !app_assoc, <- IH. csimpl.
    by destruct (pieces ++ [piece]) eqn:E; [apply app_nil in E as [_ ?]|]. }
  rewrite last_app. destruct (last piece) as [c|] eqn:E; [|by apply last_None in E].
  intros [= ->]. by apply last_Some_elem_of in E.
Qed.

(** Commands print and parse back, and what parses prints as it was. *)
Lemma command_roundtrip `{UnicodeTables} (c : Command) :
  Forall wf_segment c -> Command_parse (Command_to_string c) = Ok c.
Proof.
  intros Hc. destruct c as [|piece pieces]; [done|]. set (c := piece :: pieces) in *.
  assert (Command_to_string c = SLASH :: join [SLASH] c) as -> by done.
  unfold Command_parse. rewrite str_starts_with_cons, bool_decide_true by done. cbn [negb].
  assert (Forall (fun piece => piece <> [] /\ SLASH ∉ piece) c) as Hc'
    by (eapply Forall_impl; [exact Hc|by intros ? (? & ? & ?)]).
  rewrite decide_False, bool_decide_false; [|by apply last_join_slash|].
  - cbn [existsb]. rewrite uppercase_ascii, existsb_join by done.
    assert (existsb (existsb is_uppercase) c = false) as ->
      by (apply existsb_false; eapply Forall_impl; [exact Hc|by intros ? (? & ? & ?)]).
    rewrite (bool_decide_false (65 <= SLASH <= 90)%N) by (unfold SLASH; lia). cbn [orb].
    change (drop 1 (SLASH :: join [SLASH] c)) with (join [SLASH] c). rewrite split_join; [|done|].
    + assert (existsb (fun segment => bool_decide (segment = [])) c = false) as ->; [|done].
      apply existsb_false. eapply Forall_impl; [exact Hc|]. intros ? (? & ? & ?). by apply bool_decide_eq_false.
    + eapply Forall_impl; [exact Hc'|by intros ? []].
  - intros [= E]. unfold c in E, Hc'. apply Forall_cons in Hc' as [[Hp _] _].
    destruct pieces; csimpl in E; [done|]. by apply app_nil in E as [? ?].
Qed.

Lemma command_parse_print `{UnicodeTables} s c : Command_parse s = Ok c -> Command_to_string c = s.
Proof.
  unfold Command_parse. destruct s as [|d s]; [done|]. rewrite str_starts_with_cons.
  case_bool_decide as Hd; [subst d|done]. cbn [negb]. case_decide as Hr; [by intros [= <-]; rewrite Hr|].
  repeat (case_match; [done|]). change (drop 1 (SLASH :: s)) with s. intros [= <-].
  pose proof (split_on_nonempty SLASH s). pose proof (join_split SLASH s) as E.
  destruct (split_on SLASH s) as [|p ps]; [done|]. unfold Command_to_string. by rewrite E.
Qed.

(** ** Time ranges *)

(** Ranges made from optional bounds have no excluded bound. *)
Definition inclusive (r : TimeRange) : Prop :=
  (forall t, TimeRange.not_before r <> Excluded t) /\ (forall t, TimeRange.expiration r <> Excluded t).
Definition in_range (t : Timestamp) (r : TimeRange) : Prop := TimeRange.check r t = Ok tt.

Lemma new_inclusive nbf exp : inclusive (TimeRange.new nbf exp).
Proof. destruct nbf, exp; split; done. Qed.

Lemma intersect_inclusive a b : inclusive a -> inclusive b -> inclusive (TimeRange.intersect a b).
Proof. destruct a as [[] []], b as [[] []]; unfold inclusive; cbn; naive_solver. Qed.

Lemma in_range_intersect t a b :
  inclusive a -> inclusive b ->
  in_range t (TimeRange.intersect a b) <-> in_range t a /\ in_range t b.
Proof.
  intros [Ha1 Ha2] [Hb1 Hb2].
  destruct a as [[] []], b as [[] []]; cbn in *; try naive_solver;
    unfold in_range, TimeRange.check; cbn; repeat case_bool_decide; split; try done; try lia;
    intros; destruct_and?; try done; lia.
Qed.

Lemma is_valid_spec r : inclusive r -> TimeRange.is_valid r = true <-> exists t, in_range t r.
Proof.
  intros [Hr1 Hr2]. destruct r as [[n|n|] [e|e|]]; cbn in *; try naive_solver;
    unfold in_range, TimeRange.check, TimeRange.is_valid; cbn.
  - rewrite bool_decide_eq_true. split.
    + intros Hne. exists n. by rewrite !bool_decide_false by lia.
    + intros [t Ht]. repeat case_bool_decide; try done. lia.
  - split; [intros _; exists n|done]. by rewrite bool_decide_false by lia.
  - split; [intros _; exists e|done]. by rewrite bool_decide_false by lia.
  - split; [intros _; by exists 0%Z|done].
Qed.
