(* ===== verification/Delegation.v ===== *)
(** Delegations, invocations and their verification (rust/dialog-ucan-core/src:
    envelope.rs, delegation.rs, delegation/{store,builder}.rs, invocation.rs,
    invocation/builder.rs). *)
From S2P Require Import Prelude Ipld Predicate UcanBase.

(** * Tokens *)

(** [Envelope] around its [EnvelopePayload]; the signature and the Varsig header
    are their bytes. *)
Record Envelope (A : Type) := mkEnvelope { signature : bytes; header : bytes; payload : A }.
Arguments mkEnvelope {A} signature header payload.
Arguments signature {A}.
Arguments header {A}.
Arguments payload {A}.

Record DelegationPayload := mkDelegationPayload {
  dlg_issuer : Did;
  dlg_audience : Did;
  dlg_subject : Subject;
  dlg_command : Command;
  dlg_policy : list Predicate;
  dlg_expiration : option Timestamp;
  dlg_not_before : option Timestamp;
  dlg_meta : option (btree Ipld);
  dlg_nonce : Nonce
}.
Abbreviation Delegation := (Envelope DelegationPayload).

Record InvocationPayload := mkInvocationPayload {
  inv_issuer : Did;
  inv_audience : option Did;
  inv_subject : Did;
  inv_command : Command;
  inv_arguments : btree Promised;
  inv_proofs : list Cid;
  inv_cause : option Cid;
  inv_issued_at : option Timestamp;
  inv_expiration : option Timestamp;
  inv_meta : option (btree Ipld);
  inv_nonce : Nonce
}.
Abbreviation Invocation := (Envelope InvocationPayload).

(** The getters with a default. *)
Definition delegation_meta (d : DelegationPayload) : btree Ipld := default [] (dlg_meta d).
Definition invocation_meta (i : InvocationPayload) : btree Ipld := default [] (inv_meta i).
Definition invocation_audience (i : InvocationPayload) : Did := default (inv_subject i) (inv_audience i).

(** Serialization to DAG-CBOR and the digest in a CID are the work of libraries,
    as are keys and signatures: [encode] is what is signed, [to_cid] names a
    signed token. *)
Class Tokens (A : Type) := {
  EncodingError : Type;
  encode : bytes -> A -> outcome EncodingError bytes;
  to_cid : Envelope A -> Cid;
  to_vec : Envelope A -> outcome EncodingError bytes;
  from_slice : bytes -> outcome EncodingError (Envelope A)
}.
Class Resolver := {
  ResolutionError : Type;
  VerificationError : Type;
  Verifier : Type;
  resolve : Did -> outcome ResolutionError Verifier;
  verify_bytes : Verifier -> bytes -> bytes -> outcome VerificationError unit
}.

Inductive SignatureVerificationError (E : Type) `{Resolver} :=
  | SignatureVerificationError_Encoding (e : E)
  | SignatureVerificationError_Resolution (e : ResolutionError)
  | SignatureVerificationError_Verification (e : VerificationError).
Arguments SignatureVerificationError_Encoding {E _}.
Arguments SignatureVerificationError_Resolution {E _}.
Arguments SignatureVerificationError_Verification {E _}.

(** [Delegation::verify_signature] and [Invocation::verify_signature]. *)
Definition verify_signature {A} `{Tokens A, Resolver} (issuer : A -> Did) (self : Envelope A)
    : outcome (SignatureVerificationError EncodingError) unit :=
  encoded ← map_err SignatureVerificationError_Encoding (encode (header self) (payload self));
  verifier ← map_err SignatureVerificationError_Resolution (resolve (issuer (payload self)));
  map_err SignatureVerificationError_Verification (verify_bytes verifier encoded (signature self)).

(** [From<&InvocationPayload>] and [From<&Delegation>] for [TimeRange]. *)
Definition invocation_range (i : InvocationPayload) : TimeRange := TimeRange.new None (inv_expiration i).
Definition delegation_range (d : DelegationPayload) : TimeRange :=
  TimeRange.new (dlg_not_before d) (dlg_expiration d).

(** * Checking an invocation *)
Inductive CheckFailed :=
  | WaitingOnPromise (w : WaitingOn)
  | CommandEscalation (claimed authorized : Command)
  | PolicyIncompatibility (e : RunError)
  | PolicyViolation (p : Predicate)
  | DelegationAudienceMismatch (claimed authorized : Did)
  | UnauthorizedSubject (claimed authorized : Did)
  | UnprovenSubject (subject issuer : Did)
  | InvalidTimeWindow (range : TimeRange)
  | CheckFailed_TimeBound (e : TimeBoundError).

(** The arguments once every promise is resolved. *)
Definition resolve_arguments (self : InvocationPayload) : outcome CheckFailed Ipld :=
  map ← try_fold (fun map '(k, v) =>
          ipld ← map_err WaitingOnPromise (Promised.to_ipld v); Ok (bt_insert k ipld map))
        [] (inv_arguments self);
  Ok (Ipld.Map map).

(** The body of the loop over the proofs in [syntactic_checks]; the state is the
    time range so far and the last proof verified. *)
Definition check_policy (args : Ipld) (policy : list Predicate) : outcome CheckFailed unit :=
  try_fold (fun _ predicate =>
    holds ← map_err PolicyIncompatibility (run predicate args);
    if (holds : bool) then Ok tt else Err (PolicyViolation predicate)) tt policy.
Definition check_proof (self : InvocationPayload) (args : Ipld)
    (state : TimeRange * option DelegationPayload) (proof : DelegationPayload)
    : outcome CheckFailed (TimeRange * option DelegationPayload) :=
  let '(time_range, authorization) := state in
  let subject :=
    match dlg_subject proof with
    | Subject.Specific subject => subject
    | Subject.Any => match authorization with None => dlg_issuer proof | Some _ => inv_subject self end
    end in
  if decide (subject <> inv_subject self) then
    if bool_decide (authorization = None) && bool_decide (dlg_subject proof = Subject.Any)
    then Err (UnprovenSubject (inv_subject self) (dlg_issuer proof))
    else Err (UnauthorizedSubject (inv_subject self) subject)
  else
    _ ← match authorization with
        | Some evidence =>
            if decide (dlg_issuer proof <> dlg_audience evidence)
            then Err (DelegationAudienceMismatch (dlg_issuer proof) (dlg_audience evidence))
            else Ok tt
        | None =>
            if decide (dlg_issuer proof <> inv_subject self)
            then Err (UnprovenSubject (inv_subject self) (dlg_issuer proof))
            else Ok tt
        end;
    _ ← (if Command_starts_with (inv_command self) (dlg_command proof) then Ok tt
         else Err (CommandEscalation (inv_command self) (dlg_command proof)));
    _ ← check_policy args (dlg_policy proof);
    Ok (TimeRange.intersect time_range (delegation_range proof), Some proof).

(** [InvocationPayload::syntactic_checks]: proofs are in root-to-leaf order. *)
Definition syntactic_checks (self : InvocationPayload) (proofs : list Delegation)
    : outcome CheckFailed TimeRange :=
  args ← resolve_arguments self;
  '(time_range, authorization) ←
    try_fold (check_proof self args) (invocation_range self, None) (payload <$> proofs);
  _ ← match authorization with
      | Some proof =>
          if decide (dlg_audience proof <> inv_issuer self)
          then Err (DelegationAudienceMismatch (inv_issuer self) (dlg_audience proof))
          else Ok tt
      | None =>
          if decide (inv_issuer self <> inv_subject self)
          then Err (UnauthorizedSubject (inv_subject self) (inv_issuer self))
          else Ok tt
      end;
  if TimeRange.is_valid time_range then Ok time_range else Err (InvalidTimeWindow time_range).

(** * Stores of proofs *)
Inductive LockedStoreGetError := Missing (c : Cid) | StorePoisoned.
Record ProofStore := mkProofStore { poisoned : bool; stored : gmap Cid Delegation }.

(** [DelegationStore for Arc<Mutex<HashMap<..>>>]. *)
Definition get_one (store : ProofStore) (dlgs : list Delegation) (c : Cid)
    : outcome LockedStoreGetError (list Delegation) :=
  match stored store !! c with Some dlg => Ok (dlgs ++ [dlg]) | None => Err (Missing c) end.
Definition get_all (store : ProofStore) (cids : list Cid) : outcome LockedStoreGetError (list Delegation) :=
  if poisoned store then Err StorePoisoned else try_fold (get_one store) [] cids.
Definition insert_by_cid (store : ProofStore) (cid : Cid) (delegation : Delegation)
    : ProofStore * outcome LockedStoreGetError unit :=
  if poisoned store then (store, Err StorePoisoned)
  else (mkProofStore false (<[cid := delegation]> (stored store)), Ok tt).
(** [store::insert]. *)
Definition store_insert `{Tokens DelegationPayload} (store : ProofStore) (delegation : Delegation)
    : ProofStore * outcome LockedStoreGetError Cid :=
  let cid := to_cid delegation in
  let '(store, o) := insert_by_cid store cid delegation in
  (store, _ ← o; Ok cid).

Inductive StoredCheckError := GetError (e : LockedStoreGetError) | StoredCheckError_CheckFailed (e : CheckFailed).

(** [InvocationPayload::check]. *)
Definition payload_check (self : InvocationPayload) (proof_store : ProofStore)
    : outcome StoredCheckError TimeRange :=
  dlgs ← map_err GetError (get_all proof_store (inv_proofs self));
  map_err StoredCheckError_CheckFailed (syntactic_checks self dlgs).

Inductive InvocationCheckError `{Tokens InvocationPayload, Resolver} :=
  | InvocationCheckError_SignatureVerification (e : SignatureVerificationError EncodingError)
  | InvocationCheckError_StoredCheck (e : StoredCheckError).

(** [Invocation::check]. *)
Definition check `{Tokens InvocationPayload, Resolver} (self : Invocation) (proof_store : ProofStore)
    : outcome InvocationCheckError TimeRange :=
  _ ← map_err InvocationCheckError_SignatureVerification (verify_signature inv_issuer self);
  map_err InvocationCheckError_StoredCheck (payload_check (payload self) proof_store).

(** * Building tokens *)

(** A signer: its DID and its signatures. *)
Class Signing := {
  Signer : Type;
  SigningError : Type;
  signer_did : Signer -> Did;
  sign : Signer -> bytes -> outcome SigningError bytes;
  (** the header of the signer's algorithm, and a nonce from the system *)
  varsig : bytes;
  generate_16 : bytes
}.
Inductive BuildError (E : Type) `{Signing} := BuildError_Encoding (e : E) | BuildError_Signing (e : SigningError).
Arguments BuildError_Encoding {E _}.
Arguments BuildError_Signing {E _}.

(** The end of both [try_build]s. *)
Definition seal {A} `{Tokens A, Signing} (issuer : Signer) (payload : A)
    : outcome (BuildError EncodingError) (Envelope A) :=
  encoded ← map_err BuildError_Encoding (encode varsig payload);
  sig ← map_err BuildError_Signing (sign issuer encoded);
  Ok (mkEnvelope sig varsig payload).

(** [DelegationBuilder] and [InvocationBuilder] with every required field set;
    an empty [meta] and an audience that is the subject are left out. *)
Definition build_delegation `{Tokens DelegationPayload, Signing} (issuer : Signer) (audience : Did)
    (subject : Subject) (command : Command) (policy : list Predicate)
    (expiration not_before : option Timestamp) (meta : btree Ipld) (nonce : option Nonce)
    : outcome (BuildError EncodingError) Delegation :=
  seal issuer
    (mkDelegationPayload (signer_did issuer) audience subject command policy expiration not_before
       (match meta with [] => None | _ => Some meta end)
       (default (Nonce.Nonce16 generate_16) nonce)).
Definition build_invocation `{Tokens InvocationPayload, Signing} (issuer : Signer) (audience subject : Did)
    (command : Command) (arguments : btree Promised) (proofs : list Cid) (cause : option Cid)
    (expiration issued_at : option Timestamp) (meta : btree Ipld) (nonce : option Nonce)
    : outcome (BuildError EncodingError) Invocation :=
  seal issuer
    (mkInvocationPayload (signer_did issuer) (if decide (audience = subject) then None else Some audience)
       subject command arguments proofs cause issued_at expiration
       (match meta with [] => None | _ => Some meta end)
       (default (Nonce.Nonce16 generate_16) nonce)).
