(* ===== verification/DelegationCorrect.v ===== *)
(** What the verification of an invocation means: it succeeds exactly when the
    proofs hand authority from the subject to the issuer, each of them covers the
    invocation, and some instant is in every validity window. *)
From S2P Require Import Prelude Ipld Predicate UcanBase Delegation.

(** ** Authority *)

(** [delegates from proofs to]: each proof is issued by whom the one before it
    was granted to. *)
Inductive delegates : Did -> list DelegationPayload -> Did -> Prop :=
  | delegates_nil did : delegates did [] did
  | delegates_cons proof proofs did :
      delegates (dlg_audience proof) proofs did -> delegates (dlg_issuer proof) (proof :: proofs) did.

(** Authority ends with the audience of the last proof. *)
Lemma delegates_last from proofs to :
  delegates from proofs to ->
  to = match last proofs with Some proof => dlg_audience proof | None => from end.
Proof.
  induction 1 as [|proof proofs did Hd IH]; [done|]. rewrite last_cons, IH. by destruct (last proofs).
Qed.

(** What a proof must say of a subject, a command and arguments. *)
Record covers (subject : Did) (command : Command) (args : Ipld) (proof : DelegationPayload) : Prop := {
  covers_subject : Subject.allows (dlg_subject proof) subject = true;
  covers_command : dlg_command proof `prefix_of` command;
  covers_policy : Forall (fun p => run p args = Ok true) (dlg_policy proof)
}.

Record authorized (inv : InvocationPayload) (proofs : list DelegationPayload) (time : Timestamp) : Prop := {
  authorized_chain : delegates (inv_subject inv) proofs (inv_issuer inv);
  authorized_proofs : exists args, resolve_arguments inv = Ok args /\
    Forall (covers (inv_subject inv) (inv_command inv) args) proofs;
  authorized_time : Forall (fun r => in_range time r) (invocation_range inv :: (delegation_range <$> proofs))
}.

(** ** The checks *)
Lemma check_policy_spec args policy :
  check_policy args policy = Ok tt <-> Forall (fun p => run p args = Ok true) policy.
Proof.
  unfold check_policy. induction policy as [|p policy IH]; csimpl; [by split; [constructor|]|].
  rewrite Forall_cons, <- IH. destruct (run p args) as [[]|e|m|]; csimpl; naive_solver.
Qed.

(** The DID that the next proof must be issued by. *)
Definition holder (inv : InvocationPayload) (authorization : option DelegationPayload) : Did :=
  match authorization with Some evidence => dlg_audience evidence | None => inv_subject inv end.

Lemma check_proof_spec inv args time_range authorization proof st :
  check_proof inv args (time_range, authorization) proof = Ok st <->
  covers (inv_subject inv) (inv_command inv) args proof /\
  dlg_issuer proof = holder inv authorization /\
  st = (TimeRange.intersect time_range (delegation_range proof), Some proof).
Proof.
  assert (Command_starts_with (inv_command inv) (dlg_command proof) = true <->
    dlg_command proof `prefix_of` inv_command inv) as Hcmd by apply command_starts_with_spec.
  pose proof (check_policy_spec args (dlg_policy proof)) as Hpol.
  unfold check_proof. split.
  - case_decide as Hs; [by repeat case_match|]. intros Ho.
    apply bind_Ok_inv in Ho as ([] & Hlink & Ho). apply bind_Ok_inv in Ho as ([] & Hc & Ho).
    apply bind_Ok_inv in Ho as ([] & Hp & Ho). injection Ho as <-.
    destruct (Command_starts_with _ _) eqn:Ecmd; [|done].
    split; [|split; [by destruct authorization; case_decide|done]].
    split; [|by apply Hcmd|by apply Hpol].
    destruct (dlg_subject proof); [|done]. by apply bool_decide_eq_true.
  - intros ([Hsub Hcov%Hcmd Hrun%Hpol] & Hissuer & ->).
    rewrite decide_False.
    + rewrite Hcov, Hrun. destruct authorization; csimpl in *; rewrite decide_False by auto; done.
    + intros Hne. apply Hne. destruct (dlg_subject proof); csimpl in *; [by apply bool_decide_eq_true in Hsub|].
      by destruct authorization.
Qed.


Lemma check_proofs_spec inv args proofs time_range authorization st :
  try_fold (check_proof inv args) (time_range, authorization) proofs = Ok st <->
  Forall (covers (inv_subject inv) (inv_command inv) args) proofs /\
  delegates (holder inv authorization) proofs (holder inv st.2) /\
  st = (foldl (fun r proof => TimeRange.intersect r (delegation_range proof)) time_range proofs,
        match last proofs with Some proof => Some proof | None => authorization end).
Proof.
  revert time_range authorization; induction proofs as [|proof proofs IH]; intros time_range authorization.
  { csimpl. split; [intros [= <-]; repeat split; constructor|by intros (_ & _ & ->)]. }
  cbn [try_fold foldl]. rewrite last_cons, Forall_cons. split.
  - intros (st' & (Hcov & Hiss & ->)%check_proof_spec & Hrest)%bind_Ok_inv.
    apply IH in Hrest as (Hcovs & Hdel & Hst). cbn [holder] in Hdel. rewrite <- Hiss.
    split_and!; [done|done|by constructor|]. rewrite Hst. by destruct (last proofs).
  - intros ([Hcov Hcovs] & Hdel & Hst). inversion Hdel as [|? ? ? Hdel' Heq]; subst proof0 proofs0 did.
    assert (check_proof inv args (time_range, authorization) proof =
      Ok (TimeRange.intersect time_range (delegation_range proof), Some proof)) as ->
      by (by apply check_proof_spec).
    rewrite bind_Ok. apply IH. split_and!; [done|done|]. rewrite Hst. by destruct (last proofs).
Qed.

Lemma in_range_foldl t proofs r :
  inclusive r ->
  let r' := foldl (fun r proof => TimeRange.intersect r (delegation_range proof)) r proofs in
  inclusive r' /\ (in_range t r' <-> Forall (in_range t) (r :: (delegation_range <$> proofs))).
Proof.
  revert r; induction proofs as [|proof proofs IH]; intros r Hr; csimpl.
  { split; [done|]. rewrite Forall_singleton. done. }
  assert (inclusive (delegation_range proof)) by apply new_inclusive.
  destruct (IH (TimeRange.intersect r (delegation_range proof))) as [Hi Hin]; [by apply intersect_inclusive|].
  split; [done|]. rewrite Hin, !Forall_cons, in_range_intersect by done. tauto.
Qed.

Abbreviation windows inv proofs :=
  (foldl (fun r proof => TimeRange.intersect r (delegation_range proof)) (invocation_range inv) proofs).

Lemma windows_spec inv proofs :
  inclusive (windows inv proofs) /\
  (forall t, in_range t (windows inv proofs) <->
     Forall (in_range t) (invocation_range inv :: (delegation_range <$> proofs))).
Proof.
  split; [|intros t]; apply in_range_foldl, new_inclusive.
  all: exact 0%Z.
Qed.

(** [syntactic_checks] succeeds with the intersection of the windows. *)
Lemma syntactic_checks_spec inv (proofs : list Delegation) r :
  syntactic_checks inv proofs = Ok r <->
  (exists time, authorized inv (payload <$> proofs) time) /\ r = windows inv (payload <$> proofs).
Proof.
  destruct (windows_spec inv (payload <$> proofs)) as [Hinc Hin].
  assert (forall args r authorization, try_fold (check_proof inv args) (invocation_range inv, None) (payload <$> proofs)
    = Ok (r, authorization) <-> Forall (covers (inv_subject inv) (inv_command inv) args) (payload <$> proofs) /\
      delegates (inv_subject inv) (payload <$> proofs) (holder inv authorization) /\
      r = windows inv (payload <$> proofs) /\ authorization = last (payload <$> proofs)) as Hfold.
  { intros args r' au. rewrite check_proofs_spec. csimpl. destruct (last (payload <$> proofs)); naive_solver. }
  unfold syntactic_checks. split.
  - intros (args & Hargs & Ho)%bind_Ok_inv. apply bind_Ok_inv in Ho as ([r' au] & Hf & Ho).
    apply Hfold in Hf as (Hcov & Hdel & -> & Hau). apply bind_Ok_inv in Ho as ([] & Hlast & Ho).
    destruct (TimeRange.is_valid _) eqn:Hv; [|done]. injection Ho as <-. split; [|done].
    apply is_valid_spec in Hv as [t Ht]; [|done]. exists t. split; [|by exists args|by apply Hin].
    assert (holder inv au = inv_issuer inv) as <-; [|done].
    destruct au; csimpl in *; case_decide as Hd; done.
  - intros [[t [Hdel (args & Hargs & Hcov) Ht]] ->]. rewrite Hargs, bind_Ok.
    assert (try_fold (check_proof inv args) (invocation_range inv, None) (payload <$> proofs) =
      Ok (windows inv (payload <$> proofs), last (payload <$> proofs))) as ->.
    { apply check_proofs_spec. split_and!; [done| |csimpl; by destruct (last _)].
      change (delegates (inv_subject inv) (payload <$> proofs) (holder inv (last (payload <$> proofs)))).
      assert (holder inv (last (payload <$> proofs)) = inv_issuer inv) as ->; [|done].
      apply delegates_last in Hdel. by destruct (last _). }
    rewrite bind_Ok.
    assert (match last (payload <$> proofs) with Some proof => dlg_audience proof = inv_issuer inv
      | None => inv_issuer inv = inv_subject inv end) as Hlast
      by (apply delegates_last in Hdel; by destruct (last _)).
    destruct (last _); rewrite decide_False by auto; rewrite bind_Ok;
      rewrite (proj2 (is_valid_spec _ Hinc)) by (exists t; by apply Hin); done.
Qed.

(** ** Proofs from a store *)
Lemma get_one_eq store dlgs c :
  get_one store dlgs c = match stored store !! c with Some dlg => Ok (dlgs ++ [dlg]) | None => Err (Missing c) end.
Proof. done. Qed.

Lemma get_all_spec store cids dlgs :
  get_all store cids = Ok dlgs <->
  poisoned store = false /\ Forall2 (fun c dlg => stored store !! c = Some dlg) cids dlgs.
Proof.
  unfold get_all. destruct (poisoned store); [by split; [|intros [? _]]|].
  assert (forall acc, try_fold (get_one store) acc cids = Ok dlgs <->
    exists dlgs', dlgs = acc ++ dlgs' /\ Forall2 (fun c dlg => stored store !! c = Some dlg) cids dlgs') as Hacc.
  { induction cids as [|c cids IH]; intros acc; csimpl.
    - split; [intros [= ->]; exists []; by rewrite app_nil_r|].
      intros (dlgs' & -> & ->%Forall2_nil_inv_l). by rewrite app_nil_r.
    - rewrite get_one_eq. destruct (stored store !! c) as [dlg|] eqn:E; csimpl.
      + rewrite IH. split.
        * intros (dlgs' & -> & Hd). exists (dlg :: dlgs'). rewrite <- app_assoc. split; [done|by constructor].
        * intros (dlgs' & -> & Hd). inversion Hd as [|? dlg' ? dlgs'' Hdlg Hd']; subst.
          rewrite E in Hdlg. injection Hdlg as <-. exists dlgs''. by rewrite <- app_assoc.
      + split; [done|]. intros (dlgs' & -> & Hd). inversion Hd; congruence. }
  rewrite Hacc. csimpl. naive_solver.
Qed.

Section verification.
Context `{Tokens InvocationPayload, Resolver}.

(** The proofs that an invocation refers to. *)
Definition holds_proofs (store : ProofStore) (cids : list Cid) (proofs : list Delegation) : Prop :=
  poisoned store = false /\ Forall2 (fun c dlg => stored store !! c = Some dlg) cids proofs.

Lemma check_spec (self : Invocation) store r :
  check self store = Ok r <->
  verify_signature inv_issuer self = Ok tt /\
  exists proofs, holds_proofs store (inv_proofs (payload self)) proofs /\
    (exists time, authorized (payload self) (payload <$> proofs) time) /\
    r = windows (payload self) (payload <$> proofs).
Proof.
  unfold check, payload_check. split.
  - intros ([] & Hsig & Ho)%bind_Ok_inv.
    destruct (verify_signature inv_issuer self) as [[]|e|m|]; try done. split; [done|].
    destruct (get_all store (inv_proofs (payload self))) as [dlgs|e|m|] eqn:E; csimpl in *; try done.
    destruct (syntactic_checks (payload self) dlgs) as [r'|e|m|] eqn:Ec; csimpl in *; try done.
    injection Ho as <-. apply syntactic_checks_spec in Ec as [Hauth ->].
    exists dlgs. split_and!; [by apply get_all_spec|done|done].
  - intros (Hsig & dlgs & Hd%get_all_spec & Hauth & ->). rewrite Hsig, Hd. csimpl.
    by rewrite (proj2 (syntactic_checks_spec _ _ _) (conj Hauth eq_refl)).
Qed.

(** C6: An invocation is verified exactly when its signature is valid, every proof
    it names is in the store, the proofs lead from its subject to its issuer,
    each of them covers its subject, its command and its arguments, and some
    instant lies in all the validity windows; the range returned is the set of
    those instants. *)
Theorem check_exact (self : Invocation) store :
  ((exists r, check self store = Ok r) <->
   verify_signature inv_issuer self = Ok tt /\
   exists proofs, holds_proofs store (inv_proofs (payload self)) proofs /\
     exists time, authorized (payload self) (payload <$> proofs) time) /\
  (forall r proofs, check self store = Ok r -> holds_proofs store (inv_proofs (payload self)) proofs ->
     forall time, in_range time r <-> authorized (payload self) (payload <$> proofs) time).
Proof.
  split.
  - split; [intros [r (Hs & ps & Hps & Ha & _)%check_spec]; eauto|].
    intros (Hs & ps & Hps & Ha). eexists. apply check_spec. eauto.
  - intros r ps (_ & ps' & [_ Hps'] & (t & [Hd Hc _]) & ->)%check_spec [_ Hps] time.
    assert (ps' = ps) as ->.
    { clear -Hps Hps'. revert ps Hps. induction Hps' as [|c p cs ps' Hp Hps' IH]; intros ps Hps;
        inversion Hps; subst; [done|]. f_equal; [congruence|auto]. }
    rewrite (proj2 (windows_spec _ _)). split; [by split|by intros [_ _ ?]].
Qed.

Lemma syntactic_checks_payload inv (ps ps' : list Delegation) :
  payload <$> ps = payload <$> ps' -> syntactic_checks inv ps = syntactic_checks inv ps'.
Proof. unfold syntactic_checks. by intros ->. Qed.

Lemma get_all_payload store store' cids :
  poisoned store = poisoned store' -> payload <$> stored store = payload <$> stored store' ->
  match get_all store cids, get_all store' cids with
  | Ok ps, Ok ps' => payload <$> ps = payload <$> ps'
  | Err e, Err e' => e = e'
  | _, _ => False
  end.
Proof.
  intros Hp Hs. unfold get_all. rewrite <- Hp. destruct (poisoned store); [done|].
  assert (forall c, payload <$> stored store !! c = payload <$> stored store' !! c) as Hl.
  { intros c. apply (f_equal (.!! c)) in Hs. by rewrite !lookup_fmap in Hs. }
  cut (forall acc acc' : list Delegation, payload <$> acc = payload <$> acc' ->
    match try_fold (get_one store) acc cids, try_fold (get_one store') acc' cids with
    | Ok ps, Ok ps' => payload <$> ps = payload <$> ps'
    | Err e, Err e' => e = e'
    | _, _ => False
    end); [by intros Hcut; apply Hcut|].
  induction cids as [|c cids IH]; intros acc acc' Hacc; cbn [try_fold]; [done|]. rewrite !get_one_eq.
  specialize (Hl c). destruct (stored store !! c) as [d|], (stored store' !! c) as [d'|]; try done.
  apply IH. rewrite !fmap_app, Hacc. csimpl in *. by injection Hl as ->.
Qed.

(** C37: Verification never looks at the signatures of the proofs: stores whose
    delegations have the same payloads are interchangeable, so a delegation that
    its issuer never signed is as good as a signed one. *)
Theorem check_ignores_proof_signatures (self : Invocation) store store' :
  poisoned store = poisoned store' ->
  payload <$> stored store = payload <$> stored store' ->
  check self store = check self store'.
Proof.
  intros Hp Hs. unfold check, payload_check. destruct (verify_signature inv_issuer self) as [[]| | |]; try done.
  csimpl. pose proof (get_all_payload _ _ (inv_proofs (payload self)) Hp Hs) as Hg.
  destruct (get_all store _), (get_all store' _); try done; csimpl; [|by subst].
  by erewrite syntactic_checks_payload.
Qed.
End verification.
