(* ===== verification/Chain.v ===== *)
(** Bundles of tokens (rust/dialog-ucan-core/src/container.rs and container/
    {delegation,invocation,check_failed}.rs): containers, chains of delegations and
    invocations with their proofs. *)
From S2P Require Import Prelude Ipld Predicate UcanBase Delegation DelegationCorrect.

(** [ContainerError]; a message keeps the data that it formats. *)
Inductive Message :=
  | FailedToDecodeContainer
  | MissingVersionKey
  | TokensMustBeAnArray
  | AtLeastOneToken
  | TokenMustBeBytes (i : nat)
  | FailedToEncodeContainer
  | RequiresOneDelegation
  | FailedToDecodeDelegation (i : nat)
  | FailedToDecodeInvocation
  | AtLeastAnInvocation
  | PrincipalAlignment (issuer audience : Did)
  | PrincipalAlignmentAt (i : nat) (audience issuer : Did)
  | InvalidSignature
  | ProofNotFound (e : LockedStoreGetError)
  | InvalidProofIssuerChain (claimed authorized : Did)
  | SubjectNotAllowed (claimed authorized : Did)
  | RootIssuerNotSubject (subject issuer : Did)
  | CommandMismatch (expected found : Command)
  | PredicateFailed (p : Predicate)
  | PredicateRunError (e : RunError)
  | WaitingOnPromises (w : WaitingOn)
  | InvalidWindow (range : TimeRange)
  | TimeBoundMessage (e : TimeBoundError).
Inductive ContainerError := ContainerError_Invocation (m : Message) | ContainerError_Configuration (m : Message).

(** [check_failed_to_container_error]. *)
Definition check_failed_to_container_error (err : CheckFailed) : ContainerError :=
  ContainerError_Invocation
    match err with
    | DelegationAudienceMismatch claimed authorized => InvalidProofIssuerChain claimed authorized
    | UnauthorizedSubject claimed authorized => SubjectNotAllowed claimed authorized
    | UnprovenSubject subject issuer => RootIssuerNotSubject subject issuer
    | CommandEscalation claimed authorized => CommandMismatch authorized claimed
    | PolicyViolation predicate => PredicateFailed predicate
    | PolicyIncompatibility run_err => PredicateRunError run_err
    | WaitingOnPromise waiting => WaitingOnPromises waiting
    | InvalidTimeWindow range => InvalidWindow range
    | CheckFailed_TimeBound err => TimeBoundMessage err
    end.

(** * Containers *)
Record Container := mkContainer { tokens : list bytes }.
Definition CONTAINER_VERSION : str := lit "ctn-v1".

(** DAG-CBOR of a map of IPLD values, by a library. *)
Class MapCodec := {
  MapCodecError : Type;
  map_to_vec : btree Ipld -> outcome MapCodecError bytes;
  map_from_slice : bytes -> outcome MapCodecError (btree Ipld)
}.

Definition Container_from_bytes `{MapCodec} (data : bytes) : outcome ContainerError Container :=
  container ← map_err (fun _ => ContainerError_Invocation FailedToDecodeContainer) (map_from_slice data);
  tokens_ipld ← ok_or (ContainerError_Invocation MissingVersionKey) (bt_get CONTAINER_VERSION container);
  match tokens_ipld with
  | Ipld.List tokens =>
      if bool_decide (tokens = []) then Err (ContainerError_Invocation AtLeastOneToken)
      else
        token_bytes ← try_fold (fun acc '(i, token) =>
          match token with
          | Ipld.Bytes b => Ok (acc ++ [b])
          | _ => Err (ContainerError_Invocation (TokenMustBeBytes i))
          end) [] (imap pair tokens);
        Ok (mkContainer token_bytes)
  | _ => Err (ContainerError_Invocation TokensMustBeAnArray)
  end.
Definition Container_to_bytes `{MapCodec} (self : Container) : outcome ContainerError bytes :=
  map_err (fun _ => ContainerError_Invocation FailedToEncodeContainer)
    (map_to_vec (bt_insert CONTAINER_VERSION (Ipld.List (Ipld.Bytes <$> tokens self)) [])).

(** * Chains of delegations *)
Section delegations.
Context `{Tokens DelegationPayload}.

Record DelegationChain := mkDelegationChain {
  delegations : gmap Cid Delegation;
  proof_cids : list Cid
}.

Definition DelegationChain_new (delegation : Delegation) : DelegationChain :=
  let cid := to_cid delegation in
  mkDelegationChain {[cid := delegation]} [cid].

(** [TryFrom<Vec<Delegation>>]. *)
Definition check_pair (_ : unit) (neighbors : nat * (Delegation * Delegation)) : outcome ContainerError unit :=
  let '(i, (current, next)) := neighbors in
  if decide (dlg_audience (payload current) <> dlg_issuer (payload next))
  then Err (ContainerError_Invocation
         (PrincipalAlignmentAt i (dlg_audience (payload current)) (dlg_issuer (payload next))))
  else Ok tt.
Definition check_alignment (delegations_vec : list Delegation) : outcome ContainerError unit :=
  try_fold check_pair tt (imap pair (zip delegations_vec (tail delegations_vec))).
Definition add_proof (chain : DelegationChain) (delegation : Delegation) : DelegationChain :=
  let cid := to_cid delegation in
  mkDelegationChain (<[cid := delegation]> (delegations chain)) (proof_cids chain ++ [cid]).
Definition try_from_vec (delegations_vec : list Delegation) : outcome ContainerError DelegationChain :=
  if bool_decide (length delegations_vec = 0%nat) then Err (ContainerError_Configuration RequiresOneDelegation)
  else
    _ ← check_alignment delegations_vec;
    Ok (foldl add_proof (mkDelegationChain ∅ []) delegations_vec).

(** Decoding each token, as [from_delegation_bytes] and the container do. *)
Definition decode_delegations (token_bytes : list bytes) : outcome ContainerError (list Delegation) :=
  try_fold (fun acc '(i, data) =>
    delegation ← map_err (fun _ => ContainerError_Invocation (FailedToDecodeDelegation i)) (from_slice data);
    Ok (acc ++ [delegation])) [] (imap pair token_bytes).
Definition from_delegation_bytes (proof_bytes : list bytes) : outcome ContainerError DelegationChain :=
  if bool_decide (length proof_bytes = 0%nat) then Err (ContainerError_Configuration RequiresOneDelegation)
  else delegations_vec ← decode_delegations proof_bytes; try_from_vec delegations_vec.
Definition try_from_container (container : Container) : outcome ContainerError DelegationChain :=
  delegations_vec ← decode_delegations (tokens container); try_from_vec delegations_vec.

(** [From<&DelegationChain> for Container]: what does not serialize is left out. *)
Definition Container_of_chain (chain : DelegationChain) : Container :=
  mkContainer (omap (fun cid =>
    delegation ← delegations chain !! cid;
    match to_vec delegation with Ok data => Some data | _ => None end) (proof_cids chain)).

(** The getters; [get(..).unwrap()] panics on a missing delegation. *)
Definition proof_for_cid {E} (chain : DelegationChain) (cid : Cid) : outcome E Delegation :=
  match delegations chain !! cid with Some d => Ok d | None => Panic "called unwrap on a None value" end.
Definition chain_proofs {E} (chain : DelegationChain) : outcome E (list Delegation) :=
  map_outcome (proof_for_cid chain) (proof_cids chain).
Definition export {E} (chain : DelegationChain) : outcome E (list (Cid * Delegation)) :=
  map_outcome (fun cid => d ← proof_for_cid chain cid; Ok (cid, d)) (proof_cids chain).
Definition last_proof {E} (chain : DelegationChain) : outcome E Delegation :=
  match last (proof_cids chain) with
  | Some cid => proof_for_cid chain cid
  | None => Panic "attempt to subtract with overflow"
  end.
Definition first_proof {E} (chain : DelegationChain) : outcome E Delegation :=
  cid ← index_or_panic (proof_cids chain) 0; proof_for_cid chain cid.
Definition audience {E} (chain : DelegationChain) : outcome E Did :=
  d ← last_proof chain; Ok (dlg_audience (payload d)).
Definition chain_subject {E} (chain : DelegationChain) : outcome E (option Did) :=
  d ← first_proof chain;
  Ok (match dlg_subject (payload d) with Subject.Specific did => Some did | Subject.Any => None end).
Definition chain_issuer {E} (chain : DelegationChain) : outcome E Did :=
  d ← first_proof chain; Ok (dlg_issuer (payload d)).
Definition ability {E} (chain : DelegationChain) : outcome E str :=
  d ← last_proof chain;
  Ok (match dlg_command (payload d) with
      | [] => lit "/"
      | segments => lit "/" ++ join (lit "/") segments
      end).

(** [iter().max()] and [iter().min()]. *)
Definition max_of (l : list Timestamp) : option Timestamp :=
  foldl (fun acc t => Some (match acc with Some a => Z.max a t | None => t end)) None l.
Definition min_of (l : list Timestamp) : option Timestamp :=
  foldl (fun acc t => Some (match acc with Some a => Z.min a t | None => t end)) None l.
Definition chain_not_before (chain : DelegationChain) : option Timestamp :=
  max_of (omap (fun cid => d ← delegations chain !! cid; dlg_not_before (payload d)) (proof_cids chain)).
Definition chain_expiration (chain : DelegationChain) : option Timestamp :=
  min_of (omap (fun cid => d ← delegations chain !! cid; dlg_expiration (payload d)) (proof_cids chain)).

Definition push (chain : DelegationChain) (delegation : Delegation) : outcome ContainerError DelegationChain :=
  current_audience ← audience chain;
  let new_issuer := dlg_issuer (payload delegation) in
  if decide (new_issuer <> current_audience)
  then Err (ContainerError_Invocation (PrincipalAlignment new_issuer current_audience))
  else Ok (add_proof chain delegation).
End delegations.

(** * Invocations with their proofs *)
Record InvocationChain := mkInvocationChain {
  invocation : Invocation;
  chain_delegations : gmap Cid Delegation
}.

Section invocations.
Context `{Tokens DelegationPayload, Tokens InvocationPayload, Resolver}.

(** [InvocationChain::verify]: the store is made for the check. *)
Definition verify (self : InvocationChain) : outcome ContainerError unit :=
  let store := mkProofStore false (chain_delegations self) in
  _ ← map_err (fun err =>
        match err with
        | InvocationCheckError_SignatureVerification _ => ContainerError_Invocation InvalidSignature
        | InvocationCheckError_StoredCheck (GetError get_err) =>
            ContainerError_Invocation (ProofNotFound get_err)
        | InvocationCheckError_StoredCheck (StoredCheckError_CheckFailed check_err) =>
            check_failed_to_container_error check_err
        end) (check (invocation self) store);
  Ok tt.

(** [TryFrom<Container>] and [From<&InvocationChain> for Container]. *)
Definition InvocationChain_try_from (container : Container) : outcome ContainerError InvocationChain :=
  match tokens container with
  | [] => Err (ContainerError_Invocation AtLeastAnInvocation)
  | first :: rest =>
      invocation ← map_err (fun _ => ContainerError_Invocation FailedToDecodeInvocation) (from_slice first);
      delegations_vec ← decode_delegations rest;
      Ok (mkInvocationChain invocation
            (foldl (fun map delegation => <[to_cid delegation := delegation]> map) ∅ delegations_vec))
  end.
Definition Container_of_invocation (chain : InvocationChain) : Container :=
  mkContainer
    (match to_vec (invocation chain) with Ok data => [data] | _ => [] end ++
     omap (fun cid =>
       delegation ← chain_delegations chain !! cid;
       match to_vec delegation with Ok data => Some data | _ => None end)
       (inv_proofs (payload (invocation chain)))).
Definition InvocationChain_to_bytes `{MapCodec} (self : InvocationChain) : outcome ContainerError bytes :=
  Container_to_bytes (Container_of_invocation self).
Definition InvocationChain_from_bytes `{MapCodec} (data : bytes) : outcome ContainerError InvocationChain :=
  container ← Container_from_bytes data; InvocationChain_try_from container.
End invocations.
