(* ===== verification/ChainCorrect.v ===== *)
(** Chains of delegations keep their principals aligned, answer about their ends
    without panics, and survive the container format. *)
From S2P Require Import Prelude Ipld Predicate UcanBase Delegation DelegationCorrect Chain.

Section chains.
Context `{Tokens DelegationPayload}.

(** The delegations that a chain stands for, root first. *)
Record chain_of (chain : DelegationChain) (ds : list Delegation) : Prop := {
  chain_nonempty : ds <> [];
  chain_cids : proof_cids chain = to_cid <$> ds;
  chain_found d : d ∈ ds -> delegations chain !! to_cid d = Some d;
  chain_aligned : exists from to, delegates from (payload <$> ds) to
}.

(** CIDs name the delegations of a list. *)
Definition cids_distinct (ds : list Delegation) : Prop :=
  forall d d', d ∈ ds -> d' ∈ ds -> to_cid d = to_cid d' -> d = d'.

Lemma delegates_app from ps qs to :
  delegates from (ps ++ qs) to <-> exists mid, delegates from ps mid /\ delegates mid qs to.
Proof.
  revert from; induction ps as [|p ps IH]; intros from; csimpl.
  - split; [intros; eexists; split; [constructor|done]|]. intros (mid & Hp & Hq). by inversion Hp; subst.
  - split.
    + inversion 1 as [|? ? ? Hd]; subst. apply IH in Hd as (mid & Hp & Hq).
      exists mid. split; [by constructor|done].
    + intros (mid & Hp & Hq). inversion Hp as [|? ? ? Hd]; subst. constructor. apply IH. eauto.
Qed.

Lemma check_alignment_spec ds :
  check_alignment ds = Ok tt <-> ds = [] \/ exists from to, delegates from (payload <$> ds) to.
Proof.
  unfold check_alignment.
  assert (forall l (k : nat), try_fold check_pair tt (imap (fun i x => (k + i, x)%nat) (zip l (tail l))) = Ok tt <->
    l = [] \/ exists from to, delegates from (payload <$> l) to) as Hl.
  { intros l; induction l as [|d l IH]; intros k; [by split; [left|]|].
    destruct l as [|d' l].
    { split; [|done]. intros _. right. exists (dlg_issuer (payload d)), (dlg_audience (payload d)).
      repeat constructor. }
    cbn [zip zip_with tail imap try_fold check_pair].
    specialize (IH (S k)). cbn [tail] in IH.
    rewrite (imap_ext _ (fun i x => (S k + i, x)%nat)) by (intros; f_equal/=; lia).
    case_decide as Hd; csimpl.
    - split; [done|]. intros [?|(from & to & Hdel)]; [done|].
      inversion Hdel as [|? ? ? Hdel']; subst. inversion Hdel'; congruence.
    - rewrite IH. split; (intros [?|(from & to & Hdel)]; [done|]; right).
      + inversion Hdel; subst. exists (dlg_issuer (payload d)), to. constructor. rewrite Hd. by constructor.
      + inversion Hdel; subst. by exists (dlg_audience (payload d)), to. }
  specialize (Hl ds 0%nat). by rewrite (imap_ext _ pair) in Hl by done.
Qed.

Lemma try_from_vec_spec ds chain :
  cids_distinct ds -> try_from_vec ds = Ok chain -> chain_of chain ds.
Proof.
  intros Hdist. unfold try_from_vec. case_bool_decide as Hne; [done|].
  intros ([] & [->|Hal]%check_alignment_spec & Hc)%bind_Ok_inv; [done|]. injection Hc as <-.
  assert (forall l chain, (forall d, d ∈ l -> d ∈ ds) ->
    (forall d, d ∈ ds -> to_cid d ∈ proof_cids chain -> delegations chain !! to_cid d = Some d) ->
    proof_cids (foldl add_proof chain l) = proof_cids chain ++ (to_cid <$> l) /\
    forall d, d ∈ ds -> to_cid d ∈ proof_cids (foldl add_proof chain l) ->
      delegations (foldl add_proof chain l) !! to_cid d = Some d) as Hadd.
  { intros l; induction l as [|d l IH]; intros chain Hsub Hfound; csimpl; [by rewrite app_nil_r|].
    destruct (IH (add_proof chain d)) as [Hcids Hf]; [set_solver| |].
    - intros d' Hd'. unfold add_proof; csimpl. intros Hin.
      destruct (decide (to_cid d = to_cid d')) as [E|E].
      + rewrite E, lookup_insert_eq. f_equal. apply Hdist; [set_solver|done|done].
      + rewrite lookup_insert_ne by done. apply Hfound; [done|]. set_solver.
    - split; [|done]. rewrite Hcids. csimpl. by rewrite <- app_assoc. }
  destruct (Hadd ds (mkDelegationChain ∅ [])) as [Hcids Hfound]; [done|by intros ? ? ?%elem_of_nil|].
  split; [by intros ->|done| |done]. intros d Hd. apply Hfound; [done|]. rewrite Hcids. csimpl.
  by apply list_elem_of_fmap_2.
Qed.

Lemma chain_end {E} chain ds :
  chain_of chain ds -> exists d, last ds = Some d /\ last_proof (E := E) chain = Ok d.
Proof.
  intros [Hne Hcids Hfound _]. destruct ds as [|d ds _] using rev_ind; [done|]. exists d.
  rewrite last_snoc. split; [done|]. unfold last_proof, proof_for_cid.
  rewrite Hcids, fmap_app; csimpl. rewrite last_snoc, Hfound by set_solver. done.
Qed.

Lemma chain_front {E} chain ds :
  chain_of chain ds -> exists d, head ds = Some d /\ first_proof (E := E) chain = Ok d.
Proof.
  intros [Hne Hcids Hfound _]. destruct ds as [|d ds]; [done|]. exists d. split; [done|].
  unfold first_proof, index_or_panic, proof_for_cid. rewrite Hcids; csimpl. by rewrite Hfound by set_solver.
Qed.

Lemma chain_proofs_spec {E} chain ds : chain_of chain ds -> chain_proofs (E := E) chain = Ok ds.
Proof.
  intros [_ Hcids Hfound _]. unfold chain_proofs. rewrite Hcids. apply map_outcome_Ok.
  apply Forall2_fmap_l, Forall_Forall2_diag, Forall_forall. intros d Hd. 
  unfold compose, proof_for_cid. by rewrite Hfound.
Qed.

Lemma push_spec chain ds d :
  chain_of chain ds -> cids_distinct (ds ++ [d]) ->
  match push chain d with
  | Ok chain' => audience (E := unit) chain = Ok (dlg_issuer (payload d)) /\ chain_of chain' (ds ++ [d])
  | Err _ => exists did, audience (E := unit) chain = Ok did /\ did <> dlg_issuer (payload d)
  | _ => False
  end.
Proof.
  intros Hchain Hdist. unfold push, audience.
  destruct (chain_end (E := ContainerError) _ _ Hchain) as (e & He & ->).
  destruct (chain_end (E := unit) _ _ Hchain) as (e' & He' & ->). rewrite He in He'. injection He' as <-.
  csimpl. case_decide as Ha; [eexists; split; [done|congruence]|].
  split; [by rewrite Ha|]. destruct Hchain as [Hne Hcids Hfound (from & to & Hdel)]. split; csimpl.
  - by destruct ds.
  - by rewrite Hcids, fmap_app.
  - intros d' Hd'. destruct (decide (to_cid d = to_cid d')) as [E|E].
    + rewrite E, lookup_insert_eq. f_equal. apply Hdist; [set_solver|done|done].
    + rewrite lookup_insert_ne by done. apply Hfound. set_solver.
  - exists from, (dlg_audience (payload d)). rewrite fmap_app. apply delegates_app.
    assert (Hl := Hdel). apply delegates_last in Hl. rewrite fmap_last, He in Hl. csimpl in Hl. subst to.
    eexists. split; [done|]. csimpl. rewrite <- Ha. repeat constructor.
Qed.
End chains.

(** ** Containers *)
Section roundtrip.
Context `{Tokens DelegationPayload, Tokens InvocationPayload, MapCodec}.

(** What is documented of the DAG-CBOR library: what it wrote it reads back. *)
Definition decodes_encoded A `{Tokens A} : Prop := forall (e : Envelope A) b, to_vec e = Ok b -> from_slice b = Ok e.
Definition decodes_maps : Prop := forall m b, map_to_vec m = Ok b -> map_from_slice b = Ok m.

Lemma container_bytes_roundtrip container data :
  decodes_maps -> tokens container <> [] ->
  Container_to_bytes container = Ok data -> Container_from_bytes data = Ok container.
Proof.
  intros Hmap Hne. unfold Container_to_bytes, Container_from_bytes.
  destruct (map_to_vec _) as [b|e|m|] eqn:E; try done. intros [= <-]. rewrite (Hmap _ _ E). csimpl.
  rewrite bool_decide_false by by destruct (tokens container).
  assert (forall l k acc, try_fold (fun acc '(i, token) =>
      match token with
      | Ipld.Bytes b => Ok (acc ++ [b])
      | _ => Err (ContainerError_Invocation (TokenMustBeBytes i))
      end) acc (imap (fun i x => (k + i, x)%nat) (Ipld.Bytes <$> l)) = Ok (acc ++ l)) as Hl.
  { intros l; induction l as [|b' l IH]; intros k acc; csimpl; [by rewrite app_nil_r|].
    rewrite (imap_ext _ (fun i x => (S k + i, x)%nat)) by (intros; f_equal/=; lia).
    by rewrite IH, <- app_assoc. }
  specialize (Hl (tokens container) 0%nat []). rewrite (imap_ext _ pair) in Hl by done. rewrite Hl. csimpl.
  by destruct container.
Qed.

Lemma decode_delegations_spec (ds : list Delegation) bs :
  decodes_encoded DelegationPayload ->
  Forall2 (fun d b => to_vec d = Ok b) ds bs -> decode_delegations bs = Ok ds.
Proof.
  intros Hdec Hbs. unfold decode_delegations.
  assert (forall k acc, try_fold (fun acc '(i, data) =>
    delegation ← map_err (fun _ => ContainerError_Invocation (FailedToDecodeDelegation i)) (from_slice data);
    Ok (acc ++ [delegation])) acc (imap (fun i x => (k + i, x)%nat) bs) = Ok (acc ++ ds)) as Hl.
  { induction Hbs as [|d b ds bs Hd Hbs IH]; intros k acc; csimpl; [by rewrite app_nil_r|].
    rewrite (Hdec _ _ Hd). csimpl.
    rewrite (imap_ext _ (fun i x => (S k + i, x)%nat)) by (intros; f_equal/=; lia).
    by rewrite IH, <- app_assoc. }
  specialize (Hl 0%nat []). by rewrite (imap_ext _ pair) in Hl by done.
Qed.

Lemma omap_encoded (m : gmap Cid Delegation) cids :
  Forall (fun cid => exists d b, m !! cid = Some d /\ to_vec d = Ok b) cids ->
  exists ds, Forall2 (fun cid d => m !! cid = Some d) cids ds /\
    Forall2 (fun d b => to_vec d = Ok b) ds
      (omap (fun cid => delegation ← m !! cid; match to_vec delegation with Ok data => Some data | _ => None end) cids).
Proof.
  induction 1 as [|cid cids (d & b & Hd & Hb) _ (ds & Hds & Hbs)]; [exists []; by split|].
  exists (d :: ds). csimpl. rewrite Hd. csimpl. rewrite Hb. split; by constructor.
Qed.

(** Chains of delegations are read back from their bytes. *)
Lemma delegation_chain_roundtrip chain ds data :
  decodes_encoded DelegationPayload -> decodes_maps ->
  chain_of chain ds -> cids_distinct ds -> (forall d, d ∈ ds -> exists b, to_vec d = Ok b) ->
  Container_to_bytes (Container_of_chain chain) = Ok data ->
  exists chain', (Container_from_bytes data ≫= try_from_container) = Ok chain' /\ chain_of chain' ds.
Proof.
  intros Hdec Hmap Hchain Hdist Hser Hdata. pose proof Hchain as [Hne Hcids Hfound Hal].
  destruct (omap_encoded (delegations chain) (proof_cids chain)) as (ds' & Hds' & Hbs).
  { rewrite Hcids. apply Forall_fmap, Forall_forall. intros d Hd. destruct (Hser d Hd) as [b Hb].
    exists d, b. by rewrite Hfound. }
  assert (ds' = ds) as ->.
  { rewrite Hcids in Hds'. clear -Hds' Hfound. revert ds' Hds'.
    induction ds as [|d ds IH]; intros ds' Hds'; csimpl in *; inversion Hds'; subst; [done|].
    rewrite Hfound in * by set_solver. simplify_eq. f_equal. apply IH; [set_solver|done]. }
  rewrite (container_bytes_roundtrip (Container_of_chain chain)); [|done| |done].
  - rewrite bind_Ok. unfold try_from_container, Container_of_chain. cbn [tokens].
    rewrite (decode_delegations_spec ds) by done. rewrite bind_Ok.
    destruct (try_from_vec ds) as [chain'|e|m|] eqn:E.
    { exists chain'. split; [done|]. by apply try_from_vec_spec. }
    all: exfalso; unfold try_from_vec in E;
      rewrite bool_decide_false in E by (by destruct ds);
      rewrite (proj2 (check_alignment_spec ds)) in E by (by right); done.
  - unfold Container_of_chain; cbn [tokens]. intros E. rewrite E in Hbs.
    apply Forall2_nil_inv_r in Hbs. done.
Qed.

Context `{Resolver}.

Lemma get_all_ext store store' cids :
  poisoned store = poisoned store' ->
  (forall c, c ∈ cids -> stored store !! c = stored store' !! c) ->
  get_all store cids = get_all store' cids.
Proof.
  intros Hp Hs. unfold get_all. rewrite <- Hp. destruct (poisoned store); [done|]. generalize (@nil Delegation).
  induction cids as [|c cids IH]; intros acc; cbn [try_fold]; [done|]. rewrite !get_one_eq, Hs by set_solver.
  destruct (stored store' !! c); [|done]. rewrite !bind_Ok. apply IH. intros; apply Hs; set_solver.
Qed.

Lemma foldl_insert_found (m : gmap Cid Delegation) ds (acc : gmap Cid Delegation) :
  (forall d, d ∈ ds -> m !! to_cid d = Some d) ->
  (forall c d, acc !! c = Some d -> m !! c = Some d) ->
  forall c d, foldl (fun map delegation => <[to_cid delegation := delegation]> map) acc ds !! c = Some d ->
    m !! c = Some d.
Proof.
  revert acc; induction ds as [|d ds IH]; intros acc Hds Hacc; csimpl; [done|]. apply IH; [set_solver|].
  intros c e. destruct (decide (to_cid d = c)) as [<-|Hc].
  - rewrite lookup_insert_eq. intros [= <-]. apply Hds. set_solver.
  - rewrite lookup_insert_ne by done. apply Hacc.
Qed.
Lemma foldl_insert_present (ds : list Delegation) (acc : gmap Cid Delegation) c :
  is_Some (acc !! c) \/ c ∈ to_cid <$> ds ->
  is_Some (foldl (fun map delegation => <[to_cid delegation := delegation]> map) acc ds !! c).
Proof.
  revert acc; induction ds as [|d ds IH]; intros acc; csimpl; [set_solver|]. intros Hc. apply IH.
  destruct (decide (to_cid d = c)) as [<-|Hd]; [left; by rewrite lookup_insert_eq|].
  rewrite lookup_insert_ne by done. set_solver.
Qed.

End roundtrip.
