(* ===== verification/Proving.v ===== *)
(** Finding proofs of access (rust/dialog-capability/src/access.rs): certificates,
    the stores that list them, and the search for a chain of certificates from the
    subject of an access to the principal that claims it. *)
From S2P Require Import Prelude Ipld UcanBase.

(** [access::TimeRange], in seconds. *)
Module AccessRange.
Record t := mk { not_before : option Z; expiration : option Z }.
Definition unbounded : t := mk None None.
Definition contains (self : t) (time : Z) : bool :=
  if match not_before self with Some nbf => bool_decide (time < nbf)%Z | None => false end then false
  else if match expiration self with Some exp => bool_decide (exp <= time)%Z | None => false end then false
  else true.
Definition overlaps (self required : t) : bool :=
  if match not_before required, expiration self with
     | Some req_nbf, Some exp => bool_decide (exp <= req_nbf)%Z
     | _, _ => false
     end then false
  else if match expiration required, not_before self with
     | Some req_exp, Some nbf => bool_decide (req_exp <= nbf)%Z
     | _, _ => false
     end then false
  else true.
Definition is_unbounded (self : t) : bool :=
  match not_before self, expiration self with None, None => true | _, _ => false end.
Definition covers (self required : t) : bool :=
  if match not_before required, not_before self with
     | Some req_nbf, Some nbf => bool_decide (req_nbf < nbf)%Z
     | _, _ => false
     end then false
  else if match expiration required, expiration self with
     | Some req_exp, Some exp => bool_decide (exp < req_exp)%Z
     | _, _ => false
     end then false
  else true.
Definition intersect (self other : t) : t :=
  mk
    match not_before self, not_before other with
    | Some a, Some b => Some (Z.max a b)
    | Some a, None | None, Some a => Some a
    | None, None => None
    end
    match expiration self, expiration other with
    | Some a, Some b => Some (Z.min a b)
    | Some a, None | None, Some a => Some a
    | None, None => None
    end.
End AccessRange.
Abbreviation AccessRange := AccessRange.t.

(** [AuthorizeError]; a message keeps what it says. *)
Inductive AuthorizeError := Denied (reason : string) | Configuration (reason : string).

(** [Scope] and [Certificate]. *)
Class Certificates (Access Certificate : Type) := {
  access_subject : Access -> Did;
  cert_issuer : Certificate -> Did;
  cert_audience : Certificate -> Did;
  cert_subject : Certificate -> option Did;
  cert_verify : Certificate -> Access -> outcome AuthorizeError AccessRange;
  cert_encode : Certificate -> outcome AuthorizeError bytes;
  cert_decode : bytes -> outcome AuthorizeError Certificate
}.

(** [Proof], as [UcanProof] implements it. *)
Record ProofChain (Access Certificate : Type) := mkProofChain {
  proof_proofs : list Certificate;
  proof_access : Access;
  proof_duration : AccessRange
}.
Arguments mkProofChain {Access Certificate}.
Arguments proof_proofs {Access Certificate}.
Arguments proof_access {Access Certificate}.
Arguments proof_duration {Access Certificate}.
Definition proof_new {Access Certificate} (access : Access) : ProofChain Access Certificate :=
  mkProofChain [] access AccessRange.unbounded.
Definition proof_push {Access Certificate} (self : ProofChain Access Certificate) (proof : Certificate) :=
  mkProofChain (proof_proofs self ++ [proof]) (proof_access self) (proof_duration self).
Definition set_duration {Access Certificate} (self : ProofChain Access Certificate) (duration : AccessRange) :=
  mkProofChain (proof_proofs self) (proof_access self) duration.

(** [Prove]. *)
Record Prove (Access : Type) := mkProve { prove_principal : Did; prove_access : Access; prove_duration : AccessRange }.
Arguments mkProve {Access}.
Arguments prove_principal {Access}.
Arguments prove_access {Access}.
Arguments prove_duration {Access}.
Definition prove_new {Access} (by_ : Did) (access : Access) : Prove Access :=
  mkProve by_ access AccessRange.unbounded.
Definition during {Access} (self : Prove Access) (duration : AccessRange) : Prove Access :=
  mkProve (prove_principal self) (prove_access self) duration.

(** * [CertificateStore::prove] *)
Definition MAX_DEPTH : nat := 10.

Section prove.
Context {Access Certificate : Type} `{Certificates Access Certificate}.
(** [CertificateStore::list]. *)
Context (list_certificates : Did -> option Did -> outcome AuthorizeError (list Certificate)).
Context (access : Access) (duration : AccessRange).

Abbreviation link := (Certificate * AccessRange)%type.

(** An entry of the queue. *)
Record Pending := mkPending {
  current_audience : Did;
  chain_so_far : list link;
  effective_range : AccessRange;
  depth : nat
}.

(** The [filter_map] over the listed certificates; [verify(..).ok()?] turns an
    error into a skip, not a panic. *)
Definition candidate (acc : list link) (proof : Certificate) : outcome AuthorizeError (list link) :=
  match cert_verify proof access with
  | Ok range => Ok (if AccessRange.covers range duration then acc ++ [(proof, range)] else acc)
  | Err _ => Ok acc
  | Panic m => Panic m
  | OutOfFuel => OutOfFuel
  end.
Definition candidates_for (audience : Did) : outcome AuthorizeError (list link) :=
  specific ← list_certificates audience (Some (access_subject access));
  powerline ← list_certificates audience None;
  try_fold candidate [] (specific ++ powerline).
Definition direct_grant (l : link) : Prop := cert_issuer l.1 = access_subject access.
#[export] Instance direct_grant_dec l : Decision (direct_grant l).
Proof. unfold direct_grant. apply _. Defined.

Definition intersect_ranges (chain : list link) : AccessRange :=
  foldl (fun acc l => AccessRange.intersect acc l.2) AccessRange.unbounded chain.

(** The loop over the candidates: the first direct grant ends the search, the
    others are pushed. *)
Fixpoint extend (item : Pending) (links : list link) (queue : list Pending)
    : ProofChain Access Certificate + list Pending :=
  match links with
  | [] => inr queue
  | (proof, range) :: links =>
      let new_range := AccessRange.intersect (effective_range item) range in
      let new_chain := (proof, new_range) :: chain_so_far item in
      if decide (cert_issuer proof = access_subject access) then
        let effective := intersect_ranges new_chain in
        inl (set_duration (foldl (fun chain l => proof_push chain l.1) (proof_new access) new_chain) effective)
      else
        extend item links
          (queue ++ [mkPending (cert_issuer proof) new_chain (intersect_ranges new_chain) (S (depth item))])
  end.

(** [while let Some(..) = queue.pop()]. *)
Fixpoint prove_loop (fuel : nat) (queue : list Pending)
    : outcome AuthorizeError (ProofChain Access Certificate) :=
  match fuel with
  | O => OutOfFuel
  | S fuel =>
      match last queue with
      | None => Err (Denied "no delegation chain found")
      | Some item =>
          let queue := take (length queue - 1) queue in
          if decide (MAX_DEPTH <= depth item)%nat then prove_loop fuel queue
          else
            candidates ← candidates_for (current_audience item);
            let direct := filter direct_grant candidates in
            let indirect := filter (fun l => ~ direct_grant l) candidates in
            match extend item (direct ++ indirect) queue with
            | inl proof => Ok proof
            | inr queue => prove_loop fuel queue
            end
      end
  end.

Definition prove_claim (fuel : nat) (authority : Did) : outcome AuthorizeError (ProofChain Access Certificate) :=
  let subject := access_subject access in
  if decide (authority = subject) then Ok (proof_new access)
  else if decide (subject = ANY_SUBJECT) then Ok (proof_new access)
  else prove_loop fuel [mkPending authority [] AccessRange.unbounded 0].
End prove.

Definition prove {Access Certificate} `{Certificates Access Certificate}
    (list_certificates : Did -> option Did -> outcome AuthorizeError (list Certificate))
    (fuel : nat) (input : Prove Access) : outcome AuthorizeError (ProofChain Access Certificate) :=
  prove_claim list_certificates (prove_access input) (prove_duration input) fuel (prove_principal input).
