(* ===== verification/ProvingCorrect.v ===== *)
(** The search for proofs ends, finds a chain of certificates whenever there is
    one within the depth bound, and what it finds leads from the subject to the
    claiming principal. *)
From S2P Require Import Prelude Ipld UcanBase Proving.

(** ** Ranges *)
Lemma contains_intersect a b t :
  AccessRange.contains (AccessRange.intersect a b) t = AccessRange.contains a t && AccessRange.contains b t.
Proof.
  destruct a as [[] []], b as [[] []]; unfold AccessRange.contains; cbn;
    repeat case_bool_decide; (done || lia).
Qed.

(** A range covers another when it contains its instants. *)
Lemma covers_contains a required t :
  AccessRange.covers a required = true -> AccessRange.contains required t = true ->
  AccessRange.not_before required <> None -> AccessRange.expiration required <> None ->
  AccessRange.contains a t = true.
Proof.
  destruct a as [[] []], required as [[] []]; unfold AccessRange.contains, AccessRange.covers; cbn;
    repeat case_bool_decide; try done; lia.
Qed.

Section proving.
Context {Access Certificate : Type} `{Certificates Access Certificate}.
Context (list_certificates : Did -> option Did -> outcome AuthorizeError (list Certificate)).

(** What a store of certificates [certs] promises about [list]. *)
Definition lists (certs : list Certificate) : Prop :=
  forall audience subject, exists l, list_certificates audience subject = Ok l /\
    forall c, c ∈ l <-> c ∈ certs /\ cert_audience c = audience /\ cert_subject c = subject.

(** [grants from ps to]: authority goes from hand to hand along [ps]. *)
Inductive grants : Did -> list Certificate -> Did -> Prop :=
  | grants_nil did : grants did [] did
  | grants_cons c cs did : grants (cert_audience c) cs did -> grants (cert_issuer c) (c :: cs) did.

Context (certs : list Certificate) (Hlists : lists certs).
Context (access : Access) (duration : AccessRange).
Context (Hverify : forall c, c ∈ certs -> match cert_verify c access with Ok _ | Err _ => True | _ => False end).
Abbreviation subject := (access_subject access).
Abbreviation link := (Certificate * AccessRange)%type.

(** A certificate that may be part of a proof. *)
Definition usable (c : Certificate) : Prop :=
  c ∈ certs /\ (cert_subject c = Some subject \/ cert_subject c = None) /\
  exists range, cert_verify c access = Ok range /\ AccessRange.covers range duration = true.
Definition within (t : Z) (c : Certificate) : Prop :=
  exists range, cert_verify c access = Ok range /\ AccessRange.contains range t = true.

(** ** Candidates *)
Lemma candidates_fold (l : list Certificate) acc :
  (forall c, c ∈ l -> c ∈ certs) ->
  try_fold (candidate access duration) acc l =
  Ok (acc ++ omap (fun c =>
    match cert_verify c access with
    | Ok range => if AccessRange.covers range duration then Some (c, range) else None
    | _ => None
    end) l).
Proof.
  revert acc; induction l as [|c l IH]; intros acc Hl; [by rewrite app_nil_r|].
  cbn [try_fold]. assert (candidate access duration acc c =
    match cert_verify c access with
    | Ok range => Ok (if AccessRange.covers range duration then acc ++ [(c, range)] else acc)
    | Err _ => Ok acc
    | Panic m => Panic m
    | OutOfFuel => OutOfFuel
    end) as -> by done. specialize (Hverify c ltac:(set_solver)).
  assert (forall c, c ∈ l -> c ∈ certs) by set_solver. csimpl.
  destruct (cert_verify c access) as [range|e|m|]; try done; csimpl; rewrite IH by done; [|done].
  destruct (AccessRange.covers range duration); [by rewrite <- app_assoc|done].
Qed.

Lemma candidates_spec audience :
  exists links, candidates_for list_certificates access duration audience = Ok links /\
    forall c range, (c, range) ∈ links <->
      usable c /\ cert_audience c = audience /\ cert_verify c access = Ok range.
Proof.
  destruct (Hlists audience (Some subject)) as (specific & Hs & Hspecific).
  destruct (Hlists audience None) as (powerline & Hp & Hpowerline).
  unfold candidates_for. rewrite Hs, Hp, !bind_Ok.
  rewrite candidates_fold by (intros c; rewrite elem_of_app, Hspecific, Hpowerline; naive_solver).
  eexists. split; [done|]. intros c range. csimpl. rewrite list_elem_of_omap. unfold usable. split.
  - intros (c' & Hc & Hv). destruct (cert_verify c' access) as [r|e|m|] eqn:E; try done.
    destruct (AccessRange.covers r duration) eqn:Ec; [|done]. injection Hv as -> ->.
    apply elem_of_app in Hc as [(? & ? & ?)%Hspecific|(? & ? & ?)%Hpowerline]; naive_solver.
  - intros ((Hc & Hsub & r & Hr & Hcov) & Haud & Hv). exists c. rewrite Hv in Hr. injection Hr as ->.
    rewrite Hv, Hcov. split; [|done]. apply elem_of_app. rewrite Hspecific, Hpowerline. naive_solver.
Qed.

Definition links_of (audience : Did) : list link :=
  match candidates_for list_certificates access duration audience with Ok links => links | _ => [] end.
Lemma candidates_ok audience :
  candidates_for list_certificates access duration audience = Ok (links_of audience).
Proof. unfold links_of. by destruct (candidates_spec audience) as (links & -> & _). Qed.
Lemma elem_of_links_of audience c range :
  (c, range) ∈ links_of audience <-> usable c /\ cert_audience c = audience /\ cert_verify c access = Ok range.
Proof. unfold links_of. by destruct (candidates_spec audience) as (links & -> & Hl). Qed.

(** ** Chains within a depth *)
Fixpoint reach (k : nat) (audience : Did) : Prop :=
  match k with
  | O => False
  | S k => exists c, usable c /\ cert_audience c = audience /\ (cert_issuer c = subject \/ reach k (cert_issuer c))
  end.

Lemma grants_snoc from cs c to :
  grants from (cs ++ [c]) to <-> grants from cs (cert_issuer c) /\ cert_audience c = to.
Proof.
  revert from; induction cs as [|c' cs IH]; intros from; csimpl.
  - split; [|intros [Hg <-]; inversion Hg; repeat constructor].
    inversion 1 as [|? ? ? Hg]; subst. inversion Hg; subst. split; [constructor|done].
  - split.
    + inversion 1 as [|? ? ? Hg]; subst. apply IH in Hg as [Hg <-]. split; [by constructor|done].
    + intros [Hg <-]. inversion Hg; subst. constructor. by apply IH.
Qed.

Lemma reach_spec k audience :
  reach k audience <->
  exists cs, cs <> [] /\ (length cs <= k)%nat /\ Forall usable cs /\ grants subject cs audience.
Proof.
  revert audience; induction k as [|k IH]; intros audience; cbn [reach].
  { split; [done|]. intros ([|c cs] & ? & ? & _); [done|csimpl in *; lia]. }
  split.
  - intros (c & Hu & <- & [Hi|(cs & Hne & Hlen & Hus & Hg)%IH]).
    + exists [c]. rewrite <- Hi. split_and!; [done|csimpl; lia|by constructor|repeat constructor].
    + exists (cs ++ [c]). split_and!; [by destruct cs|rewrite length_app; csimpl; lia| |].
      * apply Forall_app. by split; [|constructor].
      * by apply grants_snoc.
  - intros (cs & Hne & Hlen & Hus & Hg). destruct cs as [|c cs _] using rev_ind; [done|].
    apply grants_snoc in Hg as [Hg <-]. apply Forall_app in Hus as [Hus [Hu _]%Forall_cons].
    rewrite length_app in Hlen; csimpl in Hlen. exists c. split_and!; [done|done|].
    destruct cs as [|c' cs]; [left; by inversion Hg|right]. apply IH.
    exists (c' :: cs). split_and!; [done|csimpl in *; lia|done|done].
Qed.
(** ** What an entry of the queue stands for *)
Fixpoint links_time (chain : list link) : Prop :=
  match chain with
  | [] => True
  | (c, range) :: chain =>
      (forall t, AccessRange.contains range t = true <-> Forall (within t) (c :: chain.*1)) /\ links_time chain
  end.

Lemma intersect_ranges_spec chain t :
  links_time chain ->
  AccessRange.contains (intersect_ranges chain) t = true <-> Forall (within t) chain.*1.
Proof.
  intros Htime. unfold intersect_ranges.
  assert (forall chain acc, AccessRange.contains (foldl (fun acc (l : link) => AccessRange.intersect acc l.2) acc chain) t
    = AccessRange.contains acc t && forallb (fun l => AccessRange.contains l.2 t) chain) as Hfold.
  { intros l; induction l as [|x l IH]; intros acc; csimpl; [by rewrite andb_true_r|].
    by rewrite IH, contains_intersect, andb_assoc. }
  rewrite Hfold. cbn [andb AccessRange.contains AccessRange.unbounded AccessRange.not_before AccessRange.expiration].
  split; [|revert Htime; induction chain as [|[c r] chain IH]; csimpl; [done|]].
  - destruct chain as [|[c r] chain]; [by constructor|]. csimpl in *. destruct Htime as [Ht _].
    intros [Hc _]%andb_true_iff. by apply Ht.
  - intros [Ht Htime] Hw. apply andb_true_iff. split; [by apply Ht|]. apply IH; [done|].
    by apply Forall_cons in Hw as [_ ?].
Qed.

Record item_ok (authority : Did) (item : Pending) : Prop := {
  item_grants : grants (current_audience item) (chain_so_far item).*1 authority;
  item_usable : Forall usable (chain_so_far item).*1;
  item_depth : length (chain_so_far item) = depth item /\ (depth item <= MAX_DEPTH)%nat;
  item_time : links_time (chain_so_far item);
  item_range t : AccessRange.contains (effective_range item) t = true <-> Forall (within t) (chain_so_far item).*1
}.

(** What is promised of a proof. *)
Record proof_ok (authority : Did) (p : ProofChain Access Certificate) : Prop := {
  proof_grants : grants subject (proof_proofs p) authority;
  proof_usable : Forall usable (proof_proofs p);
  proof_length : (length (proof_proofs p) <= MAX_DEPTH)%nat;
  proof_scope : proof_access p = access;
  proof_range t : AccessRange.contains (proof_duration p) t = true <-> Forall (within t) (proof_proofs p)
}.

(** The entry that a link adds. *)
Definition child (item : Pending) (l : link) : Pending :=
  let new_chain := (l.1, AccessRange.intersect (effective_range item) l.2) :: chain_so_far item in
  mkPending (cert_issuer l.1) new_chain (intersect_ranges new_chain) (S (depth item)).

Lemma child_ok authority item l :
  item_ok authority item -> (depth item < MAX_DEPTH)%nat -> l ∈ links_of (current_audience item) ->
  item_ok authority (child item l).
Proof.
  intros [Hg Hu [Hlen _] Htime Hrange] Hd Hl. destruct l as [c r].
  apply elem_of_links_of in Hl as (Huse & Haud & Hv).
  assert (links_time (chain_so_far (child item (c, r)))) as Htime'.
  { csimpl. split; [|done]. intros t. rewrite contains_intersect, andb_true_iff, Hrange, Forall_cons.
    unfold within at 2. rewrite Hv. naive_solver. }
  split; csimpl.
  - constructor. by rewrite Haud.
  - by constructor.
  - lia.
  - done.
  - intros t. exact (intersect_ranges_spec _ t Htime').
Qed.

Lemma foldl_push (chain : list link) (p : ProofChain Access Certificate) :
  foldl (fun p (l : link) => proof_push p l.1) p chain =
  mkProofChain (proof_proofs p ++ chain.*1) (proof_access p) (proof_duration p).
Proof.
  revert p; induction chain as [|l chain IH]; intros p; csimpl.
  - rewrite app_nil_r. by destruct p.
  - rewrite IH. csimpl. by rewrite <- app_assoc.
Qed.

Lemma extend_spec authority item links queue :
  item_ok authority item -> (depth item < MAX_DEPTH)%nat ->
  (forall l, l ∈ links -> l ∈ links_of (current_audience item)) ->
  match extend access item links queue with
  | inl p => proof_ok authority p
  | inr queue' => queue' = queue ++ (child item <$> links) /\ Forall (fun l => ~ direct_grant access l) links
  end.
Proof.
  intros Hitem Hd. revert queue; induction links as [|[c r] links IH]; intros queue Hl; cbn [extend].
  { csimpl. by rewrite app_nil_r. }
  destruct (child_ok authority item (c, r) Hitem Hd) as [Hg Hu Hlen Htime Hrange]; [set_solver|].
  case_decide as Hc.
  - rewrite foldl_push. csimpl in *. rewrite Hc in Hg. split; csimpl; [done|done| |done|].
    + rewrite length_fmap. lia.
    + intros t. exact (intersect_ranges_spec ((c, _) :: _) t Htime).
  - specialize (IH (queue ++ [child item (c, r)]) ltac:(set_solver)). unfold child in IH at 1. csimpl in IH.
    destruct (extend _ _ _ _) as [p|queue']; [done|]. destruct IH as [-> Hdir].
    rewrite <- app_assoc. split; [done|by constructor].
Qed.

(** ** Termination *)

(** The entries that are ever taken from the queue because of one entry. *)
Fixpoint cost (k : nat) (audience : Did) : nat :=
  S match k with
    | O => 0
    | S k => sum_list_with (fun l => cost k (cert_issuer l.1))
               (filter (fun l => ~ direct_grant access l) (links_of audience))
    end.
Definition item_cost (item : Pending (Certificate := Certificate)) : nat := cost (MAX_DEPTH - depth item) (current_audience item).

Lemma sum_children item (links : list link) :
  (depth item < MAX_DEPTH)%nat ->
  sum_list_with item_cost (child item <$> links) =
  sum_list_with (fun l => cost (MAX_DEPTH - S (depth item)) (cert_issuer l.1)) links.
Proof. intros Hd. induction links as [|l links IH]; [done|]. rewrite fmap_cons. cbn [sum_list_with]. by rewrite IH. Qed.

Lemma prove_loop_spec authority fuel queue :
  Forall (item_ok authority) queue ->
  match prove_loop list_certificates access duration fuel queue with
  | Ok p => proof_ok authority p
  | Err _ => Forall (fun item => ~ reach (MAX_DEPTH - depth item) (current_audience item)) queue
  | OutOfFuel => (fuel <= sum_list_with item_cost queue)%nat
  | Panic _ => False
  end.
Proof.
  revert queue; induction fuel as [|fuel IH]; intros queue Hok; [cbn; lia|]. cbn [prove_loop].
  destruct queue as [|item queue _] using rev_ind; [by constructor|].
  rewrite last_snoc, pop_last_snoc. apply Forall_app in Hok as [Hok [Hitem _]%Forall_cons].
  rewrite sum_list_with_app. cbn [sum_list_with]. rewrite Nat.add_0_r.
  assert (0 < item_cost item)%nat by (unfold item_cost; destruct (MAX_DEPTH - depth item)%nat; cbn; lia).
  case_decide as Hd.
  { specialize (IH queue Hok). destruct (prove_loop _ _ _ _ _); [done| |done|lia].
    apply Forall_app. split; [done|]. apply Forall_singleton. assert (MAX_DEPTH - depth item = 0)%nat as -> by lia.
    by intros []. }
  rewrite candidates_ok, bind_Ok. set (links := links_of (current_audience item)).
  set (direct := filter (direct_grant access) links). set (indirect := filter (fun l => ~ direct_grant access l) links).
  assert (forall l, l ∈ direct ++ indirect <-> l ∈ links) as Hlinks.
  { intros l. rewrite elem_of_app. unfold direct, indirect. rewrite !list_elem_of_filter.
    destruct (decide (direct_grant access l)); naive_solver. }
  assert (item_cost item = S (sum_list_with (fun l => cost (MAX_DEPTH - S (depth item)) (cert_issuer l.1)) indirect)) as Hic.
  { unfold item_cost. by replace (MAX_DEPTH - depth item)%nat with (S (MAX_DEPTH - S (depth item)))%nat by lia. }
  pose proof (extend_spec authority item (direct ++ indirect) queue Hitem ltac:(lia)) as Hext.
  specialize (Hext (fun l => proj1 (Hlinks l))).
  destruct (extend _ _ _ _) as [p|queue']; [done|]. destruct Hext as [-> Hdir].
  assert (direct = []) as Hnil.
  { destruct direct as [|l direct'] eqn:E; [done|].
    apply Forall_app in Hdir as [[Hn _]%Forall_cons _]. exfalso. apply Hn.
    assert (l ∈ direct) as Hl by (rewrite E; set_solver). by apply list_elem_of_filter in Hl as [? _]. }
  rewrite Hnil in *. cbn [app] in *.
  assert (Forall (item_ok authority) (queue ++ (child item <$> indirect))) as Hok'.
  { apply Forall_app. split; [done|]. apply Forall_fmap, Forall_forall. intros l Hl.
    apply child_ok; [done|lia|by apply Hlinks]. }
  specialize (IH _ Hok'). rewrite sum_list_with_app, sum_children in IH by lia.
  destruct (prove_loop _ _ _ _ _) as [p|e|m|]; [done| |done|lia].
  apply Forall_app in IH as [Hq Hchildren]. apply Forall_app. split; [done|]. apply Forall_singleton.
  replace (MAX_DEPTH - depth item)%nat with (S (MAX_DEPTH - S (depth item)))%nat by lia. cbn [reach].
  intros (c & Huse & Haud & Hreach). pose proof Huse as (_ & _ & range & Hv & _).
  assert ((c, range) ∈ indirect) as Hl by (apply Hlinks; by apply elem_of_links_of).
  destruct Hreach as [Hdirect|Hreach].
  - by apply list_elem_of_filter in Hl as [? _].
  - rewrite Forall_fmap, Forall_forall in Hchildren. by apply (Hchildren _ Hl).
Qed.
Lemma prove_spec authority fuel :
  subject <> ANY_SUBJECT ->
  match prove list_certificates fuel (mkProve authority access duration) with
  | Ok p => proof_ok authority p
  | Err _ => forall cs, (length cs <= MAX_DEPTH)%nat -> Forall usable cs -> ~ grants subject cs authority
  | OutOfFuel => (fuel <= cost MAX_DEPTH authority)%nat
  | Panic _ => False
  end.
Proof.
  intros Hany. unfold prove, prove_claim. csimpl.
  case_decide as Ha; [subst authority; split; csimpl; try constructor; lia || done|].
  rewrite decide_False by done.
  set (start := mkPending authority [] AccessRange.unbounded 0).
  assert (Forall (item_ok authority) [start]) as Hstart.
  { apply Forall_singleton. split; csimpl; try constructor; unfold MAX_DEPTH; try lia; done. }
  pose proof (prove_loop_spec authority fuel [start] Hstart) as Hloop.
  destruct (prove_loop _ _ _ _ _) as [p|e|m|]; [done| |done|].
  2: { cbn [sum_list_with] in Hloop. rewrite Nat.add_0_r in Hloop. exact Hloop. }
  apply Forall_cons in Hloop as [Hloop _]. intros cs Hlen Hu Hg.
  assert (cs <> []) as Hne by (intros ->; inversion Hg; congruence).
  apply Hloop, reach_spec. exists cs. split_and!; [done|done|done|done].
Qed.
End proving.

(** C22: The search for a proof ends, and decides: with enough fuel it returns a
    chain of usable certificates from the subject to the principal, with the
    intersection of their validity as its duration, or there is no such chain of
    at most [MAX_DEPTH] certificates. *)
Theorem prove_decides {Access Certificate} `{Certificates Access Certificate}
    list_certificates certs (access : Access) duration authority :
  lists list_certificates certs ->
  (forall c, c ∈ certs -> match cert_verify c access with Ok _ | Err _ => True | _ => False end) ->
  access_subject access <> ANY_SUBJECT ->
  exists bound, forall fuel, (bound < fuel)%nat ->
  match prove list_certificates fuel (mkProve authority access duration) with
  | Ok p => proof_ok certs access duration authority p
  | Err _ => forall cs, (length cs <= MAX_DEPTH)%nat -> Forall (usable certs access duration) cs ->
      ~ grants (access_subject access) cs authority
  | _ => False
  end.
Proof.
  intros Hl Hv Hany. eexists. intros fuel Hfuel.
  pose proof (prove_spec _ certs Hl access duration Hv authority fuel Hany) as Hs.
  destruct (prove _ _ _); [done..|]. by apply Nat.lt_nge in Hfuel.
Qed.
