(* ===== verification/Ucan.v ===== *)
(** The UCAN protocol over certificates (rust/dialog-ucan/src: access.rs, scope.rs,
    parameters.rs, invocation.rs), and the in-memory certificate store
    (rust/dialog-storage/src/storage/provider/volatile/certificate.rs). *)
From S2P Require Import Prelude Ipld Predicate UcanBase Delegation DelegationCorrect Chain Proving.

(** * Scopes *)
Record Scope := mkScope { scope_subject : Subject; scope_command : Command; scope_parameters : btree Ipld }.

(** [From<&Parameters>] for policies and arguments. *)
Definition policy (parameters : btree Ipld) : list Predicate :=
  (fun '(key, value) => Predicate.Equal [Filter.Field key] value) <$> parameters.
Definition args (parameters : btree Ipld) : btree Promised := bt_map Promised.ipld_to_promised parameters.

(** [str::trim_start_matches]. *)
Fixpoint trim_start (c : char) (s : str) : str :=
  match s with
  | d :: s' => if decide (d = c) then trim_start c s' else s
  | [] => []
  end.
Definition ability_to_command (ability : str) : Command :=
  if decide (ability = [SLASH]) then [] else split_on SLASH (trim_start SLASH ability).

(** [Scope::from_chain]. *)
Definition scope_from_chain {E} `{Tokens DelegationPayload} (chain : DelegationChain) : outcome E Scope :=
  subject ← chain_subject chain;
  ability ← ability chain;
  Ok (mkScope (match subject with Some did => Subject.Specific did | None => Subject.Any end)
        (ability_to_command ability) []).

(** * Certificates *)
Abbreviation UcanProof := (ProofChain Scope Delegation).
Section ucan.
Context `{Tokens DelegationPayload}.

(** [Option::map(|t| t.to_unix())]. *)
Definition to_unix_opt {E} (t : option Timestamp) : outcome E (option Z) :=
  match t with Some t => s ← to_unix t; Ok (Some s) | None => Ok None end.

(** [pred.run(&args).unwrap_or(false)] for all predicates. *)
Definition all_pass (args : Ipld) (policy : list Predicate) : outcome AuthorizeError bool :=
  try_fold (fun (acc : bool) pred =>
    if acc then
      match run pred args with
      | Ok b => Ok b
      | Err _ => Ok false
      | Panic m => Panic m
      | OutOfFuel => OutOfFuel
      end
    else Ok false) true policy.

(** [Certificate for UcanCertificate]. *)
Definition certificate_verify (self : Delegation) (access : Scope) : outcome AuthorizeError AccessRange :=
  if negb (Command_starts_with (scope_command access) (dlg_command (payload self)))
  then Err (Denied "command not covered by delegation")
  else
    pass ← all_pass (Ipld.Map (scope_parameters access)) (dlg_policy (payload self));
    if negb pass then Err (Denied "policy predicates not satisfied")
    else
      not_before ← to_unix_opt (dlg_not_before (payload self));
      expiration ← to_unix_opt (dlg_expiration (payload self));
      Ok (AccessRange.mk not_before expiration).

#[export] Instance ucan_certificates : Certificates Scope Delegation := {|
  access_subject access :=
    match scope_subject access with Subject.Specific did => did | Subject.Any => ANY_SUBJECT end;
  cert_issuer c := dlg_issuer (payload c);
  cert_audience c := dlg_audience (payload c);
  cert_subject c := match dlg_subject (payload c) with Subject.Specific did => Some did | Subject.Any => None end;
  cert_verify := certificate_verify;
  cert_encode c := map_err (fun _ => Configuration "Failed to encode proof") (to_vec c);
  cert_decode b := map_err (fun _ => Configuration "Failed to decode proof") (from_slice b)
|}.

(** * Proofs and authorizations *)
(** [UcanProof::from_chain]. *)
Definition proof_from_chain {E} (chain : DelegationChain) (scope : Scope) : outcome E UcanProof :=
  proofs ← chain_proofs chain;
  not_before ← to_unix_opt (chain_not_before chain);
  expiration ← to_unix_opt (chain_expiration chain);
  Ok (mkProofChain proofs scope (AccessRange.mk not_before expiration)).

Context `{Signing}.
Record UcanAuthorization := mkUcanAuthorization {
  auth_chain : option DelegationChain;
  auth_signer : Signer;
  auth_scope : Scope;
  auth_duration : AccessRange
}.

(** [UcanProof::claim]. *)
Definition push_proof (chain : DelegationChain) (proof : Delegation) : outcome AuthorizeError DelegationChain :=
  map_err (fun _ => Configuration "invocation error") (push chain proof).
Definition claim (self : UcanProof) (signer : Signer) : outcome AuthorizeError UcanAuthorization :=
  chain ← match proof_proofs self with
          | [] => Ok None
          | first :: rest => chain ← try_fold push_proof (DelegationChain_new first) rest; Ok (Some chain)
          end;
  Ok (mkUcanAuthorization chain signer (proof_access self) (proof_duration self)).

(** [Authorization for UcanAuthorization]. *)
Definition auth_not_before (self : UcanAuthorization) (timestamp : Z) : outcome AuthorizeError UcanAuthorization :=
  if match AccessRange.not_before (auth_duration self) with
     | Some nbf => bool_decide (timestamp < nbf)%Z
     | None => false
     end
  then Err (Denied "proof is not valid before")
  else Ok (mkUcanAuthorization (auth_chain self) (auth_signer self) (auth_scope self)
         (AccessRange.mk (Some timestamp) (AccessRange.expiration (auth_duration self)))).
Definition auth_expires (self : UcanAuthorization) (timestamp : Z) : outcome AuthorizeError UcanAuthorization :=
  if match AccessRange.expiration (auth_duration self) with
     | Some exp => bool_decide (exp < timestamp)%Z
     | None => false
     end
  then Err (Denied "proof expires at")
  else Ok (mkUcanAuthorization (auth_chain self) (auth_signer self) (auth_scope self)
         (AccessRange.mk (AccessRange.not_before (auth_duration self)) (Some timestamp))).

(** A bound in seconds as a timestamp; one that is out of range is left out. *)
Definition timestamp_bound {E} (secs : option Z) : outcome E (option Timestamp) :=
  match secs with
  | None => Ok None
  | Some secs =>
      time ← epoch_plus_secs secs;
      match Timestamp_new time with Ok ts => Ok (Some ts) | _ => Ok None end
  end.

(** [delegate]. *)
Definition delegate (self : UcanAuthorization) (to : Did) : outcome AuthorizeError DelegationChain :=
  expiration ← timestamp_bound (AccessRange.expiration (auth_duration self));
  not_before ← timestamp_bound (AccessRange.not_before (auth_duration self));
  delegation ← map_err (fun _ => Configuration "build error")
    (build_delegation (auth_signer self) to (scope_subject (auth_scope self)) (scope_command (auth_scope self))
       (policy (scope_parameters (auth_scope self))) expiration not_before [] None);
  match auth_chain self with
  | Some chain => push_proof chain delegation
  | None => Ok (DelegationChain_new delegation)
  end.

(** [UcanInvocation] and [invoke]. *)
Record UcanInvocation := mkUcanInvocation {
  uinv_chain : InvocationChain;
  uinv_subject : Did;
  uinv_ability : str
}.
Context `{Tokens InvocationPayload}.
Definition invoke (self : UcanAuthorization) : outcome AuthorizeError UcanInvocation :=
  let subject_did := access_subject (auth_scope self) in
  let command := scope_command (auth_scope self) in
  '(proofs, delegations_map) ←
    match auth_chain self with
    | Some chain =>
        exported ← export chain;
        Ok (proof_cids chain, foldl (fun map '(cid, d) => <[cid := d]> map) (∅ : gmap Cid Delegation) exported)
    | None => Ok ([], ∅)
    end;
  let ability := match command with [] => lit "/" | _ => lit "/" ++ join (lit "/") command end in
  invocation ← map_err (fun _ => Denied "build error")
    (build_invocation (auth_signer self) subject_did subject_did command (args (scope_parameters (auth_scope self)))
       proofs None None None [] None);
  Ok (mkUcanInvocation (mkInvocationChain invocation delegations_map) subject_did ability).
End ucan.

(** * The volatile certificate store *)

(** The certificates of every session, by their keys; [base58_blake3] is the
    base58 text of the BLAKE3 digest. *)
Record Volatile := mkVolatile { sessions : gmap Did (gmap str bytes) }.

Section volatile.
Context {Access Certificate : Type} `{Certificates Access Certificate} (base58_blake3 : bytes -> str).

Definition UNDERSCORE : str := lit "_".
Definition list_prefix (audience : Did) (subject : option Did) : str :=
  audience ++ [SLASH] ++ match subject with Some did => did | None => UNDERSCORE end ++ [SLASH].
Definition certificate_key (cert : Certificate) (data : bytes) : str :=
  cert_audience cert ++ [SLASH] ++ match cert_subject cert with Some did => did | None => UNDERSCORE end ++
  [SLASH] ++ cert_issuer cert ++ lit "." ++ base58_blake3 data.

(** [list]: certificates that do not decode are skipped. *)
Definition volatile_list (self : Volatile) (audience : Did) (subject : option Did)
    : outcome AuthorizeError (list Certificate) :=
  let prefix := list_prefix audience subject in
  Ok (map_to_list (sessions self) ≫= (fun '(_, certificates) =>
    omap (fun '(key, data) =>
      if str_starts_with key prefix then
        match cert_decode data with Ok cert => Some cert | _ => None end
      else None) (map_to_list certificates))).

(** [save], on the certificates of a delegation. *)
Definition save_one (self : Volatile) (cert : Certificate) : outcome AuthorizeError Volatile :=
  data ← cert_encode cert;
  let key := certificate_key cert data in
  let session := default ∅ (sessions self !! cert_audience cert) in
  Ok (mkVolatile (<[cert_audience cert := <[key := data]> session]> (sessions self))).
Fixpoint volatile_save (self : Volatile) (certs : list Certificate) : Volatile * outcome AuthorizeError unit :=
  match certs with
  | [] => (self, Ok tt)
  | cert :: certs =>
      match save_one self cert with
      | Ok self => volatile_save self certs
      | Err e => (self, Err e)
      | Panic m => (self, Panic m)
      | OutOfFuel => (self, OutOfFuel)
      end
  end.
End volatile.
