(* ===== verification/UcanCorrect.v ===== *)
(** Proofs found for a principal are proofs the service accepts: what [prove]
    finds, [claim] binds and [invoke] sends, [verify] accepts. *)
From S2P Require Import Prelude Ipld Predicate UcanBase Delegation DelegationCorrect Chain ChainCorrect Proving ProvingCorrect Ucan.

(** ** Running a predicate always gives a result *)
Lemma run_result p data : is_result (run p data) = true.
Proof.
  assert (forall {T} `{Selectable T} s x, (forall x, is_result (try_select (T := T) x) = true) ->
    is_result (select (T := T) s x) = true) as Hsel.
  { intros. unfold select. rewrite is_result_map_err. by apply try_select_result. }
  assert (forall x, is_result (try_select (T := Collection.t) x) = true) as Hcoll.
  { intros x. unfold try_select, select_collection. destruct x; try done;
      (apply is_result_bind; [|done]); apply is_result_try_fold; [done|by intros ? []]. }
  assert (forall x, is_result (try_select (T := Number.t) x) = true) as Hnum by by intros [].
  assert (forall x, is_result (try_select (T := str) x) = true) as Hstr by by intros [].
  assert (forall x y, is_result (run_equal x y) = true) as Heq by (intros [] []; csimpl; repeat case_match; done).
  revert data. induction p as [l r|l r|l r|l r|l r|l r|p IH|ps IH|ps IH|s p IH|s p IH] using Predicate.nested_ind;
    intros data; cbn [run].
  - apply is_result_bind; auto.
  - apply is_result_bind; auto.
  - apply is_result_bind; auto.
  - apply is_result_bind; auto.
  - apply is_result_bind; auto.
  - apply is_result_bind; auto.
  - apply is_result_bind; auto.
  - apply is_result_try_fold. intros [] p Hp; [|done]. rewrite Forall_forall in IH. auto.
  - destruct ps; [done|]. apply is_result_try_fold. intros [] q Hq; [done|]. rewrite Forall_forall in IH. auto.
  - apply is_result_bind; [auto|]. intros c _. apply is_result_try_fold. intros [] x Hx; auto.
  - apply is_result_bind; [auto|]. intros c _. destruct (Collection.is_empty c); [done|].
    apply is_result_try_fold. intros [] x Hx; auto.
Qed.

Section certificates.
Context `{Tokens DelegationPayload}.

Lemma all_pass_spec args policy :
  exists b, all_pass args policy = Ok b /\ (b = true <-> Forall (fun p => run p args = Ok true) policy).
Proof.
  unfold all_pass.
  assert (forall acc, exists b, try_fold (fun (acc : bool) pred =>
    if acc then
      match run pred args with
      | Ok b => Ok b | Err _ => Ok false | Panic m => Panic m | OutOfFuel => OutOfFuel
      end
    else @Ok AuthorizeError bool false) acc policy = Ok b /\
    (b = true <-> acc = true /\ Forall (fun p => run p args = Ok true) policy)) as Hacc.
  { induction policy as [|p policy IH]; intros acc; csimpl.
    - exists acc. split; [done|]. naive_solver.
    - pose proof (run_result p args) as Hr. setoid_rewrite Forall_cons.
      destruct acc; [|destruct (IH false) as (b & ? & ?); exists b; naive_solver].
      destruct (run p args) as [[]|e|m|]; try done;
        [destruct (IH true) as (b & ? & ?)|destruct (IH false) as (b & ? & ?)..];
        exists b; naive_solver. }
  destruct (Hacc true) as (b & ? & ?). exists b. naive_solver.
Qed.

(** The seconds of an optional timestamp. *)
Definition seconds (t : option Timestamp) : option Z := (fun t => t / NANOS)%Z <$> t.
Lemma to_unix_opt_spec {E} t s :
  to_unix_opt (E := E) t = Ok s <-> (forall t', t = Some t' -> (0 <= t')%Z) /\ s = seconds t.
Proof.
  destruct t as [t|]; csimpl; [|naive_solver]. unfold to_unix. case_decide as Ht; csimpl.
  - split; [done|]. intros [Hpos _]. specialize (Hpos t eq_refl). lia.
  - split; [intros [= <-]; split; [intros ? [= <-]; lia|done]|by intros [_ ->]].
Qed.

Lemma certificate_verify_spec (c : Delegation) access range :
  certificate_verify c access = Ok range ->
  dlg_command (payload c) `prefix_of` scope_command access /\
  Forall (fun p => run p (Ipld.Map (scope_parameters access)) = Ok true) (dlg_policy (payload c)) /\
  (forall t, dlg_not_before (payload c) = Some t -> (0 <= t)%Z) /\
  (forall t, dlg_expiration (payload c) = Some t -> (0 <= t)%Z) /\
  range = AccessRange.mk (seconds (dlg_not_before (payload c))) (seconds (dlg_expiration (payload c))).
Proof.
  unfold certificate_verify. destruct (Command_starts_with _ _) eqn:Ec; [|done]. cbn [negb].
  apply command_starts_with_spec in Ec. destruct (all_pass_spec (Ipld.Map (scope_parameters access)) (dlg_policy (payload c)))
    as (b & -> & Hb). rewrite bind_Ok. destruct b; [|done]. cbn [negb].
  intros (nbf & Hn & Ho)%bind_Ok_inv. apply bind_Ok_inv in Ho as (exp & He & Ho). injection Ho as <-.
  apply to_unix_opt_spec in Hn as [Hn ->]. apply to_unix_opt_spec in He as [He ->].
  split_and!; [done|by apply Hb|done|done|done].
Qed.

Lemma certificate_verify_result (c : Delegation) access :
  (forall t, dlg_not_before (payload c) = Some t -> (0 <= t)%Z) ->
  (forall t, dlg_expiration (payload c) = Some t -> (0 <= t)%Z) ->
  match certificate_verify c access with Ok _ | Err _ => True | _ => False end.
Proof.
  intros Hn He. unfold certificate_verify. destruct (Command_starts_with _ _); [|done]. cbn [negb].
  destruct (all_pass_spec (Ipld.Map (scope_parameters access)) (dlg_policy (payload c))) as (b & -> & _).
  rewrite bind_Ok. destruct b; [|done]. cbn [negb].
  rewrite (proj2 (to_unix_opt_spec (dlg_not_before (payload c)) _) (conj Hn eq_refl)), bind_Ok.
  by rewrite (proj2 (to_unix_opt_spec (dlg_expiration (payload c)) _) (conj He eq_refl)).
Qed.

Lemma seconds_le n s : (n / NANOS <= s -> n <= (s + 1) * NANOS - 1)%Z.
Proof. pose proof (Z.mul_succ_div_gt n NANOS ltac:(done)). unfold NANOS in *. lia. Qed.
Lemma seconds_gt e s : (s < e / NANOS -> (s + 1) * NANOS - 1 < e)%Z.
Proof. pose proof (Z.mul_div_le e NANOS ltac:(done)). unfold NANOS in *. lia. Qed.

(** An instant of the last nanosecond of a second that a certificate allows is in
    the window that the service checks. *)
Lemma within_in_range (c : Delegation) access range s :
  certificate_verify c access = Ok range -> AccessRange.contains range s = true ->
  in_range ((s + 1) * NANOS - 1)%Z (delegation_range (payload c)).
Proof.
  intros (_ & _ & _ & _ & ->)%certificate_verify_spec.
  unfold AccessRange.contains, in_range, TimeRange.check, delegation_range, seconds.
  destruct (dlg_not_before (payload c)) as [n|], (dlg_expiration (payload c)) as [e|]; cbn -[NANOS];
    repeat case_bool_decide; try done; intros _; exfalso;
    repeat match goal with
    | Hn : ~ (s < ?n `div` NANOS)%Z |- _ => apply Z.nlt_ge, seconds_le in Hn
    | He : ~ (?e `div` NANOS <= s)%Z |- _ => apply Z.nle_gt, seconds_gt in He
    end; lia.
Qed.

(** The chains of certificates are the chains of authority. *)
Lemma grants_delegates (ds : list Delegation) from to :
  grants (Access := Scope) from ds to <-> delegates from (payload <$> ds) to.
Proof.
  revert from; induction ds as [|d ds IH]; intros from; csimpl.
  - split; inversion 1; subst; constructor.
  - split; inversion 1; subst.
    + change (delegates (dlg_issuer (payload d)) (payload d :: (payload <$> ds)) to). constructor. by apply IH.
    + change (grants (Access := Scope) (cert_issuer (Access := Scope) d) (d :: ds) to). constructor. by apply IH.
Qed.
End certificates.

Section flow.
Context `{Tokens DelegationPayload, Tokens InvocationPayload, Signing, Resolver}.

(** ** Claiming *)
Lemma DelegationChain_new_spec (d : Delegation) : chain_of (DelegationChain_new d) [d].
Proof.
  split; csimpl; [done|done| |].
  - intros d' ->%list_elem_of_singleton. by rewrite lookup_singleton_eq.
  - exists (dlg_issuer (payload d)), (dlg_audience (payload d)). repeat constructor.
Qed.

Lemma push_proofs_spec chain ds rest from to :
  chain_of chain ds -> cids_distinct (ds ++ rest) -> delegates from (payload <$> (ds ++ rest)) to ->
  exists chain', try_fold push_proof chain rest = Ok chain' /\ chain_of chain' (ds ++ rest).
Proof.
  revert chain ds; induction rest as [|d rest IH]; intros chain ds Hchain Hdist Hdel; cbn [try_fold].
  { exists chain. by rewrite app_nil_r. }
  change (d :: rest) with ([d] ++ rest) in *. rewrite app_assoc in Hdist, Hdel |- *.
  assert (cids_distinct (ds ++ [d])) as Hdist' by (intros a b ? ?; apply Hdist; set_solver).
  pose proof (push_spec chain ds d Hchain Hdist') as Hpush.
  assert (push_proof chain d = map_err (fun _ => Configuration "invocation error") (push chain d)) as -> by done.
  assert (audience (E := unit) chain = Ok (dlg_issuer (payload d))) as Haud.
  { unfold audience. destruct (chain_end (E := unit) _ _ Hchain) as (e & He & ->). csimpl. f_equal.
    rewrite !fmap_app in Hdel. apply delegates_app in Hdel as (mid & Hd & _).
    apply delegates_app in Hd as (mid' & Hds & Hd).
    apply delegates_last in Hds. rewrite fmap_last, He in Hds. csimpl in Hds.
    inversion Hd; subst. done. }
  destruct (push chain d) as [chain'|e|m|]; try done.
  - destruct Hpush as [_ Hchain']. cbn [map_err]. rewrite bind_Ok. by apply IH.
  - destruct Hpush as (did & Hd & Hne). congruence.
Qed.

Lemma claim_spec (p : UcanProof) signer from to :
  cids_distinct (proof_proofs p) -> delegates from (payload <$> proof_proofs p) to ->
  exists auth, claim p signer = Ok auth /\ auth_signer auth = signer /\ auth_scope auth = proof_access p /\
    auth_duration auth = proof_duration p /\
    match auth_chain auth with
    | None => proof_proofs p = []
    | Some chain => chain_of chain (proof_proofs p)
    end.
Proof.
  intros Hdist Hdel. unfold claim. destruct (proof_proofs p) as [|d rest]; [eexists; split_and!; done|].
  destruct (push_proofs_spec (DelegationChain_new d) [d] rest from to) as (chain & -> & Hchain);
    [apply DelegationChain_new_spec|done|done|]. eexists; split_and!; [done..|]. done.
Qed.

(** ** Invoking *)
Lemma resolve_arguments_spec inv parameters :
  inv_arguments inv = args parameters -> ipld_sorted (Ipld.Map parameters) ->
  resolve_arguments inv = Ok (Ipld.Map parameters).
Proof.
  intros Hargs [Hsorted Hvals]%ipld_sorted_map. unfold resolve_arguments. rewrite Hargs. unfold args.
  rewrite bt_map_sorted by done.
  rewrite (try_fold_bt (fun v => map_err WaitingOnPromise (Promised.to_ipld v)) _ parameters []); [done| |].
  - apply Forall2_fmap_l, Forall_Forall2_diag, Forall_forall. intros [k v] Hkv; csimpl. split; [done|].
    rewrite promised_roundtrip; [done|]. rewrite Forall_forall in Hvals. apply Hvals.
    by apply (list_elem_of_fmap_2 snd) in Hkv.
  - csimpl. rewrite <- list_fmap_compose. by erewrite list_fmap_ext; [exact Hsorted|by intros ? []].
Qed.

Lemma export_spec {E} chain ds :
  chain_of chain ds -> export (E := E) chain = Ok ((fun d => (to_cid d, d)) <$> ds).
Proof.
  intros [_ Hcids Hfound _]. unfold export. rewrite Hcids. apply map_outcome_Ok.
  apply Forall2_fmap_l, Forall2_fmap_r, Forall_Forall2_diag, Forall_forall. intros d Hd.
  unfold compose, proof_for_cid. by rewrite Hfound.
Qed.

Lemma exported_found (ds : list Delegation) :
  cids_distinct ds ->
  forall d, d ∈ ds ->
  foldl (fun map '(cid, d) => <[cid := d]> map) (∅ : gmap Cid Delegation) ((fun d => (to_cid d, d)) <$> ds) !! to_cid d
  = Some d.
Proof.
  intros Hdist d Hd.
  assert (forall l acc, (forall e, e ∈ l -> e ∈ ds) -> (acc !! to_cid d = Some d \/ d ∈ l) ->
    foldl (fun map '(cid, d) => <[cid := d]> map) (acc : gmap Cid Delegation) ((fun d => (to_cid d, d)) <$> l)
      !! to_cid d = Some d) as Hl; [|by apply Hl; [|right]].
  intros l; induction l as [|e l IH]; intros acc Hsub Hacc; csimpl; [set_solver|]. apply IH; [set_solver|].
  destruct (decide (to_cid e = to_cid d)) as [E|E].
  - left. rewrite <- E, lookup_insert_eq. f_equal. apply Hdist; [set_solver|done|done].
  - rewrite lookup_insert_ne by done. set_solver.
Qed.

(** What is documented of signatures: a verifier resolved from a signer's DID
    accepts what the signer signs. *)
Definition signs (signer : Signer) : Prop :=
  forall data sig, sign signer data = Ok sig ->
  exists v, resolve (signer_did signer) = Ok v /\ verify_bytes v data sig = Ok tt.

(** ** From the claim to the service *)
Lemma invoke_verified auth uinv did ds time :
  signs (auth_signer auth) ->
  scope_subject (auth_scope auth) = Subject.Specific did ->
  ipld_sorted (Ipld.Map (scope_parameters (auth_scope auth))) ->
  match auth_chain auth with None => ds = [] | Some chain => chain_of chain ds end ->
  cids_distinct ds ->
  delegates did (payload <$> ds) (signer_did (auth_signer auth)) ->
  Forall (fun c => covers did (scope_command (auth_scope auth)) (Ipld.Map (scope_parameters (auth_scope auth)))
    (payload c) /\ in_range time (delegation_range (payload c))) ds ->
  invoke auth = Ok uinv ->
  verify (uinv_chain uinv) = Ok tt.
Proof.
  intros Hsigns Hsubject Hsorted Hchain Hdist Hdel Hcov Hinvoke. unfold invoke in Hinvoke.
  assert (access_subject (auth_scope auth) = did) as Hdid by (cbn; by rewrite Hsubject).
  apply bind_Ok_inv in Hinvoke as ([proofs map] & Hmap & Hinvoke).
  apply bind_Ok_inv in Hinvoke as (invocation & Hbuild & Hinvoke). injection Hinvoke as <-.
  assert (proofs = to_cid <$> ds /\ forall d, d ∈ ds -> map !! to_cid d = Some d) as [-> Hfound].
  { destruct (auth_chain auth) as [chain|]; [|injection Hmap as <- <-; subst ds; set_solver].
    rewrite (export_spec chain ds), bind_Ok in Hmap by done. injection Hmap as <- <-.
    split; [by destruct Hchain|by apply exported_found]. }
  rewrite Hdid in Hbuild. unfold build_invocation, seal in Hbuild. rewrite (decide_True (P := did = did)) in Hbuild by done.
  set (inv := mkInvocationPayload _ _ _ _ _ _ _ _ _ _ _) in Hbuild.
  destruct (encode varsig inv) as [encoded|e|m|] eqn:Eenc; try done. cbn [map_err] in Hbuild. rewrite bind_Ok in Hbuild.
  destruct (sign (auth_signer auth) encoded) as [sig|e|m|] eqn:Esig; try done. cbn [map_err] in Hbuild.
  rewrite bind_Ok in Hbuild. injection Hbuild as <-.
  unfold verify. cbn [uinv_chain Chain.invocation chain_delegations].
  rewrite (proj2 (check_spec (mkEnvelope sig varsig inv) _ (windows inv (payload <$> ds)))); [done|].
  destruct (Hsigns _ _ Esig) as (v & Hv & Hver). split.
  { unfold verify_signature. cbn [header payload signature]. rewrite Eenc. cbn [map_err]. rewrite bind_Ok.
    change (inv_issuer inv) with (signer_did (auth_signer auth)). rewrite Hv. cbn [map_err].
    by rewrite bind_Ok, Hver. }
  exists ds. split_and!; [split; [done|]| |done].
  - cbn [payload]. change (inv_proofs inv) with (to_cid <$> ds).
    apply Forall2_fmap_l, Forall_Forall2_diag, Forall_forall. intros d Hd. by apply Hfound.
  - exists time. cbn [payload]. split; [done| |].
    + eexists. split; [by apply resolve_arguments_spec|]. apply Forall_fmap.
      eapply Forall_impl; [exact Hcov|]. by intros c [].
    + constructor; [done|]. rewrite <- list_fmap_compose. apply Forall_fmap.
      eapply Forall_impl; [exact Hcov|]. by intros c [].
Qed.
End flow.

(** C10: Access proved is access granted: when the search finds a proof for a
    signer and the proof is valid at some second, it can be claimed, and every
    invocation made from the claim is accepted by the service. *)
Theorem proved_access_accepted `{Tokens DelegationPayload, Tokens InvocationPayload, Signing, Resolver}
    list_certificates certs fuel access did duration (p : UcanProof) signer s :
  lists (Access := Scope) list_certificates certs ->
  (forall c, c ∈ certs -> match cert_verify (Access := Scope) c access with Ok _ | Err _ => True | _ => False end) ->
  cids_distinct certs ->
  scope_subject access = Subject.Specific did -> did <> ANY_SUBJECT ->
  ipld_sorted (Ipld.Map (scope_parameters access)) ->
  signs signer ->
  prove list_certificates fuel (mkProve (signer_did signer) access duration) = Ok p ->
  AccessRange.contains (proof_duration p) s = true ->
  exists auth, claim p signer = Ok auth /\
    forall uinv, invoke auth = Ok uinv -> verify (uinv_chain uinv) = Ok tt.
Proof.
  intros Hlists Hv Hdist Hsubject Hany Hsorted Hsigns Hprove Hs.
  assert (access_subject access = did) as Hdid by (cbn; by rewrite Hsubject).
  pose proof (prove_spec _ certs Hlists access duration Hv (signer_did signer) fuel) as Hp.
  rewrite Hprove, Hdid in Hp. destruct (Hp Hany) as [Hgrants Husable _ Hscope Hrange].
  rewrite Hdid in Hgrants. apply grants_delegates in Hgrants.
  assert (cids_distinct (proof_proofs p)) as Hdist'.
  { rewrite Forall_forall in Husable. intros a b Ha Hb. apply Hdist; [apply (Husable a Ha)|apply (Husable b Hb)]. }
  destruct (claim_spec p signer did (signer_did signer)) as (auth & -> & Hsigner & Hauth & _ & Hchain); [done..|].
  exists auth. split; [done|]. intros uinv. apply (invoke_verified _ _ did (proof_proofs p) ((s + 1) * NANOS - 1)%Z).
  - by rewrite Hsigner.
  - by rewrite Hauth, Hscope.
  - by rewrite Hauth, Hscope.
  - by destruct (auth_chain auth).
  - done.
  - by rewrite Hsigner.
  - rewrite Hauth, Hscope. apply Hrange in Hs. rewrite Forall_forall in Husable, Hs |- *. intros c Hc.
    destruct (Hs c Hc) as (range & Hver & Hin). destruct (Husable c Hc) as (_ & Hsub & _).
    split; [|by eapply within_in_range].
    apply certificate_verify_spec in Hver as (Hcmd & Hpol & _). split; [|done|done].
    rewrite Hdid in Hsub. cbn in Hsub. destruct (dlg_subject (payload c)) as [d|]; [|done]. csimpl.
    apply bool_decide_eq_true. destruct Hsub; congruence.
Qed.
