(* ===== verification/UcanDemo.v ===== *)
(** The theorems about UCANs on a chain of two delegations, with toy tokens,
    keys and containers: an invertible code of the tokens without policies, and
    signatures that anyone can compute. *)
From S2P Require Import Prelude Ipld Predicate UcanBase Delegation DelegationCorrect Chain ChainCorrect Proving ProvingCorrect Ucan UcanCorrect.

(** ** A code for countable data *)
Fixpoint bits (p : positive) : bytes :=
  match p with xH => [] | xO p => x00 :: bits p | xI p => x01 :: bits p end.
Fixpoint of_bits (b : bytes) : positive :=
  match b with [] => xH | x00 :: b => xO (of_bits b) | _ :: b => xI (of_bits b) end.
Lemma of_bits_bits p : of_bits (bits p) = p.
Proof. induction p as [p IH|p IH|]; cbn; congruence. Qed.
Definition pack (l : list positive) : bytes := bits (countable.encode l).
Definition unpack (b : bytes) : option (list positive) := countable.decode (of_bits b).
Lemma unpack_pack l : unpack (pack l) = Some l.
Proof. unfold unpack, pack. by rewrite of_bits_bits, decode_encode. Qed.
(** What is signed of a principal. *)
Definition did_bytes (did : Did) : bytes := (fun c => default x00 (Byte.of_N c)) <$> did.

(** ** Tokens *)
Definition nonce_code (n : Nonce) : bool * bytes :=
  match n with Nonce.Nonce16 b => (true, b) | Nonce.Custom b => (false, b) end.
Definition nonce_of (c : bool * bytes) : Nonce := if c.1 then Nonce.Nonce16 c.2 else Nonce.Custom c.2.
Lemma nonce_of_code n : nonce_of (nonce_code n) = n.
Proof. by destruct n. Qed.
Definition subject_code (s : Subject) : option Did :=
  match s with Subject.Specific did => Some did | Subject.Any => None end.
Definition subject_of (c : option Did) : Subject :=
  match c with Some did => Subject.Specific did | None => Subject.Any end.
Lemma subject_of_code s : subject_of (subject_code s) = s.
Proof. by destruct s. Qed.

Abbreviation code := countable.encode.
Definition delegation_code (d : DelegationPayload) : list positive :=
  [code (dlg_issuer d); code (dlg_audience d); code (subject_code (dlg_subject d)); code (dlg_command d);
   code (dlg_expiration d); code (dlg_not_before d); code (nonce_code (dlg_nonce d))].
Definition delegation_of (l : list positive) : option DelegationPayload :=
  match l with
  | [iss; aud; sub; cmd; exp; nbf; nonce] =>
      iss ← decode iss; aud ← decode aud; sub ← decode sub; cmd ← decode cmd; exp ← decode exp; nbf ← decode nbf;
      nonce ← decode nonce;
      Some (mkDelegationPayload iss aud (subject_of sub) cmd [] exp nbf None (nonce_of nonce))
  | _ => None
  end.
Definition invocation_code (i : InvocationPayload) : list positive :=
  [code (inv_issuer i); code (inv_audience i); code (inv_subject i); code (inv_command i); code (inv_proofs i);
   code (inv_cause i); code (inv_issued_at i); code (inv_expiration i); code (nonce_code (inv_nonce i))].
Definition invocation_of (l : list positive) : option InvocationPayload :=
  match l with
  | [iss; aud; sub; cmd; prf; cause; iat; exp; nonce] =>
      iss ← decode iss; aud ← decode aud; sub ← decode sub; cmd ← decode cmd; prf ← decode prf;
      cause ← decode cause; iat ← decode iat; exp ← decode exp; nonce ← decode nonce;
      Some (mkInvocationPayload iss aud sub cmd [] prf cause iat exp None (nonce_of nonce))
  | _ => None
  end.
Definition envelope_of {A} (payload_of : list positive -> option A) (b : bytes) : outcome unit (Envelope A) :=
  match unpack b with
  | Some (sig :: h :: l) =>
      match decode sig, decode h, payload_of l with
      | Some sig, Some h, Some payload => Ok (mkEnvelope sig h payload)
      | _, _, _ => Err tt
      end
  | _ => Err tt
  end.
Lemma envelope_of_code {A} (payload_of : list positive -> option A) (sig h : bytes) l payload :
  payload_of l = Some payload ->
  envelope_of payload_of (pack (code sig :: code h :: l)) = Ok (mkEnvelope sig h payload).
Proof. intros Hp. unfold envelope_of. by rewrite unpack_pack, !decode_encode, Hp. Qed.

#[local] Instance demo_delegations : Tokens DelegationPayload := {|
  EncodingError := unit;
  encode h d := Ok (h ++ did_bytes (dlg_issuer d ++ dlg_audience d) ++ Nonce.to_bytes (dlg_nonce d));
  to_cid e := mkCid (signature e);
  to_vec e :=
    match dlg_policy (payload e), dlg_meta (payload e) with
    | [], None => Ok (pack (code (signature e) :: code (header e) :: delegation_code (payload e)))
    | _, _ => Err tt
    end;
  from_slice := envelope_of delegation_of
|}.
#[local] Instance demo_invocations : Tokens InvocationPayload := {|
  EncodingError := unit;
  encode h i := Ok (h ++ did_bytes (inv_issuer i) ++ Nonce.to_bytes (inv_nonce i));
  to_cid e := mkCid (signature e);
  to_vec e :=
    match inv_arguments (payload e), inv_meta (payload e) with
    | [], None => Ok (pack (code (signature e) :: code (header e) :: invocation_code (payload e)))
    | _, _ => Err tt
    end;
  from_slice := envelope_of invocation_of
|}.
Lemma demo_delegations_decode : decodes_encoded DelegationPayload.
Proof.
  intros [sig h [iss aud sub cmd pol exp nbf meta nonce]] b; cbn -[pack envelope_of delegation_of delegation_code].
  destruct pol, meta; try done. intros [= <-]. apply envelope_of_code.
  cbn [delegation_of delegation_code dlg_issuer dlg_audience dlg_subject dlg_command dlg_expiration dlg_not_before
    dlg_nonce]. rewrite !decode_encode. csimpl. by rewrite nonce_of_code, subject_of_code.
Qed.
Lemma demo_invocations_decode : decodes_encoded InvocationPayload.
Proof.
  intros [sig h [iss aud sub cmd arg prf cause iat exp meta nonce]] b;
    cbn -[pack envelope_of invocation_of invocation_code].
  destruct arg, meta; try done. intros [= <-]. apply envelope_of_code.
  cbn [invocation_of invocation_code inv_issuer inv_audience inv_subject inv_command inv_proofs inv_cause
    inv_issued_at inv_expiration inv_nonce]. rewrite !decode_encode. csimpl. by rewrite nonce_of_code.
Qed.

#[local] Instance demo_maps : MapCodec := {|
  MapCodecError := unit;
  map_to_vec m :=
    match m with
    | [(k, Ipld.List l)] =>
        match mapM (fun v => match v with Ipld.Bytes b => Some b | _ => None end) l with
        | Some bs => Ok (pack [code k; code bs])
        | None => Err tt
        end
    | _ => Err tt
    end;
  map_from_slice b :=
    match unpack b with
    | Some [k; bs] =>
        match decode k, decode bs with
        | Some k, Some bs => Ok [(k, Ipld.List (Ipld.Bytes <$> bs))]
        | _, _ => Err tt
        end
    | _ => Err tt
    end
|}.
Lemma demo_maps_decode : decodes_maps.
Proof.
  intros m data. destruct m as [|[k v] []]; [done| |by destruct v]. destruct v; try done; cbn -[pack unpack].
  destruct (mapM _ _) as [bs|] eqn:E; [|done]. intros [= <-]. rewrite unpack_pack, !decode_encode. do 4 f_equal.
  apply mapM_Some in E. induction E as [|v b' l bs Hv _ IH]; [done|]. csimpl. rewrite IH. by destruct v; simplify_eq.
Qed.

(** ** Keys *)
#[local] Instance demo_resolver : Resolver := {|
  ResolutionError := unit;
  VerificationError := unit;
  Verifier := Did;
  resolve did := Ok did;
  verify_bytes did data sig := if decide (sig = did_bytes did ++ data) then Ok tt else Err tt
|}.
#[local] Instance demo_signing : Signing := {|
  Signer := Did;
  SigningError := unit;
  signer_did did := did;
  sign did data := Ok (did_bytes did ++ data);
  varsig := [x34];
  generate_16 := [x07]
|}.
Lemma demo_signs (did : Did) : signs did.
Proof. intros data sig [= <-]. exists did. split; [done|]. cbn -[did_bytes]. by rewrite decide_True. Qed.

(** ** Alice lets Bob at her images until 1000 s, and Bob lets Carol read them *)
Definition alice : Did := lit "a".
Definition bob : Did := lit "b".
Definition carol : Did := lit "c".
Definition blob_read : Command := [lit "blob"; lit "read"].
Definition images : btree Ipld := [(lit "type", Ipld.String (lit "image"))].
Definition until_1000 : option Timestamp := Some (1000 * NANOS)%Z.
Definition delegation_or (o : outcome (BuildError unit) Delegation) : Delegation :=
  match o with
  | Ok d => d
  | _ => mkEnvelope [] [] (mkDelegationPayload alice alice Subject.Any [] [] None None None (Nonce.Custom []))
  end.
Definition grant (policy : list Predicate) : Delegation :=
  delegation_or (build_delegation alice bob (Subject.Specific alice) [lit "blob"] policy until_1000 None [] None).
Definition regrant : Delegation :=
  delegation_or (build_delegation bob carol (Subject.Specific alice) blob_read [] None None [] None).
Definition certs : list Delegation := [grant (policy images); regrant].

Definition access : Scope := mkScope (Subject.Specific alice) blob_read images.
Definition window : AccessRange := AccessRange.mk (Some 100%Z) (Some 200%Z).
Definition demo_list (audience : Did) (subject : option Did) : outcome AuthorizeError (list Delegation) :=
  Ok (filter (fun c => cert_audience (Access := Scope) c = audience /\ cert_subject (Access := Scope) c = subject) certs).
Lemma demo_lists : lists (Access := Scope) demo_list certs.
Proof. intros aud sub. eexists. split; [done|]. intros c. rewrite list_elem_of_filter. naive_solver. Qed.
Lemma demo_certificates c :
  c ∈ certs -> match cert_verify (Access := Scope) c access with Ok _ | Err _ => True | _ => False end.
Proof.
  assert (Forall (fun c : Delegation =>
    match cert_verify (Access := Scope) c access with Ok _ | Err _ => True | _ => False end) certs) as Hf;
    [repeat constructor; vm_compute; exact I|]. rewrite Forall_forall in Hf. apply Hf.
Qed.
Lemma demo_cids : bool_decide (to_cid (grant (policy images)) = to_cid regrant) = false.
Proof. vm_compute. reflexivity. Qed.
Lemma demo_cids_distinct : cids_distinct certs.
Proof.
  pose proof (bool_decide_eq_false_1 _ demo_cids) as Hne.
  intros a b Ha Hb. unfold certs in Ha, Hb. rewrite !elem_of_cons, elem_of_nil in Ha, Hb.
  destruct Ha as [->|[->|[]]], Hb as [->|[->|[]]]; intros E;
    [reflexivity|by destruct (Hne E)|by destruct (Hne (eq_sym E))|reflexivity].
Qed.

Lemma Ok_inj {E A} (a b : A) : Ok (E := E) a = Ok b -> a = b.
Proof. by intros [= ->]. Qed.

(** The search finds the two certificates for Carol. *)
Definition found : UcanProof := mkProofChain certs access (AccessRange.mk None (Some 1000%Z)).
Lemma demo_found : prove demo_list 3 (mkProve carol access window) = Ok found.
Proof. vm_compute. reflexivity. Qed.

Lemma prove_decides_witness :
  prove demo_list 3 (mkProve carol access window) = Ok found /\
  exists bound, forall fuel, (bound < fuel)%nat ->
  match prove demo_list fuel (mkProve carol access window) with
  | Ok p => proof_ok certs access window carol p
  | Err _ => forall cs, (length cs <= MAX_DEPTH)%nat -> Forall (usable certs access window) cs ->
      ~ grants (Access := Scope) (access_subject access) cs carol
  | _ => False
  end.
Proof.
  split; [exact demo_found|].
  apply (prove_decides demo_list certs access window carol demo_lists demo_certificates); done.
Defined.

Definition carol_key : Signer (Signing := demo_signing) := carol.

(** Carol claims her access and invokes it. *)
Definition claimed : UcanAuthorization :=
  match claim found carol_key with
  | Ok auth => auth
  | _ => mkUcanAuthorization None carol_key access AccessRange.unbounded
  end.
Lemma demo_claimed : claim found carol_key = Ok claimed.
Proof. vm_compute. reflexivity. Qed.
Definition sent_in (o : outcome AuthorizeError UcanInvocation) : InvocationChain :=
  match o with
  | Ok invocation => uinv_chain invocation
  | _ => mkInvocationChain (mkEnvelope [] []
           (mkInvocationPayload alice None alice [] [] [] None None None None (Nonce.Custom []))) ∅
  end.
Definition sent : InvocationChain := sent_in (invoke claimed).
Lemma demo_invoked : invoke claimed = Ok (mkUcanInvocation sent alice (lit "/blob/read")).
Proof. vm_compute. reflexivity. Qed.

Lemma parameters_sorted : ipld_sorted (Ipld.Map (scope_parameters access)).
Proof. split; repeat constructor. Qed.

Lemma proved_access_accepted_witness :
  claim found carol_key = Ok claimed /\ invoke claimed = Ok (mkUcanInvocation sent alice (lit "/blob/read")) /\
  verify sent = Ok tt.
Proof.
  destruct (proved_access_accepted demo_list certs 3 access alice window found carol_key 150
    demo_lists demo_certificates demo_cids_distinct eq_refl ltac:(discriminate) parameters_sorted (demo_signs carol_key)
    demo_found eq_refl) as (auth & Hclaim & Hinv).
  destruct (Ok_inj _ _ (eq_trans (eq_sym demo_claimed) Hclaim)).
  split; [exact demo_claimed|]. split; [exact demo_invoked|]. exact (Hinv _ demo_invoked).
Defined.

(** The checks accept what was sent, at the times before 1000 s. *)
Definition demo_store : ProofStore := mkProofStore false (chain_delegations sent).
Lemma proofs_stored : holds_proofs demo_store (inv_proofs (payload (invocation sent))) certs.
Proof.
  assert (get_all demo_store (inv_proofs (payload (invocation sent))) = Ok certs) as E by (vm_compute; reflexivity).
  by apply get_all_spec in E.
Qed.
Definition sent_range : TimeRange := TimeRange.new None until_1000.
Lemma demo_checked : check (invocation sent) demo_store = Ok sent_range.
Proof. vm_compute. reflexivity. Qed.

Lemma check_exact_witness :
  check (invocation sent) demo_store = Ok sent_range /\
  (exists proofs, holds_proofs demo_store (inv_proofs (payload (invocation sent))) proofs /\
     exists time, authorized (payload (invocation sent)) (payload <$> proofs) time) /\
  forall time, in_range time sent_range <-> authorized (payload (invocation sent)) (payload <$> certs) time.
Proof.
  destruct (check_exact (invocation sent) demo_store) as [Hiff Hrange].
  split; [exact demo_checked|]. split.
  - apply Hiff. exists sent_range. exact demo_checked.
  - exact (Hrange _ _ demo_checked proofs_stored).
Defined.

(** A store in which no delegation was signed does as well. *)
Definition forged (d : Delegation) : Delegation := mkEnvelope [] (header d) (payload d).
Definition forged_store : ProofStore := mkProofStore false (forged <$> chain_delegations sent).
Lemma forged_poisoned : poisoned demo_store = poisoned forged_store.
Proof. unfold demo_store, forged_store. cbn [poisoned]. reflexivity. Qed.
Lemma forged_payloads : payload <$> stored demo_store = payload <$> stored forged_store.
Proof. unfold forged_store. cbn [stored]. by rewrite <- map_fmap_compose. Qed.

Lemma check_ignores_proof_signatures_witness :
  Forall (fun d => is_ok (verify_signature dlg_issuer (forged d)) = false) certs /\
  check (invocation sent) forged_store = Ok sent_range.
Proof.
  split; [apply Forall_cons; split; [|apply Forall_singleton]; vm_compute; reflexivity|].
  exact (eq_trans (eq_sym (check_ignores_proof_signatures (invocation sent) demo_store forged_store forged_poisoned
    forged_payloads)) demo_checked).
Defined.

(** ** A chain without policies in a container *)
Definition plain_invocation : Invocation :=
  mkEnvelope [x01] [x34]
    (mkInvocationPayload carol None alice blob_read [] (to_cid <$> [grant []; regrant]) None None until_1000 None
       (Nonce.Custom [x01])).
Definition plain : InvocationChain :=
  mkInvocationChain plain_invocation (list_to_map ((fun d => (to_cid d, d)) <$> [grant []; regrant])).
Definition bytes_of {E} (o : outcome E bytes) : bytes := match o with Ok data => data | _ => [] end.
Lemma bytes_of_spec {E} (o : outcome E bytes) : is_ok o = true -> o = Ok (bytes_of o).
Proof. by destruct o. Qed.
Definition plain_bytes : bytes := bytes_of (InvocationChain_to_bytes plain).
Lemma demo_plain : InvocationChain_to_bytes plain = Ok plain_bytes.
Proof.
  assert (is_ok (InvocationChain_to_bytes plain) = true) as E by (vm_compute; reflexivity).
  exact (bytes_of_spec (InvocationChain_to_bytes plain) E).
Qed.
Lemma serializes_one (m : gmap Cid Delegation) d :
  m !! to_cid d = Some d -> is_ok (to_vec d) = true ->
  exists d' b, m !! to_cid d = Some d' /\ to_cid d' = to_cid d /\ to_vec d' = Ok b.
Proof. intros Hd Hok. exists d, (bytes_of (to_vec d)). split; [exact Hd|split; [reflexivity|exact (bytes_of_spec _ Hok)]]. Qed.
Lemma plain_serializes :
  Forall (fun cid => exists d b, chain_delegations plain !! cid = Some d /\ to_cid d = cid /\ to_vec d = Ok b)
    (inv_proofs (payload (invocation plain))).
Proof.
  apply Forall_cons; split; [|apply Forall_singleton].
  - apply (serializes_one (chain_delegations plain) (grant [])); vm_compute; reflexivity.
  - apply (serializes_one (chain_delegations plain) regrant); vm_compute; reflexivity.
Qed.
