(* ===== verification/Providers.v ===== *)
(** The effects a repository performs on its environment, and the volatile
    provider that implements them in memory
    (rust/dialog-effects/src/{memory,archive,blob}.rs and
    rust/dialog-storage/src/storage/provider/volatile{.rs,/memory.rs,/archive.rs,/blob.rs}).

    A provider of an effect is an interface with the contract its
    documentation states; [Volatile] implements both of them. *)
From S2P Require Import Prelude Common.

(** * Cells of memory *)
Abbreviation Did := string.

(** [Subject -> Memory -> Space -> Cell]: the address of a cell. *)
Record CellKey := mkCellKey { subject : Did; space : string; cell : string }.
#[export] Instance CellKey_eq_dec : EqDecision CellKey.
Proof. solve_decision. Defined.

(** An opaque version token. *)
Record Version := mkVersion { version_bytes : bytes }.
#[export] Instance Version_eq_dec : EqDecision Version.
Proof. solve_decision. Defined.

Record Edition (T : Type) := mkEdition { content : T; version : Version }.
Arguments mkEdition {T} content version.
Arguments content {T} e.
Arguments version {T} e.
#[export] Instance Edition_eq_dec `{EqDecision T} : EqDecision (Edition T).
Proof. solve_decision. Defined.

Inductive MemoryError :=
  | VersionMismatch (expected actual : option Version)
  | MemoryStorage (message : string)
  | MemoryAuthorization (message : string)
  | MemoryIo (message : string).

(** [Provider<Resolve>] and [Provider<Publish>]. *)
Class MemoryProvider (S : Type) := {
  provider_resolve : CellKey -> stateful S MemoryError (option (Edition bytes));
  provider_publish : CellKey -> bytes -> option Version -> stateful S MemoryError Version
}.

(** The documented contract, for contents in [P].  A publish that expects the
    version that is there replaces the cell; one that expects another version
    changes nothing, and fails unless the content it wants is already there. *)
Class MemoryLaws (S : Type) (P : bytes -> Prop) `{!MemoryProvider S} := {
  held : S -> CellKey -> option (Edition bytes);
  memory_valid : S -> Prop;
  issued : Version -> bytes -> Prop;
  issued_inj : forall v b c, P b -> P c -> issued v b -> issued v c -> b = c;
  held_issued : forall key e s, memory_valid s -> held s key = Some e -> issued (version e) (content e) /\ P (content e);
  resolve_held : forall key s, memory_valid s ->
    exists s', provider_resolve key s = (s', Ok (held s key)) /\ memory_valid s' /\
      forall k, held s' k = held s k;
  publish_current : forall key c when s, memory_valid s -> P c -> version <$> held s key = when ->
    exists s' v, provider_publish key c when s = (s', Ok v) /\ issued v c /\ memory_valid s' /\
      held s' key = Some (mkEdition c v) /\ forall k, k <> key -> held s' k = held s k;
  publish_stale : forall key c when s, memory_valid s -> P c -> version <$> held s key <> when ->
    exists s' o, provider_publish key c when s = (s', o) /\ memory_valid s' /\
      (forall k, held s' k = held s k) /\
      ((exists v, held s key = Some (mkEdition c v) /\ o = Ok v) \/
       o = Err (VersionMismatch when (version <$> held s key)))
}.

(** * Blocks of the archive *)
Inductive ArchiveError :=
  | ArchiveDigestMismatch (expected actual : string)
  | ArchiveAuthorization (message : string)
  | ArchiveExecution (message : string)
  | ArchiveStorage (message : string)
  | ArchiveIo (message : string).

(** [Provider<Get>], [Provider<Put>] and [Provider<Import>], for the catalog of a subject. *)
Class ArchiveProvider (S : Type) := {
  archive_get : Did -> string -> Blake3Hash -> stateful S ArchiveError (option bytes);
  archive_put : Did -> string -> bytes -> stateful S ArchiveError unit;
  archive_import : Did -> string -> list bytes -> stateful S ArchiveError unit
}.

(** The blocks of a catalog, by their digests; a stored block keeps the bytes it
    has (content addressing makes writing it again the identity). *)
Definition Blocks : Type := Blake3Hash -> option bytes.
Definition add_block `{Blake3} (blocks : Blocks) (b : bytes) : Blocks := fun h =>
  if decide (h = blake3 b) then Some (default b (blocks h)) else blocks h.

Class ArchiveLaws (S : Type) `{Blake3, !ArchiveProvider S} := {
  stored_blocks : S -> Did -> string -> Blocks;
  get_stored : forall subj catalog h s,
    archive_get subj catalog h s = (s, Ok (stored_blocks s subj catalog h));
  put_stored : forall subj catalog b s,
    exists s', archive_put subj catalog b s = (s', Ok tt) /\
      forall d c h, stored_blocks s' d c h =
        if decide (d = subj /\ c = catalog) then add_block (stored_blocks s d c) b h else stored_blocks s d c h;
  import_stored : forall subj catalog bs s,
    exists s', archive_import subj catalog bs s = (s', Ok tt) /\
      forall d c h, stored_blocks s' d c h =
        if decide (d = subj /\ c = catalog) then foldl add_block (stored_blocks s d c) bs h
        else stored_blocks s d c h
}.

(** The archive, the blobs and the memory of a provider do not disturb each other. *)
Class ProviderLaws (S : Type) (P : bytes -> Prop) `{Blake3, !MemoryProvider S, !ArchiveProvider S} := {
  provider_memory :: MemoryLaws S P;
  provider_archive :: ArchiveLaws S;
  resolve_blocks : forall key s d c h,
    stored_blocks (provider_resolve key s).1 d c h = stored_blocks s d c h;
  publish_blocks : forall key b when s d c h,
    stored_blocks (provider_publish key b when s).1 d c h = stored_blocks s d c h;
  put_memory : forall subj catalog b s, memory_valid s ->
    memory_valid (archive_put subj catalog b s).1 /\
    forall k, held (archive_put subj catalog b s).1 k = held s k;
  import_memory : forall subj catalog bs s, memory_valid s ->
    memory_valid (archive_import subj catalog bs s).1 /\
    forall k, held (archive_import subj catalog bs s).1 k = held s k;
  stored_blobs : S -> Did -> Blake3Hash -> option bytes;
  resolve_blobs : forall key s d h, stored_blobs (provider_resolve key s).1 d h = stored_blobs s d h;
  publish_blobs : forall key b when s d h, stored_blobs (provider_publish key b when s).1 d h = stored_blobs s d h;
  put_blobs : forall subj catalog b s d h, stored_blobs (archive_put subj catalog b s).1 d h = stored_blobs s d h;
  import_blobs : forall subj catalog bs s d h, stored_blobs (archive_import subj catalog bs s).1 d h = stored_blobs s d h
}.

(** * The volatile provider *)
Inductive BlobError :=
  | BlobNotFound (key : string)
  | BlobDigestMismatch (expected actual : string)
  | BlobExecution (message : string)
  | BlobStorage (message : string)
  | BlobIo (message : string).

(** [Range] of a blob read. *)
Record Range := mkRange { offset : N; range_length : option N }.

(** The [base58] crate: an injective text form of bytes. *)
Class Base58 := {
  to_base58 : bytes -> string;
  to_base58_inj :: Inj (=) (=) to_base58
}.

Module Volatile.
(** [Session]: what is kept for one subject (its credentials, secrets and
    certificates apart). *)
Record Session := mkSession {
  archive : gmap (string * string) bytes;
  blobs : gmap string bytes;
  memory : gmap (string * string) bytes
}.
Definition default_session : Session := mkSession ∅ ∅ ∅.
Record t := mkVolatile { sessions : gmap Did Session }.
Definition new : t := mkVolatile ∅.

(** [sessions.entry(subject).or_default()] *)
Definition session (self : t) (subj : Did) : Session := default default_session (sessions self !! subj).
Definition put_session (self : t) (subj : Did) (s : Session) : t := mkVolatile (<[subj := s]> (sessions self)).
Definition set_archive (s : Session) m : Session := mkSession m (blobs s) (memory s).
Definition set_blobs (s : Session) m : Session := mkSession (archive s) m (memory s).
Definition set_memory (s : Session) m : Session := mkSession (archive s) (blobs s) m.

Section volatile.
Context `{Blake3, Base58}.

Definition edition_of (b : bytes) : Version := mkVersion (as_bytes (blake3 b)).

Definition resolve (key : CellKey) : stateful t MemoryError (option (Edition bytes)) := fun self =>
  (self, Ok (session ← sessions self !! subject key;
             content ← memory session !! (space key, cell key);
             Some (mkEdition content (edition_of content)))).

Definition publish (key : CellKey) (content : bytes) (when : option Version) : stateful t MemoryError Version :=
  fun self =>
  let s := session self (subject key) in
  let self := put_session self (subject key) s in
  let current_edition := edition_of <$> memory s !! (space key, cell key) in
  let new_edition := edition_of content in
  if decide (current_edition = Some new_edition) then (self, Ok new_edition)
  else
    let write :=
      (put_session self (subject key) (set_memory s (<[(space key, cell key) := content]> (memory s))),
       Ok new_edition) in
    match when, current_edition with
    | None, Some current => (self, Err (VersionMismatch None (Some current)))
    | Some expected, Some current =>
        if decide (expected <> current)
        then (self, Err (VersionMismatch (Some expected) (Some current)))
        else write
    | Some expected, None => (self, Err (VersionMismatch (Some expected) None))
    | None, None => write
    end.

Definition retract (key : CellKey) (when : Version) : stateful t MemoryError unit := fun self =>
  let s := session self (subject key) in
  let self := put_session self (subject key) s in
  match memory s !! (space key, cell key) with
  | None => (self, Ok tt)
  | Some current_bytes =>
      if decide (when <> edition_of current_bytes)
      then (self, Err (VersionMismatch (Some when) (Some (edition_of current_bytes))))
      else (put_session self (subject key) (set_memory s (delete (space key, cell key) (memory s))), Ok tt)
  end.

Definition digest_key (h : Blake3Hash) : string := to_base58 (as_bytes h).

Definition get (subj : Did) (catalog : string) (digest : Blake3Hash)
    : stateful t ArchiveError (option bytes) := fun self =>
  (self, Ok (session ← sessions self !! subj; archive session !! (catalog, digest_key digest))).

(** [entry(key).or_insert_with(...)], under the digest of the block. *)
Definition or_insert (catalog : string) (m : gmap (string * string) bytes) (b : bytes)
    : gmap (string * string) bytes :=
  let key := (catalog, digest_key (blake3 b)) in
  match m !! key with Some _ => m | None => <[key := b]> m end.
Definition put (subj : Did) (catalog : string) (b : bytes) : stateful t ArchiveError unit := fun self =>
  let s := session self subj in
  (put_session self subj (set_archive s (or_insert catalog (archive s) b)), Ok tt).
Definition import (subj : Did) (catalog : string) (bs : list bytes) : stateful t ArchiveError unit := fun self =>
  match bs with
  | [] => (self, Ok tt)
  | _ => let s := session self subj in
         (put_session self subj (set_archive s (foldl (or_insert catalog) (archive s) bs)), Ok tt)
  end.

(** [MemoryBlobSink]; the hasher is the bytes it was fed. *)
Record MemoryBlobSink := mkSink { sink_subject : Did; sink_buffer : bytes; hasher : bytes; expected : option Blake3Hash }.
Definition open_blob_sink (subj : Did) (declared : option Blake3Hash) : MemoryBlobSink :=
  mkSink subj [] [] declared.
Definition write_all (chunk : bytes) : stateful MemoryBlobSink BlobError unit := fun sink =>
  (mkSink (sink_subject sink) (sink_buffer sink ++ chunk) (hasher sink ++ chunk) (expected sink), Ok tt).
Definition finish (sink : MemoryBlobSink) : stateful t BlobError Blake3Hash := fun self =>
  let hash := blake3 (hasher sink) in
  let commit :=
    let s := session self (sink_subject sink) in
    let stored := match blobs s !! digest_key hash with
                  | Some _ => blobs s
                  | None => <[digest_key hash := sink_buffer sink]> (blobs s)
                  end in
    (put_session self (sink_subject sink) (set_blobs s stored), Ok hash) in
  match expected sink with
  | Some declared =>
      if decide (hash <> declared)
      then (self, Err (BlobDigestMismatch (digest_key declared) (digest_key hash)))
      else commit
  | None => commit
  end.

(** [Read]: the whole blob or a range of it, clamped to its length. *)
Definition read (subj : Did) (digest : Blake3Hash) (range : option Range) (self : t) : outcome BlobError bytes :=
  match session ← sessions self !! subj; blobs session !! digest_key digest with
  | None => Err (BlobNotFound (digest_key digest))
  | Some b =>
      Ok match range with
         | None => b
         | Some range =>
             let start := N.min (offset range) (N.of_nat (length b)) in
             let stop := match range_length range with
                         | Some len => N.min (N.min (start + len) (2 ^ 64 - 1)) (N.of_nat (length b))
                         | None => N.of_nat (length b)
                         end in
             take (N.to_nat (stop - start)) (drop (N.to_nat start) b)
         end
  end.

#[export] Instance volatile_memory : MemoryProvider t := {| provider_resolve := resolve; provider_publish := publish |}.
#[export] Instance volatile_archive : ArchiveProvider t :=
  {| archive_get := get; archive_put := put; archive_import := import |}.

(** ** What the volatile provider keeps *)
Definition cell_of (self : t) (key : CellKey) : option bytes :=
  memory (session self (subject key)) !! (space key, cell key).
Definition block_of (self : t) (subj : Did) (catalog : string) : Blocks := fun h =>
  archive (session self subj) !! (catalog, digest_key h).

Definition blob_of (self : t) (subj : Did) (h : Blake3Hash) : option bytes :=
  blobs (session self subj) !! digest_key h.

Lemma session_put self subj s d :
  session (put_session self subj s) d = if decide (d = subj) then s else session self d.
Proof.
  unfold session, put_session. simpl. case_decide; subst.
  - by rewrite lookup_insert_eq.
  - by rewrite lookup_insert_ne.
Qed.
Lemma put_session_put self subj s s' : put_session (put_session self subj s) subj s' = put_session self subj s'.
Proof. unfold put_session. simpl. by rewrite insert_insert_eq. Qed.
Lemma cell_of_put self subj s key :
  cell_of (put_session self subj s) key
  = if decide (subject key = subj) then memory s !! (space key, cell key) else cell_of self key.
Proof. unfold cell_of. rewrite session_put. by case_decide. Qed.
Lemma cell_of_touch self subj key : cell_of (put_session self subj (session self subj)) key = cell_of self key.
Proof. rewrite cell_of_put. case_decide; [by subst|done]. Qed.
Lemma cell_of_write self key b k :
  cell_of (put_session self (subject key)
    (set_memory (session self (subject key)) (<[(space key, cell key) := b]> (memory (session self (subject key)))))) k
  = if decide (k = key) then Some b else cell_of self k.
Proof.
  rewrite cell_of_put. unfold cell_of. cbn [memory set_memory]. destruct k as [d sp c], key as [d' sp' c']. simpl.
  case_decide as Ed; case_decide as Ek; simplify_eq; try done.
  - by rewrite lookup_insert_eq.
  - rewrite lookup_insert_ne by congruence. done.
Qed.
Lemma resolve_spec key self :
  resolve key self = (self, Ok ((fun b => mkEdition b (edition_of b)) <$> cell_of self key)).
Proof.
  unfold resolve, cell_of, session. destruct (sessions self !! subject key) as [s|]; simpl.
  - by destruct (memory s !! _).
  - by rewrite lookup_empty.
Qed.

(** Compare and swap: what a publish does to the cells. *)
Lemma publish_spec key c when self :
  let current := edition_of <$> cell_of self key in
  exists self' o, publish key c when self = (self', o) /\
    (forall subj catalog h, block_of self' subj catalog h = block_of self subj catalog h) /\
    if decide (current = Some (edition_of c)) then
      o = Ok (edition_of c) /\ forall k, cell_of self' k = cell_of self k
    else if decide (current = when) then
      o = Ok (edition_of c) /\ forall k, cell_of self' k = if decide (k = key) then Some c else cell_of self k
    else o = Err (VersionMismatch when current) /\ forall k, cell_of self' k = cell_of self k.
Proof.
  intros current. unfold publish. cbv zeta. fold (cell_of self key). fold current.
  assert (forall s subj catalog h, archive s = archive (session self (subject key)) ->
    block_of (put_session self (subject key) s) subj catalog h = block_of self subj catalog h) as Hblocks.
  { intros s subj catalog h Es. unfold block_of. rewrite session_put. case_decide; [subst; by rewrite Es|done]. }
  rewrite put_session_put.
  case_decide as Hsame; [|destruct when as [w|], current as [v|] eqn:Ec]; repeat case_decide; simplify_eq;
    (do 2 eexists; split; [reflexivity|]; split; [intros; by apply Hblocks|]; split; [done|]; intros);
    first [apply cell_of_touch | apply cell_of_write].
Qed.

Lemma add_key m catalog b h catalog' :
  or_insert catalog m b !! (catalog', digest_key h)
  = if decide (catalog' = catalog /\ h = blake3 b)
    then Some (default b (m !! (catalog', digest_key h))) else m !! (catalog', digest_key h).
Proof.
  unfold or_insert. case_decide as Ed.
  - destruct Ed as [-> ->]. destruct (m !! _) eqn:E; [done|]. by rewrite lookup_insert_eq.
  - destruct (m !! (catalog, _)); [done|]. rewrite lookup_insert_ne; [done|].
    intros [= -> E%(inj to_base58)]. apply Ed. destruct h, (blake3 b); simpl in *; by subst.
Qed.
Lemma add_keys m catalog bs h catalog' :
  foldl (or_insert catalog) m bs !! (catalog', digest_key h)
  = (if decide (catalog' = catalog) then foldl add_block (fun h => m !! (catalog', digest_key h)) bs
     else fun h => m !! (catalog', digest_key h)) h.
Proof.
  revert m; induction bs as [|b bs IH]; intros m; cbn [foldl]; [by case_decide|].
  rewrite IH. case_decide as E; [subst|rewrite add_key; case_decide; naive_solver].
  assert (forall f g h, (forall h, f h = g h) -> foldl add_block f bs h = foldl add_block g bs h) as Hext.
  { clear. induction bs as [|b bs IH]; intros f g h Hfg; [apply Hfg|]. apply IH. intros h'. unfold add_block.
    by rewrite !Hfg. }
  apply Hext. intros h'. rewrite add_key. unfold add_block. repeat case_decide; naive_solver.
Qed.
Lemma blob_of_put self subj s d h :
  blobs s = blobs (session self subj) -> blob_of (put_session self subj s) d h = blob_of self d h.
Proof. intros E. unfold blob_of. rewrite session_put. case_decide; [subst; by rewrite E|done]. Qed.
Lemma blob_of_publish key c when self d h : blob_of (publish key c when self).1 d h = blob_of self d h.
Proof.
  unfold publish. rewrite put_session_put. repeat (case_match; simplify_eq/=); rewrite ?blob_of_put; done.
Qed.
Lemma block_of_archive (self : t) (subj : Did) (m : gmap (string * string) bytes) d c h :
  block_of (put_session self subj (set_archive (session self subj) m)) d c h
  = if decide (d = subj) then m !! (c, digest_key h) else block_of self d c h.
Proof. unfold block_of. rewrite session_put. by case_decide. Qed.
Lemma cell_of_archive (self : t) (subj : Did) (m : gmap (string * string) bytes) k :
  cell_of (put_session self subj (set_archive (session self subj) m)) k = cell_of self k.
Proof. rewrite cell_of_put. case_decide; [by subst|done]. Qed.

(** ** The contracts hold *)
Section laws.
Context (P : bytes -> Prop) (Hcf : collision_free P).

Definition volatile_held (self : t) (key : CellKey) : option (Edition bytes) :=
  (fun b => mkEdition b (edition_of b)) <$> cell_of self key.
Definition volatile_valid (self : t) : Prop := forall key b, cell_of self key = Some b -> P b.

Lemma volatile_version self key : version <$> volatile_held self key = edition_of <$> cell_of self key.
Proof. unfold volatile_held. by destruct (cell_of self key). Qed.
Lemma volatile_same self self' :
  (forall k, cell_of self' k = cell_of self k) ->
  (volatile_valid self -> volatile_valid self') /\ forall k, volatile_held self' k = volatile_held self k.
Proof. intros E. split; [intros Hv k b; rewrite E; apply Hv|intros k; unfold volatile_held; by rewrite E]. Qed.

Lemma digest_inj b c : P b -> P c -> as_bytes (blake3 b) = as_bytes (blake3 c) -> b = c.
Proof.
  intros Hb Hc E. apply (proj1 Hcf); [done..|]. destruct (blake3 b), (blake3 c). simpl in E. by rewrite E.
Qed.

#[export] Program Instance volatile_memory_laws : MemoryLaws t P := {|
  held := volatile_held; memory_valid := volatile_valid; issued v b := v = edition_of b |}.
Next Obligation. intros v b c Hb Hc -> [= E]. by apply digest_inj. Qed.
Next Obligation.
  intros key e self Hv. unfold volatile_held. destruct (cell_of self key) as [b|] eqn:Eb; [|done].
  intros [= <-]. split; [done|]. by eapply Hv.
Qed.
Next Obligation. intros key self Hv. exists self. split; [apply resolve_spec|done]. Qed.
Next Obligation.
  intros key c when self Hv Hc. cbv beta. rewrite volatile_version. intros Hw.
  destruct (publish_spec key c when self) as (self' & o & E & _ & Hspec).
  exists self', (edition_of c). case_decide as Hs; [|case_decide; [|done]]; destruct Hspec as [-> Hcells].
  - destruct (volatile_same _ _ Hcells) as [Hv' Hh]. split_and!; [done|done|by apply Hv'| |intros; apply Hh].
    rewrite Hh. unfold volatile_held. destruct (cell_of self key) as [b|] eqn:Eb; simplify_eq/=.
    apply Hv in Eb. repeat f_equal; by apply digest_inj.
  - split_and!; [done|done| | |].
    + intros k b. rewrite Hcells. case_decide; [by intros [= <-]|apply Hv].
    + unfold volatile_held. by rewrite Hcells, decide_True.
    + intros k Hk. unfold volatile_held. by rewrite Hcells, decide_False.
Qed.
Next Obligation.
  intros key c when self Hv Hc. cbv beta. rewrite volatile_version. intros Hw.
  destruct (publish_spec key c when self) as (self' & o & E & _ & Hspec). exists self', o.
  case_decide as Hs; [|case_decide; [done|]]; destruct Hspec as [-> Hcells];
    destruct (volatile_same _ _ Hcells) as [Hv' Hh]; (split_and!; [done|by apply Hv'|done|]).
  - left. exists (edition_of c). split; [|done]. unfold volatile_held.
    destruct (cell_of self key) as [b|] eqn:Eb; simplify_eq/=.
    apply Hv in Eb. repeat f_equal; by apply digest_inj.
  - by right.
Qed.

#[export] Program Instance volatile_archive_laws : ArchiveLaws t := {| stored_blocks := block_of |}.
Next Obligation.
  intros subj catalog h self. unfold archive_get, volatile_archive, get, block_of, session.
  by destruct (sessions self !! subj); simpl; rewrite ?lookup_empty.
Qed.
Next Obligation.
  intros subj catalog b self. eexists. split; [reflexivity|]. intros d c h. rewrite block_of_archive, add_key.
  unfold add_block, block_of. repeat case_decide; naive_solver.
Qed.
Next Obligation.
  intros subj catalog bs self. unfold archive_import, volatile_archive, import. destruct bs as [|b bs].
  - eexists. split; [reflexivity|]. intros d c h. by case_decide.
  - eexists. split; [reflexivity|]. intros d c h. rewrite block_of_archive, add_keys.
    unfold block_of. repeat case_decide; naive_solver.
Qed.

#[export] Program Instance volatile_laws : ProviderLaws t P := {|
  provider_memory := volatile_memory_laws; provider_archive := volatile_archive_laws; stored_blobs := blob_of |}.
Next Obligation. done. Qed.
Next Obligation.
  intros key b when self d c h. destruct (publish_spec key b when self) as (self' & o & E & Hb & _).
  change (block_of (publish key b when self).1 d c h = block_of self d c h). by rewrite E.
Qed.
Next Obligation.
  intros subj catalog b self Hv.
  destruct (volatile_same self (put subj catalog b self).1) as [Hv' Hh]; [apply cell_of_archive|exact (conj (Hv' Hv) Hh)].
Qed.
Next Obligation.
  intros subj catalog bs self Hv.
  destruct (volatile_same self (import subj catalog bs self).1) as [Hv' Hh]; [|exact (conj (Hv' Hv) Hh)].
  destruct bs; [done|apply cell_of_archive].
Qed.
Next Obligation. done. Qed.
Next Obligation. intros. apply blob_of_publish. Qed.
Next Obligation. intros. by apply blob_of_put. Qed.
Next Obligation. intros subj catalog bs self d h. destruct bs; [done|by apply blob_of_put]. Qed.
End laws.
End volatile.
End Volatile.
