(* ===== verification/Cells.v ===== *)
(** Typed cells (rust/dialog-repository/src/repository/memory/{cell,publish,resolve}.rs):
    a handle to a cell of the environment with a cache of the edition it last
    saw.  Clones of a handle share the cache, so the caches are a heap and a
    handle is the address of a cell with the address of a cache. *)
From S2P Require Import Prelude Common Providers.

(** * Errors *)
Inductive PublishError :=
  | PublishVersionMismatch (expected actual : option Version)
  | PublishStorage (message : string)
  | PublishAuthorization (message : string)
  | PublishIo (message : string)
  | PublishEncode (message : string).
Definition publish_error (e : MemoryError) : PublishError :=
  match e with
  | VersionMismatch expected actual => PublishVersionMismatch expected actual
  | MemoryStorage message => PublishStorage message
  | MemoryAuthorization message => PublishAuthorization message
  | MemoryIo message => PublishIo message
  end.

Inductive ResolveError :=
  | ResolveVersionMismatch (expected actual : option Version)
  | ResolveStorage (message : string)
  | ResolveAuthorization (message : string)
  | ResolveIo (message : string)
  | ResolveDecode (message : string).
Definition resolve_error (e : MemoryError) : ResolveError :=
  match e with
  | VersionMismatch expected actual => ResolveVersionMismatch expected actual
  | MemoryStorage message => ResolveStorage message
  | MemoryAuthorization message => ResolveAuthorization message
  | MemoryIo message => ResolveIo message
  end.

(** The encoder of cells (DAG-CBOR through serde, outside this repository). *)
Class CellCodec (T : Type) := {
  encode_value : T -> outcome string bytes;
  decode_value : bytes -> outcome string T
}.
(** What is serialized is read back. *)
Class CellCodecLaws (T : Type) `{!CellCodec T} := {
  decode_encode : forall (x : T) b, encode_value x = Ok b -> decode_value b = Ok x
}.
(** A value serializes, to bytes in [P]. *)
Definition known (P : bytes -> Prop) {T} `{!CellCodec T} (x : T) : Prop := exists b, encode_value x = Ok b /\ P b.

(** * The heap of caches *)
Definition CacheId : Type := positive.

(** The values of the heap: one type for the caches of every cell type. *)
Class Cached (V T : Type) := {
  inject : T -> V;
  project : V -> option T;
  project_inject : forall x, project (inject x) = Some x
}.

(** The local provider, the network (the sites effects are forked to), the
    caches of the handles, and the last known values of the retained cells. *)
Record World (L N V : Type) := mkWorld {
  local : L;
  network : N;
  heap : gmap CacheId (option (Edition V));
  retained : gmap CacheId V
}.
Arguments mkWorld {L N V} local network heap retained.
Arguments local {L N V} w.
Arguments network {L N V} w.
Arguments heap {L N V} w.
Arguments retained {L N V} w.
Definition set_heap {L N V} h (w : World L N V) : World L N V := mkWorld (local w) (network w) h (retained w).
Definition set_retained {L N V} r (w : World L N V) : World L N V := mkWorld (local w) (network w) (heap w) r.

(** Where an effect is performed: locally, or through the network. *)
Class Part (W S : Type) := { part : W -> S; set_part : S -> W -> W }.
#[export] Instance local_part {L N V} : Part (World L N V) L := {|
  part := local; set_part s w := mkWorld s (network w) (heap w) (retained w) |}.
#[export] Instance network_part {L N V} : Part (World L N V) N := {|
  part := network; set_part s w := mkWorld (local w) s (heap w) (retained w) |}.

Definition map_edition {A B} (f : A -> B) (e : Edition A) : Edition B := mkEdition (f (content e)) (version e).

(** [Cell<T>]; the type of the content is only in the type of the handle. *)
Record Cell (T : Type) := mkCell { capability : CellKey; cache : CacheId }.
Arguments mkCell {T} capability cache.
Arguments capability {T} c.
Arguments cache {T} c.

(** [Checkpoint<T>] *)
Record Checkpoint (T : Type) := mkCheckpoint { checkpoint_cell : Cell T; checkpoint_expected : option Version }.
Arguments mkCheckpoint {T} checkpoint_cell checkpoint_expected.
Arguments checkpoint_cell {T} c.
Arguments checkpoint_expected {T} c.

(** An effect performed on a part of the world. *)
Definition perform {W S E F A} `{!Part W S} (f : E -> F) (m : stateful S E A) : stateful W F A := fun w =>
  let '(s, o) := m (part w) in (set_part s w, map_err f o).

(** Reading the state. *)
Definition asks {W E A} (f : W -> A) : stateful W E A := fun w => (w, Ok (f w)).

Section cells.
Context {L N V : Type}.
Local Abbreviation world := (World L N V).

Section cell.
Context {T : Type} `{!Cached V T}.
Implicit Types (c : Cell T) (x : T).

(** [From<Capability<memory::Cell>> for Cell<T>]: a handle with an empty cache. *)
Definition new_cell {E} (key : CellKey) : stateful world E (Cell T) := fun w =>
  let id := fresh (dom (heap w)) in
  (set_heap (<[id := None]> (heap w)) w, Ok (mkCell key id)).

(** [Cache::edition], [content] and [version]. *)
Definition cell_edition c (w : world) : option (Edition T) :=
  e ← mjoin (heap w !! cache c); x ← project (content e); Some (mkEdition x (version e)).
Definition cell_content c (w : world) : option T := content <$> cell_edition c w.
Definition cell_version c (w : world) : option Version := version <$> cell_edition c w.
(** [Cache::update] (also [Cell::reset]) and [Cache::clear]. *)
Definition cache_update {E} c (e : Edition T) : stateful world E unit :=
  modify (fun w => set_heap (<[cache c := Some (map_edition inject e)]> (heap w)) w).
Definition cache_clear {E} c : stateful world E unit :=
  modify (fun w => set_heap (<[cache c := None]> (heap w)) w).

Context `{!CellCodec T}.
(** [Cache::decode], [apply] and [encode]. *)
Definition cache_decode (b : bytes) : outcome ResolveError T := map_err ResolveDecode (decode_value b).
Definition cache_apply c (edition : option (Edition bytes)) : stateful world ResolveError unit :=
  match edition with
  | None => cache_clear c
  | Some raw => x ← lift_outcome (cache_decode (content raw)); cache_update c (mkEdition x (version raw))
  end.
Definition cache_encode x : outcome PublishError bytes := map_err PublishEncode (encode_value x).

Context {S : Type} `{!Part world S, !MemoryProvider S}.
(** [Resolve::perform]; [ForkResolve::perform] is the same with the provider of the site. *)
Definition cell_resolve c : stateful world ResolveError unit :=
  edition ← perform resolve_error (provider_resolve (capability c)); cache_apply c edition.

(** The write of [Publish::perform] (and [ForkPublish::perform]) and of
    [Checkpoint::publish]: they differ in the version they expect. *)
Definition publish_when c x (when : option Version) : stateful world PublishError unit :=
  content ← lift_outcome (cache_encode x);
  version ← perform publish_error (provider_publish (capability c) content when);
  cache_update c (mkEdition x version).
(** [Publish::perform]: the expected version is the cached one when it runs. *)
Definition cell_publish c x : stateful world PublishError unit :=
  when ← asks (cell_version c); publish_when c x when.

(** [Cell::checkpoint] and [Checkpoint::publish]. *)
Definition cell_checkpoint c (w : world) : Checkpoint T := mkCheckpoint c (cell_version c w).
Definition checkpoint_publish (p : Checkpoint T) x : stateful world PublishError unit :=
  publish_when (checkpoint_cell p) x (checkpoint_expected p).
End cell.
End cells.

(** * Cells that always have a value *)
(** [Retain<T>]: clones share the last known value too. *)
Record Retain (T : Type) := mkRetain { retain_cell : Cell T; value : CacheId }.
Arguments mkRetain {T} retain_cell value.
Arguments retain_cell {T} r.
Arguments value {T} r.

Section retain.
Context {L N V T : Type} `{!Cached V T, !CellCodec T}.
Local Abbreviation world := (World L N V).
Context {S : Type} `{!Part world S, !MemoryProvider S}.

Definition retain_set {E} (id : CacheId) (x : T) : stateful world E unit :=
  modify (fun w => set_retained (<[id := inject x]> (retained w)) w).
(** [Cell::retain] *)
Definition retain {E} (c : Cell T) (initial : T) : stateful world E (Retain T) := fun w =>
  let id := fresh (dom (retained w)) in
  (_ ← retain_set id initial; mret (mkRetain c id)) w.
(** What the cache of the cell gives replaces the value. *)
Definition retain_sync {E} (r : Retain T) : stateful world E unit := fun w =>
  match cell_content (retain_cell r) w with
  | Some x => retain_set (value r) x w
  | None => (w, Ok tt)
  end.
(** [Retain::get]; a value of another type is not there. *)
Definition retained_value {E} (id : CacheId) : stateful world E T := fun w =>
  (w, match retained w !! id ≫= project with Some x => Ok x | None => Panic "retained value" end).
Definition retain_get {E} (r : Retain T) : stateful world E T := _ ← retain_sync r; retained_value (value r).
(** [RetainResolve::perform] and [RetainPublish::perform]. *)
Definition retain_resolve (r : Retain T) : stateful world ResolveError unit :=
  _ ← cell_resolve (retain_cell r); retain_sync r.
Definition retain_publish (r : Retain T) (x : T) : stateful world PublishError unit :=
  _ ← cell_publish (retain_cell r) x; retain_set (value r) x.
End retain.

(** * What the operations do *)

(** The environment answers as before; or as before but for one cell. *)
Section frames.
Context {S : Type} (P : bytes -> Prop) `{Blake3, !MemoryProvider S, !ArchiveProvider S, !ProviderLaws S P}.

Record unchanged_but (keys : CellKey -> Prop) (s s' : S) : Prop := {
  but_held k : ~ keys k -> held s' k = held s k;
  but_blocks d c h : stored_blocks s' d c h = stored_blocks s d c h;
  but_blobs d h : stored_blobs s' d h = stored_blobs s d h
}.
Definition unchanged : S -> S -> Prop := unchanged_but (fun _ => False).

Lemma unchanged_held s s' k : unchanged s s' -> held s' k = held s k.
Proof. intros [Hh _]. apply Hh. tauto. Qed.
Lemma unchanged_but_trans (K1 K2 K : CellKey -> Prop) s1 s2 s3 :
  unchanged_but K1 s1 s2 -> unchanged_but K2 s2 s3 -> (forall k, K1 k \/ K2 k -> K k) -> unchanged_but K s1 s3.
Proof. intros [H1 B1 C1] [H2 B2 C2] HK. split; intros; [rewrite H2, H1|rewrite B2, B1|rewrite C2, C1]; auto. Qed.
#[export] Instance unchanged_refl K : Reflexive (unchanged_but K).
Proof. by intros s. Qed.
Lemma unchanged_weaken K s s' : unchanged s s' -> unchanged_but K s s'.
Proof. intros Hu. by eapply unchanged_but_trans; [exact Hu|reflexivity|naive_solver]. Qed.
End frames.

Section specs.
Context {L N V T S : Type} (P : bytes -> Prop) `{!Cached V T, !CellCodec T, !CellCodecLaws T}.
Local Abbreviation world := (World L N V).
Context `{!Part world S, Blake3, !MemoryProvider S, !ArchiveProvider S, !ProviderLaws S P}.
Implicit Types (c : Cell T) (w : world) (o : option (Edition T)) (s : S).

(** The cell at [key] holds the encoding of an edition, or nothing. *)
Definition holds_cell s (key : CellKey) o : Prop :=
  match o with
  | None => held s key = None
  | Some e => exists b, encode_value (content e) = Ok b /\ held s key = Some (mkEdition b (version e))
  end.
(** The handle has seen [o] last. *)
Definition cache_set c o w : world := set_heap (<[cache c := map_edition inject <$> o]> (heap w)) w.

Lemma holds_cell_version s key o : holds_cell s key o -> version <$> held s key = version <$> o.
Proof. destruct o as [e|]; simpl; [intros (b & _ & ->)|intros ->]; done. Qed.
Lemma holds_cell_unchanged K s s' key o :
  unchanged_but P K s s' -> ~ K key -> holds_cell s key o -> holds_cell s' key o.
Proof. intros [Hh _] HK. unfold holds_cell. by rewrite Hh. Qed.
Lemma cell_encode_inj (x y : T) b : encode_value x = Ok b -> encode_value y = Ok b -> x = y.
Proof using P CellCodecLaws0. intros Hx%decode_encode Hy%decode_encode. congruence. Qed.
Lemma holds_cell_inj s key o1 o2 : holds_cell s key o1 -> holds_cell s key o2 -> o1 = o2.
Proof using P CellCodecLaws0.
  destruct o1 as [[x1 v1]|], o2 as [[x2 v2]|]; simpl; [|naive_solver congruence..].
  intros (b1 & H1 & E1) (b2 & H2 & E2). rewrite E1 in E2. simplify_eq. by rewrite (cell_encode_inj x1 x2 b2).
Qed.

Lemma cache_edition_set c o w : cell_edition c (cache_set c o w) = o.
Proof.
  unfold cell_edition, cache_set. simpl. rewrite lookup_insert_eq. simpl.
  destruct o as [[x v]|]; simpl; [by rewrite project_inject|done].
Qed.
Lemma cache_edition_set_ne {U} `{!Cached V U} (c' : Cell U) c o w :
  cache c' <> cache c -> cell_edition c' (cache_set c o w) = cell_edition c' w.
Proof. intros Hc. unfold cell_edition, cache_set. simpl. by rewrite lookup_insert_ne. Qed.

Lemma cell_resolve_spec c o w :
  memory_valid (part w) -> holds_cell (part w) (capability c) o ->
  exists s, cell_resolve c w = (cache_set c o (set_part s w), Ok tt) /\
    memory_valid s /\ unchanged P (part w) s.
Proof using P CellCodecLaws0.
  intros Hv Ho. destruct (resolve_held (capability c) (part w) Hv) as (s & E & Hv' & Hh).
  exists s. split_and!; [|done|].
  - unfold cell_resolve, mbind, stateful_bind, perform. rewrite E. cbn [map_err].
    destruct o as [[x v]|]; simpl in Ho; [destruct Ho as (b & Hb & ->)|by rewrite Ho].
    cbn [cache_apply content version]. unfold cache_decode. by rewrite (decode_encode _ _ Hb).
  - split; [auto|intros d cat h|intros d h].
    + pose proof (resolve_blocks (capability c) (part w) d cat h) as Hb. by rewrite E in Hb.
    + pose proof (resolve_blobs (capability c) (part w) d h) as Hb. by rewrite E in Hb.
Qed.

Lemma publish_when_unfold c x when w b :
  encode_value x = Ok b ->
  publish_when c x when w =
  (let '(s, r) := provider_publish (capability c) b when (part w) in
   match r with
   | Ok v => (cache_set c (Some (mkEdition x v)) (set_part s w), Ok tt)
   | Err e => (set_part s w, Err (publish_error e))
   | Panic m => (set_part s w, Panic m)
   | OutOfFuel => (set_part s w, OutOfFuel)
   end).
Proof.
  intros Eb. unfold publish_when, mbind, stateful_bind, perform, lift_outcome, cache_encode. rewrite Eb. cbn [map_err].
  by destruct (provider_publish _ _ _ _) as [s [v|e| |]].
Qed.
Lemma publish_keeps_blocks key b when s s' r d cat h :
  provider_publish key b when s = (s', r) -> stored_blocks s' d cat h = stored_blocks s d cat h.
Proof. intros E. pose proof (publish_blocks key b when s d cat h) as Hb. by rewrite E in Hb. Qed.

Lemma publish_keeps_blobs key b when s s' r d h :
  provider_publish key b when s = (s', r) -> stored_blobs s' d h = stored_blobs s d h.
Proof. intros E. pose proof (publish_blobs key b when s d h) as Hb. by rewrite E in Hb. Qed.

(** A version the provider may give to the value. *)
Definition issues (v : Version) x : Prop := exists b, encode_value x = Ok b /\ issued (P := P) (S := S) v b.

(** A publish that expects the version that is there. *)
Lemma publish_when_current c x when o w :
  known P x -> memory_valid (part w) -> holds_cell (part w) (capability c) o -> version <$> o = when ->
  exists s v, publish_when c x when w = (cache_set c (Some (mkEdition x v)) (set_part s w), Ok tt) /\
    issues v x /\ memory_valid s /\ holds_cell s (capability c) (Some (mkEdition x v)) /\
    unchanged_but P (fun k => k = capability c) (part w) s.
Proof using P CellCodecLaws0.
  intros (b & Eb & HP) Hv Ho Hw.
  destruct (publish_current (capability c) b when (part w) Hv HP) as (s & v & E & Hi & Hv' & Hk & Hh).
  { by rewrite (holds_cell_version _ _ _ Ho). }
  exists s, v. rewrite (publish_when_unfold c x when w b Eb), E. split_and!; [done|by exists b|done|by exists b|].
  split; [by intros k Hk'; apply Hh|intros; by eapply publish_keeps_blocks|intros; by eapply publish_keeps_blobs].
Qed.

(** A publish that expects another version: nothing changes but, when the
    content it wants is already there, the cache. *)
Lemma publish_when_stale c x when o w :
  known P x -> memory_valid (part w) -> holds_cell (part w) (capability c) o -> version <$> o <> when ->
  exists s, memory_valid s /\ unchanged P (part w) s /\
    (publish_when c x when w = (set_part s w, Err (PublishVersionMismatch when (version <$> o))) \/
     exists v, o = Some (mkEdition x v) /\
       publish_when c x when w = (cache_set c o (set_part s w), Ok tt)).
Proof using P CellCodecLaws0.
  intros (b & Eb & HP) Hv Ho Hw. pose proof (holds_cell_version _ _ _ Ho) as Ev.
  destruct (publish_stale (capability c) b when (part w) Hv HP) as (s & r & E & Hv' & Hh & Hr).
  { by rewrite Ev. }
  exists s. split_and!; [done|split; [auto|intros; by eapply publish_keeps_blocks|intros; by eapply publish_keeps_blobs]|].
  rewrite (publish_when_unfold c x when w b Eb), E. destruct Hr as [(v & Hk & ->) | ->]; [right|left].
  - exists v. assert (o = Some (mkEdition x v)) as ->; [|done].
    eapply holds_cell_inj; [exact Ho|]. by exists b.
  - simpl. by rewrite Ev.
Qed.
End specs.
