(* ===== verification/Revisions.v ===== *)
(** Revisions, branches and remotes
    (rust/dialog-repository/src/repository/{revision,tree,branch,memory,error}.rs,
    branch/{upstream,reference,open,load,reset,set_upstream,fetch}.rs,
    remote/{address,reference,repository,create,load,branch}.rs and
    remote/branch/*.rs). *)
From S2P Require Import Prelude Common Providers Cells.

(** * Revisions *)

(** [TreeReference]; the default one is the empty tree. *)
Record TreeReference := mkTreeReference { tree_hash : Blake3Hash }.
#[export] Instance TreeReference_eq_dec : EqDecision TreeReference.
Proof. solve_decision. Defined.
#[export] Program Instance TreeReference_countable : Countable TreeReference :=
  inj_countable' tree_hash mkTreeReference _.
Next Obligation. by intros []. Qed.
Definition EMPTY_TREE_HASH : Blake3Hash := mkBlake3Hash (replicate 32 x00).
Definition default_tree : TreeReference := mkTreeReference EMPTY_TREE_HASH.

(** Addition on [usize]; it wraps (with overflow checks it panics instead). *)
Definition usize_add (a b : N) : N := ((a + b) mod 2 ^ 64)%N.

Record Revision := mkRevision {
  revision_subject : Did;
  issuer : Did;
  authority : Did;
  tree : TreeReference;
  cause : gset TreeReference;
  period : N;
  moment : N
}.
#[export] Instance Revision_eq_dec : EqDecision Revision.
Proof. solve_decision. Defined.

Module Revision.
Definition new (tree : TreeReference) (subject issuer authority : Did) : Revision :=
  mkRevision subject issuer authority tree ∅ 0 0.
Definition advance (self : Revision) (tree' : TreeReference) (issuer' authority' : Did) : Revision :=
  let '(period', moment') :=
    if decide (issuer self = issuer') then (period self, usize_add (moment self) 1)
    else (usize_add (period self) 1, 0%N) in
  mkRevision (revision_subject self) issuer' authority' tree' {[tree self]} period' moment'.
Definition merge (self upstream : Revision) (tree' : TreeReference) (issuer' authority' : Did) : Revision :=
  mkRevision (revision_subject self) issuer' authority' tree' {[tree upstream]}
    (usize_add (N.max (period self) (period upstream)) 1) 0.
End Revision.

(** * Upstreams *)
Inductive Upstream :=
  | UpstreamLocal (branch : string) (tree : TreeReference)
  | UpstreamRemote (remote branch : string) (tree : TreeReference).
Module Upstream.
Definition branch (self : Upstream) : string :=
  match self with UpstreamLocal branch _ => branch | UpstreamRemote _ branch _ => branch end.
Definition tree (self : Upstream) : TreeReference :=
  match self with UpstreamLocal _ tree => tree | UpstreamRemote _ _ tree => tree end.
Definition with_tree (self : Upstream) (tree : TreeReference) : Upstream :=
  match self with
  | UpstreamLocal branch _ => UpstreamLocal branch tree
  | UpstreamRemote remote branch _ => UpstreamRemote remote branch tree
  end.
End Upstream.

(** * What the cells of a repository hold *)

(** [RemoteAddress]: how to connect to a site, and which repository there. *)
Record RemoteAddress (Site : Type) := mkAddress { site_address : Site; address_subject : Did }.
Arguments mkAddress {Site} site_address address_subject.
Arguments site_address {Site} r.
Arguments address_subject {Site} r.

Inductive cached (Site : Type) :=
  | CachedRevision (r : Revision)
  | CachedUpstream (u : Upstream)
  | CachedEdition (e : Edition Revision)
  | CachedAddress (a : RemoteAddress Site).
Arguments CachedRevision {Site} r.
Arguments CachedUpstream {Site} u.
Arguments CachedEdition {Site} e.
Arguments CachedAddress {Site} a.

Section cached.
Context {Site : Type}.
#[export] Instance cached_revision : Cached (cached Site) Revision := {|
  inject := CachedRevision; project v := match v with CachedRevision r => Some r | _ => None end;
  project_inject := fun _ => eq_refl |}.
#[export] Instance cached_upstream : Cached (cached Site) Upstream := {|
  inject := CachedUpstream; project v := match v with CachedUpstream u => Some u | _ => None end;
  project_inject := fun _ => eq_refl |}.
#[export] Instance cached_edition : Cached (cached Site) (Edition Revision) := {|
  inject := CachedEdition; project v := match v with CachedEdition e => Some e | _ => None end;
  project_inject := fun _ => eq_refl |}.
#[export] Instance cached_address : Cached (cached Site) (RemoteAddress Site) := {|
  inject := CachedAddress; project v := match v with CachedAddress a => Some a | _ => None end;
  project_inject := fun _ => eq_refl |}.
End cached.

(** The encoding of what the cells hold. *)
Class Codecs (Site : Type) := {
  revision_codec :: CellCodec Revision;
  upstream_codec :: CellCodec Upstream;
  edition_codec :: CellCodec (Edition Revision);
  address_codec :: CellCodec (RemoteAddress Site)
}.
Class CodecsLaws (Site : Type) `{!Codecs Site} := {
  revision_codec_laws :: CellCodecLaws Revision;
  upstream_codec_laws :: CellCodecLaws Upstream;
  edition_codec_laws :: CellCodecLaws (Edition Revision);
  address_codec_laws :: CellCodecLaws (RemoteAddress Site)
}.

(** Effects forked to a site. *)
Class ForkProvider (Site N : Type) := {
  fork_memory : Site -> MemoryProvider N;
  fork_archive : Site -> ArchiveProvider N
}.

(** * References *)

(** [BranchReference] and [RemoteReference]: a space of the memory of a subject. *)
Record BranchReference := mkBranchReference { branch_of : Did; branch_space : string }.
Record RemoteReference := mkRemoteReference { remote_of : Did; remote_space : string }.

(** [str::strip_prefix] *)
Fixpoint strip_prefix (p s : string) : option string :=
  match p, s with
  | EmptyString, s => Some s
  | String a p, String b s => if decide (a = b) then strip_prefix p s else None
  | String _ _, EmptyString => None
  end.
Lemma strip_prefix_app p s : strip_prefix p (p +:+ s) = Some s.
Proof. induction p as [|a p IH]; [done|]. simpl. by rewrite decide_True. Qed.

(** [RepositoryMemoryExt::branch] and [remote]. *)
Definition subject_branch (subj : Did) (name : string) : BranchReference :=
  mkBranchReference subj ("branch/" +:+ name).
Definition subject_remote (subj : Did) (name : string) : RemoteReference :=
  mkRemoteReference subj ("remote/" +:+ name).

Module BranchReference.
Definition name (self : BranchReference) : string := default EmptyString (strip_prefix "branch/" (branch_space self)).
Definition cell (self : BranchReference) (name : string) : CellKey :=
  mkCellKey (branch_of self) (branch_space self) name.
Definition revision (self : BranchReference) : CellKey := cell self "revision".
Definition upstream (self : BranchReference) : CellKey := cell self "upstream".
End BranchReference.

Module RemoteReference.
Definition name (self : RemoteReference) : string := default EmptyString (strip_prefix "remote/" (remote_space self)).
Definition cell (self : RemoteReference) (name : string) : CellKey :=
  mkCellKey (remote_of self) (remote_space self) name.
Definition address (self : RemoteReference) : CellKey := cell self "address".
End RemoteReference.

Lemma branch_name subj name : BranchReference.name (subject_branch subj name) = name.
Proof. unfold BranchReference.name. cbn [branch_space subject_branch]. by rewrite strip_prefix_app. Qed.
Lemma remote_name subj name : RemoteReference.name (subject_remote subj name) = name.
Proof. unfold RemoteReference.name. cbn [remote_space subject_remote]. by rewrite strip_prefix_app. Qed.

(** [From] conversions of errors along [?]. *)
Definition or_err {S E F A} (f : E -> F) (m : stateful S E A) : stateful S F A := fun s =>
  let '(s, o) := m s in (s, map_err f o).

(** * Branches *)
Record Branch := mkBranch { reference : BranchReference; revision : Cell Revision; upstream : Cell Upstream }.

Inductive LoadBranchError := BranchNotFound (name : string) | LoadBranchResolve (e : ResolveError).
Inductive SetUpstreamError := UpstreamIsItself (branch : string) | SetUpstreamPublish (e : PublishError).

Section branches.
Context {L N Site : Type} `{!Codecs Site, !MemoryProvider L}.
Local Abbreviation world := (World L N (cached Site)).
Implicit Types (self : Branch) (r : BranchReference).

(** [OpenBranch::perform] *)
Definition branch_open r : stateful world ResolveError Branch :=
  revision ← new_cell (BranchReference.revision r);
  _ ← cell_resolve revision;
  upstream ← new_cell (BranchReference.upstream r);
  _ ← cell_resolve upstream;
  mret (mkBranch r revision upstream).

(** [Branch::revision], [upstream]: what the handle has cached. *)
Definition branch_revision self (w : world) : option Revision := cell_content (revision self) w.
Definition branch_upstream self (w : world) : option Upstream := cell_content (upstream self) w.

(** [LoadBranch::perform] *)
Definition branch_load r : stateful world LoadBranchError Branch :=
  branch ← or_err LoadBranchResolve (branch_open r);
  revision ← asks (branch_revision branch);
  match revision with
  | None => lift_outcome (Err (BranchNotFound (BranchReference.name (reference branch))))
  | Some _ => mret branch
  end.

(** [Branch::refresh] *)
Definition branch_refresh self : stateful world ResolveError unit :=
  _ ← cell_resolve (revision self); cell_resolve (upstream self).

(** [Reset::perform] *)
Definition branch_reset self (r : Revision) : stateful world PublishError unit := cell_publish (revision self) r.

(** [SetUpstream::perform] *)
Definition set_upstream self (u : Upstream) : stateful world SetUpstreamError unit :=
  match u with
  | UpstreamLocal branch _ =>
      if decide (branch = BranchReference.name (reference self))
      then lift_outcome (Err (UpstreamIsItself (BranchReference.name (reference self))))
      else or_err SetUpstreamPublish (cell_publish (upstream self) u)
  | UpstreamRemote _ _ _ => or_err SetUpstreamPublish (cell_publish (upstream self) u)
  end.
(** [Upstream::from(&Branch)] *)
Definition upstream_of_branch self : Upstream :=
  UpstreamLocal (BranchReference.name (reference self)) default_tree.
End branches.

(** * Remotes *)
Record RemoteRepository (Site : Type) := mkRemoteRepository {
  site : RemoteReference;
  address : Retain (RemoteAddress Site)
}.
Arguments mkRemoteRepository {Site} site address.
Arguments site {Site} r.
Arguments address {Site} r.

(** [RemoteBranch]: the snapshot cache lives in the local repository, the
    upstream cell at the subject of the remote. *)
Record RemoteBranch (Site : Type) := mkRemoteBranch {
  repository : RemoteRepository Site;
  remote_branch : BranchReference;
  snapshot : Cell (Edition Revision);
  remote_upstream : Cell Revision
}.
Arguments mkRemoteBranch {Site} repository remote_branch snapshot remote_upstream.
Arguments repository {Site} r.
Arguments remote_branch {Site} r.
Arguments snapshot {Site} r.
Arguments remote_upstream {Site} r.

Inductive LoadRemoteError := RemoteNotFound (name : string) | LoadRemoteResolve (e : ResolveError).
Inductive CreateRemoteError :=
  | RemoteAlreadyExists (name : string)
  | CreateRemoteResolve (e : ResolveError)
  | CreateRemotePublish (e : PublishError).
Inductive OpenRemoteBranchError := OpenRemoteBranchResolve (e : ResolveError).
Inductive LoadRemoteBranchError := RemoteBranchNotFound (name : string) | LoadRemoteBranchOpen (e : OpenRemoteBranchError).
Inductive FetchRemoteBranchError := FetchRemoteResolve (e : ResolveError) | FetchRemotePublish (e : PublishError).
Inductive PublishRemoteBranchError := PublishRemotePublish (e : PublishError) | MissingEdition.

Section remotes.
Context {L N Site : Type} `{!Codecs Site, !MemoryProvider L, !ForkProvider Site N}.
Local Abbreviation world := (World L N (cached Site)).
Implicit Types (self : RemoteBranch Site) (repo : RemoteRepository Site) (r : RemoteReference).

(** A cell whose effects are forked to a site. *)
Definition fork_resolve {T} `{!Cached (cached Site) T, !CellCodec T} (a : Site) (c : Cell T)
    : stateful world ResolveError unit :=
  let _ := fork_memory a in cell_resolve (S := N) c.
Definition fork_publish {T} `{!Cached (cached Site) T, !CellCodec T} (a : Site) (c : Cell T) (x : T)
    : stateful world PublishError unit :=
  let _ := fork_memory a in cell_publish (S := N) c x.

(** [CreateRemote::perform], for an address given whole. *)
Definition remote_create r (a : RemoteAddress Site) : stateful world CreateRemoteError (RemoteRepository Site) :=
  cell ← new_cell (RemoteReference.address r);
  _ ← or_err CreateRemoteResolve (cell_resolve (S := L) cell);
  present ← asks (cell_content cell);
  match present with
  | Some _ => lift_outcome (Err (RemoteAlreadyExists (RemoteReference.name r)))
  | None =>
      _ ← or_err CreateRemotePublish (cell_publish (S := L) cell a);
      address ← retain cell a;
      mret (mkRemoteRepository r address)
  end.

(** [LoadRemote::perform] *)
Definition remote_load r : stateful world LoadRemoteError (RemoteRepository Site) :=
  cell ← new_cell (RemoteReference.address r);
  _ ← or_err LoadRemoteResolve (cell_resolve (S := L) cell);
  present ← asks (cell_content cell);
  match present with
  | Some a => address ← retain cell a; mret (mkRemoteRepository r address)
  | None => lift_outcome (Err (RemoteNotFound (RemoteReference.name r)))
  end.

(** [RemoteRepository::address] and [did]. *)
Definition repository_address {E} repo : stateful world E (RemoteAddress Site) := retain_get (address repo).
Definition repository_did {E} repo : stateful world E Did := a ← repository_address repo; mret (address_subject a).
(** [RemoteRepository::branch] *)
Definition repository_branch {E} repo (name : string) : stateful world E BranchReference :=
  did ← repository_did repo; mret (subject_branch did name).

(** [RemoteBranchReference::cache] *)
Definition snapshot_key repo (name : string) : CellKey :=
  RemoteReference.cell (site repo) ("branch/" +:+ name +:+ "/revision").

(** [OpenRemoteBranch::perform] *)
Definition remote_branch_open repo (branch : BranchReference)
    : stateful world OpenRemoteBranchError (RemoteBranch Site) :=
  reference ← repository_branch repo (BranchReference.name branch);
  cache ← new_cell (snapshot_key repo (BranchReference.name reference));
  _ ← or_err OpenRemoteBranchResolve (cell_resolve (S := L) cache);
  upstream ← new_cell (BranchReference.revision reference);
  known ← asks (cell_content cache);
  _ ← match known with Some edition => cache_update upstream edition | None => mret tt end;
  mret (mkRemoteBranch repo branch cache upstream).

(** [RemoteBranch::revision] *)
Definition remote_revision self (w : world) : option Revision := content <$> cell_content (snapshot self) w.

(** [LoadRemoteBranch::perform] *)
Definition remote_branch_load repo (branch : BranchReference)
    : stateful world LoadRemoteBranchError (RemoteBranch Site) :=
  branch ← or_err LoadRemoteBranchOpen (remote_branch_open repo branch);
  revision ← asks (remote_revision branch);
  match revision with
  | None => lift_outcome (Err (RemoteBranchNotFound (BranchReference.name (remote_branch branch))))
  | Some _ => mret branch
  end.

(** [FetchRemoteBranch::perform] *)
Definition remote_branch_fetch self : stateful world FetchRemoteBranchError (option Revision) :=
  address ← repository_address (repository self);
  _ ← or_err FetchRemoteResolve (fork_resolve (site_address address) (remote_upstream self));
  edition ← asks (cell_edition (remote_upstream self));
  match edition with
  | None => mret None
  | Some edition =>
      _ ← or_err FetchRemotePublish (cell_publish (S := L) (snapshot self) edition);
      mret (Some (content edition))
  end.

(** [PublishRemoteBranch::perform] *)
Definition remote_branch_publish self (r : Revision) : stateful world PublishRemoteBranchError unit :=
  address ← repository_address (repository self);
  _ ← or_err PublishRemotePublish (fork_publish (site_address address) (remote_upstream self) r);
  edition ← asks (cell_edition (remote_upstream self));
  match edition with
  | None => lift_outcome (Err MissingEdition)
  | Some edition => or_err PublishRemotePublish (cell_publish (S := L) (snapshot self) edition)
  end.

(** [Upstream::from(&RemoteBranch)] *)
Definition upstream_of_remote self : Upstream :=
  UpstreamRemote (RemoteReference.name (site (repository self))) (BranchReference.name (remote_branch self)) default_tree.
End remotes.

(** * Fetching the upstream of a branch *)
Inductive FetchError :=
  | FetchNoUpstream (branch : string)
  | FetchLoadBranch (e : LoadBranchError)
  | FetchLoadRemote (e : LoadRemoteError)
  | FetchOpenRemoteBranch (e : OpenRemoteBranchError)
  | FetchFetchRemoteBranch (e : FetchRemoteBranchError).

Section fetching.
Context {L N Site : Type} `{!Codecs Site, !MemoryProvider L, !ForkProvider Site N}.
Local Abbreviation world := (World L N (cached Site)).

(** [Fetch::perform] *)
Definition branch_fetch (self : Branch) : stateful world FetchError (option Revision) :=
  upstream ← asks (branch_upstream self);
  let subject := branch_of (reference self) in
  match upstream with
  | None => lift_outcome (Err (FetchNoUpstream (BranchReference.name (reference self))))
  | Some (UpstreamLocal name _) =>
      upstream ← or_err FetchLoadBranch (branch_load (subject_branch subject name));
      asks (branch_revision upstream)
  | Some (UpstreamRemote name branch_name _) =>
      remote_repo ← or_err FetchLoadRemote (remote_load (subject_remote subject name));
      reference ← repository_branch remote_repo branch_name;
      remote_branch ← or_err FetchOpenRemoteBranch (remote_branch_open remote_repo reference);
      or_err FetchFetchRemoteBranch (remote_branch_fetch remote_branch)
  end.
End fetching.
