(* ===== verification/BlobIndex.v ===== *)
(** The blob index (rust/dialog-artifacts/src: blob_index.rs, key/blob.rs): the
    sizes of referenced blobs, kept in the artifact tree under keys of their own
    tag, and the blobs that two versions of the tree differ in. *)
From S2P Require Import Prelude Common Nodes TransientTree SortedEntries Integrate Differential DifferentialCorrect Geometric Artifact ArtifactKeys ArtifactFacts.
Local Abbreviation result := (outcome DialogArtifactsError).
Local Abbreviation tree_entry := (Entry KeyBytes State).

(** * Keys *)
Definition BLOB_KEY_TAG : byte := x04.
Definition BLOB_HASH_LENGTH : nat := 32.
Definition BLOB_HASH_OFFSET : nat := TAG_LENGTH.

Module BlobKey.
Definition new (hash : Blake3Hash) : KeyBytes :=
  make_key (copy_at BLOB_HASH_OFFSET (as_bytes hash) (key_raw (set_tag MINIMUM_KEY BLOB_KEY_TAG))).
Definition min : KeyBytes := set_tag MINIMUM_KEY BLOB_KEY_TAG.
Definition max : KeyBytes := set_tag MAXIMUM_KEY BLOB_KEY_TAG.
Definition blob_hash (k : KeyBytes) : Blake3Hash :=
  mkBlake3Hash (slice_at BLOB_HASH_OFFSET BLOB_HASH_LENGTH (key_raw k)).
End BlobKey.

(** * Records *)
Definition BLOB_RECORD_VERSION : byte := x01.
Definition BLOB_RECORD_V1_LEN : nat := 1 + 8.

(** [u64::to_be_bytes] and [from_be_bytes]. *)
Definition to_be_bytes (n : N) : bytes := rev (to_le_bytes 8 n).
Definition from_be_bytes (b : bytes) : N := from_le_bytes (rev b).

Module BlobRecord.
Record t := mkBlobRecord { version : byte; size : N }.
Definition new (size : N) : t := mkBlobRecord BLOB_RECORD_VERSION size.
Definition into_state (self : t) : State :=
  Added (mkDatum [] [] x00 (version self :: to_be_bytes (size self)) None).
Definition from_state (state : State) : result (option t) :=
  match state with
  | Removed => Ok None
  | Added datum =>
      let b := datum_value datum in
      match head b with
      | Some version =>
          if decide (version = BLOB_RECORD_VERSION /\ length b = BLOB_RECORD_V1_LEN)
          then Ok (Some (mkBlobRecord BLOB_RECORD_VERSION (from_be_bytes (tail b))))
          else Err (MalformedIndex "unsupported blob record version")
      | None => Err (MalformedIndex "empty blob record")
      end
  end.
End BlobRecord.

(** * The blobs two trees differ in *)
Inductive BlobChange := BlobAdded (hash : Blake3Hash) | BlobRemoved (hash : Blake3Hash).
#[export] Instance BlobChange_eq_dec : EqDecision BlobChange.
Proof. solve_decision. Defined.

(** One change of the differential: what it says of the blob index, if anything. *)
Definition blob_change (change : Change KeyBytes State) : result (option BlobChange) :=
  let '(entry, removed) := match change with Add entry => (entry, false) | Remove entry => (entry, true) end in
  if decide (tag (key entry) <> BLOB_KEY_TAG) then Ok None
  else
    let hash := BlobKey.blob_hash (key entry) in
    record ← BlobRecord.from_state (value entry);
    match removed, record with
    | false, Some _ => Ok (Some (BlobAdded hash))
    | true, _ => Ok (Some (BlobRemoved hash))
    | false, None => Ok None
    end.
(** [blob_changes], on the stream of changes; it ends with its first error. *)
Fixpoint blob_changes (changes : list (tree_result (Change KeyBytes State))) : list (result BlobChange) :=
  match changes with
  | [] => []
  | change :: changes =>
      match change ← map_err Tree change; blob_change change with
      | Ok (Some c) => Ok c :: blob_changes changes
      | Ok None => blob_changes changes
      | Err e => [Err e]
      | Panic m => [Panic m]
      | OutOfFuel => [OutOfFuel]
      end
  end.

(** * Operations on a tree *)
Section operations.
Context (tree_get : KeyBytes -> tree_result (option State)).
(** [get_blob] and [has_blob]. *)
Definition get_blob (hash : Blake3Hash) : result (option BlobRecord.t) :=
  state ← map_err Tree (tree_get (BlobKey.new hash));
  match state with Some state => BlobRecord.from_state state | None => Ok None end.
Definition has_blob (hash : Blake3Hash) : result bool :=
  record ← get_blob hash; Ok (bool_decide (is_Some record)).
(** [list_blobs], on the entries of the blob range. *)
Fixpoint list_blobs (entries : list tree_entry) : list (result (Blake3Hash * BlobRecord.t)) :=
  match entries with
  | [] => []
  | entry :: entries =>
      match BlobRecord.from_state (value entry) with
      | Ok (Some record) => Ok (BlobKey.blob_hash (key entry), record) :: list_blobs entries
      | Ok None => list_blobs entries
      | Err e => [Err e]
      | Panic m => [Panic m]
      | OutOfFuel => [OutOfFuel]
      end
  end.
End operations.

(** * Properties *)
Lemma length_to_be_bytes n : length (to_be_bytes n) = 8%nat.
Proof. unfold to_be_bytes. by rewrite length_rev, length_to_le_bytes. Qed.
Lemma from_to_be_bytes n : (n < 2 ^ 64)%N -> from_be_bytes (to_be_bytes n) = n.
Proof. intros Hn. unfold from_be_bytes, to_be_bytes. rewrite rev_involutive. by apply from_to_le_bytes. Qed.

(** A record of any 64-bit size is read back from the tree. *)
Lemma record_roundtrip n : (n < 2 ^ 64)%N ->
  BlobRecord.from_state (BlobRecord.into_state (BlobRecord.new n)) = Ok (Some (BlobRecord.new n)).
Proof.
  intros Hn. unfold BlobRecord.from_state, BlobRecord.into_state. cbn [datum_value BlobRecord.version BlobRecord.new head].
  rewrite decide_True by (split; [done|]; cbn [length BlobRecord.size]; by rewrite length_to_be_bytes).
  cbn [tail BlobRecord.size]. by rewrite from_to_be_bytes.
Qed.

Lemma blob_key_raw hash : length (as_bytes hash) = BLOB_HASH_LENGTH ->
  key_raw (BlobKey.new hash)
  = BLOB_KEY_TAG :: as_bytes hash ++ replicate (KEY_LENGTH - 1 - BLOB_HASH_LENGTH) x00.
Proof.
  intros Hl. unfold BlobKey.new.
  assert (key_raw (set_tag MINIMUM_KEY BLOB_KEY_TAG) = BLOB_KEY_TAG :: replicate (KEY_LENGTH - 1) x00) as -> by reflexivity.
  assert (copy_at BLOB_HASH_OFFSET (as_bytes hash) (BLOB_KEY_TAG :: replicate (KEY_LENGTH - 1) x00)
    = BLOB_KEY_TAG :: as_bytes hash ++ replicate (KEY_LENGTH - 1 - BLOB_HASH_LENGTH) x00) as ->.
  { unfold copy_at. rewrite Hl. change (BLOB_HASH_OFFSET) with 1%nat. cbn [take app drop].
    reflexivity. }
  apply make_key_raw. cbn [length]. rewrite length_app, length_replicate, Hl. done.
Qed.
(** A blob key carries the tag and the hash of its blob. *)
Lemma blob_key_spec hash : length (as_bytes hash) = BLOB_HASH_LENGTH ->
  tag (BlobKey.new hash) = BLOB_KEY_TAG /\ BlobKey.blob_hash (BlobKey.new hash) = hash.
Proof.
  intros Hl. unfold tag, BlobKey.blob_hash. rewrite blob_key_raw by done. split; [done|].
  unfold slice_at. change BLOB_HASH_OFFSET with 1%nat.
  rewrite skipn_cons, skipn_O, (take_app_length' (as_bytes hash)) by done. by destruct hash.
Qed.

(** ** The changes name what was added and removed *)

(** The entry of the blob index for [hash]. *)
Definition blob_entry (hash : Blake3Hash) (size : N) : tree_entry :=
  mkEntry (BlobKey.new hash) (BlobRecord.into_state (BlobRecord.new size)).
(** What is under the blob tag are entries of the index. *)
Definition blob_indexed (es : list tree_entry) : Prop :=
  forall e, e ∈ es -> tag (key e) = BLOB_KEY_TAG ->
    exists hash n, length (as_bytes hash) = BLOB_HASH_LENGTH /\ (n < 2 ^ 64)%N /\ e = blob_entry hash n.
Definition references (es : list tree_entry) (hash : Blake3Hash) : Prop :=
  exists n, (n < 2 ^ 64)%N /\ blob_entry hash n ∈ es.

Lemma blob_change_entry hash n :
  length (as_bytes hash) = BLOB_HASH_LENGTH -> (n < 2 ^ 64)%N ->
  blob_change (Add (blob_entry hash n)) = Ok (Some (BlobAdded hash)) /\
  blob_change (Remove (blob_entry hash n)) = Ok (Some (BlobRemoved hash)).
Proof.
  intros Hl Hn. destruct (blob_key_spec hash Hl) as [Ht Hh]. unfold blob_change, blob_entry. cbn [key value].
  rewrite decide_False by (rewrite Ht; tauto). rewrite record_roundtrip by done. cbn [mbind outcome_bind]. by rewrite Hh.
Qed.

Lemma blob_changes_elem changes :
  (forall c, c ∈ changes -> exists o, blob_change c = Ok o) ->
  exists bs, blob_changes (Ok <$> changes) = Ok <$> bs /\
    forall b, b ∈ bs <-> exists c, c ∈ changes /\ blob_change c = Ok (Some b).
Proof.
  induction changes as [|c changes IH]; intros Hok.
  { exists []. split; [done|]. set_solver. }
  destruct IH as (bs & E & Hbs); [intros; apply Hok; by right|].
  destruct (Hok c) as [o Ho]; [by left|]. csimpl. cbn [blob_changes map_err mbind outcome_bind]. rewrite Ho.
  assert (forall b', (exists c', c' ∈ c :: changes /\ blob_change c' = Ok (Some b')) <->
    o = Some b' \/ b' ∈ bs) as Hin.
  { intros b'. rewrite Hbs. split.
    - intros (c' & [->|Hc]%elem_of_cons & Hc'); [left; congruence|eauto].
    - intros [->|(c' & Hc & Hc')]; [exists c; split; [by left|done]|exists c'; split; [by right|done]]. }
  destruct o as [b|]; rewrite E; [exists (b :: bs)|exists bs]; (split; [done|]); intros b'; rewrite Hin.
  - rewrite elem_of_cons. naive_solver.
  - naive_solver.
Qed.

Lemma diff_blob_change S T c :
  sorted S -> sorted T -> blob_indexed S -> blob_indexed T -> c ∈ diff_entries S T ->
  (exists e, (c = Remove e /\ e ∈ S /\ e ∉ T \/ c = Add e /\ e ∈ T /\ e ∉ S) /\
   (tag (key e) <> BLOB_KEY_TAG /\ blob_change c = Ok None \/
    exists hash n, length (as_bytes hash) = BLOB_HASH_LENGTH /\ (n < 2 ^ 64)%N /\ e = blob_entry hash n /\
      blob_change c = Ok (Some (match c with Add _ => BlobAdded hash | Remove _ => BlobRemoved hash end)))).
Proof.
  intros HS HT BS BT Hc.
  assert (exists e, (c = Remove e /\ e ∈ S /\ e ∉ T) \/ (c = Add e /\ e ∈ T /\ e ∉ S)) as (e & He).
  { destruct c as [e|e]; exists e; destruct (diff_entries_elem S T HS HT e) as [HR HA]; [right|left]; naive_solver. }
  exists e. split; [done|]. destruct (decide (tag (key e) = BLOB_KEY_TAG)) as [Ht|Ht].
  - right. destruct He as [(-> & Hin & _)|(-> & Hin & _)]; [destruct (BS e Hin Ht) as (h & n & Hl & Hn & ->)|destruct (BT e Hin Ht) as (h & n & Hl & Hn & ->)];
      exists h, n; split_and!; try done; by apply (blob_change_entry h n).
  - left. split; [done|]. unfold blob_change. destruct He as [(-> & _)|(-> & _)]; by rewrite decide_True.
Qed.

(** The blob changes between two trees end without an error and name exactly
    what a push has to ship: a blob is added when its entry in the target is
    not in the source, and removed when its entry in the source is not in the
    target; so every blob the target references and the source does not is
    among the added ones, whatever facts the trees hold besides. *)
Theorem blob_changes_exact S T :
  sorted S -> sorted T -> blob_indexed S -> blob_indexed T ->
  exists bs, blob_changes (Ok <$> diff_entries S T) = Ok <$> bs /\
    (forall h, length (as_bytes h) = BLOB_HASH_LENGTH ->
      (BlobAdded h ∈ bs <-> exists n, (n < 2 ^ 64)%N /\ blob_entry h n ∈ T /\ blob_entry h n ∉ S) /\
      (BlobRemoved h ∈ bs <-> exists n, (n < 2 ^ 64)%N /\ blob_entry h n ∈ S /\ blob_entry h n ∉ T)) /\
    (forall h, length (as_bytes h) = BLOB_HASH_LENGTH -> references T h -> ~ references S h -> BlobAdded h ∈ bs).
Proof.
  intros HS HT BS BT.
  destruct (blob_changes_elem (diff_entries S T)) as (bs & E & Hbs).
  { intros c Hc. destruct (diff_blob_change S T c HS HT BS BT Hc) as (e & _ & [[_ ->]|(h & n & _ & _ & _ & ->)]); eauto. }
  assert (forall h, length (as_bytes h) = BLOB_HASH_LENGTH ->
      (BlobAdded h ∈ bs <-> exists n, (n < 2 ^ 64)%N /\ blob_entry h n ∈ T /\ blob_entry h n ∉ S) /\
      (BlobRemoved h ∈ bs <-> exists n, (n < 2 ^ 64)%N /\ blob_entry h n ∈ S /\ blob_entry h n ∉ T)) as Hexact.
  { intros h Hl. rewrite !Hbs. split; split.
    - intros (c & Hc & Ec). destruct (diff_blob_change S T c HS HT BS BT Hc) as (e & He & [[_ E']|(h' & n & _ & Hn & -> & E')]);
        rewrite E' in Ec; [done|]. destruct He as [(-> & _)|(-> & ? & ?)]; simplify_eq. eauto.
    - intros (n & Hn & HinT & HnS). exists (Add (blob_entry h n)).
      split; [by apply (diff_entries_elem S T HS HT)|]. by apply (blob_change_entry h n).
    - intros (c & Hc & Ec). destruct (diff_blob_change S T c HS HT BS BT Hc) as (e & He & [[_ E']|(h' & n & _ & Hn & -> & E')]);
        rewrite E' in Ec; [done|]. destruct He as [(-> & ? & ?)|(-> & _)]; simplify_eq. eauto.
    - intros (n & Hn & HinS & HnT). exists (Remove (blob_entry h n)).
      split; [by apply (diff_entries_elem S T HS HT)|]. by apply (blob_change_entry h n). }
  exists bs. split_and!; [done|done|]. intros h Hl (n & Hn & Hin) Hno. apply (Hexact h Hl).
  exists n. split_and!; [done|done|]. intros HinS. apply Hno. by exists n.
Qed.
