(* ===== verification/Sync.v ===== *)
(** The archive of a repository as the storage of its trees
    (rust/dialog-repository/src/repository/archive/{local,networked}.rs,
    remote/archive.rs; PersistentTree::differentiate of
    rust/dialog-search-tree/src/tree.rs), and the operations of a branch on it:
    commit, pull and push (branch/{commit,pull,push}.rs). *)
From S2P Require Import Prelude Common Nodes Walker TransientTree Differential Providers Cells Revisions.

(** The catalog of tree nodes. *)
Definition INDEX : string := "index".

(** [Display for ArchiveError] and the conversion into [DialogStorageError]. *)
Definition archive_message (e : ArchiveError) : string :=
  match e with
  | ArchiveDigestMismatch expected actual =>
      "Content digest mismatch: expected " +:+ expected +:+ ", got " +:+ actual
  | ArchiveAuthorization message => "Unauthorized error: " +:+ message
  | ArchiveExecution message => "Executions error: " +:+ message
  | ArchiveStorage message => "Storage error: " +:+ message
  | ArchiveIo message => "IO error: " +:+ message
  end.
Definition archive_error (e : ArchiveError) : DialogStorageError := StorageBackendError (archive_message e).

(** Running an operation for its outcome, errors included. *)
Definition attempt {S E F A} (m : stateful S E A) : stateful S F (outcome E A) := fun s =>
  let '(s, o) := m s in (s, Ok o).

Section index.
Context {L N Site : Type} `{!Codecs Site, !MemoryProvider L, !ArchiveProvider L, !ForkProvider Site N, Blake3}.
Local Abbreviation world := (World L N (cached Site)).

(** [LocalIndex]. *)
Definition local_get (subj : Did) (h : Blake3Hash) : stateful world DialogStorageError (option bytes) :=
  perform (S := L) archive_error (archive_get subj INDEX h).
Definition local_set (subj : Did) (b : bytes) : stateful world DialogStorageError unit :=
  perform (S := L) archive_error (archive_put subj INDEX b).

(** [NetworkedIndex]: a local miss is fetched from the remote and cached; a
    failure to cache is ignored. *)
Definition networked_get (subj : Did) (remote : option (RemoteRepository Site)) (h : Blake3Hash)
    : stateful world DialogStorageError (option bytes) :=
  found ← local_get subj h;
  match found, remote with
  | Some b, _ => mret (Some b)
  | None, None => mret None
  | None, Some remote =>
      address ← repository_address remote;
      let _ := fork_archive (site_address address) in
      remote_result ← perform (S := N) archive_error (archive_get (address_subject address) INDEX h);
      match remote_result with
      | Some b => _ ← attempt (F := DialogStorageError) (local_set subj b); mret (Some b)
      | None => mret None
      end
  end.

(** [ContentAddressedStorage::retrieve] and the node access over it, at a state
    of the world. *)
Definition verified (h : Blake3Hash) (found : outcome DialogStorageError (option bytes)) : tree_result PersistentNode :=
  match found with
  | Ok (Some b) =>
      if matches h b then Ok (mkPersistentNode b)
      else Err (StorageError (Verification "Retrieved bytes did not match the provided hash"))
  | Ok None => Err (NodeError "Blob not found in storage")
  | Err e => Err (StorageError e)
  | Panic m => Panic m
  | OutOfFuel => OutOfFuel
  end.
Definition local_accessor (subj : Did) (w : world) : Accessor := fun h => verified h (local_get subj h w).2.
Definition networked_accessor (subj : Did) (remote : option (RemoteRepository Site)) (w : world) : Accessor :=
  fun h => verified h (networked_get subj remote h w).2.

(** The blocks the lazy hydration of a tree asked for: each is read (and, if it
    is only on the remote, cached). *)
Fixpoint hydrate (subj : Did) (remote : option (RemoteRepository Site)) (reads : list Blake3Hash)
    : stateful world DialogStorageError unit :=
  match reads with
  | [] => mret tt
  | h :: reads => _ ← networked_get subj remote h; hydrate subj remote reads
  end.

(** [archive().index().import(delta.flush())]. *)
Definition import_delta (subj : Did) (delta : Delta.t) : stateful world ArchiveError unit :=
  perform (S := L) id (archive_import subj INDEX (Delta.flush delta).1.*2).

(** [RemoteGet] and [RemotePut]. *)
Definition remote_get (remote : RemoteRepository Site) (h : Blake3Hash) : stateful world ArchiveError (option bytes) :=
  address ← repository_address remote;
  let _ := fork_archive (site_address address) in
  perform (S := N) id (archive_get (address_subject address) INDEX h).
Definition remote_put (remote : RemoteRepository Site) (b : bytes) : stateful world ArchiveError unit :=
  address ← repository_address remote;
  let _ := fork_archive (site_address address) in
  perform (S := N) id (archive_put (address_subject address) INDEX b).
End index.

Inductive UploadError := UploadTree (e : DialogSearchTreeError) | UploadRemoteWrite (e : ArchiveError).

Section upload.
Context {L N Site : Type} `{!Codecs Site, !ForkProvider Site N, Blake3}.
Local Abbreviation world := (World L N (cached Site)).

(** [Upload::perform].  The writes of up to [UPLOAD_CONCURRENCY] nodes overlap;
    each is of its own block, so their order does not matter. *)
Fixpoint upload (remote : RemoteRepository Site) (novel : list (tree_result PersistentNode))
    : stateful world UploadError unit :=
  match novel with
  | [] => mret tt
  | node :: novel =>
      node ← lift_outcome (map_err UploadTree node);
      _ ← or_err UploadRemoteWrite (remote_put remote (buffer node));
      upload remote novel
  end.
End upload.

(** [PersistentTree::differentiate]. *)
Definition differentiate {K V} `{Key K, NodeCodec K V, Blake3, EqDecision V} (acc : Accessor) (fuel : nat)
    (self other : Blake3Hash) : list (tree_result (Change K V)) :=
  match compute (K := K) (V := V) acc acc fuel self other with
  | Ok difference => changes acc acc fuel difference
  | r => item_error r
  end.

(** * Commit, pull and push

    Committing, pulling and pushing
    (rust/dialog-repository/src/repository/branch/{commit,pull,push}.rs). *)
From S2P Require Import ArtifactTree Geometric Artifact ArtifactKeys BlobIndex.

(** [Identify]: the operator and the profile the environment acts for, or why
    there is none. *)
Class Identity := { identify : outcome string (Did * Did) }.

(** * Commit *)
Inductive CommitError :=
  | CommitArtifact (e : DialogArtifactsError)
  | CommitArchive (e : ArchiveError)
  | CommitAuthority (message : string)
  | CommitPublish (e : PublishError).

Section commit.
Context {L N Site : Type} `{!Codecs Site, !MemoryProvider L, !ArchiveProvider L, !ForkProvider Site N}.
Context `{Blake3, Url, !NodeCodec KeyBytes State, !Distribution, !Identity} (fuel : nat).
Local Abbreviation world := (World L N (cached Site)).
Local Abbreviation tree_root := (TransientRoot KeyBytes State).

(** [ArtifactTreeExt::apply]: one edit batch, then one persist into the delta. *)
Definition apply_changes (acc : Accessor) (instructions : list Instruction) (root : Blake3Hash)
    : outcome DialogArtifactsError (Blake3Hash * Delta.t) :=
  let _ := search_tree (K := KeyBytes) (V := State) acc fuel in
  edited ← apply_instructions (T := tree_root) instructions (Unloaded root);
  let '(delta, r) := persist_tree edited Delta.zero in
  root ← map_err Tree r; Ok (root, delta).

(** The remote a branch tracks, if it can be loaded, for the blocks that are not
    here; [commit] does the same. *)
Definition load_tracked {E} (subject : Did) (u : option Upstream) : stateful world E (option (RemoteRepository Site)) :=
  match u with
  | Some (UpstreamRemote name _ _) =>
      loaded ← attempt (remote_load (Site := Site) (subject_remote subject name));
      mret match loaded with Ok remote => Some remote | _ => None end
  | _ => mret None
  end.

(** [Commit::perform]; [reads] are the blocks the edit asked for. *)
Definition commit (self : Branch) (changes : list Instruction) (reads : list Blake3Hash)
    : stateful world CommitError Revision :=
  let subject := branch_of (reference self) in
  head ← asks (cell_checkpoint (revision self));
  base_revision ← asks (branch_revision self);
  tracking ← asks (branch_upstream self);
  remote ← match tracking with
           | Some (UpstreamRemote name _ _) =>
               loaded ← attempt (remote_load (Site := Site) (subject_remote subject name));
               mret match loaded with Ok remote => Some remote | _ => None end
           | _ => mret None
           end;
  let base_tree_hash := match base_revision with Some r => tree_hash (tree r) | None => EMPTY_TREE_HASH end in
  acc ← asks (networked_accessor subject remote);
  _ ← attempt (hydrate subject remote reads);
  '(root, delta) ← lift_outcome (map_err CommitArtifact (apply_changes acc changes base_tree_hash));
  _ ← or_err CommitArchive (import_delta subject delta);
  '(issuer, profile) ← lift_outcome (map_err CommitAuthority identify);
  let tree := mkTreeReference root in
  let next := match base_revision with
              | Some base => Revision.advance base tree issuer profile
              | None => Revision.new tree subject issuer profile
              end in
  _ ← or_err CommitPublish (checkpoint_publish (S := L) head next);
  mret next.
End commit.

(** * Pull *)
Inductive PullError :=
  | PullNoUpstream (branch : string)
  | PullLoadBranch (e : LoadBranchError)
  | PullLoadRemote (e : LoadRemoteError)
  | PullOpenRemoteBranch (e : OpenRemoteBranchError)
  | PullFetchRemoteBranch (e : FetchRemoteBranchError)
  | PullPublish (e : PublishError)
  | PullAuthority (message : string)
  | PullTree (e : DialogSearchTreeError)
  | PullArchive (e : ArchiveError).

(** [PreparedPull]. *)
Inductive PreparedPull :=
  | NoOp
  | Merged (branch : Branch) (head : Checkpoint Revision) (new_revision : Revision) (upstream_tree : TreeReference).

Section pull.
Context {L N Site K V : Type} `{!Codecs Site, !MemoryProvider L, !ArchiveProvider L, !ForkProvider Site N}.
Context `{Key K, NodeCodec K V, Blake3, !Distribution, EqDecision V, !Identity}.
Context (value_to_bytes : V -> option bytes) (fuel walk_fuel : nat).
Local Abbreviation world := (World L N (cached Site)).

(** The upstream's current revision, and the remote if it is one. *)
Definition resolve_upstream (self : Branch) (u : Upstream)
    : stateful world PullError (option Revision * option (RemoteRepository Site)) :=
  let subject := branch_of (reference self) in
  match u with
  | UpstreamLocal id _ =>
      upstream_branch ← or_err PullLoadBranch (branch_load (subject_branch subject id));
      r ← asks (branch_revision upstream_branch);
      mret (r, None)
  | UpstreamRemote name branch_name _ =>
      remote ← or_err PullLoadRemote (remote_load (subject_remote subject name));
      reference ← repository_branch remote branch_name;
      upstream ← or_err PullOpenRemoteBranch (remote_branch_open remote reference);
      r ← or_err PullFetchRemoteBranch (remote_branch_fetch upstream);
      mret (r, Some remote)
  end.

(** The merged tree: the changes from [base] to [local], on top of [upstream]. *)
Definition rebase (acc : Accessor) (base local upstream : Blake3Hash) : tree_result (Blake3Hash * Delta.t) :=
  let local_changes := differentiate (K := K) (V := V) acc walk_fuel base local in
  merged ← integrate acc value_to_bytes fuel (Unloaded upstream) local_changes;
  let '(delta, r) := persist_tree merged Delta.zero in
  root ← r; Ok (root, delta).

(** [Pull::prepare]; [reads] are the blocks the differential and the edit asked for. *)
Definition prepare (self : Branch) (reads : list Blake3Hash) : stateful world PullError PreparedPull :=
  let subject := branch_of (reference self) in
  u ← asks (branch_upstream self);
  match u with
  | None => lift_outcome (Err (PullNoUpstream (BranchReference.name (reference self))))
  | Some u =>
      '(upstream_revision, remote) ← resolve_upstream self u;
      match upstream_revision with
      | None => mret NoOp
      | Some upstream_revision =>
          marker ← asks (branch_upstream self);
          let base := match marker with Some u => Upstream.tree u | None => default_tree end in
          if decide (base = tree upstream_revision) then mret NoOp
          else
            head ← asks (cell_checkpoint (revision self));
            local_revision ← asks (branch_revision self);
            let local_tree_hash :=
              match local_revision with Some r => tree_hash (tree r) | None => EMPTY_TREE_HASH end in
            acc ← asks (networked_accessor subject remote);
            _ ← attempt (hydrate subject remote reads);
            '(root, delta) ← lift_outcome (map_err PullTree
              (rebase acc (tree_hash base) local_tree_hash (tree_hash (tree upstream_revision))));
            _ ← or_err PullArchive (import_delta subject delta);
            let merged_tree := mkTreeReference root in
            new_revision ←
              if decide (merged_tree = tree upstream_revision) then mret upstream_revision
              else match local_revision with
                   | None => mret upstream_revision
                   | Some local =>
                       '(issuer, profile) ← lift_outcome (map_err PullAuthority identify);
                       mret (Revision.merge local upstream_revision merged_tree issuer profile)
                   end;
            mret (Merged self head new_revision (tree upstream_revision))
      end
  end.

(** [PreparedPull::commit] (its [debug_assert!] is not in a release build). *)
Definition pull_commit (p : PreparedPull) : stateful world PullError (option Revision) :=
  match p with
  | NoOp => mret None
  | Merged branch head new_revision upstream_tree =>
      _ ← or_err PullPublish (checkpoint_publish (S := L) head new_revision);
      u ← asks (branch_upstream branch);
      match u with
      | None => mret (Some new_revision)
      | Some u =>
          marker ← asks (cell_checkpoint (upstream branch));
          publish ← attempt (checkpoint_publish (S := L) marker (Upstream.with_tree u upstream_tree));
          match publish with
          | Err (PublishVersionMismatch _ _) => asks (branch_revision branch)
          | publish => _ ← lift_outcome (map_err PullPublish publish); mret (Some new_revision)
          end
      end
  end.

(** [Pull::perform] *)
Definition pull (self : Branch) (reads : list Blake3Hash) : stateful world PullError (option Revision) :=
  prepared ← prepare self reads; pull_commit prepared.
End pull.

(** * Push *)
Inductive PushError :=
  | PushNoUpstream (branch : string)
  | PushNonFastForward (branch : string) (expected actual : TreeReference)
  | PushPublish (e : PublishError)
  | PushResolve (e : ResolveError)
  | PushLoadRemote (e : LoadRemoteError)
  | PushOpenRemoteBranch (e : OpenRemoteBranchError)
  | PushFetchRemoteBranch (e : FetchRemoteBranchError)
  | PushPublishRemoteBranch (e : PublishRemoteBranchError)
  | PushUpload (e : UploadError)
  | PushTree (e : DialogSearchTreeError)
  | PushArtifact (e : DialogArtifactsError)
  | PushBlob (e : BlobError).

(** The effects on blobs: a local read gives the chunks of its reader; an import
    at a site takes the chunks its sink is written. *)
Class BlobProvider (L N Site : Type) := {
  blob_read : Did -> Blake3Hash -> stateful L BlobError (list bytes);
  fork_blob_import : Site -> Did -> Blake3Hash -> BinNums.N -> list bytes -> stateful N BlobError unit
}.

(** What a push needs to know of the blobs in a tree. *)
Class BlobTree (K V : Type) := {
  tree_blob_changes : list (tree_result (Change K V)) -> list (outcome DialogArtifactsError BlobChange);
  tree_get_blob : (K -> tree_result (option V)) -> Blake3Hash -> outcome DialogArtifactsError (option BlobRecord.t)
}.
#[export] Instance artifact_blobs : BlobTree KeyBytes State := {|
  tree_blob_changes := blob_changes; tree_get_blob := get_blob |}.

Section push.
Context {L N Site K V : Type} `{!Codecs Site, !MemoryProvider L, !ArchiveProvider L, !ForkProvider Site N}.
Context `{Key K, NodeCodec K V, Blake3, EqDecision V, !BlobProvider L N Site, !BlobTree K V}.
Context (walk_fuel : nat).
Local Abbreviation world := (World L N (cached Site)).

(** The check of both arms: the upstream is still where the last sync left it. *)
Definition fast_forward (self : Branch) (base : TreeReference) (current : option Revision) : outcome PushError unit :=
  let current := match current with Some r => tree r | None => default_tree end in
  if decide (current <> base)
  then Err (PushNonFastForward (BranchReference.name (reference self)) base current) else Ok tt.

(** One blob, from the local archive into a sink at the remote. *)
Definition ship_blob (self : Branch) (address : RemoteAddress Site) (digest : Blake3Hash) (size : BinNums.N)
    : stateful world PushError unit :=
  chunks ← perform (S := L) PushBlob (blob_read (N := N) (Site := Site) (branch_of (reference self)) digest);
  perform (S := N) PushBlob
    (fork_blob_import (L := L) (site_address address) (address_subject address) digest size chunks).

(** The loop over the blob changes; removals ship nothing. *)
Fixpoint ship_blobs (self : Branch) (address : RemoteAddress Site)
    (record : Blake3Hash -> outcome DialogArtifactsError (option BlobRecord.t))
    (changes : list (outcome DialogArtifactsError BlobChange)) : stateful world PushError unit :=
  match changes with
  | [] => mret tt
  | change :: changes =>
      change ← lift_outcome (map_err PushArtifact change);
      _ ← match change with
          | BlobRemoved _ => mret tt
          | BlobAdded digest =>
              found ← lift_outcome (map_err PushArtifact (record digest));
              r ← lift_outcome (ok_or
                    (PushBlob (BlobExecution "blob referenced by the tree but absent from its index")) found);
              ship_blob self address digest (BlobRecord.size r)
          end;
      ship_blobs self address record changes
  end.

(** [Push::perform] *)
Definition push (self : Branch) : stateful world PushError (option Revision) :=
  let subject := branch_of (reference self) in
  u ← asks (branch_upstream self);
  match u with
  | None => lift_outcome (Err (PushNoUpstream (BranchReference.name (reference self))))
  | Some upstream_state =>
      r ← asks (branch_revision self);
      match r with
      | None => mret None
      | Some r =>
          let base := Upstream.tree upstream_state in
          _ ← match upstream_state with
              | UpstreamLocal upstream_name _ =>
                  target ← or_err PushResolve (branch_open (subject_branch subject upstream_name));
                  current ← asks (branch_revision target);
                  _ ← lift_outcome (fast_forward self base current);
                  or_err PushPublish (branch_reset target r)
              | UpstreamRemote remote_name upstream_branch_name _ =>
                  remote ← or_err PushLoadRemote (remote_load (subject_remote subject remote_name));
                  reference ← repository_branch remote upstream_branch_name;
                  upstream ← or_err PushOpenRemoteBranch (remote_branch_open remote reference);
                  _ ← or_err PushFetchRemoteBranch (remote_branch_fetch upstream);
                  current ← asks (remote_revision upstream);
                  _ ← lift_outcome (fast_forward self base current);
                  acc ← asks (local_accessor subject);
                  difference ← lift_outcome (map_err PushTree
                    (compute (K := K) (V := V) acc acc walk_fuel (tree_hash base) (tree_hash (tree r))));
                  _ ← or_err PushUpload (upload remote (novel_nodes (K := K) acc difference));
                  address ← repository_address remote;
                  _ ← ship_blobs self address
                        (tree_get_blob (Walker.tree_get (K := K) (V := V) acc (tree_hash (tree r))))
                        (tree_blob_changes (differentiate (K := K) (V := V) acc walk_fuel (tree_hash base)
                          (tree_hash (tree r))));
                  or_err PushPublishRemoteBranch (remote_branch_publish upstream r)
              end;
          _ ← or_err PushPublish
                (cell_publish (S := L) (upstream self) (Upstream.with_tree upstream_state (tree r)));
          mret (Some r)
      end
  end.
End push.
