(* ===== verification/SyncBase.v ===== *)
(** What the steps of a sync do to a sequential world: opening and loading
    branches and remotes, fetching, reading and importing blocks. *)
From S2P Require Import Prelude Common Nodes Walker Providers Cells Revisions Sync.

(** Sites keep the contract of providers. *)
Class ForkLaws (Site N : Type) (P : bytes -> Prop) `{Blake3, !ForkProvider Site N} := {
  fork_laws : forall a, @ProviderLaws N P _ (fork_memory a) (fork_archive a)
}.
Definition site_held {Site N P} `{ForkLaws Site N P} (a : Site) (n : N) (k : CellKey) : option (Edition bytes) :=
  let _ := fork_memory a in let _ := fork_archive a in let _ := fork_laws (P := P) a in held n k.

Lemma or_err_Ok {S E F A} (f : E -> F) (m : stateful S E A) s s' a :
  m s = (s', Ok a) -> or_err f m s = (s', Ok a).
Proof. unfold or_err. by intros ->. Qed.
Lemma or_err_Err {S E F A} (f : E -> F) (m : stateful S E A) s s' e :
  m s = (s', Err e) -> or_err f m s = (s', Err (f e)).
Proof. unfold or_err. by intros ->. Qed.
Lemma attempt_Ok {S E F A} (m : stateful S E A) s s' a :
  m s = (s', Ok a) -> attempt (F := F) m s = (s', Ok (Ok a)).
Proof. unfold attempt. by intros ->. Qed.
Lemma attempt_Err {S E F A} (m : stateful S E A) s s' e :
  m s = (s', Err e) -> attempt (F := F) m s = (s', Ok (Err e)).
Proof. unfold attempt. by intros ->. Qed.
Lemma stateful_bind_Err {S E A B} (k : A -> stateful S E B) (m : stateful S E A) s s' e :
  m s = (s', Err e) -> (m ≫= k) s = (s', Err e).
Proof. unfold mbind, stateful_bind. by intros ->. Qed.
Lemma lift_bind {S E A B} (a : A) (k : A -> stateful S E B) s : (lift_outcome (Ok a) ≫= k) s = k a s.
Proof. done. Qed.
Lemma asks_bind {W E A B} (f : W -> A) (k : A -> stateful W E B) w : (asks f ≫= k) w = k (f w) w.
Proof. done. Qed.

Section frames.
Context {L N Site : Type} (P : bytes -> Prop) `{Blake3, !Codecs Site, !CodecsLaws Site}.
Context `{!MemoryProvider L, !ArchiveProvider L, !ProviderLaws L P}.
Local Abbreviation world := (World L N (cached Site)).
Implicit Types (w : world).

(** Handles that exist keep what they have cached, and the local provider
    answers as before but for the cells in [keys]. *)
Record frame (keys : CellKey -> Prop) w w' : Prop := {
  frame_heap id x : heap w !! id = Some x -> heap w' !! id = Some x;
  frame_local : unchanged_but P keys (local w) (local w');
  frame_valid : memory_valid (local w) -> memory_valid (local w')
}.
Definition no_cell : CellKey -> Prop := fun _ => False.

Lemma frame_refl keys w : frame keys w w.
Proof. by split. Qed.
Lemma frame_trans (K1 K2 K : CellKey -> Prop) w1 w2 w3 :
  frame K1 w1 w2 -> frame K2 w2 w3 -> (forall k, K1 k \/ K2 k -> K k) -> frame K w1 w3.
Proof. intros [H1 L1 V1] [H2 L2 V2] HK. split; [eauto|by eapply unchanged_but_trans|eauto]. Qed.
Lemma frame_trans_no w1 w2 w3 : frame no_cell w1 w2 -> frame no_cell w2 w3 -> frame no_cell w1 w3.
Proof. intros H1 H2. eapply frame_trans; [done..|]. naive_solver. Qed.

Section cells.
Context {T : Type} `{!Cached (cached Site) T, !CellCodec T, !CellCodecLaws T}.
Implicit Types (c : Cell T) (o : option (Edition T)).

(** A handle keeps its edition along a frame. *)
Definition allocated c w : Prop := is_Some (heap w !! cache c).
Lemma frame_edition keys w w' c : frame keys w w' -> allocated c w -> cell_edition c w' = cell_edition c w.
Proof. intros [Hh _ _] [x Hx]. unfold cell_edition. by rewrite (Hh _ _ Hx), Hx. Qed.
Lemma frame_allocated keys w w' c : frame keys w w' -> allocated c w -> allocated c w'.
Proof. intros [Hh _ _] [x Hx]. exists x. by apply Hh. Qed.
Lemma frame_holds keys w w' key o :
  frame keys w w' -> ~ keys key -> holds_cell P (local w) key o -> holds_cell P (local w') key o.
Proof. intros [_ Hl _] Hk. by apply (holds_cell_unchanged P keys). Qed.

(** A new handle, resolved. *)
Lemma open_cell {E} key o w :
  memory_valid (local w) -> holds_cell P (local w) key o ->
  exists w1 w' c, new_cell (E := E) key w = (w1, Ok c) /\ cell_resolve (S := L) c w1 = (w', Ok tt) /\
    capability c = key /\ heap w !! cache c = None /\ allocated c w' /\ cell_edition c w' = o /\
    frame no_cell w w' /\ network w' = network w /\ retained w' = retained w.
Proof.
  intros Hv Ho. unfold new_cell.
  set (id := fresh (dom (heap w))). set (c := mkCell key id : Cell T).
  set (w1 := set_heap (<[id := None]> (heap w)) w : world).
  pose proof (cell_resolve_spec (S := L) P c o w1) as Hr. destruct (Hr Hv Ho) as (s & Er & Hs & Hu).
  assert (heap w !! id = None) as Hid by (apply not_elem_of_dom, is_fresh).
  exists w1, (cache_set c o (set_part s w1)), c. split_and!; try done.
  - eexists. unfold cache_set. simpl. by rewrite lookup_insert_eq.
  - apply cache_edition_set.
  - split; [|done|done]. intros id' x Hx. simpl. by rewrite !lookup_insert_ne by congruence.
Qed.

(** A publish through a handle that has seen the current edition. *)
Lemma publish_cell c x o w :
  known P x -> memory_valid (local w) -> allocated c w -> holds_cell P (local w) (capability c) o ->
  exists w' v, publish_when (S := L) c x (version <$> o) w = (w', Ok tt) /\
    memory_valid (local w') /\ holds_cell P (local w') (capability c) (Some (mkEdition x v)) /\
    cell_edition c w' = Some (mkEdition x v) /\ allocated c w' /\
    unchanged_but P (fun k => k = capability c) (local w) (local w') /\
    network w' = network w /\ retained w' = retained w /\
    forall id, id <> cache c -> heap w' !! id = heap w !! id.
Proof.
  intros Hx Hv Ha Ho. pose proof (publish_when_current (S := L) P c x (version <$> o) o w) as Hr.
  destruct (Hr Hx Hv Ho eq_refl) as (s & v & E & _ & Hs & Hc & Hu).
  exists (cache_set c (Some (mkEdition x v)) (set_part s w)), v.
  split_and!; try done.
  - apply cache_edition_set.
  - eexists. unfold cache_set. simpl. by rewrite lookup_insert_eq.
  - intros id Hid. unfold cache_set. simpl. by rewrite lookup_insert_ne.
Qed.
End cells.
End frames.

(** ** Opening and loading *)
Section branches.
Context {L N Site : Type} (P : bytes -> Prop) `{Blake3, !Codecs Site, !CodecsLaws Site}.
Context `{!MemoryProvider L, !ArchiveProvider L, !ProviderLaws L P}.
Local Abbreviation world := (World L N (cached Site)).
Implicit Types (w : world) (r : BranchReference) (self : Branch).

(** A branch as it is stored. *)
Definition stored_branch w r (o : option (Edition Revision)) (u : option (Edition Upstream)) : Prop :=
  holds_cell P (local w) (BranchReference.revision r) o /\ holds_cell P (local w) (BranchReference.upstream r) u.

(** A handle to it that has seen what is stored. *)
Record open_branch self r (o : option (Edition Revision)) (u : option (Edition Upstream)) w : Prop := {
  open_reference : reference self = r;
  open_revision_key : capability (revision self) = BranchReference.revision r;
  open_upstream_key : capability (upstream self) = BranchReference.upstream r;
  open_caches : cache (revision self) <> cache (upstream self);
  open_revision_allocated : allocated (revision self) w;
  open_upstream_allocated : allocated (upstream self) w;
  open_revision : cell_edition (revision self) w = o;
  open_upstream : cell_edition (upstream self) w = u
}.
Lemma open_branch_frame keys self r o u w w' :
  frame P keys w w' -> open_branch self r o u w -> open_branch self r o u w'.
Proof.
  intros Hf [E1 E2 E3 E4 A1 A2 C1 C2]. split; try done; try by eapply frame_allocated.
  - by rewrite (frame_edition _ _ _ _ _ Hf).
  - by rewrite (frame_edition _ _ _ _ _ Hf).
Qed.
Lemma open_branch_revision self r o u w : open_branch self r o u w -> branch_revision self w = content <$> o.
Proof. intros Ho. unfold branch_revision, cell_content. by rewrite (open_revision _ _ _ _ _ Ho). Qed.
Lemma open_branch_upstream self r o u w : open_branch self r o u w -> branch_upstream self w = content <$> u.
Proof. intros Ho. unfold branch_upstream, cell_content. by rewrite (open_upstream _ _ _ _ _ Ho). Qed.

Lemma branch_open_spec r o u w :
  memory_valid (local w) -> stored_branch w r o u ->
  exists w' self, branch_open r w = (w', Ok self) /\ open_branch self r o u w' /\
    frame P no_cell w w' /\ network w' = network w /\ retained w' = retained w /\ heap w !! cache (revision self) = None.
Proof.
  intros Hv [Ho Hu].
  destruct (open_cell (E := ResolveError) P _ _ w Hv Ho) as (w0 & w1 & c1 & En1 & Er1 & Ek1 & Hf1 & Ha1 & Ec1 & F1 & N1 & R1).
  assert (memory_valid (local w1)) as Hv1 by (by apply F1).
  assert (holds_cell P (local w1) (BranchReference.upstream r) u) as Hu1 by (eapply frame_holds; [exact F1|tauto|done]).
  destruct (open_cell (E := ResolveError) P _ _ w1 Hv1 Hu1) as (w3 & w2 & c2 & En2 & Er2 & Ek2 & Hf2 & Ha2 & Ec2 & F2 & N2 & R2).
  exists w2, (mkBranch r c1 c2). split_and!.
  - unfold branch_open. rewrite (stateful_bind_Ok _ _ _ _ _ En1), (stateful_bind_Ok _ _ _ _ _ Er1).
    by rewrite (stateful_bind_Ok _ _ _ _ _ En2), (stateful_bind_Ok _ _ _ _ _ Er2).
  - split; simpl; try done.
    + intros E. rewrite <- E in Hf2. destruct Ha1 as [x Hx]. by rewrite Hx in Hf2.
    + by eapply frame_allocated.
    + by rewrite (frame_edition _ _ _ _ _ F2).
  - by eapply frame_trans_no.
  - congruence.
  - congruence.
  - done.
Qed.

Lemma branch_load_spec r e u w :
  memory_valid (local w) -> stored_branch w r (Some e) u ->
  exists w' self, branch_load r w = (w', Ok self) /\ open_branch self r (Some e) u w' /\
    frame P no_cell w w' /\ network w' = network w /\ retained w' = retained w.
Proof.
  intros Hv Hs. destruct (branch_open_spec r (Some e) u w Hv Hs) as (w' & self & E & Ho & F).
  exists w', self. split_and!; try done; try apply F.
  unfold branch_load. rewrite (stateful_bind_Ok _ _ _ _ _ (or_err_Ok _ _ _ _ _ E)), asks_bind.
  by rewrite (open_branch_revision _ _ _ _ _ Ho).
Qed.
(** A branch that has no revision cannot be loaded. *)
Lemma branch_load_missing r u w :
  memory_valid (local w) -> stored_branch w r None u ->
  exists w', branch_load r w = (w', Err (BranchNotFound (BranchReference.name r))) /\ frame P no_cell w w' /\
    network w' = network w.
Proof.
  intros Hv Hs. destruct (branch_open_spec r None u w Hv Hs) as (w' & self & E & Ho & F & Nn & _).
  exists w'. split_and!; [|done|done].
  unfold branch_load. rewrite (stateful_bind_Ok _ _ _ _ _ (or_err_Ok _ _ _ _ _ E)), asks_bind.
  rewrite (open_branch_revision _ _ _ _ _ Ho). simpl. by rewrite (open_reference _ _ _ _ _ Ho).
Qed.
End branches.

(** ** Remotes *)
Section remotes.
Context {L N Site : Type} (P : bytes -> Prop) `{Blake3, !Codecs Site, !CodecsLaws Site}.
Context `{!MemoryProvider L, !ArchiveProvider L, !ProviderLaws L P, !ForkProvider Site N, !ForkLaws Site N P}.
Local Abbreviation world := (World L N (cached Site)).
Implicit Types (w : world) (repo : RemoteRepository Site) (a : RemoteAddress Site) (self : RemoteBranch Site).

(** The site of a remote: what its cells hold, and its blocks. *)
Definition site_valid (s : Site) (n : N) : Prop :=
  let _ := fork_memory s in let _ := fork_archive s in let _ := fork_laws (P := P) s in memory_valid n.
Definition site_holds {T} `{!CellCodec T} (s : Site) (n : N) (key : CellKey) (o : option (Edition T)) : Prop :=
  let _ := fork_memory s in let _ := fork_archive s in let _ := fork_laws (P := P) s in holds_cell P n key o.
Definition site_blocks (s : Site) (n : N) (d : Did) : Blocks :=
  let _ := fork_memory s in let _ := fork_archive s in let _ := fork_laws (P := P) s in stored_blocks n d INDEX.
Definition site_issues {T} `{!CellCodec T} (s : Site) (v : Version) (x : T) : Prop :=
  let _ := fork_memory s in let _ := fork_archive s in let _ := fork_laws (P := P) s in issues (S := N) P v x.
Definition site_unchanged_but (s : Site) (keys : CellKey -> Prop) (n n' : N) : Prop :=
  let _ := fork_memory s in let _ := fork_archive s in let _ := fork_laws (P := P) s in unchanged_but P keys n n'.

(** A loaded remote: the handle has its address cached. *)
Definition open_remote repo a w : Prop :=
  allocated (retain_cell (address repo)) w /\ cell_content (retain_cell (address repo)) w = Some a.
Lemma open_remote_frame keys repo a w w' : frame P keys w w' -> open_remote repo a w -> open_remote repo a w'.
Proof.
  intros Hf [Ha Hc]. split; [by eapply frame_allocated|].
  unfold cell_content in *. by rewrite (frame_edition _ _ _ _ _ Hf).
Qed.

(** Reading the address only refreshes the retained value. *)
Lemma repository_address_spec {E} repo a w :
  open_remote repo a w ->
  exists w', repository_address (E := E) repo w = (w', Ok a) /\
    heap w' = heap w /\ local w' = local w /\ network w' = network w.
Proof.
  intros [_ Hc].
  exists (set_retained (<[value (address repo) := CachedAddress a]> (retained w)) w). split; [|done].
  unfold repository_address, retain_get, mbind, stateful_bind, retain_sync. rewrite Hc.
  cbn [retain_set modify]. unfold retained_value. simpl. by rewrite lookup_insert_eq.
Qed.
Lemma same_frame keys w w' : heap w' = heap w -> local w' = local w -> frame P keys w w'.
Proof. intros Eh El. split; rewrite ?Eh, ?El; done. Qed.

Lemma remote_load_spec r e w :
  memory_valid (local w) -> holds_cell P (local w) (RemoteReference.address r) (Some e) ->
  exists w' repo, remote_load r w = (w', Ok repo) /\ site repo = r /\ open_remote repo (content e) w' /\
    frame P no_cell w w' /\ network w' = network w.
Proof.
  intros Hv He.
  destruct (open_cell (E := LoadRemoteError) P _ _ w Hv He) as (w0 & w1 & c & En & Er & Ek & Hf & Ha & Ec & F & N1 & R1).
  set (id := fresh (dom (retained w1))).
  exists (set_retained (<[id := CachedAddress (content e)]> (retained w1)) w1),
    (mkRemoteRepository r (mkRetain c id)).
  assert (cell_content c w1 = Some (content e)) as Hc by (unfold cell_content; by rewrite Ec).
  split_and!; try done.
  - unfold remote_load.
    rewrite (stateful_bind_Ok _ _ _ _ _ En), (stateful_bind_Ok _ _ _ _ _ (or_err_Ok _ _ _ _ _ Er)), asks_bind, Hc.
    done.
  - destruct F as [Hh Hl Hval]. by split.
Qed.
Lemma remote_load_missing r w :
  memory_valid (local w) -> holds_cell P (local w) (RemoteReference.address r) (None : option (Edition (RemoteAddress Site))) ->
  exists w', remote_load r w = (w', Err (RemoteNotFound (RemoteReference.name r))) /\ frame P no_cell w w' /\
    network w' = network w.
Proof.
  intros Hv He.
  destruct (open_cell (E := LoadRemoteError) P _ _ w Hv He) as (w0 & w1 & c & En & Er & Ek & Hf & Ha & Ec & F & N1 & R1).
  exists w1. split; [|by split]. unfold remote_load.
  rewrite (stateful_bind_Ok _ _ _ _ _ En), (stateful_bind_Ok _ _ _ _ _ (or_err_Ok _ _ _ _ _ Er)), asks_bind.
  unfold cell_content. by rewrite Ec.
Qed.

(** A handle to a branch of a remote. *)
Record open_remote_branch self repo a (name : string) (s : option (Edition (Edition Revision))) w : Prop := {
  open_repository : repository self = repo;
  open_remote_repository : open_remote repo a w;
  open_snapshot_key : capability (snapshot self) = snapshot_key repo name;
  open_upstream_revision_key : capability (remote_upstream self) = BranchReference.revision (subject_branch (address_subject a) name);
  open_remote_caches : cache (snapshot self) <> cache (remote_upstream self);
  open_remote_apart : cache (retain_cell (address repo)) <> cache (remote_upstream self) /\
    cache (retain_cell (address repo)) <> cache (snapshot self);
  open_snapshot_allocated : allocated (snapshot self) w;
  open_remote_upstream_allocated : allocated (remote_upstream self) w;
  open_snapshot : cell_edition (snapshot self) w = s
}.

Lemma repository_branch_spec {E} repo a name w :
  open_remote repo a w ->
  exists w', repository_branch (E := E) repo name w = (w', Ok (subject_branch (address_subject a) name)) /\
    heap w' = heap w /\ local w' = local w /\ network w' = network w.
Proof.
  intros Ho. destruct (repository_address_spec (E := E) repo a w Ho) as (w' & Ea & Hs). exists w'. split; [|done].
  unfold repository_branch, repository_did. unfold mbind, stateful_bind. by rewrite Ea.
Qed.

(** A fresh handle, or a handle whose cache is filled by hand. *)
Lemma new_cell_spec {T E} `{!Cached (cached Site) T} (key : CellKey) w :
  exists w' (c : Cell T), new_cell (E := E) key w = (w', Ok c) /\ capability c = key /\ heap w !! cache c = None /\
    allocated c w' /\ frame P no_cell w w' /\ network w' = network w.
Proof.
  exists (set_heap (<[fresh (dom (heap w)) := None]> (heap w)) w), (mkCell key (fresh (dom (heap w)))).
  assert (heap w !! fresh (dom (heap w)) = None) as Hid by (apply not_elem_of_dom, is_fresh).
  split_and!; try done.
  - eexists. simpl. by rewrite lookup_insert_eq.
  - split; [|done|done]. intros id' x Hx. simpl. by rewrite lookup_insert_ne by congruence.
Qed.

Lemma remote_branch_open_spec repo a branch s w :
  memory_valid (local w) -> open_remote repo a w ->
  holds_cell P (local w) (snapshot_key repo (BranchReference.name branch)) s ->
  exists w' self, remote_branch_open repo branch w = (w', Ok self) /\ remote_branch self = branch /\
    heap w !! cache (snapshot self) = None /\ heap w !! cache (remote_upstream self) = None /\
    open_remote_branch self repo a (BranchReference.name branch) s w' /\
    frame P no_cell w w' /\ network w' = network w.
Proof.
  intros Hv Hrepo Hs. set (name := BranchReference.name branch) in *.
  destruct (repository_branch_spec (E := OpenRemoteBranchError) repo a name w Hrepo) as (w0 & E0 & Eh0 & El0 & En0).
  pose proof (same_frame no_cell w w0 Eh0 El0) as F0.
  assert (BranchReference.name (subject_branch (address_subject a) name) = name) as Ename by apply branch_name.
  destruct (open_cell (E := OpenRemoteBranchError) P (snapshot_key repo name) s w0)
    as (w1 & w2 & c & En & Er & Ek & Hf & Ha & Ec & F1 & N1 & R1); [by rewrite El0|by rewrite El0|].
  destruct (new_cell_spec (T := Revision) (E := OpenRemoteBranchError)
    (BranchReference.revision (subject_branch (address_subject a) name)) w2) as (w3 & u & En' & Eu & Hfu & Hau & F2 & N2).
  assert (frame P no_cell w w2) as F02 by (by eapply frame_trans_no).
  assert (frame P no_cell w w3) as F03 by (by eapply frame_trans_no).
  assert (cache (retain_cell (address repo)) <> cache c) as Hc1.
  { destruct Hrepo as [[x Hx] _]. intros E. rewrite <- E, Eh0, Hx in Hf. done. }
  assert (forall id, allocated (mkCell (T := Revision) (snapshot_key repo name) id) w2 -> id <> cache u) as Hfresh.
  { intros id [x Hx] ->. simpl in Hx. by rewrite Hfu in Hx. }
  assert (cache c <> cache u) as Hcu by (by apply Hfresh).
  assert (cache (retain_cell (address repo)) <> cache u) as Hru.
  { apply Hfresh. destruct Hrepo as [[x Hx] _]. exists x. by apply F02. }
  assert (cell_content c w3 = content <$> s) as Hcs.
  { unfold cell_content. by rewrite (frame_edition P _ _ _ _ F2), Ec. }
  exists (match content <$> s with
          | Some edition => set_heap (<[cache u := Some (map_edition inject edition)]> (heap w3)) w3
          | None => w3 end), (mkRemoteBranch repo branch c u).
  split_and!; [|done| | | | |].
  2: { simpl. by rewrite <- Eh0. }
  2: { simpl. destruct (heap w !! cache u) as [x|] eqn:Eu'; [|done]. apply (frame_heap _ _ _ _ F02) in Eu'. by rewrite Hfu in Eu'. }
  - unfold remote_branch_open. fold name. rewrite (stateful_bind_Ok _ _ _ _ _ E0), Ename.
    rewrite (stateful_bind_Ok _ _ _ _ _ En), (stateful_bind_Ok _ _ _ _ _ (or_err_Ok _ _ _ _ _ Er)).
    rewrite (stateful_bind_Ok _ _ _ _ _ En'), asks_bind, Hcs. by destruct (content <$> s).
  - assert (open_remote_branch (mkRemoteBranch repo branch c u) repo a name s w3) as Hopen.
    { split; simpl; try done.
      - by eapply open_remote_frame.
      - eapply frame_allocated; [exact F2|done].
      - by rewrite (frame_edition P _ _ _ _ F2). }
    destruct (content <$> s) as [edition|]; [|done]. destruct Hopen as [O1 O2 O3 O4 O5 O6 O7 O8 O9].
    split; try done; simpl in *.
    + destruct O2 as [[x Hx] Hcont]. split.
      * exists x. unfold allocated. simpl. by rewrite lookup_insert_ne by congruence.
      * unfold cell_content, cell_edition in *. simpl. by rewrite lookup_insert_ne by congruence.
    + destruct O7 as [x Hx]. exists x. simpl. by rewrite lookup_insert_ne by congruence.
    + eexists. simpl. by rewrite lookup_insert_eq.
    + unfold cell_edition in *. simpl. by rewrite lookup_insert_ne by congruence.
  - destruct (content <$> s) as [edition|]; [|done]. destruct F03 as [Hh Hl Hval]. split; [|done|done].
    intros id x Hx. simpl. rewrite lookup_insert_ne; [by apply Hh|]. intros <-.
    apply (frame_heap _ _ _ _ F02) in Hx. by rewrite Hfu in Hx.
  - destruct (content <$> s); simpl; congruence.
Qed.

(** ** Fetching *)
Lemma fork_resolve_spec {T} `{!Cached (cached Site) T, !CellCodec T, !CellCodecLaws T} (st : Site) (c : Cell T) o w :
  site_valid st (network w) -> site_holds st (network w) (capability c) o ->
  exists n, fork_resolve st c w = (cache_set c o (set_part n w), Ok tt) /\ site_valid st n /\
    site_unchanged_but st no_cell (network w) n.
Proof.
  intros Hv Ho.
  pose proof (@cell_resolve_spec L N (cached Site) T N P _ _ _ network_part _ (fork_memory st) (fork_archive st)
    (fork_laws st) c o w Hv Ho) as (n & E & Hn & Hu).
  exists n. split_and!; [exact E|exact Hn|exact Hu].
Qed.

Lemma remote_branch_fetch_spec self repo a name s o w :
  (forall e, o = Some e -> known P e) ->
  open_remote_branch self repo a name s w -> memory_valid (local w) -> site_valid (site_address a) (network w) ->
  holds_cell P (local w) (snapshot_key repo name) s ->
  site_holds (site_address a) (network w) (BranchReference.revision (subject_branch (address_subject a) name)) o ->
  exists w' s', remote_branch_fetch self w = (w', Ok (content <$> o)) /\
    open_remote_branch self repo a name s' w' /\ (forall e, o = Some e -> content <$> s' = Some e) /\ (o = None -> s' = s) /\
    holds_cell P (local w') (snapshot_key repo name) s' /\
    cell_edition (remote_upstream self) w' = o /\
    memory_valid (local w') /\ site_valid (site_address a) (network w') /\
    unchanged_but P (fun k => k = snapshot_key repo name) (local w) (local w') /\
    site_unchanged_but (site_address a) no_cell (network w) (network w') /\
    (forall id, id <> cache (snapshot self) -> id <> cache (remote_upstream self) -> heap w' !! id = heap w !! id).
Proof.
  intros Hknown Hopen Hv Hsv Hs Ho. pose proof Hopen as [O1 O2 O3 O4 O5 O6 O7 O8 O9].
  destruct (repository_address_spec (E := FetchRemoteBranchError) repo a w O2) as (w0 & E0 & Eh0 & El0 & En0).
  rewrite <- En0 in Hsv, Ho. rewrite <- O4 in Ho.
  destruct (fork_resolve_spec (site_address a) (remote_upstream self) o w0 Hsv Ho) as (n & E1 & Hn & Hun).
  set (w1 := cache_set (remote_upstream self) o (set_part n w0)) in *.
  assert (cell_edition (remote_upstream self) w1 = o) as Ec by apply cache_edition_set.
  assert (open_remote_branch self repo a name s w1) as Hopen1.
  { split; try done.
    - destruct O2 as [[x Hx] Hcont], O6 as [O6 O6']. split.
      + exists x. unfold w1, cache_set. simpl. rewrite lookup_insert_ne by congruence. by rewrite Eh0.
      + unfold cell_content in *. unfold w1. rewrite cache_edition_set_ne by congruence.
        unfold cell_edition. cbn [heap set_part network_part]. by rewrite Eh0.
    - destruct O7 as [x Hx]. exists x. unfold w1, cache_set. simpl. rewrite lookup_insert_ne by congruence. by rewrite Eh0.
    - eexists. unfold w1, cache_set. simpl. by rewrite lookup_insert_eq.
    - unfold w1. rewrite cache_edition_set_ne by congruence.
      unfold cell_edition in *. cbn [heap set_part network_part]. by rewrite Eh0. }
  assert (remote_branch_fetch self w =
    match o with
    | None => (w1, Ok None)
    | Some e => (_ ← or_err FetchRemotePublish (cell_publish (S := L) (snapshot self) e); mret (Some (content e))) w1
    end) as Eq.
  { unfold remote_branch_fetch. rewrite O1, (stateful_bind_Ok _ _ _ _ _ E0).
    rewrite (stateful_bind_Ok _ _ _ _ _ (or_err_Ok _ _ _ _ _ E1)). fold w1. rewrite asks_bind, Ec. by destruct o. }
  assert (memory_valid (local w1)) as Hv1 by (simpl; by rewrite El0).
  assert (holds_cell P (local w1) (capability (snapshot self)) s) as Hs1 by (rewrite O3; simpl; by rewrite El0).
  destruct o as [e|].
  - destruct (publish_cell P (snapshot self) e s w1 (Hknown e eq_refl) Hv1 (open_snapshot_allocated _ _ _ _ _ _ Hopen1) Hs1)
      as (w2 & v & E2 & Hv2 & Hs2 & Ec2 & Ha2 & Hu2 & N2 & R2 & Hheap).
    exists w2, (Some (mkEdition e v)). split_and!; try done.
    + rewrite Eq. unfold cell_publish.
      assert (cell_version (snapshot self) w1 = version <$> s) as Ever
        by (unfold cell_version; by rewrite (open_snapshot _ _ _ _ _ _ Hopen1)).
      rewrite <- Ever in E2. unfold mbind, stateful_bind, or_err, asks. by rewrite E2.
    + destruct Hopen1 as [Q1 Q2 Q3 Q4 Q5 Q6 Q7 Q8 Q9]. split; try done.
      * destruct Q2 as [[x Hx] Hcont], O6 as [O6 O6']. split; [exists x; by rewrite Hheap|].
        unfold cell_content, cell_edition in *. by rewrite Hheap.
      * destruct Q8 as [x Hx]. exists x. by rewrite Hheap.
    + by rewrite <- O3.
    + unfold cell_edition in *. by rewrite Hheap.
    + by rewrite N2.
    + rewrite <- O3, <- El0. exact Hu2.
    + rewrite N2, <- En0. exact Hun.
    + intros id H1 H2. rewrite Hheap by done. unfold w1, cache_set. simpl. rewrite lookup_insert_ne by done. by rewrite Eh0.
  - exists w1, s. split_and!; try done.
    + by rewrite <- O3.
    + change (local w1) with (local w0). rewrite El0. by split.
    + rewrite <- En0. exact Hun.
    + intros id H1 H2. unfold w1, cache_set. simpl. rewrite lookup_insert_ne by done. by rewrite Eh0.
Qed.
End remotes.
