(* ===== verification/Rebase.v ===== *)
(** The three-way merge a pull performs: replaying the changes from the last
    sync to the local tree on top of the upstream tree
    ([TransientTree::integrate] over [PersistentTree::differentiate]), first on
    lists of entries, then on trees. *)
From S2P Require Import Prelude Common Nodes SortedEntries Forest Walker TransientTree Repr Integrate DifferentialCorrect.

Section merge.
Context {K V : Type} `{Key K} `{Blake3} `{EqDecision V} (value_bytes : V -> bytes).
Implicit Types (s t es : list (Entry K V)) (b l u : option V) (e x y : Entry K V).
Local Abbreviation integrate_entries := (integrate_entries value_bytes).
Local Abbreviation integrate_entry := (integrate_entry value_bytes).
Local Abbreviation resolve := (resolve value_bytes).

(** One key: [b] at the last sync, [l] locally, [u] upstream.  What did not
    change locally is the upstream's; a local change wins over an unchanged
    upstream, and over a changed one when its value has the higher hash; a local
    removal loses to a changed upstream. *)
Definition merge3 b l u : option V :=
  if decide (l = b) then u
  else
    let rest := if decide (u = b) then None else u in
    match l with Some v => Some (resolve rest v) | None => rest end.

Lemma merge3_same b u : merge3 b b u = u.
Proof. unfold merge3. by rewrite decide_True. Qed.

Lemma lookup_sorted_cons k x es :
  sorted (x :: es) -> lookup_entry k (x :: es) = if decide (k = key x) then Some (value x) else lookup_entry k es.
Proof.
  intros [Hs Hx]%sorted_cons. case_decide as E; [subst; simpl; by rewrite cmp_refl|].
  simpl. destruct (cmp k (key x)) eqn:Ec; [by apply cmp_eq in Ec| |done].
  symmetry. apply lookup_below; [done|]. intros y Hy. specialize (Hx y Hy).
  assert (k ≺ key x) by done. order.
Qed.
Lemma lookup_head_absent x es : sorted (x :: es) -> lookup_entry (key x) es = None.
Proof. intros [Hs Hx]%sorted_cons. by apply lookup_below. Qed.

(** Before and after one change of the differential at the key of [x]. *)
Lemma lookup_integrate_remove k x es :
  sorted es -> lookup_entry k (integrate_entry (Remove x) es)
  = if decide (k = key x) then (if decide (lookup_entry k es = Some (value x)) then None else lookup_entry k es)
    else lookup_entry k es.
Proof.
  intros Hs. simpl. case_decide as Ex.
  - rewrite lookup_remove by done. case_decide; [subst; by rewrite decide_True|done].
  - case_decide; [subst; by rewrite decide_False|done].
Qed.
Lemma lookup_integrate_add k y es :
  sorted es -> lookup_entry k (integrate_entry (Add y) es)
  = if decide (k = key y) then Some (resolve (lookup_entry k es) (value y)) else lookup_entry k es.
Proof. intros Hs. simpl. rewrite lookup_upsert by done. simpl. case_decide; by subst. Qed.

Lemma lookup_adds k t : forall es, sorted t -> sorted es ->
  lookup_entry k (integrate_entries (Add <$> t) es) = merge3 None (lookup_entry k t) (lookup_entry k es).
Proof.
  induction t as [|y t IH]; intros es Ht Hes; [by rewrite merge3_same|]. pose proof Ht as [Ht' _]%sorted_cons.
  rewrite fmap_cons. change (integrate_entries (Add y :: (Add <$> t)) es)
    with (integrate_entries (Add <$> t) (integrate_entry (Add y) es)).
  rewrite IH by (done || by apply integrate_entry_sorted). rewrite lookup_integrate_add, lookup_sorted_cons by done.
  case_decide as E; [subst|done]. rewrite lookup_head_absent, merge3_same by done.
  unfold merge3. rewrite decide_False by done. by destruct (lookup_entry (key y) es).
Qed.
Lemma lookup_removes k s : forall es, sorted s -> sorted es ->
  lookup_entry k (integrate_entries (Remove <$> s) es) = merge3 (lookup_entry k s) None (lookup_entry k es).
Proof.
  induction s as [|x s IH]; intros es Hs Hes; [by rewrite merge3_same|]. pose proof Hs as [Hs' _]%sorted_cons.
  rewrite fmap_cons. change (integrate_entries (Remove x :: (Remove <$> s)) es)
    with (integrate_entries (Remove <$> s) (integrate_entry (Remove x) es)).
  rewrite IH by (done || by apply integrate_entry_sorted). rewrite lookup_integrate_remove, lookup_sorted_cons by done.
  case_decide as E; [subst|done]. rewrite lookup_head_absent, merge3_same by done.
  unfold merge3. by rewrite (decide_False (P := None = Some _)).
Qed.

(** Every key of the merged entries is merged on its own. *)
Lemma lookup_rebase k s t : forall es, sorted s -> sorted t -> sorted es ->
  lookup_entry k (integrate_entries (diff_entries s t) es)
  = merge3 (lookup_entry k s) (lookup_entry k t) (lookup_entry k es).
Proof.
  revert s t. refine (merge_ind _ _ _ _).
  - intros t es _ Ht Hes. by apply lookup_adds.
  - intros x s es Hs _ Hes. by apply (lookup_removes k (x :: s)).
  - intros x s y t IHl IHr IHb es Hs Ht Hes. rewrite diff_entries_cons.
    pose proof Hs as [Hs' Hx]%sorted_cons. pose proof Ht as [Ht' Hy]%sorted_cons.
    pose proof (lookup_head_absent x s Hs) as Ex. pose proof (lookup_head_absent y t Ht) as Ey.
    destruct (cmp (key x) (key y)) eqn:Ec.
    + apply cmp_eq in Ec. rewrite !lookup_sorted_cons by done. case_decide as Hv.
      * change (integrate_entries (Remove x :: Add y :: diff_entries s t) es)
          with (integrate_entries (diff_entries s t) (integrate_entry (Add y) (integrate_entry (Remove x) es))).
        rewrite IHb by (done || by repeat apply integrate_entry_sorted).
        rewrite lookup_integrate_add, lookup_integrate_remove by (done || by apply integrate_entry_sorted).
        rewrite <- Ec. case_decide as Ek; [|done]. subst k. rewrite Ex, Ec, Ey, merge3_same.
        unfold merge3. by rewrite (decide_False (P := Some (value y) = Some (value x))) by congruence.
      * rewrite IHb by done. rewrite <- Ec. case_decide as Ek; [|done]. subst k.
        rewrite Ex, Ec, Ey, !merge3_same. unfold merge3. by rewrite Hv, decide_True.
    + change (integrate_entries (Remove x :: diff_entries s (y :: t)) es)
        with (integrate_entries (diff_entries s (y :: t)) (integrate_entry (Remove x) es)).
      rewrite IHl by (done || by apply integrate_entry_sorted).
      rewrite lookup_integrate_remove, (lookup_sorted_cons k x) by done. case_decide as Ek; [|done]. subst k.
      assert (lookup_entry (key x) (y :: t) = None) as -> by by (simpl; rewrite Ec).
      rewrite Ex, merge3_same. unfold merge3. by rewrite (decide_False (P := None = Some _)).
    + change (integrate_entries (Add y :: diff_entries (x :: s) t) es)
        with (integrate_entries (diff_entries (x :: s) t) (integrate_entry (Add y) es)).
      rewrite IHr by (done || by apply integrate_entry_sorted).
      rewrite lookup_integrate_add, (lookup_sorted_cons k y) by done. case_decide as Ek; [|done]. subst k.
      assert (lookup_entry (key y) (x :: s) = None) as ->.
      { apply cmp_gt in Ec. apply lookup_below; [done|]. intros z [->|Hz]%elem_of_cons; [done|]. specialize (Hx z Hz). order. }
      rewrite Ey, merge3_same. unfold merge3. rewrite decide_False by done. by destruct (lookup_entry (key y) es).
Qed.

(** The entries a pull leaves. *)
Definition merged_entries (base loc up : list (Entry K V)) : list (Entry K V) :=
  integrate_entries (diff_entries base loc) up.
Lemma merged_sorted base loc up : sorted up -> sorted (merged_entries base loc up).
Proof. apply integrate_entries_sorted. Qed.
Lemma merged_ext base loc up es :
  sorted base -> sorted loc -> sorted up -> sorted es ->
  (forall k, lookup_entry k es = merge3 (lookup_entry k base) (lookup_entry k loc) (lookup_entry k up)) ->
  merged_entries base loc up = es.
Proof.
  intros Hb Hl Hu He Hk. apply sorted_ext; [by apply merged_sorted|done|]. intros k. rewrite Hk. by apply lookup_rebase.
Qed.
(** Nothing changed locally: the upstream as it is; nothing upstream: the local one. *)
Lemma merged_fast_forward base up : sorted base -> sorted up -> merged_entries base base up = up.
Proof. intros Hb Hu. apply merged_ext; [done..|]. intros k. by rewrite merge3_same. Qed.
Lemma merged_unmoved base loc : sorted base -> sorted loc -> merged_entries base loc base = loc.
Proof.
  intros Hb Hl. apply merged_ext; [done..|]. intros k. unfold merge3.
  case_decide as E; [done|]. rewrite decide_True by done. by destruct (lookup_entry k loc).
Qed.

(** Who merges does not matter. *)
Section symmetric.
Context (Q : V -> Prop).
Context (Hinj : forall v1 v2, Q v1 -> Q v2 -> identity value_bytes v1 = identity value_bytes v2 -> v1 = v2).

Lemma merge3_comm b l u :
  (forall v, l = Some v -> Q v) -> (forall v, u = Some v -> Q v) -> merge3 b l u = merge3 b u l.
Proof.
  intros Hl Hu. unfold merge3. destruct (decide (l = b)) as [El|El], (decide (u = b)) as [Eu|Eu].
  - congruence.
  - by destruct u.
  - by destruct l.
  - destruct l as [v|], u as [w|]; try done. f_equal.
    pose proof (resolve_comm value_bytes Q Hinj None w v) as E. simpl in E. apply E; naive_solver.
Qed.
Lemma merged_comm base s t :
  sorted base -> sorted s -> sorted t -> all_in Q s -> all_in Q t ->
  merged_entries base s t = merged_entries base t s.
Proof.
  intros Hb Hs Ht Qs Qt. apply merged_ext; [done..|by apply merged_sorted|]. intros k.
  unfold merged_entries. rewrite lookup_rebase by done. symmetry. apply merge3_comm; intros v Hv; eauto.
Qed.
End symmetric.
End merge.

(** * Rebasing

    Rebasing a tree ([rebase] of Sync): what a pull computes, and where it ends
    up in the archive. *)
From S2P Require Import Instances Spine Fuse Edits Batch Persist Read Differential Access Providers Cells Revisions Sync SyncBase.

Section trees.
Context {K V : Type} `{Key K, NodeCodec K V, Blake3} {D : Distribution} `{EqDecision V}.
Context (P : bytes -> Prop) (R : nat).

(** What the archive holds for trees: nodes under their own hash, all in [P]. *)
Record tree_store (acc : Accessor) : Prop := {
  store_nodes : well_stored (K := K) (V := V) acc;
  store_known h node : acc h = Ok node -> P (buffer node)
}.
(** The serialized nodes of the trees over some entries are in [P]. *)
Definition serializes_in (es : list (Entry K V)) : Prop :=
  forall h p b, (h <= S R)%nat -> forest h es = [p] -> b ∈ sealed p -> P b.
(** The tree a reference points to holds the entries. *)
Definition holds_tree (acc : Accessor) (es : list (Entry K V)) (t : TreeReference) : Prop :=
  represents R acc es (Unloaded (tree_hash t)).

Lemma holds_tree_sorted acc es t : holds_tree acc es t -> sorted es.
Proof. by intros [Hs _]. Qed.
Lemma holds_tree_extends acc acc' es t : extends acc acc' -> holds_tree acc es t -> holds_tree acc' es t.
Proof. apply represents_extends. Qed.
Lemma holds_empty acc : holds_tree acc [] default_tree.
Proof. split; [constructor|]. by exists None. Qed.

Context (Hcf : collision_free P).
Lemma tree_store_null acc : tree_store acc -> null_absent acc.
Proof.
  intros [Hws HP] node E. destruct (Hws _ _ E) as [Hh _]. by apply (proj2 Hcf (buffer node)); [eapply HP|].
Qed.

Context (Htotal : codec_total (K := K) (V := V)).
Lemma represents_repr acc es root :
  tree_store acc -> represents R acc es (Unloaded root) ->
  es = [] /\ root = NULL_BLAKE3_HASH \/
  exists h p, (1 <= h)%nat /\ (h <= S R)%nat /\ forest h es = [p] /\ root = blake3 (ser p) /\
    root <> NULL_BLAKE3_HASH /\ repr acc p (Persistent (link_of p)).
Proof.
  intros [Hws HP] (Hs & o & Ho & Hr). pose proof Ho as Ho'. unfold load in Ho'.
  case_decide as Hn; [injection Ho' as <-; by left|]. right. outcome_inv. rename a into node, a0 into t.
  destruct Hr as (h & Hle & Hh & _ & p & Hp & Hrt).
  pose proof (forest_uniform_one _ _ _ Hp) as Hu. destruct (Hws _ _ Ha) as [Hhash Hbody].
  pose proof (stored_ser acc h p node t Hws Hu Hbody Ha0 Hrt) as Eb.
  assert (root = blake3 (ser p)) as Er by (rewrite <- Hhash; unfold hash; by rewrite Eb).
  exists h, p. split_and!; try done. apply repr_unfold. split.
  - unfold bound_ok, link_of, top. simpl.
    destruct (last_key_nonempty _ (uniform_nonempty h p Hu)) as [k Hk]. by rewrite Hk.
  - exists t. split; [|done]. simpl. by rewrite <- Er, Ha.
Qed.

(** The root hashes a tree over some entries can have. *)
Definition root_of (es : list (Entry K V)) (root : Blake3Hash) : Prop :=
  es = [] /\ root = NULL_BLAKE3_HASH \/
  exists h p, (h <= S R)%nat /\ forest h es = [p] /\ root = blake3 (ser p).
Lemma holds_tree_root acc es t : tree_store acc -> holds_tree acc es t -> root_of es (tree_hash t).
Proof.
  intros Hst Hr. destruct (represents_repr acc es _ Hst Hr) as [?|(h & p & _ & Hh & Hp & E & _)]; [by left|right; eauto].
Qed.

Context (value_to_bytes : V -> option bytes) (value_bytes : V -> bytes).
Context (Hvalue : forall v, value_to_bytes v = Some (value_bytes v)).
Context (fuel walk_fuel : nat) (rank_le : forall b, (rank b <= R)%nat) (enough : (S R < fuel)%nat).
Context (shallow : (S R <= MAXIMUM_TREE_DEPTH)%nat).

(** The rebase returns; the tree it returns, in the archive with its delta,
    holds the three-way merge.  Without local changes it is the upstream tree. *)
Lemma rebase_spec acc B L U (base loc up : TreeReference) :
  tree_store acc -> holds_tree acc B base -> holds_tree acc L loc -> holds_tree acc U up ->
  (tree_cost R B + tree_cost R L < walk_fuel)%nat -> serializes_in (merged_entries value_bytes B L U) ->
  exists root delta,
    rebase (K := K) (V := V) value_to_bytes fuel walk_fuel acc (tree_hash base) (tree_hash loc) (tree_hash up)
      = Ok (root, delta) /\
    tree_store (overlay delta acc) /\
    holds_tree (overlay delta acc) (merged_entries value_bytes B L U) (mkTreeReference root) /\
    (B = L -> root = tree_hash up /\ delta = Delta.zero).
Proof.
  intros Hst HB HL HU Hf Hser. pose proof (tree_store_null acc Hst) as Hnull. destruct Hst as [Hws HP].
  destruct (changes_spec Htotal R P Hcf acc acc Hws Hws HP HP B L _ _ walk_fuel walk_fuel HB HL Hf) as (d & Ed & Ec); [lia|].
  destruct (integrate_represents value_to_bytes value_bytes Hvalue acc Hnull R fuel rank_le enough shallow
    (diff_entries B L) U (Unloaded (tree_hash up)) HU) as (r & Ei & Hr).
  destruct (persist_represents Htotal R acc P _ r Hws Hcf HP Hser Hr) as (delta & root & Ep & Hws' & HP' & Hr' & _).
  assert (rebase (K := K) (V := V) value_to_bytes fuel walk_fuel acc (tree_hash base) (tree_hash loc) (tree_hash up)
    = Ok (root, delta)) as E.
  { unfold rebase, differentiate. rewrite Ed, Ec, Ei. cbn [mbind outcome_bind]. by rewrite Ep. }
  exists root, delta. split_and!; [exact E|by split|exact Hr'|].
  intros <-. assert (diff_entries B B = []) as Enil.
  { apply elem_of_nil_inv. intros c Hc. destruct HB as [HsB _].
    destruct c as [e|e]; apply (diff_entries_elem B B HsB HsB) in Hc as [? ?]; done. }
  rewrite Enil in Ei. simpl in Ei. injection Ei as <-. by injection Ep as <- <-.
Qed.
End trees.
