(* ===== verification/SyncCorrect.v ===== *)
(** The archive of a repository as a store of tree nodes, what the local and the
    networked index read and what importing a delta adds; and pulling: a pull
    leaves the branch at the three-way merge of what was last synced, the branch
    and its upstream, local or remote. *)
From S2P Require Import Prelude Common Nodes SortedEntries Forest Walker TransientTree Instances Repr Spine Fuse Edits Batch Persist Read Access Integrate Differential DifferentialCorrect Rebase Storage Providers Cells Revisions Sync SyncBase.

(** Every block is stored under its own digest. *)
Definition content_addressed `{Blake3} (f : Blocks) : Prop := forall h b, f h = Some b -> blake3 b = h.

Definition blocks_accessor `{Blake3} (f : Blocks) : Accessor := fun h => verified h (Ok (f h)).

Section blocks.
Context `{Blake3}.

Lemma blocks_accessor_Ok f h node : blocks_accessor f h = Ok node <-> f h = Some (buffer node) /\ blake3 (buffer node) = h.
Proof.
  unfold blocks_accessor, verified. destruct (f h) as [b|]; [|split; [done|by intros [? _]]].
  destruct (matches h b) eqn:Em.
  - apply matches_true in Em. split; [intros [= <-]; done|intros [[= ->] _]; by destruct node].
  - split; [done|]. intros [[= ->] E]. apply matches_true in E. by rewrite E in Em.
Qed.

Lemma add_blocks_lookup bs : forall (f : Blocks) h,
  foldl add_block f bs h = match f h with Some b => Some b | None => block_map bs !! h end.
Proof.
  induction bs as [|b bs IH]; intros f h; cbn [foldl].
  - unfold block_map. simpl. rewrite lookup_empty. by destruct (f h).
  - rewrite IH. unfold add_block, block_map. csimpl. case_decide as E.
    + subst. rewrite lookup_insert_eq. by destruct (f (blake3 b)).
    + rewrite lookup_insert_ne by done. done.
Qed.
Lemma import_flush_lookup (f : Blocks) (delta : Delta.t) h :
  (forall h b, delta !! h = Some b -> blake3 b = h) ->
  foldl add_block f (Delta.flush delta).1.*2 h = match f h with Some b => Some b | None => delta !! h end.
Proof.
  intros Hd. rewrite add_blocks_lookup. by destruct (block_map_flush delta (Delta.flush delta).1.*2 Hd) as [_ ->].
Qed.
End blocks.

Section archive.
Context {L N Site : Type} (P : bytes -> Prop) `{Blake3, !Codecs Site, !CodecsLaws Site}.
Context `{!MemoryProvider L, !ArchiveProvider L, !ProviderLaws L P, !ForkProvider Site N, !ForkLaws Site N P}.
Local Abbreviation world := (World L N (cached Site)).
Implicit Types (w : world) (subj : Did).

Definition local_blocks subj w : Blocks := stored_blocks (local w) subj INDEX.
(** The blocks of the local archive, and behind them those of a remote. *)
Definition networked_blocks subj (oa : option (RemoteAddress Site)) w : Blocks := fun h =>
  match local_blocks subj w h with
  | Some b => Some b
  | None => a ← oa; site_blocks P (site_address a) (network w) (address_subject a) h
  end.
(** The remote handle, if any, is loaded. *)
Definition at_remote (remote : option (RemoteRepository Site)) (oa : option (RemoteAddress Site)) w : Prop :=
  match remote, oa with
  | None, None => True
  | Some repo, Some a => open_remote repo a w
  | _, _ => False
  end.

Lemma local_get_spec subj h w : local_get subj h w = (w, Ok (local_blocks subj w h)).
Proof.
  unfold local_get, perform. pose proof (get_stored subj INDEX h (local w)) as E. change (part w) with (local w).
  rewrite E. by destruct w.
Qed.
Lemma local_accessor_blocks subj w h : local_accessor subj w h = blocks_accessor (local_blocks subj w) h.
Proof. unfold local_accessor. by rewrite local_get_spec. Qed.

(** What reading changes: blocks of the remote become local. *)
Record grown subj oa w w' : Prop := {
  grown_heap : heap w' = heap w;
  grown_network : network w' = network w;
  grown_held k : memory_valid (local w) -> held (local w') k = held (local w) k;
  grown_valid : memory_valid (local w) -> memory_valid (local w');
  grown_local d c h b : stored_blocks (local w) d c h = Some b -> stored_blocks (local w') d c h = Some b;
  grown_networked h : networked_blocks subj oa w' h = networked_blocks subj oa w h;
  grown_blobs d h : stored_blobs (local w') d h = stored_blobs (local w) d h
}.
Lemma grown_refl subj oa w : grown subj oa w w.
Proof. by split. Qed.
Lemma grown_trans subj oa w1 w2 w3 : grown subj oa w1 w2 -> grown subj oa w2 w3 -> grown subj oa w1 w3.
Proof.
  intros [H1 N1 K1 V1 B1 W1 C1] [H2 N2 K2 V2 B2 W2 C2]. split; [congruence|congruence| |eauto|eauto| |].
  - intros k Hv. by rewrite K2, K1 by eauto.
  - intros h. by rewrite W2, W1.
  - intros d h. by rewrite C2, C1.
Qed.
Lemma grown_at_remote subj oa remote oa' w w' : grown subj oa w w' -> at_remote remote oa' w -> at_remote remote oa' w'.
Proof.
  intros [Eh _ _ _ _ _ _]. destruct remote, oa'; simpl; try done. unfold open_remote, allocated, cell_content, cell_edition.
  by rewrite Eh.
Qed.

Lemma networked_get_spec subj remote oa h w :
  at_remote remote oa w -> content_addressed (networked_blocks subj oa w) ->
  exists w', networked_get subj remote h w = (w', Ok (networked_blocks subj oa w h)) /\ grown subj oa w w'.
Proof.
  intros Hr Hca. unfold networked_get. rewrite (stateful_bind_Ok _ _ _ _ _ (local_get_spec subj h w)).
  assert (forall o, local_blocks subj w h = o -> networked_blocks subj oa w h =
    match o with Some b => Some b | None => a ← oa; site_blocks P (site_address a) (network w) (address_subject a) h end) as En.
  { intros o <-. done. }
  destruct (local_blocks subj w h) as [b|] eqn:El; [rewrite (En _ eq_refl); exists w; split; [done|apply grown_refl]|].
  specialize (En _ eq_refl).
  destruct remote as [repo|], oa as [a|]; try done; [|rewrite En; exists w; split; [done|apply grown_refl]].
  destruct (repository_address_spec (E := DialogStorageError) repo a w Hr) as (w0 & E0 & Eh0 & El0 & En0).
  rewrite (stateful_bind_Ok _ _ _ _ _ E0).
  set (fm := fork_memory (site_address a)). set (fa := fork_archive (site_address a)).
  assert (perform (S := N) archive_error (archive_get (address_subject a) INDEX h) w0
    = (w0, Ok (networked_blocks subj (Some a) w h))) as Eg.
  { unfold perform. rewrite En, <- En0. cbn [mbind option_bind]. unfold site_blocks.
    pose proof (@get_stored N _ fa (@provider_archive N P _ fm fa (fork_laws (site_address a)))
      (address_subject a) INDEX h (network w0)) as E.
    change (part w0) with (network w0). rewrite E. cbn [map_err]. by destruct w0. }
  fold fm. fold fa. rewrite (stateful_bind_Ok _ _ _ _ _ Eg).
  assert (grown subj (Some a) w w0) as Hg0.
  { split; try done; unfold networked_blocks, local_blocks; by rewrite ?El0, ?En0. }
  destruct (networked_blocks subj (Some a) w h) as [b|] eqn:Eb; [|by exists w0].
  pose proof (Hca _ _ Eb) as Hh.
  destruct (put_stored subj INDEX b (local w0)) as (s & Ep & Hs).
  exists (set_part s w0). split.
  { unfold attempt, mbind, stateful_bind, local_set, perform. change (part w0) with (local w0). by rewrite Ep. }
  assert (forall d c h' b', stored_blocks (local w) d c h' = Some b' -> stored_blocks s d c h' = Some b') as Hmono.
  { intros d c h' b' Hb'. rewrite Hs, El0. case_decide as Edc; [|done]. unfold add_block. rewrite Hb'. by case_decide. }
  split; cbn [heap network local set_part local_part]; try done.
  - intros k Hv. pose proof (put_memory subj INDEX b (local w0)) as Hp. rewrite Ep, El0 in Hp. by apply Hp.
  - intros Hv. pose proof (put_memory subj INDEX b (local w0)) as Hp. rewrite Ep, El0 in Hp. by apply Hp.
  - intros h'. unfold networked_blocks, local_blocks. cbn [local network set_part local_part].
    rewrite Hs, El0, En0, decide_True by done. unfold add_block. case_decide as E'; [|done]. subst h'.
    rewrite Hh. fold (local_blocks subj w h). rewrite El. simpl. exact En.
  - intros d h'. pose proof (put_blobs subj INDEX b (local w0) d h') as Hp. by rewrite Ep, El0 in Hp.
Qed.

Lemma networked_accessor_blocks subj remote oa w h :
  at_remote remote oa w -> content_addressed (networked_blocks subj oa w) ->
  networked_accessor subj remote w h = blocks_accessor (networked_blocks subj oa w) h.
Proof.
  intros Hr Hca. unfold networked_accessor. by destruct (networked_get_spec subj remote oa h w Hr Hca) as (w' & -> & _).
Qed.

Lemma hydrate_spec subj remote oa reads : forall w,
  at_remote remote oa w -> content_addressed (networked_blocks subj oa w) ->
  exists w', hydrate subj remote reads w = (w', Ok tt) /\ grown subj oa w w'.
Proof.
  induction reads as [|h reads IH]; intros w Hr Hca; [by exists w|]. cbn [hydrate].
  destruct (networked_get_spec subj remote oa h w Hr Hca) as (w1 & E & Hg).
  rewrite (stateful_bind_Ok _ _ _ _ _ E).
  destruct (IH w1) as (w2 & E2 & Hg2).
  - by eapply grown_at_remote.
  - intros h' b Hb. apply Hca. by rewrite <- (grown_networked _ _ _ _ Hg).
  - exists w2. split; [done|]. by eapply grown_trans.
Qed.

(** Importing a delta. *)
Lemma import_delta_spec subj delta w :
  (forall h b, delta !! h = Some b -> blake3 b = h) ->
  exists w', import_delta subj delta w = (w', Ok tt) /\ heap w' = heap w /\ network w' = network w /\
    (memory_valid (local w) -> memory_valid (local w') /\ forall k, held (local w') k = held (local w) k) /\
    (forall h, local_blocks subj w' h = match local_blocks subj w h with Some b => Some b | None => delta !! h end) /\
    (forall d c h b, stored_blocks (local w) d c h = Some b -> stored_blocks (local w') d c h = Some b).
Proof.
  intros Hd. destruct (import_stored subj INDEX (Delta.flush delta).1.*2 (local w)) as (s & E & Hs).
  exists (set_part s w). split_and!; try done.
  - unfold import_delta, perform. change (part w) with (local w). by rewrite E.
  - intros Hv. pose proof (import_memory subj INDEX (Delta.flush delta).1.*2 (local w) Hv) as Hm. by rewrite E in Hm.
  - intros h. unfold local_blocks. cbn [local set_part local_part]. rewrite Hs, decide_True by done.
    by apply import_flush_lookup.
  - intros d c h b Hb. cbn [local set_part local_part]. rewrite Hs. case_decide; [|done].
    rewrite import_flush_lookup by done. by rewrite Hb.
Qed.
End archive.

(** * Transport

    A tree moves with its nodes: an archive that has every serialized node of a
    tree represents it, and the other way around. *)
From S2P Require Import Frontier.

Section transport.
Context {K V : Type} `{Key K, NodeCodec K V, Blake3} {D : Distribution}.
Context (Htotal : codec_total (K := K) (V := V)).
Implicit Types (p : ptree K V) (es : list (Entry K V)) (W : list (ptree K V)).

(** The serialized node is readable under its hash. *)
Definition has_node (acc : Accessor) (b : bytes) : Prop := acc (blake3 b) = Ok (mkPersistentNode b).

Lemma repr_persistent acc p l h :
  well_stored (K := K) (V := V) acc -> uniform h p -> repr acc p (Persistent l) ->
  exists node t, acc (link_node l) = Ok node /\ transient_try_from node = Ok t /\ repr_transient acc p t /\
    buffer node = ser p /\ link_node l = blake3 (ser p).
Proof.
  intros Hws Hu Hr. apply repr_unfold in Hr as (_ & t & Ht & Hr). simpl in Ht. outcome_inv. rename a into node.
  destruct (Hws _ _ Ha) as [Hh Hbody].
  pose proof (stored_ser acc h p node t Hws Hu Hbody Ht Hr) as Eb.
  exists node, t. split_and!; try done. rewrite <- Hh. unfold hash. by rewrite Eb.
Qed.

(** The references of a persisted index node. *)
Lemma opened_children node (t : TransientNode K V) cs :
  transient_try_from node = Ok t -> t = TransientIndex cs -> exists links, cs = Persistent <$> links.
Proof.
  intros Ht ->. unfold transient_try_from in Ht. destruct (body node) as [[links|es]| | |] eqn:Eb; try done.
  cbn [mbind outcome_bind] in Ht. unfold open_index in Ht.
  destruct (as_index node) as [links'| | |]; try done. simpl in Ht. injection Ht as <-. eauto.
Qed.

Lemma repr_nodes acc p : forall h l,
  well_stored (K := K) (V := V) acc -> uniform h p -> repr acc p (Persistent l) ->
  forall b, b ∈ sealed p -> has_node acc b.
Proof.
  induction p as [es|ps IH] using ptree_nested_ind; intros h l Hws Hu Hr b Hb.
  all: destruct (repr_persistent acc _ l h Hws Hu Hr) as (node & t & Hn & Ht & Hrt & Eb & El).
  - simpl in Hb. apply list_elem_of_singleton in Hb as ->. unfold has_node.
    change (encode (Segment es)) with (ser (PSegment es)). rewrite <- El, Hn, <- Eb. by destruct node.
  - rewrite sealed_index, elem_of_cons in Hb. destruct Hb as [->|Hb].
    { unfold has_node. rewrite <- El, Hn, <- Eb. by destruct node. }
    unfold sealeds in Hb. apply elem_of_concat in Hb as (bs & Hbs & Hb).
    apply list_elem_of_fmap in Hbs as (p & -> & Hp).
    destruct Hrt as (cs & Ecs & Hall). destruct (opened_children _ _ _ Ht Ecs) as (links & ->).
    destruct h as [|h]; [done|]. destruct Hu as [_ Hu]. rewrite Forall_forall in IH, Hu.
    destruct (list_elem_of_lookup_1 _ _ Hp) as (i & Hi).
    destruct (Forall2_lookup_l _ _ _ _ _ Hall Hi) as (c & Hc & Hrc).
    apply list_lookup_fmap_Some in Hc as (link & -> & _).
    exact (IH p Hp h link Hws (Hu p Hp) Hrc b Hb).
Qed.

Lemma lifted_has_node acc l node (t : TransientNode K V) :
  has_node acc (buffer node) -> link_node l = blake3 (buffer node) -> transient_try_from node = Ok t ->
  lifted acc (Persistent l) = Ok t.
Proof. intros Hn El Ht. unfold lifted. rewrite El, Hn. cbn [mbind outcome_bind]. by destruct node. Qed.

Lemma repr_move acc acc' p : forall h l,
  well_stored (K := K) (V := V) acc -> uniform h p -> repr acc p (Persistent l) ->
  (forall b, b ∈ sealed p -> has_node acc' b) -> repr acc' p (Persistent l).
Proof.
  induction p as [es|ps IH] using ptree_nested_ind; intros h l Hws Hu Hr Hall.
  all: destruct (repr_persistent acc _ l h Hws Hu Hr) as (node & t & Hn & Ht & Hrt & Eb & El);
    apply repr_unfold in Hr as (Hbound & _); apply repr_unfold; split; [done|];
    exists t; (split; [apply (lifted_has_node acc' l node); [rewrite Eb; apply Hall, sealed_self|by rewrite Eb|done]|]).
  - exact Hrt.
  - destruct Hrt as (cs & Ecs & Hcs). exists cs. split; [done|].
    destruct (opened_children _ _ _ Ht Ecs) as (links & ->).
    destruct h as [|h]; [done|]. destruct Hu as [_ Hu]. rewrite Forall_forall in IH, Hu.
    apply Forall2_same_length_lookup. split; [by eapply Forall2_length|]. intros i p c Hp Hc.
    pose proof (list_elem_of_lookup_2 _ _ _ Hp) as Hin.
    pose proof (Forall2_lookup_lr _ _ _ _ _ _ Hcs Hp Hc) as Hrc.
    apply list_lookup_fmap_Some in Hc as (link & -> & _).
    apply (IH p Hin h link Hws (Hu p Hin) Hrc). intros b Hb. apply Hall. by eapply sealed_child.
Qed.

(** The trees of stored roots. *)
Context (R : nat) (P : bytes -> Prop) (Hcf : collision_free P).

Lemma represents_nodes acc es root W :
  tree_store (K := K) (V := V) P acc -> represents R acc es (Unloaded root) -> rooted P root W ->
  forall b, b ∈ sealeds W -> has_node acc b.
Proof.
  intros Hst Hr HW. destruct (represents_repr P R acc es root Hst Hr) as [[-> ->]|(h & p & _ & _ & Hp & -> & Hn & Hrp)].
  - rewrite (rooted_inj Htotal P Hcf _ W [] HW); [|done]. intros b Hb. by apply elem_of_nil in Hb.
  - pose proof (forest_uniform_one _ _ _ Hp) as Hu.
    assert (forall b, b ∈ sealed p -> has_node acc b) as Hall by (by eapply repr_nodes; [apply Hst|..]).
    rewrite (rooted_inj Htotal P Hcf _ W [p] HW).
    + intros b. unfold sealeds. simpl. rewrite app_nil_r. apply Hall.
    + split; [done|]. apply Forall_forall. intros b Hb. exact (store_known _ _ Hst _ _ (Hall b Hb)).
Qed.

Lemma represents_move acc acc' es root W :
  tree_store (K := K) (V := V) P acc -> represents R acc es (Unloaded root) -> rooted P root W ->
  (forall b, b ∈ sealeds W -> has_node acc' b) -> represents R acc' es (Unloaded root).
Proof.
  intros Hst Hr HW Hall. pose proof (represents_nodes acc es root W Hst Hr HW) as Hnodes. pose proof Hr as [Hs _].
  destruct (represents_repr P R acc es root Hst Hr) as [[-> ->]|(h & p & Hh & Hle & Hp & -> & Hn & Hrp)].
  - split; [done|]. exists None. split; [|done]. unfold load. by rewrite decide_True.
  - pose proof (forest_uniform_one _ _ _ Hp) as Hu.
    assert (W = [p]) as ->.
    { apply (rooted_inj Htotal P Hcf _ W [p] HW). split; [done|]. apply Forall_forall. intros b Hb.
      refine (store_known _ _ Hst _ _ (repr_nodes acc p h _ _ Hu Hrp b Hb)). apply Hst. }
    assert (repr acc' p (Persistent (link_of p))) as Hrp'.
    { eapply (repr_move acc acc' p h); [apply Hst|done|done|]. intros b Hb. apply Hall. unfold sealeds. simpl. by rewrite app_nil_r. }
    destruct (load_link acc' p h Hn Hu Hrp') as (t & Hl & Hrt).
    split; [done|]. exists (Some t). split; [done|]. exists h. split; [done|]. split_and!; eauto.
Qed.
End transport.

(** * Pulling *)
Section imports.
Context {L N Site K V : Type} (P : bytes -> Prop) `{Blake3, !Codecs Site, !CodecsLaws Site}.
Context `{!MemoryProvider L, !ArchiveProvider L, !ProviderLaws L P, !ForkProvider Site N, !ForkLaws Site N P}.
Context `{Key K, NodeCodec K V} {D : Distribution} (Hcf : collision_free P).
Local Abbreviation world := (World L N (cached Site)).
Implicit Types (w : world) (subj : Did).

(** The trees a repository can read: locally, and through a remote. *)
Definition readable (subj : Did) (oa : option (RemoteAddress Site)) w : Accessor :=
  blocks_accessor (networked_blocks P subj oa w).
Definition sound_archive subj oa w : Prop :=
  content_addressed (networked_blocks P subj oa w) /\ tree_store (K := K) (V := V) P (readable subj oa w).

(** A delta that was imported is read like the delta in front of the archive. *)
Lemma import_overlay subj oa w w' delta :
  sound_archive subj oa w -> tree_store (K := K) (V := V) P (overlay delta (readable subj oa w)) ->
  network w' = network w ->
  (forall h, local_blocks P subj w' h = match local_blocks P subj w h with Some b => Some b | None => delta !! h end) ->
  extends (overlay delta (readable subj oa w)) (readable subj oa w') /\ sound_archive subj oa w'.
Proof.
  intros [Hca Hst] Hst' En El.
  assert (forall h b, delta !! h = Some b -> blake3 b = h /\ overlay delta (readable subj oa w) h = Ok (mkPersistentNode b)) as Hd.
  { intros h b Hb. assert (overlay delta (readable subj oa w) h = Ok (mkPersistentNode b)) as Ho
      by (unfold overlay; by rewrite Hb). split; [|done]. by destruct (store_nodes _ _ Hst' _ _ Ho). }
  assert (forall h, networked_blocks P subj oa w' h =
    match networked_blocks P subj oa w h, delta !! h with
    | Some b, _ => Some b | None, o => o end) as Hnb.
  { intros h. unfold networked_blocks. rewrite El, En. destruct (local_blocks P subj w h) as [b|] eqn:E; [done|].
    destruct (delta !! h) as [b|] eqn:Eb; [|by destruct (a ← oa; _)].
    destruct (a ← oa; site_blocks P (site_address a) (network w) (address_subject a) h) as [b'|] eqn:Er; [|done].
    assert (networked_blocks P subj oa w h = Some b') as Hb' by (unfold networked_blocks; by rewrite E).
    f_equal. destruct (Hd _ _ Eb) as [Hh Ho]. apply (proj1 Hcf).
    - by apply (store_known _ _ Hst' _ _ Ho).
    - apply (store_known _ _ Hst h (mkPersistentNode b')). apply blocks_accessor_Ok. simpl. auto.
    - rewrite Hh. symmetry. by apply Hca. }
  assert (content_addressed (networked_blocks P subj oa w')) as Hca'.
  { intros h b. rewrite Hnb. destruct (networked_blocks P subj oa w h) as [b'|] eqn:E.
    - intros [= <-]. by apply Hca.
    - intros Hb. by apply Hd. }
  assert (forall h node, readable subj oa w' h = Ok node <-> overlay delta (readable subj oa w) h = Ok node) as Heq.
  { intros h node. unfold readable at 1. rewrite blocks_accessor_Ok, Hnb. unfold overlay.
    destruct (delta !! h) as [b|] eqn:Eb.
    - destruct (Hd _ _ Eb) as [Hh Ho]. destruct (networked_blocks P subj oa w h) as [b'|] eqn:E.
      + assert (b' = b) as ->.
        { apply (proj1 Hcf).
          - apply (store_known _ _ Hst h (mkPersistentNode b')). apply blocks_accessor_Ok. simpl. auto.
          - by apply (store_known _ _ Hst' _ _ Ho).
          - rewrite Hh. by apply Hca. }
        split; [intros [[= ->] _]; by destruct node|intros [= <-]; done].
      + split; [intros [[= ->] _]; by destruct node|intros [= <-]; done].
    - unfold readable. rewrite blocks_accessor_Ok. by destruct (networked_blocks P subj oa w h). }
  split; [intros h node; by rewrite Heq|]. split; [done|].
  destruct Hst' as [Hw Hp]. split; intros h node Hn%Heq; [by apply Hw|by eapply Hp].
Qed.

(** Worlds with the same blocks hold the same trees. *)
Lemma readable_blocks subj oa w w' :
  (forall h, networked_blocks P subj oa w' h = networked_blocks P subj oa w h) ->
  (forall h, readable subj oa w' h = readable subj oa w h) /\ extends (readable subj oa w) (readable subj oa w') /\
  (sound_archive subj oa w -> sound_archive subj oa w').
Proof.
  intros Hb. assert (forall h, readable subj oa w' h = readable subj oa w h) as Hr
    by (intros h; unfold readable, blocks_accessor; by rewrite Hb).
  split; [done|split; [intros h node; by rewrite Hr|]].
  intros [Hca [Hw HP]]. split; [intros h b; rewrite Hb; apply Hca|]. split; intros h node; rewrite Hr; [apply Hw|apply HP].
Qed.

(** Reading through a loaded remote reads the archive. *)
Lemma networked_sound subj remote oa w :
  at_remote remote oa w -> sound_archive subj oa w ->
  tree_store (K := K) (V := V) P (networked_accessor subj remote w) /\
  extends (readable subj oa w) (networked_accessor subj remote w) /\
  forall h, networked_accessor subj remote w h = readable subj oa w h.
Proof.
  intros Hrem [Hca [Hw HP]].
  assert (forall h, networked_accessor subj remote w h = readable subj oa w h) as Hacc
    by (intros h; by apply networked_accessor_blocks).
  split; [split; intros h node; rewrite Hacc; [apply Hw|apply HP]|split; [intros h node; by rewrite Hacc|done]].
Qed.

(** A tree that was made, over what an archive reads, is in the archive once its
    delta is imported; whichever blocks were fetched meanwhile. *)
Lemma import_tree subj remote oa reads delta w :
  at_remote remote oa w -> memory_valid (local w) -> sound_archive subj oa w ->
  tree_store (K := K) (V := V) P (overlay delta (networked_accessor subj remote w)) ->
  exists w2 w3, hydrate subj remote reads w = (w2, Ok tt) /\
    import_delta subj delta w2 = (w3, Ok tt) /\
    heap w3 = heap w /\ network w3 = network w /\ memory_valid (local w3) /\
    (forall k, held (local w3) k = held (local w) k) /\ sound_archive subj oa w3 /\
    extends (overlay delta (networked_accessor subj remote w)) (readable subj oa w3).
Proof.
  intros Hrem Hv Hs Hst. destruct (networked_sound subj remote oa w Hrem Hs) as (_ & _ & Hacc). pose proof Hs as [Hca _].
  destruct (hydrate_spec P subj remote oa reads w Hrem Hca) as (w2 & E2 & Hg).
  destruct (readable_blocks subj oa w w2) as (Hr2 & _ & Hs2); [apply Hg|].
  assert (forall h, overlay delta (networked_accessor subj remote w) h = overlay delta (readable subj oa w2) h) as Hov
    by (intros h; unfold overlay; destruct (delta !! h); [done|by rewrite Hacc, Hr2]).
  assert (tree_store (K := K) (V := V) P (overlay delta (readable subj oa w2))) as Hst2
    by (destruct Hst as [A1 A2]; split; intros h node; rewrite <- Hov; [apply A1|apply A2]).
  assert (forall h b, delta !! h = Some b -> blake3 b = h) as Hdigest.
  { intros h b Hb. destruct (store_nodes _ _ Hst2 h (mkPersistentNode b)) as [Hh _]; [|done]. unfold overlay. by rewrite Hb. }
  destruct (import_delta_spec P subj delta w2 Hdigest) as (w3 & E3 & Eh3 & En3 & Hm3 & Hl3 & _).
  destruct (import_overlay subj oa w2 w3 delta (Hs2 Hs) Hst2 En3 Hl3) as [Hx3 Hs3].
  destruct (Hm3 (grown_valid _ _ _ _ _ Hg Hv)) as [Hv3 Hh3].
  exists w2, w3. split; [done|split; [done|]].
  split; [rewrite Eh3; apply Hg|split; [rewrite En3; apply Hg|split; [done|split; [|split; [done|]]]]].
  - intros k. rewrite Hh3. by apply (grown_held _ _ _ _ _ Hg).
  - intros h node. rewrite Hov. apply Hx3.
Qed.
End imports.

(** ** The upstream of a branch *)
Section upstreams.
Context {L N Site : Type} (P : bytes -> Prop) `{Blake3, !Codecs Site, !CodecsLaws Site}.
Context `{!MemoryProvider L, !ArchiveProvider L, !ProviderLaws L P, !ForkProvider Site N, !ForkLaws Site N P}.
Local Abbreviation world := (World L N (cached Site)).
Implicit Types (w : world) (subj : Did) (u : Upstream).

(** The local cell that remembers the last known revision of a remote branch. *)
Definition remote_snapshot subj (remote branch : string) : CellKey :=
  RemoteReference.cell (subject_remote subj remote) ("branch/" +:+ branch +:+ "/revision").
Definition snapshot_keys subj u : CellKey -> Prop := fun k =>
  match u with UpstreamLocal _ _ => False | UpstreamRemote remote branch _ => k = remote_snapshot subj remote branch end.

(** The upstream holds [o]; its blocks are read through [oa]. *)
Definition upstream_at subj u (o : option Revision) (oa : option (RemoteAddress Site)) w : Prop :=
  match u with
  | UpstreamLocal name _ =>
      exists (e : Edition Revision) m, stored_branch P w (subject_branch subj name) (Some e) m /\ o = Some (content e) /\ oa = None
  | UpstreamRemote remote name _ =>
      exists (ea : Edition (RemoteAddress Site)) (s : option (Edition (Edition Revision))) (e : option (Edition Revision)),
        holds_cell P (local w) (RemoteReference.address (subject_remote subj remote)) (Some ea) /\
        holds_cell P (local w) (remote_snapshot subj remote name) s /\
        site_valid P (site_address (content ea)) (network w) /\
        site_holds P (site_address (content ea)) (network w)
          (BranchReference.revision (subject_branch (address_subject (content ea)) name)) e /\
        (forall e', e = Some e' -> known P e') /\ o = content <$> e /\ oa = Some (content ea)
  end.

Lemma site_blocks_unchanged st n n' d h keys :
  site_unchanged_but P st keys n n' -> site_blocks P st n' d h = site_blocks P st n d h.
Proof. intros [_ Hb]. apply Hb. Qed.

(** Loading a remote, opening one of its branches and fetching it. *)
Lemma reach_remote {E} subj remote name ea s e w :
  (forall e', e = Some e' -> known P e') -> memory_valid (local w) ->
  holds_cell P (local w) (RemoteReference.address (subject_remote subj remote)) (Some ea) ->
  holds_cell P (local w) (remote_snapshot subj remote name) s ->
  site_valid P (site_address (content ea)) (network w) ->
  site_holds P (site_address (content ea)) (network w)
    (BranchReference.revision (subject_branch (address_subject (content ea)) name)) e ->
  exists w1 w2 w3 w4 repo r rb s',
    remote_load (subject_remote subj remote) w = (w1, Ok repo) /\
    repository_branch (E := E) repo name w1 = (w2, Ok r) /\ remote_branch_open repo r w2 = (w3, Ok rb) /\
    remote_branch_fetch rb w3 = (w4, Ok (content <$> e)) /\
    open_remote_branch rb repo (content ea) name s' w4 /\
    (forall e', e = Some e' -> content <$> s' = Some e') /\ (e = None -> s' = s) /\
    cell_edition (remote_upstream rb) w4 = e /\ snapshot_key repo name = remote_snapshot subj remote name /\
    holds_cell P (local w4) (remote_snapshot subj remote name) s' /\
    heap w !! cache (snapshot rb) = None /\ heap w !! cache (remote_upstream rb) = None /\
    frame P (fun k => k = remote_snapshot subj remote name) w w4 /\ memory_valid (local w4) /\
    site_valid P (site_address (content ea)) (network w4) /\
    site_unchanged_but P (site_address (content ea)) no_cell (network w) (network w4).
Proof.
  intros Hknown Hv Haddr Hsnap Hsv He.
  destruct (remote_load_spec P _ ea w Hv Haddr) as (w1 & repo & E1 & Esite & Hrepo & F1 & N1).
  assert (memory_valid (local w1)) as Hv1 by (by apply F1).
  destruct (repository_branch_spec (E := E) repo (content ea) name w1 Hrepo) as (w2 & E2 & Eh2 & El2 & En2).
  pose proof (same_frame P no_cell w1 w2 Eh2 El2) as F2.
  assert (memory_valid (local w2)) as Hv2 by (by apply F2).
  assert (open_remote repo (content ea) w2) as Hrepo2 by (by eapply open_remote_frame).
  assert (snapshot_key repo name = remote_snapshot subj remote name) as Ekey
    by (unfold snapshot_key; by rewrite Esite).
  set (r := subject_branch (address_subject (content ea)) name) in *.
  destruct (remote_branch_open_spec P repo (content ea) r s w2 Hv2 Hrepo2)
    as (w3 & rb & E3 & _ & Hf1 & Hf2 & Hopen & F3 & N3).
  { unfold r. rewrite branch_name, Ekey, El2. eapply frame_holds; [exact F1|tauto|done]. }
  unfold r in Hopen. rewrite branch_name in Hopen. fold r in Hopen.
  assert (memory_valid (local w3)) as Hv3 by (by apply F3).
  assert (frame P no_cell w w3) as F03.
  { eapply frame_trans_no; [exact F1|]. by eapply frame_trans_no. }
  destruct (remote_branch_fetch_spec P rb repo (content ea) name s e w3 Hknown Hopen Hv3)
    as (w4 & s' & E4 & Hopen4 & Hs' & Hnone & Hsnap4 & Hc4 & Hv4 & Hsv4 & Hl4 & Hn4 & Hheap).
  { by rewrite N3, En2, N1. }
  { rewrite Ekey. by eapply frame_holds; [exact F03|tauto|]. }
  { by rewrite N3, En2, N1. }
  assert (forall id, heap w2 !! id = None -> heap w !! id = None) as Hfresh.
  { intros id Hid. destruct (heap w !! id) as [x|] eqn:Ex; [|done]. apply F1 in Ex. rewrite <- Eh2 in Ex. congruence. }
  exists w1, w2, w3, w4, repo, r, rb, s'.
  split; [done|split; [done|split; [done|split; [done|split; [done|split; [done|split; [done|split; [done|]]]]]]]].
  split; [done|split; [by rewrite <- Ekey|split; [by apply Hfresh|split; [by apply Hfresh|split; [|split; [done|split; [done|]]]]]]].
  - split; [|eapply unchanged_but_trans; [exact (frame_local _ _ _ _ F03)|exact Hl4|]|done].
    + intros id x Hx. rewrite Hheap; [by apply F03| |]; intros ->.
      * by rewrite (Hfresh _ Hf1) in Hx.
      * by rewrite (Hfresh _ Hf2) in Hx.
    + intros k [[]|Hk]. simpl. by rewrite <- Ekey.
  - rewrite N3, En2, N1 in Hn4. exact Hn4.
Qed.

Lemma resolve_upstream_spec self subj u o oa w :
  branch_of (reference self) = subj -> memory_valid (local w) -> upstream_at subj u o oa w ->
  exists w' remote, resolve_upstream self u w = (w', Ok (o, remote)) /\ at_remote remote oa w' /\
    frame P (snapshot_keys subj u) w w' /\ memory_valid (local w') /\
    (forall h, networked_blocks P subj oa w' h = networked_blocks P subj oa w h).
Proof.
  intros Hsubj Hv Hu. destruct u as [name t|remote name t]; cbn [resolve_upstream upstream_at] in *.
  - destruct Hu as (e & m & Hs & -> & ->).
    destruct (branch_load_spec P _ e m w Hv Hs) as (w' & b & E & Ho & F & En & _). exists w', None.
    assert (memory_valid (local w')) as Hv' by (by apply F).
    split_and!; [| done | | done |].
    + rewrite Hsubj, (stateful_bind_Ok _ _ _ _ _ (or_err_Ok _ _ _ _ _ E)), asks_bind.
      by rewrite (open_branch_revision _ _ _ _ _ Ho).
    + exact F.
    + intros h. unfold networked_blocks, local_blocks. rewrite En. destruct F as [_ [_ Hb] _]. by rewrite Hb.
  - destruct Hu as (ea & s & e & Haddr & Hsnap & Hsv & He & Hknown & -> & ->).
    destruct (reach_remote (E := PullError) subj remote name ea s e w Hknown Hv Haddr Hsnap Hsv He)
      as (w1 & w2 & w3 & w4 & repo & r & rb & s' & E1 & E2 & E3 & E4 & Hopen & _ & _ & _ & _ & _ & _ & _ & F & Hv4 & _ & Hn).
    exists w4, (Some repo). split; [|split; [|split; [exact F|split; [done|]]]].
    + rewrite Hsubj, (stateful_bind_Ok _ _ _ _ _ (or_err_Ok _ _ _ _ _ E1)), (stateful_bind_Ok _ _ _ _ _ E2).
      rewrite (stateful_bind_Ok _ _ _ _ _ (or_err_Ok _ _ _ _ _ E3)).
      by rewrite (stateful_bind_Ok _ _ _ _ _ (or_err_Ok _ _ _ _ _ E4)).
    + apply (open_remote_repository _ _ _ _ _ _ Hopen).
    + intros h. unfold networked_blocks, local_blocks. destruct (frame_local _ _ _ _ F) as [_ Hb]. rewrite Hb.
      cbn [mbind option_bind]. by rewrite (site_blocks_unchanged _ _ _ _ _ _ Hn).
Qed.
End upstreams.

(** ** Pulling *)
Section pulling.
Context {L N Site K V : Type} (P : bytes -> Prop) `{Blake3, !Codecs Site, !CodecsLaws Site}.
Context `{!MemoryProvider L, !ArchiveProvider L, !ProviderLaws L P, !ForkProvider Site N, !ForkLaws Site N P}.
Context `{Key K, NodeCodec K V} {D : Distribution} `{EqDecision V, !Identity} (Hcf : collision_free P).
Context (Htotal : codec_total (K := K) (V := V)) (R : nat).
Context (value_to_bytes : V -> option bytes) (value_bytes : V -> bytes).
Context (Hvalue : forall v, value_to_bytes v = Some (value_bytes v)).
Context (fuel walk_fuel : nat) (rank_le : forall b, (rank b <= R)%nat) (enough : (S R < fuel)%nat).
Context (shallow : (S R <= MAXIMUM_TREE_DEPTH)%nat).
Local Abbreviation world := (World L N (cached Site)).
Implicit Types (w : world) (self : Branch) (es : list (Entry K V)).
Local Abbreviation merged := (merged_entries value_bytes).

(** The tree of a revision that may not be there. *)
Definition tree_of (o : option Revision) : TreeReference := match o with Some r => tree r | None => default_tree end.
Definition revision_holds subj oa w es (t : TreeReference) : Prop := holds_tree R (readable P subj oa w) es t.

(** The revision a pull leaves: the upstream's when the merge is the upstream,
    or when there was none; otherwise a merge of both. *)
Definition pulled (local : option Revision) (up : Revision) (t : TreeReference) (by_ : Did * Did) : Revision :=
  if decide (t = tree up) then up
  else match local with None => up | Some l => Revision.merge l up t by_.1 by_.2 end.

Lemma cell_keys_apart subj name u k :
  k = BranchReference.revision (subject_branch subj name) \/ k = BranchReference.upstream (subject_branch subj name) ->
  ~ snapshot_keys subj u k.
Proof. intros Hk Hs. destruct u; [done|]. simpl in Hs. subst k. destruct Hk as [Hk|Hk]; injection Hk; done. Qed.

Lemma grown_open_branch w w' self r o u :
  heap w' = heap w -> open_branch self r o u w -> open_branch self r o u w'.
Proof.
  intros Eh [E1 E2 E3 E4 A1 A2 C1 C2]. by split; unfold allocated, cell_edition in *; rewrite ?Eh.
Qed.

(** What a prepared pull leaves. *)
Record prepared self subj name (o : option (Edition Revision)) (eu : Edition Upstream) oa w es (t : TreeReference) w' : Prop := {
  prepared_branch : open_branch self (subject_branch subj name) o (Some eu) w';
  prepared_valid : memory_valid (local w');
  prepared_held k : ~ snapshot_keys subj (content eu) k -> held (local w') k = held (local w) k;
  prepared_sound : sound_archive (K := K) (V := V) P subj oa w';
  prepared_tree : revision_holds subj oa w' es t
}.

Lemma prepare_spec self subj name reads o eu up oa by_ B Lo U w :
  identify = Ok by_ -> memory_valid (local w) -> open_branch self (subject_branch subj name) o (Some eu) w ->
  upstream_at P subj (content eu) (Some up) oa w -> Upstream.tree (content eu) <> tree up ->
  sound_archive (K := K) (V := V) P subj oa w ->
  revision_holds subj oa w B (Upstream.tree (content eu)) ->
  revision_holds subj oa w Lo (tree_of (content <$> o)) -> revision_holds subj oa w U (tree up) ->
  (tree_cost R B + tree_cost R Lo < walk_fuel)%nat -> serializes_in P R (merged B Lo U) ->
  exists w' root,
    prepare (K := K) (V := V) value_to_bytes fuel walk_fuel self reads w
      = (w', Ok (Merged self (mkCheckpoint (revision self) (version <$> o))
          (pulled (content <$> o) up (mkTreeReference root) by_) (tree up))) /\
    prepared self subj name o eu oa w (merged B Lo U) (mkTreeReference root) w' /\
    (B = Lo -> mkTreeReference root = tree up).
Proof.
  intros Hid Hv Ho Hup Hmoved Hsound HB HL HU Hwalk Hser.
  assert (branch_of (reference self) = subj) as Hsubj by (by rewrite (open_reference _ _ _ _ _ Ho)).
  destruct (resolve_upstream_spec P self subj (content eu) (Some up) oa w Hsubj Hv Hup)
    as (w1 & remote & E1 & Hrem & F1 & Hv1 & Hnb1).
  assert (open_branch self (subject_branch subj name) o (Some eu) w1) as Ho1 by (by eapply open_branch_frame).
  destruct (readable_blocks P subj oa w w1 Hnb1) as (_ & Hx1 & Hs1). specialize (Hs1 Hsound).
  destruct (networked_sound P subj remote oa w1 Hrem Hs1) as (Hst & Hx2 & _).
  assert (extends (readable P subj oa w) (networked_accessor subj remote w1)) as Hx by (intros h node Hn; by apply Hx2, Hx1).
  destruct (rebase_spec P R Hcf Htotal value_to_bytes value_bytes Hvalue fuel walk_fuel rank_le enough shallow
    (networked_accessor subj remote w1) B Lo U (Upstream.tree (content eu)) (tree_of (content <$> o)) (tree up))
    as (root & delta & E3 & Hst3 & Ht3 & Hff); [done|by eapply holds_tree_extends..|done|done|].
  destruct (import_tree P Hcf subj remote oa reads delta w1 Hrem Hv1 Hs1 Hst3)
    as (w2 & w3 & E2 & E4 & Eh3 & En3 & Hv3 & Hh3 & Hs3 & Hx3).
  exists w3, root. split_and!.
  - unfold prepare. rewrite asks_bind, (open_branch_upstream _ _ _ _ _ Ho), Hsubj. cbn [fmap option_fmap option_map].
    rewrite (stateful_bind_Ok _ _ _ _ _ E1), asks_bind, (open_branch_upstream _ _ _ _ _ Ho1).
    cbn [fmap option_fmap option_map]. rewrite decide_False by done. rewrite !asks_bind.
    rewrite (stateful_bind_Ok _ _ _ _ _ (attempt_Ok (F := PullError) _ _ _ _ E2)), (open_branch_revision _ _ _ _ _ Ho1).
    assert (match content <$> o with Some r => tree_hash (tree r) | None => EMPTY_TREE_HASH end
      = tree_hash (tree_of (content <$> o))) as -> by (by destruct o).
    rewrite E3. cbn [map_err]. rewrite lift_bind. cbv beta iota.
    rewrite (stateful_bind_Ok _ _ _ _ _ (or_err_Ok _ _ _ _ _ E4)).
    assert (cell_checkpoint (revision self) w1 = mkCheckpoint (revision self) (version <$> o)) as ->.
    { unfold cell_checkpoint, cell_version. by rewrite (open_revision _ _ _ _ _ Ho1). }
    unfold pulled. case_decide; [done|]. destruct o as [e|]; [|done]. cbn [fmap option_fmap option_map].
    rewrite Hid. by destruct by_.
  - split; try done.
    + by eapply grown_open_branch; [exact Eh3|].
    + intros k Hk. rewrite Hh3. by apply (frame_local _ _ _ _ F1).
    + by eapply holds_tree_extends; [exact Hx3|].
  - intros E. destruct (Hff E) as [-> _]. by destruct (tree up).
Qed.

Lemma same_blocks subj oa w w' :
  network w' = network w -> (forall d c h, stored_blocks (local w') d c h = stored_blocks (local w) d c h) ->
  (forall es t, revision_holds subj oa w es t -> revision_holds subj oa w' es t) /\
  (sound_archive (K := K) (V := V) P subj oa w -> sound_archive (K := K) (V := V) P subj oa w').
Proof.
  intros En Hb. destruct (readable_blocks (K := K) (V := V) P subj oa w w') as (_ & Hx & Hs).
  - intros h. unfold networked_blocks, local_blocks. by rewrite Hb, En.
  - split; [|exact Hs]. intros es t. by apply holds_tree_extends.
Qed.

(** A handle and what is stored agree on a branch. *)
Definition synced_branch self subj name o (u : option (Edition Upstream)) w : Prop :=
  open_branch self (subject_branch subj name) o u w /\ stored_branch P w (subject_branch subj name) o u.

Lemma branch_keys_apart subj name :
  BranchReference.revision (subject_branch subj name) <> BranchReference.upstream (subject_branch subj name).
Proof. done. Qed.

(** Publishing the head, or the upstream marker, of a synced branch. *)
Lemma land_head self subj name o u new w :
  known P new -> memory_valid (local w) -> synced_branch self subj name o u w ->
  exists w' v, publish_when (S := L) (revision self) new (version <$> o) w = (w', Ok tt) /\
    synced_branch self subj name (Some (mkEdition new v)) u w' /\ memory_valid (local w') /\
    unchanged_but P (fun k => k = BranchReference.revision (subject_branch subj name)) (local w) (local w') /\
    network w' = network w.
Proof.
  intros Hn Hv [[E1 E2 E3 E4 A1 A2 C1 C2] [S1 S2]]. rewrite <- E2 in S1.
  destruct (publish_cell P (revision self) new o w Hn Hv A1 S1)
    as (w' & v & E & Hv' & Hs & Ec & Ha & Hu & Nn & _ & Hheap).
  exists w', v. split; [done|split; [split|split; [done|split; [by rewrite <- E2|done]]]].
  - split; try done.
    + destruct A2 as [x Hx]. exists x. by rewrite Hheap.
    + unfold cell_edition in *. by rewrite Hheap.
  - rewrite E2 in Hs. split; [exact Hs|]. eapply holds_cell_unchanged; [exact Hu| |exact S2].
    rewrite E2. intros E'. by apply (branch_keys_apart subj name).
Qed.
Lemma land_marker self subj name o eu u w :
  known P u -> memory_valid (local w) -> synced_branch self subj name o (Some eu) w ->
  exists w' v, publish_when (S := L) (upstream self) u (version <$> Some eu) w = (w', Ok tt) /\
    synced_branch self subj name o (Some (mkEdition u v)) w' /\ memory_valid (local w') /\
    unchanged_but P (fun k => k = BranchReference.upstream (subject_branch subj name)) (local w) (local w') /\
    network w' = network w.
Proof.
  intros Hn Hv [[E1 E2 E3 E4 A1 A2 C1 C2] [S1 S2]]. rewrite <- E3 in S2.
  destruct (publish_cell P (upstream self) u (Some eu) w Hn Hv A2 S2)
    as (w' & v & E & Hv' & Hs & Ec & Ha & Hu & Nn & _ & Hheap).
  exists w', v. split; [done|split; [split|split; [done|split; [by rewrite <- E3|done]]]].
  - split; try done.
    + destruct A1 as [x Hx]. exists x. by rewrite Hheap.
    + unfold cell_edition in *. by rewrite Hheap.
  - rewrite E3 in Hs. split; [|exact Hs]. eapply holds_cell_unchanged; [exact Hu| |exact S1].
    rewrite E3. apply branch_keys_apart.
Qed.
Lemma synced_versions self subj name o u w :
  synced_branch self subj name o u w ->
  branch_revision self w = content <$> o /\ branch_upstream self w = content <$> u /\
  cell_checkpoint (revision self) w = mkCheckpoint (revision self) (version <$> o) /\
  cell_checkpoint (upstream self) w = mkCheckpoint (upstream self) (version <$> u) /\
  cell_version (upstream self) w = version <$> u.
Proof.
  intros [Ho _]. rewrite (open_branch_revision _ _ _ _ _ Ho), (open_branch_upstream _ _ _ _ _ Ho).
  unfold cell_checkpoint, cell_version. by rewrite (open_revision _ _ _ _ _ Ho), (open_upstream _ _ _ _ _ Ho).
Qed.

(** Landing a prepared pull on a head and a marker that have not moved. *)
Lemma pull_commit_spec self subj name o eu new t w :
  known P new -> known P (Upstream.with_tree (content eu) t) -> memory_valid (local w) -> synced_branch self subj name o (Some eu) w ->
  exists w' v v', pull_commit (Merged self (mkCheckpoint (revision self) (version <$> o)) new t) w = (w', Ok (Some new)) /\
    synced_branch self subj name (Some (mkEdition new v)) (Some (mkEdition (Upstream.with_tree (content eu) t) v')) w' /\
    memory_valid (local w') /\ network w' = network w /\
    (forall d c h, stored_blocks (local w') d c h = stored_blocks (local w) d c h).
Proof.
  intros Hn Hm Hv Hs.
  destruct (land_head self subj name o (Some eu) new w Hn Hv Hs) as (w1 & v & Ep & Hs1 & Hv1 & Hu1 & N1).
  destruct (land_marker self subj name _ eu (Upstream.with_tree (content eu) t) w1 Hm Hv1 Hs1)
    as (w2 & v' & Ep2 & Hs2 & Hv2 & Hu2 & N2).
  destruct (synced_versions _ _ _ _ _ _ Hs1) as (_ & Eu & _ & Ec & _).
  exists w2, v, v'. split; [|split; [done|split; [done|split; [congruence|]]]].
  - unfold pull_commit. unfold checkpoint_publish at 1. cbn [checkpoint_cell checkpoint_expected].
    rewrite (stateful_bind_Ok _ _ _ _ _ (or_err_Ok _ _ _ _ _ Ep)), asks_bind, Eu. cbn [fmap option_fmap option_map].
    rewrite asks_bind, Ec. unfold checkpoint_publish. cbn [checkpoint_cell checkpoint_expected].
    assert (attempt (F := PullError) (publish_when (S := L) (upstream self) (Upstream.with_tree (content eu) t) (version <$> Some eu)) w1
      = (w2, Ok (Ok tt))) as Ea by (unfold attempt; by rewrite Ep2).
    by rewrite (stateful_bind_Ok _ _ _ _ _ Ea).
  - intros d c h. destruct Hu2 as [_ B2 _], Hu1 as [_ B1 _]. by rewrite B2, B1.
Qed.

(** A branch, its upstream and the tree of the last sync: [B], [Lo] and [U] are
    the entries they hold, and the upstream has moved since. *)
Record diverged self subj name o eu up oa B Lo U w : Prop := {
  diverged_valid : memory_valid (local w);
  diverged_branch : synced_branch self subj name o (Some eu) w;
  diverged_upstream : upstream_at P subj (content eu) (Some up) oa w;
  diverged_moved : Upstream.tree (content eu) <> tree up;
  diverged_sound : sound_archive (K := K) (V := V) P subj oa w;
  diverged_base : revision_holds subj oa w B (Upstream.tree (content eu));
  diverged_local : revision_holds subj oa w Lo (tree_of (content <$> o));
  diverged_theirs : revision_holds subj oa w U (tree up);
  diverged_fresh : o = None -> B = [];
  diverged_cost : (tree_cost R B + tree_cost R Lo < walk_fuel)%nat;
  diverged_serializes : serializes_in P R (merged B Lo U);
  diverged_revision by_ root : identify = Ok by_ -> root_of R (merged B Lo U) root ->
    known P (pulled (content <$> o) up (mkTreeReference root) by_);
  diverged_marker : known P (Upstream.with_tree (content eu) (tree up))
}.

Lemma empty_tree_holds acc es : holds_tree R acc es default_tree -> es = [].
Proof.
  intros (_ & o & Ho & Hr).
  assert (load acc (Unloaded (tree_hash default_tree) : TransientRoot K V) = Ok None) as El by done.
  rewrite El in Ho. by injection Ho as <-.
Qed.

Lemma pull_spec self subj name reads o eu up oa by_ B Lo U w :
  identify = Ok by_ -> diverged self subj name o eu up oa B Lo U w ->
  exists w' r v v', pull (K := K) (V := V) value_to_bytes fuel walk_fuel self reads w = (w', Ok (Some r)) /\
    synced_branch self subj name (Some (mkEdition r v)) (Some (mkEdition (Upstream.with_tree (content eu) (tree up)) v')) w' /\
    memory_valid (local w') /\ sound_archive (K := K) (V := V) P subj oa w' /\
    revision_holds subj oa w' (merged B Lo U) (tree r) /\
    r = pulled (content <$> o) up (tree r) by_ /\ (B = Lo -> r = up).
Proof.
  intros Hid [Hv [Ho Hstored] Hup Hmoved Hsound HB HL HU Hfresh Hwalk Hser Hnew Hmark].
  destruct (prepare_spec self subj name reads o eu up oa by_ B Lo U w Hid Hv Ho Hup Hmoved Hsound HB HL HU Hwalk Hser)
    as (w1 & root & E1 & [Po Pv Ph Ps Pt] & Hff).
  set (new := pulled (content <$> o) up (mkTreeReference root) by_) in *.
  assert (tree new = mkTreeReference root) as Et.
  { unfold new, pulled. case_decide as Ed; [done|]. destruct o as [e|]; [done|]. exfalso. apply Ed, Hff.
    rewrite (Hfresh eq_refl). symmetry. by eapply empty_tree_holds. }
  assert (known P new) as Hknown.
  { apply Hnew; [done|]. destruct Ps as [_ Hst]. exact (holds_tree_root P R _ _ _ Hst Pt). }
  assert (stored_branch P w1 (subject_branch subj name) o (Some eu)) as Hs1.
  { destruct Hstored as [S1 S2]. split; [destruct o as [e|]; cbn [holds_cell] in *|cbn [holds_cell] in *];
      rewrite Ph by (eapply cell_keys_apart; eauto); done. }
  destruct (pull_commit_spec self subj name o eu new (tree up) w1 Hknown Hmark Pv (conj Po Hs1))
    as (w2 & v & v' & E2 & Hsync & Hv2 & N2 & B2).
  exists w2, new, v, v'. split; [|split; [exact Hsync|split; [done|split; [|split; [|split]]]]].
  - unfold pull. by rewrite (stateful_bind_Ok _ _ _ _ _ E1).
  - by apply (same_blocks subj oa w1 w2 N2 B2).
  - rewrite Et. by apply (same_blocks subj oa w1 w2 N2 B2).
  - by rewrite Et.
  - intros E. unfold new, pulled. rewrite decide_True; [done|]. by apply Hff.
Qed.

(** C4: A pull merges.  From a branch whose handle has seen what is stored, with
    an upstream (local or remote) that moved since the last sync, a pull
    returns a revision, and the branch, its handle and the stored cells, is then
    at that revision and its upstream marker at the upstream's tree.  The tree of
    the revision is readable from the archive and holds, for every key, the
    three-way merge of the last sync, the branch and the upstream; whichever
    blocks were fetched along the way.  Without local changes the revision is
    the upstream's own. *)
Theorem pull_merges self subj name reads o eu up oa by_ B Lo U w :
  identify = Ok by_ -> diverged self subj name o eu up oa B Lo U w ->
  exists w' r v v' es, pull (K := K) (V := V) value_to_bytes fuel walk_fuel self reads w = (w', Ok (Some r)) /\
    synced_branch self subj name (Some (mkEdition r v)) (Some (mkEdition (Upstream.with_tree (content eu) (tree up)) v')) w' /\
    revision_holds subj oa w' es (tree r) /\
    (forall k, lookup_entry k es = merge3 value_bytes (lookup_entry k B) (lookup_entry k Lo) (lookup_entry k U)) /\
    r = pulled (content <$> o) up (tree r) by_ /\ (B = Lo -> r = up).
Proof.
  intros Hid Hd. destruct (pull_spec self subj name reads o eu up oa by_ B Lo U w Hid Hd)
    as (w' & r & v & v' & E & Hsync & _ & _ & Ht & Er & Hff).
  exists w', r, v, v', (merged B Lo U). split; [done|split; [done|split; [done|split; [|done]]]].
  intros k. apply lookup_rebase; by eapply holds_tree_sorted; apply Hd.
Qed.
End pulling.
