(* ===== verification/PushCorrect.v ===== *)
(** Pushing: what a push uploads is enough, and it only moves an upstream that is
    where the last sync left it. *)
From S2P Require Import Prelude Common Nodes SortedEntries Forest Walker TransientTree Instances Repr Spine Fuse Edits Batch Persist Read Access Integrate Frontier Differential DifferentialCorrect Rebase Artifact BlobIndex Providers Cells Revisions Sync SyncBase SyncCorrect.

(** ** The remote side *)
Section remote.
Context {L N Site : Type} (P : bytes -> Prop) `{Blake3, !Codecs Site, !CodecsLaws Site}.
Context `{!MemoryProvider L, !ArchiveProvider L, !ProviderLaws L P, !ForkProvider Site N, !ForkLaws Site N P}.
Local Abbreviation world := (World L N (cached Site)).
Implicit Types (w : world) (repo : RemoteRepository Site) (a : RemoteAddress Site) (self : RemoteBranch Site).

(** Only blocks were added, at one site. *)
Record uploaded a (bs : list bytes) w w' : Prop := {
  uploaded_heap : heap w' = heap w;
  uploaded_local : local w' = local w;
  uploaded_valid : site_valid P (site_address a) (network w) -> site_valid P (site_address a) (network w');
  uploaded_holds {T} `{!CellCodec T} key (o : option (Edition T)) :
    site_valid P (site_address a) (network w) ->
    site_holds P (site_address a) (network w) key o -> site_holds P (site_address a) (network w') key o;
  uploaded_blocks h : site_blocks P (site_address a) (network w') (address_subject a) h
    = foldl add_block (site_blocks P (site_address a) (network w) (address_subject a)) bs h
}.

Lemma remote_put_spec repo a b w :
  open_remote repo a w -> exists w', remote_put repo b w = (w', Ok tt) /\ uploaded a [b] w w'.
Proof.
  intros Hr. destruct (repository_address_spec (E := ArchiveError) repo a w Hr) as (w0 & E0 & Eh0 & El0 & En0).
  set (fm := fork_memory (site_address a)). set (fa := fork_archive (site_address a)).
  destruct (@put_stored N _ fa (@provider_archive N P _ fm fa (fork_laws (site_address a)))
    (address_subject a) INDEX b (network w0)) as (n & Ep & Hs).
  assert (forall k, site_valid P (site_address a) (network w0) ->
    site_valid P (site_address a) n /\ site_held (P := P) (site_address a) n k = site_held (P := P) (site_address a) (network w0) k) as Hm.
  { intros k Hv. pose proof (@put_memory N P _ fm fa (fork_laws (site_address a)) (address_subject a) INDEX b (network w0) Hv) as Hm.
    rewrite Ep in Hm. split; [apply Hm|apply Hm]. }
  exists (set_part n w0). split.
  - unfold remote_put. rewrite (stateful_bind_Ok _ _ _ _ _ E0). unfold perform. fold fm fa.
    change (part w0) with (network w0). by rewrite Ep.
  - split; try done; cbn [heap local network set_part network_part].
    + rewrite <- En0. intros Hv. by apply (Hm (mkCellKey "" "" "")).
    + intros T codec key o. rewrite <- En0. intros Hv Ho. unfold site_holds, holds_cell in *.
      destruct (Hm key Hv) as [_ Eq]. unfold site_held in Eq. rewrite Eq. exact Ho.
    + intros h. unfold site_blocks. rewrite Hs, En0. by rewrite decide_True.
Qed.

Lemma uploaded_trans a bs1 bs2 w1 w2 w3 :
  uploaded a bs1 w1 w2 -> uploaded a bs2 w2 w3 -> uploaded a (bs1 ++ bs2) w1 w3.
Proof.
  intros [H1 L1 V1 K1 B1] [H2 L2 V2 K2 B2]. split; [congruence|congruence|eauto| |].
  - intros T codec key o Hv Ho. apply K2; eauto.
  - intros h. rewrite B2, foldl_app.
    generalize (foldl add_block (site_blocks P (site_address a) (network w1) (address_subject a)) bs1) B1.
    intros f Hf. rewrite !add_blocks_lookup. by rewrite Hf.
Qed.
Lemma uploaded_remote a a' bs repo w w' : uploaded a bs w w' -> open_remote repo a' w -> open_remote repo a' w'.
Proof. intros [Hh _ _ _ _]. unfold open_remote, allocated, cell_content, cell_edition. by rewrite Hh. Qed.
Lemma uploaded_nil a w w' :
  heap w' = heap w -> local w' = local w -> network w' = network w -> uploaded a [] w w'.
Proof. intros Eh El En. split; rewrite ?En; done. Qed.

Lemma upload_spec repo a nodes : forall w,
  open_remote repo a w ->
  exists w', upload repo (Ok <$> nodes) w = (w', Ok tt) /\ uploaded a (buffer <$> nodes) w w'.
Proof.
  induction nodes as [|node nodes IH]; intros w Hr; [exists w; split; [done|by apply uploaded_nil]|].
  destruct (remote_put_spec repo a (buffer node) w Hr) as (w1 & E1 & U1).
  destruct (IH w1) as (w2 & E2 & U2); [by eapply uploaded_remote|].
  exists w2. split; [|exact (uploaded_trans a [buffer node] _ _ _ _ U1 U2)].
  csimpl. cbn [upload map_err]. rewrite lift_bind. by rewrite (stateful_bind_Ok _ _ _ _ _ (or_err_Ok _ _ _ _ _ E1)).
Qed.

(** Publishing to the remote. *)
Lemma fork_publish_spec {T} `{!Cached (cached Site) T, !CellCodec T, !CellCodecLaws T} (st : Site) (c : Cell T) x o w :
  known P x -> site_valid P st (network w) -> site_holds P st (network w) (capability c) o ->
  cell_version c w = version <$> o ->
  exists n v, fork_publish st c x w = (cache_set c (Some (mkEdition x v)) (set_part n w), Ok tt) /\
    site_issues P st v x /\ site_valid P st n /\
    site_holds P st n (capability c) (Some (mkEdition x v)) /\
    site_unchanged_but P st (fun k => k = capability c) (network w) n.
Proof.
  intros Hx Hv Ho Hc.
  pose proof (@publish_when_current L N (cached Site) T N P _ _ _ network_part _ (fork_memory st) (fork_archive st)
    (fork_laws st) c x (version <$> o) o w Hx Hv Ho eq_refl) as (n & v & E & Hi & Hn & Hh & Hu).
  exists n, v. split; [|split; [exact Hi|split; [exact Hn|split; [exact Hh|exact Hu]]]].
  unfold fork_publish, cell_publish. rewrite asks_bind, Hc. exact E.
Qed.

Lemma remote_branch_publish_spec self repo a name s o (r : Revision) w :
  known P r -> (forall v, site_issues P (site_address a) v r -> known P (mkEdition r v)) ->
  open_remote_branch self repo a name s w -> cell_edition (remote_upstream self) w = o ->
  memory_valid (local w) -> site_valid P (site_address a) (network w) ->
  holds_cell P (local w) (snapshot_key repo name) s ->
  site_holds P (site_address a) (network w) (BranchReference.revision (subject_branch (address_subject a) name)) o ->
  exists w' v, remote_branch_publish self r w = (w', Ok tt) /\
    site_holds P (site_address a) (network w') (BranchReference.revision (subject_branch (address_subject a) name))
      (Some (mkEdition r v)) /\
    memory_valid (local w') /\ site_valid P (site_address a) (network w') /\
    unchanged_but P (fun k => k = snapshot_key repo name) (local w) (local w') /\
    site_unchanged_but P (site_address a)
      (fun k => k = BranchReference.revision (subject_branch (address_subject a) name)) (network w) (network w') /\
    (forall id, id <> cache (snapshot self) -> id <> cache (remote_upstream self) -> heap w' !! id = heap w !! id).
Proof.
  intros Hr He Hopen Hc Hv Hsv Hs Ho. pose proof Hopen as [O1 O2 O3 O4 O5 O6 O7 O8 O9].
  destruct (repository_address_spec (E := PublishRemoteBranchError) repo a w O2) as (w0 & E0 & Eh0 & El0 & En0).
  rewrite <- En0 in Hsv, Ho. rewrite <- O4 in Ho.
  assert (cell_version (remote_upstream self) w0 = version <$> o) as Hc0.
  { unfold cell_version, cell_edition in *. by rewrite Eh0, Hc. }
  destruct (fork_publish_spec (site_address a) (remote_upstream self) r o w0 Hr Hsv Ho Hc0)
    as (n & v & E1 & Hi & Hn & Hh & Hun).
  set (w1 := cache_set (remote_upstream self) (Some (mkEdition r v)) (set_part n w0)) in *.
  assert (cell_edition (remote_upstream self) w1 = Some (mkEdition r v)) as Ec by apply cache_edition_set.
  assert (cell_edition (snapshot self) w1 = s) as Es.
  { unfold w1. rewrite cache_edition_set_ne by congruence. unfold cell_edition in *. cbn [heap set_part network_part].
    by rewrite Eh0. }
  assert (allocated (snapshot self) w1) as Ha.
  { destruct O7 as [x Hx]. exists x. unfold w1, cache_set. simpl. rewrite lookup_insert_ne by congruence. by rewrite Eh0. }
  assert (memory_valid (local w1)) as Hv1 by (simpl; by rewrite El0).
  assert (holds_cell P (local w1) (capability (snapshot self)) s) as Hs1 by (rewrite O3; simpl; by rewrite El0).
  destruct (publish_cell P (snapshot self) (mkEdition r v) s w1 (He v Hi) Hv1 Ha Hs1)
    as (w2 & v2 & E2 & Hv2 & Hs2 & Ec2 & Ha2 & Hu2 & N2 & R2 & Hheap).
  exists w2, v. split; [|split; [|split; [done|split; [|split; [|split]]]]].
  - unfold remote_branch_publish. rewrite O1, (stateful_bind_Ok _ _ _ _ _ E0).
    rewrite (stateful_bind_Ok _ _ _ _ _ (or_err_Ok _ _ _ _ _ E1)). fold w1. rewrite asks_bind, Ec.
    apply or_err_Ok. unfold cell_publish. rewrite asks_bind.
    assert (cell_version (snapshot self) w1 = version <$> s) as -> by (unfold cell_version; by rewrite Es). exact E2.
  - rewrite N2, <- O4. exact Hh.
  - rewrite N2. exact Hn.
  - rewrite <- O3, <- El0. exact Hu2.
  - rewrite N2, <- En0, <- O4. exact Hun.
  - intros id H1 H2. rewrite Hheap by done. unfold w1, cache_set. simpl. rewrite lookup_insert_ne by done. by rewrite Eh0.
Qed.
End remote.

(** ** Blobs *)

(** The blobs of a site. *)
Definition site_blobs {N Site P} `{ForkLaws Site N P} (a : Site) (n : N) (d : Did) (h : Blake3Hash) : option bytes :=
  let _ := fork_memory a in let _ := fork_archive a in let _ := fork_laws (P := P) a in stored_blobs n d h.

(** What the effects on blobs promise: a local blob is read in chunks and nothing
    changes; an import of bytes that have the declared digest stores them under
    it, unless the site has something there, and changes nothing else. *)
Class BlobLaws (L N Site : Type) (P : bytes -> Prop)
    `{Blake3, !MemoryProvider L, !ArchiveProvider L, !ProviderLaws L P, !ForkProvider Site N, !ForkLaws Site N P,
      !BlobProvider L N Site} := {
  blob_read_law : forall s d h b, stored_blobs s d h = Some b ->
    exists chunks, blob_read (N := N) (Site := Site) d h s = (s, Ok chunks) /\ concat chunks = b;
  blob_import_law : forall a d h size chunks n, blake3 (concat chunks) = h ->
    exists n', fork_blob_import (L := L) a d h size chunks n = (n', Ok tt) /\
      (site_valid P a n -> site_valid P a n' /\ forall k, site_held (P := P) a n' k = site_held (P := P) a n k) /\
      (forall d' h', site_blocks P a n' d' h' = site_blocks P a n d' h') /\
      (forall d' h', site_blobs (P := P) a n' d' h' =
        if decide (d' = d /\ h' = h) then Some (default (concat chunks) (site_blobs (P := P) a n d h))
        else site_blobs (P := P) a n d' h')
}.

Section blobs.
Context {L N Site : Type} (P : bytes -> Prop) `{Blake3, !Codecs Site, !CodecsLaws Site}.
Context `{!MemoryProvider L, !ArchiveProvider L, !ProviderLaws L P, !ForkProvider Site N, !ForkLaws Site N P}.
Context `{!BlobProvider L N Site, !BlobLaws L N Site P}.
Local Abbreviation world := (World L N (cached Site)).
Implicit Types (w : world) (a : RemoteAddress Site) (self : Branch).

(** Every added blob is in the index and in the local archive. *)
Definition shippable self (record : Blake3Hash -> outcome DialogArtifactsError (option BlobRecord.t))
    (changes : list BlobChange) w : Prop :=
  forall h, BlobAdded h ∈ changes -> (exists r, record h = Ok (Some r)) /\
    exists b, stored_blobs (local w) (branch_of (reference self)) h = Some b /\ blake3 b = h.

(** Only blobs differ. *)
Definition same_tree_data a (n n' : N) : Prop :=
  (forall k, site_held (P := P) (site_address a) n' k = site_held (P := P) (site_address a) n k) /\
  forall d h, site_blocks P (site_address a) n' d h = site_blocks P (site_address a) n d h.

Lemma ship_blobs_spec self a record changes : forall w,
  site_valid P (site_address a) (network w) -> shippable self record changes w ->
  exists w', ship_blobs self a record (Ok <$> changes) w = (w', Ok tt) /\
    heap w' = heap w /\ local w' = local w /\ site_valid P (site_address a) (network w') /\
    same_tree_data a (network w) (network w') /\
    (forall h, BlobAdded h ∈ changes -> is_Some (site_blobs (P := P) (site_address a) (network w') (address_subject a) h)) /\
    (forall d h, is_Some (site_blobs (P := P) (site_address a) (network w) d h) ->
       is_Some (site_blobs (P := P) (site_address a) (network w') d h)).
Proof.
  induction changes as [|c changes IH]; intros w Hv Hship.
  { exists w. split_and!; try done. intros h Hh. by apply elem_of_nil in Hh. }
  assert (exists w1, (match c with
      | BlobRemoved _ => mret tt
      | BlobAdded digest =>
          found ← lift_outcome (map_err PushArtifact (record digest));
          r ← lift_outcome (ok_or
                (PushBlob (BlobExecution "blob referenced by the tree but absent from its index")) found);
          ship_blob self a digest (BlobRecord.size r)
      end) w = (w1, Ok tt) /\ heap w1 = heap w /\ local w1 = local w /\ site_valid P (site_address a) (network w1) /\
      same_tree_data a (network w) (network w1) /\
      (forall h, c = BlobAdded h -> is_Some (site_blobs (P := P) (site_address a) (network w1) (address_subject a) h)) /\
      (forall d h, is_Some (site_blobs (P := P) (site_address a) (network w) d h) ->
         is_Some (site_blobs (P := P) (site_address a) (network w1) d h)))
    as (w1 & E1 & Eh1 & El1 & Hv1 & Hu1 & Hb1 & Hk1).
  { destruct c as [h|h]; [|by exists w].
    destruct (Hship h) as [[r Er] (b & Hloc & Hd)]; [by left|].
    destruct (blob_read_law _ _ _ _ Hloc) as (chunks & Ec & Eb). rewrite <- Eb in Hd.
    destruct (blob_import_law (site_address a) (address_subject a) h (BlobRecord.size r) chunks (network w) Hd)
      as (n & Ei & Hvn & Hbn & Hsb). destruct (Hvn Hv) as [Hv' Hk'].
    exists (set_part n w). split; [|split; [done|split; [done|split; [done|split; [by split|split]]]]].
    - rewrite Er. cbn [map_err]. rewrite lift_bind. cbn [ok_or]. rewrite lift_bind. unfold ship_blob.
      assert (perform (S := L) PushBlob (blob_read (N := N) (Site := Site) (branch_of (reference self)) h) w
        = (w, Ok chunks)) as Er'.
      { unfold perform. change (part w) with (local w). rewrite Ec. by destruct w. }
      rewrite (stateful_bind_Ok _ _ _ _ _ Er'). unfold perform. change (part w) with (network w). by rewrite Ei.
    - intros h' [= <-]. cbn [network set_part network_part]. by rewrite Hsb, decide_True.
    - intros d h' Hs. cbn [network set_part network_part]. rewrite Hsb. by case_decide. }
  destruct (IH w1 Hv1) as (w2 & E2 & Eh2 & El2 & Hv2 & Hu2 & Hb2 & Hk2).
  { intros h Hh. rewrite El1. apply Hship. by right. }
  exists w2. split; [|split; [congruence|split; [congruence|split; [done|split; [|split]]]]].
  - csimpl. cbn [ship_blobs map_err]. rewrite lift_bind. by rewrite (stateful_bind_Ok _ _ _ _ _ E1).
  - destruct Hu1 as [A1 B1], Hu2 as [A2 B2]. split; intros; [by rewrite A2|by rewrite B2].
  - intros h [E|Hh]%elem_of_cons; [by apply Hk2, Hb1|auto].
  - auto.
Qed.
End blobs.

(** ** Pushing to a remote *)
Section pushing.
Context {L N Site K V : Type} (P : bytes -> Prop) `{Blake3, !Codecs Site, !CodecsLaws Site}.
Context `{!MemoryProvider L, !ArchiveProvider L, !ProviderLaws L P, !ForkProvider Site N, !ForkLaws Site N P}.
Context `{!BlobProvider L N Site, !BlobLaws L N Site P}.
Context `{Key K, NodeCodec K V} {D : Distribution} `{EqDecision V, !BlobTree K V} (Hcf : collision_free P).
Context (Htotal : codec_total (K := K) (V := V)) (R walk_fuel : nat) (shallow : (S R <= MAXIMUM_TREE_DEPTH)%nat).
Local Abbreviation world := (World L N (cached Site)).
Implicit Types (w : world) (self : Branch) (es : list (Entry K V)) (a : RemoteAddress Site).

(** What the remote alone can read. *)
Definition remote_readable a (n : N) : Accessor := blocks_accessor (site_blocks P (site_address a) n (address_subject a)).
Definition remote_sound a (n : N) : Prop :=
  content_addressed (site_blocks P (site_address a) n (address_subject a)) /\
  tree_store (K := K) (V := V) P (remote_readable a n).
Definition remote_holds a (n : N) es (t : TreeReference) : Prop := holds_tree R (remote_readable a n) es t.

Lemma remote_same a n n' :
  (forall h, site_blocks P (site_address a) n' (address_subject a) h = site_blocks P (site_address a) n (address_subject a) h) ->
  (remote_sound a n -> remote_sound a n') /\ (forall es t, remote_holds a n es t -> remote_holds a n' es t).
Proof.
  intros Hs.
  assert (forall h, remote_readable a n' h = remote_readable a n h) as Hr
    by (intros h; unfold remote_readable, blocks_accessor; by rewrite Hs).
  split.
  - intros [Hca [Hw HP]]. split; [intros h b; rewrite Hs; apply Hca|]. split; intros h node; rewrite Hr; [apply Hw|apply HP].
  - intros es t. apply holds_tree_extends. intros h node Hn. by rewrite Hr.
Qed.

(** After uploading the nodes of a tree that the remote does not have, the remote holds the tree. *)
Lemma uploaded_tree a acc B Lo (base t : TreeReference) WS WT novel w w' :
  tree_store (K := K) (V := V) P acc -> holds_tree R acc B base -> holds_tree R acc Lo t ->
  rooted P (tree_hash base) WS -> rooted P (tree_hash t) WT ->
  remote_sound a (network w) -> remote_holds a (network w) B base ->
  (forall b, b ∈ sealeds WT -> b ∈ sealeds WS \/ b ∈ novel) -> (forall b, b ∈ novel -> b ∈ sealeds WT) ->
  uploaded P a novel w w' -> remote_holds a (network w') Lo t.
Proof.
  intros Hst HB HL HrS HrT [Hca Hst'] HrB Hcover Hnovel [_ _ _ _ Hblocks].
  eapply (represents_move Htotal R P Hcf acc _ Lo (tree_hash t) WT); [done|done|done|]. intros b Hb.
  assert (forall b, b ∈ sealeds WT -> P b) as HPT.
  { intros b' Hb'. pose proof (represents_nodes Htotal R P Hcf acc Lo (tree_hash t) WT Hst HL HrT b' Hb') as Hn.
    exact (store_known _ _ Hst _ _ Hn). }
  unfold has_node, remote_readable. apply blocks_accessor_Ok. simpl. split; [|done].
  rewrite Hblocks, add_blocks_lookup.
  destruct (site_blocks P (site_address a) (network w) (address_subject a) (blake3 b)) as [b0|] eqn:E0.
  - f_equal. apply (proj1 Hcf); [|by apply HPT|by apply Hca in E0].
    eapply (store_known _ _ Hst' (blake3 b) (mkPersistentNode b0)). apply blocks_accessor_Ok. simpl. split; [done|].
    by apply Hca.
  - destruct (Hcover b Hb) as [HbS|HbN].
    + pose proof (represents_nodes Htotal R P Hcf _ B (tree_hash base) WS Hst' HrB HrS b HbS) as Hn.
      apply blocks_accessor_Ok in Hn as [Hn _]. simpl in Hn. congruence.
    + assert (exists b', block_map novel !! blake3 b = Some b') as [b' Eb'].
      { unfold block_map. destruct (list_to_map _ !! _) eqn:E; [eauto|]. exfalso.
        apply not_elem_of_list_to_map_2 in E. apply E. rewrite <- list_fmap_compose. apply list_elem_of_fmap. by exists b. }
      rewrite Eb'. f_equal. unfold block_map in Eb'. apply elem_of_list_to_map_2 in Eb'.
      apply list_elem_of_fmap in Eb' as (b'' & [= Eh ->] & Hin). apply (proj1 Hcf); [apply HPT; auto|by apply HPT|done].
Qed.

(** A branch with a remote upstream: [Lo] is what it holds, [B] what was there at
    the last sync; the remote can read its own trees, and the blobs that are new
    are at hand. *)
Record pushable self subj name (er : Edition Revision) (eu : Edition Upstream) remote bname base
    (ea : Edition (RemoteAddress Site)) (s : option (Edition (Edition Revision))) (o : option (Edition Revision))
    B Lo (bs : list BlobChange) w : Prop := {
  pushable_valid : memory_valid (local w);
  pushable_branch : synced_branch P self subj name (Some er) (Some eu) w;
  pushable_marker : content eu = UpstreamRemote remote bname base;
  pushable_address : holds_cell P (local w) (RemoteReference.address (subject_remote subj remote)) (Some ea);
  pushable_snapshot : holds_cell P (local w) (remote_snapshot subj remote bname) s;
  pushable_site : site_valid P (site_address (content ea)) (network w);
  pushable_remote : site_holds P (site_address (content ea)) (network w)
    (BranchReference.revision (subject_branch (address_subject (content ea)) bname)) o;
  pushable_known : o = None -> s = None;
  pushable_head e : o = Some e -> known P e;
  pushable_revision : known P (content er);
  pushable_editions v : site_issues P (site_address (content ea)) v (content er) -> known P (mkEdition (content er) v);
  pushable_new_marker : known P (UpstreamRemote remote bname (tree (content er)));
  pushable_sound : sound_archive (K := K) (V := V) P subj None w;
  pushable_remote_sound : remote_sound (content ea) (network w);
  pushable_base : revision_holds P R subj None w B base;
  pushable_tree : revision_holds P R subj None w Lo (tree (content er));
  pushable_cost : (tree_cost R B + tree_cost R Lo < walk_fuel)%nat;
  pushable_blobs : tree_blob_changes (Ok <$> diff_entries B Lo) = Ok <$> bs;
  pushable_records h : BlobAdded h ∈ bs ->
    (forall g, (forall k, g k = Ok (lookup_entry k Lo)) -> exists r, tree_get_blob g h = Ok (Some r)) /\
    exists b, stored_blobs (local w) subj h = Some b /\ blake3 b = h
}.

Local Abbreviation remote_head a bname := (BranchReference.revision (subject_branch (address_subject a) bname)).

(** The cells of a branch are not the snapshot of a remote branch. *)
Lemma synced_branch_move self subj name o u remote bname w w' :
  synced_branch P self subj name o u w -> open_branch self (subject_branch subj name) o u w' ->
  unchanged_but P (fun k => k = remote_snapshot subj remote bname) (local w) (local w') ->
  synced_branch P self subj name o u w'.
Proof.
  intros [_ [S1 S2]] Ho Hu. split; [done|].
  split; eapply holds_cell_unchanged; [exact Hu| |exact S1|exact Hu| |exact S2]; done.
Qed.

(** What the fast-forward check lets through, and what is uploaded then. *)
Lemma upload_tree self subj name er eu remote bname base ea s o B Lo bs repo w w4 :
  pushable self subj name er eu remote bname base ea s o B Lo bs w -> open_remote repo (content ea) w4 ->
  (forall h, local_blocks P subj w4 h = local_blocks P subj w h) ->
  site_valid P (site_address (content ea)) (network w4) ->
  site_unchanged_but P (site_address (content ea)) no_cell (network w) (network w4) ->
  remote_holds (content ea) (network w) B base ->
  exists d novel w5,
    compute (V := V) (local_accessor subj w4) (local_accessor subj w4) walk_fuel (tree_hash base)
      (tree_hash (tree (content er))) = Ok d /\
    upload repo (novel_nodes (K := K) (local_accessor subj w4) d) w4 = (w5, Ok tt) /\
    uploaded P (content ea) (buffer <$> novel) w4 w5 /\
    remote_holds (content ea) (network w5) Lo (tree (content er)) /\
    differentiate (V := V) (local_accessor subj w4) walk_fuel (tree_hash base) (tree_hash (tree (content er)))
      = Ok <$> diff_entries B Lo /\
    forall k, Walker.tree_get (V := V) (local_accessor subj w4) (tree_hash (tree (content er))) k = Ok (lookup_entry k Lo).
Proof.
  intros Hp Hrepo Eloc Hsv Hun HrB. pose proof Hp as [].
  set (acc := local_accessor subj w4).
  assert (forall h node, acc h = Ok node <-> readable P subj None w h = Ok node) as Hacc.
  { intros h node. unfold acc. rewrite (local_accessor_blocks P). unfold blocks_accessor at 1. rewrite Eloc. fold (blocks_accessor (local_blocks P subj w) h). unfold readable. rewrite !blocks_accessor_Ok.
    unfold networked_blocks. by destruct (local_blocks P subj w h). }
  assert (tree_store (K := K) (V := V) P acc) as Hst.
  { destruct pushable_sound0 as [_ [Hw HP]]. split; intros h node Hn%Hacc; [by apply Hw|by eapply HP]. }
  assert (forall es t, revision_holds P R subj None w es t -> holds_tree R acc es t) as Hmove.
  { intros es t. apply holds_tree_extends. intros h node. by rewrite Hacc. }
  pose proof (Hmove _ _ pushable_base0) as HB. pose proof (Hmove _ _ pushable_tree0) as HL.
  pose proof Hst as [Hws HP].
  destruct (novel_nodes_spec Htotal R P Hcf acc acc Hws Hws HP HP B Lo _ _ walk_fuel HB HL pushable_cost0)
    as (d & WS & WT & novel & Ed & HrS & HrT & _ & _ & En & Hcover & Hin).
  destruct (changes_spec Htotal R P Hcf acc acc Hws Hws HP HP B Lo _ _ walk_fuel walk_fuel HB HL pushable_cost0)
    as (d' & Ed' & Ec); [lia|]. rewrite Ed in Ed'. injection Ed' as <-.
  destruct (upload_spec P repo (content ea) novel w4 Hrepo) as (w5 & Eu & Hup).
  destruct (remote_same (content ea) (network w) (network w4)) as [Hsound Hholds]; [intros h; apply Hun|].
  exists d, novel, w5. split; [done|split; [by rewrite En|split; [done|split; [|split]]]].
  - apply (uploaded_tree (content ea) acc B Lo base (tree (content er)) WS WT (buffer <$> novel) w4 w5);
      [done|done|done|done|done|by apply Hsound|by apply Hholds|exact Hcover|exact Hin|done].
  - unfold differentiate. by rewrite Ed, Ec.
  - intros k. apply (get_represents acc (tree_store_null P Hcf acc Hst) R Lo (Unloaded (tree_hash (tree (content er))))); [done|exact HL].
Qed.

(** The remote revision after a fetch is the fetched one; an empty remote has none. *)
Lemma fetched_revision rb (s' s : option (Edition (Edition Revision))) (o : option (Edition Revision)) w :
  cell_edition (snapshot rb) w = s' -> (forall e, o = Some e -> content <$> s' = Some e) ->
  (o = None -> s' = s) -> (o = None -> s = None) ->
  remote_revision (Site := Site) (L := L) (N := N) rb w = content <$> o.
Proof.
  intros Es Hs' Hnone Hknown. unfold remote_revision, cell_content. rewrite Es.
  destruct o as [e|]; [by rewrite (Hs' e)|]. by rewrite Hnone, Hknown.
Qed.

Lemma open_remote_branch_heap rb repo a name (s : option (Edition (Edition Revision))) w w' :
  heap w' = heap w -> open_remote_branch rb repo a name s w -> open_remote_branch rb repo a name s w'.
Proof.
  intros Eh [O1 O2 O3 O4 O5 O6 O7 O8 O9].
  split; unfold open_remote, allocated, cell_content, cell_edition in *; by rewrite ?Eh.
Qed.

(** The last step: the upstream marker of the branch. *)
Lemma push_marker self subj name er eu u w :
  known P u -> memory_valid (local w) -> synced_branch P self subj name (Some er) (Some eu) w ->
  exists w' v, cell_publish (S := L) (upstream self) u w = (w', Ok tt) /\
    synced_branch P self subj name (Some er) (Some (mkEdition u v)) w' /\ memory_valid (local w') /\
    unchanged_but P (fun k => k = BranchReference.upstream (subject_branch subj name)) (local w) (local w') /\
    network w' = network w.
Proof.
  intros Hn Hv Hs. destruct (land_marker P self subj name (Some er) eu u w Hn Hv Hs) as (w' & v & E & Hw).
  exists w', v. split; [|done]. unfold cell_publish. rewrite asks_bind.
  by destruct (synced_versions _ _ _ _ _ _ _ Hs) as (_ & _ & _ & _ & ->).
Qed.

(** The blobs and the head of the remote, once the tree is there. *)
Lemma publish_head self subj name er eu remote bname base ea s o B Lo bs repo rb s' record w w5 :
  pushable self subj name er eu remote bname base ea s o B Lo bs w -> branch_of (reference self) = subj ->
  (forall h, BlobAdded h ∈ bs -> exists r, record h = Ok (Some r)) ->
  open_remote_branch rb repo (content ea) bname s' w5 -> cell_edition (remote_upstream rb) w5 = o ->
  snapshot_key repo bname = remote_snapshot subj remote bname ->
  holds_cell P (local w5) (remote_snapshot subj remote bname) s' -> memory_valid (local w5) ->
  (forall h, stored_blobs (local w5) subj h = stored_blobs (local w) subj h) ->
  site_valid P (site_address (content ea)) (network w5) ->
  site_holds P (site_address (content ea)) (network w5) (remote_head (content ea) bname) o ->
  remote_holds (content ea) (network w5) Lo (tree (content er)) ->
  exists w6 w7 w8 v, repository_address (E := PushError) repo w5 = (w6, Ok (content ea)) /\
    ship_blobs self (content ea) record (Ok <$> bs) w6 = (w7, Ok tt) /\
    or_err PushPublishRemoteBranch (remote_branch_publish rb (content er)) w7 = (w8, Ok tt) /\
    site_holds P (site_address (content ea)) (network w8) (remote_head (content ea) bname) (Some (mkEdition (content er) v)) /\
    memory_valid (local w8) /\
    unchanged_but P (fun k => k = remote_snapshot subj remote bname) (local w5) (local w8) /\
    (forall id, id <> cache (snapshot rb) -> id <> cache (remote_upstream rb) -> heap w8 !! id = heap w5 !! id) /\
    remote_holds (content ea) (network w8) Lo (tree (content er)) /\
    (forall h, BlobAdded h ∈ bs -> is_Some (site_blobs (P := P) (site_address (content ea)) (network w8)
       (address_subject (content ea)) h)).
Proof.
  intros [] Hsubj Hrec Hrb Ec5 Ekey Hs5 Hv5 Hlb Hsv5 Hho5 HL5.
  pose proof (open_remote_repository _ _ _ _ _ _ Hrb) as Hrepo.
  destruct (repository_address_spec (E := PushError) repo (content ea) w5 Hrepo) as (w6 & E6 & Eh6 & El6 & En6).
  destruct (ship_blobs_spec P self (content ea) record bs w6)
    as (w7 & E7 & Eh7 & El7 & Hsv7 & Hun7 & Hb7 & _).
  { by rewrite En6. }
  { intros h Hh. split; [by apply Hrec|]. rewrite El6, Hsubj, Hlb. by apply pushable_records0. }
  assert (open_remote_branch rb repo (content ea) bname s' w7) as Hrb7
    by (eapply open_remote_branch_heap; [|exact Hrb]; by rewrite Eh7, Eh6).
  destruct (remote_branch_publish_spec P rb repo (content ea) bname s' o (content er) w7 pushable_revision0
    pushable_editions0 Hrb7)
    as (w8 & v & E8 & Hh8 & Hv8 & Hsv8 & Hu8 & Hun8 & Hheap8).
  { unfold cell_edition in *. by rewrite Eh7, Eh6. }
  { by rewrite El7, El6. }
  { done. }
  { by rewrite Ekey, El7, El6. }
  { unfold site_holds, holds_cell in *. destruct Hun7 as [Hk7 _]. unfold site_held in Hk7. rewrite Hk7, En6. exact Hho5. }
  exists w6, w7, w8, v. split; [done|split; [done|]].
  split; [by apply or_err_Ok|split; [done|split; [done|]]].
  rewrite El7, El6, Ekey in Hu8.
  split; [exact Hu8|split; [intros; by rewrite Hheap8, Eh7, Eh6|split]].
  - eapply remote_same; [intros h; apply Hun8|]. eapply remote_same; [intros h; apply Hun7|]. by rewrite En6.
  - intros h Hh. unfold site_blobs. destruct Hun8 as [_ _ ->]. by apply Hb7.
Qed.

Lemma fast_forward_ok self base o : tree_of o = base -> fast_forward self base o = Ok tt.
Proof. intros Hb. unfold fast_forward. fold (tree_of o). by rewrite Hb, decide_False by tauto. Qed.

Lemma push_remote_spec self subj name er eu remote bname base ea s o B Lo bs w :
  pushable self subj name er eu remote bname base ea s o B Lo bs w ->
  tree_of (content <$> o) = base -> remote_holds (content ea) (network w) B base ->
  exists w' v v', push (K := K) (V := V) walk_fuel self w = (w', Ok (Some (content er))) /\
    synced_branch P self subj name (Some er)
      (Some (mkEdition (UpstreamRemote remote bname (tree (content er))) v')) w' /\
    memory_valid (local w') /\
    site_holds P (site_address (content ea)) (network w') (remote_head (content ea) bname) (Some (mkEdition (content er) v)) /\
    remote_holds (content ea) (network w') Lo (tree (content er)) /\
    (forall h, BlobAdded h ∈ bs -> is_Some (site_blobs (P := P) (site_address (content ea)) (network w')
       (address_subject (content ea)) h)).
Proof.
  intros Hp Hbase HrB. pose proof Hp as [].
  pose proof (proj1 pushable_branch0) as Ho.
  assert (branch_of (reference self) = subj) as Hsubj by (by rewrite (open_reference _ _ _ _ _ Ho)).
  destruct (reach_remote P (E := PushError) subj remote bname ea s o w pushable_head0 pushable_valid0 pushable_address0
    pushable_snapshot0 pushable_site0 pushable_remote0)
    as (w1 & w2 & w3 & w4 & repo & r & rb & s' & E1 & E2 & E3 & E4 & Hrb & Hs' & Hnone & Ec4 & Ekey & Hs4 & Hf1 & Hf2 &
        F & Hv4 & Hsv4 & Hun4).
  assert (forall h, local_blocks P subj w4 h = local_blocks P subj w h) as Eloc by (intros h; apply F).
  destruct (upload_tree self subj name er eu remote bname base ea s o B Lo bs repo w w4 Hp
    (open_remote_repository _ _ _ _ _ _ Hrb) Eloc Hsv4 Hun4 HrB)
    as (d & novel & w5 & Ed & Eu & [Uh Ul Uv Uk _] & HL5 & Ediff & Eget).
  destruct (publish_head self subj name er eu remote bname base ea s o B Lo bs repo rb s'
    (tree_get_blob (Walker.tree_get (V := V) (local_accessor subj w4) (tree_hash (tree (content er))))) w w5 Hp Hsubj)
    as (w6 & w7 & w8 & v & E6 & E7 & E8 & Hhead & Hv8 & Hu8 & Hheap8 & HL8 & Hb8); try done.
  { intros h Hh. by apply pushable_records0. }
  { eapply open_remote_branch_heap; [exact Uh|exact Hrb]. }
  { unfold cell_edition in *. by rewrite Uh. }
  { by rewrite Ul. }
  { by rewrite Ul. }
  { intros h. rewrite Ul. apply F. }
  { by apply Uv. }
  { apply Uk; [done|]. unfold site_holds, holds_cell in *. destruct Hun4 as [Hk4 _ _]. rewrite Hk4; [done|intros []]. }
  rewrite Ul in Hu8.
  assert (synced_branch P self subj name (Some er) (Some eu) w8) as Hsync8.
  { apply (synced_branch_move self subj name (Some er) (Some eu) remote bname w); [done| |].
    - destruct Ho as [Q1 Q2 Q3 Q4 [x Qx] [y Qy] Q7 Q8].
      assert (forall id z, heap w !! id = Some z -> heap w8 !! id = Some z) as Hkeep.
      { intros id z Hz. rewrite Hheap8, Uh; [by apply F|..]; intros ->; congruence. }
      split; try done; [by exists x; apply Hkeep|by exists y; apply Hkeep|..]; unfold cell_edition in *.
      + by rewrite (Hkeep _ _ Qx), <- Q7, Qx.
      + by rewrite (Hkeep _ _ Qy), <- Q8, Qy.
    - eapply unchanged_but_trans; [exact (frame_local _ _ _ _ F)|exact Hu8|]. tauto. }
  destruct (push_marker self subj name er eu (UpstreamRemote remote bname (tree (content er))) w8
    pushable_new_marker0 Hv8 Hsync8)
    as (w9 & v' & E9 & Hsync9 & Hv9 & _ & N9).
  exists w9, v, v'. rewrite N9. split; [|split; [exact Hsync9|done]].
  unfold push. rewrite asks_bind, (open_branch_upstream _ _ _ _ _ Ho), Hsubj. cbn [fmap option_fmap option_map].
  rewrite asks_bind, (open_branch_revision _ _ _ _ _ Ho). cbn [fmap option_fmap option_map].
  rewrite pushable_marker0 in *. etransitivity; [apply (stateful_bind_Ok _ _ w w8 tt)|].
  - rewrite (stateful_bind_Ok _ _ _ _ _ (or_err_Ok _ _ _ _ _ E1)), (stateful_bind_Ok _ _ _ _ _ E2).
    rewrite (stateful_bind_Ok _ _ _ _ _ (or_err_Ok _ _ _ _ _ E3)).
    rewrite (stateful_bind_Ok _ _ _ _ _ (or_err_Ok _ _ _ _ _ E4)), asks_bind.
    rewrite (fetched_revision rb s' s o w4 (open_snapshot _ _ _ _ _ _ Hrb) Hs' Hnone pushable_known0).
    cbn [Upstream.tree]. rewrite fast_forward_ok, lift_bind, asks_bind, Ed by done. cbn [map_err]. rewrite lift_bind.
    rewrite (stateful_bind_Ok _ _ _ _ _ (or_err_Ok _ _ _ _ _ Eu)), (stateful_bind_Ok _ _ _ _ _ E6).
    rewrite Ediff, pushable_blobs0, (stateful_bind_Ok _ _ _ _ _ E7). exact E8.
  - cbv beta. by rewrite (stateful_bind_Ok _ _ _ _ _ (or_err_Ok _ _ _ _ _ E9)).
Qed.

(** C5: A push is never lost on the remote.  From a branch whose handle has seen
    what is stored, whose remote is where the last sync left it and can read that
    tree, a push returns the revision of the branch; then the remote's head is
    that revision, the remote alone can read its whole tree (every node it lacked
    was uploaded), with the entries of the branch, it has every blob the tree
    gained since, and the branch's marker and handle say the two are in sync. *)
Theorem push_publishes self subj name er eu remote bname base ea s o B Lo bs w :
  pushable self subj name er eu remote bname base ea s o B Lo bs w ->
  tree_of (content <$> o) = base -> remote_holds (content ea) (network w) B base ->
  exists w' v v', push (K := K) (V := V) walk_fuel self w = (w', Ok (Some (content er))) /\
    site_holds P (site_address (content ea)) (network w') (remote_head (content ea) bname) (Some (mkEdition (content er) v)) /\
    remote_holds (content ea) (network w') Lo (tree (content er)) /\
    (forall h, BlobAdded h ∈ bs -> is_Some (site_blobs (P := P) (site_address (content ea)) (network w')
       (address_subject (content ea)) h)) /\
    synced_branch P self subj name (Some er)
      (Some (mkEdition (UpstreamRemote remote bname (tree (content er))) v')) w'.
Proof.
  intros Hp Hbase HrB. destruct (push_remote_spec self subj name er eu remote bname base ea s o B Lo bs w Hp Hbase HrB)
    as (w' & v & v' & E & Hs & _ & Hh & Ht & Hb). eauto 8.
Qed.

(** A push whose upstream is elsewhere: [t] is where it is. *)
Definition refused self (base t : TreeReference) w w' : Prop :=
  push (K := K) (V := V) walk_fuel self w = (w', Err (PushNonFastForward (BranchReference.name (reference self)) base t)).

Lemma fast_forward_moved self base o :
  tree_of o <> base -> fast_forward self base o = Err (PushNonFastForward (BranchReference.name (reference self)) base (tree_of o)).
Proof. intros Hn. unfold fast_forward. fold (tree_of o). by rewrite decide_True. Qed.

Lemma push_refused_remote self subj name er eu remote bname base ea s o B Lo bs w :
  pushable self subj name er eu remote bname base ea s o B Lo bs w -> tree_of (content <$> o) <> base ->
  exists w', refused self base (tree_of (content <$> o)) w w' /\
    site_unchanged_but P (site_address (content ea)) no_cell (network w) (network w') /\
    frame P (fun k => k = remote_snapshot subj remote bname) w w'.
Proof.
  intros [] Hbase. pose proof (proj1 pushable_branch0) as Ho.
  assert (branch_of (reference self) = subj) as Hsubj by (by rewrite (open_reference _ _ _ _ _ Ho)).
  destruct (reach_remote P (E := PushError) subj remote bname ea s o w pushable_head0 pushable_valid0 pushable_address0
    pushable_snapshot0 pushable_site0 pushable_remote0)
    as (w1 & w2 & w3 & w4 & repo & r & rb & s' & E1 & E2 & E3 & E4 & Hrb & Hs' & Hnone & _ & _ & _ & _ & _ & F & _ & _ & Hun4).
  exists w4. split; [|done]. unfold refused, push.
  rewrite asks_bind, (open_branch_upstream _ _ _ _ _ Ho), Hsubj. cbn [fmap option_fmap option_map].
  rewrite asks_bind, (open_branch_revision _ _ _ _ _ Ho). cbn [fmap option_fmap option_map].
  rewrite pushable_marker0. apply stateful_bind_Err.
  rewrite (stateful_bind_Ok _ _ _ _ _ (or_err_Ok _ _ _ _ _ E1)), (stateful_bind_Ok _ _ _ _ _ E2).
  rewrite (stateful_bind_Ok _ _ _ _ _ (or_err_Ok _ _ _ _ _ E3)).
  rewrite (stateful_bind_Ok _ _ _ _ _ (or_err_Ok _ _ _ _ _ E4)), asks_bind.
  rewrite (fetched_revision rb s' s o w4 (open_snapshot _ _ _ _ _ _ Hrb) Hs' Hnone pushable_known0).
  cbn [Upstream.tree]. by rewrite fast_forward_moved.
Qed.

(** ** Pushing to a local branch *)

(** A branch that tracks another one of the repository: what the two hold. *)
Record pushable_local self subj name (er : Edition Revision) (eu : Edition Upstream) target base
    (o : option (Edition Revision)) (u : option (Edition Upstream)) w : Prop := {
  local_valid : memory_valid (local w);
  local_branch : synced_branch P self subj name (Some er) (Some eu) w;
  local_marker : content eu = UpstreamLocal target base;
  local_apart : target <> name;
  local_target : stored_branch P w (subject_branch subj target) o u;
  local_revision : known P (content er);
  local_new_marker : known P (UpstreamLocal target (tree (content er)))
}.

Lemma branch_cells_apart subj name target k k' :
  target <> name ->
  k = BranchReference.revision (subject_branch subj name) \/ k = BranchReference.upstream (subject_branch subj name) ->
  k' = BranchReference.revision (subject_branch subj target) \/ k' = BranchReference.upstream (subject_branch subj target) ->
  k <> k'.
Proof.
  intros Hn Hk Hk' E. apply Hn.
  assert (space k = branch_space (subject_branch subj name)) as E1 by (by destruct Hk as [-> | ->]).
  assert (space k' = branch_space (subject_branch subj target)) as E2 by (by destruct Hk' as [-> | ->]).
  rewrite <- (branch_name subj name), <- (branch_name subj target). unfold BranchReference.name. by rewrite <- E1, <- E2, E.
Qed.

Lemma push_local_spec self subj name er eu target base o u w :
  pushable_local self subj name er eu target base o u w -> tree_of (content <$> o) = base ->
  exists w' v v', push (K := K) (V := V) walk_fuel self w = (w', Ok (Some (content er))) /\
    stored_branch P w' (subject_branch subj target) (Some (mkEdition (content er) v)) u /\
    synced_branch P self subj name (Some er)
      (Some (mkEdition (UpstreamLocal target (tree (content er))) v')) w' /\ network w' = network w.
Proof.
  intros [Hv Hb Hm Hap Ht Hkr Hkm] Hbase. pose proof (proj1 Hb) as Ho.
  assert (branch_of (reference self) = subj) as Hsubj by (by rewrite (open_reference _ _ _ _ _ Ho)).
  destruct (branch_open_spec P _ o u w Hv Ht) as (w1 & t & E1 & Hot & F & N1 & _ & Hfresh).
  pose proof Hot as [T1 T2 T3 T4 T5 T6 T7 T8].
  assert (memory_valid (local w1)) as Hv1 by (by apply F).
  assert (stored_branch P w1 (subject_branch subj target) o u) as [S1 S2].
  { destruct Ht. split; (eapply frame_holds; [exact F|tauto|done]). }
  assert (synced_branch P self subj name (Some er) (Some eu) w1) as Hb1.
  { destruct Hb as [_ [Q1 Q2]]. split; [by eapply open_branch_frame|].
    split; (eapply frame_holds; [exact F|tauto|done]). }
  destruct (publish_cell P (revision t) (content er) o w1 Hkr Hv1 T5) as (w2 & v & E2 & Hv2 & Hs2 & _ & _ & Hu2 & N2 & _ & Hheap2);
    [by rewrite T2|]. rewrite T2 in Hs2, Hu2.
  assert (synced_branch P self subj name (Some er) (Some eu) w2) as Hb2.
  { destruct Hb1 as [[Q1 Q2 Q3 Q4 [x Qx] [y Qy] Q7 Q8] [R1 R2]].
    assert (cache (revision self) <> cache (revision t) /\ cache (upstream self) <> cache (revision t)) as [N3 N4].
    { destruct Ho as [_ _ _ _ [x' Hx] [y' Hy] _ _]. split; intros E; rewrite <- E in Hfresh; congruence. }
    split; [split; try done|split].
    - exists x. by rewrite Hheap2.
    - exists y. by rewrite Hheap2.
    - unfold cell_edition in *. by rewrite Hheap2.
    - unfold cell_edition in *. by rewrite Hheap2.
    - eapply holds_cell_unchanged; [exact Hu2| |done]. by eapply branch_cells_apart; eauto.
    - eapply holds_cell_unchanged; [exact Hu2| |done]. by eapply branch_cells_apart; eauto. }
  destruct (push_marker self subj name er eu (UpstreamLocal target (tree (content er))) w2 Hkm Hv2 Hb2)
    as (w3 & v' & E3 & Hsync3 & Hv3 & Hu3 & N3).
  exists w3, v, v'. split; [|split; [|split; [exact Hsync3|congruence]]].
  - unfold push. rewrite asks_bind, (open_branch_upstream _ _ _ _ _ Ho), Hsubj. cbn [fmap option_fmap option_map].
    rewrite asks_bind, (open_branch_revision _ _ _ _ _ Ho). cbn [fmap option_fmap option_map].
    rewrite Hm in *. etransitivity; [apply (stateful_bind_Ok _ _ w w2 tt)|].
    + rewrite (stateful_bind_Ok _ _ _ _ _ (or_err_Ok _ _ _ _ _ E1)), asks_bind, (open_branch_revision _ _ _ _ _ Hot).
      rewrite fast_forward_ok, lift_bind by done. apply or_err_Ok. unfold branch_reset, cell_publish. rewrite asks_bind.
      assert (cell_version (revision t) w1 = version <$> o) as -> by (unfold cell_version; by rewrite T7). exact E2.
    + cbv beta. by rewrite (stateful_bind_Ok _ _ _ _ _ (or_err_Ok _ _ _ _ _ E3)).
  - split; (eapply holds_cell_unchanged; [exact Hu3| |]).
    + intros E. exact (branch_cells_apart subj name target _ _ Hap (or_intror eq_refl) (or_introl eq_refl) (eq_sym E)).
    + exact Hs2.
    + intros E. exact (branch_cells_apart subj name target _ _ Hap (or_intror eq_refl) (or_intror eq_refl) (eq_sym E)).
    + eapply holds_cell_unchanged; [exact Hu2| |exact S2]. intros E. by apply (branch_keys_apart subj target).
Qed.

Lemma push_refused_local self subj name er eu target base o u w :
  pushable_local self subj name er eu target base o u w -> tree_of (content <$> o) <> base ->
  exists w', refused self base (tree_of (content <$> o)) w w' /\ network w' = network w /\ frame P no_cell w w'.
Proof.
  intros [Hv [Ho _] Hm Hap Ht _ _] Hbase.
  assert (branch_of (reference self) = subj) as Hsubj by (by rewrite (open_reference _ _ _ _ _ Ho)).
  destruct (branch_open_spec P _ o u w Hv Ht) as (w1 & t & E1 & Hot & F & N1 & _).
  exists w1. split; [|done]. unfold refused, push.
  rewrite asks_bind, (open_branch_upstream _ _ _ _ _ Ho), Hsubj. cbn [fmap option_fmap option_map].
  rewrite asks_bind, (open_branch_revision _ _ _ _ _ Ho). cbn [fmap option_fmap option_map].
  rewrite Hm. apply stateful_bind_Err.
  rewrite (stateful_bind_Ok _ _ _ _ _ (or_err_Ok _ _ _ _ _ E1)), asks_bind, (open_branch_revision _ _ _ _ _ Hot).
  cbn [Upstream.tree]. by rewrite fast_forward_moved.
Qed.

End pushing.
