(* ===== verification/CommitCorrect.v ===== *)
(** Committing: a commit lands the facts its instructions leave. *)
From S2P Require Import Prelude Common Nodes SortedEntries Forest Walker TransientTree Instances Repr Spine Fuse Edits Batch Persist Read Access ArtifactTree Rebase Storage Artifact ArtifactKeys ArtifactFacts ArtifactTreeCorrect Providers Cells Revisions Sync SyncBase SyncCorrect.

Section committing.
Context {L N Site : Type} (P : bytes -> Prop) `{Blake3, Url, !Codecs Site, !CodecsLaws Site}.
Context `{!MemoryProvider L, !ArchiveProvider L, !ProviderLaws L P, !ForkProvider Site N, !ForkLaws Site N P}.
Context `{!NodeCodec KeyBytes State} {D : Distribution} `{!Identity} (Hcf : collision_free P).
Context (Htotal : codec_total (K := KeyBytes) (V := State)) (R : nat).
Context (fuel : nat) (rank_le : forall b, (rank b <= R)%nat) (enough : (S R < fuel)%nat).
Context (shallow : (S R <= MAXIMUM_TREE_DEPTH)%nat).
Local Abbreviation world := (World L N (cached Site)).
Implicit Types (w : world) (self : Branch) (facts : Facts).

(** The remote a branch tracks, when its address is known: where a commit also reads from. *)
Definition tracked_at subj (u : option Upstream) (oa : option (RemoteAddress Site)) w : Prop :=
  match u with
  | Some (UpstreamRemote remote _ _) => exists ea : option (Edition (RemoteAddress Site)),
      holds_cell P (local w) (RemoteReference.address (subject_remote subj remote)) ea /\ oa = content <$> ea
  | _ => oa = None
  end.
Lemma tracked_at_held subj u oa w w' :
  (forall remote, held (local w') (RemoteReference.address (subject_remote subj remote)) =
    held (local w) (RemoteReference.address (subject_remote subj remote))) ->
  tracked_at subj u oa w -> tracked_at subj u oa w'.
Proof.
  intros Hh. destruct u as [[]|]; try done. intros (ea & He & ->). exists ea. split; [|done].
  unfold holds_cell in *. by rewrite Hh.
Qed.
Lemma load_tracked_spec {E} subj u oa w :
  memory_valid (local w) -> tracked_at subj u oa w ->
  exists w' remote, load_tracked (E := E) subj u w = (w', Ok remote) /\ at_remote remote oa w' /\
    frame P no_cell w w' /\ network w' = network w.
Proof.
  intros Hv Hu. destruct u as [[name t|name branch t]|]; cbn [tracked_at load_tracked] in *.
  1, 3: subst; exists w, None; split; [done|split; [done|split; [apply frame_refl|done]]].
  destruct Hu as ([ea|] & Ha & ->); unfold attempt.
  - destruct (remote_load_spec P _ ea w Hv Ha) as (w' & repo & El & _ & Hr & F & Nn).
    exists w', (Some repo). split; [|done]. unfold mbind, stateful_bind. by rewrite El.
  - destruct (remote_load_missing P _ w Hv Ha) as (w' & El & F & Nn).
    exists w', None. unfold mbind, stateful_bind. by rewrite El.
Qed.

(** Applying instructions to a stored tree. *)
Lemma apply_changes_spec acc facts changes (t : TreeReference) :
  tree_store (K := KeyBytes) (V := State) P acc -> wf_facts facts -> holds_tree R acc (index_entries facts) t ->
  Forall storable_instruction changes ->
  (3 * (size facts + length changes) <= search_tree_capacity fuel R)%nat ->
  serializes_in P R (index_entries (fold_left apply_fact changes facts)) ->
  exists root delta, apply_changes fuel acc changes (tree_hash t) = Ok (root, delta) /\
    tree_store (K := KeyBytes) (V := State) P (overlay delta acc) /\
    holds_tree R (overlay delta acc) (index_entries (fold_left apply_fact changes facts)) (mkTreeReference root) /\
    wf_facts (fold_left apply_fact changes facts).
Proof.
  intros Hst Hwf Ht Hi Hcap Hser. pose proof (tree_store_null P Hcf acc Hst) as Hnull. destruct Hst as [Hws HP].
  set (ops := search_tree (K := KeyBytes) (V := State) acc fuel).
  set (laws := search_tree_laws (K := KeyBytes) (V := State) acc fuel R rank_le enough shallow Hnull).
  destruct (@apply_instructions_facts _ _ _ ops laws changes facts (Unloaded (tree_hash t)) (conj Hwf Ht) Hi Hcap)
    as (edited & E & Hwf' & Hr).
  destruct (persist_represents Htotal R acc P _ edited Hws Hcf HP Hser Hr) as (delta & root & Ep & Hws' & HP' & Hr' & _).
  exists root, delta. split; [|split; [by split|by split]].
  unfold apply_changes. cbv zeta. fold ops. rewrite E. cbn [mbind outcome_bind]. by rewrite Ep.
Qed.

(** The revision a commit makes. *)
Definition committed subj (o : option Revision) (t : TreeReference) (by_ : Did * Did) : Revision :=
  match o with
  | Some base => Revision.advance base t by_.1 by_.2
  | None => Revision.new t subj by_.1 by_.2
  end.

(** What a commit leaves. *)
Lemma commit_spec self subj name changes reads o u oa by_ facts w :
  identify = Ok by_ -> memory_valid (local w) -> synced_branch P self subj name o u w ->
  tracked_at subj (content <$> u) oa w -> sound_archive (K := KeyBytes) (V := State) P subj oa w ->
  wf_facts facts -> revision_holds P R subj oa w (index_entries facts) (tree_of (content <$> o)) ->
  Forall storable_instruction changes ->
  (3 * (size facts + length changes) <= search_tree_capacity fuel R)%nat ->
  serializes_in P R (index_entries (fold_left apply_fact changes facts)) ->
  (forall root, root_of R (index_entries (fold_left apply_fact changes facts)) root ->
    known P (committed subj (content <$> o) (mkTreeReference root) by_)) ->
  exists w' next v, commit fuel self changes reads w = (w', Ok next) /\
    next = committed subj (content <$> o) (tree next) by_ /\
    synced_branch P self subj name (Some (mkEdition next v)) u w' /\
    sound_archive (K := KeyBytes) (V := State) P subj oa w' /\
    revision_holds P R subj oa w' (index_entries (fold_left apply_fact changes facts)) (tree next) /\
    network w' = network w /\ memory_valid (local w') /\ tracked_at subj (content <$> u) oa w' /\
    wf_facts (fold_left apply_fact changes facts).
Proof.
  intros Hid Hv Hsync Htr Hsound Hwf Ht Hi Hcap Hser Hknown. pose proof Hsync as [Ho Hstored].
  assert (branch_of (reference self) = subj) as Hsubj by (by rewrite (open_reference _ _ _ _ _ Ho)).
  destruct (synced_versions _ _ _ _ _ _ _ Hsync) as (Er & Eu & Ec & _).
  destruct (load_tracked_spec (E := CommitError) subj (content <$> u) oa w Hv Htr) as (w1 & remote & E1 & Hrem & F1 & N1).
  assert (memory_valid (local w1)) as Hv1 by (by apply F1).
  destruct (readable_blocks (K := KeyBytes) (V := State) P subj oa w w1) as (_ & Hx1 & Hs1).
  { intros h. unfold networked_blocks, local_blocks. rewrite N1. by destruct F1 as [_ [_ -> _] _]. }
  specialize (Hs1 Hsound). destruct (networked_sound P subj remote oa w1 Hrem Hs1) as (Hst & Hx2 & _).
  destruct (apply_changes_spec (networked_accessor subj remote w1) facts changes (tree_of (content <$> o)))
    as (root & delta & E2 & Hst2 & Ht2 & Hwf'); try done.
  { eapply holds_tree_extends; [|exact Ht]. intros h node Hn. by apply Hx2, Hx1. }
  destruct (import_tree P Hcf subj remote oa reads delta w1 Hrem Hv1 Hs1 Hst2)
    as (w2 & w3 & E3 & E4 & Eh3 & En3 & Hv3 & Hh3 & Hs3 & Hx3).
  assert (synced_branch P self subj name o u w3) as Hsync3.
  { split.
    - eapply grown_open_branch; [exact Eh3|]. by eapply open_branch_frame.
    - destruct Hstored as [S1 S2]. split; unfold holds_cell in *; rewrite Hh3;
        destruct F1 as [_ [Hk _ _] _]; rewrite Hk by tauto; done. }
  set (next := committed subj (content <$> o) (mkTreeReference root) by_).
  assert (known P next) as Hnext by exact (Hknown root (holds_tree_root P R _ _ _ Hst2 Ht2)).
  destruct (land_head P self subj name o u next w3 Hnext Hv3 Hsync3) as (w4 & v & E5 & Hsync4 & Hv4 & Hu4 & N4).
  assert (tree next = mkTreeReference root) as Et.
  { unfold next, committed. destruct (content <$> o) as [base|]; [|done]. unfold Revision.advance. by case_decide. }
  destruct (same_blocks P R subj oa w3 w4 N4) as [Hhold4 Hs4]; [by apply Hu4|].
  exists w4, next, v. split; [|split; [by rewrite Et|split; [done|split; [by apply Hs4|split; [|split; [congruence|split; [done|split; [|done]]]]]]]].
  - unfold commit. rewrite asks_bind, asks_bind, asks_bind, Hsubj, Er, Eu, Ec.
    fold (load_tracked (L := L) (N := N) (Site := Site) (E := CommitError) subj (content <$> u)). rewrite (stateful_bind_Ok _ _ _ _ _ E1), asks_bind.
    rewrite (stateful_bind_Ok _ _ _ _ _ (attempt_Ok (F := CommitError) _ _ _ _ E3)).
    assert (match content <$> o with Some r => tree_hash (tree r) | None => EMPTY_TREE_HASH end
      = tree_hash (tree_of (content <$> o))) as -> by (by destruct o).
    rewrite E2. cbn [map_err]. rewrite lift_bind. cbv beta iota.
    rewrite (stateful_bind_Ok _ _ _ _ _ (or_err_Ok _ _ _ _ _ E4)), Hid. cbn [map_err]. rewrite lift_bind.
    destruct by_ as [issuer profile]. cbv beta iota zeta.
    assert (match content <$> o with
      | Some base => Revision.advance base (mkTreeReference root) issuer profile
      | None => Revision.new (mkTreeReference root) subj issuer profile end = next) as -> by done.
    unfold checkpoint_publish. cbn [checkpoint_cell checkpoint_expected].
    by rewrite (stateful_bind_Ok _ _ _ _ _ (or_err_Ok _ _ _ _ _ E5)).
  - rewrite Et. apply Hhold4. by eapply holds_tree_extends; [exact Hx3|].
  - apply (tracked_at_held subj (content <$> u) oa w); [|done]. intros origin.
    destruct Hu4 as [Hk4 _ _]. rewrite Hk4 by discriminate. rewrite Hh3. destruct F1 as [_ [Hk _ _] _]. rewrite Hk by tauto. done.
Qed.

End committing.
