(* ===== verification/History.v ===== *)
(** Commits that race on the head of a branch.  The tasks of a program share the
    handles of one cell (and its provider); a task reads the cache, later asks
    the provider to publish, and later updates the cache, so the steps of
    several tasks interleave
    (rust/dialog-repository/src/repository/memory/{cell,publish,resolve}.rs,
    branch/commit.rs, branch/pull.rs). *)
From S2P Require Import Prelude Common Providers Cells.

Section history.
Context {L N V T : Type} `{!Cached V T, !CellCodec T, !MemoryProvider L}.
Local Abbreviation world := (World L N V).
Implicit Types (w : world) (c : Cell T) (x : T).

(** Where a task is: between its effects on the cell. *)
Inductive Task :=
  | Idle
  | Checkpointed (head : Checkpoint T)
  | Based (head : Checkpoint T) (base : option T)
  | Accepted (head : Checkpoint T) (x : T) (v : Version)
  | Fetched (c : Cell T) (edition : option (Edition bytes)).

(** A publish that was accepted: what it replaced in the cell, what it was built
    on, and what it put there. *)
Record Landed := mkLanded { replaced : option bytes; built_on : option T; landed : T }.

Record System := mkSystem { shared : world; tasks : gmap nat Task; log : list Landed }.
Implicit Types (s : System) (t : nat).

Definition task s t : Task := default Idle (tasks s !! t).
Definition with_task s t w (k : Task) : System := mkSystem w (<[t := k]> (tasks s)) (log s).
(** What the provider has. *)
Definition stored_content (key : CellKey) w : option bytes :=
  match (provider_resolve key (local w)).2 with Ok o => content <$> o | _ => None end.

(** The steps.  On a cooperative executor tasks are switched at awaits, so the
    checkpoint and the base are read in one step; with [threads], another task
    may run between the two.  [values] are the values the tasks publish. *)
Inductive step (threads : bool) (values : T -> Prop) (key : CellKey) s : System -> Prop :=
  | step_open c w t : task s t = Idle -> new_cell (E := ResolveError) key (shared s) = (w, Ok c) ->
      step threads values key s (with_task s t w Idle)
  | step_start c t : task s t = Idle -> capability c = key ->
      step threads values key s (with_task s t (shared s)
        (Based (cell_checkpoint c (shared s)) (cell_content c (shared s))))
  | step_checkpoint c t : threads = true -> task s t = Idle -> capability c = key ->
      step threads values key s (with_task s t (shared s) (Checkpointed (cell_checkpoint c (shared s))))
  | step_base head t : threads = true -> task s t = Checkpointed head ->
      step threads values key s (with_task s t (shared s)
        (Based head (cell_content (checkpoint_cell head) (shared s))))
  | step_publish head base x b t l v : task s t = Based head base -> values x -> encode_value x = Ok b ->
      provider_publish (capability (checkpoint_cell head)) b (checkpoint_expected head) (local (shared s)) = (l, Ok v) ->
      step threads values key s (mkSystem (set_part l (shared s)) (<[t := Accepted head x v]> (tasks s))
        (mkLanded (stored_content key (shared s)) base x :: log s))
  | step_refused head base x b t l e : task s t = Based head base -> values x -> encode_value x = Ok b ->
      provider_publish (capability (checkpoint_cell head)) b (checkpoint_expected head) (local (shared s)) = (l, Err e) ->
      step threads values key s (with_task s t (set_part l (shared s)) Idle)
  | step_update head x v t w : task s t = Accepted head x v ->
      cache_update (E := PublishError) (checkpoint_cell head) (mkEdition x v) (shared s) = (w, Ok tt) ->
      step threads values key s (with_task s t w Idle)
  | step_resolve c t l o : task s t = Idle -> capability c = key ->
      provider_resolve key (local (shared s)) = (l, Ok o) ->
      step threads values key s (with_task s t (set_part l (shared s)) (Fetched c o))
  | step_apply c t o w r : task s t = Fetched c o -> cache_apply c o (shared s) = (w, r) ->
      step threads values key s (with_task s t w Idle).

(** The steps as actions, to run them. *)
Inductive Action :=
  | Start (t : nat) (c : Cell T)
  | ReadHead (t : nat) (c : Cell T)
  | ReadBase (t : nat)
  | Publish (t : nat) (x : T)
  | Update (t : nat)
  | Resolve (t : nat) (c : Cell T)
  | Apply (t : nat).
Definition act (key : CellKey) (a : Action) s : option System :=
  let keyed c k := if decide (capability c = key) then Some k else None in
  match a with
  | Start t c =>
      match task s t with
      | Idle => keyed c (with_task s t (shared s) (Based (cell_checkpoint c (shared s)) (cell_content c (shared s))))
      | _ => None
      end
  | ReadHead t c =>
      match task s t with
      | Idle => keyed c (with_task s t (shared s) (Checkpointed (cell_checkpoint c (shared s))))
      | _ => None
      end
  | ReadBase t =>
      match task s t with
      | Checkpointed head =>
          Some (with_task s t (shared s) (Based head (cell_content (checkpoint_cell head) (shared s))))
      | _ => None
      end
  | Publish t x =>
      match task s t, encode_value x with
      | Based head base, Ok b =>
          let '(l, r) := provider_publish (capability (checkpoint_cell head)) b (checkpoint_expected head)
                           (local (shared s)) in
          match r with
          | Ok v => Some (mkSystem (set_part l (shared s)) (<[t := Accepted head x v]> (tasks s))
                            (mkLanded (stored_content key (shared s)) base x :: log s))
          | Err e => Some (with_task s t (set_part l (shared s)) Idle)
          | _ => None
          end
      | _, _ => None
      end
  | Update t =>
      match task s t with
      | Accepted head x v =>
          Some (with_task s t (cache_update (E := PublishError) (checkpoint_cell head) (mkEdition x v) (shared s)).1 Idle)
      | _ => None
      end
  | Resolve t c =>
      match task s t, provider_resolve key (local (shared s)) with
      | Idle, (l, Ok o) => keyed c (with_task s t (set_part l (shared s)) (Fetched c o))
      | _, _ => None
      end
  | Apply t =>
      match task s t with
      | Fetched c o => Some (with_task s t (cache_apply c o (shared s)).1 Idle)
      | _ => None
      end
  end.
Fixpoint acts (key : CellKey) (l : list Action) s : option System :=
  match l with [] => Some s | a :: l => s ← act key a s; acts key l s end.
Definition within (threads : bool) (values : T -> Prop) (a : Action) : Prop :=
  match a with ReadHead _ _ | ReadBase _ => threads = true | Publish _ x => values x | _ => True end.

Lemma act_step threads values key a s s' :
  within threads values a -> act key a s = Some s' -> step threads values key s s'.
Proof.
  intros Ha E. destruct a as [t c|t c|t|t x|t|t c|t]; cbn [act within] in *;
    destruct (task s t) as [|head|head base|head x' v|c' o] eqn:Ek; try done.
  - case_decide; [|done]. injection E as <-. by apply step_start.
  - case_decide; [|done]. injection E as <-. by apply step_checkpoint.
  - injection E as <-. by apply step_base.
  - destruct (encode_value x) as [b| | |] eqn:Eb; try done.
    destruct (provider_publish _ _ _ _) as [l [v|e|m|]] eqn:Ep; try done; injection E as <-.
    + by eapply step_publish.
    + by eapply step_refused.
  - injection E as <-. by eapply step_update.
  - destruct (provider_resolve key (local (shared s))) as [l [o|e|m|]] eqn:Er; try done.
    case_decide; [|done]. injection E as <-. by apply step_resolve.
  - injection E as <-. destruct (cache_apply c' o (shared s)) as [w r] eqn:Er. by eapply step_apply.
Qed.
Lemma acts_steps threads values key l : forall s s',
  Forall (within threads values) l -> acts key l s = Some s' -> rtc (step threads values key) s s'.
Proof.
  induction l as [|a l IH]; intros s s'; [intros _ [= <-]; apply rtc_refl|].
  intros [Ha Hl]%Forall_cons. cbn [acts]. destruct (act key a s) as [s1|] eqn:E; [|done].
  intros Hs. eapply rtc_l; [by eapply act_step|by apply IH].
Qed.

(** Nothing runs, no cache has seen anything. *)
Record initial s : Prop := {
  initial_caches id : heap (shared s) !! id = None \/ heap (shared s) !! id = Some None;
  initial_tasks : tasks s = ∅;
  initial_log : log s = []
}.

(** The contents of the cell are a line: the newest publish is on top; each one
    was built on the content it replaced, or put back what was there. *)
Definition on_top (base : option T) (stored : option bytes) : Prop :=
  match base, stored with
  | None, None => True
  | Some x, Some b => encode_value x = Ok b
  | _, _ => False
  end.
Fixpoint linear (start stored : option bytes) (history : list Landed) : Prop :=
  match history with
  | [] => stored = start
  | e :: history =>
      on_top (Some (landed e)) stored /\ (on_top (built_on e) (replaced e) \/ stored = replaced e) /\
      linear start (replaced e) history
  end.
End history.
Arguments Task T : clear implicits.
Arguments Action T : clear implicits.
Arguments Landed T : clear implicits.
Arguments System L N V T : clear implicits.

Section invariant.
Context {L N V T : Type} (P : bytes -> Prop) `{!Cached V T, !CellCodec T, !CellCodecLaws T}.
Context `{!MemoryProvider L, !MemoryLaws L P}.
Local Abbreviation world := (World L N V).
Implicit Types (w : world) (c : Cell T) (x : T) (s : System L N V T) (t : nat) (key : CellKey).
Context (values : T -> Prop) (Hvalues : forall x, values x -> known P x).

(** The content of an edition is a value, under a version that was issued for it. *)
Definition sound_edition (e : Edition bytes) : Prop :=
  (exists x, encode_value x = Ok (content e)) /\ P (content e) /\ issued (P := P) (S := L) (version e) (content e).
Definition sound_cached (e : Edition T) : Prop :=
  exists b, encode_value (content e) = Ok b /\ sound_edition (mkEdition b (version e)).
Definition sound_base (expected : option Version) (base : option T) : Prop :=
  match expected, base with
  | None, None => True
  | Some v, Some x => sound_cached (mkEdition x v)
  | _, _ => False
  end.
Definition sound_task key (k : Task T) : Prop :=
  match k with
  | Idle | Checkpointed _ => True
  | Based head base => capability (checkpoint_cell head) = key /\ sound_base (checkpoint_expected head) base
  | Accepted head x v => sound_cached (mkEdition x v)
  | Fetched c o => forall e, o = Some e -> sound_edition e
  end.

Record coherent key (start : option bytes) s : Prop := {
  coherent_valid : memory_valid (local (shared s));
  coherent_stored e : held (local (shared s)) key = Some e -> exists x, encode_value x = Ok (content e);
  coherent_caches c e : cell_edition c (shared s) = Some e -> sound_cached e;
  coherent_tasks t : sound_task key (task s t);
  coherent_log : linear start (content <$> held (local (shared s)) key) (log s)
}.

Lemma stored_content_held key w : memory_valid (local w) -> stored_content key w = content <$> held (local w) key.
Proof. intros Hv. unfold stored_content. by destruct (resolve_held key (local w) Hv) as (s' & -> & _). Qed.
Lemma cell_edition_insert c id (e : option (Edition T)) w :
  cell_edition c (set_heap (<[id := map_edition inject <$> e]> (heap w)) w)
  = if decide (cache c = id) then e else cell_edition c w.
Proof.
  case_decide as Hd.
  - subst id. exact (cache_edition_set c e w).
  - exact (cache_edition_set_ne c (mkCell (capability c) id) e w Hd).
Qed.
Lemma task_with_task s t w k t' : task (with_task s t w k) t' = if decide (t' = t) then k else task s t'.
Proof.
  unfold task, with_task. simpl. case_decide; subst; [by rewrite lookup_insert_eq|by rewrite lookup_insert_ne].
Qed.

(** A step that leaves the provider's cells alone. *)
Lemma coherent_with key start s t w k :
  coherent key start s -> memory_valid (local w) -> (forall key, held (local w) key = held (local (shared s)) key) ->
  (forall c e, cell_edition c w = Some e -> sound_cached e) -> sound_task key k ->
  coherent key start (with_task s t w k).
Proof.
  intros [Hv Hst Hc Ht Hl] Hv' Hh Hc' Hk. split; simpl; [done|by rewrite Hh|done| |by rewrite Hh].
  intros t'. rewrite task_with_task. by case_decide.
Qed.
Lemma sound_read key start s c :
  coherent key start s -> sound_base (cell_version c (shared s)) (cell_content c (shared s)).
Proof.
  intros Hs. unfold cell_version, cell_content. destruct (cell_edition c (shared s)) as [[x v]|] eqn:E; [|done].
  exact (coherent_caches _ _ _ Hs _ _ E).
Qed.

Lemma sound_edition_of v x : known P x -> (exists b, encode_value x = Ok b /\ issued (P := P) (S := L) v b) -> sound_cached (mkEdition x v).
Proof.
  intros (b & Eb & HP) (b' & Eb' & Hi). rewrite Eb in Eb'. injection Eb' as <-.
  exists b. split; [done|]. split; [by exists x|done].
Qed.

(** One step of a cooperative executor. *)
Lemma step_coherent key start s s' :
  coherent key start s -> step false values key s s' -> coherent key start s'.
Proof.
  intros Hs Hstep. pose proof Hs as [Hv Hst Hc Ht Hl]. destruct Hstep as
    [c w t Hidle E|c t Hidle Hcap|c t Hth _ _|head t Hth _|head base x b t l v Hb Hx Eb E|head base x b t l e Hb Hx Eb E
    |head x v t w Ha E|c t l o Hidle Hcap E|c t o w r Hf E]; try discriminate Hth.
  - injection E as <- <-. apply coherent_with; try done. intros c' e.
    rewrite (cell_edition_insert c' _ None). case_decide; [done|apply Hc].
  - apply coherent_with; try done. split; [done|]. by apply (sound_read key start).
  - pose proof (Ht t) as Hk. rewrite Hb in Hk. destruct Hk as [Hcap Hbase]. rewrite Hcap in E.
    destruct (Hvalues x Hx) as (b' & Eb' & HP). rewrite Eb in Eb'. injection Eb' as <-.
    assert (memory_valid l /\ (forall e, held l key = Some e -> exists x, encode_value x = Ok (content e)) /\
      content <$> held l key = Some b /\ issued (P := P) (S := L) v b /\
      (on_top base (content <$> held (local (shared s)) key) \/ Some b = content <$> held (local (shared s)) key))
      as (Hv' & Hst' & Hnew & Hi & Hon).
    { destruct (decide (version <$> held (local (shared s)) key = checkpoint_expected head)) as [Ev|Ev].
      - destruct (publish_current key b _ _ Hv HP Ev) as (l' & v' & E' & Hi & Hv' & Hk & _).
        rewrite E in E'. injection E' as <- <-. rewrite Hk. split; [done|]. split; [by intros e [= <-]; exists x|].
        split; [done|]. split; [done|]. left. unfold on_top, sound_base in *. rewrite <- Ev in Hbase.
        destruct (held (local (shared s)) key) as [e|] eqn:Eh, base as [y|]; simpl in *; try done.
        destruct Hbase as (b0 & Eb0 & _ & HP0 & Hi0). destruct (held_issued key e _ Hv Eh) as [Hie HPe].
        simpl in *. by rewrite Eb0, (issued_inj (version e) b0 (content e)).
      - destruct (publish_stale key b _ _ Hv HP Ev) as (l' & r & E' & Hv' & Hh & Hr). rewrite E in E'. injection E' as <- <-.
        destruct Hr as [(v' & Hk & [= <-])|[=]]. rewrite Hh, Hk.
        destruct (held_issued key _ _ Hv Hk) as [Hi _].
        split; [done|split; [by intros e [= <-]; exists x|split; [done|split; [done|by right]]]]. }
    split; simpl.
    + done.
    + done.
    + intros c e. exact (Hc c e).
    + intros t'. change (sound_task key (task (with_task s t (set_part l (shared s)) (Accepted head x v)) t')).
      rewrite task_with_task. case_decide; [|apply Ht]. apply sound_edition_of; [by exists b|by exists b].
    + rewrite Hnew. split; [exact Eb|]. rewrite (stored_content_held key _ Hv). by split.
  - pose proof (Ht t) as Hk. rewrite Hb in Hk. destruct Hk as [Hcap Hbase]. rewrite Hcap in E.
    destruct (Hvalues x Hx) as (b' & Eb' & HP). rewrite Eb in Eb'. injection Eb' as <-.
    destruct (decide (version <$> held (local (shared s)) key = checkpoint_expected head)) as [Ev|Ev].
    { destruct (publish_current key b _ _ Hv HP Ev) as (l' & v' & E' & _). congruence. }
    destruct (publish_stale key b _ _ Hv HP Ev) as (l' & r & E' & Hv' & Hh & Hr). rewrite E in E'. injection E' as <- <-.
    by apply coherent_with.
  - injection E as <-. pose proof (Ht t) as Hk. rewrite Ha in Hk. apply coherent_with; try done.
    intros c' e. rewrite (cell_edition_insert c' _ (Some (mkEdition x v))). case_decide; [by intros [= <-]|apply Hc].
  - destruct (resolve_held key (local (shared s)) Hv) as (l' & E' & Hv' & Hh). rewrite E in E'. injection E' as <- ->.
    apply coherent_with; try done. intros e He. destruct (held_issued key e _ Hv He). split; [by apply Hst|done].
  - pose proof (Ht t) as Hk. rewrite Hf in Hk. simpl in Hk.
    destruct o as [[b v]|]; cbn [cache_apply content version] in E.
    + destruct (Hk _ eq_refl) as ([x Ex] & HP & Hi). simpl in *. unfold cache_decode in E.
      rewrite (decode_encode _ _ Ex) in E. cbn [map_err] in E. injection E as <- <-.
      apply coherent_with; try done. intros c' e.
      rewrite (cell_edition_insert c' _ (Some (mkEdition x v))). case_decide; [|apply Hc].
      intros [= <-]. apply sound_edition_of; by exists b.
    + injection E as <- <-. apply coherent_with; try done. intros c' e.
      rewrite (cell_edition_insert c' _ None). case_decide; [done|apply Hc].
Qed.

(** C11: No commit is lost on a cooperative executor.  Whatever the tasks of a
    program that share the handles of the head of a branch do (open, commit in
    steps, refresh, in any interleaving at the awaits), the contents the head has
    had form one line: each publish that was accepted was built on exactly the
    content it replaced (or put back the content that was there), so nothing that
    was accepted is skipped by what comes later. *)
Theorem commits_linear key s s' :
  initial s -> memory_valid (local (shared s)) ->
  (forall e, held (local (shared s)) key = Some e -> exists x, encode_value x = Ok (content e)) ->
  rtc (step false values key) s s' ->
  linear (content <$> held (local (shared s)) key) (content <$> held (local (shared s')) key) (log s').
Proof.
  intros [Hi Ht Hl] Hv Hst Hrun.
  assert (coherent key (content <$> held (local (shared s)) key) s) as Hs.
  { split; [done|done| | |by rewrite Hl].
    - intros c e. unfold cell_edition. destruct (Hi (cache c)) as [-> | ->]; done.
    - intros t. unfold task. by rewrite Ht. }
  revert Hs. generalize (content <$> held (local (shared s)) key). clear -Hrun Hvalues MemoryLaws0 CellCodecLaws0.
  induction Hrun as [s|s s1 s' Hstep _ IH]; intros start Hs; [by apply Hs|].
  apply IH. by eapply step_coherent.
Qed.

(** [Checkpoint::publish] without interruption is a publish and an update. *)
Lemma checkpoint_publish_steps key s t head base x w :
  task s t = Based head base -> values x -> checkpoint_publish (S := L) head x (shared s) = (w, Ok tt) ->
  exists s1, step false values key s s1 /\ step false values key s1 (with_task s1 t w Idle).
Proof.
  intros Hb Hx E. unfold checkpoint_publish in E. destruct (Hvalues x Hx) as (b & Eb & _).
  rewrite (publish_when_unfold _ _ _ _ b Eb) in E. change (part (shared s)) with (local (shared s)) in E.
  destruct (provider_publish _ b _ (local (shared s))) as [l [v|e|m|]] eqn:Ep; try done. injection E as <-.
  eexists. split; [by eapply step_publish|]. eapply step_update; [|reflexivity].
  unfold task. simpl. by rewrite lookup_insert_eq.
Qed.
End invariant.

(** * Runs

    Racing commits on the volatile provider: a run of a cooperative executor, and
    a run of threads that loses a commit. *)
From S2P Require Import Nodes Instances.
#[local] Existing Instances toy_blake3 Volatile.volatile_memory.

Lemma string_of_list_byte_inj b c : String.string_of_list_byte b = String.string_of_list_byte c -> b = c.
Proof.
  intros E. rewrite <- (String.list_byte_of_string_of_list_byte b), <- (String.list_byte_of_string_of_list_byte c).
  by rewrite E.
Qed.
#[local] Program Instance plain_base58 : Base58 := {| to_base58 := String.string_of_list_byte |}.
Next Obligation. intros b c. apply string_of_list_byte_inj. Qed.

(** Values that are their own encoding. *)
#[local] Instance bytes_cached : Cached bytes bytes := {| inject := id; project := Some; project_inject := fun _ => eq_refl |}.
#[local] Instance bytes_codec : CellCodec bytes := {| encode_value b := Ok b; decode_value b := Ok b |}.
#[local] Program Instance bytes_codec_laws : CellCodecLaws bytes.
Next Obligation. by intros b c [= ->]. Qed.

Definition versions : list bytes := [[x00]; [x01]; [x02]].
Definition demo_values (b : bytes) : Prop := b ∈ versions.
Lemma versions_free : collision_free demo_values.
Proof. apply collision_freeb_spec. vm_compute. reflexivity. Qed.
Lemma values_known b : demo_values b -> known demo_values b.
Proof. intros Hb. by exists b. Qed.
#[local] Instance demo_memory_laws : MemoryLaws Volatile.t demo_values := Volatile.volatile_memory_laws demo_values versions_free.

Definition head_key : CellKey := mkCellKey "did:key:alice" "branch/main" "revision".
Definition head_cell : Cell bytes := mkCell head_key 1%positive.
Definition quiet : System Volatile.t unit bytes bytes := mkSystem (mkWorld Volatile.new tt {[1%positive := None]} ∅) ∅ [].
Lemma quiet_initial : initial quiet.
Proof.
  split; [|done|done]. intros id. destruct (decide (id = 1%positive)) as [->|Hn]; [by right|left].
  by apply lookup_singleton_ne.
Qed.
Lemma quiet_valid : memory_valid (local (shared quiet)).
Proof. intros key b. unfold Volatile.cell_of, Volatile.session. simpl. by rewrite !lookup_empty. Qed.

(** Two commits from the same head: the second one is refused, refreshes and
    lands on the first. *)
Definition racing : list (Action bytes) :=
  [Start 0 head_cell; Start 1 head_cell; Publish 0 [x00]; Publish 1 [x01]; Update 0; Start 1 head_cell; Publish 1 [x01]; Update 1].

Definition after (l : list (Action bytes)) : System Volatile.t unit bytes bytes :=
  default quiet (acts head_key l quiet).
Lemma acts_after l : bool_decide (is_Some (acts head_key l quiet)) = true -> acts head_key l quiet = Some (after l).
Proof. intros [s Hs]%bool_decide_eq_true. unfold after. by rewrite Hs. Qed.
Lemma racing_runs : acts head_key racing quiet = Some (after racing).
Proof. apply acts_after. vm_compute. reflexivity. Qed.
Lemma racing_within : Forall (within false demo_values) racing.
Proof. repeat (constructor; [try exact I; unfold within, demo_values, versions; set_solver|]). constructor. Qed.

Lemma commits_linear_witness :
  initial quiet /\ rtc (step false demo_values head_key) quiet (after racing) /\
  linear (content <$> held (local (shared quiet)) head_key) (content <$> held (local (shared (after racing))) head_key)
    (log (after racing)).
Proof.
  assert (rtc (step false demo_values head_key) quiet (after racing)) as Hrun
    by exact (acts_steps false demo_values head_key racing quiet (after racing) racing_within racing_runs).
  split; [exact quiet_initial|split; [exact Hrun|]].
  refine (commits_linear demo_values demo_values values_known head_key quiet (after racing)
    quiet_initial quiet_valid _ Hrun).
  intros e He. exists (content e). reflexivity.
Defined.

(** A refresh that was fetched before a commit is applied between the two reads
    of the next one. *)
Definition threaded : list (Action bytes) :=
  [Start 0 head_cell; Publish 0 [x00]; Update 0;       (* the head is at [x00] *)
   Resolve 1 head_cell;                                 (* a refresh has fetched [x00] *)
   Start 2 head_cell; Publish 2 [x01]; Update 2;       (* [x01] lands *)
   ReadHead 0 head_cell; Apply 1; ReadBase 0;          (* expects [x01], builds on [x00] *)
   Publish 0 [x02]].
Lemma threaded_runs : acts head_key threaded quiet = Some (after threaded).
Proof. apply acts_after. vm_compute. reflexivity. Qed.
Lemma threaded_within : Forall (within true demo_values) threaded.
Proof. repeat (constructor; [try exact I; unfold within, demo_values, versions; first [reflexivity|set_solver]|]). constructor. Qed.

