(* ===== verification/SyncInstances.v ===== *)
(** A small world to synchronize in: stores that hold given trees, the volatile
    provider as the local store and as the one site of the network, and codecs
    that know a table of values. *)
From S2P Require Import Prelude Common Nodes SortedEntries Forest Walker TransientTree Instances Repr Spine Fuse Edits Batch Persist Read Access Integrate Differential DifferentialCorrect Rebase Providers Cells Revisions Sync SyncBase SyncCorrect PushCorrect.

(** * Stores of trees *)
Section stores.
Context {K V : Type} `{Key K, NodeCodec K V, Blake3} {D : Distribution} `{EqDecision V}.
Context (Htotal : codec_total (K := K) (V := V)) (R : nat) (rank_le : forall b, (rank b <= R)%nat).
Context (P : bytes -> Prop) (Hcf : collision_free P).
Implicit Types (es : list (Entry K V)) (f : Blocks) (bs : list bytes).

(** What persisting the tree over some entries writes, and its root. *)
Definition packed es : list bytes := (map_to_list (persist_tree (memory_root es) Delta.zero).1).*2.
Definition packed_root es : Blake3Hash :=
  match (persist_tree (memory_root es) Delta.zero).2 with Ok h => h | _ => NULL_BLAKE3_HASH end.
(** The serialized nodes of the trees over some entries, and their roots. *)
Definition tree_buffers es : list bytes :=
  concat ((fun h => match forest h es with [p] => sealed p | _ => [] end) <$> seq 0 (S (S R))).
Definition tree_roots es : list Blake3Hash :=
  (match es with [] => [NULL_BLAKE3_HASH] | _ => [] end) ++
  concat ((fun h => match forest h es with [p] => [blake3 (ser p)] | _ => [] end) <$> seq 0 (S (S R))).

Lemma tree_buffers_serialize es : (forall b, b ∈ tree_buffers es -> P b) -> serializes_in P R es.
Proof.
  intros HP h p b Hh Hp Hb. apply HP. unfold tree_buffers. apply elem_of_concat. exists (sealed p).
  split; [|done]. apply list_elem_of_fmap. exists h. split; [by rewrite Hp|]. apply elem_of_seq. lia.
Qed.
Lemma tree_roots_spec es root : root_of R es root -> root ∈ tree_roots es.
Proof.
  unfold tree_roots. rewrite elem_of_app. intros [[-> ->]|(h & p & Hh & Hp & ->)]; [left; by apply list_elem_of_singleton|right].
  apply elem_of_concat. exists [blake3 (ser p)]. split; [|by apply list_elem_of_singleton].
  apply list_elem_of_fmap. exists h. split; [by rewrite Hp|]. apply elem_of_seq. lia.
Qed.

Lemma packed_spec es : sorted es -> serializes_in P R es ->
  (forall b, b ∈ packed es -> P b /\ exists body : PersistentNodeBody K V, to_bytes body = Some b) /\
  forall f, content_addressed f -> (forall h b, f h = Some b -> P b) ->
    (forall b, b ∈ packed es -> is_Some (f (blake3 b))) ->
    holds_tree R (blocks_accessor f) es (mkTreeReference (packed_root es)).
Proof.
  intros Hs Hser. unfold packed, packed_root.
  destruct (persist_represents Htotal R no_storage P es (memory_root es)) as (d & root & E & Hws & HP & Hr & _); try done.
  { apply canonical_represents; [done|by apply memory_root_canonical]. }
  rewrite E. cbn [fst snd].
  assert (forall h b, d !! h = Some b -> blake3 b = h /\ P b /\ exists body : PersistentNodeBody K V, to_bytes body = Some b) as Hd.
  { intros h b Hb. assert (overlay d no_storage h = Ok (mkPersistentNode b)) as Ho by (unfold overlay; by rewrite Hb).
    destruct (Hws _ _ Ho) as [Hh Hbody]. split; [done|split; [by apply (HP _ _ Ho)|done]]. }
  split.
  - intros b ([h b'] & -> & Hb%elem_of_map_to_list)%list_elem_of_fmap. by apply (Hd h).
  - intros f Hca HPf Hall. eapply holds_tree_extends; [|exact Hr]. intros h node. unfold overlay.
    destruct (d !! h) as [b|] eqn:Eb; [|done]. intros [= <-]. destruct (Hd _ _ Eb) as (Hh & HPb & _).
    apply blocks_accessor_Ok. simpl. split; [|done].
    destruct (Hall b) as [b' Eb'].
    { apply list_elem_of_fmap. exists (h, b). split; [done|]. by apply elem_of_map_to_list. }
    rewrite Hh in Eb'. rewrite Eb'. f_equal. apply (proj1 Hcf); [by eapply HPf|done|]. rewrite Hh. by apply Hca.
Qed.

Lemma blocks_tree_store f : content_addressed f ->
  (forall h b, f h = Some b -> P b /\ exists body : PersistentNodeBody K V, to_bytes body = Some b) ->
  tree_store (K := K) (V := V) P (blocks_accessor f).
Proof.
  intros Hca Hf. split; intros h node [Hn Hh]%blocks_accessor_Ok; [|by apply (Hf h)].
  split; [done|by apply (Hf h)].
Qed.

(** The blocks of a list. *)
Lemma block_map_Some bs h b : block_map bs !! h = Some b -> b ∈ bs /\ blake3 b = h.
Proof.
  unfold block_map. intros Hb%elem_of_list_to_map_2. apply list_elem_of_fmap in Hb as (b' & [= -> ->] & Hb). done.
Qed.
Lemma block_map_covers bs b : b ∈ bs -> is_Some (block_map bs !! blake3 b).
Proof.
  intros Hb. unfold block_map. destruct (list_to_map _ !! _) eqn:E; [eauto|]. exfalso.
  apply not_elem_of_list_to_map_2 in E. apply E. rewrite <- list_fmap_compose. apply list_elem_of_fmap. by exists b.
Qed.
End stores.

(** * The volatile provider, locally and as a site *)
Section volatile.
Context `{Blake3, Base58} (P : bytes -> Prop) (Hcf : collision_free P).
Implicit Types (s n : Volatile.t).
#[local] Existing Instances Volatile.volatile_memory Volatile.volatile_archive.

#[local] Instance volatile_fork : ForkProvider unit Volatile.t := {|
  fork_memory _ := Volatile.volatile_memory; fork_archive _ := Volatile.volatile_archive |}.
#[local] Instance volatile_fork_laws : ForkLaws unit Volatile.t P := {| fork_laws _ := Volatile.volatile_laws P Hcf |}.

(** A reader of the volatile provider has the blob as one chunk; a sink is
    written chunk by chunk, then finished. *)
Definition volatile_blob_read (d : Did) (h : Blake3Hash) : stateful Volatile.t BlobError (list bytes) := fun s =>
  (s, match Volatile.read d h None s with
      | Ok b => Ok [b] | Err e => Err e | Panic m => Panic m | OutOfFuel => OutOfFuel end).
Fixpoint write_chunks (chunks : list bytes) (sink : Volatile.MemoryBlobSink) : Volatile.MemoryBlobSink :=
  match chunks with [] => sink | c :: chunks => write_chunks chunks (Volatile.write_all c sink).1 end.
Definition volatile_blob_import (d : Did) (h : Blake3Hash) (chunks : list bytes) : stateful Volatile.t BlobError unit :=
  _ ← Volatile.finish (write_chunks chunks (Volatile.open_blob_sink d (Some h))); mret tt.
#[local] Instance volatile_blobs : BlobProvider Volatile.t Volatile.t unit := {|
  blob_read := volatile_blob_read;
  fork_blob_import _ d h _ chunks := volatile_blob_import d h chunks |}.

Lemma write_chunks_spec chunks : forall sink,
  write_chunks chunks sink = Volatile.mkSink (Volatile.sink_subject sink) (Volatile.sink_buffer sink ++ concat chunks)
    (Volatile.hasher sink ++ concat chunks) (Volatile.expected sink).
Proof.
  induction chunks as [|c chunks IH]; intros sink; simpl; [rewrite !app_nil_r; by destruct sink|].
  rewrite IH. simpl. by rewrite <- !app_assoc.
Qed.
Lemma digest_key_inj h h' : Volatile.digest_key h = Volatile.digest_key h' -> h = h'.
Proof. unfold Volatile.digest_key. intros E%(inj to_base58). destruct h, h'. simpl in E. by subst. Qed.

#[local] Instance volatile_laws_local : ProviderLaws Volatile.t P := Volatile.volatile_laws P Hcf.

Lemma volatile_import_spec d h chunks n : blake3 (concat chunks) = h ->
  exists n', volatile_blob_import d h chunks n = (n', Ok tt) /\
    (forall k, Volatile.cell_of n' k = Volatile.cell_of n k) /\
    (forall d' c h', Volatile.block_of n' d' c h' = Volatile.block_of n d' c h') /\
    forall d' h', Volatile.blob_of n' d' h' =
      if decide (d' = d /\ h' = h) then Some (default (concat chunks) (Volatile.blob_of n d h)) else Volatile.blob_of n d' h'.
Proof.
  intros Hh. unfold volatile_blob_import. rewrite write_chunks_spec. cbn [Volatile.open_blob_sink Volatile.sink_subject
    Volatile.sink_buffer Volatile.hasher Volatile.expected app].
  unfold Volatile.finish. cbn [Volatile.sink_subject Volatile.sink_buffer Volatile.hasher Volatile.expected].
  unfold mbind, stateful_bind. rewrite decide_False by (rewrite Hh; tauto). rewrite Hh.
  eexists. split; [reflexivity|]. split; [|split].
  - intros k. rewrite Volatile.cell_of_put. case_decide; [by subst|done].
  - intros d' c h'. unfold Volatile.block_of. rewrite Volatile.session_put. by case_decide; subst.
  - intros d' h'. unfold Volatile.blob_of. rewrite Volatile.session_put.
    destruct (decide (d' = d)) as [->|Hd]; [|by rewrite decide_False by tauto]. cbn [Volatile.blobs Volatile.set_blobs].
    destruct (decide (h' = h)) as [->|Hn].
    + rewrite decide_True by done.
      destruct (Volatile.blobs _ !! _) eqn:Eb; [by rewrite Eb|by rewrite lookup_insert_eq].
    + rewrite decide_False by tauto. destruct (Volatile.blobs _ !! Volatile.digest_key h); [done|].
      rewrite lookup_insert_ne; [done|]. intros E%digest_key_inj. by apply Hn.
Qed.

#[local] Program Instance volatile_blob_laws : BlobLaws Volatile.t Volatile.t unit P.
Next Obligation.
  intros s d h b Hb. exists [b]. split; [|simpl; by rewrite app_nil_r]. unfold blob_read, volatile_blobs, volatile_blob_read.
  change (Volatile.blob_of s d h = Some b) in Hb. unfold Volatile.read. unfold Volatile.blob_of, Volatile.session in Hb.
  destruct (Volatile.sessions s !! d) as [ses|]; simpl in *; [by rewrite Hb|by rewrite lookup_empty in Hb].
Qed.
Next Obligation.
  intros a d h size chunks n Hh. destruct (volatile_import_spec d h chunks n Hh) as (n' & E & Hc & Hb & Hbl).
  exists n'. split; [exact E|split; [|split; [intros; apply Hb|exact Hbl]]].
  intros Hv. destruct (Volatile.volatile_same P n n' Hc) as [Hv' Hk]. split; [by apply Hv'|exact Hk].
Qed.

(** A store with the given cells, blocks of the index and blobs. *)
Definition make (subj : Did) (cells : list (CellKey * bytes)) (bs blobs : list bytes) : Volatile.t :=
  foldr (fun kb s => (Volatile.publish kb.1 kb.2 None s).1)
    (foldr (fun b s => (volatile_blob_import subj (blake3 b) [b] s).1) (Volatile.import subj INDEX bs Volatile.new).1 blobs)
    cells.

Lemma make_base subj bs blobs :
  let s := foldr (fun b s => (volatile_blob_import subj (blake3 b) [b] s).1) (Volatile.import subj INDEX bs Volatile.new).1 blobs in
  (forall k, Volatile.cell_of s k = None) /\
  forall h, Volatile.block_of s subj INDEX h = block_map bs !! h.
Proof.
  induction blobs as [|b blobs [IH1 IH2]]; cbn [foldr].
  - pose proof (import_stored subj INDEX bs Volatile.new) as (s & E & Hs).
    change (archive_import subj INDEX bs Volatile.new) with (Volatile.import subj INDEX bs Volatile.new) in E. rewrite E. split.
    + intros k. destruct bs as [|b bs]; injection E as <-; [done|].
      exact (Volatile.cell_of_archive Volatile.new subj (foldl (Volatile.or_insert INDEX) (Volatile.archive (Volatile.session Volatile.new subj)) (b :: bs)) k).
    + intros h. change (stored_blocks s subj INDEX h = block_map bs !! h). rewrite Hs, decide_True by done.
      by rewrite add_blocks_lookup.
  - destruct (volatile_import_spec subj (blake3 b) [b]
      (foldr (fun b s => (volatile_blob_import subj (blake3 b) [b] s).1) (Volatile.import subj INDEX bs Volatile.new).1 blobs))
      as (n' & E & Hc & Hb & _); [simpl; by rewrite app_nil_r|]. rewrite E. cbn [fst].
    split; intros; [by rewrite Hc|by rewrite Hb].
Qed.
Lemma make_blocks subj cells bs blobs h : Volatile.block_of (make subj cells bs blobs) subj INDEX h = block_map bs !! h.
Proof.
  unfold make. induction cells as [|[k b] cells IH]; cbn [foldr fst snd]; [apply make_base|].
  rewrite <- IH.
  match goal with |- _ = Volatile.block_of ?s _ _ _ => destruct (Volatile.publish_spec k b None s) as (s' & o & -> & Hb & _) end.
  apply Hb.
Qed.
Lemma make_valid subj cells bs blobs : Forall (fun kb => P kb.2) cells -> Volatile.volatile_valid P (make subj cells bs blobs).
Proof.
  unfold make. induction cells as [|[k b] cells IH]; cbn [foldr fst snd].
  - intros _ k b. by rewrite (proj1 (make_base subj bs blobs)).
  - intros [Hb Hs]%Forall_cons. specialize (IH Hs). simpl in Hb.
    match goal with |- Volatile.volatile_valid P (Volatile.publish k b None ?s).1 => generalize dependent s end.
    intros s Hv. destruct (Volatile.publish_spec k b None s) as (s' & o & -> & _ & Hspec). cbn [fst].
    repeat case_decide; destruct Hspec as [_ Hc]; intros k' b'; rewrite Hc; try case_decide;
      try (by intros [= <-]); apply Hv.
Qed.
End volatile.

(** * Codecs of a table of values *)
Section tables.
Context {T : Type} `{EqDecision T} (tag : byte) (table : list T).
Definition table_encode (x : T) : outcome string bytes :=
  match list_find (fun y => x = y) table with
  | Some (i, _) => Ok (tag :: replicate i x00) | None => Err "not in the table" end.
Definition table_decode (b : bytes) : outcome string T :=
  match table !! (length b - 1)%nat with Some x => Ok x | None => Err "not in the table" end.
Definition table_codec : CellCodec T := {| encode_value := table_encode; decode_value := table_decode |}.
Lemma table_laws : @CellCodecLaws T table_codec.
Proof.
  split. intros x b. cbn. unfold table_encode. destruct (list_find _ table) as [[i y]|] eqn:E; [|done].
  apply list_find_Some in E as (Hi & <- & _). intros [= <-]. unfold table_decode. simpl.
  by rewrite length_replicate, Nat.sub_0_r, Hi.
Qed.
Definition table_codes : list bytes := (fun i => tag :: replicate i x00) <$> seq 0 (length table).
Lemma table_known (P : bytes -> Prop) x :
  (forall b, b ∈ table_codes -> P b) -> x ∈ table -> @known P T table_codec x.
Proof.
  intros HP Hx. unfold known, encode_value, table_codec, table_encode.
  destruct (list_find (fun y => x = y) table) as [[i y]|] eqn:E.
  - apply list_find_Some in E as (Hi & <- & _). eexists. split; [reflexivity|]. apply HP.
    apply list_elem_of_fmap. exists i. split; [done|]. apply elem_of_seq. apply lookup_lt_Some in Hi. lia.
  - apply list_find_None in E. rewrite Forall_forall in E. by destruct (E x Hx).
Qed.
End tables.
