(* ===== verification/SyncDemo.v ===== *)
(** A repository, its remote, and what committing to, pulling and pushing do to
    them. *)
From S2P Require Import Prelude Common Nodes SortedEntries Forest Walker TransientTree Instances Repr Spine Fuse Edits Batch Persist Read Access Integrate Differential DifferentialCorrect Rebase BlobIndex Providers Cells Revisions Sync SyncBase SyncCorrect PushCorrect Demo History SyncInstances.
#[local] Existing Instances byte_key byte_codec toy_blake3 toy_distribution plain_base58.
#[local] Existing Instances Volatile.volatile_memory Volatile.volatile_archive volatile_fork volatile_blobs.

#[local] Instance Upstream_eq_dec : EqDecision Upstream.
Proof. solve_decision. Defined.
#[local] Instance address_eq_dec : EqDecision (RemoteAddress unit).
Proof. solve_decision. Defined.
#[local] Instance demo_identity : Identity := {| identify := Ok ("did:op", "did:alice") |}.

(** What was there at the last sync, and what the two sides have now. *)
Definition base_es : list (Entry byte byte) := demo_entries [x01; x04].
Definition local_es : list (Entry byte byte) := demo_entries [x01; x04; x08].
Definition their_es : list (Entry byte byte) := demo_entries [x01; x0c].
Definition byte_bytes (v : byte) : bytes := [v].
Definition merged_es : list (Entry byte byte) := merged_entries byte_bytes base_es local_es their_es.
Definition ref_of (es : list (Entry byte byte)) : TreeReference := mkTreeReference (packed_root es).

Definition alice : Did := "did:alice".
Definition hub : Did := "did:hub".
Definition rev_base : Revision := Revision.new (ref_of base_es) alice "did:op" "did:alice".
Definition rev_local : Revision := Revision.advance rev_base (ref_of local_es) "did:op" "did:alice".
Definition rev_theirs : Revision := Revision.advance rev_base (ref_of their_es) "did:bob" "did:bob".
Definition by_alice : Did * Did := ("did:op", "did:alice").
Definition marker (es : list (Entry byte byte)) : Upstream := UpstreamRemote "origin" "main" (ref_of es).
Definition hub_address : RemoteAddress unit := mkAddress tt hub.

Definition revision_table : list Revision :=
  [rev_base; rev_local; rev_theirs] ++
  ((fun root => pulled (Some rev_local) rev_theirs (mkTreeReference root) by_alice) <$> tree_roots 4 merged_es).
Definition upstream_table : list Upstream := [marker base_es; marker local_es; marker their_es].
Definition revision_code (r : Revision) : bytes :=
  match table_encode x10 revision_table r with Ok b => b | _ => [] end.
Definition edition_table : list (Edition Revision) :=
  (fun r => mkEdition r (Volatile.edition_of (revision_code r))) <$> [rev_base; rev_local; rev_theirs].
#[local] Instance demo_codecs : Codecs unit := {|
  revision_codec := table_codec x10 revision_table;
  upstream_codec := table_codec x20 upstream_table;
  edition_codec := table_codec x30 edition_table;
  address_codec := table_codec x40 [hub_address] |}.
#[local] Instance demo_codecs_laws : CodecsLaws unit.
Proof. split; apply table_laws. Qed.

(** The bytes in play. *)
Definition demo_trees : list (list (Entry byte byte)) := [base_es; local_es; their_es; merged_es].
Definition in_play_list : list bytes :=
  table_codes x10 revision_table ++ table_codes x20 upstream_table ++ table_codes x30 edition_table ++
  table_codes x40 [hub_address] ++
  remove_dups (concat (tree_buffers 4 <$> demo_trees)).
Definition in_sync (b : bytes) : Prop := b ∈ in_play_list.
Lemma in_sync_free : collision_free in_sync.
Proof. apply collision_freeb_spec. vm_compute. reflexivity. Qed.
#[local] Instance demo_laws : ProviderLaws Volatile.t in_sync := Volatile.volatile_laws in_sync in_sync_free.
#[local] Instance demo_fork_laws : ForkLaws unit Volatile.t in_sync := volatile_fork_laws in_sync in_sync_free.
#[local] Instance demo_blob_laws : BlobLaws Volatile.t Volatile.t unit in_sync := volatile_blob_laws in_sync in_sync_free.

Lemma elem_of_apps {A} (x : A) (l1 l2 l3 l4 l5 : list A) :
  x ∈ l1 \/ x ∈ l2 \/ x ∈ l3 \/ x ∈ l4 \/ x ∈ l5 -> x ∈ l1 ++ l2 ++ l3 ++ l4 ++ l5.
Proof. rewrite !elem_of_app. tauto. Qed.
Lemma revision_codes b : b ∈ table_codes x10 revision_table -> in_sync b.
Proof. intros Hb. apply elem_of_apps. by left. Qed.
Lemma upstream_codes b : b ∈ table_codes x20 upstream_table -> in_sync b.
Proof. intros Hb. apply elem_of_apps. right. by left. Qed.
Lemma edition_codes b : b ∈ table_codes x30 edition_table -> in_sync b.
Proof. intros Hb. apply elem_of_apps. right. right. by left. Qed.
Lemma buffers_in_sync es b : es ∈ demo_trees -> b ∈ tree_buffers 4 es -> in_sync b.
Proof.
  intros Hes Hb. apply elem_of_apps. do 4 right. apply elem_of_remove_dups.
  apply elem_of_concat. exists (tree_buffers 4 es). split; [|exact Hb]. apply list_elem_of_fmap. exists es. split; [reflexivity|exact Hes].
Qed.
Lemma demo_serializes es : es ∈ demo_trees -> serializes_in in_sync 4 es.
Proof. intros Hes. apply tree_buffers_serialize. intros b. by apply buffers_in_sync. Qed.
Lemma demo_es_sorted es : es ∈ demo_trees -> sorted es.
Proof.
  intros Hes. apply sortedb_sorted. assert (forallb sortedb demo_trees = true) as Hall by (vm_compute; reflexivity).
  rewrite forallb_forall in Hall. by apply Hall, list_elem_of_In.
Qed.
Lemma demo_packed es : es ∈ demo_trees ->
  (forall b, b ∈ packed es -> in_sync b /\ exists body : PersistentNodeBody byte byte, to_bytes body = Some b) /\
  forall f, content_addressed f -> (forall h b, f h = Some b -> in_sync b) ->
    (forall b, b ∈ packed es -> is_Some (f (blake3 b))) -> holds_tree 4 (blocks_accessor f) es (ref_of es).
Proof.
  intros Hes. apply (packed_spec byte_codec_total 4 toy_rank_le in_sync in_sync_free); [by apply demo_es_sorted|by apply demo_serializes].
Qed.

(** Cells as they are stored. *)
Definition cell_code {T} `{CellCodec T} (x : T) : bytes := match encode_value x with Ok b => b | _ => [] end.
Definition edition_for {T} `{CellCodec T} (x : T) : Edition T := mkEdition x (Volatile.edition_of (cell_code x)).
Lemma stored_cell {T} `{CellCodec T} (x : T) (s : Volatile.t) key :
  bool_decide (Volatile.cell_of s key = Some (cell_code x)) = true ->
  match encode_value x with Ok _ => true | _ => false end = true ->
  holds_cell in_sync s key (Some (edition_for x)).
Proof.
  intros Hc%bool_decide_eq_true He. unfold holds_cell, edition_for, cell_code in *. simpl.
  destruct (encode_value x) as [b| | |]; try done. exists b. split; [done|].
  change (Volatile.volatile_held s key = Some (mkEdition b (Volatile.edition_of b))).
  unfold Volatile.volatile_held. by rewrite Hc.
Qed.
Lemma no_stored_cell {T} `{CellCodec T} (s : Volatile.t) key :
  bool_decide (Volatile.cell_of s key = None) = true -> holds_cell (T := T) in_sync s key None.
Proof.
  intros Hc%bool_decide_eq_true. change (Volatile.volatile_held s key = None). unfold Volatile.volatile_held. by rewrite Hc.
Qed.

Lemma stored_blob (s : Volatile.t) d h b :
  bool_decide (Volatile.blob_of s d h = Some b) = true -> stored_blobs s d h = Some b.
Proof. intros Hb%bool_decide_eq_true. exact Hb. Qed.

(** * The worlds *)
Definition main_ref : BranchReference := subject_branch alice "main".
Definition hub_head : CellKey := BranchReference.revision (subject_branch hub "main").
Definition alice_store (blobs : list bytes) : Volatile.t :=
  make alice
    [(BranchReference.revision main_ref, cell_code rev_local); (BranchReference.upstream main_ref, cell_code (marker base_es));
     (RemoteReference.address (subject_remote alice "origin"), cell_code hub_address)]
    (packed base_es ++ packed local_es) blobs.
Definition hub_store (head : Revision) : Volatile.t :=
  make hub [(hub_head, cell_code head)] (packed base_es ++ packed their_es) [].
Definition main : Branch := mkBranch main_ref
  (mkCell (BranchReference.revision main_ref) 1%positive) (mkCell (BranchReference.upstream main_ref) 2%positive).
Definition demo_world (head : Revision) : World Volatile.t Volatile.t (cached unit) :=
  mkWorld (alice_store [[x08]]) (hub_store head)
    {[1%positive := Some (mkEdition (CachedRevision rev_local) (Volatile.edition_of (cell_code rev_local)));
      2%positive := Some (mkEdition (CachedUpstream (marker base_es)) (Volatile.edition_of (cell_code (marker base_es))))]} ∅.

Lemma cell_codes_known (cells : list (CellKey * bytes)) :
  forallb (fun kb => bool_decide (kb.2 ∈ in_play_list)) cells = true -> Forall (fun kb => in_sync kb.2) cells.
Proof. rewrite forallb_forall, Forall_forall. intros Hb kb Hkb%list_elem_of_In. apply (bool_decide_eq_true_1 (kb.2 ∈ in_play_list)). by apply Hb. Qed.
Lemma volatile_is_valid (s : Volatile.t) : Volatile.volatile_valid in_sync s -> memory_valid s.
Proof. intros Hv. exact Hv. Qed.
Lemma alice_valid blobs : memory_valid (alice_store blobs).
Proof. apply volatile_is_valid. unfold alice_store. apply (make_valid in_sync in_sync_free), cell_codes_known. vm_compute. reflexivity. Qed.
Lemma hub_valid head : bool_decide (cell_code head ∈ in_play_list) = true -> memory_valid (hub_store head).
Proof.
  intros Hh. apply volatile_is_valid. unfold hub_store. apply (make_valid in_sync in_sync_free), cell_codes_known. cbn [forallb snd]. by rewrite Hh.
Qed.

Lemma main_synced head :
  synced_branch in_sync main alice "main" (Some (edition_for rev_local)) (Some (edition_for (marker base_es))) (demo_world head).
Proof.
  refine (conj _ (conj _ _)).
  - assert (cache (revision main) <> cache (upstream main)) as Hne by (intros E; discriminate E).
    constructor; [reflexivity|reflexivity|reflexivity|exact Hne|eexists; reflexivity|eexists; reflexivity|reflexivity|reflexivity].
  - apply stored_cell; vm_compute; reflexivity.
  - apply stored_cell; vm_compute; reflexivity.
Qed.

(** * The archives *)
Lemma elem_of_packed es1 es2 b :
  es1 ∈ demo_trees -> es2 ∈ demo_trees -> b ∈ packed es1 ++ packed es2 ->
  in_sync b /\ exists body : PersistentNodeBody byte byte, to_bytes body = Some b.
Proof. intros H1 H2 [Hb|Hb]%elem_of_app; [by apply (demo_packed es1)|by apply (demo_packed es2)]. Qed.
Lemma base_tree : base_es ∈ demo_trees.
Proof. by left. Qed.
Lemma local_tree : local_es ∈ demo_trees.
Proof. right. by left. Qed.
Lemma their_tree : their_es ∈ demo_trees.
Proof. right. right. by left. Qed.
Lemma merged_tree : merged_es ∈ demo_trees.
Proof. right. right. right. by left. Qed.

(** The blocks a store reads: those of a list, and behind them those of another. *)
Lemma two_stores (f : Blocks) bs1 bs2 :
  (forall h, f h = match block_map bs1 !! h with Some b => Some b | None => block_map bs2 !! h end) ->
  content_addressed f /\ (forall h b, f h = Some b -> b ∈ bs1 \/ b ∈ bs2) /\
  forall b, b ∈ bs1 \/ b ∈ bs2 -> is_Some (f (blake3 b)).
Proof.
  intros Hf. split; [|split].
  - intros h b. rewrite Hf. destruct (block_map bs1 !! h) eqn:E; [intros [= <-]|intros E2]; by eapply block_map_Some.
  - intros h b. rewrite Hf. destruct (block_map bs1 !! h) eqn:E; [intros [= <-]|intros E2];
      [left|right]; by eapply block_map_Some.
  - intros b Hb. rewrite Hf. destruct (block_map bs1 !! blake3 b) eqn:E; [done|].
    destruct Hb as [Hb|Hb]; apply block_map_covers in Hb; [destruct Hb; congruence|done].
Qed.
Lemma demo_store (f : Blocks) es1 es2 es3 es4 :
  es1 ∈ demo_trees -> es2 ∈ demo_trees -> es3 ∈ demo_trees -> es4 ∈ demo_trees ->
  (forall h, f h = match block_map (packed es1 ++ packed es2) !! h with
                   | Some b => Some b | None => block_map (packed es3 ++ packed es4) !! h end) ->
  content_addressed f /\ tree_store (K := byte) (V := byte) in_sync (blocks_accessor f) /\
  forall es, es ∈ [es1; es2; es3; es4] -> holds_tree 4 (blocks_accessor f) es (ref_of es).
Proof.
  intros H1 H2 H3 H4 Hf. destruct (two_stores f _ _ Hf) as (Hca & Hin & Hcov).
  assert (forall h b, f h = Some b -> in_sync b /\ exists body : PersistentNodeBody byte byte, to_bytes body = Some b) as Hb.
  { intros h b [Hb|Hb]%Hin; eapply elem_of_packed; [| |exact Hb| | |exact Hb]; done. }
  split; [done|split; [by apply blocks_tree_store|]].
  intros es Hes. assert (es ∈ demo_trees) as Hd.
  { repeat (apply elem_of_cons in Hes as [->|Hes]; [done|]). by apply elem_of_nil in Hes. }
  apply (demo_packed es Hd); [done|by intros h b [? _]%Hb|].
  intros b Hp. apply Hcov.
  repeat (apply elem_of_cons in Hes as [->|Hes]; [rewrite !elem_of_app; tauto|]). by apply elem_of_nil in Hes.
Qed.

Lemma alice_blocks head h :
  networked_blocks in_sync alice (Some hub_address) (demo_world head) h =
  match block_map (packed base_es ++ packed local_es) !! h with
  | Some b => Some b | None => block_map (packed base_es ++ packed their_es) !! h end.
Proof.
  change (networked_blocks in_sync alice (Some hub_address) (demo_world head) h) with
    (match Volatile.block_of (alice_store [[x08]]) alice INDEX h with
     | Some b => Some b | None => Volatile.block_of (hub_store head) hub INDEX h end).
  unfold alice_store, hub_store. by rewrite !(make_blocks in_sync in_sync_free).
Qed.
Lemma alice_own_blocks head h :
  networked_blocks in_sync alice None (demo_world head) h =
  match block_map (packed base_es ++ packed local_es) !! h with
  | Some b => Some b | None => block_map (packed base_es ++ packed local_es) !! h end.
Proof.
  change (networked_blocks in_sync alice None (demo_world head) h) with
    (match Volatile.block_of (alice_store [[x08]]) alice INDEX h with Some b => Some b | None => None end).
  unfold alice_store. rewrite (make_blocks in_sync in_sync_free). by destruct (block_map _ !! h).
Qed.
Lemma hub_blocks head h :
  site_blocks in_sync tt (hub_store head) hub h =
  match block_map (packed base_es ++ packed their_es) !! h with
  | Some b => Some b | None => block_map (packed base_es ++ packed their_es) !! h end.
Proof.
  change (site_blocks in_sync tt (hub_store head) hub h) with (Volatile.block_of (hub_store head) hub INDEX h).
  unfold hub_store. rewrite (make_blocks in_sync in_sync_free). by destruct (block_map _ !! h).
Qed.

(** * Pulling *)
Lemma demo_diverged :
  diverged in_sync 4 byte_bytes 200 main alice "main" (Some (edition_for rev_local)) (edition_for (marker base_es))
    rev_theirs (Some hub_address) base_es local_es their_es (demo_world rev_theirs).
Proof.
  destruct (demo_store _ base_es local_es base_es their_es base_tree local_tree base_tree their_tree (alice_blocks rev_theirs))
    as (Hca & Hst & Hh).
  constructor.
  - apply alice_valid.
  - apply main_synced.
  - exists (edition_for hub_address), None, (Some (edition_for rev_theirs)).
    split; [apply stored_cell; vm_compute; reflexivity|].
    split; [apply no_stored_cell; vm_compute; reflexivity|].
    split; [apply hub_valid; vm_compute; reflexivity|].
    split; [apply (stored_cell rev_theirs (hub_store rev_theirs)); vm_compute; reflexivity|].
    split; [|split; reflexivity].
    intros e [= <-]. apply table_known; [apply edition_codes|]. right. right. by left.
  - apply (bool_decide_eq_true_1 (_ <> _)). vm_compute. reflexivity.
  - exact (conj Hca Hst).
  - apply Hh. by left.
  - apply Hh. right. by left.
  - apply Hh. right. right. right. by left.
  - done.
  - apply Nat.ltb_lt. vm_compute. reflexivity.
  - apply demo_serializes, merged_tree.
  - intros by_ root [= <-] Hroot%tree_roots_spec. apply table_known; [apply revision_codes|].
    apply elem_of_app. right. apply list_elem_of_fmap. exists root. split; [reflexivity|exact Hroot].
  - apply table_known; [apply upstream_codes|]. right. right. by left.
Qed.

Lemma pull_merges_witness :
  exists w' r v v' es,
    pull (K := byte) (V := byte) (fun v => Some [v]) 6 200 main [packed_root their_es] (demo_world rev_theirs) = (w', Ok (Some r)) /\
    synced_branch in_sync main alice "main" (Some (mkEdition r v)) (Some (mkEdition (marker their_es) v')) w' /\
    revision_holds in_sync 4 alice (Some hub_address) w' es (tree r) /\
    (forall k, lookup_entry k es = merge3 byte_bytes (lookup_entry k base_es) (lookup_entry k local_es) (lookup_entry k their_es)) /\
    r = pulled (Some rev_local) rev_theirs (tree r) by_alice /\ (base_es = local_es -> r = rev_theirs).
Proof.
  assert (5 < 6)%nat as Hfuel by lia. assert (5 <= MAXIMUM_TREE_DEPTH)%nat as Hdepth by (unfold MAXIMUM_TREE_DEPTH; lia).
  exact (pull_merges in_sync in_sync_free byte_codec_total 4 (fun v => Some [v]) byte_bytes (fun v => eq_refl) 6 200
    toy_rank_le Hfuel Hdepth main alice "main" [packed_root their_es] (Some (edition_for rev_local)) (edition_for (marker base_es)) rev_theirs
    (Some hub_address) by_alice base_es local_es their_es (demo_world rev_theirs) eq_refl demo_diverged).
Defined.

(** * Pushing *)
(** Every value of the tree names a blob, of one byte. *)
#[local] Instance byte_blobs : BlobTree byte byte := {|
  tree_blob_changes cs := (fun c =>
    match c with
    | Ok (Add e) => Ok (BlobAdded (blake3 [Nodes.value e]))
    | Ok (Remove e) => Ok (BlobRemoved (blake3 [Nodes.value e]))
    | _ => Err (Artifact.MalformedIndex "not a change")
    end) <$> cs;
  tree_get_blob g h := Ok (Some (BlobRecord.new 1))
|}.

Definition new_blobs : list BlobChange := [BlobAdded (blake3 [x08])].

Lemma hub_readable head : bool_decide (cell_code head ∈ in_play_list) = true ->
  remote_sound (K := byte) (V := byte) in_sync hub_address (network (demo_world head)) /\
  remote_holds in_sync 4 hub_address (network (demo_world head)) base_es (ref_of base_es).
Proof.
  intros Hhead. destruct (demo_store _ base_es their_es base_es their_es base_tree their_tree base_tree their_tree (hub_blocks head))
    as (Hca & Hst & Hh).
  split; [exact (conj Hca Hst)|]. apply Hh. by left.
Qed.

Lemma demo_pushable head :
  bool_decide (cell_code head ∈ in_play_list) = true ->
  bool_decide (Volatile.cell_of (hub_store head) hub_head = Some (cell_code head)) = true ->
  match encode_value head with Ok _ => true | _ => false end = true -> edition_for head ∈ edition_table ->
  pushable (K := byte) (V := byte) in_sync 4 200 main alice "main" (edition_for rev_local) (edition_for (marker base_es))
    "origin" "main" (ref_of base_es) (edition_for hub_address) None (Some (edition_for head)) base_es local_es new_blobs
    (demo_world head).
Proof.
  intros Hplay Hcell Henc Hin. destruct (demo_store _ base_es local_es base_es local_es base_tree local_tree base_tree local_tree (alice_own_blocks head))
    as (Hca & Hst & Hh).
  constructor.
  - apply alice_valid.
  - apply main_synced.
  - reflexivity.
  - apply stored_cell; vm_compute; reflexivity.
  - apply no_stored_cell; vm_compute; reflexivity.
  - by apply hub_valid.
  - by apply (stored_cell head (hub_store head)).
  - discriminate.
  - intros e [= <-]. apply table_known; [apply edition_codes|done].
  - apply table_known; [apply revision_codes|]. right. by left.
  - intros v (b & Eb & ->). apply table_known; [apply edition_codes|].
    assert (b = revision_code rev_local) as ->.
    { change (table_encode x10 revision_table rev_local = Ok b) in Eb. unfold revision_code. by rewrite Eb. }
    right. by left.
  - apply table_known; [apply upstream_codes|]. right. by left.
  - exact (conj Hca Hst).
  - by apply hub_readable.
  - apply Hh. by left.
  - apply Hh. right. by left.
  - apply Nat.ltb_lt. vm_compute. reflexivity.
  - vm_compute. reflexivity.
  - intros h Hh'. split; [intros g _; by eexists|]. exists [x08].
    apply list_elem_of_singleton in Hh' as [= ->]. split; [|reflexivity].
    apply stored_blob. vm_compute. reflexivity.
Qed.

Lemma demo_pushable_base :
  pushable (K := byte) (V := byte) in_sync 4 200 main alice "main" (edition_for rev_local) (edition_for (marker base_es))
    "origin" "main" (ref_of base_es) (edition_for hub_address) None (Some (edition_for rev_base)) base_es local_es new_blobs
    (demo_world rev_base).
Proof. apply demo_pushable; [vm_compute; reflexivity|vm_compute; reflexivity|vm_compute; reflexivity|by left]. Qed.
(** The remote has moved. *)
Lemma demo_pushable_late :
  pushable (K := byte) (V := byte) in_sync 4 200 main alice "main" (edition_for rev_local) (edition_for (marker base_es))
    "origin" "main" (ref_of base_es) (edition_for hub_address) None (Some (edition_for rev_theirs)) base_es local_es new_blobs
    (demo_world rev_theirs).
Proof.
  apply demo_pushable; [vm_compute; reflexivity|vm_compute; reflexivity|vm_compute; reflexivity|right; right; by left].
Qed.

Lemma push_publishes_witness :
  exists w' v v', push (K := byte) (V := byte) 200 main (demo_world rev_base) = (w', Ok (Some rev_local)) /\
    site_holds in_sync tt (network w') hub_head (Some (mkEdition rev_local v)) /\
    remote_holds in_sync 4 hub_address (network w') local_es (ref_of local_es) /\
    (forall h, BlobAdded h ∈ new_blobs -> is_Some (site_blobs (P := in_sync) tt (network w') hub h)) /\
    synced_branch in_sync main alice "main" (Some (edition_for rev_local)) (Some (mkEdition (marker local_es) v')) w'.
Proof.
  assert (5 <= MAXIMUM_TREE_DEPTH)%nat as Hdepth by (unfold MAXIMUM_TREE_DEPTH; lia).
  refine (push_publishes in_sync in_sync_free byte_codec_total 4 200 Hdepth main alice "main" _ _ "origin" "main" _ _ _ _
    base_es local_es new_blobs (demo_world rev_base) demo_pushable_base eq_refl _).
  apply hub_readable. vm_compute. reflexivity.
Defined.


(** * Commits

    A commit on a branch that holds a fact. *)
From S2P Require Import ArtifactTree Artifact ArtifactKeys ArtifactFacts ArtifactTreeCorrect ArtifactDemo CommitCorrect.
#[local] Existing Instances toy_blake3 plain_base58 toy_url artifact_codec.
#[local] Existing Instances Volatile.volatile_memory Volatile.volatile_archive volatile_fork.
#[local] Instance commit_identity : Identity := {| identify := Ok ("did:op", "did:alice") |}.

Lemma artifact_codec_total : codec_total (K := KeyBytes) (V := State).
Proof. intros b. by eexists. Qed.

(** Every key ends a node. *)
#[local] Instance flat_distribution : Distribution := fun _ => 1%nat.
Lemma flat_rank_le b : (rank b <= 1)%nat.
Proof. unfold rank, flat_distribution. lia. Qed.

(** A branch that holds some facts, and the revisions a commit of changes can make. *)
Definition commit_alice : Did := "did:alice".
Definition commit_by_alice : Did * Did := ("did:op", "did:alice").
Definition trunk_ref : BranchReference := subject_branch commit_alice "main".
Definition trunk : Branch := mkBranch trunk_ref
  (mkCell (BranchReference.revision trunk_ref) 1%positive) (mkCell (BranchReference.upstream trunk_ref) 2%positive).

Section trunk.
Context (facts0 : Facts) (changes : list Instruction).
Definition facts1 : Facts := fold_left apply_fact changes facts0.
Definition entries0 := index_entries facts0.
Definition entries1 := index_entries facts1.
Definition rev0 : Revision := Revision.new (mkTreeReference (packed_root entries0)) commit_alice "did:op" "did:alice".

Definition commit_revision_table : list Revision :=
  rev0 :: ((fun root => committed commit_alice (Some rev0) (mkTreeReference root) commit_by_alice) <$> tree_roots 1 entries1).
#[local] Instance commit_codecs : Codecs unit.
Proof.
  split; [exact (table_codec x10 commit_revision_table)|split; intros; exact (Err "not in the table")..].
Defined.
#[local] Instance commit_codecs_laws : CodecsLaws unit.
Proof. split; [apply table_laws|split; discriminate..]. Qed.

Definition commit_in_play_list : list bytes :=
  table_codes x10 commit_revision_table ++ remove_dups (tree_buffers 1 entries0 ++ tree_buffers 1 entries1).
Definition in_commit (b : bytes) : Prop := b ∈ commit_in_play_list.
Definition rev0_code : bytes := match encode_value rev0 with Ok b => b | _ => [] end.
Definition rev0_edition : Edition Revision := mkEdition rev0 (Volatile.edition_of rev0_code).
Definition trunk_store : Volatile.t := make commit_alice [(BranchReference.revision trunk_ref, rev0_code)] (packed entries0) [].
Definition trunk_world : World Volatile.t Volatile.t (cached unit) :=
  mkWorld trunk_store Volatile.new
    {[1%positive := Some (mkEdition (CachedRevision rev0) (Volatile.edition_of rev0_code)); 2%positive := None]} ∅.

(** What is computed of the facts and the changes. *)
Context (Hfree : collision_freeb commit_in_play_list = true).
Context (Hrevision : Volatile.cell_of trunk_store (BranchReference.revision trunk_ref) = Some rev0_code).
Context (Hupstream : Volatile.cell_of trunk_store (BranchReference.upstream trunk_ref) = None).

Lemma in_commit_free : collision_free in_commit.
Proof. apply collision_freeb_spec. exact Hfree. Qed.
#[local] Instance commit_laws : ProviderLaws Volatile.t in_commit := Volatile.volatile_laws in_commit in_commit_free.
#[local] Instance commit_fork_laws : ForkLaws unit Volatile.t in_commit := volatile_fork_laws in_commit in_commit_free.

Lemma commit_revision_codes b : b ∈ table_codes x10 commit_revision_table -> in_commit b.
Proof. intros Hb. apply elem_of_app. by left. Qed.
Lemma commit_serializes es : es = entries0 \/ es = entries1 -> serializes_in in_commit 1 es.
Proof.
  intros Hes. apply tree_buffers_serialize. intros b Hb. apply elem_of_app. right. apply elem_of_remove_dups.
  apply elem_of_app. destruct Hes as [-> | ->]; [by left|by right].
Qed.

Lemma rev0_known : encode_value rev0 = Ok rev0_code /\ in_commit rev0_code.
Proof.
  destruct (table_known x10 commit_revision_table in_commit rev0 commit_revision_codes) as (b & Eb & Hb); [by left|].
  change (encode_value rev0 = Ok b) in Eb.
  assert (rev0_code = b) as -> by (unfold rev0_code; rewrite Eb; reflexivity). exact (conj Eb Hb).
Qed.
Lemma trunk_commit_known root : root_of 1 entries1 root ->
  known in_commit (committed commit_alice (Some rev0) (mkTreeReference root) commit_by_alice).
Proof.
  intros Hroot%tree_roots_spec. apply table_known; [apply commit_revision_codes|]. right.
  apply list_elem_of_fmap. exists root. split; [reflexivity|exact Hroot].
Qed.
Lemma trunk_valid : memory_valid (local trunk_world).
Proof.
  assert (Volatile.volatile_valid in_commit trunk_store) as Hv; [|exact Hv].
  apply (make_valid in_commit in_commit_free). constructor; [apply rev0_known|constructor].
Qed.
Lemma trunk_synced : synced_branch in_commit trunk commit_alice "main" (Some rev0_edition) None trunk_world.
Proof.
  refine (conj _ (conj _ _)).
  - assert (cache (revision trunk) <> cache (upstream trunk)) as Hne by (intros E; discriminate E).
    constructor; [reflexivity|reflexivity|reflexivity|exact Hne|eexists; reflexivity|eexists; reflexivity|reflexivity|reflexivity].
  - exists rev0_code. split; [apply rev0_known|].
    change (Volatile.volatile_held trunk_store (BranchReference.revision trunk_ref)
      = Some (mkEdition rev0_code (Volatile.edition_of rev0_code))). unfold Volatile.volatile_held. rewrite Hrevision. exact eq_refl.
  - change (Volatile.volatile_held trunk_store (BranchReference.upstream trunk_ref) = None).
    unfold Volatile.volatile_held. rewrite Hupstream. exact eq_refl.
Qed.

Lemma trunk_archive :
  sound_archive (K := KeyBytes) (V := State) in_commit commit_alice None trunk_world /\
  revision_holds in_commit 1 commit_alice None trunk_world entries0 (tree rev0).
Proof.
  assert (forall h, networked_blocks in_commit commit_alice None trunk_world h = block_map (packed entries0) !! h) as Hb.
  { intros h. change (networked_blocks in_commit commit_alice None trunk_world h) with
      (match Volatile.block_of trunk_store commit_alice INDEX h with Some b => Some b | None => None end).
    unfold trunk_store. rewrite (make_blocks in_commit in_commit_free). by destruct (block_map _ !! h). }
  destruct (packed_spec artifact_codec_total 1 flat_rank_le in_commit in_commit_free entries0) as [Hpacked Hholds];
    [apply index_entries_sorted|apply commit_serializes; by left|].
  assert (content_addressed (networked_blocks in_commit commit_alice None trunk_world)) as Hca.
  { intros h b. rewrite Hb. apply block_map_Some. }
  assert (forall h b, networked_blocks in_commit commit_alice None trunk_world h = Some b ->
    in_commit b /\ exists body : PersistentNodeBody KeyBytes State, to_bytes body = Some b) as Hin.
  { intros h b. rewrite Hb. intros [Hp _]%block_map_Some. by apply Hpacked. }
  split; [split; [done|by apply blocks_tree_store]|].
  apply Hholds; [done|by intros h b [? _]%Hin|]. intros b Hp. rewrite Hb. by apply block_map_covers.
Qed.
End trunk.

(** Bob has a name; then it is retracted. *)
Definition bob_facts : Facts := apply_fact ∅ (Assert bob_name).
Definition retraction : list Instruction := [Retract bob_name].
Lemma bob_storable : storable bob_name.
Proof. apply storable_in_demo. in_list. Qed.
Lemma bob_facts_wf : wf_facts bob_facts.
Proof.
  apply wf_insert; [intros f o; by rewrite lookup_empty|by apply fact_key_sized, bob_storable|].
  intros artifact [= <-]. split; [apply bob_storable|done].
Qed.
#[local] Instance bob_codecs : Codecs unit := commit_codecs bob_facts retraction.
#[local] Instance bob_codecs_laws : CodecsLaws unit := commit_codecs_laws bob_facts retraction.
Lemma bob_free : collision_freeb (commit_in_play_list bob_facts retraction) = true.
Proof. vm_compute. reflexivity. Qed.
#[local] Instance bob_laws : ProviderLaws Volatile.t (in_commit bob_facts retraction) := commit_laws _ _ bob_free.
#[local] Instance bob_fork_laws : ForkLaws unit Volatile.t (in_commit bob_facts retraction) := commit_fork_laws _ _ bob_free.
Definition bob_world := trunk_world bob_facts retraction.
Lemma bob_revision : Volatile.cell_of (trunk_store bob_facts retraction) (BranchReference.revision trunk_ref) =
  Some (rev0_code bob_facts retraction).
Proof. apply (bool_decide_eq_true_1 (_ = _)). vm_compute. reflexivity. Qed.
Lemma bob_upstream : Volatile.cell_of (trunk_store bob_facts retraction) (BranchReference.upstream trunk_ref) = None.
Proof. apply (bool_decide_eq_true_1 (_ = _)). vm_compute. reflexivity. Qed.

