(* ===== verification/TypeSystem.v ===== *)
(** The type system of queries (rust/dialog-query/src/type_system.rs): a type is
    the set of value shapes that a slot admits. *)
From S2P Require Import Prelude Common Artifact.

(** * Primitive shapes: a bit per value type, and a bit for absence *)
Record Primitive := mkPrimitive { bits : N }.
#[export] Instance Primitive_eq_dec : EqDecision Primitive.
Proof. solve_decision. Defined.

Definition NOTHING_BIT : N := N.shiftl 1 9.
Definition bit_index (vt : ValueDataType.t) : N :=
  match vt with
  | ValueDataType.String => 0 | ValueDataType.Boolean => 1 | ValueDataType.UnsignedInt => 2
  | ValueDataType.SignedInt => 3 | ValueDataType.Float => 4 | ValueDataType.Bytes => 5
  | ValueDataType.Entity => 6 | ValueDataType.Symbol => 7 | ValueDataType.Record_ => 8
  end.
Definition bit_for (vt : ValueDataType.t) : N := N.shiftl 1 (bit_index vt).

Definition EMPTY : Primitive := mkPrimitive 0.
Definition ALL : Primitive := mkPrimitive 511.
Definition ANY : Primitive := mkPrimitive (N.lor (bits ALL) NOTHING_BIT).
Definition NOTHING : Primitive := mkPrimitive NOTHING_BIT.
Definition NUMERIC : Primitive :=
  mkPrimitive (N.lor (N.lor (bit_for ValueDataType.UnsignedInt) (bit_for ValueDataType.SignedInt))
                     (bit_for ValueDataType.Float)).
Definition STRING_LIKE : Primitive :=
  mkPrimitive (N.lor (bit_for ValueDataType.String) (bit_for ValueDataType.Symbol)).
Definition TEXTUAL : Primitive := mkPrimitive (N.lor (bits STRING_LIKE) (bit_for ValueDataType.Entity)).

Definition singleton (vt : ValueDataType.t) : Primitive := mkPrimitive (bit_for vt).
Definition is_empty (p : Primitive) : bool := (bits p =? 0)%N.
Definition contains (p : Primitive) (vt : ValueDataType.t) : bool := negb (N.land (bits p) (bit_for vt) =? 0)%N.
Definition contains_nothing (p : Primitive) : bool := negb (N.land (bits p) NOTHING_BIT =? 0)%N.
(** [bits & !NOTHING_BIT]. *)
Definition primitive_required (p : Primitive) : Primitive := mkPrimitive (N.ldiff (bits p) NOTHING_BIT).
Definition primitive_intersect (p q : Primitive) : option Primitive :=
  let merged := mkPrimitive (N.land (bits p) (bits q)) in if is_empty merged then None else Some merged.
Definition primitive_union (p q : Primitive) : Primitive := mkPrimitive (N.lor (bits p) (bits q)).
Definition primitive_includes (p q : Primitive) : bool := (N.land (bits p) (bits q) =? bits q)%N.

Definition value_type_for_bit (pos : N) : option ValueDataType.t :=
  match pos with
  | 0 => Some ValueDataType.String | 1 => Some ValueDataType.Boolean | 2 => Some ValueDataType.UnsignedInt
  | 3 => Some ValueDataType.SignedInt | 4 => Some ValueDataType.Float | 5 => Some ValueDataType.Bytes
  | 6 => Some ValueDataType.Entity | 7 => Some ValueDataType.Symbol | 8 => Some ValueDataType.Record_
  | _ => None
  end%N.
(** [count_ones() != 1] and [trailing_zeros]: the only bit is the highest one. *)
Definition as_singleton (p : Primitive) : option ValueDataType.t :=
  if is_empty p then None
  else if (bits p =? N.shiftl 1 (N.log2 (bits p)))%N then value_type_for_bit (N.log2 (bits p)) else None.

(** * Refinements: constraints on the lexical form of a value *)
Record Refinement := mkRefinement { prefix : bytes }.
#[export] Instance Refinement_eq_dec : EqDecision Refinement.
Proof. solve_decision. Defined.

Definition refinement_meet (self other : Refinement) : option Refinement :=
  if starts_with (prefix other) (prefix self) then Some self
  else if starts_with (prefix self) (prefix other) then Some other
  else None.

(** [str::chars], each char as the bytes that encode it. *)
Definition char_length (b : byte) : nat :=
  if in_byte_range 0 127 b then 1 else if in_byte_range 128 223 b then 2
  else if in_byte_range 224 239 b then 3 else 4.
Fixpoint chars_from (fuel : nat) (s : bytes) : list bytes :=
  match fuel, s with
  | O, _ | _, [] => []
  | S fuel, b :: _ => take (char_length b) s :: chars_from fuel (drop (char_length b) s)
  end.
Definition chars (s : bytes) : list bytes := chars_from (length s) s.

(** [zip], [take_while] and [map]. *)
Fixpoint common_chars (l k : list bytes) : list bytes :=
  match l, k with
  | a :: l, b :: k => if decide (a = b) then a :: common_chars l k else []
  | _, _ => []
  end.
Definition refinement_join (self other : Refinement) : option Refinement :=
  let common := concat (common_chars (chars (prefix self)) (chars (prefix other))) in
  if decide (common = []) then None else Some (mkRefinement common).

Definition lexical_form (value : Value.t) : option bytes :=
  match value with
  | Value.String content => Some content
  | Value.Symbol symbol => Some (attribute_name symbol)
  | Value.Entity entity => Some (entity_str entity)
  | _ => None
  end.
Definition refinement_admits (self : Refinement) (value : Value.t) : bool :=
  match lexical_form value with Some form => starts_with (prefix self) form | None => false end.

(** * Types *)
(** A [BTreeSet] is a list in the derived order without duplicates, a [BTreeMap]
    a list in the order of its keys. *)
Module Kind.
Inductive t : Type :=
  | Primitive (p : TypeSystem.Primitive)
  | Composite (p : TypeSystem.Primitive) (c : list composite)
  | Refined (p : TypeSystem.Primitive) (r : Refinement)
with composite : Type :=
  | Product (fields : list (bytes * t))
  | Variant (label : bytes) (value : t).
End Kind.
Local Abbreviation Kind := Kind.t.
Local Abbreviation Composite := Kind.composite.

(** The derived [Ord]: constructors in the order of their declaration, then the
    arguments from left to right. *)
Definition then_cmp (c d : comparison) : comparison := match c with Eq => d | _ => c end.
Fixpoint bytes_compare (x y : bytes) : comparison :=
  match x, y with
  | [], [] => Eq | [], _ => Lt | _, [] => Gt
  | a :: x, b :: y => then_cmp (Byte.to_N a ?= Byte.to_N b)%N (bytes_compare x y)
  end.
Fixpoint kind_compare (a b : Kind) {struct a} : comparison :=
  match a, b with
  | Kind.Primitive p, Kind.Primitive q => (bits p ?= bits q)%N
  | Kind.Primitive _, _ => Lt
  | Kind.Composite _ _, Kind.Primitive _ => Gt
  | Kind.Composite p c, Kind.Composite q d =>
      then_cmp (bits p ?= bits q)%N
        ((fix go (c d : list Composite) {struct c} : comparison :=
            match c, d with
            | [], [] => Eq | [], _ => Lt | _, [] => Gt
            | x :: c, y :: d => then_cmp (composite_compare x y) (go c d)
            end) c d)
  | Kind.Composite _ _, Kind.Refined _ _ => Lt
  | Kind.Refined p r, Kind.Refined q s => then_cmp (bits p ?= bits q)%N (bytes_compare (prefix r) (prefix s))
  | Kind.Refined _ _, _ => Gt
  end
with composite_compare (a b : Composite) {struct a} : comparison :=
  match a, b with
  | Kind.Product f, Kind.Product g =>
      (fix go (f g : list (bytes * Kind)) {struct f} : comparison :=
         match f, g with
         | [], [] => Eq | [], _ => Lt | _, [] => Gt
         | (n, x) :: f, (m, y) :: g => then_cmp (bytes_compare n m) (then_cmp (kind_compare x y) (go f g))
         end) f g
  | Kind.Product _, Kind.Variant _ _ => Lt
  | Kind.Variant _ _, Kind.Product _ => Gt
  | Kind.Variant l x, Kind.Variant m y => then_cmp (bytes_compare l m) (kind_compare x y)
  end.

(** [BTreeSet::insert]: an equal element is kept. *)
Fixpoint set_insert (x : Composite) (s : list Composite) : list Composite :=
  match s with
  | [] => [x]
  | y :: s' => match composite_compare x y with Eq => s | Lt => x :: s | Gt => y :: set_insert x s' end
  end.
Definition set_extend (s l : list Composite) : list Composite := foldl (fun s x => set_insert x s) s l.

(** [BTreeMap::get]. *)
Fixpoint field_get (name : bytes) (fields : list (bytes * Kind)) : option Kind :=
  match fields with
  | [] => None
  | (n, t) :: fields => if decide (n = name) then Some t else field_get name fields
  end.

Definition kind_of (vt : ValueDataType.t) : Kind := Kind.Primitive (singleton vt).

Definition primitive_part (self : Kind) : Primitive :=
  match self with Kind.Primitive p => p | Kind.Composite p _ => p | Kind.Refined p _ => p end.
Definition composite_part (self : Kind) : option (list Composite) :=
  match self with Kind.Composite _ c => Some c | _ => None end.
Definition refinement (self : Kind) : option Refinement :=
  match self with Kind.Refined _ r => Some r | _ => None end.

Definition optional (self : Kind) : Kind :=
  match self with
  | Kind.Primitive p => Kind.Primitive (primitive_union p NOTHING)
  | Kind.Composite p c => Kind.Composite (primitive_union p NOTHING) c
  | Kind.Refined p r => Kind.Refined (primitive_union p NOTHING) r
  end.
Definition required (self : Kind) : Kind :=
  match self with
  | Kind.Primitive p => Kind.Primitive (primitive_required p)
  | Kind.Composite p c => Kind.Composite (primitive_required p) c
  | Kind.Refined p r => Kind.Refined (primitive_required p) r
  end.
Definition is_optional (self : Kind) : bool := contains_nothing (primitive_part self).
Definition as_value_type (self : Kind) : option ValueDataType.t :=
  match self with
  | Kind.Primitive p => as_singleton p
  | Kind.Composite _ _ => None
  | Kind.Refined p _ => as_singleton p
  end.

Definition admits (self : Kind) (value : Value.t) : bool :=
  if contains (primitive_part self) (data_type value)
  then match self with Kind.Refined _ r => refinement_admits r value | _ => true end
  else false.

(** The smart constructor [Type::composite]. *)
Definition make_composite (p : Primitive) (c : list Composite) : Kind :=
  match c with [] => Kind.Primitive p | _ => Kind.Composite p c end.
Definition with_primitive_part (self : Kind) (p : Primitive) : Kind :=
  match self with
  | Kind.Primitive _ => Kind.Primitive p
  | Kind.Composite _ c => make_composite p c
  | Kind.Refined _ r => Kind.Refined p r
  end.

Definition with_prefix (self : Kind) (pre : bytes) : option Kind :=
  if decide (pre = []) then Some self
  else
    membership ← primitive_intersect (primitive_part self) (primitive_union TEXTUAL NOTHING);
    if is_empty (primitive_required membership) then None
    else
      refinement ← match self with
                   | Kind.Refined _ existing => refinement_meet existing (mkRefinement pre)
                   | _ => Some (mkRefinement pre)
                   end;
      Some (Kind.Refined membership refinement).

(** The conjunction of two optional refinements; [None] when it is empty. *)
Definition meet_refinements (a b : option Refinement) : option (option Refinement) :=
  match a, b with
  | Some a, Some b => r ← refinement_meet a b; Some (Some r)
  | Some r, None | None, Some r => Some (Some r)
  | None, None => Some None
  end.

(** [Type::intersect], with [intersect_composite_sets] in its last case. *)
Fixpoint intersect (self other : Kind) {struct self} : option Kind :=
  let p := mkPrimitive (N.land (bits (primitive_part self)) (bits (primitive_part other))) in
  match meet_refinements (refinement self) (refinement other) with
  | None => None
  | Some (Some r) => if is_empty p then None else Some (Kind.Refined p r)
  | Some None =>
      let c := match self, composite_part other with
               | Kind.Composite _ a, Some b =>
                   (fix go (a : list Composite) (result : list Composite) : list Composite :=
                      match a with
                      | [] => result
                      | a_shape :: a =>
                          go a (foldl (fun result b_shape =>
                                         match intersect_composite a_shape b_shape with
                                         | Some merged => set_insert merged result
                                         | None => result
                                         end) result b)
                      end) a []
               | _, _ => []
               end in
      match is_empty p, c with
      | true, [] => None
      | _, _ => Some (make_composite p c)
      end
  end
with intersect_composite (a b : Composite) {struct a} : option Composite :=
  match a, b with
  | Kind.Product fa, Kind.Product fb =>
      if decide (length fa <> length fb) then None
      else
        out ← (fix go (fa : list (bytes * Kind)) : option (list (bytes * Kind)) :=
                 match fa with
                 | [] => Some []
                 | (name, ta) :: fa =>
                     tb ← field_get name fb;
                     merged ← intersect ta tb;
                     out ← go fa;
                     Some ((name, merged) :: out)
                 end) fa;
        Some (Kind.Product out)
  | Kind.Variant la va, Kind.Variant lb vb =>
      if decide (la <> lb) then None
      else merged ← intersect va vb; Some (Kind.Variant la merged)
  | _, _ => None
  end.

Definition union (self other : Kind) : Kind :=
  let p := primitive_union (primitive_part self) (primitive_part other) in
  let joined := match refinement self, refinement other with
                | Some a, Some b => refinement_join a b
                | _, _ => None
                end in
  match joined with
  | Some joined => Kind.Refined p joined
  | None =>
      make_composite p (set_extend (set_extend [] (default [] (composite_part self))) (default [] (composite_part other)))
  end.

Definition refinement_includes (a b : option Refinement) : bool :=
  match a, b with
  | Some a, Some b => starts_with (prefix a) (prefix b)
  | Some _, None => false
  | None, _ => true
  end.

(** [Type::includes]; the recursion follows [other], whose shapes are smaller. *)
Fixpoint includes (self other : Kind) {struct other} : bool :=
  primitive_includes (primitive_part self) (primitive_part other) &&
  refinement_includes (refinement self) (refinement other) &&
  match composite_part self, other with
  | Some a, Kind.Composite _ b =>
      (fix go (b : list Composite) : bool :=
         match b with
         | [] => true
         | b_shape :: b => existsb (fun a_shape => composite_includes a_shape b_shape) a && go b
         end) b
  | None, Kind.Composite _ b => match b with [] => true | _ => false end
  | _, _ => true
  end
with composite_includes (a b : Composite) {struct b} : bool :=
  match a, b with
  | Kind.Product fa, Kind.Product fb =>
      if decide (length fa <> length fb) then false
      else
        forallb (fun '(name, ta) =>
          (fix get (fb : list (bytes * Kind)) : bool :=
             match fb with
             | [] => false
             | (n, tb) :: fb => if decide (n = name) then includes ta tb else get fb
             end) fb) fa
  | Kind.Variant la va, Kind.Variant lb vb => bool_decide (la = lb) && includes va vb
  | _, _ => false
  end.
