(* ===== verification/Terms.v ===== *)
(** The vocabulary of queries (rust/dialog-query/src: term.rs, types.rs, claim.rs,
    environment.rs, parameters.rs, schema.rs, error.rs, selection/match.rs): terms,
    the schemas of premises, and the rows that evaluation extends.  The last part
    gives the kinds of TypeSystem their meaning as sets of bindings. *)
From S2P Require Import Prelude Common Artifact TypeSystem.

Local Abbreviation Kind := Kind.t.

(** * Terms *)
(** [TypeDescriptor]: [Any] holds a kind, [EntityType] and [Symbol] may hold a
    narrowed kind, the others ([NumericDescriptor] among them) are units. *)
Inductive Descriptor :=
  | AnyType (kind : option Kind)
  | UnitType (TYPE : ValueDataType.t)
  | RefinableType (TYPE : ValueDataType.t) (stored : option Kind)
  | NumericType.
Definition kind_eqb (a b : Kind) : bool := match kind_compare a b with Eq => true | _ => false end.
Definition descriptor_kind (self : Descriptor) : option Kind :=
  match self with
  | AnyType kind => kind
  | UnitType TYPE => Some (kind_of TYPE)
  | RefinableType TYPE stored => Some (default (kind_of TYPE) stored)
  | NumericType => Some (Kind.Primitive NUMERIC)
  end.
(** [TypeDescriptor::from_kind], at the type of a given descriptor. *)
Definition from_kind (self : Descriptor) (kind : option Kind) : Descriptor :=
  match self with
  | AnyType _ => AnyType kind
  | UnitType TYPE => UnitType TYPE
  | RefinableType TYPE _ =>
      RefinableType TYPE (k ← kind; if kind_eqb k (kind_of TYPE) then None else Some k)
  | NumericType => NumericType
  end.
Definition default_descriptor (self : Descriptor) : Descriptor :=
  match self with
  | AnyType _ => AnyType None
  | UnitType TYPE => UnitType TYPE
  | RefinableType TYPE _ => RefinableType TYPE None
  | NumericType => NumericType
  end.

(** [Term<T>], for every [T]. *)
Inductive Term :=
  | Variable_ (name : option string) (descriptor : Descriptor)
  | Constant (value : Value.t).

Definition The_type : Descriptor := RefinableType ValueDataType.Symbol None.
Definition Entity_type : Descriptor := RefinableType ValueDataType.Entity None.
Definition Cause_type : Descriptor := UnitType ValueDataType.Bytes.
Definition String_type : Descriptor := UnitType ValueDataType.String.
Definition Record_type : Descriptor := UnitType ValueDataType.Record_.

(** [Term::<T>::var] and [Term::<T>::blank], for the default descriptor of [T]. *)
Definition var (T : Descriptor) (name : string) : Term := Variable_ (Some name) (default_descriptor T).
Definition blank (T : Descriptor) : Term := Variable_ None (default_descriptor T).
Definition any_var (name : string) : Term := var (AnyType None) name.
Definition any_blank : Term := blank (AnyType None).
Definition typed_var (name : string) (kind : Kind) : Term := Variable_ (Some name) (AnyType (Some kind)).

Section term.
Implicit Types (self : Term).
Definition is_constant self : bool := match self with Constant _ => true | _ => false end.
Definition is_blank self : bool := match self with Variable_ None _ => true | _ => false end.
Definition term_name self : option string := match self with Variable_ name _ => name | Constant _ => None end.
Definition as_constant self : option Value.t := match self with Constant value => Some value | _ => None end.
Definition term_kind self : option Kind :=
  match self with
  | Variable_ _ descriptor => descriptor_kind descriptor
  | Constant value => Some (kind_of (data_type value))
  end.
Definition term_is_optional self : bool := match term_kind self with Some k => is_optional k | None => false end.
Definition with_kind self (kind : Kind) : Term :=
  match self with
  | Variable_ name descriptor => Variable_ name (from_kind descriptor (Some kind))
  | Constant _ => self
  end.
(** [From<Term<T>> for Term<Any>]: only the static kind of [T] is kept. *)
Definition widen self : Term :=
  match self with
  | Variable_ name descriptor => Variable_ name (AnyType (descriptor_kind (default_descriptor descriptor)))
  | Constant _ => self
  end.
End term.

(** [Value::from(T::try_from(value)?)] for the scalars of attribute queries:
    attributes, entities, causes (padded to their length) and strings. *)
Definition scalar_try_from (T : Descriptor) (value : Value.t) : option Value.t :=
  match descriptor_kind (default_descriptor T), value with
  | Some (Kind.Primitive p), Value.Bytes b =>
      if contains p ValueDataType.Bytes then Some (Value.Bytes (zero_padded 32 (take 32 b))) else None
  | Some (Kind.Primitive p), _ => if contains p (data_type value) then Some value else None
  | _, _ => Some value
  end.

(** * Environments and parameters *)
Abbreviation Environment := (gset string).
Abbreviation Parameters := (gmap string Term).
Section environment.
Implicit Types (self : Term) (env : Environment).
Definition is_bound self env : bool :=
  match self with
  | Constant _ => true
  | Variable_ None _ => false
  | Variable_ (Some n) _ => bool_decide (n ∈ env)
  end.
Definition term_bind self env : Environment :=
  match self with Variable_ (Some n) _ => {[n]} ∪ env | _ => env end.
End environment.

(** * Schemas *)
Inductive Cardinality := One | Many.
#[export] Instance Cardinality_eq_dec : EqDecision Cardinality.
Proof. solve_decision. Defined.

Definition LOOKUP_COST : N := 100.
Definition RANGE_READ_COST : N := 200.
Definition RANGE_SCAN_COST : N := 1000.
Definition INDEX_SCAN_COST : N := 5000.
Definition VERIFICATION_COST : N := 100.
Definition CONCEPT_OVERHEAD : N := 1000.

(** [Cardinality::estimate]. *)
Definition cardinality_estimate (self : Cardinality) (known_the known_of known_is : bool) : option N :=
  match known_the, known_of, known_is, self with
  | true, true, true, _ => Some LOOKUP_COST
  | true, true, false, One => Some LOOKUP_COST
  | true, true, false, Many => Some RANGE_READ_COST
  | true, false, true, One => Some (RANGE_READ_COST + VERIFICATION_COST)
  | true, false, true, Many => Some RANGE_READ_COST
  | false, true, true, One => Some RANGE_READ_COST
  | false, true, true, Many => Some RANGE_SCAN_COST
  | false, true, false, One => Some RANGE_READ_COST
  | false, true, false, Many => Some RANGE_SCAN_COST
  | true, false, false, One => Some (RANGE_SCAN_COST + VERIFICATION_COST)
  | true, false, false, Many => Some INDEX_SCAN_COST
  | false, false, true, One => Some (INDEX_SCAN_COST + VERIFICATION_COST)
  | false, false, true, Many => Some INDEX_SCAN_COST
  | false, false, false, _ => None
  end%N.

(** A choice group is compared within one schema only, and no schema makes two:
    the counter that numbers them is left out. *)
Definition Group := nat.
Inductive Requirement := Required (group : option Group) | Optional.
Definition new_group : Group := 0%nat.
Record Field := mkField { content_type : option Kind; requirement : Requirement; cardinality : Cardinality }.
Abbreviation Schema := (gmap string Field).

(** * Claims, bindings and errors *)
Record Claim := mkClaim { claim_the : Attribute; claim_of : Entity; claim_is : Value.t; claim_cause : bytes }.
(** [From<&Artifact> for Claim]. *)
Definition claim_from (artifact : Artifact) : Claim :=
  mkClaim (artifact_the artifact) (artifact_of artifact) (artifact_is artifact)
    (default (replicate 32 x00) (artifact_cause artifact)).

Inductive Binding := Present (value : Value.t) | Absent.
#[export] Instance Binding_eq_dec : EqDecision Binding.
Proof. solve_decision. Defined.

(** [EvaluationError]; a formatted message keeps what it formats. *)
Module EvaluationError.
Inductive t :=
  | UnboundVariable (variable_name : string)
  | Absent (variable_name : string)
  | UnboundFormulaVariable (parameter : string) (term : Term)
  | Conflict (parameter : string) (actual expected : Term)
  | TypeMismatch (expected actual : ValueDataType.t)
  | Assignment (name : string) (value existing : Binding)
  | KindMismatch (variable : string) (kind : Kind) (value : Value.t)
  | ConstraintViolation (this_term is_term : Term)
  | MissingParameter (parameter : string)
  | EmptySelector
  | Store (message : string)
  | StoreArtifacts (error : DialogArtifactsError)
  | StoreEvaluation (error : t).
End EvaluationError.
Local Abbreviation EE := EvaluationError.t.
Abbreviation eval A := (outcome EE A).

Definition content_for (self : Binding) (variable_name : option string) : eval Value.t :=
  match self with
  | Present value => Ok value
  | Absent => Err (EvaluationError.Absent (default "_" variable_name))
  end.
Definition content (self : Binding) : eval Value.t := content_for self None.
Definition is_present (self : Binding) : bool := match self with Present _ => true | Absent => false end.

(** * Rows *)
Record Match := mkMatch { bindings : gmap string Binding; claims : gmap string Claim }.
Definition match_new : Match := mkMatch ∅ ∅.

Section match_operations.
Implicit Types (self : Match) (term : Term).

Definition prove self term : eval Claim :=
  match term with
  | Variable_ (Some name) _ =>
      match claims self !! name with
      | Some claim => Ok claim
      | None => Err (EvaluationError.Store "No claim found for term")
      end
  | _ => Err (EvaluationError.Store "Cannot look up claim with a non-variable term")
  end.
Definition cite self term (claim : Claim) : Match :=
  match term with
  | Variable_ (Some name) _ => mkMatch (bindings self) (<[name := claim]> (claims self))
  | _ => self
  end.
Definition set_binding self (name : string) (b : Binding) : Match :=
  mkMatch (<[name := b]> (bindings self)) (claims self).

(** [Match::bind]. *)
Definition bind self term (value : Value.t) : eval Match :=
  match term with
  | Variable_ (Some name) descriptor =>
      match descriptor_kind descriptor with
      | Some kind =>
          if admits kind value then Ok () else Err (EvaluationError.KindMismatch name kind value)
      | None => Ok ()
      end ≫= fun _ =>
      match bindings self !! name with
      | Some (Present existing_value) =>
          if decide (existing_value <> value)
          then Err (EvaluationError.Assignment name (Present value) (Present existing_value))
          else Ok self
      | Some Absent => Err (EvaluationError.Assignment name (Present value) Absent)
      | None => Ok (set_binding self name (Present value))
      end
  | _ => Ok self
  end.
Definition bind_absent self term : eval Match :=
  match term with
  | Variable_ (Some name) _ =>
      match bindings self !! name with
      | Some Absent => Ok self
      | Some (Present value) => Err (EvaluationError.Assignment name Absent (Present value))
      | None => Ok (set_binding self name Absent)
      end
  | _ => Ok self
  end.

Definition match_contains self term : bool :=
  match term with
  | Variable_ (Some key) _ => bool_decide (is_Some (bindings self !! key))
  | Variable_ None _ => false
  | Constant _ => true
  end.
Definition match_is_present self term : bool :=
  match term with
  | Variable_ (Some key) _ => match bindings self !! key with Some b => is_present b | None => false end
  | Variable_ None _ => false
  | Constant _ => true
  end.
Definition lookup_term self term : eval Binding :=
  match term with
  | Variable_ (Some key) _ =>
      match bindings self !! key with
      | Some binding => Ok binding
      | None => Err (EvaluationError.UnboundVariable key)
      end
  | Variable_ None _ => Err (EvaluationError.UnboundVariable "_")
  | Constant value => Ok (Present value)
  end.

(** [Term::<T>::resolve]. *)
Definition term_resolve (T : Descriptor) term self : Term :=
  match lookup_term self (widen term) ≫= content with
  | Ok value => match scalar_try_from T value with Some v => Constant v | None => term end
  | _ => term
  end.
End match_operations.

(** * Selections *)
(** A stream of results: what it yields until it ends or fails.  The blocks of
    [try_stream!] handle one row after the other and end at the first error. *)
Definition Selection := (list Match * eval ())%type.
Definition seed (m : Match) : Selection := ([m], Ok tt).
Definition yields (l : list Match) : Selection := (l, Ok tt).
Definition fails (o : eval ()) : Selection := ([], o).
(** Yields the rows of the first stream, then, unless it failed, of the second. *)
Definition chain (s t : Selection) : Selection :=
  match s.2 with Ok _ => (s.1 ++ t.1, t.2) | _ => s end.
(** [for await candidate in selection { let base = candidate?; ... }]. *)
Fixpoint for_rows (rows : list Match) (status : eval ()) (body : Match -> Selection) : Selection :=
  match rows with
  | [] => ([], status)
  | base :: rows => chain (body base) (for_rows rows status body)
  end.
Definition for_each (selection : Selection) (body : Match -> Selection) : Selection :=
  for_rows selection.1 selection.2 body.
(** [let a = o?;] inside such a block. *)
Definition let_ok {A} (o : eval A) (k : A -> Selection) : Selection :=
  match o with
  | Ok a => k a
  | Err e => ([], Err e)
  | Panic m => ([], Panic m)
  | OutOfFuel => ([], OutOfFuel)
  end.

(** * What types mean

    What a type means: the bindings that inhabit it.  Intersection is conjunction,
    union is implied by both sides, inclusion is implication. *)


(** The values of a type, and absence, which its [Nothing] bit admits. *)
Definition inhabits (b : Binding) (k : Kind) : bool :=
  match b with Present v => admits k v | Absent => is_optional k end.

(** * Primitive sets by their bits *)
Lemma land_bit (n i : N) : negb (N.land n (N.shiftl 1 i) =? 0)%N = N.testbit n i.
Proof.
  rewrite N.shiftl_1_l. destruct (N.testbit n i) eqn:E.
  - apply negb_true_iff, N.eqb_neq. intros H0.
    assert (N.testbit (N.land n (2 ^ i)) i = true) as Ht by (by rewrite N.land_spec, E, N.pow2_bits_true).
    by rewrite H0, N.bits_0 in Ht.
  - apply negb_false_iff, N.eqb_eq. apply N.bits_inj_iff. intros j. rewrite N.land_spec, N.bits_0.
    destruct (decide (i = j)) as [<-|Hne]; [by rewrite E|]. rewrite N.pow2_bits_false by done. by rewrite andb_false_r.
Qed.
Lemma contains_bit p vt : contains p vt = N.testbit (bits p) (bit_index vt).
Proof. apply land_bit. Qed.
Lemma contains_nothing_bit p : contains_nothing p = N.testbit (bits p) 9.
Proof. apply land_bit. Qed.
Lemma bit_index_bound vt : (bit_index vt < 9)%N.
Proof. destruct vt; simpl; lia. Qed.
Lemma bit_index_inj v w : bit_index v = bit_index w -> v = w.
Proof. by destruct v, w. Qed.

Lemma contains_land p q vt : contains (mkPrimitive (N.land (bits p) (bits q))) vt = contains p vt && contains q vt.
Proof. rewrite !contains_bit. cbn [bits]. by rewrite N.land_spec. Qed.
Lemma nothing_land p q : contains_nothing (mkPrimitive (N.land (bits p) (bits q))) = contains_nothing p && contains_nothing q.
Proof. rewrite !contains_nothing_bit. cbn [bits]. by rewrite N.land_spec. Qed.
Lemma contains_union p q vt : contains (primitive_union p q) vt = contains p vt || contains q vt.
Proof. by rewrite !contains_bit, <- N.lor_spec. Qed.
Lemma nothing_union p q : contains_nothing (primitive_union p q) = contains_nothing p || contains_nothing q.
Proof. by rewrite !contains_nothing_bit, <- N.lor_spec. Qed.
Lemma contains_empty p vt : is_empty p = true -> contains p vt = false.
Proof. unfold is_empty. intros E%N.eqb_eq. by rewrite contains_bit, E, N.bits_0. Qed.
Lemma nothing_empty p : is_empty p = true -> contains_nothing p = false.
Proof. unfold is_empty. intros E%N.eqb_eq. by rewrite contains_nothing_bit, E, N.bits_0. Qed.
Lemma contains_NOTHING vt : contains NOTHING vt = false.
Proof. by destruct vt. Qed.
Lemma required_bit p i : N.testbit (bits (primitive_required p)) i = N.testbit (bits p) i && negb (i =? 9)%N.
Proof.
  unfold primitive_required. simpl. rewrite N.ldiff_spec. f_equal. f_equal.
  change NOTHING_BIT with (2 ^ 9)%N. destruct (N.eqb_spec i 9) as [->|Hi]; [done|]. by rewrite N.pow2_bits_false by congruence.
Qed.
Lemma contains_required p vt : contains (primitive_required p) vt = contains p vt.
Proof.
  rewrite !contains_bit, required_bit. pose proof (bit_index_bound vt).
  replace (bit_index vt =? 9)%N with false by (symmetry; apply N.eqb_neq; lia). apply andb_true_r.
Qed.
Lemma nothing_required p : contains_nothing (primitive_required p) = false.
Proof. rewrite contains_nothing_bit, required_bit. apply andb_false_r. Qed.
Lemma primitive_includes_bit p q : primitive_includes p q = true <-> forall i, N.testbit (bits q) i = true -> N.testbit (bits p) i = true.
Proof.
  unfold primitive_includes. rewrite N.eqb_eq. split.
  - intros E i Hi. rewrite <- E, N.land_spec in Hi. by apply andb_true_iff in Hi as [? _].
  - intros Hi. apply N.bits_inj_iff. intros i. rewrite N.land_spec. specialize (Hi i).
    destruct (N.testbit (bits q) i); [by rewrite Hi|by rewrite andb_false_r].
Qed.
Lemma primitive_intersect_Some p q m : primitive_intersect p q = Some m -> m = mkPrimitive (N.land (bits p) (bits q)).
Proof. unfold primitive_intersect. by case_match; intros [= <-]. Qed.
Lemma primitive_intersect_None p q : primitive_intersect p q = None -> is_empty (mkPrimitive (N.land (bits p) (bits q))) = true.
Proof. unfold primitive_intersect. by case_match. Qed.
Lemma contains_kind_of vt w : contains (singleton vt) w = bool_decide (vt = w).
Proof. by destruct vt, w. Qed.

(** * Prefixes *)
Lemma starts_with_exists pre s : starts_with pre s = true <-> exists t, s = pre ++ t.
Proof.
  unfold starts_with. rewrite bool_decide_eq_true. split.
  - intros E. exists (drop (length pre) s). by rewrite <- E at 1; rewrite take_drop.
  - intros [t ->]. by rewrite take_app_length.
Qed.
Lemma starts_with_trans p q s : starts_with p q = true -> starts_with q s = true -> starts_with p s = true.
Proof.
  rewrite !starts_with_exists. intros [t ->] [u ->]. exists (t ++ u). by rewrite app_assoc.
Qed.
(** Two prefixes of one string are comparable. *)
Lemma starts_with_comparable p q s : starts_with p s = true -> starts_with q s = true ->
  starts_with p q = true \/ starts_with q p = true.
Proof.
  rewrite !starts_with_exists. intros [t ->] [u E]. apply app_eq_app in E as (k & [(Hq & _)|(Hq & _)]); eauto.
Qed.

Lemma concat_chars_from fuel s : (length s <= fuel)%nat -> concat (chars_from fuel s) = s.
Proof.
  revert s; induction fuel as [|fuel IH]; intros [|b s] Hl; simpl in *; try done; try lia.
  rewrite IH; [by apply (take_drop (char_length b) (b :: s))|].
  assert (1 <= char_length b)%nat by (unfold char_length; repeat case_match; lia).
  rewrite length_drop. simpl. lia.
Qed.
Lemma common_chars_l l k : exists t, concat l = concat (common_chars l k) ++ t.
Proof.
  revert k; induction l as [|a l IH]; intros [|b k]; simpl; eauto.
  case_decide; simpl; [|eauto]. destruct (IH k) as [t ->]. exists t. by rewrite app_assoc.
Qed.
Lemma common_chars_comm l k : common_chars l k = common_chars k l.
Proof.
  revert k; induction l as [|a l IH]; intros [|b k]; simpl; try done.
  do 2 case_decide; subst; [by rewrite IH|done..].
Qed.
Lemma join_prefix a b j : refinement_join a b = Some j ->
  starts_with (prefix j) (prefix a) = true /\ starts_with (prefix j) (prefix b) = true.
Proof.
  unfold refinement_join. case_decide; [done|]. intros [= <-]. simpl. rewrite !starts_with_exists. unfold chars.
  pose proof (concat_chars_from (length (prefix a)) (prefix a) ltac:(lia)) as Ha.
  pose proof (concat_chars_from (length (prefix b)) (prefix b) ltac:(lia)) as Hb. split.
  - destruct (common_chars_l (chars_from (length (prefix a)) (prefix a)) (chars_from (length (prefix b)) (prefix b))) as [t Ht].
    rewrite Ha in Ht. by exists t.
  - rewrite common_chars_comm.
    destruct (common_chars_l (chars_from (length (prefix b)) (prefix b)) (chars_from (length (prefix a)) (prefix a))) as [t Ht].
    rewrite Hb in Ht. by exists t.
Qed.

Lemma refinement_admits_weaken r s v :
  starts_with (prefix r) (prefix s) = true -> refinement_admits s v = true -> refinement_admits r v = true.
Proof. unfold refinement_admits. destruct (lexical_form v); [|done]. apply starts_with_trans. Qed.
Lemma meet_Some a b m v : refinement_meet a b = Some m ->
  refinement_admits m v = refinement_admits a v && refinement_admits b v.
Proof.
  unfold refinement_meet. destruct (starts_with (prefix b) (prefix a)) eqn:E; [|destruct (starts_with (prefix a) (prefix b)) eqn:E'; [|done]];
    intros [= <-]; apply eq_true_iff_eq; rewrite andb_true_iff; split; try (by intros []); intros; eauto using refinement_admits_weaken.
Qed.
Lemma meet_None a b v : refinement_meet a b = None -> refinement_admits a v && refinement_admits b v = false.
Proof.
  unfold refinement_meet. destruct (starts_with (prefix b) (prefix a)) eqn:E; [done|].
  destruct (starts_with (prefix a) (prefix b)) eqn:E'; [done|]. intros _. apply not_true_is_false. rewrite andb_true_iff.
  unfold refinement_admits. destruct (lexical_form v) as [s|]; [|by intros []].
  intros [H1 H2]. destruct (starts_with_comparable _ _ _ H1 H2); congruence.
Qed.

(** * Types *)
(** A refinement or its absence, as a predicate on values. *)
Definition option_admits (r : option Refinement) (v : Value.t) : bool :=
  match r with Some r => refinement_admits r v | None => true end.
Lemma admits_parts k v : admits k v = contains (primitive_part k) (data_type v) && option_admits (refinement k) v.
Proof. unfold admits. by destruct (contains _ _), k. Qed.

Lemma composite_primitive p c : primitive_part (make_composite p c) = p.
Proof. by destruct c. Qed.
Lemma composite_refinement p c : refinement (make_composite p c) = None.
Proof. by destruct c. Qed.
Lemma admits_composite p c v : admits (make_composite p c) v = contains p (data_type v).
Proof. by rewrite admits_parts, composite_primitive, composite_refinement, andb_true_r. Qed.

Lemma meet_refinements_Some a b m v : meet_refinements a b = Some m ->
  option_admits m v = option_admits a v && option_admits b v.
Proof.
  destruct a as [a|], b as [b|]; simpl.
  - destruct (refinement_meet a b) as [r|] eqn:E; [|done]. intros [= <-]. by apply meet_Some.
  - intros [= <-]. by rewrite andb_true_r.
  - by intros [= <-].
  - by intros [= <-].
Qed.
Lemma meet_refinements_None a b : meet_refinements a b = None ->
  exists r s, a = Some r /\ b = Some s /\ refinement_meet r s = None.
Proof.
  destruct a as [r|], b as [s|]; simpl; try done. destruct (refinement_meet r s) eqn:E; [done|]. eauto.
Qed.

(** The parts of an intersection. *)
Lemma intersect_Some a b m : intersect a b = Some m ->
  primitive_part m = mkPrimitive (N.land (bits (primitive_part a)) (bits (primitive_part b))) /\
  meet_refinements (refinement a) (refinement b) = Some (refinement m).
Proof.
  destruct a as [pa|pa ca|pa ra]; cbn [intersect].
  all: destruct (meet_refinements _ _) as [[r|]|]; [|cbv zeta|done].
  all: try (case_match; [done|]; by intros [= <-]).
  all: repeat case_match; intros [= <-]; by rewrite ?composite_primitive, ?composite_refinement.
Qed.
Lemma intersect_None a b : intersect a b = None ->
  meet_refinements (refinement a) (refinement b) = None \/
  is_empty (mkPrimitive (N.land (bits (primitive_part a)) (bits (primitive_part b)))) = true.
Proof.
  destruct a as [pa|pa ca|pa ra]; cbn [intersect].
  all: destruct (meet_refinements _ _) as [[r|]|]; [|cbv zeta|by left].
  all: repeat case_match; try done; by right.
Qed.

Lemma inhabits_intersect a b m x : intersect a b = Some m -> inhabits x m = inhabits x a && inhabits x b.
Proof.
  intros [Hp Hr]%intersect_Some. destruct x as [v|]; simpl.
  - rewrite !admits_parts, Hp, contains_land, (meet_refinements_Some _ _ _ v Hr).
    destruct (contains (primitive_part a) _), (contains (primitive_part b) _); simpl; try done; by rewrite andb_false_r.
  - unfold is_optional. by rewrite Hp, nothing_land.
Qed.
Lemma admits_intersect_None a b v : intersect a b = None -> admits a v && admits b v = false.
Proof.
  rewrite !admits_parts. intros [(r & s & -> & -> & Hm)%meet_refinements_None|He]%intersect_None; simpl.
  - pose proof (meet_None _ _ v Hm) as E. destruct (contains (primitive_part a) _), (contains (primitive_part b) _); simpl; try done.
    by rewrite andb_false_r.
  - apply (contains_empty _ (data_type v)) in He. rewrite contains_land in He.
    destruct (contains (primitive_part a) _), (contains (primitive_part b) _); try done. by rewrite andb_false_r.
Qed.

Lemma inhabits_optional k x : inhabits x (optional k) = match x with Present v => admits k v | Absent => true end.
Proof.
  destruct x as [v|]; simpl.
  - rewrite !admits_parts. destruct k; simpl; by rewrite contains_union, contains_NOTHING, orb_false_r.
  - unfold is_optional. destruct k; simpl; rewrite nothing_union; apply orb_true_r.
Qed.
Lemma inhabits_required k x : inhabits x (required k) = match x with Present v => admits k v | Absent => false end.
Proof.
  destruct x as [v|]; simpl.
  - rewrite !admits_parts. destruct k; simpl; by rewrite contains_required.
  - unfold is_optional. destruct k; simpl; apply nothing_required.
Qed.

(** Replacing the primitive part by a smaller one. *)
Lemma inhabits_with_primitive_part k p x :
  (forall i, N.testbit (bits p) i = true -> N.testbit (bits (primitive_part k)) i = true) ->
  inhabits x (with_primitive_part k p) = inhabits x k && inhabits x (Kind.Primitive p).
Proof.
  intros Hsub.
  assert (primitive_part (with_primitive_part k p) = p /\ refinement (with_primitive_part k p) = refinement k) as [Hp Hr]
    by (destruct k; simpl; by rewrite ?composite_primitive, ?composite_refinement).
  destruct x as [v|]; simpl.
  - rewrite !admits_parts, Hp, Hr, !contains_bit. simpl. specialize (Hsub (bit_index (data_type v))).
    rewrite andb_true_r. destruct (N.testbit (bits p) _).
    + by rewrite Hsub, andb_true_r.
    + by rewrite andb_false_r.
  - unfold is_optional. rewrite Hp, !contains_nothing_bit. simpl. specialize (Hsub 9%N).
    destruct (N.testbit (bits p) 9); [by rewrite Hsub|by rewrite andb_false_r].
Qed.

(** The meet of types is exact: a value inhabits the intersection of two types if
    and only if it inhabits both, and where there is no intersection no value
    inhabits both; the join admits what either side admits, and a type that
    includes another admits all of it. *)
Lemma inhabits_union a b x : inhabits x a || inhabits x b = true -> inhabits x (union a b) = true.
Proof.
  rewrite orb_true_iff. intros Hx. unfold union.
  set (p := primitive_union _ _). set (joined := match refinement a with Some _ => _ | None => None end).
  assert (Hj : forall j v, joined = Some j -> (admits a v = true \/ admits b v = true) -> refinement_admits j v = true).
  { intros j v. unfold joined. destruct (refinement a) as [r|] eqn:Ea; [|done]. destruct (refinement b) as [s|] eqn:Eb; [|done].
    intros [H1 H2]%join_prefix. rewrite !admits_parts, Ea, Eb, !andb_true_iff. simpl.
    intros [[_ Hv]|[_ Hv]]; eauto using refinement_admits_weaken. }
  destruct x as [v|]; simpl in *.
  - assert (contains p (data_type v) = true) as Hc.
    { unfold p. rewrite contains_union, orb_true_iff. rewrite !admits_parts, !andb_true_iff in Hx. tauto. }
    destruct joined as [j|] eqn:Ej; [|by rewrite admits_composite].
    rewrite admits_parts. simpl. rewrite Hc. by apply Hj.
  - assert (contains_nothing p = true) as Hc.
    { unfold p. rewrite nothing_union, orb_true_iff. exact Hx. }
    destruct joined; [done|]. unfold is_optional. by rewrite composite_primitive.
Qed.
Lemma includes_parts a b : includes a b = true ->
  primitive_includes (primitive_part a) (primitive_part b) = true /\ refinement_includes (refinement a) (refinement b) = true.
Proof. destruct b; cbn [includes]; rewrite !andb_true_iff; by intros [[? ?] _]. Qed.
Lemma inhabits_includes a b x : includes a b = true -> inhabits x b = true -> inhabits x a = true.
Proof.
  intros [Hp Hr]%includes_parts. rewrite primitive_includes_bit in Hp. destruct x as [v|]; simpl.
  - rewrite !admits_parts, !andb_true_iff, !contains_bit. intros [Hc Hv]. split; [by apply Hp|].
    destruct (refinement a) as [r|], (refinement b) as [s|]; simpl in *; try done. by eapply refinement_admits_weaken.
  - unfold is_optional. rewrite !contains_nothing_bit. apply Hp.
Qed.

(** [with_prefix] adds exactly the prefix. *)
Lemma textual_form vt v : data_type v = vt -> contains (primitive_union TEXTUAL NOTHING) vt = bool_decide (is_Some (lexical_form v)).
Proof. intros <-. destruct v; simpl; by vm_compute. Qed.
Lemma with_prefix_Some k pre m x : with_prefix k pre = Some m ->
  inhabits x m = inhabits x k && match x with Present v => match lexical_form v with Some s => starts_with pre s | None => bool_decide (pre = []) end | Absent => true end.
Proof.
  unfold with_prefix. case_decide as Hpre.
  { intros [= <-]. subst pre. destruct x as [v|]; [|by rewrite andb_true_r].
    destruct (lexical_form v) as [s|]; simpl; [|by rewrite andb_true_r].
    replace (starts_with [] s) with true; [by rewrite andb_true_r|]. symmetry. apply starts_with_exists. by exists s. }
  remember (primitive_union TEXTUAL NOTHING) as textual eqn:Ht.
  destruct (primitive_intersect _ _) as [membership|] eqn:Ei; simpl; [|done].
  apply primitive_intersect_Some in Ei as ->. case_match; [done|].
  set (o := match k with Kind.Refined _ existing => _ | _ => _ end). destruct o as [r|] eqn:Er; simpl; [|done]. intros [= <-].
  assert (Hr : forall v, refinement_admits r v = option_admits (refinement k) v && refinement_admits (mkRefinement pre) v).
  { intros v. unfold o in Er. destruct k as [p|p c|p existing]; simpl; [by injection Er as <-..|]. by apply meet_Some. }
  destruct x as [v|]; cbn [inhabits].
  - rewrite !admits_parts. cbn [primitive_part refinement option_admits]. rewrite contains_land, Ht, (textual_form _ v eq_refl), Hr.
    unfold refinement_admits. cbn [prefix]. destruct (lexical_form v) as [s|].
    + rewrite bool_decide_true by eauto. by rewrite andb_true_r, andb_assoc.
    + rewrite (bool_decide_false (is_Some None)), (bool_decide_false (pre = [])) by (done || by intros [? ?]).
      by rewrite !andb_false_r.
  - unfold is_optional. cbn [primitive_part]. rewrite nothing_land, Ht. by rewrite !andb_true_r.
Qed.

Lemma inhabits_kind_of b vt : inhabits b (kind_of vt) = true <-> exists v, b = Present v /\ data_type v = vt.
Proof.
  destruct b as [v|]; simpl.
  - rewrite admits_parts. simpl. rewrite contains_kind_of, andb_true_r, bool_decide_eq_true. split.
    + intros ->. by exists v.
    + by intros (w & [= <-] & <-).
  - split; [|by intros (v & ? & _)]. by destruct vt.
Qed.
Lemma inhabits_ALL b : inhabits b (Kind.Primitive ALL) = is_present b.
Proof.
  destruct b as [v|]; simpl; [|done]. rewrite admits_parts. simpl. rewrite andb_true_r. by destruct v.
Qed.
Lemma inhabits_ANY b : inhabits b (Kind.Primitive ANY) = true.
Proof. destruct b as [v|]; simpl; [|done]. rewrite admits_parts. simpl. rewrite andb_true_r. by destruct v. Qed.
