(* ===== verification/Unifier.v ===== *)
(** Unification of the types of a rule's variables
    (rust/dialog-query/src/type_system/unifier.rs). *)
From S2P Require Import Prelude Common Artifact TypeSystem Terms.

Local Abbreviation Kind := Kind.t.
Definition VarId := N.

(** The unifier's [Type] is either static or a variable. *)
Inductive Inferred := Static (s : Kind) | InferredVariable (id : VarId).
Definition lift (ty : Kind) : Inferred := Static ty.

Inductive UnifyError := ConstraintConflict (left right : Primitive) | OccursCheck (v : VarId) | SourceNotOptional.

Record Context := mkContext {
  substitution : gmap VarId Inferred;
  constraints : gmap VarId Primitive;
  names : gmap string VarId;
  next_id : VarId
}.
Definition context_new : Context := mkContext ∅ ∅ ∅ 0%N.

Section context.
Implicit Types (self : Context) (id x y : VarId).

Definition fresh self (c : Primitive) : Context * VarId :=
  let id := next_id self in
  (mkContext (substitution self) (<[id := c]> (constraints self)) (names self) (next_id self + 1)%N, id).
Definition fresh_var self : Context * Inferred :=
  let '(self, id) := fresh self ALL in (self, InferredVariable id).
Definition var_for_name self (name : string) : Context * VarId :=
  match names self !! name with
  | Some id => (self, id)
  | None =>
      let '(self, id) := fresh self ANY in
      (mkContext (substitution self) (constraints self) (<[name := id]> (names self)) (next_id self), id)
  end.
Definition constraint self id : Primitive := default ALL (constraints self !! id).
Definition substitute self id (t : Inferred) : Context :=
  mkContext (<[id := t]> (substitution self)) (constraints self) (names self) (next_id self).
Definition constrain self id (c : Primitive) : Context :=
  mkContext (substitution self) (<[id := c]> (constraints self)) (names self) (next_id self).

(** The loops of [resolve] and [root] follow links; [fuel] bounds their length. *)
Fixpoint resolve_loop (fuel : nat) self (ty : Inferred) : outcome UnifyError Inferred :=
  match fuel with
  | O => OutOfFuel
  | S fuel =>
      match ty with
      | Static s => Ok (Static s)
      | InferredVariable id =>
          match substitution self !! id with
          | Some resolved => resolve_loop fuel self resolved
          | None => Ok (InferredVariable id)
          end
      end
  end.
Definition links self : nat := S (S (size (substitution self))).
Definition resolve self (ty : Inferred) : outcome UnifyError Inferred := resolve_loop (links self) self ty.

Fixpoint root_loop (fuel : nat) self id : outcome UnifyError VarId :=
  match fuel with
  | O => OutOfFuel
  | S fuel =>
      match substitution self !! id with
      | Some (InferredVariable next) => if decide (next = id) then Ok id else root_loop fuel self next
      | _ => Ok id
      end
  end.
Definition root self id : outcome UnifyError VarId := root_loop (links self) self id.

(** The arm of [unify] for a variable and a static type. *)
Definition unify_static self x (s : Kind) : outcome UnifyError (Context * Inferred) :=
  x ← root self x;
  narrowed_static ← match substitution self !! x with
                    | Some (Static prev) =>
                        ok_or (ConstraintConflict (primitive_part prev) (primitive_part s)) (intersect prev s)
                    | _ => Ok s
                    end;
  let cx := constraint self x in
  let p := primitive_part narrowed_static in
  merged ← ok_or (ConstraintConflict cx p) (primitive_intersect cx p);
  let resolved := with_primitive_part narrowed_static merged in
  Ok (substitute (constrain self x merged) x (Static resolved), Static resolved).

Definition unify self (a b : Inferred) : outcome UnifyError (Context * Inferred) :=
  match a, b with
  | InferredVariable x, InferredVariable y =>
      x ← root self x;
      y ← root self y;
      if decide (x = y) then Ok (self, InferredVariable x)
      else match substitution self !! x, substitution self !! y with
      | Some (Static sx), _ => unify_static self y sx
      | _, Some (Static sy) => unify_static self x sy
      | _, _ =>
          let cx := constraint self x in
          let cy := constraint self y in
          merged ← ok_or (ConstraintConflict cx cy) (primitive_intersect cx cy);
          let self := constrain (constrain self x merged) y merged in
          Ok (substitute self y (InferredVariable x), InferredVariable x)
      end
  | InferredVariable x, Static s | Static s, InferredVariable x => unify_static self x s
  | Static a, Static b =>
      t ← ok_or (ConstraintConflict (primitive_part a) (primitive_part b)) (intersect a b);
      Ok (self, Static t)
  end.
End context.

(** * The links of a context form a forest *)
Inductive path (self : Context) : nat -> VarId -> VarId -> Prop :=
  | path_here id : path self 0 id id
  | path_link n id next r : substitution self !! id = Some (InferredVariable next) ->
      path self n next r -> path self (S n) id r.
Definition terminal (self : Context) (r : VarId) : Prop :=
  forall next, substitution self !! r <> Some (InferredVariable next).

Record well_formed (self : Context) : Prop := {
  wf_rooted : forall id, exists n r, path self n id r /\ terminal self r /\ (n <= size (substitution self))%nat /\
    ((id < next_id self)%N -> (r < next_id self)%N);
  wf_static : forall id s, substitution self !! id = Some (Static s) -> constraint self id = primitive_part s;
  wf_bound : forall id t, substitution self !! id = Some t -> (id < next_id self)%N;
  wf_names : forall name id, names self !! name = Some id -> (id < next_id self)%N;
  wf_distinct : forall name name' id, names self !! name = Some id -> names self !! name' = Some id -> name = name'
}.

Section forest.
Implicit Types (self : Context).

Lemma path_no_self_link self n id r : path self n id r -> terminal self r ->
  substitution self !! id <> Some (InferredVariable id).
Proof.
  induction 1 as [id|n id next r Hl Hp IH]; intros Ht; [by apply Ht|].
  intros Hs. rewrite Hs in Hl. injection Hl as <-. by apply IH.
Qed.
Lemma root_loop_path self n id r fuel : path self n id r -> terminal self r -> (n < fuel)%nat ->
  root_loop fuel self id = Ok r.
Proof.
  intros Hp Ht. revert fuel. induction Hp as [id|n id next r Hl Hp IH]; intros [|fuel] Hf; simpl; try lia.
  - destruct (substitution self !! id) as [[s|next]|] eqn:E; try done. by destruct (Ht next).
  - rewrite Hl. rewrite decide_False.
    + apply IH; [done|lia].
    + intros ->. by eapply (path_no_self_link _ (S n)); [eapply path_link|..].
Qed.
Lemma path_step self n id r s : path self n id r -> substitution self !! r = Some (Static s) ->
  forall fuel, (S n < fuel)%nat -> resolve_loop fuel self (InferredVariable id) = Ok (Static s).
Proof.
  intros Hp Hs. induction Hp as [id|n id next r Hl Hp IH]; intros [|fuel] Hf; try lia; simpl.
  - rewrite Hs. destruct fuel; [lia|done].
  - rewrite Hl. apply IH; [done|lia].
Qed.
Lemma path_unbound self n id r : path self n id r -> substitution self !! r = None ->
  forall fuel, (n < fuel)%nat -> resolve_loop fuel self (InferredVariable id) = Ok (InferredVariable r).
Proof.
  intros Hp Hs. induction Hp as [id|n id next r Hl Hp IH]; intros [|fuel] Hf; try lia; simpl.
  - by rewrite Hs.
  - rewrite Hl. apply IH; [done|lia].
Qed.

(** The canonical variable of a chain. *)
Lemma root_spec self id : well_formed self -> exists n r,
  root self id = Ok r /\ path self n id r /\ terminal self r /\ (n <= size (substitution self))%nat /\
  ((id < next_id self)%N -> (r < next_id self)%N).
Proof.
  intros Hwf. destruct (wf_rooted _ Hwf id) as (n & r & Hp & Ht & Hn & Hb). exists n, r.
  split; [|done]. eapply root_loop_path; [done..|]. unfold links. lia.
Qed.

(** Chains after a new entry at the end of one. *)
Lemma path_static self self' n id r x s : path self n id r -> terminal self r -> terminal self x ->
  substitution self' = <[x := Static s]> (substitution self) -> path self' n id r /\ terminal self' r.
Proof.
  intros Hp Ht Hx E. split.
  - induction Hp as [id|n id next r Hl Hp IH]; [constructor|]. apply (path_link _ _ _ next); [|by apply IH].
    rewrite E, lookup_insert_ne; [done|]. intros ->. by destruct (Hx next).
  - intros next. rewrite E. destruct (decide (x = r)) as [->|Hne]; [by rewrite lookup_insert_eq|].
    rewrite lookup_insert_ne by done. apply Ht.
Qed.
Lemma path_linked self self' n id r x y : path self n id r -> terminal self r -> terminal self x -> terminal self y -> x <> y ->
  substitution self' = <[y := InferredVariable x]> (substitution self) ->
  exists n' r', path self' n' id r' /\ terminal self' r' /\ (n' <= S n)%nat /\ (r' = r \/ r' = x).
Proof.
  intros Hp Ht Hx Hy Hxy E.
  assert (Hstep : forall n id r, path self n id r -> terminal self r -> r <> y -> path self' n id r).
  { intros m i q. induction 1 as [i|m i next q Hl Hq IH]; intros Hq' Hne; [constructor|].
    apply (path_link _ _ _ next); [|by apply IH]. rewrite E, lookup_insert_ne; [done|]. intros ->. by destruct (Hy next). }
  assert (Hterm : forall r, terminal self r -> r <> y -> terminal self' r).
  { intros q Hq Hne next. rewrite E, lookup_insert_ne by done. apply Hq. }
  destruct (decide (r = y)) as [->|Hne].
  - exists (S n), x. split; [|split; [by apply Hterm|split; [lia|by right]]].
    clear Ht. induction Hp as [id|n id next r Hl Hp IH].
    + eapply path_link; [by rewrite E, lookup_insert_eq|constructor].
    + eapply path_link; [|by apply IH]. rewrite E, lookup_insert_ne; [done|]. intros ->. by destruct (Hy next).
  - exists n, r. split; [by apply Hstep|split; [by apply Hterm|split; [lia|by left]]].
Qed.
End forest.
