(* ===== verification/UnifierCorrect.v ===== *)
(** What a unification context means: the assignments of bindings to variables that
    it allows.  Unification drops no assignment in which its two sides agree, and
    conflicts only where they cannot agree on a value. *)
From S2P Require Import Prelude Common Artifact TypeSystem Terms Unifier.

Local Abbreviation Kind := Kind.t.

Section meaning.
Implicit Types (self : Context) (rho : VarId -> Binding).

(** An assignment satisfies a context when every variable inhabits its type. *)
Definition satisfies_entry rho self (id : VarId) : Prop :=
  match substitution self !! id with
  | Some (Static s) => inhabits (rho id) s = true
  | Some (InferredVariable y) => rho id = rho y
  | None => inhabits (rho id) (Kind.Primitive (constraint self id)) = true
  end.
Definition allows self rho : Prop := forall id, (id < next_id self)%N -> satisfies_entry rho self id.
(** The bindings of a type under an assignment. *)
Definition denotes rho (t : Inferred) (b : Binding) : Prop :=
  match t with Static s => inhabits b s = true | InferredVariable x => b = rho x end.
Definition scoped self (t : Inferred) : Prop :=
  match t with Static _ => True | InferredVariable x => (x < next_id self)%N end.

Lemma path_equal self rho n id r : well_formed self -> allows self rho -> path self n id r -> rho id = rho r.
Proof.
  intros Hwf Hall. induction 1 as [id|n id next r Hl Hp IH]; [done|].
  pose proof (Hall id (wf_bound _ Hwf _ _ Hl)) as Hs. unfold satisfies_entry in Hs. rewrite Hl in Hs. congruence.
Qed.

Lemma inhabits_primitive_land b p q :
  inhabits b (Kind.Primitive (mkPrimitive (N.land (bits p) (bits q)))) =
  inhabits b (Kind.Primitive p) && inhabits b (Kind.Primitive q).
Proof.
  destruct b as [v|]; simpl.
  - rewrite !admits_parts. cbn [primitive_part refinement option_admits]. by rewrite contains_land, !andb_true_r.
  - unfold is_optional. cbn [primitive_part]. apply nothing_land.
Qed.
Lemma inhabits_primitive_part b k : inhabits b k = true -> inhabits b (Kind.Primitive (primitive_part k)) = true.
Proof.
  destruct b as [v|]; simpl; [|done]. rewrite !admits_parts, !andb_true_iff. by intros [? _].
Qed.
Lemma primitive_intersect_None_inhabits b p q : primitive_intersect p q = None ->
  inhabits b (Kind.Primitive p) && inhabits b (Kind.Primitive q) = false.
Proof.
  intros He%primitive_intersect_None. rewrite <- inhabits_primitive_land. destruct b as [v|]; simpl.
  - rewrite admits_parts. cbn [primitive_part]. by rewrite contains_empty.
  - by apply nothing_empty.
Qed.
Lemma inhabits_intersect_None b s t : intersect s t = None -> inhabits b s = true -> inhabits b t = true -> b = Absent.
Proof.
  destruct b as [v|]; [|done]. intros Hi Hs Ht. pose proof (admits_intersect_None _ _ v Hi) as H.
  simpl in *. by rewrite Hs, Ht in H.
Qed.
Lemma with_primitive_part_part k p : primitive_part (with_primitive_part k p) = p.
Proof. destruct k; simpl; by rewrite ?composite_primitive. Qed.

(** The new type of the root: what it was, met with [s]. *)
Lemma unify_static_root self x r s n : well_formed self ->
  path self n x r -> terminal self r -> (n <= size (substitution self))%nat -> (r < next_id self)%N ->
  match unify_static self x s with
  | Ok (self', t) => exists resolved, t = Static resolved /\
      self' = substitute (constrain self r (primitive_part resolved)) r (Static resolved) /\
      (forall rho, satisfies_entry rho self r -> inhabits (rho r) resolved = inhabits (rho r) s) /\
      (forall rho, inhabits (rho r) resolved = true -> satisfies_entry rho self r)
  | Err _ => forall rho, satisfies_entry rho self r -> inhabits (rho r) s = true -> rho r = Absent
  | _ => False
  end.
Proof.
  intros Hwf Hp Ht Hn Hr. unfold unify_static, root.
  rewrite (root_loop_path _ _ _ _ _ Hp Ht) by (unfold links; lia). simpl.
  destruct (substitution self !! r) as [[prev|y]|] eqn:E; [|by destruct (Ht y)|].
  - pose proof (wf_static _ Hwf _ _ E) as Hc.
    destruct (intersect prev s) as [narrowed|] eqn:Ei; simpl.
    2:{ intros rho. unfold satisfies_entry. rewrite E. by apply inhabits_intersect_None. }
    assert (Hin : forall b, inhabits b narrowed = inhabits b prev && inhabits b s) by (intros b; by apply inhabits_intersect).
    destruct (primitive_intersect (constraint self r) (primitive_part narrowed)) as [merged|] eqn:Em; simpl.
    + apply primitive_intersect_Some in Em as ->. exists (with_primitive_part narrowed (mkPrimitive (N.land (bits (constraint self r)) (bits (primitive_part narrowed))))).
      split; [done|]. split; [by rewrite with_primitive_part_part|]. unfold satisfies_entry. rewrite E.
      assert (Hres : forall b, inhabits b (with_primitive_part narrowed (mkPrimitive (N.land (bits (constraint self r)) (bits (primitive_part narrowed)))))
                      = inhabits b prev && inhabits b s).
      { intros b. rewrite inhabits_with_primitive_part.
        2:{ intros i. cbn [bits]. rewrite N.land_spec, andb_true_iff. by intros [_ ?]. }
        rewrite inhabits_primitive_land, Hc. destruct (inhabits b narrowed) eqn:En; [|by rewrite <- Hin, En].
        rewrite (inhabits_primitive_part _ _ En), andb_true_r. pose proof (Hin b) as Hb. rewrite En in Hb. symmetry in Hb.
        apply andb_true_iff in Hb as [Hb1 Hb2]. by rewrite Hb1, Hb2, (inhabits_primitive_part _ _ Hb1). }
      split; intros rho; rewrite Hres; [by intros ->|by rewrite andb_true_iff; intros [? _]].
    + intros rho. unfold satisfies_entry. rewrite E. intros H1 H2. exfalso.
      pose proof (primitive_intersect_None_inhabits (rho r) _ _ Em) as Hf. rewrite Hc, (inhabits_primitive_part _ _ H1) in Hf.
      rewrite (inhabits_primitive_part (rho r) narrowed) in Hf; [done|]. by rewrite Hin, H1, H2.
  - simpl. destruct (primitive_intersect (constraint self r) (primitive_part s)) as [merged|] eqn:Em; simpl.
    + apply primitive_intersect_Some in Em as ->.
      exists (with_primitive_part s (mkPrimitive (N.land (bits (constraint self r)) (bits (primitive_part s))))).
      split; [done|]. split; [by rewrite with_primitive_part_part|]. unfold satisfies_entry. rewrite E.
      assert (Hres : forall b, inhabits b (with_primitive_part s (mkPrimitive (N.land (bits (constraint self r)) (bits (primitive_part s)))))
                      = inhabits b s && inhabits b (Kind.Primitive (constraint self r))).
      { intros b. rewrite inhabits_with_primitive_part.
        2:{ intros i. cbn [bits]. rewrite N.land_spec, andb_true_iff. by intros [_ ?]. }
        rewrite inhabits_primitive_land. destruct (inhabits b s) eqn:Es; [|done].
        by rewrite (inhabits_primitive_part _ _ Es), andb_true_r. }
      split; intros rho; rewrite Hres; [by intros ->; rewrite andb_true_r|by rewrite andb_true_iff; intros [_ ?]].
    + intros rho. unfold satisfies_entry. rewrite E. intros H1 H2. exfalso.
      pose proof (primitive_intersect_None_inhabits (rho r) _ _ Em) as Hf. by rewrite H1, (inhabits_primitive_part _ _ H2) in Hf.
Qed.

(** Setting a root to a static type keeps the context well formed. *)
Lemma well_formed_static self r resolved : well_formed self -> terminal self r -> (r < next_id self)%N ->
  well_formed (substitute (constrain self r (primitive_part resolved)) r (Static resolved)).
Proof.
  intros Hwf Ht Hr. set (self' := substitute _ _ _). constructor.
  - intros id. destruct (wf_rooted _ Hwf id) as (n & q & Hp & Hq & Hn & Hb). exists n, q.
    destruct (path_static self self' _ _ _ _ resolved Hp Hq Ht eq_refl) as [Hp' Hq'].
    split; [done|]. split; [done|]. split; [|done]. simpl. rewrite map_size_insert. destruct (substitution self !! r); simpl; lia.
  - intros id s. simpl. unfold constraint. simpl. destruct (decide (id = r)) as [->|Hne].
    + rewrite !lookup_insert_eq. by intros [= ->].
    + rewrite !lookup_insert_ne by done. apply (wf_static _ Hwf).
  - intros id t. simpl. destruct (decide (id = r)) as [->|Hne]; [done|]. rewrite lookup_insert_ne by done. apply (wf_bound _ Hwf).
  - apply (wf_names _ Hwf).
  - apply (wf_distinct _ Hwf).
Qed.
Lemma allows_static self r resolved rho : well_formed self -> terminal self r -> (r < next_id self)%N ->
  (inhabits (rho r) resolved = true -> satisfies_entry rho self r) ->
  allows (substitute (constrain self r (primitive_part resolved)) r (Static resolved)) rho <->
  allows self rho /\ inhabits (rho r) resolved = true.
Proof.
  intros Hwf Ht Hr Himp.
  assert (Hsame : forall id, id <> r ->
    satisfies_entry rho (substitute (constrain self r (primitive_part resolved)) r (Static resolved)) id <-> satisfies_entry rho self id).
  { intros id Hne. unfold satisfies_entry, constraint. simpl. by rewrite !lookup_insert_ne by done. }
  assert (Hat : satisfies_entry rho (substitute (constrain self r (primitive_part resolved)) r (Static resolved)) r <-> inhabits (rho r) resolved = true).
  { unfold satisfies_entry. simpl. by rewrite lookup_insert_eq. }
  split.
  - intros Hall. assert (inhabits (rho r) resolved = true) as Hres by (apply Hat, Hall; done). split; [|done].
    intros id Hid. destruct (decide (id = r)) as [->|Hne]; [by apply Himp|]. apply Hsame; [done|]. by apply Hall.
  - intros [Hall Hres] id Hid. destruct (decide (id = r)) as [->|Hne]; [by apply Hat|]. apply Hsame; [done|]. by apply Hall.
Qed.

(** A variable and a static type: the assignments that remain are those in which
    the variable inhabits the type. *)
Lemma unify_static_spec self x s : well_formed self -> (x < next_id self)%N ->
  match unify_static self x s with
  | Ok (self', t) => well_formed self' /\ next_id self' = next_id self /\ names self' = names self /\ (exists k, t = Static k) /\
      (forall rho, allows self' rho <-> allows self rho /\ inhabits (rho x) s = true) /\
      (forall rho, allows self' rho -> denotes rho t (rho x))
  | Err _ => forall rho, allows self rho -> inhabits (rho x) s = true -> rho x = Absent
  | _ => False
  end.
Proof.
  intros Hwf Hx. destruct (root_spec _ x Hwf) as (n & r & _ & Hp & Ht & Hn & Hb). specialize (Hb Hx).
  pose proof (unify_static_root _ _ _ s _ Hwf Hp Ht Hn Hb) as Hspec.
  destruct (unify_static self x s) as [[self' t]|e|m|]; [| |done|done].
  - destruct Hspec as (resolved & -> & -> & Hex & Himp).
    split; [by apply well_formed_static|]. split; [done|]. split; [done|]. split; [eauto|].
    assert (Hiff : forall rho, allows (substitute (constrain self r (primitive_part resolved)) r (Static resolved)) rho <->
      allows self rho /\ inhabits (rho x) s = true).
    { intros rho. rewrite allows_static by (done || apply Himp). split; intros [Hall Hin]; split; try done.
      - rewrite (path_equal _ _ _ _ _ Hwf Hall Hp), <- Hex; [done|]. by apply Hall.
      - rewrite (path_equal _ _ _ _ _ Hwf Hall Hp) in Hin. rewrite Hex; [done|]. by apply Hall. }
    split; [done|]. intros rho Hall. pose proof Hall as [Hall0 Hin]%Hiff. simpl.
    rewrite (path_equal _ _ _ _ _ Hwf Hall0 Hp) in Hin |- *. rewrite Hex; [done|]. by apply Hall0.
  - intros rho Hall Hin. rewrite (path_equal _ _ _ _ _ Hwf Hall Hp) in Hin |- *. apply Hspec; [by apply Hall|done].
Qed.

(** Linking two unresolved variables. *)
Lemma well_formed_link self x y merged : well_formed self -> terminal self x -> terminal self y -> x <> y ->
  substitution self !! y = None -> substitution self !! x = None -> (x < next_id self)%N -> (y < next_id self)%N ->
  well_formed (substitute (constrain (constrain self x merged) y merged) y (InferredVariable x)).
Proof.
  intros Hwf Hx Hy Hxy Ey Ex Bx By. set (self' := substitute _ _ _). constructor.
  - intros id. destruct (wf_rooted _ Hwf id) as (n & r & Hp & Ht & Hn & Hb).
    destruct (path_linked self self' _ _ _ x y Hp Ht Hx Hy Hxy eq_refl) as (n' & r' & Hp' & Ht' & Hn' & Hr').
    exists n', r'. split; [done|]. split; [done|]. split.
    + simpl. rewrite map_size_insert_None by done. lia.
    + simpl. destruct Hr' as [->| ->]; [done|]. by intros _.
  - intros id s. unfold constraint. simpl. destruct (decide (id = y)) as [->|Hne]; [by rewrite lookup_insert_eq|].
    rewrite !(lookup_insert_ne _ y) by done. intros Hs. rewrite lookup_insert_ne; [by apply (wf_static _ Hwf)|].
    intros ->. by rewrite Ex in Hs.
  - intros id t. simpl. destruct (decide (id = y)) as [->|Hne]; [done|]. rewrite lookup_insert_ne by done. apply (wf_bound _ Hwf).
  - apply (wf_names _ Hwf).
  - apply (wf_distinct _ Hwf).
Qed.
Lemma allows_link self x y rho : well_formed self -> terminal self y -> x <> y ->
  substitution self !! y = None -> substitution self !! x = None -> (x < next_id self)%N -> (y < next_id self)%N ->
  let merged := mkPrimitive (N.land (bits (constraint self x)) (bits (constraint self y))) in
  allows (substitute (constrain (constrain self x merged) y merged) y (InferredVariable x)) rho <->
  allows self rho /\ rho x = rho y.
Proof.
  intros Hwf Hy Hxy Ey Ex Bx By merged. set (self' := substitute _ _ _).
  assert (Hother : forall id, id <> x -> id <> y -> satisfies_entry rho self' id <-> satisfies_entry rho self id).
  { intros id H1 H2. unfold satisfies_entry, constraint. simpl. by rewrite !lookup_insert_ne by done. }
  assert (Hsx : satisfies_entry rho self' x <-> inhabits (rho x) (Kind.Primitive merged) = true).
  { unfold satisfies_entry, constraint. simpl. by rewrite !(lookup_insert_ne _ y), Ex, lookup_insert_eq by done. }
  assert (Hsy : satisfies_entry rho self' y <-> rho y = rho x).
  { unfold satisfies_entry. simpl. by rewrite lookup_insert_eq. }
  assert (Hox : satisfies_entry rho self x <-> inhabits (rho x) (Kind.Primitive (constraint self x)) = true)
    by (unfold satisfies_entry; by rewrite Ex).
  assert (Hoy : satisfies_entry rho self y <-> inhabits (rho y) (Kind.Primitive (constraint self y)) = true)
    by (unfold satisfies_entry; by rewrite Ey).
  unfold merged in Hsx. rewrite inhabits_primitive_land, andb_true_iff in Hsx. split.
  - intros Hall. pose proof (proj1 Hsy (Hall y By)) as Hyx. pose proof (proj1 Hsx (Hall x Bx)) as [H1 H2]. split; [|done].
    intros id Hid. destruct (decide (id = x)) as [->|]; [by apply Hox|].
    destruct (decide (id = y)) as [->|]; [apply Hoy; by rewrite Hyx|]. apply Hother; [done..|]. by apply Hall.
  - intros [Hall Hxy'] id Hid. destruct (decide (id = x)) as [->|].
    { apply Hsx. split; [apply Hox; by apply Hall|]. rewrite Hxy'. apply Hoy. by apply Hall. }
    destruct (decide (id = y)) as [->|]; [by apply Hsy|]. apply Hother; [done..|]. by apply Hall.
Qed.

(** A variable that already has a type. *)
Definition resolved_variable self (t : Inferred) : Prop :=
  match t with
  | Static _ => False
  | InferredVariable x => exists n r s, path self n x r /\ substitution self !! r = Some (Static s)
  end.
(** The equation of two sides. *)
Definition agree rho (a b : Inferred) : Prop :=
  match a, b with
  | InferredVariable x, InferredVariable y => rho x = rho y
  | InferredVariable x, Static s | Static s, InferredVariable x => inhabits (rho x) s = true
  | Static _, Static _ => True
  end.
Definition both_variables (a b : Inferred) : Prop :=
  match a, b with InferredVariable _, InferredVariable _ => True | _, _ => False end.

(** Unification keeps every assignment in which its sides agree, and allows no
    more than before; unless both sides are variables of which one has a type, it
    allows only assignments in which they agree. *)
Definition unify_contract self (a b : Inferred) : Prop :=
  match unify self a b with
  | Ok (self', t) =>
      well_formed self' /\ next_id self' = next_id self /\ names self' = names self /\
      (forall rho, allows self' rho -> allows self rho) /\
      (forall rho b', allows self rho -> denotes rho a b' -> denotes rho b b' -> allows self' rho /\ denotes rho t b') /\
      (~ (both_variables a b /\ (resolved_variable self a \/ resolved_variable self b)) ->
       forall rho, allows self' rho -> agree rho a b)
  | Err _ => forall rho b', allows self rho -> denotes rho a b' -> denotes rho b b' -> b' = Absent
  | _ => False
  end.

Lemma unify_variable_static self x s : well_formed self -> (x < next_id self)%N ->
  match unify_static self x s with
  | Ok (self', t) =>
      well_formed self' /\ next_id self' = next_id self /\ names self' = names self /\
      (forall rho, allows self' rho -> allows self rho) /\
      (forall rho b', allows self rho -> denotes rho (InferredVariable x) b' -> denotes rho (Static s) b' -> allows self' rho /\ denotes rho t b') /\
      (forall rho, allows self' rho -> inhabits (rho x) s = true)
  | Err _ => forall rho b', allows self rho -> denotes rho (InferredVariable x) b' -> denotes rho (Static s) b' -> b' = Absent
  | _ => False
  end.
Proof.
  intros Hwf Hx. pose proof (unify_static_spec self x s Hwf Hx) as H.
  destruct (unify_static self x s) as [[self' t]|e|m|]; [| |done|done].
  - destruct H as (Hwf' & Hn & Hm & _ & Hiff & Ht).
    split; [done|]. split; [done|]. split; [done|]. split; [by intros rho [? _]%Hiff|]. split.
    + intros rho b' Hall -> Hs. assert (allows self' rho) as Hall' by (by apply Hiff). split; [done|by apply Ht].
    + by intros rho [_ ?]%Hiff.
  - intros rho b' Hall -> Hs. by apply H.
Qed.


Lemma unify_spec self a b : well_formed self -> scoped self a -> scoped self b -> unify_contract self a b.
Proof.
  intros Hwf Ha Hb. unfold unify_contract. destruct a as [s|x], b as [s'|y]; simpl in Ha, Hb.
  - simpl. destruct (intersect s s') as [m|] eqn:E; simpl.
    + split; [done|]. split; [done|]. split; [done|]. split; [done|]. split; [|done].
      intros rho b' Hall D1 D2. split; [done|]. by rewrite (inhabits_intersect _ _ _ _ E), D1, D2.
    + intros rho b' _ D1 D2. by eapply inhabits_intersect_None.
  - cbn [unify]. pose proof (unify_variable_static self y s Hwf Hb) as H.
    destruct (unify_static self y s) as [[self' t]|e|m|]; [| |done|done].
    + destruct H as (? & ? & ? & ? & H & He). split; [done|]. split; [done|]. split; [done|]. split; [done|]. split; [|by intros _].
      intros rho b' Hall D1 D2. by apply H.
    + intros rho b' Hall D1 D2. by apply (H rho).
  - cbn [unify]. pose proof (unify_variable_static self x s' Hwf Ha) as H.
    destruct (unify_static self x s') as [[self' t]|e|m|]; [| |done|done].
    + destruct H as (? & ? & ? & ? & H & He). split; [done|]. split; [done|]. split; [done|]. split; [done|]. split; [done|by intros _].
    + exact H.
  - cbn [unify]. destruct (root_spec _ x Hwf) as (n & r & -> & Hpx & Htx & _ & Hbx). specialize (Hbx Ha).
    destruct (root_spec _ y Hwf) as (m & q & -> & Hpy & Hty & _ & Hby). specialize (Hby Hb). cbn [mbind outcome_bind].
    assert (Hroots : forall rho b', allows self rho -> denotes rho (InferredVariable x) b' -> denotes rho (InferredVariable y) b' ->
      b' = rho r /\ b' = rho q).
    { simpl. intros rho b' Hall -> E. rewrite E at 2. by rewrite (path_equal _ _ _ _ _ Hwf Hall Hpx), (path_equal _ _ _ _ _ Hwf Hall Hpy). }
    destruct (decide (r = q)) as [<-|Hne].
    { split; [done|]. split; [done|]. split; [done|]. split; [done|]. split.
      - intros rho b' Hall D1 D2. split; [done|]. by apply Hroots.
      - intros _ rho Hall. simpl. by rewrite (path_equal _ _ _ _ _ Hwf Hall Hpx), (path_equal _ _ _ _ _ Hwf Hall Hpy). }
    destruct (substitution self !! r) as [[sx|z]|] eqn:Er; [|by destruct (Htx z)|].
    + pose proof (unify_variable_static self q sx Hwf Hby) as H.
      destruct (unify_static self q sx) as [[self' t]|e|k|]; [| |done|done].
      * destruct H as (? & ? & ? & ? & H & _). split; [done|]. split; [done|]. split; [done|]. split; [done|]. split.
        -- intros rho b' Hall D1 D2. destruct (Hroots rho b' Hall D1 D2) as [Er' Eq]. apply H; [done..|].
           simpl. rewrite Er'. pose proof (Hall r Hbx) as Hs. unfold satisfies_entry in Hs. by rewrite Er in Hs.
        -- intros []. split; [done|]. left. simpl. eauto.
      * intros rho b' Hall D1 D2. destruct (Hroots rho b' Hall D1 D2) as [Er' Eq]. apply (H rho); [done..|].
        simpl. rewrite Er'. pose proof (Hall r Hbx) as Hs. unfold satisfies_entry in Hs. by rewrite Er in Hs.
    + destruct (substitution self !! q) as [[sy|z]|] eqn:Eq; [|by destruct (Hty z)|].
      * pose proof (unify_variable_static self r sy Hwf Hbx) as H.
        destruct (unify_static self r sy) as [[self' t]|e|k|]; [| |done|done].
        -- destruct H as (? & ? & ? & ? & H & _). split; [done|]. split; [done|]. split; [done|]. split; [done|]. split.
           ++ intros rho b' Hall D1 D2. destruct (Hroots rho b' Hall D1 D2) as [Er' Eq']. apply H; [done..|].
              simpl. rewrite Eq'. pose proof (Hall q Hby) as Hs. unfold satisfies_entry in Hs. by rewrite Eq in Hs.
           ++ intros []. split; [done|]. right. simpl. eauto.
        -- intros rho b' Hall D1 D2. destruct (Hroots rho b' Hall D1 D2) as [Er' Eq']. apply (H rho); [done..|].
           simpl. rewrite Eq'. pose proof (Hall q Hby) as Hs. unfold satisfies_entry in Hs. by rewrite Eq in Hs.
      * destruct (primitive_intersect (constraint self r) (constraint self q)) as [merged|] eqn:Em; simpl.
        -- apply primitive_intersect_Some in Em as ->.
           assert (Hiff := fun rho => allows_link self r q rho Hwf Hty Hne Eq Er Hbx Hby). cbv zeta in Hiff.
           split; [by apply well_formed_link|]. split; [done|]. split; [done|]. split; [by intros rho [? _]%Hiff|]. split.
           ++ intros rho b' Hall D1 D2. destruct (Hroots rho b' Hall D1 D2) as [Er' Eq']. split; [|done].
              apply Hiff. split; [done|congruence].
           ++ intros _ rho [Hall E]%Hiff. by rewrite (path_equal _ _ _ _ _ Hwf Hall Hpx), (path_equal _ _ _ _ _ Hwf Hall Hpy).
        -- intros rho b' Hall D1 D2. exfalso. destruct (Hroots rho b' Hall D1 D2) as [Er' Eq'].
           pose proof (primitive_intersect_None_inhabits b' _ _ Em) as Hf.
           pose proof (Hall r Hbx) as Hs1. pose proof (Hall q Hby) as Hs2. unfold satisfies_entry in Hs1, Hs2.
           rewrite Er in Hs1. rewrite Eq in Hs2. by rewrite <- Er' in Hs1; rewrite <- Eq' in Hs2; rewrite Hs1, Hs2 in Hf.
Qed.

(** Fresh variables, and the types contexts resolve to. *)
Lemma path_substitution self self' n id r : substitution self' = substitution self -> path self n id r -> path self' n id r.
Proof.
  intros E. induction 1 as [id|n id next r Hl Hp IH]; [constructor|]. eapply path_link; [by rewrite E|done].
Qed.
Lemma fresh_spec self c : well_formed self ->
  let '(self', id) := fresh self c in
  id = next_id self /\ well_formed self' /\ next_id self' = (next_id self + 1)%N /\ names self' = names self /\
  (forall rho, allows self' rho <-> allows self rho /\ inhabits (rho id) (Kind.Primitive c) = true).
Proof.
  intros Hwf. simpl. split; [done|].
  assert (Hnew : substitution self !! next_id self = None).
  { destruct (substitution self !! next_id self) eqn:E; [|done]. apply (wf_bound _ Hwf) in E. lia. }
  split; [|split; [done|split; [done|]]].
  - constructor.
    + intros id. destruct (wf_rooted _ Hwf id) as (n & r & Hp & Ht & Hn & Hb). exists n, r. simpl.
      split; [|split; [done|split; [done|]]].
      * by eapply path_substitution; [|exact Hp].
      * intros Hid. destruct (decide (id = next_id self)) as [->|Hne]; [|specialize (Hb ltac:(lia)); lia].
        inversion Hp as [|? ? next ? Hl]; subst; [simpl; lia|]. discriminate (eq_trans (eq_sym Hnew) Hl).
    + intros id s. unfold constraint. simpl. intros Hs. rewrite lookup_insert_ne; [by apply (wf_static _ Hwf)|].
      intros <-. discriminate (eq_trans (eq_sym Hnew) Hs).
    + intros id t. simpl. intros Hs. apply (wf_bound _ Hwf) in Hs. lia.
    + intros name id. simpl. intros Hs. apply (wf_names _ Hwf) in Hs. lia.
    + apply (wf_distinct _ Hwf).
  - intros rho.
    assert (Hold : forall id, id <> next_id self -> satisfies_entry rho
        (mkContext (substitution self) (<[next_id self := c]> (constraints self)) (names self) (next_id self + 1)%N) id <-> satisfies_entry rho self id).
    { intros id Hne. unfold satisfies_entry, constraint. simpl. by rewrite lookup_insert_ne by done. }
    assert (Hid : satisfies_entry rho
        (mkContext (substitution self) (<[next_id self := c]> (constraints self)) (names self) (next_id self + 1)%N) (next_id self) <->
        inhabits (rho (next_id self)) (Kind.Primitive c) = true).
    { unfold satisfies_entry, constraint. simpl. by rewrite Hnew, lookup_insert_eq. }
    split.
    + intros Hall. split; [|apply Hid, Hall; simpl; lia]. intros id Hlt. apply Hold; [lia|]. apply Hall. simpl. lia.
    + intros [Hall Hc] id Hlt. simpl in Hlt. destruct (decide (id = next_id self)) as [->|Hne]; [by apply Hid|].
      apply Hold; [done|]. apply Hall. lia.
Qed.

Lemma var_for_name_spec self name : well_formed self ->
  let '(self', id) := var_for_name self name in
  well_formed self' /\ (id < next_id self')%N /\ (next_id self <= next_id self')%N /\ names self' !! name = Some id /\
  names self ⊆ names self' /\ (forall n, is_Some (names self' !! n) -> n = name \/ is_Some (names self !! n)) /\
  (forall rho, allows self' rho <-> allows self rho).
Proof.
  intros Hwf. unfold var_for_name. destruct (names self !! name) as [id|] eqn:E.
  - split; [done|]. split; [by apply (wf_names _ Hwf) in E|]. split; [lia|]. split; [done|]. split; [done|]. split; [by right|done].
  - pose proof (fresh_spec self ANY Hwf) as H. simpl in H |- *. destruct H as (_ & Hwf' & _ & _ & Hall).
    split.
    { constructor; [|exact (wf_static _ Hwf')|exact (wf_bound _ Hwf')|..]; simpl.
      - intros id. destruct (wf_rooted _ Hwf' id) as (n & r & Hp & H). exists n, r. split; [|exact H].
        by eapply path_substitution; [|exact Hp].
      - intros n id. destruct (decide (n = name)) as [->|Hne]; [rewrite lookup_insert_eq; intros [= <-]; lia|].
        rewrite lookup_insert_ne by done. apply (wf_names _ Hwf').
      - intros n n' id. destruct (decide (n = name)) as [->|Hn], (decide (n' = name)) as [->|Hn']; [done| | |].
        + rewrite lookup_insert_eq, lookup_insert_ne by done. intros [= <-] H%(wf_names _ Hwf). lia.
        + rewrite lookup_insert_eq, lookup_insert_ne by done. intros H%(wf_names _ Hwf) [= <-]. lia.
        + rewrite !lookup_insert_ne by done. apply (wf_distinct _ Hwf). }
    split; [lia|]. split; [lia|]. split; [by rewrite lookup_insert_eq|]. split; [by apply insert_subseteq|]. split.
    + intros n. destruct (decide (n = name)) as [->|Hne]; [by left|]. rewrite lookup_insert_ne by done. by right.
    + intros rho. etrans; [|etrans; [apply (Hall rho)|]].
      * unfold allows, satisfies_entry, constraint. simpl. done.
      * split; [by intros [? _]|]. intros Hr. split; [done|apply inhabits_ANY].
Qed.

Lemma unifier_resolve_spec self x : well_formed self -> (x < next_id self)%N ->
  exists t, resolve self (InferredVariable x) = Ok t /\
    match t with
    | Static s => forall rho, allows self rho -> inhabits (rho x) s = true
    | InferredVariable r => forall rho, allows self rho -> rho x = rho r /\ inhabits (rho x) (Kind.Primitive (constraint self r)) = true
    end.
Proof.
  intros Hwf Hx. destruct (wf_rooted _ Hwf x) as (n & r & Hp & Ht & Hn & Hb). specialize (Hb Hx).
  destruct (substitution self !! r) as [[s|z]|] eqn:E; [|by destruct (Ht z)|].
  - exists (Static s). split; [eapply path_step; [done..|]; unfold links; lia|].
    intros rho Hall. rewrite (path_equal _ _ _ _ _ Hwf Hall Hp). pose proof (Hall r Hb) as Hs. unfold satisfies_entry in Hs. by rewrite E in Hs.
  - exists (InferredVariable r). split; [eapply path_unbound; [done..|]; unfold links; lia|].
    intros rho Hall. pose proof (path_equal _ _ _ _ _ Hwf Hall Hp) as Er. split; [done|]. rewrite Er.
    pose proof (Hall r Hb) as Hs. unfold satisfies_entry in Hs. by rewrite E in Hs.
Qed.

Lemma context_new_spec : well_formed context_new /\ forall rho, allows context_new rho.
Proof.
  split; [|intros rho id; simpl; lia]. constructor; simpl.
  - intros id. exists 0%nat, id. split; [constructor|]. split; [by intros next|]. split; [lia|done].
  - done.
  - done.
  - done.
  - done.
Qed.
End meaning.
