(* ===== verification/Numbers.v ===== *)
(** Numbers in queries (rust/dialog-query/src/formula/number.rs): unsigned and
    signed 128-bit integers and doubles, with checked arithmetic that refuses mixed
    types, and the adaptation of literals.  Doubles are IEEE 754 numbers, stored by
    their bits in a [Value]. *)
From Stdlib Require Import Floats.SpecFloat.
From S2P Require Import Prelude Common Artifact Ipld TypeSystem.

(** * Doubles and their bits *)
Definition f64_of_bits (bits : N) : f64 :=
  let s := N.testbit bits 63 in
  let e := N.land (N.shiftr bits 52) 2047 in
  let m := N.land bits (2 ^ 52 - 1) in
  if (e =? 0)%N then match m with N0 => S754_zero s | Npos m => S754_finite s m (-1074) end
  else if (e =? 2047)%N then match m with N0 => S754_infinity s | Npos _ => S754_nan end
  else match (m + 2 ^ 52)%N with N0 => S754_zero s | Npos m => S754_finite s m (Z.of_N e - 1075) end.
(** Every NaN is written as the quiet one. *)
Definition bits_of_f64 (f : f64) : N :=
  let sign (s : bool) : N := if s then N.shiftl 1 63 else 0%N in
  match f with
  | S754_zero s => sign s
  | S754_infinity s => N.lor (sign s) (N.shiftl 2047 52)
  | S754_nan => N.shiftl 4095 51
  | S754_finite s m e =>
      if (Npos m <? 2 ^ 52)%N then N.lor (sign s) (Npos m)
      else N.lor (sign s) (N.lor (N.shiftl (Z.to_N (e + 1075)) 52) (Npos m - 2 ^ 52))
  end.

(** [%] on doubles: exact, with the sign of the dividend. *)
Definition f64_rem (x y : f64) : f64 :=
  match x, y with
  | S754_nan, _ | _, S754_nan | S754_infinity _, _ | _, S754_zero _ => S754_nan
  | S754_zero _, _ | _, S754_infinity _ => x
  | S754_finite sx mx ex, S754_finite _ my ey =>
      let e := Z.min ex ey in
      let r := ((Zpos mx * 2 ^ (ex - e)) `mod` (Zpos my * 2 ^ (ey - e)))%Z in
      if (r =? 0)%Z then S754_zero sx else binary_normalize 53 1024 (if sx then - r else r)%Z e false
  end.
Definition f64_is_finite (f : f64) : bool :=
  match f with S754_zero _ | S754_finite _ _ _ => true | _ => false end.
Definition u128_MAX : Z := 2 ^ 128 - 1.
(** [f as u128]: truncates, saturates at both ends, zero for a NaN. *)
Definition u128_of_f64 (f : f64) : Z :=
  match f with
  | S754_zero _ | S754_nan => 0
  | S754_infinity s => if s then 0 else u128_MAX
  | S754_finite s m e =>
      if s then 0
      else Z.min u128_MAX (if decide (0 <= e)%Z then Zpos m * 2 ^ e else Zpos m / 2 ^ (- e))%Z
  end.

(** * The dynamic number *)
Module Numeric.
Inductive t := UnsignedInt (v : N) | SignedInt (v : Z) | Float (v : f64).
End Numeric.
Local Abbreviation Numeric := Numeric.t.

(** [TryFrom<Value>] and [From<Numeric> for Value]; the error carries two types. *)
Definition Numeric_try_from (value : Value.t) : outcome (ValueDataType.t * ValueDataType.t) Numeric :=
  match value with
  | Value.UnsignedInt v => Ok (Numeric.UnsignedInt v)
  | Value.SignedInt v => Ok (Numeric.SignedInt v)
  | Value.Float b => Ok (Numeric.Float (f64_of_bits b))
  | other => Err (ValueDataType.Float, data_type other)
  end.
Definition Value_from_numeric (n : Numeric) : Value.t :=
  match n with
  | Numeric.UnsignedInt v => Value.UnsignedInt v
  | Numeric.SignedInt v => Value.SignedInt v
  | Numeric.Float v => Value.Float (bits_of_f64 v)
  end.
Definition numeric_type (self : Numeric) : ValueDataType.t :=
  match self with
  | Numeric.UnsignedInt _ => ValueDataType.UnsignedInt
  | Numeric.SignedInt _ => ValueDataType.SignedInt
  | Numeric.Float _ => ValueDataType.Float
  end.

(** [u128::checked_*] and [i128::checked_*] see their results as integers. *)
Definition checked_u128 (z : Z) : option N := if decide (0 <= z <= u128_MAX)%Z then Some (Z.to_N z) else None.
Definition checked_i128 (z : Z) : option Z := if decide (i128_MIN <= z <= i128_MAX)%Z then Some z else None.

Section operations.
Implicit Types (self other : Numeric).

(** [Numeric::binary]. *)
Definition numeric_binary self other (u : N -> N -> option N) (i : Z -> Z -> option Z) (f : f64 -> f64 -> option f64) : option Numeric :=
  match self, other with
  | Numeric.UnsignedInt a, Numeric.UnsignedInt b => Numeric.UnsignedInt <$> u a b
  | Numeric.SignedInt a, Numeric.SignedInt b => Numeric.SignedInt <$> i a b
  | Numeric.Float a, Numeric.Float b => Numeric.Float <$> f a b
  | _, _ => None
  end.
Definition numeric_add self other : option Numeric :=
  numeric_binary self other (fun a b => checked_u128 (Z.of_N a + Z.of_N b)) (fun a b => checked_i128 (a + b)%Z)
    (fun a b => Some (SFadd 53 1024 a b)).
Definition numeric_subtract self other : option Numeric :=
  numeric_binary self other (fun a b => checked_u128 (Z.of_N a - Z.of_N b)) (fun a b => checked_i128 (a - b)%Z)
    (fun a b => Some (SFsub 53 1024 a b)).
Definition numeric_multiply self other : option Numeric :=
  numeric_binary self other (fun a b => checked_u128 (Z.of_N a * Z.of_N b)) (fun a b => checked_i128 (a * b)%Z)
    (fun a b => Some (SFmul 53 1024 a b)).
Definition numeric_divide self other : option Numeric :=
  numeric_binary self other
    (fun a b => if (b =? 0)%N then None else Some (a / b)%N)
    (fun a b => if (b =? 0)%Z then None else checked_i128 (Z.quot a b))
    (fun a b => Some (SFdiv 53 1024 a b)).
(** The remainder of the least integer by -1 overflows with its quotient. *)
Definition numeric_remainder self other : option Numeric :=
  numeric_binary self other
    (fun a b => if (b =? 0)%N then None else Some (a mod b)%N)
    (fun a b => if (b =? 0)%Z then None else _ ← checked_i128 (Z.quot a b); Some (Z.rem a b))
    (fun a b => Some (f64_rem a b)).

(** [Numeric::instantiate]. *)
Definition instantiate self (target : ValueDataType.t) : option Numeric :=
  match self, target with
  | Numeric.UnsignedInt _, ValueDataType.UnsignedInt => Some self
  | Numeric.SignedInt _, ValueDataType.SignedInt => Some self
  | Numeric.Float _, ValueDataType.Float => Some self
  | Numeric.UnsignedInt v, ValueDataType.SignedInt => Numeric.SignedInt <$> checked_i128 (Z.of_N v)
  | Numeric.SignedInt v, ValueDataType.UnsignedInt => Numeric.UnsignedInt <$> checked_u128 v
  | Numeric.UnsignedInt v, ValueDataType.Float =>
      let f := f64_of_int (Z.of_N v) in
      if f64_is_finite f && (u128_of_f64 f =? Z.of_N v)%Z && match SFcompare f (S754_zero false) with Some (Gt | Eq) => true | _ => false end
      then Some (Numeric.Float f) else None
  | Numeric.SignedInt v, ValueDataType.Float =>
      let f := f64_of_int v in
      if f64_is_finite f && (int_of_f64 f =? v)%Z then Some (Numeric.Float f) else None
  | _, _ => None
  end.
Definition numeric_compare self other : option comparison :=
  match self, other with
  | Numeric.UnsignedInt a, Numeric.UnsignedInt b => Some (a ?= b)%N
  | Numeric.SignedInt a, Numeric.SignedInt b => Some (a ?= b)%Z
  | Numeric.Float a, Numeric.Float b => SFcompare a b
  | _, _ => None
  end.
Definition admissible self : Primitive :=
  foldl (fun set target => match instantiate self target with
                           | Some _ => primitive_union set (singleton target)
                           | None => set
                           end)
    EMPTY [ValueDataType.UnsignedInt; ValueDataType.SignedInt; ValueDataType.Float].
End operations.

(** [ordering] of constraint/compare.rs. *)
Definition ordering (left : Value.t) (left_is_literal : bool) (right : Value.t) (right_is_literal : bool) : option comparison :=
  match Numeric_try_from left, Numeric_try_from right with
  | Ok l, Ok r =>
      if decide (numeric_type l = numeric_type r) then numeric_compare l r
      else match (if right_is_literal then instantiate r (numeric_type l) else None) with
      | Some adapted => numeric_compare l adapted
      | None =>
          match (if left_is_literal then instantiate l (numeric_type r) else None) with
          | Some adapted => numeric_compare adapted r
          | None => None
          end
      end
  | _, _ => None
  end.

(** Arithmetic on integers is exact or refused: the results keep the type and the
    width of the operands, and mixed types have no result. *)
Definition in_width (n : Numeric) : Prop :=
  match n with
  | Numeric.UnsignedInt v => (Z.of_N v <= u128_MAX)%Z
  | Numeric.SignedInt v => (i128_MIN <= v <= i128_MAX)%Z
  | Numeric.Float _ => True
  end.
Definition integer (n : Numeric) : option Z :=
  match n with Numeric.UnsignedInt v => Some (Z.of_N v) | Numeric.SignedInt v => Some v | Numeric.Float _ => None end.

Lemma checked_u128_Some z n : checked_u128 z = Some n -> Z.of_N n = z /\ (Z.of_N n <= u128_MAX)%Z.
Proof. unfold checked_u128. case_decide; [|done]. intros [= <-]. rewrite Z2N.id; lia. Qed.
Lemma checked_i128_Some z w : checked_i128 z = Some w -> w = z /\ (i128_MIN <= w <= i128_MAX)%Z.
Proof. unfold checked_i128. case_decide; [|done]. by intros [= <-]. Qed.

Section exactness.
Implicit Types (a b c : Numeric).
(** [c] has the type of [a] and [b] and the value [z]. *)
Definition integer_result a b c (z : Z) : Prop :=
  numeric_type a = numeric_type b /\ numeric_type c = numeric_type a /\ integer c = Some z /\ in_width c.

Lemma checked_u128_iff z n : checked_u128 z = Some n <-> Z.of_N n = z /\ (Z.of_N n <= u128_MAX)%Z.
Proof.
  split; [apply checked_u128_Some|]. intros [<- H]. unfold checked_u128. rewrite decide_True by lia. by rewrite N2Z.id.
Qed.
Lemma checked_i128_iff z w : checked_i128 z = Some w <-> w = z /\ (i128_MIN <= w <= i128_MAX)%Z.
Proof. split; [apply checked_i128_Some|]. intros [<- H]. unfold checked_i128. by rewrite decide_True by lia. Qed.

(** Only the quotient of the least integer by -1 is out of range. *)
Lemma quot_in_width x y : (i128_MIN <= x <= i128_MAX)%Z -> y <> 0%Z -> y <> (-1)%Z -> (i128_MIN <= Z.quot x y <= i128_MAX)%Z.
Proof.
  intros Hx Hy Hy1. destruct (decide (y = 1)%Z) as [->|Hy2]; [by rewrite Z.quot_1_r|].
  pose proof (Z.quot_abs x y Hy) as Ha. rewrite Z.quot_div_nonneg in Ha by lia.
  assert (Z.abs x / Z.abs y <= Z.abs x / 2)%Z by (apply Z.div_le_compat_l; lia).
  assert (Z.abs x / 2 <= 2 ^ 126)%Z by (apply Z.div_le_upper_bound; unfold i128_MIN, i128_MAX in *; lia).
  unfold i128_MIN, i128_MAX in *. lia.
Qed.

Lemma numeric_binary_integer a b c x y u i f (g : Z -> Z -> Z) (defined : Z -> Z -> Prop) :
  integer a = Some x -> integer b = Some y ->
  (forall m n k, x = Z.of_N m -> y = Z.of_N n -> u m n = Some k <-> defined x y /\ Z.of_N k = g x y /\ (Z.of_N k <= u128_MAX)%Z) ->
  (forall k, numeric_type a = ValueDataType.SignedInt -> numeric_type b = ValueDataType.SignedInt -> i x y = Some k <-> defined x y /\ k = g x y /\ (i128_MIN <= k <= i128_MAX)%Z) ->
  numeric_binary a b u i f = Some c <-> defined x y /\ integer_result a b c (g x y).
Proof.
  intros Ha Hb Hu Hi. unfold integer_result.
  destruct a as [m|m|m], b as [n|n|n]; simpl in *; try done; injection Ha as <-; injection Hb as <-.
  - rewrite fmap_Some. setoid_rewrite (Hu m n); [|done..]. split.
    + intros (k & (Hd & Hk & Hw) & ->). simpl. split; [done|]. split; [done|]. split; [done|]. split; [by f_equal|done].
    + intros (Hd & _ & Hc & Hk & Hw). destruct c as [k|k|k]; try done. simpl in *. injection Hk as Hk. by exists k.
  - split; [done|]. by intros (_ & ? & _).
  - split; [done|]. by intros (_ & ? & _).
  - rewrite fmap_Some. setoid_rewrite (fun k => Hi k eq_refl eq_refl). split.
    + intros (k & (Hd & Hk & Hw) & ->). simpl. split; [done|]. split; [done|]. split; [done|]. split; [by f_equal|done].
    + intros (Hd & _ & Hc & Hk & Hw). destruct c as [k|k|k]; try done. simpl in *. injection Hk as Hk. by exists k.
Qed.

(** C39: Arithmetic of query formulas never wraps, coerces or rounds integers: a sum,
    difference, product, quotient or remainder of two integers is computed exactly
    when both have one type and the exact result fits its 128 bits (and the divisor
    is not zero), and is no row otherwise; operands of mixed types never have a
    result.  The one exact remainder that is refused is that of the least signed
    integer by -1, whose quotient overflows. *)
Theorem integer_arithmetic a b c x y :
  in_width a -> in_width b -> integer a = Some x -> integer b = Some y ->
  (numeric_add a b = Some c <-> integer_result a b c (x + y)) /\
  (numeric_subtract a b = Some c <-> integer_result a b c (x - y)) /\
  (numeric_multiply a b = Some c <-> integer_result a b c (x * y)) /\
  (numeric_divide a b = Some c <-> y <> 0%Z /\ integer_result a b c (Z.quot x y)) /\
  (numeric_remainder a b = Some c <->
     (y <> 0%Z /\ ~ (numeric_type a = ValueDataType.SignedInt /\ x = i128_MIN /\ y = (-1)%Z)) /\ integer_result a b c (Z.rem x y)).
Proof.
  intros Wa Wb Ha Hb.
  assert (Htriv : forall P : Prop, P <-> True /\ P) by tauto.
  assert (Hz : forall n : N, (n =? 0)%N = true <-> Z.of_N n = 0%Z) by (intros n; rewrite N.eqb_eq; lia).
  split; [|split; [|split; [|split]]].
  - rewrite (Htriv (integer_result _ _ _ _)).
    apply (numeric_binary_integer a b c x y _ _ _ Z.add (fun _ _ => True)); [done..| |].
    + intros m n k -> ->. rewrite checked_u128_iff. tauto.
    + intros k _ _. rewrite checked_i128_iff. tauto.
  - rewrite (Htriv (integer_result _ _ _ _)).
    apply (numeric_binary_integer a b c x y _ _ _ Z.sub (fun _ _ => True)); [done..| |].
    + intros m n k -> ->. rewrite checked_u128_iff. tauto.
    + intros k _ _. rewrite checked_i128_iff. tauto.
  - rewrite (Htriv (integer_result _ _ _ _)).
    apply (numeric_binary_integer a b c x y _ _ _ Z.mul (fun _ _ => True)); [done..| |].
    + intros m n k -> ->. rewrite checked_u128_iff. tauto.
    + intros k _ _. rewrite checked_i128_iff. tauto.
  - apply (numeric_binary_integer a b c x y _ _ _ Z.quot (fun _ y => y <> 0%Z)); [done..| |].
    + intros m n k -> ->. case_match eqn:E; [apply Hz in E; split; [done|by intros [? _]]|].
      assert (Z.of_N n <> 0%Z) by (intros F%Hz; congruence).
      assert (Z.of_N (m / n) <= u128_MAX)%Z.
      { assert (m / n <= m)%N by (apply N.Div0.div_le_upper_bound; nia). destruct a; simpl in *; try done; simplify_eq; unfold u128_MAX, i128_MAX in *; lia. }
      rewrite <- N2Z.inj_quot. split; [by intros [= <-]|]. intros (_ & Hk & _). f_equal. lia.
    + intros k _ _. case_match eqn:E; [apply Z.eqb_eq in E; split; [done|by intros [? _]]|].
      apply Z.eqb_neq in E. rewrite checked_i128_iff. tauto.
  - apply (numeric_binary_integer a b c x y _ _ _ Z.rem
             (fun x y => y <> 0%Z /\ ~ (numeric_type a = ValueDataType.SignedInt /\ x = i128_MIN /\ y = (-1)%Z))); [done..| |].
    + intros m n k -> Hn. subst y. case_match eqn:E; [apply Hz in E; split; [done|by intros [[? _] _]]|].
      assert (Z.of_N n <> 0%Z) by (intros F%Hz; congruence).
      assert (Z.of_N (m mod n) <= u128_MAX)%Z.
      { assert (m mod n <= m)%N by (apply N.Div0.mod_le). destruct a; simpl in *; try done; simplify_eq; unfold u128_MAX, i128_MAX in *; lia. }
      rewrite <- N2Z.inj_rem. split.
      * intros [= <-]. split; [|done]. split; [done|]. intros (_ & _ & ?). lia.
      * intros (_ & Hk & _). f_equal. lia.
    + intros k Hty Hty'. case_match eqn:E; [apply Z.eqb_eq in E; split; [done|by intros [[? _] _]]|]. apply Z.eqb_neq in E.
      assert (i128_MIN <= x <= i128_MAX)%Z as Hx by (destruct a; simpl in *; try done; by simplify_eq).
      assert (i128_MIN <= y <= i128_MAX)%Z as Hy by (destruct a, b; simpl in *; try done; by simplify_eq).
      pose proof (Z.rem_bound_abs x y E) as Hr. unfold checked_i128. case_decide as Hq; simpl.
      * split.
        -- intros [= <-]. split; [split; [done|]|].
           ++ intros (_ & -> & ->). by vm_compute in Hq; destruct Hq.
           ++ split; [done|]. destruct (decide (Z.rem x y = 0)%Z) as [->|Hne]; [by vm_compute|].
              unfold i128_MIN, i128_MAX in *. lia.
        -- by intros (_ & -> & _).
      * split; [done|]. intros ([_ Hno] & _). exfalso. apply Hq.
        destruct (decide (y = -1)%Z) as [->|Hy1]; [|by apply quot_in_width].
        assert (x <> i128_MIN) by (intros ->; by apply Hno). change (-1)%Z with (- (1))%Z. rewrite (Z.quot_opp_r x 1) by done.
        rewrite Z.quot_1_r. unfold i128_MIN, i128_MAX in *. lia.
Qed.
End exactness.
