(* ===== verification/Constraints.v ===== *)
(** Constraints between terms (rust/dialog-query/src: constraint.rs and
    constraint/{equality,coalesce,type_of,starts_with,compare}.rs): they filter rows
    and infer bindings without reading facts. *)
From S2P Require Import Prelude Common Artifact TypeSystem Terms Unifier Numbers.

Local Abbreviation Kind := Kind.t.
Local Abbreviation EE := EvaluationError.t.

Record Equality := mkEquality { this : Term; eq_is : Term }.
Record Coalesce := mkCoalesce { source : Term; fallback : Term; coalesce_is : Term }.
Record TypeOf := mkTypeOf { type_of : Term; type_is : Kind }.
Record StartsWith := mkStartsWith { starts_of : Term; starts_prefix : Term }.
(** The four comparisons are one macro. *)
Inductive Comparison := LessThan | AtMost | GreaterThan | AtLeast.
Record Compare := mkCompare { comparison_name : Comparison; compare_of : Term; compare_with : Term }.

Module Constraint.
Inductive t :=
  | Equality (c : Constraints.Equality)
  | Coalesce (c : Constraints.Coalesce)
  | TypeOf (c : Constraints.TypeOf)
  | StartsWith (c : Constraints.StartsWith)
  | Compare (c : Constraints.Compare).
End Constraint.
Local Abbreviation Constraint := Constraint.t.

(** * Schemas, parameters and costs *)
Definition EQUALITY_COST : N := 1.
Definition COALESCE_COST : N := 1.
Definition TYPE_OF_COST : N := 1.
Definition STARTS_WITH_COST : N := 1.
Definition COMPARE_COST : N := 1.
Definition SYMBOL_LEXICAL_LIMIT : nat := 64.

Definition equality_schema (self : Equality) : Schema :=
  {[ "this" := mkField (term_kind (this self)) (Required (Some new_group)) One;
     "is" := mkField (term_kind (eq_is self)) (Required (Some new_group)) One ]}.
Definition equality_parameters (self : Equality) : Parameters :=
  {[ "this" := this self; "is" := eq_is self ]}.
Definition equality_estimate (self : Equality) (env : Environment) : option N :=
  if is_bound (this self) env || is_bound (eq_is self) env then Some EQUALITY_COST else None.

Definition coalesce_schema (self : Coalesce) : Schema :=
  {[ "source" := mkField (term_kind (source self)) (Required None) One;
     "fallback" := mkField (term_kind (fallback self)) (Required None) One;
     "is" := mkField (term_kind (coalesce_is self)) Optional One ]}.
Definition coalesce_parameters (self : Coalesce) : Parameters :=
  {[ "source" := source self; "fallback" := fallback self; "is" := coalesce_is self ]}.

Definition type_of_schema (self : TypeOf) : Schema :=
  {[ "of" := mkField (Some (type_is self)) (Required None) One ]}.
Definition type_of_parameters (self : TypeOf) : Parameters := {[ "of" := type_of self ]}.

(** The scalar value a char encodes. *)
Definition char_code (c : bytes) : N :=
  match Byte.to_N <$> c with
  | [a] => a
  | [a; b] => (a - 192) * 64 + (b - 128)
  | [a; b; c] => ((a - 224) * 64 + (b - 128)) * 64 + (c - 128)
  | [a; b; c; d] => (((a - 240) * 64 + (b - 128)) * 64 + (c - 128)) * 64 + (d - 128)
  | _ => 0
  end%N.
(** [char::is_whitespace] and [char::is_control]: the Unicode properties White_Space
    and Cc. *)
Definition char_in (lo hi : N) (c : N) : bool := (lo <=? c)%N && (c <=? hi)%N.
Definition is_whitespace (c : N) : bool :=
  char_in 9 13 c || char_in 32 32 c || char_in 133 133 c || char_in 160 160 c || char_in 5760 5760 c ||
  char_in 8192 8202 c || char_in 8232 8233 c || char_in 8239 8239 c || char_in 8287 8287 c || char_in 12288 12288 c.
Definition is_control (c : N) : bool := char_in 0 31 c || char_in 127 159 c.
Definition is_ascii_alphabetic (c : N) : bool := char_in 65 90 c || char_in 97 122 c.
Definition is_ascii_alphanumeric (c : N) : bool := is_ascii_alphabetic c || char_in 48 57 c.

Definition could_begin_entity (pre : bytes) : bool :=
  if existsb (fun c => is_whitespace (char_code c) || is_control (char_code c)) (chars pre) then false
  else
    let scheme := first_piece x3a pre in
    match char_code <$> chars scheme with
    | [] => bool_decide (pre = [])
    | head :: rest =>
        is_ascii_alphabetic head &&
        forallb (fun c => is_ascii_alphanumeric c || (c =? 43)%N || (c =? 45)%N || (c =? 46)%N) rest
    end.
Definition admissible_members (pre : bytes) : Primitive :=
  let members := singleton ValueDataType.String in
  let members := if decide (length pre <= SYMBOL_LEXICAL_LIMIT)%nat
                 then primitive_union members (singleton ValueDataType.Symbol) else members in
  if could_begin_entity pre then primitive_union members (singleton ValueDataType.Entity) else members.

Definition starts_with_content (self : StartsWith) : Kind :=
  match starts_prefix self with
  | Constant (Value.String pre) =>
      let members := Kind.Primitive (admissible_members pre) in
      default members (with_prefix members pre)
  | _ => Kind.Primitive TEXTUAL
  end.
Definition starts_with_schema (self : StartsWith) : Schema :=
  {[ "of" := mkField (Some (starts_with_content self)) (Required None) One;
     "prefix" := mkField (Some (kind_of ValueDataType.String)) (Required None) One ]}.
Definition starts_with_parameters (self : StartsWith) : Parameters :=
  {[ "of" := starts_of self; "prefix" := widen (starts_prefix self) ]}.

Definition compare_schema (self : Compare) : Schema :=
  {[ "of" := mkField (Some (Kind.Primitive NUMERIC)) (Required None) One;
     "with" := mkField (Some (Kind.Primitive NUMERIC)) (Required None) One ]}.
Definition compare_parameters (self : Compare) : Parameters :=
  {[ "of" := compare_of self; "with" := compare_with self ]}.

Definition constraint_schema (self : Constraint) : Schema :=
  match self with
  | Constraint.Equality c => equality_schema c
  | Constraint.Coalesce c => coalesce_schema c
  | Constraint.TypeOf c => type_of_schema c
  | Constraint.StartsWith c => starts_with_schema c
  | Constraint.Compare c => compare_schema c
  end.
Definition constraint_parameters (self : Constraint) : Parameters :=
  match self with
  | Constraint.Equality c => equality_parameters c
  | Constraint.Coalesce c => coalesce_parameters c
  | Constraint.TypeOf c => type_of_parameters c
  | Constraint.StartsWith c => starts_with_parameters c
  | Constraint.Compare c => compare_parameters c
  end.
Definition constraint_estimate (self : Constraint) (env : Environment) : option N :=
  match self with
  | Constraint.Equality c => equality_estimate c env
  | Constraint.Coalesce c => Some COALESCE_COST
  | Constraint.TypeOf c => Some TYPE_OF_COST
  | Constraint.StartsWith c => Some STARTS_WITH_COST
  | Constraint.Compare c => Some COMPARE_COST
  end.

(** [Coalesce::validate]. *)
Definition validate (self : Coalesce) (ctx : Context) : outcome UnifyError Context :=
  let '(ctx, alpha) := fresh_var ctx in
  ctx ← match term_kind (source self) with
        | Some source =>
            if is_optional source
            then '(ctx, _) ← unify ctx (Static (required source)) alpha; Ok ctx
            else Err SourceNotOptional
        | None => Ok ctx
        end;
  ctx ← match term_kind (fallback self) with
        | Some k => '(ctx, _) ← unify ctx (lift k) alpha; Ok ctx
        | None => Ok ctx
        end;
  match term_kind (coalesce_is self) with
  | Some k => '(ctx, _) ← unify ctx (lift k) alpha; Ok ctx
  | None => Ok ctx
  end.

(** * Evaluation, a row at a time *)
Definition unbound (term : Term) (slot : string) : Selection :=
  fails (Err (EvaluationError.UnboundVariable (default slot (term_name term)))).

Definition equality_row (self : Equality) (base : Match) : Selection :=
  match lookup_term base (this self), lookup_term base (eq_is self) with
  | Ok (Present this_val), Ok (Present is_val) =>
      if decide (this_val = is_val) then yields [base] else yields []
  | Ok Absent, Ok Absent => yields [base]
  | Ok Absent, Ok (Present _) | Ok (Present _), Ok Absent => yields []
  | Ok (Present this_val), _ =>
      let_ok (bind base (eq_is self) this_val) (fun extension => yields [extension])
  | _, Ok (Present is_val) =>
      let_ok (bind base (this self) is_val) (fun extension => yields [extension])
  | Ok Absent, _ =>
      if term_is_optional (eq_is self)
      then let_ok (bind_absent base (eq_is self)) (fun extension => yields [extension]) else yields []
  | _, Ok Absent =>
      if term_is_optional (this self)
      then let_ok (bind_absent base (this self)) (fun extension => yields [extension]) else yields []
  | _, _ => fails (Err (EvaluationError.ConstraintViolation (this self) (eq_is self)))
  end.

Definition coalesce_row (self : Coalesce) (base : Match) : Selection :=
  match lookup_term base (source self) with
  | Ok source_binding =>
      let chosen := match source_binding with
                    | Present value => Some value
                    | Absent => match lookup_term base (fallback self) with
                                | Ok (Present value) => Some value
                                | _ => None
                                end
                    end in
      match chosen with
      | Some value =>
          match lookup_term base (coalesce_is self) with
          | Ok (Present existing) => if decide (existing = value) then yields [base] else yields []
          | Ok Absent => yields []
          | _ => let_ok (bind base (coalesce_is self) value) (fun extension => yields [extension])
          end
      | None => yields []
      end
  | _ => unbound (source self) "source"
  end.

Definition type_of_row (self : TypeOf) (base : Match) : Selection :=
  match lookup_term base (type_of self) with
  | Ok (Present value) => if admits (type_is self) value then yields [base] else yields []
  | Ok Absent => if is_optional (type_is self) then yields [base] else yields []
  | _ => unbound (type_of self) "of"
  end.

Definition starts_with_row (self : StartsWith) (base : Match) : Selection :=
  match lookup_term base (starts_of self), lookup_term base (widen (starts_prefix self)) with
  | Ok (Present subject), Ok (Present (Value.String needle)) =>
      match lexical_form subject with
      | Some form => if starts_with needle form then yields [base] else yields []
      | None => yields []
      end
  | Ok _, Ok _ => yields []
  | Ok _, _ => unbound (starts_prefix self) "prefix"
  | _, _ => unbound (starts_of self) "of"
  end.

Definition accepts (self : Comparison) (order : comparison) : bool :=
  match self, order with
  | LessThan, Lt | AtMost, (Lt | Eq) | GreaterThan, Gt | AtLeast, (Gt | Eq) => true
  | _, _ => false
  end.
Definition compare_row (self : Compare) (base : Match) : Selection :=
  match lookup_term base (compare_of self), lookup_term base (compare_with self) with
  | Ok (Present lhs), Ok (Present rhs) =>
      match ordering lhs (is_constant (compare_of self)) rhs (is_constant (compare_with self)) with
      | Some order => if accepts (comparison_name self) order then yields [base] else yields []
      | None => yields []
      end
  | Ok _, Ok _ => yields []
  | Ok _, _ => unbound (compare_with self) "with"
  | _, _ => unbound (compare_of self) "of"
  end.

Definition constraint_row (self : Constraint) : Match -> Selection :=
  match self with
  | Constraint.Equality c => equality_row c
  | Constraint.Coalesce c => coalesce_row c
  | Constraint.TypeOf c => type_of_row c
  | Constraint.StartsWith c => starts_with_row c
  | Constraint.Compare c => compare_row c
  end.
Definition constraint_evaluate (self : Constraint) (selection : Selection) : Selection :=
  for_each selection (constraint_row self).
