(* ===== verification/Formulas.v ===== *)
(** Formulas (rust/dialog-query/src/formula.rs and formula/{cell,bindings,query,
    math,logic,string,conversions}.rs): computations that read the input slots of a
    row and bind the output slot.  The derive macro [Formula]
    (rust/dialog-macros/src/query/formula.rs) makes the cells of a formula, the
    reading of its inputs and the writing of its output. *)
From S2P Require Import Prelude Common Artifact Ipld TypeSystem Terms Constraints Numbers.

Local Abbreviation Kind := Kind.t.
Local Abbreviation EE := EvaluationError.t.

(** What the Rust library does with text by the tables of Unicode and by the
    decimal notation of doubles. *)
Class TextLibrary := {
  to_uppercase : bytes -> bytes;
  to_lowercase : bytes -> bytes;
  f64_to_string : f64 -> bytes;
  parse_f64 : bytes -> option f64
}.

Inductive Formula :=
  | Sum | Difference | Product | Quotient | Modulo
  | Concatenate | Length | Uppercase | Lowercase | Like
  | And | Or | Not
  | ToString | ParseUnsignedInteger | ParseSignedInteger | ParseFloat.
#[export] Instance Formula_eq_dec : EqDecision Formula.
Proof. solve_decision. Defined.

(** * Cells *)
Record Cell := mkCell { cell_type : option Kind; cell_requirement : Requirement; scheme_label : option string }.
Definition scheme_cell (required : bool) : Cell :=
  mkCell (Some (Kind.Primitive NUMERIC)) (if required then Required None else Optional) (Some "N").
Definition typed_cell (TYPE : ValueDataType.t) (required : bool) : Cell :=
  mkCell (Some (kind_of TYPE)) (if required then Required None else Optional) None.

(** The cells of a formula in the order of its fields; the output comes last. *)
Definition cells (self : Formula) : list (string * Cell) :=
  let number := scheme_cell in
  let text := typed_cell ValueDataType.String in
  let boolean := typed_cell ValueDataType.Boolean in
  match self with
  | Sum => [("of", number true); ("with", number true); ("is", number false)]
  | Difference => [("of", number true); ("subtract", number true); ("is", number false)]
  | Product => [("of", number true); ("times", number true); ("is", number false)]
  | Quotient | Modulo => [("of", number true); ("by", number true); ("is", number false)]
  | Concatenate => [("first", text true); ("second", text true); ("is", text false)]
  | Length => [("of", text true); ("is", typed_cell ValueDataType.UnsignedInt false)]
  | Uppercase | Lowercase => [("of", text true); ("is", text false)]
  | Like => [("text", text true); ("pattern", text true); ("is", text false)]
  | And | Or => [("left", boolean true); ("right", boolean true); ("is", boolean false)]
  | Not => [("value", boolean true); ("is", boolean false)]
  | ToString => [("value", mkCell None (Required None) None); ("is", text false)]
  | ParseUnsignedInteger => [("text", text true); ("is", typed_cell ValueDataType.UnsignedInt false)]
  | ParseSignedInteger => [("text", text true); ("is", typed_cell ValueDataType.SignedInt false)]
  | ParseFloat => [("text", text true); ("is", typed_cell ValueDataType.Float false)]
  end.
(** The cost of the output. *)
Definition formula_cost (self : Formula) : N :=
  match self with
  | Sum | Product | Quotient => 5
  | Difference | Concatenate | ParseUnsignedInteger | ParseSignedInteger | ParseFloat => 2
  | Modulo => 10
  | Like => 3
  | _ => 1
  end.

(** * Text *)
(** [glob_match]; [fuel] bounds the iterations of its loop. *)
Section glob.
Context {A : Type} `{EqDecision A} (star question backslash : A) (pattern text : list A).

Fixpoint glob_loop (fuel : nat) (pi ti : nat) (saved : option (nat * nat)) : outcome unit bool :=
  match fuel with
  | O => OutOfFuel
  | S fuel =>
      match text !! ti with
      | None =>
          (** The trailing stars of the pattern. *)
          Ok (forallb (fun c => bool_decide (c = star)) (drop pi pattern))
      | Some t =>
          let mismatch :=
            match saved with
            | None => Ok false
            | Some (star_pi, star_ti) => glob_loop fuel (star_pi + 1) (star_ti + 1) (Some (star_pi, star_ti + 1))
            end%nat in
          match pattern !! pi with
          | None => mismatch
          | Some p =>
              match (if decide (p = backslash) then pattern !! S pi else None) with
              | Some c => if decide (c = t) then glob_loop fuel (pi + 2) (ti + 1) saved else mismatch
              | None =>
                  if decide (p = star) then glob_loop fuel (pi + 1) ti (Some (pi, ti))
                  else if decide (p = question) then glob_loop fuel (pi + 1) (ti + 1) saved
                  else if decide (p = t) then glob_loop fuel (pi + 1) (ti + 1) saved
                  else mismatch
              end
          end
      end
  end%nat.
End glob.
Definition glob_fuel {A} (pattern text : list A) : nat := S (S (length text) * (S (length pattern) + S (length text)))%nat.
Definition glob_match (pattern text : bytes) : outcome unit bool :=
  glob_loop [x2a] [x3f] [x5c] (chars pattern) (chars text) (glob_fuel (chars pattern) (chars text)) 0 0 None.

(** [str::trim]. *)
Fixpoint trim_start (s : list bytes) : list bytes :=
  match s with c :: s' => if is_whitespace (char_code c) then trim_start s' else s | [] => [] end.
Definition trim (s : bytes) : bytes := concat (reverse (trim_start (reverse (trim_start (chars s))))).
(** [str::parse] for integers: an optional sign, then digits. *)
Definition digit (b : byte) : option N := let n := Byte.to_N b in if char_in 48 57 n then Some (n - 48)%N else None.
Fixpoint parse_digits (acc : N) (s : bytes) : option N :=
  match s with
  | [] => Some acc
  | b :: s => d ← digit b; parse_digits (acc * 10 + d) s
  end.
Definition parse_natural (s : bytes) : option N := match s with [] => None | _ => parse_digits 0 s end.
Definition parse_u128 (s : bytes) : option N :=
  n ← parse_natural (match s with x2b :: s => s | _ => s end); checked_u128 (Z.of_N n).
Definition parse_i128 (s : bytes) : option Z :=
  match s with
  | x2d :: s => n ← parse_natural s; checked_i128 (- Z.of_N n)
  | x2b :: s => n ← parse_natural s; checked_i128 (Z.of_N n)
  | _ => n ← parse_natural s; checked_i128 (Z.of_N n)
  end.
(** [to_string] of integers. *)
Fixpoint decimal (fuel : nat) (n : N) (acc : bytes) : bytes :=
  match fuel with
  | O => acc
  | S fuel =>
      let acc := default x30 (Byte.of_N (48 + n mod 10)) :: acc in
      if (n <? 10)%N then acc else decimal fuel (n / 10)%N acc
  end.
Definition natural_to_string (n : N) : bytes := decimal (S (N.to_nat (N.log2 n))) n [].
Definition integer_to_string (z : Z) : bytes :=
  if (z <? 0)%Z then x2d :: natural_to_string (Z.abs_N z) else natural_to_string (Z.abs_N z).
Definition ascii (s : string) : bytes := String.list_byte_of_string s.

(** * Computation *)
Section compute.
Context `{TextLibrary}.

(** [TryFrom<Value>] at the type of an input cell. *)
Definition input_try_from (cell : Cell) (value : Value.t) : eval Value.t :=
  match scheme_label cell, cell_type cell with
  | Some _, _ =>
      match Numeric_try_from value with
      | Err (expected, actual) => Err (EvaluationError.TypeMismatch expected actual)
      | _ => Ok value
      end
  | None, Some (Kind.Primitive p) =>
      match as_singleton p with
      | Some expected =>
          if decide (data_type value = expected) then Ok value
          else Err (EvaluationError.TypeMismatch expected (data_type value))
      | None => Ok value
      end
  | None, _ => Ok value
  end.

Definition arithmetic (op : Numeric.t -> Numeric.t -> option Numeric.t) (a b : Value.t) : list Value.t :=
  match Numeric_try_from a, Numeric_try_from b with
  | Ok a, Ok b => match op a b with Some c => [Value_from_numeric c] | None => [] end
  | _, _ => []
  end.
Definition value_to_string (value : Value.t) : bytes :=
  match value with
  | Value.String s => s
  | Value.UnsignedInt n => natural_to_string n
  | Value.SignedInt n => integer_to_string n
  | Value.Float f => f64_to_string (f64_of_bits f)
  | Value.Boolean b => ascii (if b then "true" else "false")
  | Value.Entity e => entity_str e
  | Value.Symbol s => attribute_name s
  | Value.Bytes b => ascii "Bytes(" ++ natural_to_string (N.of_nat (length b)) ++ ascii " bytes)"
  | Value.Record_ b => ascii "Record(" ++ natural_to_string (N.of_nat (length b)) ++ ascii " bytes)"
  end.

(** The [compute] of each formula: the outputs for its inputs, in the order of the
    fields.  The inputs have the types of their cells. *)
Definition compute_math (self : Formula) (inputs : list Value.t) : list Value.t :=
  match self, inputs with
  | Sum, [a; b] => arithmetic numeric_add a b
  | Difference, [a; b] => arithmetic numeric_subtract a b
  | Product, [a; b] => arithmetic numeric_multiply a b
  | Quotient, [a; b] => arithmetic numeric_divide a b
  | Modulo, [a; b] => arithmetic numeric_remainder a b
  | _, _ => []
  end.
Definition compute_string (self : Formula) (inputs : list Value.t) : list Value.t :=
  match self, inputs with
  | Concatenate, [Value.String a; Value.String b] => [Value.String (a ++ b)]
  | Length, [Value.String a] => [Value.UnsignedInt (N.of_nat (length a) mod 2 ^ 32)]
  | Uppercase, [Value.String a] => [Value.String (to_uppercase a)]
  | Lowercase, [Value.String a] => [Value.String (to_lowercase a)]
  | Like, [Value.String text; Value.String pattern] =>
      match glob_match pattern text with Ok true => [Value.String text] | _ => [] end
  | _, _ => []
  end.
Definition compute_logic (self : Formula) (inputs : list Value.t) : list Value.t :=
  match self, inputs with
  | And, [Value.Boolean a; Value.Boolean b] => [Value.Boolean (a && b)]
  | Or, [Value.Boolean a; Value.Boolean b] => [Value.Boolean (a || b)]
  | Not, [Value.Boolean a] => [Value.Boolean (negb a)]
  | _, _ => []
  end.
Definition compute_conversion (self : Formula) (inputs : list Value.t) : list Value.t :=
  match self, inputs with
  | ToString, [a] => [Value.String (value_to_string a)]
  | ParseUnsignedInteger, [Value.String a] =>
      match parse_u128 (trim a) with Some n => [Value.UnsignedInt n] | None => [] end
  | ParseSignedInteger, [Value.String a] =>
      match parse_i128 (trim a) with Some z => [Value.SignedInt z] | None => [] end
  | ParseFloat, [Value.String a] =>
      match parse_f64 (trim a) with Some f => [Value.Float (bits_of_f64 f)] | None => [] end
  | _, _ => []
  end.
Definition compute (self : Formula) (inputs : list Value.t) : list Value.t :=
  match self with
  | Sum | Difference | Product | Quotient | Modulo => compute_math self inputs
  | Concatenate | Length | Uppercase | Lowercase | Like => compute_string self inputs
  | And | Or | Not => compute_logic self inputs
  | ToString | ParseUnsignedInteger | ParseSignedInteger | ParseFloat => compute_conversion self inputs
  end.

(** * Formula premises *)
(** [FormulaQuery]: a formula and the terms of its fields. *)
Record FormulaQuery := mkFormula { formula : Formula; fields : list Term }.
Implicit Types (self : FormulaQuery).

Definition formula_parameters self : Parameters :=
  list_to_map (zip (cells (formula self)).*1 (widen <$> fields self)).
Definition formula_schema self : Schema :=
  list_to_map ((fun '(name, cell) => (name, mkField (cell_type cell) (cell_requirement cell) One)) <$> cells (formula self)).
Definition formula_estimate self : option N := Some (formula_cost (formula self)).

(** [adapt_literals]: the type that the row gives to the scheme, then the literals
    converted to it.  All the cells of a formula that have a label share it. *)
Definition instantiation (cs : list (string * Cell)) (parameters : Parameters) (row : Match) : option ValueDataType.t :=
  head (omap (fun '(slot, cell) =>
    match scheme_label cell, parameters !! slot with
    | Some _, Some (Variable_ (Some _) _ as term) =>
        match lookup_term row term with
        | Ok (Present value) => match Numeric_try_from value with Ok _ => Some (data_type value) | _ => None end
        | _ => None
        end
    | _, _ => None
    end) cs).
Fixpoint adapt_cells (cs : list (string * Cell)) (target : ValueDataType.t) (parameters : Parameters) : option Parameters :=
  match cs with
  | [] => Some parameters
  | (slot, cell) :: cs =>
      match scheme_label cell, parameters !! slot with
      | Some _, Some (Constant value) =>
          match Numeric_try_from value with
          | Ok literal =>
              instantiated ← instantiate literal target;
              adapt_cells cs target (<[slot := Constant (Value_from_numeric instantiated)]> parameters)
          | _ => adapt_cells cs target parameters
          end
      | _, _ => adapt_cells cs target parameters
      end
  end.
Definition adapt_literals (cs : list (string * Cell)) self (row : Match) : option Parameters :=
  let parameters := formula_parameters self in
  match instantiation cs parameters row with
  | None => Some parameters
  | Some target => adapt_cells cs target parameters
  end.

(** [Bindings]: a row and the terms of the parameters. *)
Definition bindings_resolve (row : Match) (terms : Parameters) (key : string) : eval Value.t :=
  match terms !! key with
  | None => Err (EvaluationError.MissingParameter key)
  | Some param =>
      match lookup_term row param with
      | Ok binding => content binding
      | _ => Err (EvaluationError.UnboundFormulaVariable key param)
      end
  end.
Definition bindings_write (row : Match) (terms : Parameters) (key : string) (value : Value.t) : eval Match :=
  match terms !! key with
  | None => Err (EvaluationError.MissingParameter key)
  | Some (Constant expected) =>
      if decide (expected <> value)
      then Err (EvaluationError.Conflict key (Constant value) (Constant expected)) else Ok row
  | Some param =>
      match bind row param value with
      | Ok row => Ok row
      | _ => Err (EvaluationError.Conflict key param (Constant value))
      end
  end.

(** [Formula::resolve]: read the inputs, compute, write each output. *)
Definition is_input (cell : Cell) : bool := match cell_requirement cell with Required _ => true | Optional => false end.
Fixpoint read_inputs (row : Match) (terms : Parameters) (cs : list (string * Cell)) : eval (list Value.t) :=
  match cs with
  | [] => Ok []
  | (name, cell) :: cs =>
      if is_input cell
      then value ← bindings_resolve row terms name; v ← input_try_from cell value;
           rest ← read_inputs row terms cs; Ok (v :: rest)
      else read_inputs row terms cs
  end.
Definition formula_resolve self (row : Match) (terms : Parameters) : eval (list Match) :=
  inputs ← read_inputs row terms (cells (formula self));
  map_outcome (fun output => bindings_write row terms "is" output) (compute (formula self) inputs).

(** [FormulaQuery::expand]; [cs] are the cells in the order of iteration. *)
Definition expand (cs : list (string * Cell)) self (matched : Match) : eval (list Match) :=
  match adapt_literals cs self matched with
  | None => Ok []
  | Some parameters =>
      match formula_resolve self matched parameters with
      | Err (EvaluationError.Conflict _ _ _) | Err (EvaluationError.Absent _)
      | Err (EvaluationError.TypeMismatch _ _) => Ok []
      | o => o
      end
  end.
Definition formula_row self (row : Match) : Selection :=
  let_ok (expand (cells (formula self)) self row) yields.
Definition formula_evaluate self (selection : Selection) : Selection := for_each selection (formula_row self).
End compute.
