(* ===== verification/AttributeQuery.v ===== *)
(** Attribute queries (rust/dialog-query/src: attribute/query/{all,only,dynamic}.rs
    and optional.rs): lookups of facts that bind the attribute, entity, value and
    cause of each fact they match. *)
From S2P Require Import Prelude Common Nodes Geometric Artifact ArtifactKeys Layer TypeSystem Terms.

Local Abbreviation Kind := Kind.t.
Local Abbreviation EE := EvaluationError.t.
Local Abbreviation DAE := DialogArtifactsError.

(** [Provider<Select>]: what the facts of the environment answer. *)
Class SelectFacts := select : ArtifactSelector -> outcome DAE ArtifactStream.

Definition store_err {A} (o : outcome DAE A) : eval A := map_err EvaluationError.StoreArtifacts o.

(** * Queries *)
Record AttributeQueryAll := mkAll {
  query_the : Term; query_of : Term; query_is : Term; query_cause : Term; query_source : Term
}.
(** [source] is a fresh variable ([Term::unique]). *)
Definition all_new (the entity is_term cause source : Term) : AttributeQueryAll :=
  let is_term := match is_term with
                 | Variable_ (Some name) descriptor =>
                     match descriptor_kind descriptor with
                     | Some kind => if is_optional kind then typed_var name (required kind) else is_term
                     | None => is_term
                     end
                 | _ => is_term
                 end in
  mkAll the entity is_term cause source.

Section all.
Context `{Blake3}.
Implicit Types (self : AttributeQueryAll).
Definition with_type self (kind : Kind) : AttributeQueryAll :=
  match term_name (query_is self) with
  | Some name => mkAll (query_the self) (query_of self) (typed_var name kind) (query_cause self) (query_source self)
  | None => self
  end.
Definition with_subject_kinds self (the entity : option Kind) : AttributeQueryAll :=
  mkAll (match the with Some kind => with_kind (query_the self) kind | None => query_the self end)
        (match entity with Some kind => with_kind (query_of self) kind | None => query_of self end)
        (query_is self) (query_cause self) (query_source self).

(** [AttributeQueryAll::merge]. *)
Definition merge self (candidate : Match) (artifact : Artifact) : eval Match :=
  let claim := claim_from artifact in
  let candidate := cite candidate (query_source self) claim in
  candidate ← bind candidate (widen (query_the self)) (Value.Symbol (claim_the claim));
  candidate ← bind candidate (widen (query_of self)) (Value.Entity (claim_of claim));
  candidate ← bind candidate (query_is self) (claim_is claim);
  bind candidate (widen (query_cause self)) (Value.Bytes (claim_cause claim)).

Definition is_absent_at (base : Match) (term : Term) : bool :=
  match lookup_term base term with Ok Absent => true | _ => false end.
Definition absent_blocked self (base : Match) : bool :=
  is_absent_at base (widen (query_the self)) || is_absent_at base (widen (query_of self)) ||
  is_absent_at base (query_is self) || is_absent_at base (widen (query_cause self)).
Definition query_admits self (value : Value.t) : bool :=
  match term_kind (query_is self) with Some kind => admits kind value | None => true end.
Definition all_resolve self (row : Match) : AttributeQueryAll :=
  mkAll (term_resolve The_type (query_the self) row) (term_resolve Entity_type (query_of self) row)
    (match lookup_term row (query_is self) ≫= content with Ok value => Constant value | _ => query_is self end)
    (term_resolve Cause_type (query_cause self) row) (query_source self).

Definition all_schema self : Schema :=
  let requirement := Required (Some new_group) in
  {[ "the" := mkField (Some (kind_of ValueDataType.Symbol)) requirement One;
     "of" := mkField (Some (kind_of ValueDataType.Entity)) requirement One;
     "is" := mkField (term_kind (query_is self)) requirement One;
     "cause" := mkField (Some (kind_of ValueDataType.Bytes)) requirement One ]}.
Definition all_parameters self : Parameters :=
  {[ "the" := widen (query_the self); "of" := widen (query_of self);
     "is" := query_is self; "cause" := widen (query_cause self) ]}.
Definition scan_estimate (cardinality : Cardinality) self (env : Environment) : option N :=
  cardinality_estimate cardinality (is_bound (query_the self) env) (is_bound (query_of self) env) (is_bound (query_is self) env).

(** [TryFrom<&AttributeQueryAll> for ArtifactSelector<Constrained>]. *)
Definition refined_prefix (term : Term) : option bytes := k ← term_kind term; r ← refinement k; Some (prefix r).
Definition selector_try_from self : eval ArtifactSelector :=
  selector ← match query_the self with
             | Constant (Value.Symbol relation) => Ok (Some (selector_the selector_new relation))
             | Constant _ => Err (EvaluationError.Store "Could not convert value to Attribute")
             | term => Ok ((fun p => the_starting_with selector_new p) <$> refined_prefix term)
             end;
  selector ← match query_of self with
             | Constant (Value.Entity entity) => Ok (Some (selector_of (default selector_new selector) entity))
             | Constant _ => Err (EvaluationError.Store "Could not convert value to Entity")
             | term => Ok (match refined_prefix term with
                           | Some p => Some (of_starting_with (default selector_new selector) p)
                           | None => selector
                           end)
             end;
  let selector := match query_is self with
                  | Constant value => Some (selector_is (default selector_new selector) value)
                  | _ => selector
                  end in
  ok_or EvaluationError.EmptySelector selector.
End all.

(** * All matching facts *)
Section evaluate.
Context `{Blake3, SelectFacts}.
Implicit Types (self : AttributeQueryAll) (base : Match).

(** [let stream = execute(env, selector).await?; for await artifact in stream {...}]:
    the artifacts, and how the stream ends. *)
Definition execute (selector : eval ArtifactSelector) (k : list Artifact -> eval () -> Selection) : Selection :=
  let_ok selector (fun selector => let_ok (store_err (select selector)) (fun '(artifacts, status) => k artifacts (store_err status))).

Fixpoint merge_rows self base (artifacts : list Artifact) (status : eval ()) : Selection :=
  match artifacts with
  | [] => ([], status)
  | artifact :: artifacts =>
      if query_admits self (artifact_is artifact)
      then chain (let_ok (merge self base artifact) (fun extension => yields [extension])) (merge_rows self base artifacts status)
      else merge_rows self base artifacts status
  end.
Definition all_row self base : Selection :=
  if absent_blocked self base then yields []
  else execute (selector_try_from (all_resolve self base)) (merge_rows self base).

(** * The winner per attribute and entity *)
Definition cause_gt (a b : bytes) : bool := oltb b a.
Definition choose (current challenger : Artifact) : Artifact :=
  let tie := if cause_gt (Cause_from challenger) (Cause_from current) then challenger else current in
  match artifact_cause current, artifact_cause challenger with
  | Some a, Some b => if cause_gt a b then current else if cause_gt b a then challenger else tie
  | Some _, None => current
  | None, Some _ => challenger
  | None, None => tie
  end.

(** [challenge]: a candidate passes when the winner of its group has its value. *)
Fixpoint winner_of (winner : option Artifact) (challengers : list Artifact) : option Artifact :=
  match challengers with
  | [] => winner
  | challenger :: challengers =>
      winner_of (Some match winner with None => challenger | Some winner => choose winner challenger end) challengers
  end.
Definition zero_cause : bytes := replicate 32 x00.
Definition cause_of (value : Value.t) : eval bytes :=
  match scalar_try_from Cause_type value with
  | Some (Value.Bytes b) => Ok b
  | _ => Err (EvaluationError.TypeMismatch ValueDataType.Bytes (data_type value))
  end.
Definition challenge self (candidate : Match) : Selection :=
  let_ok (prove candidate (query_source self)) (fun claim =>
  let_ok (if is_blank (query_cause self) then Ok None
          else b ← lookup_term candidate (widen (query_cause self)); v ← content b; c ← cause_of v; Ok (Some c)) (fun cause =>
  execute (Ok (selector_of (selector_the selector_new (claim_the claim)) (claim_of claim))) (fun challengers status =>
  let_ok status (fun _ =>
  match winner_of None challengers with
  | Some winner =>
      if decide (artifact_is winner = claim_is claim)
      then let winner_cause := default zero_cause (artifact_cause winner) in
           if decide (cause = None \/ cause = Some winner_cause) then yields [candidate] else yields []
      else yields []
  | None => yields []
  end)))).

(** The sliding window of [AttributeQueryOnly::evaluate]. *)
Definition yield_winner self base (value_constraint : option Value.t) (winner : Artifact) : Selection :=
  if bool_decide (value_constraint = None \/ value_constraint = Some (artifact_is winner)) && query_admits self (artifact_is winner)
  then let_ok (merge self base winner) (fun extension => yields [extension]) else yields [].
Fixpoint window self base (value_constraint : option Value.t) (artifacts : list Artifact) (status : eval ())
    (candidate : option Artifact) : Selection :=
  match artifacts with
  | [] =>
      let_ok status (fun _ =>
        match candidate with Some winner => yield_winner self base value_constraint winner | None => yields [] end)
  | artifact :: artifacts =>
      match candidate with
      | Some current =>
          if decide (artifact_the current = artifact_the artifact /\ artifact_of current = artifact_of artifact)
          then window self base value_constraint artifacts status (Some (choose current artifact))
          else chain (yield_winner self base value_constraint current)
                     (window self base value_constraint artifacts status (Some artifact))
      | None => window self base value_constraint artifacts status (Some artifact)
      end
  end.
Definition only_row self base : Selection :=
  if absent_blocked self base then yields []
  else
    let resolved := all_resolve self base in
    let entity_known := is_constant (query_of resolved) in
    let attribute_known := is_constant (query_the resolved) in
    let value_known := is_constant (query_is resolved) in
    if entity_known || (attribute_known && negb value_known)
    then
      let scan := all_new (query_the resolved) (query_of resolved) any_blank (query_cause resolved) (query_source resolved) in
      execute (selector_try_from scan) (fun artifacts status =>
        window self base (as_constant (query_is resolved)) artifacts status None)
    else for_each (all_row resolved base) (challenge self).

(** * Dispatch on the cardinality *)
Inductive DynamicAttributeQuery := All (query : AttributeQueryAll) | Only (query : AttributeQueryAll).
Definition dynamic_new (the entity is_term cause : Term) (cardinality : option Cardinality) (source : Term) : DynamicAttributeQuery :=
  match cardinality with
  | Some One => Only (all_new the entity is_term cause source)
  | _ => All (all_new the entity is_term cause source)
  end.
Implicit Types (query : DynamicAttributeQuery).
Definition inner query : AttributeQueryAll := match query with All q | Only q => q end.
Definition dynamic_map (f : AttributeQueryAll -> AttributeQueryAll) query : DynamicAttributeQuery :=
  match query with All q => All (f q) | Only q => Only (f q) end.
Definition dynamic_cardinality query : Cardinality := match query with All _ => Many | Only _ => One end.
Definition dynamic_schema query : Schema := all_schema (inner query).
Definition dynamic_parameters query : Parameters := all_parameters (inner query).
Definition dynamic_estimate query (env : Environment) : option N :=
  scan_estimate (dynamic_cardinality query) (inner query) env.
Definition dynamic_row query base : Selection :=
  match query with All q => all_row q base | Only q => only_row q base end.

(** * Left joins *)
(** [OptionalAttributeQuery]; its schema hard-requires the entity and widens the
    value and the cause. *)
Definition optional_schema query : Schema :=
  let schema := dynamic_schema query in
  let schema := alter (fun field => mkField (content_type field) (Required None) (cardinality field)) "of" schema in
  let schema := alter (fun field =>
    mkField (Some (optional (default (Kind.Primitive ALL) (content_type field)))) (requirement field) (cardinality field)) "is" schema in
  alter (fun field => mkField (optional <$> content_type field) (requirement field) (cardinality field)) "cause" schema.

Definition optional_row query (probe_source : Term) base : Selection :=
  let q := inner query in
  if negb (is_constant (term_resolve Entity_type (query_of q) base))
  then fails (Err (EvaluationError.UnboundVariable (default "of" (term_name (query_of q)))))
  else if is_absent_at base (query_is q)
  then
    let probe := dynamic_new (query_the q) (query_of q) any_blank (blank Cause_type) (Some Many) probe_source in
    match dynamic_row probe base with
    | (_ :: _, _) => yields []
    | ([], status) => let_ok status (fun _ => yields [base])
    end
  else
    let value_pinned := match_is_present base (query_is q) in
    let rows := dynamic_row query base in
    chain rows
      (match rows.1 with
       | [] =>
           if value_pinned then yields []
           else let_ok (fallback ← bind_absent base (query_is q); bind_absent fallback (widen (query_cause q)))
                  (fun fallback => yields [fallback])
       | _ => yields []
       end).
End evaluate.
