(* ===== verification/Scans.v ===== *)
(** Attribute queries against the facts of an environment: a lookup is the natural
    join of a row with the facts, and a lookup of a single value finds the winner
    among the facts of an attribute and an entity, by either of its two strategies. *)
From S2P Require Import Prelude Common Nodes SortedEntries Walker Read ArtifactTree Artifact ArtifactKeys ArtifactFacts ArtifactTreeCorrect Layer LayerCorrect TypeSystem Terms AttributeQuery.

(** * Winners *)
Section winners.
Context `{Blake3}.
Implicit Types (x y w c : Artifact) (l : list Artifact) (facts : Artifact -> Prop).

(** A later cause wins, and any cause over none; the fingerprint breaks a tie. *)
Definition rank x : bytes * bytes := (match artifact_cause x with Some cause => x00 :: cause | None => [] end, Cause_from x).
Definition subject x : Attribute * Entity := (artifact_the x, artifact_of x).
Definition winner facts w : Prop := facts w /\ forall y, facts y -> subject y = subject w -> rank y ≼ rank w.

Lemma choose_rank x y : choose x y = if oltb (rank x) (rank y) then y else x.
Proof.
  unfold choose, cause_gt, oltb, rank. simpl cmp.
  destruct (artifact_cause x) as [a|], (artifact_cause y) as [b|]; simpl; try done.
  change (list_cmp a b) with (cmp a b). change (list_cmp b a) with (cmp b a). rewrite (cmp_antisym a b). by destruct (cmp a b).
Qed.
Lemma choose_spec x y : (choose x y = x \/ choose x y = y) /\ rank x ≼ rank (choose x y) /\ rank y ≼ rank (choose x y).
Proof.
  rewrite choose_rank. destruct (oltb (rank x) (rank y)) eqn:E.
  - apply oltb_spec in E. auto with dialog.
  - apply oltb_false in E. auto with dialog.
Qed.

Lemma winner_of_spec l : forall c : option Artifact, match winner_of c l with
  | Some w => (c = Some w \/ w ∈ l) /\ forall x, c = Some x \/ x ∈ l -> rank x ≼ rank w
  | None => c = None /\ l = []
  end.
Proof.
  induction l as [|x l IH]; intros c; simpl.
  - destruct c as [c|]; [|done]. split; [by left|]. intros x [[= <-]|?%not_elem_of_nil]; [apply ole_refl|done].
  - destruct c as [c|].
    + specialize (IH (Some (choose c x))). destruct (winner_of _ l) as [w|]; [|by destruct IH].
      destruct (choose_spec c x) as (Hc & Hl & Hr), IH as [Hw Hmax]. pose proof (Hmax _ (or_introl eq_refl)) as Hm. split.
      * rewrite elem_of_cons. destruct Hw as [[= <-]|?]; [|auto]. destruct Hc as [->|E]; [auto|]. rewrite E. auto.
      * intros y [[= <-]|[->|Hy]%elem_of_cons]; [by eapply ole_trans|by eapply ole_trans|by apply Hmax; right].
    + specialize (IH (Some x)). destruct (winner_of _ l) as [w|]; [|by destruct IH]. destruct IH as [Hw Hmax]. split.
      * rewrite elem_of_cons. destruct Hw as [[= <-]|?]; auto.
      * intros y [?|[->|Hy]%elem_of_cons]; [done|apply Hmax; by left|apply Hmax; by right].
Qed.

(** What the sliding window takes for winners. *)
Fixpoint winners (candidate : option Artifact) l : list Artifact :=
  match l with
  | [] => match candidate with Some w => [w] | None => [] end
  | x :: l =>
      match candidate with
      | Some c =>
          if decide (artifact_the c = artifact_the x /\ artifact_of c = artifact_of x)
          then winners (Some (choose c x)) l else c :: winners (Some x) l
      | None => winners (Some x) l
      end
  end.

Lemma subject_eq x y : artifact_the x = artifact_the y /\ artifact_of x = artifact_of y <-> subject x = subject y.
Proof. unfold subject. split; [by intros [-> ->]|by intros [= -> ->]]. Qed.
Lemma subject_group x y : subject x = subject y -> group_key x = group_key y.
Proof. unfold subject, group_key. by intros [= -> ->]. Qed.

Definition keyed facts : Prop := forall x y, facts x -> facts y -> group_key x = group_key y -> subject x = subject y.

Lemma rank_inj facts x y : fingerprints_distinct facts -> facts x -> facts y -> subject x = subject y ->
  rank x ≼ rank y -> rank y ≼ rank x -> x = y.
Proof.
  intros Hd Hx Hy Hs H1 H2. assert (rank x = rank y) as [= _ E] by (apply ole_cases in H1 as [H1|H1]; [order|done]).
  apply Hd; auto using subject_group.
Qed.

Local Abbreviation in_groups := (StronglySorted (fun a b => group_key a ≼ group_key b)).
Lemma in_groups_cons c c' l : group_key c = group_key c' -> in_groups (c :: l) -> in_groups (c' :: l).
Proof. intros E Hs. inversion Hs as [|? ? ? Hx]; subst. constructor; [done|]. by rewrite <- E. Qed.
Lemma in_groups_tail c x l : in_groups (c :: x :: l) -> in_groups (c :: l).
Proof. inversion 1 as [|? ? Ht Hx]; subst. inversion Ht; subst. inversion Hx; subst. by constructor. Qed.

Lemma winner_choose facts c x l w : fingerprints_distinct facts -> Forall facts (c :: x :: l) -> subject c = subject x ->
  winner (fun y => y ∈ choose c x :: l) w <-> winner (fun y => y ∈ c :: x :: l) w.
Proof.
  intros Hd Hf Hs. rewrite Forall_forall in Hf. destruct (choose_spec c x) as (Hc & Hl & Hr). set (d := choose c x) in *.
  assert (Hsd : subject d = subject c) by (destruct Hc as [->| ->]; done).
  assert (Hdin : d ∈ c :: x :: l) by (destruct Hc as [->| ->]; set_solver). unfold winner. split.
  - intros [Hw Hmax]. split; [set_solver|]. intros y [->|[->|Hy]%elem_of_cons]%elem_of_cons E.
    + eapply ole_trans; [exact Hl|]. apply Hmax; [by left|congruence].
    + eapply ole_trans; [exact Hr|]. apply Hmax; [by left|congruence].
    + apply Hmax; [by right|done].
  - intros [Hw Hmax]. split; [|intros y Hy; apply Hmax; set_solver].
    destruct (decide (w ∈ l)) as [|Hn]; [by right|]. apply elem_of_cons. left.
    assert (subject w = subject d /\ rank w ≼ rank d) as [Hsw Hle].
    { apply elem_of_cons in Hw as [->|[->|?]%elem_of_cons]; [|split; [congruence|done]|done]. split; [congruence|done]. }
    by apply (rank_inj facts); auto.
Qed.

Lemma winners_spec facts l : keyed facts -> fingerprints_distinct facts -> forall c, Forall facts (c :: l) -> in_groups (c :: l) ->
  forall w, w ∈ winners (Some c) l <-> winner (fun y => y ∈ c :: l) w.
Proof.
  intros Hk Hd. induction l as [|x l IH]; intros c Hf Hs w; cbn [winners].
  - unfold winner. rewrite !list_elem_of_singleton. split; [|by intros [? _]]. intros ->. split; [done|].
    intros y ->%list_elem_of_singleton _. apply ole_refl.
  - destruct (decide _) as [E|E]; rewrite subject_eq in E.
    + rewrite IH; [by eapply winner_choose| |].
      * rewrite !Forall_cons in Hf. destruct Hf as (? & ? & ?), (choose_spec c x) as ([->| ->] & _); by constructor.
      * apply in_groups_tail in Hs as Hs'. eapply in_groups_cons, Hs'.
        destruct (choose_spec c x) as ([->| ->] & _); [done|by apply subject_group].
    + inversion Hs as [|? ? Ht Hx]; subst. inversion Hf as [|? ? Hc Hf']; subst.
      rewrite elem_of_cons, IH by done.
      assert (Hne : forall y, y ∈ x :: l -> subject y <> subject c).
      { intros y Hy Ey. rewrite Forall_forall in Hx, Hf'. apply E. symmetry. apply Hk; [apply Hf'; by left|done|].
        pose proof (Hx x ltac:(by left)) as H1. apply subject_group in Ey.
        assert (group_key x ≼ group_key y) as H2.
        { inversion Ht as [|? ? _ Hx']; subst. rewrite Forall_forall in Hx'.
          apply elem_of_cons in Hy as [->|Hy]; [apply ole_refl|by apply Hx']. }
        rewrite Ey in H2. apply ole_cases in H1 as [H1|H1]; [order|done]. }
      unfold winner. split.
      * intros [->|[Hw Hmax]].
        -- split; [by left|]. intros y [->|Hy]%elem_of_cons Ey; [apply ole_refl|]. by destruct (Hne y Hy).
        -- split; [by right|]. intros y [->|Hy]%elem_of_cons Ey; [by destruct (Hne w Hw)|by apply Hmax].
      * intros [[->|Hw]%elem_of_cons Hmax]; [by left|right]. split; [done|]. intros y Hy. apply Hmax. by right.
Qed.
End winners.

(** * Binding the slots of a query *)
Section slots.
Implicit Types (term : Term) (v : Value.t) (row : Match) (m : gmap string Binding).

Definition slot_agrees m term v : Prop :=
  match term with
  | Constant c => c = v
  | Variable_ (Some n) _ => match m !! n with Some b => b = Present v | None => True end
  | Variable_ None _ => True
  end.
Definition slot_admits term v : Prop :=
  match term with
  | Variable_ (Some _) d => match descriptor_kind d with Some k => admits k v = true | None => True end
  | _ => True
  end.
Definition bind_slot term v m : gmap string Binding :=
  match term with Variable_ (Some n) _ => <[n := Present v]> m | _ => m end.

Lemma bind_agrees row term v : slot_agrees (bindings row) term v -> slot_admits term v ->
  bind row term v = Ok (mkMatch (bind_slot term v (bindings row)) (claims row)).
Proof.
  destruct term as [[n|] d|c]; simpl; [|by destruct row..]. intros Ha Hk.
  assert (match descriptor_kind d with
          | Some kind => if admits kind v then Ok () else Err (EvaluationError.KindMismatch n kind v)
          | None => Ok () end = Ok ()) as -> by (destruct (descriptor_kind d); [by rewrite Hk|done]).
  rewrite bind_Ok. destruct (bindings row !! n) as [b|] eqn:E; [|done]. subst b.
  rewrite decide_False by auto. rewrite insert_id by done. by destruct row.
Qed.
Lemma slot_agrees_other m term term' v v' : (forall n, term_name term = Some n -> term_name term' <> Some n) ->
  slot_agrees (bind_slot term' v' m) term v <-> slot_agrees m term v.
Proof.
  destruct term as [[n|] d|c], term' as [[n'|] d'|c']; simpl; try done. intros Hn.
  rewrite lookup_insert_ne; [done|]. intros ->. by apply (Hn n eq_refl).
Qed.
Lemma slot_agrees_widen m term v : slot_agrees m (widen term) v <-> slot_agrees m term v.
Proof. by destruct term as [[n|] d|c]. Qed.
Lemma bind_slot_widen term v m : bind_slot (widen term) v m = bind_slot term v m.
Proof. by destruct term as [[n|] d|c]. Qed.
Lemma bind_slot_agrees m term v : slot_agrees m term v -> is_constant term = true \/ match_is_present (mkMatch m ∅) term = true ->
  bind_slot term v m = m.
Proof.
  destruct term as [[n|] d|c]; simpl; [|by intros _ [?|?]|done]. intros Ha [?|Hp]; [done|].
  destruct (m !! n) as [b|] eqn:E; [|done]. subst b. by apply insert_id.
Qed.
End slots.

(** * One query *)
Section query.
Context `{Blake3}.
Implicit Types (q self : AttributeQueryAll) (base row : Match) (x w : Artifact) (m : gmap string Binding) (term : Term).

(** The terms of a query have the types of their slots, no variable stands in two
    slots, and the cause is left open. *)
Definition typed_slot (TYPE : ValueDataType.t) term : Prop :=
  match term with
  | Variable_ _ (RefinableType T _) => T = TYPE
  | Variable_ _ _ => False
  | Constant v => data_type v = TYPE
  end.
Definition apart t u : Prop := forall n, term_name t = Some n -> term_name u <> Some n.
Record plain q : Prop := {
  plain_the : typed_slot ValueDataType.Symbol (query_the q);
  plain_of : typed_slot ValueDataType.Entity (query_of q);
  plain_cause : is_blank (query_cause q) = true;
  plain_the_of : apart (query_the q) (query_of q);
  plain_the_is : apart (query_the q) (query_is q);
  plain_of_is : apart (query_of q) (query_is q)
}.
(** What a row has bound fits the slots. *)
Definition bound_typed (TYPE : ValueDataType.t) base term : Prop :=
  forall n v, term_name term = Some n -> bindings base !! n = Some (Present v) -> data_type v = TYPE.
Record fits_row q base : Prop := {
  fits_the : bound_typed ValueDataType.Symbol base (query_the q);
  fits_of : bound_typed ValueDataType.Entity base (query_of q);
  fits_is : forall n v, term_name (query_is q) = Some n -> bindings base !! n = Some (Present v) -> query_admits q v = true
}.

Definition the_value x : Value.t := Value.Symbol (artifact_the x).
Definition of_value x : Value.t := Value.Entity (artifact_of x).
Definition joins q m x : Prop :=
  slot_agrees m (query_the q) (the_value x) /\ slot_agrees m (query_of q) (of_value x) /\
  slot_agrees m (query_is q) (artifact_is x) /\ query_admits q (artifact_is x) = true.
Definition joined q m x : gmap string Binding :=
  bind_slot (query_is q) (artifact_is x) (bind_slot (query_of q) (of_value x) (bind_slot (query_the q) (the_value x) m)).

Lemma typed_slot_admits TYPE term v : typed_slot TYPE term -> TYPE = ValueDataType.Symbol \/ TYPE = ValueDataType.Entity ->
  data_type v = TYPE -> slot_admits (widen term) v.
Proof.
  destruct term as [[n|] [| |T s|]|c]; simpl; try done. intros -> Ht E. unfold admits. rewrite E. simpl. by destruct Ht as [->| ->].
Qed.
Lemma query_admits_slot q v : query_admits q v = true -> slot_admits (query_is q) v.
Proof. unfold query_admits. destruct (query_is q) as [[n|] d|c]; simpl; try done. by destruct (descriptor_kind d). Qed.

(** The row that a fact makes: the base, with the variables of the query bound. *)
Lemma merge_joins q base x : plain q -> joins q (bindings base) x ->
  merge q base x = Ok (mkMatch (joined q (bindings base) x) (claims (cite base (query_source q) (claim_from x)))).
Proof.
  intros [Ht Ho Hc Hto Hti Hoi] (At & Ao & Ai & Ha). unfold merge. cbv zeta. cbn [claim_from claim_the claim_of claim_is claim_cause].
  set (c := cite base (query_source q) (claim_from x)).
  assert (bindings c = bindings base) as Hb by (unfold c; by destruct (query_source q) as [[?|] ?|?]).
  assert (forall row cl, bind row (widen (query_cause q)) cl = Ok row) as Hcause.
  { intros row cl. destruct (query_cause q) as [[n|] d|v]; done. }
  rewrite bind_agrees; [rewrite bind_Ok| |].
  2: { rewrite slot_agrees_widen. by rewrite Hb. }
  2: { by eapply typed_slot_admits; [|left|]. }
  rewrite bind_slot_widen, Hb. change (Value.Symbol (artifact_the x)) with (the_value x).
  rewrite bind_agrees; [rewrite bind_Ok| |].
  2: { rewrite slot_agrees_widen. cbn [bindings]. rewrite slot_agrees_other; [done|].
       intros n Hn Hn'. by apply (Hto n). }
  2: { by eapply typed_slot_admits; [|right|]. }
  rewrite bind_slot_widen. cbn [bindings claims]. change (Value.Entity (artifact_of x)) with (of_value x).
  rewrite bind_agrees; [rewrite bind_Ok| |by apply query_admits_slot].
  2: { cbn [bindings]. rewrite !slot_agrees_other; [done| |]; intros n Hn Hn'; [by apply (Hti n)|by apply (Hoi n)]. }
  by rewrite Hcause.
Qed.

(** ** What the row resolves *)
Definition in_prefix base term (form : bytes) : Prop :=
  match_is_present base term = false -> forall p, refined_prefix term = Some p -> starts_with p form = true.

Lemma resolve_slot TYPE term base :
  TYPE = ValueDataType.Symbol \/ TYPE = ValueDataType.Entity ->
  typed_slot TYPE term -> bound_typed TYPE base term -> is_absent_at base (widen term) = false ->
  match term_resolve (RefinableType TYPE None) term base with
  | Constant v => data_type v = TYPE /\ match_is_present base term = true /\ forall u, slot_agrees (bindings base) term u <-> u = v
  | Variable_ n d => term = Variable_ n d /\ match_is_present base term = false /\ forall u, slot_agrees (bindings base) term u
  end.
Proof.
  intros HT Ht Hb Ha. unfold term_resolve.
  assert (forall v, data_type v = TYPE -> scalar_try_from (RefinableType TYPE None) v = Some v) as Hs.
  { intros v E. unfold scalar_try_from. simpl. destruct v; simpl in E; subst TYPE; try done; by destruct HT. }
  destruct term as [[n|] d|c]; simpl in *.
  - unfold is_absent_at in Ha. simpl in Ha. destruct (bindings base !! n) as [[v|]|] eqn:E; [|done|done].
    pose proof (Hb n v eq_refl E) as Hv. rewrite bind_Ok. cbn [content content_for]. rewrite Hs by done.
    split_and!; [done|done|]. intros u. split; [by intros [= ->]|by intros ->].
  - done.
  - rewrite Hs by done. done.
Qed.
Lemma resolve_is q base : is_absent_at base (query_is q) = false ->
  match query_is (all_resolve q base) with
  | Constant v => match_is_present base (query_is q) = true /\ (forall u, slot_agrees (bindings base) (query_is q) u <-> u = v)
  | Variable_ n d => query_is q = Variable_ n d /\ forall u, slot_agrees (bindings base) (query_is q) u
  end.
Proof.
  intros Ha. unfold all_resolve. cbn [query_is]. destruct (query_is q) as [[n|] d|c]; simpl in *.
  - unfold is_absent_at in Ha. simpl in Ha. destruct (bindings base !! n) as [[v|]|] eqn:E; [|done|done].
    rewrite bind_Ok. cbn [content content_for]. split; [done|]. intros u. split; [by intros [= ->]|by intros ->].
  - done.
  - done.
Qed.
Lemma blocked_absent q base : is_blank (query_cause q) = true -> absent_blocked q base =
  (is_absent_at base (widen (query_the q)) || is_absent_at base (widen (query_of q)) || is_absent_at base (query_is q)).
Proof. intros Hc. unfold absent_blocked. destruct (query_cause q) as [[n|] d|c]; try done. by rewrite orb_false_r. Qed.
Lemma absent_disagrees base term v : is_absent_at base term = true -> ~ slot_agrees (bindings base) term v.
Proof.
  unfold is_absent_at. destruct term as [[n|] d|c]; simpl; try done.
  destruct (bindings base !! n) as [[u|]|]; try done.
Qed.
Lemma blocked_joins q base x : plain q -> absent_blocked q base = true -> ~ joins q (bindings base) x.
Proof.
  intros Hq. rewrite blocked_absent by apply Hq. intros Hb (At & Ao & Ai & _).
  apply orb_true_iff in Hb as [[Hb|Hb]%orb_true_iff|Hb]; apply (absent_disagrees base _) with (v := the_value x) in Hb as H1.
  - by rewrite slot_agrees_widen in H1.
  - eapply absent_disagrees in Hb. apply Hb. rewrite slot_agrees_widen. exact Ao.
  - by eapply absent_disagrees in Hb.
Qed.

(** ** The selector of a query *)
Lemma selector_asks q base value cause source selector :
  plain q -> fits_row q base -> is_absent_at base (widen (query_the q)) = false -> is_absent_at base (widen (query_of q)) = false ->
  selector_try_from (mkAll (term_resolve The_type (query_the q) base) (term_resolve Entity_type (query_of q) base) value cause source) = Ok selector ->
  Constrained selector /\ forall x, satisfies selector x <->
    (slot_agrees (bindings base) (query_the q) (the_value x) /\ in_prefix base (query_the q) (attribute_name (artifact_the x))) /\
    (slot_agrees (bindings base) (query_of q) (of_value x) /\ in_prefix base (query_of q) (entity_str (artifact_of x))) /\
    (forall v, value = Constant v -> artifact_is x = v).
Proof.
  intros [Ht Ho _ _ _ _] [Ft Fo _] At Ao.
  pose proof (resolve_slot _ _ base (or_introl eq_refl) Ht Ft At) as Rt.
  pose proof (resolve_slot _ _ base (or_intror eq_refl) Ho Fo Ao) as Ro.
  fold The_type in Rt. fold Entity_type in Ro. unfold selector_try_from. cbn [query_the query_of query_is].
  set (p := term_resolve The_type (query_the q) base) in *. set (o := term_resolve Entity_type (query_of q) base) in *. clearbody p o.
  unfold in_prefix, Constrained.
  destruct p as [pn pd|pv].
  - destruct Rt as (Et & Pt & Gt). cbn beta iota. rewrite bind_Ok, <- Et, Pt.
    destruct (refined_prefix (query_the q)) as [pp|] eqn:Ep; simpl fmap.
    all: destruct o as [on od|ov]; [destruct Ro as (Eo & Po & Go); cbn beta iota; rewrite bind_Ok, <- Eo, Po; destruct (refined_prefix (query_of q)) as [op|] eqn:Eop
                                   |destruct Ro as (To & Po & Go); rewrite Po; destruct ov; try done; cbn beta iota; rewrite bind_Ok].
    all: destruct value as [vn vd|vv]; cbn [default from_option ok_or]; try done; intros [= <-].
    all: (split; [eauto using built|]); intros x; unfold satisfies; simpl; unfold of_value in *; naive_solver.
  - destruct Rt as (Tt & Pt & Gt). rewrite Pt. destruct pv; try done. cbn beta iota. rewrite bind_Ok.
    all: destruct o as [on od|ov]; [destruct Ro as (Eo & Po & Go); cbn beta iota; rewrite bind_Ok, <- Eo, Po; destruct (refined_prefix (query_of q)) as [op|] eqn:Eop
                                   |destruct Ro as (To & Po & Go); rewrite Po; destruct ov; try done; cbn beta iota; rewrite bind_Ok].
    all: destruct value as [vn vd|vv]; cbn [default from_option ok_or]; try done; intros [= <-].
    all: (split; [eauto using built|]); intros x; unfold satisfies; simpl; unfold the_value, of_value in *; naive_solver.
Qed.
(** ** A query resolved against a row *)
(** A slot of a query and the same slot once the row is taken into account. *)
Record resolved_as base term term' : Prop := {
  resolved_name : forall n, term_name term' = Some n -> term_name term = Some n;
  resolved_agrees : forall u, slot_agrees (bindings base) term' u <-> slot_agrees (bindings base) term u;
  resolved_prefix : forall form, in_prefix base term' form <-> in_prefix base term form;
  resolved_same : term' = term \/ is_constant term' = true /\ match_is_present base term = true
}.
Lemma resolve_slot_as TYPE term base :
  TYPE = ValueDataType.Symbol \/ TYPE = ValueDataType.Entity ->
  typed_slot TYPE term -> bound_typed TYPE base term -> is_absent_at base (widen term) = false ->
  let term' := term_resolve (RefinableType TYPE None) term base in
  resolved_as base term term' /\ typed_slot TYPE term' /\ bound_typed TYPE base term' /\
  term_resolve (RefinableType TYPE None) term' base = term'.
Proof.
  intros HT Ht Hb Ha term'. pose proof (resolve_slot TYPE term base HT Ht Hb Ha) as R. fold term' in R.
  destruct term' as [n d|v] eqn:E.
  - destruct R as (Et & Hp & Hag). rewrite <- Et in *. split_and!; [|done..]. split; [done|done|done|by left].
  - destruct R as (Hv & Hp & Hag). split_and!; [|done|done|].
    + split; [done| | |by right].
      * intros u. rewrite Hag. simpl. split; congruence.
      * intros form. unfold in_prefix. rewrite Hp. done.
    + pose proof (resolve_slot TYPE (Constant v) base HT Hv ltac:(done) ltac:(done)) as R'.
      destruct (term_resolve _ (Constant v) base) as [n d|v'] eqn:E'; [by destruct R'|].
      f_equal. symmetry. apply R'. done.
Qed.
Lemma resolve_is_as q base : is_absent_at base (query_is q) = false ->
  resolved_as base (query_is q) (query_is (all_resolve q base)) /\
  query_is (all_resolve (all_resolve q base) base) = query_is (all_resolve q base).
Proof.
  intros Ha. pose proof (resolve_is q base Ha) as R. destruct (query_is (all_resolve q base)) as [n d|v] eqn:E.
  - destruct R as [Et Hag]. split; [rewrite <- Et; split; [done|done|done|by left]|].
    unfold all_resolve at 1. cbn [query_is]. rewrite E. unfold all_resolve in E. cbn [query_is] in E. by rewrite Et in E.
  - destruct R as [Hp Hag]. split.
    + split; [done| | |by right].
      * intros u. rewrite Hag. simpl. split; congruence.
      * intros form. unfold in_prefix. rewrite Hp. done.
    + unfold all_resolve at 1. cbn [query_is]. by rewrite E.
Qed.
Lemma apart_resolved base t t' u u' : resolved_as base t t' -> resolved_as base u u' -> apart t u -> apart t' u'.
Proof. intros Rt Ru Ha n Hn Hn'. apply (Ha n); [by apply Rt|by apply Ru]. Qed.
Lemma bind_slot_resolved base t t' u m : resolved_as base t t' -> slot_agrees (bindings base) t u ->
  (forall n, term_name t = Some n -> m !! n = bindings base !! n) -> bind_slot t' u m = bind_slot t u m.
Proof.
  intros [_ _ _ [->|[Hc Hp]]] Ha Hm; [done|]. destruct t' as [|v']; [done|]. destruct t as [[n|] d|v]; simpl in *; [|done..].
  rewrite <- Hm in * by done. destruct (m !! n) as [b|] eqn:E; [|done]. subst b. by rewrite insert_id.
Qed.
End query.

(** * Streams that do not fail *)
Section streams.
Implicit Types (s : Selection) (rows : list Match) (body : Match -> Selection).

Lemma chain_Ok s t : s.2 = Ok tt -> chain s t = (s.1 ++ t.1, t.2).
Proof. unfold chain. by intros ->. Qed.
Lemma for_rows_Ok rows body : (forall row, row ∈ rows -> (body row).2 = Ok tt) ->
  (for_rows rows (Ok tt) body).2 = Ok tt /\
  forall out, out ∈ (for_rows rows (Ok tt) body).1 <-> exists row, row ∈ rows /\ out ∈ (body row).1.
Proof.
  induction rows as [|row rows IH]; intros Hb; simpl.
  - split; [done|]. intros out. split; [by intros ?%not_elem_of_nil|]. by intros (? & ?%not_elem_of_nil & _).
  - destruct IH as [IHo IHr]; [intros; apply Hb; by right|]. rewrite chain_Ok by (apply Hb; by left). simpl.
    split; [done|]. intros out. rewrite elem_of_app, IHr. split.
    + intros [?|(r & ? & ?)]; [exists row|exists r]; split; try done; [by left|by right].
    + intros (r & [->|?]%elem_of_cons & ?); [by left|right; eauto].
Qed.
End streams.

Section environment.
Context `{Blake3, SelectFacts}.
Implicit Types (q self : AttributeQueryAll) (base row : Match) (x w : Artifact) (usable : ArtifactSelector -> Prop)
  (facts : Artifact -> Prop).

(** What an environment promises: a selector is answered, in the order of sort keys,
    by the facts that satisfy it. *)
Definition answers usable facts : Prop := forall selector, Constrained selector -> usable selector ->
  exists out, select selector = Ok (out, Ok tt) /\ sorted_by_key out /\ NoDup out /\
    forall x, x ∈ out <-> satisfies selector x /\ facts x.

Lemma merge_rows_Ok q base artifacts : (forall x, x ∈ artifacts -> query_admits q (artifact_is x) = true -> exists row, merge q base x = Ok row) ->
  (merge_rows q base artifacts (Ok tt)).2 = Ok tt /\
  forall row, row ∈ (merge_rows q base artifacts (Ok tt)).1 <->
    exists x, x ∈ artifacts /\ query_admits q (artifact_is x) = true /\ merge q base x = Ok row.
Proof.
  induction artifacts as [|x artifacts IH]; intros Hm; simpl.
  - split; [done|]. intros row. split; [by intros ?%not_elem_of_nil|]. by intros (? & ?%not_elem_of_nil & _).
  - destruct IH as [IHo IHr]; [intros; apply Hm; [by right|done]|]. destruct (query_admits q (artifact_is x)) eqn:Ea.
    + destruct (Hm x ltac:(by left) Ea) as [row Hrow]. rewrite Hrow. simpl. split; [done|]. intros out.
      rewrite elem_of_cons, IHr. split.
      * intros [->|(y & ? & ? & ?)]; [exists x|exists y]; (split; [|done]); [by left|by right].
      * intros (y & [->|?]%elem_of_cons & ? & ?); [left; congruence|right; eauto].
    + split; [done|]. intros out. rewrite IHr. split.
      * intros (y & ? & ? & ?). exists y. split; [by right|done].
      * intros (y & [->|?]%elem_of_cons & ? & ?); [congruence|eauto].
Qed.
Lemma window_winners q base value artifacts : forall candidate,
  window q base value artifacts (Ok tt) candidate =
  foldr (fun w s => chain (yield_winner q base value w) s) (yields []) (winners candidate artifacts).
Proof.
  induction artifacts as [|x artifacts IH]; intros [c|]; simpl; [| |by case_decide; rewrite IH|by rewrite IH].
  - unfold chain. simpl. destruct (yield_winner q base value c) as [rows [[]| | |]]; simpl; by rewrite ?app_nil_r.
  - done.
Qed.
Lemma yield_winner_Ok q base value w : (query_admits q (artifact_is w) = true -> (value = None \/ value = Some (artifact_is w)) -> exists row, merge q base w = Ok row) ->
  (yield_winner q base value w).2 = Ok tt /\
  forall row, row ∈ (yield_winner q base value w).1 <->
    (value = None \/ value = Some (artifact_is w)) /\ query_admits q (artifact_is w) = true /\ merge q base w = Ok row.
Proof.
  intros Hm. unfold yield_winner. case_bool_decide as Hv; simpl; [destruct (query_admits _ _) eqn:Ea|].
  - destruct (Hm eq_refl Hv) as [row ->]. simpl. split; [done|]. intros out. rewrite list_elem_of_singleton.
    split; [by intros ->|by intros (_ & _ & [= ->])].
  - split; [done|]. intros out. rewrite elem_of_nil. naive_solver.
  - split; [done|]. intros out. rewrite elem_of_nil. naive_solver.
Qed.
Lemma yield_winners_Ok q base value ws :
  (forall w, w ∈ ws -> query_admits q (artifact_is w) = true -> (value = None \/ value = Some (artifact_is w)) -> exists row, merge q base w = Ok row) ->
  let s := foldr (fun w s => chain (yield_winner q base value w) s) (yields []) ws in
  s.2 = Ok tt /\ forall row, row ∈ s.1 <->
    exists w, w ∈ ws /\ (value = None \/ value = Some (artifact_is w)) /\ query_admits q (artifact_is w) = true /\ merge q base w = Ok row.
Proof.
  induction ws as [|w ws IH]; intros Hm; simpl.
  - split; [done|]. intros row. split; [by intros ?%not_elem_of_nil|]. by intros (? & ?%not_elem_of_nil & _).
  - destruct IH as [IHo IHr]; [intros; apply Hm; [by right|done..]|].
    destruct (yield_winner_Ok q base value w) as [Ho Hr]; [intros; apply Hm; [by left|done..]|].
    rewrite chain_Ok by done. simpl. split; [done|]. intros row. rewrite elem_of_app, Hr, IHr. split.
    + intros [(? & ? & ?)|(y & ? & ?)]; [exists w|exists y]; (split; [|done]); [by left|by right].
    + intros (y & [->|?]%elem_of_cons & ?); [by left|right; eauto].
Qed.
End environment.

(** * Lookups are joins *)
Section lookups.
Context `{Blake3, SelectFacts} (usable : ArtifactSelector -> Prop) (facts : Artifact -> Prop) (Henv : answers usable facts).
Implicit Types (q : AttributeQueryAll) (base row : Match) (x w : Artifact).

(** A fact answers a query in a row: it agrees with what the row binds, its value is
    of the kind asked for, and variables left open keep to their prefixes. *)
Definition selects q base x : Prop :=
  joins q (bindings base) x /\
  in_prefix base (query_the q) (attribute_name (artifact_the x)) /\ in_prefix base (query_of q) (entity_str (artifact_of x)).
Definition answer q base x : Match :=
  mkMatch (joined q (bindings base) x) (claims (cite base (query_source q) (claim_from x))).

Lemma not_blocked q base : plain q -> absent_blocked q base = false ->
  is_absent_at base (widen (query_the q)) = false /\ is_absent_at base (widen (query_of q)) = false /\ is_absent_at base (query_is q) = false.
Proof. intros Hq. rewrite blocked_absent by apply Hq. by intros [[? ?]%orb_false_iff ?]%orb_false_iff. Qed.

Lemma all_row_spec q base selector : plain q -> fits_row q base ->
  selector_try_from (all_resolve q base) = Ok selector -> usable selector ->
  (all_row q base).2 = Ok tt /\
  forall row, row ∈ (all_row q base).1 <-> exists x, facts x /\ selects q base x /\ row = answer q base x.
Proof.
  intros Hq Hf Hs Hu. unfold all_row. destruct (absent_blocked q base) eqn:Eb.
  - split; [done|]. intros row. split; [by intros ?%not_elem_of_nil|].
    intros (x & _ & [Hj _] & _). by destruct (blocked_joins q base x Hq Eb).
  - destruct (not_blocked q base Hq Eb) as (At & Ao & Ai).
    destruct (selector_asks q base _ _ _ _ Hq Hf At Ao Hs) as [Hc Hsat].
    destruct (Henv selector Hc Hu) as (out & Eout & _ & _ & Hout).
    pose proof (resolve_is q base Ai) as Ri. change (query_is (all_resolve q base)) with
      (match lookup_term base (query_is q) ≫= content with Ok value => Constant value | _ => query_is q end) in Ri.
    set (value := match lookup_term base (query_is q) ≫= content with Ok value => Constant value | _ => query_is q end) in *.
    assert (Hval : forall x, (forall v, value = Constant v -> artifact_is x = v) <-> slot_agrees (bindings base) (query_is q) (artifact_is x)).
    { intros x. destruct value as [n d|v]; [|destruct Ri as [_ Ri]; rewrite Ri; naive_solver].
      destruct Ri as [_ Ri]. split; [by intros _|done]. }
    unfold execute. rewrite Hs. cbn [let_ok]. rewrite Eout. cbn [let_ok store_err map_err].
    assert (Hm : forall x, x ∈ out -> query_admits q (artifact_is x) = true -> selects q base x /\ merge q base x = Ok (answer q base x)).
    { intros x [Hx _]%Hout Ha. apply Hsat in Hx as ((? & ?) & (? & ?) & Hv). apply Hval in Hv.
      assert (joins q (bindings base) x) as Hj by done. split; [done|]. by apply merge_joins. }
    destruct (merge_rows_Ok q base out) as [Ho Hr]; [intros x Hx Ha; destruct (Hm x Hx Ha); eauto|].
    split; [done|]. intros row. rewrite Hr. split.
    + intros (x & Hx & Ha & E). destruct (Hm x Hx Ha) as [Hsel E']. rewrite E in E'. injection E' as ->.
      exists x. split; [by apply Hout|done].
    + intros (x & Hx & Hsel & ->). destruct Hsel as ((? & ? & ? & Ha) & ? & ?). assert (x ∈ out) as Hin.
      { apply Hout. split; [|done]. apply Hsat. split_and!; [done..|by apply Hval]. }
      exists x. split; [done|]. split; [done|]. by destruct (Hm x Hin Ha).
Qed.

(** ** The value of a single-valued attribute *)
Context (Hkeyed : keyed facts) (Hdistinct : fingerprints_distinct facts).

Lemma winner_unique w w' : winner facts w -> winner facts w' -> subject w = subject w' -> w = w'.
Proof.
  intros [Hw Hmax] [Hw' Hmax'] E. apply (rank_inj facts); [done..| |].
  - by apply Hmax'.
  - by apply Hmax.
Qed.
Lemma sort_key_group x y : sort_key x ≼ sort_key y -> group_key x ≼ group_key y.
Proof.
  unfold sort_key, group_key, ole. simpl.
  destruct (list_cmp (attribute_key_bytes _) _); [|done|done]. by destruct (list_cmp (entity_key_bytes _) _).
Qed.
Lemma winners_sorted out : sorted_by_key out -> Forall facts out ->
  forall w, w ∈ winners None out <-> winner (fun y => y ∈ out) w.
Proof.
  intros Hs Hf w. destruct out as [|x out]; cbn [winners].
  - split; [by intros ?%not_elem_of_nil|]. by intros [?%not_elem_of_nil _].
  - apply (winners_spec facts); [done..|]. clear Hf. unfold sorted_by_key in Hs.
    induction Hs as [|y l Hl IH Hy]; constructor; [done|]. eapply Forall_impl; [exact Hy|]. intros z. apply sort_key_group.
Qed.

(** A challenge keeps a row whose fact has the value of the winner. *)
Lemma challenge_spec q base x : is_blank (query_cause q) = true -> is_Some (term_name (query_source q)) -> facts x ->
  usable (selector_of (selector_the selector_new (artifact_the x)) (artifact_of x)) ->
  (challenge q (answer q base x)).2 = Ok tt /\ forall row, row ∈ (challenge q (answer q base x)).1 <->
    row = answer q base x /\ exists w, winner facts w /\ subject w = subject x /\ artifact_is w = artifact_is x.
Proof.
  intros Hc [n Hn] Hx Hu. unfold challenge.
  assert (prove (answer q base x) (query_source q) = Ok (claim_from x)) as ->.
  { unfold answer. destruct (query_source q) as [[m|] d|v]; try done. simpl. by rewrite lookup_insert_eq. }
  rewrite Hc. cbn [let_ok]. unfold execute. cbn [let_ok claim_the claim_of claim_from claim_is].
  set (selector := selector_of _ _) in *. destruct (Henv selector) as (out & -> & _ & _ & Hout); [unfold selector, Constrained; eauto using built|done|].
  cbn [let_ok store_err map_err].
  assert (Hin : forall y, y ∈ out <-> facts y /\ subject y = subject x).
  { intros y. rewrite Hout. unfold satisfies, subject. simpl. split.
    - intros ((Ho & Ht & _) & Hy). split; [done|]. by rewrite (Ho _ eq_refl), (Ht _ eq_refl).
    - intros [Hy [= E1 E2]]. split; [|done]. by split_and!; intros ? [= <-]. }
  pose proof (winner_of_spec out None) as Hw. destruct (winner_of None out) as [w|].
  - destruct Hw as [[?|Hw] Hmax]; [done|]. apply Hin in Hw as [Hfw Hsw].
    assert (winner facts w) as Hwin.
    { split; [done|]. intros y Hy E. apply Hmax. right. apply Hin. split; [done|congruence]. }
    destruct (decide (artifact_is w = artifact_is x)) as [E|E].
    + rewrite decide_True by by left. split; [done|]. intros row. cbn [yields fst]. rewrite list_elem_of_singleton. split; [intros ->; eauto|by intros [-> _]].
    + split; [done|]. intros row. cbn [yields fst]. rewrite elem_of_nil. split; [done|]. intros (_ & w' & Hw' & Hs' & E').
      apply E. rewrite <- E'. f_equal. apply winner_unique; [done..|congruence].
  - destruct Hw as [_ ->]. assert (x ∈ []) as ?%not_elem_of_nil by by apply Hin. done.
Qed.
(** ** Both strategies *)
Lemma resolved_query q base : plain q -> fits_row q base -> absent_blocked q base = false ->
  let r := all_resolve q base in
  plain r /\ fits_row r base /\ selector_try_from (all_resolve r base) = selector_try_from r /\
  resolved_as base (query_the q) (query_the r) /\ resolved_as base (query_of q) (query_of r) /\ resolved_as base (query_is q) (query_is r).
Proof.
  intros Hq Hf Hb r. destruct (not_blocked q base Hq Hb) as (At & Ao & Ai).
  destruct Hq as [Ht Ho Hc Hto Hti Hoi], Hf as [Ft Fo Fi].
  destruct (resolve_slot_as _ _ base (or_introl eq_refl) Ht Ft At) as (Rt & Tt & Bt & It).
  destruct (resolve_slot_as _ _ base (or_intror eq_refl) Ho Fo Ao) as (Ro & To & Bo & Io).
  destruct (resolve_is_as q base Ai) as (Ri & Ii).
  fold The_type in Rt, Tt, Bt, It. fold Entity_type in Ro, To, Bo, Io.
  change (term_resolve The_type (query_the q) base) with (query_the r) in *.
  change (term_resolve Entity_type (query_of q) base) with (query_of r) in *. fold r in Ri, Ii.
  split_and!; [|split; [done|done|]| |done..].
  - split; [done|done| |by eapply apart_resolved..].
    unfold r. cbn [all_resolve query_cause]. by destruct (query_cause q) as [[n|] d|v].
  - intros n v Hn E. destruct (resolved_same _ _ _ Ri) as [Eis|[Hcst _]].
    + rewrite Eis in Hn. unfold query_admits. rewrite Eis. by apply (Fi n).
    + by destruct (query_is r).
  - unfold selector_try_from. rewrite Ii.
    change (query_the (all_resolve r base)) with (term_resolve The_type (query_the r) base).
    change (query_of (all_resolve r base)) with (term_resolve Entity_type (query_of r) base). by rewrite It, Io.
Qed.

Lemma resolved_selects q base x : plain q -> fits_row q base -> absent_blocked q base = false ->
  selects (all_resolve q base) base x <-> selects q base x.
Proof.
  intros Hq Hf Hb. destruct (resolved_query q base Hq Hf Hb) as (Hr & Hfr & _ & Rt & Ro & Ri). set (r := all_resolve q base) in *.
  unfold selects, joins. rewrite (resolved_agrees _ _ _ Rt), (resolved_agrees _ _ _ Ro), (resolved_agrees _ _ _ Ri).
  rewrite (resolved_prefix _ _ _ Rt), (resolved_prefix _ _ _ Ro).
  assert (slot_agrees (bindings base) (query_is q) (artifact_is x) ->
    query_admits r (artifact_is x) = true <-> query_admits q (artifact_is x) = true) as Hadm.
  { intros Ha. destruct (resolved_same _ _ _ Ri) as [Eis|[Hcst Hp]]; [unfold query_admits; by rewrite Eis|].
    pose proof Ha as Ha'. apply (resolved_agrees _ _ _ Ri) in Ha'. unfold query_admits at 1.
    destruct (query_is r) as [|v] eqn:Ev; [done|]. simpl in Ha'. subst v. split.
    - intros _. destruct (query_is q) as [[n|] d|c] eqn:Eq; [|done|].
      + simpl in Ha, Hp. destruct (bindings base !! n) as [b|] eqn:Eb; [|done]. subst b.
        apply (fits_is _ _ Hf n); [by rewrite Eq|done].
      + simpl in Ha. subst c. unfold query_admits. rewrite Eq. simpl. unfold admits. simpl. by destruct (artifact_is x).
    - intros _. simpl. unfold admits. simpl. by destruct (artifact_is x). }
  tauto.
Qed.
Lemma bind_slot_other t u v m n : apart t u -> term_name t = Some n -> bind_slot u v m !! n = m !! n.
Proof.
  intros Ha Hn. destruct u as [[k|] d|c]; simpl; [|done..]. rewrite lookup_insert_ne; [done|].
  intros ->. by apply (Ha n).
Qed.
Lemma resolved_joined q base x : plain q -> fits_row q base -> absent_blocked q base = false -> selects q base x ->
  joined (all_resolve q base) (bindings base) x = joined q (bindings base) x.
Proof.
  intros Hq Hf Hb ((At & Ao & Ai & _) & _). destruct (resolved_query q base Hq Hf Hb) as (_ & _ & _ & Rt & Ro & Ri).
  assert (forall t u, apart t u -> apart u t) as Hsym by (intros t u Ha n Hn Hn'; by apply (Ha n)).
  unfold joined. rewrite (bind_slot_resolved base _ _ _ _ Rt) by done.
  rewrite (bind_slot_resolved base _ _ _ _ Ro); [|done|intros n Hn; apply (bind_slot_other (query_of q)); [by apply Hsym, Hq|done]].
  apply (bind_slot_resolved base); [done|done|]. intros n Hn.
  rewrite (bind_slot_other (query_is q)) by (done || by apply Hsym, Hq). apply (bind_slot_other (query_is q)); [by apply Hsym, Hq|done].
Qed.

(** What the facts of one attribute and entity share. *)
Lemma answer_same q base x w : subject w = subject x -> artifact_is w = artifact_is x ->
  joined q (bindings base) w = joined q (bindings base) x /\ (selects q base w <-> selects q base x).
Proof.
  unfold subject. intros [= E1 E2] E3. unfold joined, selects, joins, the_value, of_value. by rewrite E1, E2, E3.
Qed.
(** The selectors that a lookup of a single value asks for. *)
Definition scan_all q base : AttributeQueryAll :=
  let r := all_resolve q base in all_new (query_the r) (query_of r) any_blank (query_cause r) (query_source r).
Definition asked q base (selector : ArtifactSelector) : Prop :=
  selector_try_from (all_resolve q base) = Ok selector \/ selector_try_from (scan_all q base) = Ok selector \/
  exists x, facts x /\ selector = selector_of (selector_the selector_new (artifact_the x)) (artifact_of x).

Lemma scan_selector q base : plain q -> fits_row q base -> absent_blocked q base = false ->
  is_constant (query_of (all_resolve q base)) || is_constant (query_the (all_resolve q base)) = true ->
  exists selector, selector_try_from (scan_all q base) = Ok selector.
Proof.
  intros Hq Hf Hb. destruct (resolved_query q base Hq Hf Hb) as ([Ht Ho _ _ _ _] & _).
  unfold scan_all, all_new, selector_try_from. cbn [query_the query_of query_is any_blank blank].
  destruct (query_the (all_resolve q base)) as [tn td|tv], (query_of (all_resolve q base)) as [on od|ov]; simpl in *; try done; intros _.
  - destruct ov; try done. simpl. destruct (refined_prefix _); simpl; eauto.
  - destruct tv; try done. simpl. destruct (refined_prefix _); simpl; eauto.
  - destruct tv; try done. destruct ov; try done. simpl. eauto.
Qed.

(** The sliding window over a scan in the order of sort keys. *)
Lemma window_spec q base selector : plain q -> fits_row q base -> absent_blocked q base = false ->
  selector_try_from (scan_all q base) = Ok selector -> usable selector ->
  let s := execute (selector_try_from (scan_all q base)) (fun artifacts status =>
    window q base (as_constant (query_is (all_resolve q base))) artifacts status None) in
  s.2 = Ok tt /\
  forall row, row ∈ s.1 <-> exists w, winner facts w /\ selects q base w /\ row = answer q base w.
Proof.
  intros Hq Hf Hb Hs Hu. destruct (not_blocked q base Hq Hb) as (At & Ao & Ai).
  destruct (selector_asks q base any_blank _ _ _ Hq Hf At Ao Hs) as [Hc Hsat].
  destruct (Henv selector Hc Hu) as (out & Eout & Hsorted & _ & Hout).
  cbv zeta. unfold execute. rewrite Hs. cbn [let_ok]. rewrite Eout. cbn [let_ok store_err map_err]. rewrite window_winners.
  assert (Hvalue : forall x, as_constant (query_is (all_resolve q base)) = None \/ as_constant (query_is (all_resolve q base)) = Some (artifact_is x)
    <-> slot_agrees (bindings base) (query_is q) (artifact_is x)).
  { intros x. pose proof (resolve_is q base Ai) as R. destruct (query_is (all_resolve q base)) as [n d|v]; simpl; destruct R as [_ R].
    - split; [done|by left].
    - rewrite R. naive_solver. }
  assert (Hwin : forall w, w ∈ winners None out <-> winner facts w /\ satisfies selector w).
  { intros w. rewrite winners_sorted; [|done|apply Forall_forall; intros y Hy; by apply Hout].
    assert (Hsub : forall y, subject y = subject w -> satisfies selector w -> satisfies selector y).
    { intros y. unfold subject. intros [= E1 E2]. rewrite !Hsat. unfold the_value, of_value. rewrite E1, E2. naive_solver. }
    unfold winner. split.
    - intros [[Hw Hfw]%Hout Hmax]. split; [|done]. split; [done|]. intros y Hy E. apply Hmax; [|done]. apply Hout. eauto.
    - intros [[Hfw Hmax] Hw]. split; [by apply Hout|]. intros y [_ Hy]%Hout. by apply Hmax. }
  assert (Hm : forall w, w ∈ winners None out -> query_admits q (artifact_is w) = true ->
    slot_agrees (bindings base) (query_is q) (artifact_is w) -> selects q base w /\ merge q base w = Ok (answer q base w)).
  { intros w [_ ((? & ?) & (? & ?) & _)%Hsat]%Hwin Ha Hv. assert (joins q (bindings base) w) as Hj by done.
    split; [done|]. by apply merge_joins. }
  destruct (yield_winners_Ok q base (as_constant (query_is (all_resolve q base))) (winners None out)) as [Ho Hr].
  { intros w Hw Ha Hv%Hvalue. destruct (Hm w Hw Ha Hv). eauto. }
  split; [done|]. intros row. rewrite Hr. split.
  - intros (w & Hw & Hv%Hvalue & Ha & E). destruct (Hm w Hw Ha Hv) as [Hsel E']. rewrite E in E'. injection E' as ->.
    exists w. split; [by apply Hwin|done].
  - intros (w & Hw & Hsel & ->). pose proof Hsel as ((? & ? & Hv & Ha) & ? & ?).
    assert (w ∈ winners None out) as Hin.
    { apply Hwin. split; [done|]. apply Hsat. split_and!; try done. }
    exists w. split; [done|]. split; [by apply Hvalue|]. split; [done|]. by apply Hm.
Qed.

Lemma only_row_spec q base : plain q -> is_Some (term_name (query_source q)) -> fits_row q base ->
  is_ok (selector_try_from (all_resolve q base)) = true -> (forall selector, asked q base selector -> usable selector) ->
  (only_row q base).2 = Ok tt /\
  forall b, (exists row, row ∈ (only_row q base).1 /\ bindings row = b) <->
    exists w, winner facts w /\ selects q base w /\ b = joined q (bindings base) w.
Proof.
  intros Hq Hsrc Hf Hok Hu. unfold only_row. destruct (absent_blocked q base) eqn:Hb.
  { split; [done|]. intros b. split; [by intros (? & ?%not_elem_of_nil & _)|].
    intros (w & _ & [Hj _] & _). by destruct (blocked_joins q base w Hq Hb). }
  destruct (is_constant (query_of (all_resolve q base)) || is_constant (query_the (all_resolve q base)) && _) eqn:Econd; cbv zeta.
  - destruct (scan_selector q base Hq Hf Hb) as [selector Hs].
    { apply orb_true_iff in Econd as [->|[-> _]%andb_true_iff]; [done|apply orb_true_r]. }
    destruct (window_spec q base selector Hq Hf Hb Hs) as [Ho Hr]; [apply Hu; right; by left|]. fold (scan_all q base).
    split; [done|]. intros b. setoid_rewrite Hr. split.
    + intros (row & (w & ? & ? & ->) & <-). eauto.
    + intros (w & ? & ? & ->). exists (answer q base w). eauto.
  - destruct (resolved_query q base Hq Hf Hb) as (Hqr & Hfr & Hsame & _). set (r := all_resolve q base) in *.
    destruct (selector_try_from r) as [selector| | |] eqn:Es; try done.
    destruct (all_row_spec r base selector Hqr Hfr Hsame) as [Hao Har]; [apply Hu; by left|].
    assert (Hch : forall x, facts x -> selects r base x -> (challenge q (answer r base x)).2 = Ok tt /\
      forall row, row ∈ (challenge q (answer r base x)).1 <->
        row = answer q base x /\ exists w, winner facts w /\ subject w = subject x /\ artifact_is w = artifact_is x).
    { intros x Hx Hsel. apply (resolved_selects q base x Hq Hf Hb) in Hsel.
      assert (answer r base x = answer q base x) as ->.
      { unfold answer. unfold r. by rewrite (resolved_joined q base x). }
      apply challenge_spec; [apply Hq|done|done|]. apply Hu. right. right. eauto. }
    unfold for_each. rewrite Hao. destruct (for_rows_Ok (all_row r base).1 (challenge q)) as [Ho Hr].
    { intros row (x & Hx & Hsel & ->)%Har. by apply Hch. }
    split; [done|]. intros b. setoid_rewrite Hr. split.
    + intros (out & (row & (x & Hx & Hsel & ->)%Har & Hout) & <-). apply Hch in Hout as (-> & w & Hw & Esub & Eval); [|done..].
      exists w. apply (resolved_selects q base x Hq Hf Hb) in Hsel. destruct (answer_same q base x w Esub Eval) as [Hj Hs].
      split; [done|]. split; [by apply Hs|]. by simpl.
    + intros (w & Hw & Hsel & ->). exists (answer q base w). split; [|done]. exists (answer r base w).
      assert (selects r base w) as Hselr by by apply resolved_selects. split.
      * apply Har. exists w. split; [apply Hw|done].
      * apply Hch; [apply Hw|done|]. split; [done|]. exists w. done.
Qed.
End lookups.

(** * The environment of a session: branches and pending changes *)
Section session.
Context `{Blake3, Url} (P : bytes -> Prop) (distinct : digests_distinct P).
Context (branches : list (Facts * (Range KeyBytes -> list (Entry KeyBytes State) * outcome DialogSearchTreeError ())))
  (changes : Changes) (Hsome : branches <> []) (Hbranches : Forall (branch_of P) branches) (Hchanges : wf_changes P changes).
Implicit Types (x y : Artifact).

Definition session_select : SelectFacts := fun selector =>
  Ok (query_select ((fun b => scan b.2 selector) <$> branches) changes (tombstones_from changes) selector).
Definition session_facts x : Prop :=
  Exists (fun b => asserted_in b.1 x) branches /\ ~ changes_retract changes x \/ changes_assert changes x.
Definition exact_selector (selector : ArtifactSelector) : Prop :=
  Forall P (selector_hashed selector) /\ wf_selector selector /\ exact selector.

Context (Hfingerprints : fingerprints_distinct (fun x => Exists (fun b => asserted_in b.1 x) branches \/ changes_assert changes x)).

Lemma session_answers : @answers _ session_select exact_selector session_facts.
Proof.
  intros selector Hc (Hh & Hw & He). destruct (query_select_spec P distinct branches changes selector) as (out & E & ?); [done..|].
  exists out. split; [|done]. unfold select, session_select. by rewrite E.
Qed.
Lemma session_storable x : session_facts x -> storable x /\ Forall P (hashed x).
Proof.
  intros [[(b & Hb & f & Hf)%Exists_exists _]|[Hcause (change & Hc & Hv)]].
  - rewrite Forall_forall in Hbranches. destruct (Hbranches b Hb) as (Hwf & Hh & _). destruct (Hwf _ _ Hf) as [_ Hs].
    split; [by apply Hs|by eapply Hh].
  - pose proof (Hchanges _ _ _ Hc) as Hwf. cbv zeta in Hwf. destruct x as [xa xe xv xc]. simpl in *. subst xc.
    destruct change; simpl in Hv; [injection Hv as <-; done..|done].
Qed.
Lemma session_keyed : keyed session_facts.
Proof.
  intros x y [Sx Hx]%session_storable [Sy Hy]%session_storable. unfold group_key. intros [= Ea Ee].
  destruct Sx as ((Wx & Ex & _) & _ & _ & Nx), Sy as ((Wy & Ey & _) & _ & _ & Ny).
  apply attribute_key_inj in Ea; [|done..].
  apply Forall_cons in Hx as [Hx _], Hy as [Hy _]. unfold subject. f_equal; [done|].
  exact (entity_key_inj P _ _ distinct Hx Hy Ex Ey Ee).
Qed.
Lemma session_distinct : fingerprints_distinct session_facts.
Proof. intros x y Hx Hy. apply Hfingerprints; unfold session_facts in *; tauto. Qed.
End session.

