(* ===== verification/Premises.v ===== *)
(** The premises of rules (rust/dialog-query/src: premise.rs, proposition.rs,
    negation.rs, planner/feasibility.rs, attribute/descriptor.rs,
    concept/descriptor.rs, concept/descriptor/named_attributes.rs and the planning
    side of concept/query.rs): what each premise may bind, what it needs, and what
    it costs. *)
From Stdlib Require Import String.
From S2P Require Import Prelude Common Artifact TypeSystem Terms Constraints Numbers Formulas AttributeQuery.

Local Abbreviation Kind := Kind.t.

(** * Concepts *)
Record AttributeDescriptor := mkAttribute {
  attribute_the : Attribute;
  attribute_description : bytes;
  attribute_cardinality : Cardinality;
  attribute_content_type : option ValueDataType.t
}.
#[export] Instance AttributeDescriptor_eq_dec : EqDecision AttributeDescriptor.
Proof. solve_decision. Defined.

Record ConceptFieldDescriptor := mkConceptField { descriptor : AttributeDescriptor; optional_field : bool }.
#[export] Instance ConceptFieldDescriptor_eq_dec : EqDecision ConceptFieldDescriptor.
Proof. solve_decision. Defined.
Implicit Types (field : ConceptFieldDescriptor).
Definition field_the field : Attribute := attribute_the (descriptor field).
Definition field_content_type field : option ValueDataType.t := attribute_content_type (descriptor field).
Definition field_cardinality field : Cardinality := attribute_cardinality (descriptor field).
(** [AttributeDescriptor::estimate]; the [expect] cannot fail for a known attribute
    ([attribute_estimate_known] of PlannerCorrect). *)
Definition attribute_estimate (self : AttributeDescriptor) (known_of known_is : bool) : N :=
  default 0%N (cardinality_estimate (attribute_cardinality self) true known_of known_is).
Definition field_estimate field (known_of known_is : bool) : N := attribute_estimate (descriptor field) known_of known_is.

(** [NamedAttributes]: a [BTreeMap], as the list of its entries in the order of the
    names. *)
Abbreviation NamedAttributes := (list (string * ConceptFieldDescriptor)).
Fixpoint btree_insert {A} (name : string) (a : A) (l : list (string * A)) : list (string * A) :=
  match l with
  | [] => [(name, a)]
  | (n, b) :: l' =>
      match String.compare name n with
      | Lt => (name, a) :: l
      | Eq => (n, a) :: l'
      | Gt => (n, b) :: btree_insert name a l'
      end
  end.
Definition btree_collect {A} (l : list (string * A)) : list (string * A) :=
  foldl (fun m '(name, a) => btree_insert name a m) [] l.

Inductive TypeError :=
  | EmptyConcept
  | RequiredBindings (required : Environment)
  | TypeInference
  | RequiredHeadFromOptional (variable : string)
  | CoalesceTypeMismatch
  | NegatedOptional
  | UnboundHead (variable : string)
  | OmittedRequirement (binding : string)
  | TypeMismatch (binding : string) (expected : ValueDataType.t) (actual : Value.t).

Record ConceptDescriptor := mkConcept { concept_description : option bytes; with_ : NamedAttributes }.
#[export] Instance ConceptDescriptor_eq_dec : EqDecision ConceptDescriptor.
Proof. solve_decision. Defined.
(** [NamedAttributes::try_new] and [descriptor_from_with]. *)
Definition concept_try_from (fields : list (string * ConceptFieldDescriptor)) : outcome TypeError ConceptDescriptor :=
  let map := btree_collect fields in
  if forallb (fun '(_, field) => optional_field field) map then Err EmptyConcept
  else Ok (mkConcept None map).
Definition required_operands (self : ConceptDescriptor) : list string :=
  "this" :: (filter (fun '(_, field) => negb (optional_field field)) (with_ self)).*1.

(** [From<&ConceptDescriptor> for Schema]. *)
Definition concept_field field : Field :=
  mkField (match field_content_type field, optional_field field with
           | Some ty, false => Some (kind_of ty)
           | Some ty, true => Some (optional (kind_of ty))
           | None, true => Some (optional (Kind.Primitive ALL))
           | None, false => None
           end) Optional (field_cardinality field).
Definition concept_schema (self : ConceptDescriptor) : Schema :=
  let schema : Schema := foldl (fun schema '(name, field) => <[name := concept_field field]> schema) ∅ (with_ self) in
  match schema !! "this" with
  | Some _ => schema
  | None => <["this" := mkField (Some (kind_of ValueDataType.Entity)) Optional One]> schema
  end.

(** * Concept queries *)
Record ConceptQuery := mkConceptQuery { predicate : ConceptDescriptor; terms : Parameters }.
Section concept_query.
Implicit Types (self : ConceptQuery) (env : Environment).
Definition term_bound self (env : Environment) (name : string) : bool :=
  match terms self !! name with Some param => is_bound param env | None => false end.

(** The candidates for the first lookup when the entity is unknown. *)
Record Leads := mkLeads { bound_one : option ConceptFieldDescriptor; bound_many : option ConceptFieldDescriptor;
                          unbound_one : option ConceptFieldDescriptor; unbound_many : option ConceptFieldDescriptor }.
Definition or_some {A} (o : option A) (a : A) : option A := match o with Some _ => o | None => Some a end.
Fixpoint leads_loop self env (l : NamedAttributes) (acc : Leads) : Leads :=
  match l with
  | [] => acc
  | (name, field) :: l =>
      if term_bound self env name
      then match field_cardinality field with
           | One => mkLeads (Some field) (bound_many acc) (unbound_one acc) (unbound_many acc)
           | Many => leads_loop self env l
                       (mkLeads (bound_one acc) (or_some (bound_many acc) field) (unbound_one acc) (unbound_many acc))
           end
      else match field_cardinality field with
           | One => leads_loop self env l
                      (mkLeads (bound_one acc) (bound_many acc) (or_some (unbound_one acc) field) (unbound_many acc))
           | Many => leads_loop self env l
                       (mkLeads (bound_one acc) (bound_many acc) (unbound_one acc) (or_some (unbound_many acc) field))
           end
  end.
Definition lead (acc : Leads) : option (ConceptFieldDescriptor * bool) :=
  match bound_one acc, bound_many acc, unbound_one acc, unbound_many acc with
  | Some field, _, _, _ => Some (field, true)
  | None, Some field, _, _ => Some (field, true)
  | None, None, Some field, _ => Some (field, false)
  | None, None, None, Some field => Some (field, false)
  | None, None, None, None => None
  end.
Definition lookups self env (l : NamedAttributes) (total : N) : N :=
  foldl (fun total '(name, field) => (total + field_estimate field true (term_bound self env name))%N) total l.
Definition concept_estimate self env : outcome TypeError (option N) :=
  if term_bound self env "this" then Ok (Some (lookups self env (with_ (predicate self)) CONCEPT_OVERHEAD))
  else
    match lead (leads_loop self env (with_ (predicate self)) (mkLeads None None None None)) with
    | None => Panic "concept without attributes is not possible"
    | Some (field, bound) =>
        Ok (Some (lookups self env (filter (fun '(_, other) => field <> other) (with_ (predicate self)))
                    (CONCEPT_OVERHEAD + field_estimate field false bound)%N))
    end.
End concept_query.

(** * Premises *)
Record OptionalAttributeQuery := mkOptional { optional_query : DynamicAttributeQuery }.
Inductive Proposition_ :=
  | Concept (query : ConceptQuery)
  | FormulaProposition (query : FormulaQuery)
  | AttributeProposition (query : DynamicAttributeQuery)
  | OptionalAttribute (query : OptionalAttributeQuery)
  | ConstraintProposition (constraint : Constraint.t).
Inductive Premise := Assert_ (proposition : Proposition_) | Unless (proposition : Proposition_).

Definition NEGATION_OVERHEAD : N := 100.

Definition proposition_estimate (self : Proposition_) (env : Environment) : outcome TypeError (option N) :=
  match self with
  | AttributeProposition query => Ok (dynamic_estimate query env)
  | OptionalAttribute query => Ok (dynamic_estimate (optional_query query) env)
  | Concept query => concept_estimate query env
  | FormulaProposition query => Ok (formula_estimate query)
  | ConstraintProposition constraint => Ok (constraint_estimate constraint env)
  end.
Definition proposition_parameters (self : Proposition_) : Parameters :=
  match self with
  | AttributeProposition query => dynamic_parameters query
  | OptionalAttribute query => dynamic_parameters (optional_query query)
  | Concept query => terms query
  | FormulaProposition query => formula_parameters query
  | ConstraintProposition constraint => constraint_parameters constraint
  end.
Definition proposition_schema (self : Proposition_) : Schema :=
  match self with
  | AttributeProposition query => dynamic_schema query
  | OptionalAttribute query => optional_schema (optional_query query)
  | Concept query => concept_schema (predicate query)
  | FormulaProposition query => formula_schema query
  | ConstraintProposition constraint => constraint_schema constraint
  end.

(** [Negation::schema]. *)
Definition negation_schema (self : Proposition_) : Schema :=
  map_imap (fun name (field : Field) =>
    Some match proposition_parameters self !! name with
         | Some term => mkField (content_type field) (if is_blank term then Optional else Required None) (cardinality field)
         | None => field
         end) (proposition_schema self).

Definition premise_estimate (self : Premise) (env : Environment) : outcome TypeError (option N) :=
  match self with
  | Assert_ proposition => proposition_estimate proposition env
  | Unless proposition =>
      match proposition_estimate proposition env with
      | Ok (Some cost) => Ok (Some (cost + NEGATION_OVERHEAD)%N)
      | o => o
      end
  end.
Definition premise_parameters (self : Premise) : Parameters :=
  match self with Assert_ proposition | Unless proposition => proposition_parameters proposition end.
Definition premise_schema (self : Premise) : Schema :=
  match self with Assert_ proposition => proposition_schema proposition | Unless proposition => negation_schema proposition end.
Definition is_negation (self : Premise) : bool := match self with Unless _ => true | Assert_ _ => false end.
Definition premise_not (self : Premise) : Premise :=
  match self with Assert_ proposition => Unless proposition | Unless proposition => Assert_ proposition end.

(** * Feasibility *)
(** A choice group is satisfied by a constant or by a bound member. *)
Definition satisfied_groups (schema : Schema) (params : Parameters) (environment : Environment) : gset Group :=
  list_to_set (omap (fun '((name, field) : string * Field) =>
    match params !! name, requirement field with
    | Some param, Required (Some group) =>
        if is_constant param || is_bound param environment then Some group else None
    | _, _ => None
    end) (map_to_list schema)).
(** What a slot adds to the variables that the premise binds and requires. *)
Definition categorize_slot (groups : gset Group) (params : Parameters) (negation : bool) (environment : Environment)
    (acc : Environment * Environment) (slot : string * Field) : Environment * Environment :=
  let '(binds, requires) := acc in
  let '(name, field) := slot in
  match params !! name with
  | None => acc
  | Some param =>
      if is_blank param || is_constant param || is_bound param environment then acc
      else
        match requirement field with
        | Required (Some group) =>
            if decide (group ∈ groups)
            then if negation then acc else (term_bind param binds, requires)
            else (binds, term_bind param requires)
        | Required None => (binds, term_bind param requires)
        | Optional => if negation then acc else (term_bind param binds, requires)
        end
  end.
Definition categorize (schema : Schema) (params : Parameters) (negation : bool) (environment : Environment) :
    Environment * Environment :=
  foldl (categorize_slot (satisfied_groups schema params environment) params negation environment) (∅, ∅) (map_to_list schema).

(** [Premise::feasible]: the variables it binds, or those it needs. *)
Definition feasible (self : Premise) (environment : Environment) : outcome Environment Environment :=
  let '(binds, requires) := categorize (premise_schema self) (premise_parameters self) (is_negation self) environment in
  if decide (requires = ∅) then Ok binds else Err requires.
