(* ===== verification/Planner.v ===== *)
(** Type inference over the premises of a rule (rust/dialog-query/src/rule/types.rs)
    and its use by the planner (planner/plan.rs, [apply_types]); then the planner
    itself (rust/dialog-query/src/planner.rs and planner/*.rs). *)
From S2P Require Import Prelude Common Artifact TypeSystem Terms Unifier Constraints Numbers Formulas AttributeQuery Premises.

Local Abbreviation Kind := Kind.t.

(** The order in which a [HashMap] is iterated. *)
Class HashOrder := {
  hash_iter : forall {A}, gmap string A -> list (string * A);
  hash_iter_permutation : forall {A} (m : gmap string A), hash_iter m ≡ₚ map_to_list m
}.

Inductive InferenceError := Conflict (variable : string) (reason : UnifyError).
Abbreviation TypeEnv := (gmap string Kind.t).
Definition blame {A} (variable : string) (o : outcome UnifyError A) : outcome InferenceError A :=
  map_err (Conflict variable) o.

Section infer.
Context `{HashOrder}.

(** A slot of a premise constrains the variable in it. *)
Definition infer_slot (params : Parameters) (ctx : Context) (slot : string * Field) : outcome InferenceError Context :=
  let '(slot_name, field) := slot in
  match params !! slot_name ≫= term_name with
  | None => Ok ctx
  | Some var_name =>
      let slot_kind := default (Kind.Primitive ALL) (content_type field) in
      let '(ctx, var) := var_for_name ctx var_name in
      match blame var_name (unify ctx (lift slot_kind) (InferredVariable var)) with
      | Ok (ctx, _) => Ok ctx
      | Err e => Err e
      | Panic m => Panic m
      | OutOfFuel => OutOfFuel
      end
  end.

(** [infer_formula]: the type of a cell, sharing a variable per label. *)
Definition slot_type (ctx : Context) (schemes : gmap string Inferred) (cell : Cell) : Context * gmap string Inferred * Inferred :=
  match scheme_label cell with
  | Some label =>
      match schemes !! label with
      | Some ty => (ctx, schemes, ty)
      | None =>
          let bound := match cell_type cell with Some kind => primitive_part kind | None => ALL end in
          let '(ctx, id) := fresh ctx bound in
          (ctx, <[label := InferredVariable id]> schemes, InferredVariable id)
      end
  | None => (ctx, schemes, lift (default (Kind.Primitive ALL) (cell_type cell)))
  end.
Definition argument_type (ctx : Context) (cell : Cell) (param : Term) : Context * option Inferred :=
  match term_name param with
  | Some var_name => let '(ctx, id) := var_for_name ctx var_name in (ctx, Some (InferredVariable id))
  | None =>
      (ctx, match param, scheme_label cell with
            | Constant value, Some _ =>
                match Numeric_try_from value with
                | Ok literal => Some (Static (Kind.Primitive (admissible literal)))
                | _ => lift <$> term_kind param
                end
            | _, _ => lift <$> term_kind param
            end)
  end.
Definition infer_cell (params : Parameters) (state : Context * gmap string Inferred) (entry : string * Cell) :
    outcome InferenceError (Context * gmap string Inferred) :=
  let '(ctx, schemes) := state in
  let '(slot_name, cell) := entry in
  match params !! slot_name with
  | None => Ok (ctx, schemes)
  | Some param =>
      let '(ctx, schemes, slot_ty) := slot_type ctx schemes cell in
      let '(ctx, argument) := argument_type ctx cell param in
      match argument with
      | None => Ok (ctx, schemes)
      | Some argument =>
          match blame (default slot_name (term_name param)) (unify ctx slot_ty argument) with
          | Ok (ctx, _) => Ok (ctx, schemes)
          | Err e => Err e
          | Panic m => Panic m
          | OutOfFuel => OutOfFuel
          end
      end
  end.

Fixpoint fold_outcome {E S A} (step : S -> A -> outcome E S) (s : S) (l : list A) : outcome E S :=
  match l with
  | [] => Ok s
  | a :: l => s ← step s a; fold_outcome step s l
  end.
Definition infer_premise (ctx : Context) (premise : Premise) : outcome InferenceError Context :=
  match premise with
  | Unless _ => Ok ctx
  | Assert_ (FormulaProposition query) =>
      '(ctx, _) ← fold_outcome (infer_cell (formula_parameters query)) (ctx, ∅)
                    (hash_iter (list_to_map (cells (formula query))));
      Ok ctx
  | Assert_ proposition =>
      fold_outcome (infer_slot (proposition_parameters proposition)) ctx (hash_iter (proposition_schema proposition))
  end.

(** [TypeEnv::resolve]: the static type of a variable, or its constraint. *)
Definition resolve_variable (ctx : Context) (var : VarId) : outcome InferenceError Kind :=
  match resolve ctx (InferredVariable var) with
  | Ok (Static kind) => Ok kind
  | Ok (InferredVariable _) => Ok (Kind.Primitive (constraint ctx var))
  | Err e => Err (Conflict "" e)
  | Panic m => Panic m
  | OutOfFuel => OutOfFuel
  end.
Definition resolve_name (ctx : Context) (types : TypeEnv) (entry : string * VarId) : outcome InferenceError TypeEnv :=
  kind ← resolve_variable ctx entry.2; Ok (<[entry.1 := kind]> types).
(** [TypeEnv::infer], without the record of the narrowings. *)
Definition infer (premises : list Premise) : outcome InferenceError TypeEnv :=
  ctx ← fold_outcome infer_premise context_new premises;
  fold_outcome (resolve_name ctx) ∅ (hash_iter (names ctx)).
End infer.

(** * The inferred types in the premises *)
Section apply_types.
Implicit Types (types : TypeEnv).

Definition type_of_term (term : Term) types : option Kind := name ← term_name term; types !! name.
Definition narrow_attribute (query : DynamicAttributeQuery) types : DynamicAttributeQuery :=
  let q := inner query in
  let query := match type_of_term (query_the q) types, type_of_term (query_of q) types with
               | None, None => query
               | the_kind, of_kind => dynamic_map (fun q => with_subject_kinds q the_kind of_kind) query
               end in
  match type_of_term (query_is (inner query)) types with
  | Some kind => dynamic_map (fun q => with_type q kind) query
  | None => query
  end.
Definition project types (term : Term) : Term :=
  match term_name term, type_of_term term types with
  | Some name, Some kind => typed_var name kind
  | _, _ => term
  end.
Definition apply_types_to_proposition (proposition : Proposition_) types : Proposition_ :=
  match proposition with
  | AttributeProposition query => AttributeProposition (narrow_attribute query types)
  | OptionalAttribute maybe =>
      match type_of_term (query_is (inner (optional_query maybe))) types with
      | Some kind =>
          if is_optional kind then OptionalAttribute maybe
          else AttributeProposition (dynamic_map (fun q => with_type q kind) (optional_query maybe))
      | None => OptionalAttribute maybe
      end
  | Concept query => Concept (mkConceptQuery (predicate query) (project types <$> terms query))
  | other => other
  end.
Definition apply_types (premise : Premise) types : Premise :=
  if decide (types = ∅) then premise
  else
    match premise with
    | Assert_ proposition => Assert_ (apply_types_to_proposition proposition types)
    | Unless proposition => Unless proposition
    end.
End apply_types.

(** * The planner

    The planner (rust/dialog-query/src: planner.rs, planner/plan.rs,
    planner/conjunction.rs, planner/disjunction.rs): premises are ordered so that
    each finds the variables it needs bound, the cheapest first. *)

Definition USIZE_MAX : N := 18446744073709551615.
(** Overflow checks are on, as in debug builds. *)
Definition checked_add {E} (a b : N) : outcome E N :=
  if (a + b <=? USIZE_MAX)%N then Ok (a + b)%N else Panic "attempt to add with overflow".

(** * Plans *)
Record Header := mkHeader { header_cost : N; header_binds : Environment; header_env : Environment }.
Inductive Plan :=
  | Scan (header : Header) (query : DynamicAttributeQuery)
  | OptionalScan (header : Header) (query : OptionalAttributeQuery)
  | FormulaPlan (header : Header) (query : FormulaQuery)
  | ConstraintPlan (header : Header) (constraint : Constraint.t)
  | ConceptPlan (header : Header) (query : ConceptQuery)
  | Negate (header : Header) (inner : Plan).
Definition plan_header (self : Plan) : Header :=
  match self with
  | Scan header _ | OptionalScan header _ | FormulaPlan header _ | ConstraintPlan header _
  | ConceptPlan header _ | Negate header _ => header
  end.
Definition plan_cost (self : Plan) : N := header_cost (plan_header self).
Definition plan_binds (self : Plan) : Environment := header_binds (plan_header self).
Definition plan_env (self : Plan) : Environment := header_env (plan_header self).

Definition lower_proposition (proposition : Proposition_) (header : Header) : Plan :=
  match proposition with
  | AttributeProposition query => Scan header query
  | OptionalAttribute query => OptionalScan header query
  | Concept query => ConceptPlan header query
  | FormulaProposition query => FormulaPlan header query
  | ConstraintProposition constraint => ConstraintPlan header constraint
  end.
Definition lower (premise : Premise) (header : Header) : Plan :=
  match premise with
  | Assert_ proposition => lower_proposition proposition header
  | Unless proposition => Negate header (lower_proposition proposition header)
  end.
Fixpoint as_premise (self : Plan) : Premise :=
  match self with
  | Scan _ query => Assert_ (AttributeProposition query)
  | OptionalScan _ query => Assert_ (OptionalAttribute query)
  | ConceptPlan _ query => Assert_ (Concept query)
  | FormulaPlan _ query => Assert_ (FormulaProposition query)
  | ConstraintPlan _ constraint => Assert_ (ConstraintProposition constraint)
  | Negate _ inner =>
      match as_premise inner with
      | Assert_ proposition => Unless proposition
      | Unless negation => Unless negation
      end
  end.

Record Conjunction := mkConjunction {
  steps : list Plan; conjunction_cost : N; conjunction_binds : Environment; conjunction_env : Environment
}.
Inductive Disjunction := Empty | Solo (join : Conjunction) | Duet (first second : Conjunction) | Or_ (rest : Disjunction) (right : Conjunction).
Definition disjunction_or (self : Disjunction) (right : Conjunction) : Disjunction :=
  match self with
  | Empty => Solo right
  | Solo first => Duet first right
  | _ => Or_ self right
  end.
Definition disjunction_from_iter (joins : list Conjunction) : Disjunction := foldl disjunction_or Empty joins.

(** * Planning *)
(** The cheapest feasible premise, the first one of several. *)
Fixpoint cheapest (bound : Environment) (index : nat) (remaining : list Premise)
    (best : option (N * nat * Environment)) : outcome TypeError (option (N * nat * Environment)) :=
  match remaining with
  | [] => Ok best
  | premise :: remaining =>
      match feasible premise bound with
      | Ok binds =>
          match premise_estimate premise bound with
          | Ok estimate =>
              let cost := default USIZE_MAX estimate in
              let best := match best with
                          | Some (best_cost, _, _) => if (cost <? best_cost)%N then Some (cost, index, binds) else best
                          | None => Some (cost, index, binds)
                          end in
              cheapest bound (S index) remaining best
          | Err e => Err e
          | Panic m => Panic m
          | OutOfFuel => OutOfFuel
          end
      | _ => cheapest bound (S index) remaining best
      end
  end.

(** [Planner::fail]. *)
Fixpoint plan_fail {A} (remaining : list Premise) (environment : Environment) : outcome TypeError A :=
  match remaining with
  | [] => Panic "a non-empty remaining set has at least one premise with requirements"
  | premise :: remaining =>
      match feasible premise environment with
      | Err needs => if decide (needs = ∅) then plan_fail remaining environment else Err (RequiredBindings needs)
      | _ => plan_fail remaining environment
      end
  end.

(** The loop of [Planner::plan]; it removes a premise in each round. *)
Fixpoint plan_loop (fuel : nat) (remaining : list Premise) (bound : Environment) (steps : list Plan) (cost : N) :
    outcome TypeError (list Plan * N * Environment) :=
  match remaining with
  | [] => Ok (steps, cost, bound)
  | _ =>
      match fuel with
      | O => OutOfFuel
      | S fuel =>
          best ← cheapest bound 0 remaining None;
          match best with
          | None => plan_fail remaining bound
          | Some (step_cost, index, binds) =>
              premise ← index_or_panic remaining index;
              cost ← checked_add cost step_cost;
              plan_loop fuel (delete index remaining) (bound ∪ binds)
                (steps ++ [lower premise (mkHeader step_cost binds bound)]) cost
          end
      end
  end.
(** [Planner::with_types] and [Planner::plan]. *)
Definition planner_plan (premises : list Premise) (types : TypeEnv) (scope : Environment) : outcome TypeError Conjunction :=
  let premises := (fun premise => apply_types premise types) <$> premises in
  '(steps, cost, bound) ← plan_loop (length premises) premises scope [] 0%N;
  Ok (mkConjunction steps cost (bound ∖ scope) scope).
