(* ===== verification/PlannerCorrect.v ===== *)
(** The planner is sound and complete: its steps find what they need bound, it
    fails only when no order of the premises does, and a rule that can be planned
    with nothing bound can be planned in every scope. *)
From S2P Require Import Prelude Common Artifact TypeSystem Terms Constraints Formulas AttributeQuery Premises Planner.

(** * What a premise binds and requires *)
Section categorize.
Implicit Types (schema : Schema) (params : Parameters) (env : Environment) (field : Field) (slots : list (string * Field)).

(** The variable of a slot that is open in an environment. *)
Definition open_variable params env (name : string) : option string :=
  match params !! name ≫= term_name with
  | Some n => if decide (n ∈ env) then None else Some n
  | None => None
  end.
Definition supplied (groups : gset Group) field : Prop :=
  match requirement field with
  | Required (Some group) => group ∈ groups
  | Required None => False
  | Optional => True
  end.
#[export] Instance supplied_dec groups field : Decision (supplied groups field).
Proof. unfold supplied. destruct (requirement field) as [[g|]|]; apply _. Defined.

Lemma categorize_slot_open groups params negation env binds requires name field :
  categorize_slot groups params negation env (binds, requires) (name, field) =
  match open_variable params env name with
  | None => (binds, requires)
  | Some n =>
      if decide (supplied groups field)
      then if negation then (binds, requires) else ({[n]} ∪ binds, requires)
      else (binds, {[n]} ∪ requires)
  end.
Proof.
  unfold categorize_slot, open_variable. destruct (params !! name) as [param|]; [|done]. simpl.
  destruct param as [[n|] d|v]; simpl; try done.
  destruct (decide (n ∈ env)) as [Hn|Hn]; [by rewrite bool_decide_true|rewrite bool_decide_false by done].
  destruct (decide (supplied groups field)) as [Hs|Hs]; unfold supplied in Hs;
    destruct (requirement field) as [[g|]|]; simpl; destruct negation; repeat case_decide; done.
Qed.

Lemma categorize_slot_elem groups params negation env acc name field n :
  let r := categorize_slot groups params negation env acc (name, field) in
  (n ∈ r.1 <-> n ∈ acc.1 \/ open_variable params env name = Some n /\ supplied groups field /\ negation = false) /\
  (n ∈ r.2 <-> n ∈ acc.2 \/ open_variable params env name = Some n /\ ~ supplied groups field).
Proof.
  destruct acc as [binds requires]. cbn zeta. rewrite categorize_slot_open.
  destruct (open_variable params env name) as [m|]; [|naive_solver].
  destruct (decide (supplied groups field)) as [Hs|Hs]; [destruct negation|]; simpl;
    rewrite ?elem_of_union, ?elem_of_singleton; naive_solver.
Qed.
Lemma categorize_loop groups params negation env slots acc n :
  let r := foldl (categorize_slot groups params negation env) acc slots in
  (n ∈ r.1 <-> n ∈ acc.1 \/ exists name field, (name, field) ∈ slots /\ open_variable params env name = Some n /\
     supplied groups field /\ negation = false) /\
  (n ∈ r.2 <-> n ∈ acc.2 \/ exists name field, (name, field) ∈ slots /\ open_variable params env name = Some n /\
     ~ supplied groups field).
Proof.
  cbn zeta. revert acc. induction slots as [|[name field] slots IH]; intros acc; cbn [foldl].
  - setoid_rewrite elem_of_nil. naive_solver.
  - destruct (IH (categorize_slot groups params negation env acc (name, field))) as [-> ->].
    destruct (categorize_slot_elem groups params negation env acc name field n) as [-> ->].
    setoid_rewrite elem_of_cons. naive_solver.
Qed.

Lemma categorize_spec schema params negation env n :
  let groups := satisfied_groups schema params env in
  let r := categorize schema params negation env in
  (n ∈ r.1 <-> exists name field, schema !! name = Some field /\ open_variable params env name = Some n /\
     supplied groups field /\ negation = false) /\
  (n ∈ r.2 <-> exists name field, schema !! name = Some field /\ open_variable params env name = Some n /\
     ~ supplied groups field).
Proof.
  cbn zeta. unfold categorize.
  destruct (categorize_loop (satisfied_groups schema params env) params negation env (map_to_list schema) (∅, ∅) n) as [H1 H2].
  rewrite H1, H2. setoid_rewrite elem_of_map_to_list. set_solver.
Qed.

Lemma is_bound_mono (param : Term) env env' : env ⊆ env' -> is_bound param env = true -> is_bound param env' = true.
Proof. destruct param as [[n|] d|v]; simpl; [|done..]. rewrite !bool_decide_eq_true. set_solver. Qed.
Lemma satisfied_groups_mono schema params env env' : env ⊆ env' ->
  satisfied_groups schema params env ⊆ satisfied_groups schema params env'.
Proof.
  intros He g. unfold satisfied_groups. rewrite !elem_of_list_to_set, !list_elem_of_omap.
  intros ((name & field) & Hin & Hg). exists (name, field). split; [done|].
  destruct (params !! name) as [param|]; [|done]. destruct (requirement field) as [[group|]|]; [|done..].
  destruct (is_constant param); [done|]. simpl in *.
  destruct (is_bound param env) eqn:E; [|done]. by rewrite (is_bound_mono _ _ _ He E).
Qed.
Lemma supplied_mono groups groups' field : groups ⊆ groups' -> supplied groups field -> supplied groups' field.
Proof. unfold supplied. destruct (requirement field) as [[g|]|]; set_solver. Qed.
Lemma open_variable_mono params env env' name n : env ⊆ env' ->
  open_variable params env' name = Some n -> open_variable params env name = Some n.
Proof. unfold open_variable. destruct (params !! name ≫= term_name) as [m|]; [|done]. intros He. repeat case_decide; set_solver. Qed.

(** More variables bound: less is required, and as much is bound in the end. *)
Lemma categorize_mono schema params negation env env' : env ⊆ env' ->
  (categorize schema params negation env').2 ⊆ (categorize schema params negation env).2 /\
  env ∪ (categorize schema params negation env).1 ⊆ env' ∪ (categorize schema params negation env').1.
Proof.
  intros He. pose proof (satisfied_groups_mono schema params _ _ He) as Hg. split.
  - intros n. destruct (categorize_spec schema params negation env n) as [_ ->].
    destruct (categorize_spec schema params negation env' n) as [_ ->].
    intros (name & field & Hs & Ho & Hn). exists name, field. split; [done|]. split; [by eapply open_variable_mono|].
    intros H. by eapply Hn, supplied_mono.
  - intros n. rewrite !elem_of_union. destruct (categorize_spec schema params negation env n) as [-> _].
    destruct (categorize_spec schema params negation env' n) as [-> _].
    intros [H|(name & field & Hs & Ho & Hn & Hneg)]; [left; set_solver|].
    destruct (decide (n ∈ env')) as [?|Hn']; [by left|right]. exists name, field. split; [done|]. split.
    + unfold open_variable in *. destruct (params !! name ≫= term_name) as [m|]; [|done]. case_decide; [done|].
      injection Ho as ->. by rewrite decide_False.
    + split; [by eapply supplied_mono|done].
Qed.
End categorize.

(** * Orders of premises *)
Lemma feasible_Ok premise env binds : feasible premise env = Ok binds ->
  binds = (categorize (premise_schema premise) (premise_parameters premise) (is_negation premise) env).1 /\
  (categorize (premise_schema premise) (premise_parameters premise) (is_negation premise) env).2 = ∅.
Proof. unfold feasible. destruct (categorize _ _ _ _) as [b r]. case_decide; [by intros [= ->]|done]. Qed.
Lemma feasible_cases premise env :
  (exists binds, feasible premise env = Ok binds) \/ (exists needs, feasible premise env = Err needs /\ needs <> ∅).
Proof. unfold feasible. destruct (categorize _ _ _ _) as [b r]. case_decide; eauto. Qed.

(** Feasible premises stay feasible, and lead to the same variables. *)
Lemma feasible_mono premise env env' binds : env ⊆ env' -> feasible premise env = Ok binds ->
  exists binds', feasible premise env' = Ok binds' /\ env' ∪ binds' = env' ∪ binds.
Proof.
  intros He [-> Hr]%feasible_Ok.
  pose proof (categorize_mono (premise_schema premise) (premise_parameters premise) (is_negation premise) env env' He) as [H1 H2].
  unfold feasible. destruct (categorize _ _ _ env') as [b r] eqn:E. simpl in *. rewrite decide_True by set_solver.
  eexists. split; [done|]. apply set_eq. intros n. split; [|set_solver]. rewrite !elem_of_union. intros [Hn|Hn]; [by left|].
  pose proof (categorize_spec (premise_schema premise) (premise_parameters premise) (is_negation premise) env' n) as [Hb _].
  rewrite E in Hb. apply Hb in Hn as (name & field & Hs & Ho & _ & Hneg). right.
  apply (open_variable_mono _ _ _ _ _ He) in Ho.
  apply (categorize_spec (premise_schema premise) (premise_parameters premise) (is_negation premise) env n).
  exists name, field. split_and!; [done..| |done].
  destruct (decide (supplied (satisfied_groups (premise_schema premise) (premise_parameters premise) env) field)) as [|Hn]; [done|].
  exfalso. apply (not_elem_of_empty (C := Environment) n). rewrite <- Hr.
  apply (categorize_spec (premise_schema premise) (premise_parameters premise) (is_negation premise) env n). eauto.
Qed.

(** In a schedule every premise is feasible once those before it have run. *)
Inductive schedule : Environment -> list Premise -> Prop :=
  | schedule_nil env : schedule env []
  | schedule_cons env premise binds premises :
      feasible premise env = Ok binds -> schedule (env ∪ binds) premises -> schedule env (premise :: premises).
Definition plannable (scope : Environment) (premises : list Premise) : Prop :=
  exists order, order ≡ₚ premises /\ schedule scope order.

Lemma schedule_mono env env' premises : env ⊆ env' -> schedule env premises -> schedule env' premises.
Proof.
  intros He H. revert env' He. induction H as [env|env premise binds premises Hf Hs IH]; intros env' He; [constructor|].
  destruct (feasible_mono _ _ _ _ He Hf) as (binds' & Hf' & Hb). econstructor; [done|]. rewrite Hb. apply IH. set_solver.
Qed.
Lemma plannable_mono env env' premises : env ⊆ env' -> plannable env premises -> plannable env' premises.
Proof. intros He (order & Hp & Hs). exists order. split; [done|]. by eapply schedule_mono. Qed.
(** A feasible premise can be taken first. *)
Lemma schedule_skip env before premise after binds : schedule env (before ++ premise :: after) ->
  feasible premise env = Ok binds -> schedule (env ∪ binds) (before ++ after).
Proof.
  revert env binds. induction before as [|q before IH]; intros env binds Hs Hf; simpl in *.
  - inversion Hs as [|? ? b ? Hf' Hs']; subst. rewrite Hf in Hf'. injection Hf' as ->. done.
  - inversion Hs as [|? ? b ? Hq Hs']; subst.
    destruct (feasible_mono _ _ _ _ (union_subseteq_l env b) Hf) as (binds' & Hf' & Hb').
    destruct (feasible_mono _ _ _ _ (union_subseteq_l env binds) Hq) as (b' & Hq' & Hb).
    econstructor; [done|]. rewrite Hb. replace (env ∪ binds ∪ b) with (env ∪ b ∪ binds') by set_solver.
    by apply IH.
Qed.
Lemma plannable_delete env premises index premise binds : premises !! index = Some premise ->
  feasible premise env = Ok binds -> plannable env premises -> plannable (env ∪ binds) (delete index premises).
Proof.
  intros Hi Hf (order & Hp & Hs). assert (Hin : premise ∈ order) by (rewrite Hp; by eapply list_elem_of_lookup_2).
  apply list_elem_of_split in Hin as (before & after & ->). exists (before ++ after). split; [|by eapply schedule_skip].
  apply (Permutation_cons_inv (a := premise)). rewrite Permutation_middle, Hp. by apply delete_Permutation.
Qed.
Lemma plannable_feasible env premises : premises <> [] -> plannable env premises ->
  exists premise binds, premise ∈ premises /\ feasible premise env = Ok binds.
Proof.
  intros Hne (order & Hp & Hs). destruct Hs as [|env premise binds rest Hf Hs].
  - by apply Permutation_nil_l in Hp.
  - exists premise, binds. split; [rewrite <- Hp; by left|done].
Qed.

(** * Costs *)
(** Premises that have an estimate whenever they are feasible: a query that is
    feasible by its cause only, or of blanks only, has none. *)
Definition all_blank (q : AttributeQueryAll) : bool := is_blank (query_the q) && is_blank (query_of q) && is_blank (query_is q).
Definition has_constant (q : AttributeQueryAll) : bool :=
  is_constant (query_the q) || is_constant (query_of q) || is_constant (query_is q).
Definition estimable (self : Premise) : bool :=
  match self with
  | Assert_ (AttributeProposition query) =>
      has_constant (inner query) || (is_blank (query_cause (inner query)) && negb (all_blank (inner query)))
  | Assert_ (OptionalAttribute query) => negb (is_blank (query_of (inner (optional_query query))))
  | Unless (AttributeProposition query) => negb (all_blank (inner query))
  | Unless (OptionalAttribute query) => negb (all_blank (inner (optional_query query)))
  | Assert_ (Concept query) | Unless (Concept query) => bool_decide (with_ (predicate query) <> [])
  | Assert_ (ConstraintProposition (Constraint.Equality c)) | Unless (ConstraintProposition (Constraint.Equality c)) =>
      negb (is_blank (this c) && is_blank (eq_is c))
  | _ => true
  end.

Lemma is_bound_widen term env : is_bound (widen term) env = is_bound term env.
Proof. by destruct term. Qed.
Lemma is_blank_widen term : is_blank (widen term) = is_blank term.
Proof. by destruct term. Qed.

(** A slot that a feasible premise needs is bound or blank. *)
Lemma feasible_required premise env binds name field term : feasible premise env = Ok binds ->
  premise_schema premise !! name = Some field -> premise_parameters premise !! name = Some term ->
  requirement field = Required None -> is_blank term = false -> is_bound term env = true.
Proof.
  intros [_ Hr]%feasible_Ok Hs Hp Hq Hb. destruct term as [[n|] d|v]; [|done..]. simpl. apply bool_decide_eq_true.
  destruct (decide (n ∈ env)) as [|Hn]; [done|]. exfalso. apply (not_elem_of_empty (C := Environment) n). rewrite <- Hr.
  apply categorize_spec. exists name, field. split; [done|]. split.
  - unfold open_variable. rewrite Hp. simpl. by rewrite decide_False.
  - unfold supplied. rewrite Hq. by intros [].
Qed.
(** A slot of a choice group that is open needs another slot that is not. *)
Lemma feasible_group premise env binds name field term g : feasible premise env = Ok binds ->
  premise_schema premise !! name = Some field -> premise_parameters premise !! name = Some term ->
  requirement field = Required (Some g) -> is_blank term = false -> is_bound term env = false ->
  exists name' field' term', premise_schema premise !! name' = Some field' /\ premise_parameters premise !! name' = Some term' /\
    requirement field' = Required (Some g) /\ is_bound term' env = true.
Proof.
  intros [_ Hr]%feasible_Ok Hs Hp Hq Hb Hnb. destruct term as [[n|] d|v]; [|done..]. simpl in Hnb.
  apply bool_decide_eq_false in Hnb.
  destruct (decide (g ∈ satisfied_groups (premise_schema premise) (premise_parameters premise) env)) as [Hg|Hg].
  - unfold satisfied_groups in Hg. rewrite elem_of_list_to_set, list_elem_of_omap in Hg.
    destruct Hg as ((name' & field') & Hin & Hg). apply elem_of_map_to_list in Hin.
    destruct (premise_parameters premise !! name') as [term'|] eqn:Ep; [|done].
    destruct (requirement field') as [[g'|]|] eqn:Er; [|done..].
    destruct (is_constant term' || is_bound term' env) eqn:Eb; [|done]. injection Hg as ->.
    exists name', field', term'. split_and!; [done..|]. by destruct term' as [[m|] d'|v]; simpl in *.
  - exfalso. apply (not_elem_of_empty (C := Environment) n). rewrite <- Hr.
    apply categorize_spec. exists name, field. split; [done|]. split.
    + unfold open_variable. rewrite Hp. simpl. by rewrite decide_False.
    + unfold supplied. by rewrite Hq.
Qed.

#[local] Opaque feasible.

(** Bounds on the estimates. *)
Definition proposition_limit (self : Proposition_) : N :=
  match self with Concept query => 1000 + 5100 * (1 + N.of_nat (length (with_ (predicate query)))) | _ => 5100 end%N.
Definition premise_limit (self : Premise) : N :=
  match self with Assert_ proposition => proposition_limit proposition | Unless proposition => proposition_limit proposition + 100 end%N.
Definition total_limit (premises : list Premise) : N := foldr (fun p n => (premise_limit p + n)%N) 0%N premises.

Lemma cardinality_estimate_some c a b d : a || b || d = true ->
  exists n, cardinality_estimate c a b d = Some n /\ (n <= 5100)%N.
Proof. destruct a, b, d, c; try done; intros _; eexists; (split; [reflexivity|vm_compute; congruence]). Qed.
Lemma attribute_estimate_known descriptor known_of known_is :
  cardinality_estimate (attribute_cardinality descriptor) true known_of known_is =
    Some (attribute_estimate descriptor known_of known_is) /\ (attribute_estimate descriptor known_of known_is <= 5100)%N.
Proof.
  unfold attribute_estimate.
  destruct (cardinality_estimate_some (attribute_cardinality descriptor) true known_of known_is eq_refl) as (n & -> & Hn). done.
Qed.
Lemma lookups_limit self env l total : (lookups self env l total <= total + 5100 * N.of_nat (length l))%N.
Proof.
  unfold lookups. revert total. induction l as [|[name field] l IH]; intros total; cbn [foldl length]; [lia|].
  etrans; [apply IH|]. pose proof (attribute_estimate_known (descriptor field) true (term_bound self env name)) as [_ H].
  unfold field_estimate. lia.
Qed.
Lemma leads_loop_some self env l acc : l <> [] \/ lead acc <> None -> lead (leads_loop self env l acc) <> None.
Proof.
  revert acc. induction l as [|[name field] l IH]; intros acc; simpl; [naive_solver|]. intros _.
  destruct acc as [[|] [|] [|] [|]], (term_bound self env name), (field_cardinality field); simpl; try done; apply IH; right; done.
Qed.
Lemma concept_estimate_some query env : with_ (predicate query) <> [] ->
  exists c, concept_estimate query env = Ok (Some c) /\ (c <= proposition_limit (Concept query))%N.
Proof.
  intros Hne. unfold concept_estimate. simpl. set (l := with_ (predicate query)) in *.
  destruct (term_bound query env "this").
  - eexists. split; [done|]. etrans; [apply lookups_limit|]. unfold CONCEPT_OVERHEAD. lia.
  - pose proof (leads_loop_some query env l (mkLeads None None None None) (or_introl Hne)) as Hl.
    destruct (lead _) as [[field bound]|]; [|done]. eexists. split; [done|]. etrans; [apply lookups_limit|].
    pose proof (attribute_estimate_known (descriptor field) false bound) as [_ Hf]. unfold field_estimate, CONCEPT_OVERHEAD.
    match goal with |- context [length ?f] => lazymatch f with filter _ _ => assert (length f <= length l)%nat by apply length_filter end end. lia.
Qed.

(** The slots of an attribute query are one choice group. *)
Lemma dynamic_slots query name field : dynamic_schema query !! name = Some field ->
  requirement field = Required (Some new_group) /\ (name = "the" \/ name = "of" \/ name = "is" \/ name = "cause").
Proof.
  unfold dynamic_schema, all_schema. cbv zeta. rewrite !lookup_insert_Some.
  intros [[<- <-]|[_ [[<- <-]|[_ [[<- <-]|[_ H]]]]]]; try (split; [done|tauto]).
  rewrite lookup_singleton_Some in H. destruct H as [<- <-]. split; [done|tauto].
Qed.
Lemma dynamic_parameters_cases query name term : dynamic_parameters query !! name = Some term ->
  term = widen (query_the (inner query)) \/ term = widen (query_of (inner query)) \/
  term = query_is (inner query) \/ term = widen (query_cause (inner query)).
Proof.
  unfold dynamic_parameters, all_parameters. rewrite !lookup_insert_Some, lookup_singleton_Some.
  intros [[_ <-]|[_ [[_ <-]|[_ [[_ <-]|[_ [_ <-]]]]]]]; tauto.
Qed.
(** What the maps of an attribute query and an equality hold. *)
Lemma dynamic_schema_some query name : name ∈ ["the"; "of"; "is"; "cause"] -> is_Some (dynamic_schema query !! name).
Proof.
  intros Hn. apply elem_of_dom. unfold dynamic_schema, all_schema. cbv zeta. rewrite !dom_insert_L, dom_singleton_L. set_solver.
Qed.
Lemma dynamic_parameters_lookup query :
  dynamic_parameters query !! "the" = Some (widen (query_the (inner query))) /\
  dynamic_parameters query !! "of" = Some (widen (query_of (inner query))) /\
  dynamic_parameters query !! "is" = Some (query_is (inner query)).
Proof.
  unfold dynamic_parameters, all_parameters. split; [by rewrite lookup_insert_eq|].
  split; [by rewrite lookup_insert_ne, lookup_insert_eq by done|].
  by rewrite !lookup_insert_ne, lookup_insert_eq by done.
Qed.
Lemma equality_slots c : (exists field, equality_schema c !! "this" = Some field /\ requirement field = Required (Some new_group)) /\
  (exists field, equality_schema c !! "is" = Some field /\ requirement field = Required (Some new_group)) /\
  equality_parameters c !! "this" = Some (this c) /\ equality_parameters c !! "is" = Some (eq_is c).
Proof.
  unfold equality_schema, equality_parameters. split_and!.
  - eexists. by rewrite lookup_insert_eq.
  - eexists. by rewrite lookup_insert_ne, lookup_singleton_eq by done.
  - by rewrite lookup_insert_eq.
  - by rewrite lookup_insert_ne, lookup_singleton_eq by done.
Qed.
Lemma equality_parameters_cases c name term : equality_parameters c !! name = Some term -> term = this c \/ term = eq_is c.
Proof.
  unfold equality_parameters. rewrite lookup_insert_Some, lookup_singleton_Some. intros [[_ <-]|[_ [_ <-]]]; tauto.
Qed.
Lemma optional_schema_of query : exists field, optional_schema query !! "of" = Some field /\ requirement field = Required None.
Proof.
  destruct (dynamic_schema_some query "of" ltac:(set_solver)) as [field Hf].
  unfold optional_schema. cbv zeta. rewrite !lookup_alter_ne, lookup_alter_eq, Hf by done. by eexists.
Qed.
Lemma all_blank_false q : all_blank q = false ->
  is_blank (query_the q) = false \/ is_blank (query_of q) = false \/ is_blank (query_is q) = false.
Proof. unfold all_blank. destruct (is_blank (query_the q)), (is_blank (query_of q)), (is_blank (query_is q)); simpl; tauto. Qed.
#[local] Opaque dynamic_schema dynamic_parameters equality_schema equality_parameters.

Lemma blank_not_constant t : is_blank t = true -> is_constant t = false.
Proof. by destruct t. Qed.
Lemma dynamic_known query env binds : feasible (Assert_ (AttributeProposition query)) env = Ok binds ->
  estimable (Assert_ (AttributeProposition query)) = true ->
  is_bound (query_the (inner query)) env || is_bound (query_of (inner query)) env || is_bound (query_is (inner query)) env = true.
Proof.
  intros Hf He. simpl in He. unfold has_constant, all_blank in He.
  assert (Hconst : forall t, is_constant t = true -> is_bound t env = true) by (by intros []).
  destruct (is_bound (query_the (inner query)) env) eqn:E1; [done|].
  destruct (is_bound (query_of (inner query)) env) eqn:E2; [done|].
  destruct (is_bound (query_is (inner query)) env) eqn:E3; [done|]. exfalso.
  assert (Hc : is_blank (query_cause (inner query)) = true).
  { destruct (is_constant (query_the (inner query))) eqn:C1; [by rewrite Hconst in E1|].
    destruct (is_constant (query_of (inner query))) eqn:C2; [by rewrite Hconst in E2|].
    destruct (is_constant (query_is (inner query))) eqn:C3; [by rewrite Hconst in E3|].
    by apply andb_true_iff in He as [? _]. }
  assert (Hopen : exists name term, dynamic_parameters query !! name = Some term /\ is_blank term = false /\ is_bound term env = false /\
            is_Some (dynamic_schema query !! name)).
  { destruct (dynamic_parameters_lookup query) as (P1 & P2 & P3).
    assert (Hb : all_blank (inner query) = false).
    { destruct (all_blank (inner query)) eqn:Eb; [|done]. unfold all_blank in Eb.
      rewrite !andb_true_iff in Eb. destruct Eb as [[B1 B2] B3].
      by rewrite Hc, (blank_not_constant _ B1), (blank_not_constant _ B2), (blank_not_constant _ B3), B1, B2, B3 in He. }
    assert (Hs : forall name, name ∈ ["the"; "of"; "is"; "cause"] -> is_Some (dynamic_schema query !! name)) by apply dynamic_schema_some.
    apply all_blank_false in Hb as [Hb|[Hb|Hb]].
    - exists "the", (widen (query_the (inner query))). rewrite is_blank_widen, is_bound_widen. auto using list_elem_of_here.
    - exists "of", (widen (query_of (inner query))). rewrite is_blank_widen, is_bound_widen. auto using list_elem_of_here, list_elem_of_further.
    - exists "is", (query_is (inner query)). auto using list_elem_of_here, list_elem_of_further. }
  destruct Hopen as (name & term & Hp & Hb & Hn & [field Hs]).
  destruct (dynamic_slots _ _ _ Hs) as [Hr _].
  destruct (feasible_group _ _ _ name field term new_group Hf Hs Hp Hr Hb Hn) as (name' & field' & term' & Hs' & Hp' & _ & Hbound).
  apply dynamic_parameters_cases in Hp' as [->|[->|[->| ->]]]; rewrite ?is_bound_widen in Hbound; try congruence.
  destruct (query_cause (inner query)) as [[|]|]; done.
Qed.

Lemma negation_bound proposition env binds name term : feasible (Unless proposition) env = Ok binds ->
  is_Some (proposition_schema proposition !! name) -> proposition_parameters proposition !! name = Some term ->
  is_blank term = false -> is_bound term env = true.
Proof.
  intros Hf [field Hs] Hp Hb.
  eapply (feasible_required _ _ _ name (mkField (content_type field) (Required None) (cardinality field)) term Hf); [|done..].
  simpl. unfold negation_schema. rewrite map_lookup_imap, Hs. simpl. by rewrite Hp, Hb.
Qed.
Lemma optional_schema_some query name : is_Some (dynamic_schema query !! name) -> is_Some (optional_schema query !! name).
Proof.
  intros H. unfold optional_schema. cbv zeta. rewrite !lookup_alter. repeat case_decide; simpl; rewrite ?fmap_is_Some; done.
Qed.
Lemma negation_known proposition query env binds : feasible (Unless proposition) env = Ok binds ->
  (forall name, is_Some (dynamic_schema query !! name) -> is_Some (proposition_schema proposition !! name)) ->
  proposition_parameters proposition = dynamic_parameters query -> all_blank (inner query) = false ->
  is_bound (query_the (inner query)) env || is_bound (query_of (inner query)) env || is_bound (query_is (inner query)) env = true.
Proof.
  intros Hf Hs Hp Hb.
  assert (H : forall name term, dynamic_parameters query !! name = Some term -> is_Some (dynamic_schema query !! name) ->
            is_blank term = false -> is_bound term env = true).
  { intros name term Hn Hi. apply (negation_bound _ _ _ _ _ Hf (Hs _ Hi)). by rewrite Hp. }
  destruct (dynamic_parameters_lookup query) as (P1 & P2 & P3).
  pose proof (H "the" _ P1 ltac:(apply dynamic_schema_some; set_solver)) as H1.
  pose proof (H "of" _ P2 ltac:(apply dynamic_schema_some; set_solver)) as H2.
  pose proof (H "is" _ P3 ltac:(apply dynamic_schema_some; set_solver)) as H3. rewrite ?is_blank_widen, ?is_bound_widen in *.
  apply all_blank_false in Hb as [Hb|[Hb|Hb]]; [rewrite H1 by done|rewrite H2 by done|rewrite H3 by done]; by rewrite ?orb_true_r.
Qed.
Lemma equality_known c env binds : feasible (Assert_ (ConstraintProposition (Constraint.Equality c))) env = Ok binds ->
  is_blank (this c) && is_blank (eq_is c) = false -> is_bound (this c) env || is_bound (eq_is c) env = true.
Proof.
  intros Hf Hb. destruct (is_bound (this c) env) eqn:E1; [done|]. destruct (is_bound (eq_is c) env) eqn:E2; [done|]. exfalso.
  assert (Hopen : exists name term, equality_parameters c !! name = Some term /\ is_blank term = false /\ is_bound term env = false /\
            exists field, equality_schema c !! name = Some field /\ requirement field = Required (Some new_group)).
  { destruct (is_blank (this c)) eqn:B1.
    - exists "is", (eq_is c). destruct (equality_slots c) as (_ & ? & _ & ?). auto.
    - exists "this", (this c). destruct (equality_slots c) as (? & _ & ? & _). auto. }
  destruct Hopen as (name & term & Hp & Hbl & Hn & field & Hs & Hr).
  destruct (feasible_group _ _ _ name field term new_group Hf Hs Hp Hr Hbl Hn) as (name' & field' & term' & _ & Hp' & _ & Hbound).
  apply equality_parameters_cases in Hp' as [-> | ->]; congruence.
Qed.

(** A feasible premise that is estimable has an estimate. *)
Lemma estimate_some premise env binds : feasible premise env = Ok binds -> estimable premise = true ->
  exists c, premise_estimate premise env = Ok (Some c) /\ (c <= premise_limit premise)%N.
Proof.
  intros Hf He.
  assert (Hknown : forall query, 
    is_bound (query_the (inner query)) env || is_bound (query_of (inner query)) env || is_bound (query_is (inner query)) env = true ->
    exists c, dynamic_estimate query env = Some c /\ (c <= 5100)%N) by (intros query; apply cardinality_estimate_some).
  destruct premise as [p|p]; destruct p as [q|q|q|q|c].
  - simpl in *. apply concept_estimate_some. by apply bool_decide_eq_true in He.
  - eexists. split; [done|]. destruct (formula q); simpl; lia.
  - destruct (Hknown q (dynamic_known _ _ _ Hf He)) as (n & Hn & Hl). exists n. cbn [premise_estimate proposition_estimate]. rewrite Hn. auto.
  - destruct (optional_schema_of (optional_query q)) as (field & Hs & Hr).
    assert (Hb : is_bound (query_of (inner (optional_query q))) env = true).
    { rewrite <- is_bound_widen. eapply (feasible_required _ _ _ "of" _ _ Hf Hs); [apply dynamic_parameters_lookup|done|].
      rewrite is_blank_widen. simpl in He. by apply negb_true_iff in He. }
    destruct (Hknown (optional_query q)) as (n & Hn & Hl); [by rewrite Hb, orb_true_r|]. exists n. cbn [premise_estimate proposition_estimate]. rewrite Hn. auto.
  - destruct c as [c|c|c|c|c]; [|exists 1%N; (split; [reflexivity|vm_compute; discriminate])..].
    exists 1%N. split; [|vm_compute; discriminate]. cbn [premise_estimate proposition_estimate constraint_estimate].
    unfold equality_estimate. rewrite (equality_known _ _ _ Hf); [reflexivity|]. by apply negb_true_iff in He.
  - simpl in *. destruct (concept_estimate_some q env) as (n & -> & Hn); [by apply bool_decide_eq_true in He|].
    eexists. split; [done|]. unfold NEGATION_OVERHEAD. simpl in Hn. lia.
  - eexists. split; [done|]. unfold NEGATION_OVERHEAD. destruct (formula q); simpl; lia.
  - destruct (Hknown q) as (n & Hn & Hl).
    { apply (negation_known _ _ _ _ Hf); [done..|]. simpl in He. by apply negb_true_iff in He. }
    exists (n + 100)%N. cbn [premise_estimate proposition_estimate premise_limit proposition_limit]. rewrite Hn. split; [reflexivity|lia].
  - destruct (Hknown (optional_query q)) as (n & Hn & Hl).
    { apply (negation_known _ _ _ _ Hf); [apply optional_schema_some|done|]. simpl in He. by apply negb_true_iff in He. }
    exists (n + 100)%N. cbn [premise_estimate proposition_estimate premise_limit proposition_limit]. rewrite Hn. split; [reflexivity|lia].
  - destruct c as [c|c|c|c|c]; [|exists 101%N; (split; [reflexivity|vm_compute; discriminate])..].
    exists 101%N. split; [|vm_compute; discriminate]. cbn [premise_estimate proposition_estimate constraint_estimate].
    unfold equality_estimate.
    assert (Hb : is_bound (this c) env || is_bound (eq_is c) env = true); [|rewrite Hb; reflexivity].
    simpl in He. apply negb_true_iff in He.
    destruct (equality_slots c) as ((f1 & S1 & _) & (f2 & S2 & _) & P1 & P2).
    pose proof (negation_bound _ _ _ "this" _ Hf ltac:(by eexists) P1) as H1.
    pose proof (negation_bound _ _ _ "is" _ Hf ltac:(by eexists) P2) as H2.
    destruct (is_blank (this c)); [|by rewrite H1]. destruct (is_blank (eq_is c)); [done|]. by rewrite H2, orb_true_r.
Qed.

(** * The loop *)
(** The steps of a plan: each is the cheapest feasible premise that is left. *)
Inductive greedy : Environment -> list Premise -> list Plan -> Prop :=
  | greedy_nil env : greedy env [] []
  | greedy_step env remaining index premise binds cost rest :
      remaining !! index = Some premise -> feasible premise env = Ok binds -> premise_estimate premise env = Ok (Some cost) ->
      (forall other binds' cost', other ∈ remaining -> feasible other env = Ok binds' ->
         premise_estimate other env = Ok (Some cost') -> (cost <= cost')%N) ->
      greedy (env ∪ binds) (delete index remaining) rest ->
      greedy env remaining (lower premise (mkHeader cost binds env) :: rest).
Definition total_cost (steps : list Plan) : N := foldr (fun step n => (plan_cost step + n)%N) 0%N steps.
Definition all_binds (steps : list Plan) : Environment := ⋃ (plan_binds <$> steps).

Lemma lower_header premise header : plan_header (lower premise header) = header.
Proof. by destruct premise as [[]|[]]. Qed.
Lemma as_premise_lower premise header : as_premise (lower premise header) = premise.
Proof. by destruct premise as [[]|[]]. Qed.
Lemma greedy_premises env remaining steps : greedy env remaining steps -> as_premise <$> steps ≡ₚ remaining.
Proof.
  induction 1 as [env|env remaining index premise binds cost rest Hi Hf He Hmin Hg IH]; [done|].
  rewrite fmap_cons, as_premise_lower, IH. symmetry. by apply delete_Permutation.
Qed.
Lemma greedy_schedule env remaining steps : greedy env remaining steps -> schedule env (as_premise <$> steps).
Proof.
  induction 1 as [env|env remaining index premise binds cost rest Hi Hf He Hmin Hg IH]; [constructor|].
  rewrite fmap_cons, as_premise_lower. by econstructor.
Qed.

Lemma cheapest_spec bound index remaining best : Forall (fun p => estimable p = true) remaining ->
  exists r, cheapest bound index remaining best = Ok r /\
  match r with
  | None => best = None /\ (forall p binds, p ∈ remaining -> feasible p bound <> Ok binds)
  | Some (cost, j, binds) =>
      (best = Some (cost, j, binds) \/ exists k p, j = (index + k)%nat /\ remaining !! k = Some p /\
         feasible p bound = Ok binds /\ premise_estimate p bound = Ok (Some cost)) /\
      (forall p binds' cost', p ∈ remaining -> feasible p bound = Ok binds' ->
         premise_estimate p bound = Ok (Some cost') -> (cost <= cost')%N) /\
      (forall c j' b', best = Some (c, j', b') -> (cost <= c)%N)
  end.
Proof.
  intros Hall. revert index best. induction Hall as [|p remaining Hp Hall IH]; intros index best; cbn [cheapest].
  - exists best. split; [done|]. destruct best as [[[c j] b]|].
    + split; [by left|]. split; [by intros ? ? ? []%elem_of_nil|]. by intros ? ? ? [= -> _ _].
    + split; [done|]. by intros ? ? []%elem_of_nil.
  - destruct (feasible_cases p bound) as [[binds Hf]|(needs & Hf & _)]; rewrite Hf.
    + destruct (estimate_some _ _ _ Hf Hp) as (c & He & _). rewrite He. change (default USIZE_MAX (Some c)) with c.
      match goal with |- context [cheapest bound (S index) remaining ?b] => set (best' := b) end.
      destruct (IH (S index) best') as (r & -> & Hr). exists r. split; [done|].
      assert (Hbest' : exists c' j' b', best' = Some (c', j', b') /\ (c' <= c)%N /\ (forall c0 j0 b0, best = Some (c0, j0, b0) -> (c' <= c0)%N) /\
                (best = Some (c', j', b') \/ (c' = c /\ j' = index /\ b' = binds))).
      { subst best'. destruct best as [[[c0 j0] b0]|]; cbv beta iota.
        - destruct (c <? c0)%N eqn:El.
          + apply N.ltb_lt in El. exists c, index, binds. split; [done|]. split; [lia|]. split; [|by right].
            intros ? ? ? [= <- _ _]. lia.
          + apply N.ltb_ge in El. exists c0, j0, b0. split; [done|]. split; [done|]. split; [|by left].
            by intros ? ? ? [= <- _ _].
        - exists c, index, binds. split; [done|]. split; [done|]. split; [done|]. by right. }
      destruct Hbest' as (c' & j' & b' & Hb' & Hc' & Hc0 & Hor). destruct r as [[[cost j] b]|].
      2:{ destruct Hr as [Hr _]. by rewrite Hb' in Hr. }
      destruct Hr as (Hsrc & Hmin & Hle). pose proof (Hle _ _ _ Hb') as Hcc.
      split; [|split].
      * destruct Hsrc as [Hsrc|(k & q & -> & Hk & Hq & Heq)].
        -- rewrite Hb' in Hsrc. injection Hsrc as -> -> ->. destruct Hor as [Hor|(-> & -> & ->)]; [by left|right].
           exists 0%nat, p. split; [lia|done].
        -- right. exists (S k), q. split; [lia|done].
      * intros q binds' cost' [->|Hq]%elem_of_cons Hfq Heq; [|by eapply Hmin].
        rewrite He in Heq. injection Heq as ->. lia.
      * intros c0 j0 b0 Hb. pose proof (Hc0 _ _ _ Hb). lia.
    + destruct (IH (S index) best) as (r & -> & Hr). exists r. split; [done|]. destruct r as [[[cost j] b]|].
      * destruct Hr as (Hsrc & Hmin & Hle). split; [|split; [|done]].
        -- destruct Hsrc as [Hsrc|(k & q & -> & Hk & Hq)]; [by left|right]. exists (S k), q. split; [lia|done].
        -- intros q binds' cost' [->|Hq]%elem_of_cons Hfq; [congruence|by eapply Hmin].
      * destruct Hr as [Hb Hn]. split; [done|]. intros q binds [->|Hq]%elem_of_cons; [congruence|by apply Hn].
Qed.

Lemma plan_fail_spec {A} remaining env : remaining <> [] -> (forall p binds, p ∈ remaining -> feasible p env <> Ok binds) ->
  exists needs, plan_fail (A := A) remaining env = Err (RequiredBindings needs) /\ needs <> ∅.
Proof.
  destruct remaining as [|p remaining]; [done|]. intros _ H. simpl.
  destruct (feasible_cases p env) as [[binds Hf]|(needs & Hf & Hne)]; [by destruct (H p binds); [left|]|].
  rewrite Hf, decide_False by done. by exists needs.
Qed.
Lemma total_limit_delete remaining index p : remaining !! index = Some p ->
  total_limit remaining = (premise_limit p + total_limit (delete index remaining))%N.
Proof.
  revert index. induction remaining as [|q remaining IH]; intros [|index]; simpl; try done.
  - by intros [= ->].
  - intros Hi. rewrite (IH _ Hi). lia.
Qed.

Lemma plan_loop_spec fuel remaining bound steps cost : (length remaining <= fuel)%nat ->
  Forall (fun p => estimable p = true) remaining -> (cost + total_limit remaining <= USIZE_MAX)%N ->
  match plan_loop fuel remaining bound steps cost with
  | Ok (steps', cost', bound') => exists rest, steps' = steps ++ rest /\ greedy bound remaining rest /\
      cost' = (cost + total_cost rest)%N /\ bound' = bound ∪ all_binds rest
  | Err (RequiredBindings needs) => needs <> ∅ /\ ~ plannable bound remaining
  | _ => False
  end.
Proof.
  revert remaining bound steps cost. induction fuel as [|fuel IH]; intros remaining bound steps cost Hlen Hall Hcost.
  - destruct remaining; [|simpl in Hlen; lia]. simpl. exists []. rewrite app_nil_r. split; [done|]. split; [constructor|].
    split; [simpl; lia|]. unfold all_binds. set_solver.
  - destruct remaining as [|p0 remaining0] eqn:Er.
    { simpl. exists []. rewrite app_nil_r. split; [done|]. split; [constructor|]. split; [simpl; lia|]. unfold all_binds. set_solver. }
    rewrite <- Er in *. assert (Hne : remaining <> []) by (by rewrite Er). clear Er p0 remaining0.
    replace (plan_loop (S fuel) remaining bound steps cost) with
      (best ← cheapest bound 0 remaining None;
       match best with
       | None => plan_fail remaining bound
       | Some (step_cost, index, binds) =>
           premise ← index_or_panic remaining index;
           cost ← checked_add cost step_cost;
           plan_loop fuel (delete index remaining) (bound ∪ binds)
             (steps ++ [lower premise (mkHeader step_cost binds bound)]) cost
       end) by (by destruct remaining).
    destruct (cheapest_spec bound 0 remaining None Hall) as (r & -> & Hr). rewrite bind_Ok. destruct r as [[[c j] b]|].
    + destruct Hr as ([Hbest|(k & p & -> & Hk & Hf & He)] & Hmin & _); [discriminate Hbest|]. simpl plus.
      unfold index_or_panic. rewrite Hk, bind_Ok.
      destruct (estimate_some _ _ _ Hf) as (c' & He' & Hc'); [exact (Forall_lookup_1 _ _ _ _ Hall Hk)|].
      rewrite He in He'. injection He' as <-. pose proof (total_limit_delete _ _ _ Hk) as Hd.
      unfold checked_add. rewrite (proj2 (N.leb_le _ _)) by lia. rewrite bind_Ok.
      specialize (IH (delete k remaining) (bound ∪ b) (steps ++ [lower p (mkHeader c b bound)]) (cost + c)%N).
      assert (Hlen' : (length (delete k remaining) <= fuel)%nat).
      { rewrite length_delete by (by eexists). apply lookup_lt_Some in Hk. lia. }
      specialize (IH Hlen' (Forall_delete _ _ _ Hall) ltac:(lia)).
      destruct (plan_loop _ _ _ _ _) as [[[steps' cost'] bound']|[]| |]; try done.
      * destruct IH as (rest & -> & Hg & -> & ->). exists (lower p (mkHeader c b bound) :: rest).
        split; [by rewrite <- app_assoc|]. split; [by eapply greedy_step|].
        unfold total_cost, all_binds. cbn [foldr fmap list_fmap union_list].
        unfold plan_cost, plan_binds. rewrite lower_header. simpl. split; [lia|]. by rewrite (assoc_L (∪)).
      * destruct IH as [Hn Hp]. split; [done|]. intros H. apply Hp. by eapply plannable_delete.
    + destruct Hr as [_ Hn]. destruct (plan_fail_spec (A := list Plan * N * Environment) _ _ Hne Hn) as (needs & -> & Hneeds).
      split; [done|]. intros H. destruct (plannable_feasible _ _ Hne H) as (p & b & Hin & Hf). by eapply Hn.
Qed.


(** A rule whose premises can be planned with nothing bound can be planned
    whatever the caller has bound: the [expect] of [DeductiveRule::plan] never fails. *)
Lemma plannable_in_scope premises types scope :
  Forall (fun p => estimable p = true) ((fun premise => apply_types premise types) <$> premises) ->
  (total_limit ((fun premise => apply_types premise types) <$> premises) <= USIZE_MAX)%N ->
  is_ok (planner_plan premises types ∅) = true ->
  is_ok (planner_plan premises types scope) = true.
Proof.
  set (narrowed := (fun premise => apply_types premise types) <$> premises). intros Hall Hcost. unfold planner_plan. fold narrowed.
  pose proof (plan_loop_spec (length narrowed) narrowed ∅ [] 0%N (le_n _) Hall Hcost) as H0.
  pose proof (plan_loop_spec (length narrowed) narrowed scope [] 0%N (le_n _) Hall Hcost) as H.
  destruct (plan_loop _ narrowed ∅ _ _) as [[[steps cost] bound]|[]| |]; try done. intros _.
  destruct (plan_loop _ narrowed scope _ _) as [[[steps' cost'] bound']|[]| |]; try done.
  destruct H as [_ []]. destruct H0 as (rest & _ & Hg & _). apply (plannable_mono ∅); [set_solver|].
  exists (as_premise <$> rest). split; [by eapply greedy_premises|by eapply greedy_schedule].
Qed.
