(* ===== verification/InferenceCorrect.v ===== *)
(** Type inference for rules without formulas: each slot of a premise gives the
    variable in it a kind, and the type inferred for a variable is the meet of
    them. *)
From S2P Require Import Prelude Common Artifact TypeSystem Terms Unifier UnifierCorrect Premises Planner.

Section inference.
Context `{HashOrder}.
Implicit Types (ctx : Context) (equations : list (string * Kind.t)) (b : Binding).

(** What the slots of a premise say: the variable and the kind of its slot. *)
Definition slot_equation (params : Parameters) (slot : string * Field) : option (string * Kind.t) :=
  name ← params !! slot.1 ≫= term_name; Some (name, default (Kind.Primitive ALL) (content_type slot.2)).
Definition premise_equations (premise : Premise) : list (string * Kind.t) :=
  match premise with
  | Assert_ proposition => omap (slot_equation (proposition_parameters proposition)) (hash_iter (proposition_schema proposition))
  | Unless _ => []
  end.
Definition is_formula (premise : Premise) : bool := match premise with Assert_ (FormulaProposition _) => true | _ => false end.
Definition meets equations (name : string) b : Prop := forall kind, (name, kind) ∈ equations -> inhabits b kind = true.

(** A context that knows a set of equations; without formulas no variables are
    linked. *)
Definition entry ctx (id : VarId) b : Prop := satisfies_entry (fun _ => b) ctx id.
Record knows equations ctx : Prop := {
  knows_wf : well_formed ctx;
  knows_flat : forall id next, substitution ctx !! id <> Some (InferredVariable next);
  knows_names : forall name, is_Some (names ctx !! name) <-> exists kind, (name, kind) ∈ equations;
  knows_typed : forall name id, names ctx !! name = Some id -> is_Some (substitution ctx !! id);
  knows_entry : forall name id b, names ctx !! name = Some id -> entry ctx id b <-> meets equations name b
}.
Lemma knows_new : knows [] context_new.
Proof.
  destruct context_new_spec as [Hwf _]. split; [done|done| |done|done].
  intros name. split; [by intros [? ?]|by intros [? ?%not_elem_of_nil]].
Qed.

Lemma named_entry ctx name : well_formed ctx -> (forall id next, substitution ctx !! id <> Some (InferredVariable next)) ->
  let '(ctx', id) := var_for_name ctx name in
  (forall i, names ctx !! name = Some i -> i = id) /\
  (forall other, other <> name -> names ctx' !! other = names ctx !! other) /\
  substitution ctx' = substitution ctx /\
  (forall i b, (i < next_id ctx)%N -> entry ctx' i b <-> entry ctx i b) /\
  (names ctx !! name = None -> forall b, entry ctx' id b).
Proof.
  intros Hwf Hflat. unfold var_for_name. destruct (names ctx !! name) as [id|] eqn:E.
  - split; [by intros i [= ->]|]. done.
  - simpl. split; [done|]. split; [intros other Hne; by rewrite lookup_insert_ne|]. split; [done|]. split.
    + intros i b Hi. unfold entry, satisfies_entry, constraint. simpl. rewrite lookup_insert_ne by lia. done.
    + intros _ b. unfold entry, satisfies_entry, constraint. simpl.
      destruct (substitution ctx !! next_id ctx) as [t|] eqn:Es; [apply (wf_bound _ Hwf) in Es; lia|].
      rewrite lookup_insert_eq. apply inhabits_ANY.
Qed.

(** The kind of one slot. *)
Lemma infer_equation equations ctx name kind : knows equations ctx ->
  let '(ctx', id) := var_for_name ctx name in
  match unify ctx' (lift kind) (InferredVariable id) with
  | Ok (ctx'', _) => knows ((name, kind) :: equations) ctx''
  | Err _ => forall v, ~ meets ((name, kind) :: equations) name (Present v)
  | _ => False
  end.
Proof.
  intros [Hwf Hflat Hnames Htyped Hentry]. pose proof (named_entry ctx name Hwf Hflat) as Hn. pose proof (var_for_name_spec ctx name Hwf) as Hs.
  destruct (var_for_name ctx name) as [ctx' id]. destruct Hn as (Hsame & Hothers & Hsub & Hold & Hfresh).
  destruct Hs as (Hwf' & Hid & Hle & Hname & _). rewrite <- Hsub in Hflat.
  assert (Hterm : terminal ctx' id) by (intros next; apply Hflat).
  assert (Hmeets : forall b, entry ctx' id b <-> meets equations name b).
  { intros b. destruct (names ctx !! name) as [i|] eqn:E.
    - rewrite <- (Hsame i eq_refl). by rewrite Hold, (Hentry name i b E) by (by apply (wf_names _ Hwf) in E).
    - split; [|by intros _; apply Hfresh]. intros _ k Hk. assert (is_Some (names ctx !! name)) as [? ?] by (apply Hnames; eauto). congruence. }
  assert (Hcons : forall b, meets ((name, kind) :: equations) name b <-> inhabits b kind = true /\ meets equations name b).
  { intros b. unfold meets. setoid_rewrite elem_of_cons. naive_solver. }
  cbn [unify lift].
  pose proof (unify_static_root ctx' id id kind 0 Hwf' (path_here _ _) Hterm ltac:(lia) Hid) as Hu.
  destruct (unify_static ctx' id kind) as [[ctx'' t]|e|m|]; [| |done|done].
  - destruct Hu as (resolved & -> & -> & Hex & Himp). split.
    + by apply well_formed_static.
    + intros i next. simpl. destruct (decide (i = id)) as [->|Hne]; [by rewrite lookup_insert_eq|].
      rewrite lookup_insert_ne by done. apply Hflat.
    + intros other. simpl. destruct (decide (other = name)) as [->|Hne].
      * rewrite Hname. split; [intros _; exists kind; by left|by intros _].
      * rewrite (Hothers other Hne), Hnames. setoid_rewrite elem_of_cons. naive_solver.
    + intros other i. simpl. destruct (decide (i = id)) as [->|Hne]; [by rewrite lookup_insert_eq|].
      rewrite lookup_insert_ne by done. destruct (decide (other = name)) as [->|Ho]; [congruence|].
      rewrite (Hothers other Ho), Hsub. apply Htyped.
    + intros other i b. simpl. unfold entry, satisfies_entry, constraint. simpl. intros Hi.
      destruct (decide (i = id)) as [->|Hne].
      * assert (other = name) as -> by exact (wf_distinct _ Hwf' _ _ _ Hi Hname). rewrite lookup_insert_eq, Hcons, <- Hmeets.
        split; [intros Hb|intros [Hk Hb]].
        -- pose proof (Himp (fun _ => b) Hb) as He. split; [|exact He]. by rewrite <- (Hex (fun _ => b) He).
        -- by rewrite (Hex (fun _ => b) Hb).
      * assert (other <> name) as Ho by (intros ->; congruence). rewrite !lookup_insert_ne by done.
        rewrite (Hothers other Ho) in Hi. pose proof (Hold i b ltac:(by apply (wf_names _ Hwf) in Hi)) as Hb.
        unfold entry, satisfies_entry, constraint in Hb. rewrite Hb.
        transitivity (meets equations other b); [exact (Hentry other i b Hi)|].
        unfold meets. setoid_rewrite elem_of_cons. naive_solver.
  - intros v Hv. apply Hcons in Hv as [Hk Hm]. apply Hmeets in Hm. by discriminate (Hu (fun _ => Present v) Hm Hk).
Qed.

(** The slots of a premise, and the premises of a rule. *)
Definition outcome_of (equations : list (string * Kind.t)) (known : list (string * Kind.t)) (o : outcome InferenceError Context) : Prop :=
  match o with
  | Ok ctx => knows (reverse equations ++ known) ctx
  | Err (Conflict name _) => forall v, ~ meets (equations ++ known) name (Present v)
  | _ => False
  end.
Lemma meets_perm l k name b : l ≡ₚ k -> meets l name b -> meets k name b.
Proof. intros Hp Hm kind Hk. apply Hm. by rewrite Hp. Qed.
Lemma outcome_cons name kind equations known o :
  outcome_of equations ((name, kind) :: known) o -> outcome_of ((name, kind) :: equations) known o.
Proof.
  destruct o as [ctx|[var reason]| |]; simpl; [|intros Hc v Hm; apply (Hc v)|done..].
  - by rewrite reverse_cons, <- app_assoc.
  - eapply meets_perm; [|exact Hm]. by rewrite Permutation_middle.
Qed.
Lemma infer_slot_step params known ctx slot : knows known ctx ->
  match slot_equation params slot with
  | None => infer_slot params ctx slot = Ok ctx
  | Some equation => outcome_of [equation] known (infer_slot params ctx slot)
  end.
Proof.
  intros Hk. destruct slot as [slot field]. unfold slot_equation, infer_slot. cbn [fst snd].
  destruct (params !! slot ≫= term_name) as [name|]; [|done]. cbn [mbind option_bind].
  pose proof (infer_equation known ctx name (default (Kind.Primitive ALL) (content_type field)) Hk) as Hu.
  destruct (var_for_name ctx name) as [ctx' id]. unfold blame. destruct (unify ctx' _ _) as [[ctx'' t]|e| |]; exact Hu.
Qed.
Lemma infer_slots params slots : forall known ctx, knows known ctx ->
  outcome_of (omap (slot_equation params) slots) known (fold_outcome (infer_slot params) ctx slots).
Proof.
  induction slots as [|slot slots IH]; intros known ctx Hk; [done|]. cbn [fold_outcome].
  pose proof (infer_slot_step params known ctx slot Hk) as Hs. change (omap (slot_equation params) (slot :: slots)) with
    (match slot_equation params slot with Some e => e :: omap (slot_equation params) slots | None => omap (slot_equation params) slots end).
  destruct (slot_equation params slot) as [[name kind]|].
  - apply outcome_cons. destruct (infer_slot params ctx slot) as [ctx'|[var reason]| |]; [by apply IH| |destruct Hs..].
    intros v Hm. apply (Hs v). intros k Hin. apply Hm. apply elem_of_app. right. set_solver.
  - rewrite Hs. by apply IH.
Qed.
Lemma infer_premise_step premise known ctx : is_formula premise = false -> knows known ctx ->
  outcome_of (premise_equations premise) known (infer_premise ctx premise).
Proof.
  intros Hf Hk. destruct premise as [[]|p]; try done; cbn [infer_premise premise_equations]; by apply infer_slots.
Qed.
Lemma outcome_app first second known o :
  outcome_of second (reverse first ++ known) o -> outcome_of (first ++ second) known o.
Proof.
  destruct o as [ctx|[var reason]| |]; simpl; [|intros Hc v Hm; apply (Hc v)|done..].
  - by rewrite reverse_app, <- app_assoc.
  - eapply meets_perm; [|exact Hm]. rewrite reverse_Permutation, (Permutation_app_comm first second). by rewrite app_assoc.
Qed.
Lemma infer_premises premises : Forall (fun premise => is_formula premise = false) premises -> forall known ctx, knows known ctx ->
  outcome_of (premises ≫= premise_equations) known (fold_outcome infer_premise ctx premises).
Proof.
  induction 1 as [|premise premises Hf _ IH]; intros known ctx Hk; [done|]. cbn [fold_outcome].
  pose proof (infer_premise_step premise known ctx Hf Hk) as Hp. rewrite bind_cons. apply outcome_app.
  destruct (infer_premise ctx premise) as [ctx'|[var reason]| |]; [by apply IH| |destruct Hp..].
  intros v Hm. apply (Hp v). intros k Hin. apply Hm. rewrite !elem_of_app, elem_of_reverse. apply elem_of_app in Hin. tauto.
Qed.

(** ** The types of the variables *)
Lemma resolve_names ctx equations : knows equations ctx -> forall entries types,
  (forall name id, (name, id) ∈ entries -> names ctx !! name = Some id) -> NoDup entries.*1 ->
  exists types', fold_outcome (resolve_name ctx) types entries = Ok types' /\
    forall name, match types' !! name with
      | Some kind => (exists id, (name, id) ∈ entries /\ forall b, inhabits b kind = true <-> meets equations name b) \/
          ((name ∉ entries.*1) /\ types !! name = Some kind)
      | None => (name ∉ entries.*1) /\ types !! name = None
      end.
Proof.
  intros Hk. induction entries as [|[name id] entries IH]; intros types Hin Hnd.
  - exists types. split; [done|]. intros name. destruct (types !! name); [right|]; (split; [apply not_elem_of_nil|done]).
  - apply NoDup_cons in Hnd as [Hnot Hnd]. pose proof (Hin name id ltac:(by left)) as Hname. cbn [fold_outcome].
    destruct (knows_typed _ _ Hk name id Hname) as [t Ht]. destruct t as [kind|next]; [|by destruct (knows_flat _ _ Hk id next)].
    assert (resolve_name ctx types (name, id) = Ok (<[name := kind]> types)) as ->.
    { unfold resolve_name, resolve_variable. cbn [fst snd]. replace (resolve ctx (InferredVariable id)) with (Ok (E := UnifyError) (Static kind)); [done|].
      symmetry. unfold resolve. rewrite (path_step ctx 0 id id kind); [done|apply path_here|exact Ht|]. unfold links.
      assert (size (substitution ctx) <> 0%nat) by (intros E%map_size_empty_iff; by rewrite E, lookup_empty in Ht). lia. }
    rewrite bind_Ok.
    destruct (IH (<[name := kind]> types)) as (types' & -> & Hall); [intros n i Hi; apply Hin; by right|done|].
    exists types'. split; [done|]. intros n. specialize (Hall n). cbn [fmap list_fmap fst].
    assert (Hkind : forall b, inhabits b kind = true <-> meets equations name b).
    { intros b. rewrite <- (knows_entry _ _ Hk name id b Hname). unfold entry, satisfies_entry. by rewrite Ht. }
    destruct (types' !! n) as [k|].
    + destruct Hall as [(i & Hi & Hiff)|[Hn Hl]]; [left; exists i; split; [by right|done]|].
      destruct (decide (n = name)) as [->|Hne].
      * rewrite lookup_insert_eq in Hl. injection Hl as <-. left. exists id. split; [by left|done].
      * rewrite lookup_insert_ne in Hl by done. right. split; [|done]. by apply not_elem_of_cons.
    + destruct Hall as [Hn Hl]. destruct (decide (n = name)) as [->|Hne]; [by rewrite lookup_insert_eq in Hl|].
      rewrite lookup_insert_ne in Hl by done. split; [|done]. by apply not_elem_of_cons.
Qed.
End inference.

(** C18: Type inference is exact for rules without formulas.  Each slot gives the
    variable in it a kind; the type inferred for a variable admits exactly the
    bindings, values and absence, that all of its slots admit, and the variables of
    negations and those in no slot have none.  Inference fails only where some
    variable has no value that all of its slots admit, and always ends. *)
Theorem infer_exact `{HashOrder} premises :
  Forall (fun premise => is_formula premise = false) premises ->
  let equations := premises ≫= premise_equations in
  match infer premises with
  | Ok types => forall name,
      match types !! name with
      | Some kind => forall b, inhabits b kind = true <-> meets equations name b
      | None => forall kind, (name, kind) ∉ equations
      end
  | Err (Conflict name _) => forall v, ~ meets equations name (Present v)
  | _ => False
  end.
Proof.
  intros Hf equations. unfold infer. pose proof (infer_premises premises Hf [] context_new knows_new) as Ho. fold equations in Ho.
  destruct (fold_outcome infer_premise context_new premises) as [ctx|[var reason]| |]; [|by simpl in Ho; rewrite app_nil_r in Ho|destruct Ho..].
  rewrite bind_Ok. simpl in Ho. rewrite app_nil_r in Ho. pose proof (hash_iter_permutation (names ctx)) as Hperm.
  destruct (resolve_names ctx _ Ho (hash_iter (names ctx)) ∅) as (types & -> & Hall).
  - intros name id Hin. rewrite Hperm in Hin. by apply elem_of_map_to_list.
  - rewrite Hperm. apply NoDup_fst_map_to_list.
  - assert (Hmeets : forall name b, meets (reverse equations) name b <-> meets equations name b).
    { intros name b. split; apply meets_perm; [|symmetry]; apply reverse_Permutation. }
    intros name. specialize (Hall name). destruct (types !! name) as [kind|].
    + destruct Hall as [(id & _ & Hiff)|[_ ?]]; [|done]. intros b. by rewrite Hiff.
    + destruct Hall as [Hn _]. intros kind Hin. apply Hn. rewrite <- elem_of_reverse in Hin.
      assert (is_Some (names ctx !! name)) as [id Hid] by (apply (knows_names _ _ Ho); by exists kind).
      apply list_elem_of_fmap. exists (name, id). split; [done|]. rewrite Hperm. by apply elem_of_map_to_list.
Qed.
