(* ===== verification/Rules.v ===== *)
(** Rules (rust/dialog-query/src: rule.rs, rule/{analyzer,deductive,inductive}.rs,
    concept/query/{adornment,plan_cache,rules}.rs, session/rule_registry.rs):
    analysis, planning for the parameters that are bound, the rules of a concept. *)
From S2P Require Import Prelude Common Artifact TypeSystem Terms Unifier Constraints Formulas AttributeQuery Premises Planner.

(** * Equality of rules *)
Fixpoint kind_eq_dec (a b : Kind.t) {struct a} : Decision (a = b)
with composite_eq_dec (a b : Kind.composite) {struct a} : Decision (a = b).
Proof.
  - unfold Decision. decide equality; try apply Primitive_eq_dec; try apply Refinement_eq_dec.
    apply (list_eq_dec (dec := composite_eq_dec)).
  - unfold Decision. decide equality; try apply (list_eq_dec (dec := byte_eq_dec)).
    apply (list_eq_dec (dec := fun p q => prod_eq_dec (EqDecision0 := list_eq_dec) (EqDecision1 := kind_eq_dec) p q)).
    apply kind_eq_dec.
Defined.
#[export] Instance Kind_eq_dec : EqDecision Kind.t := kind_eq_dec.
#[export] Instance Descriptor_eq_dec : EqDecision Descriptor.
Proof. solve_decision. Defined.
#[export] Instance Term_eq_dec : EqDecision Term.
Proof. solve_decision. Defined.
#[export] Instance AttributeQueryAll_eq_dec : EqDecision AttributeQueryAll.
Proof. solve_decision. Defined.
#[export] Instance DynamicAttributeQuery_eq_dec : EqDecision DynamicAttributeQuery.
Proof. solve_decision. Defined.
#[export] Instance Constraint_eq_dec : EqDecision Constraint.t.
Proof.
  assert (EqDecision Equality) by solve_decision. assert (EqDecision Coalesce) by solve_decision.
  assert (EqDecision TypeOf) by solve_decision. assert (EqDecision StartsWith) by solve_decision.
  assert (EqDecision Comparison) by solve_decision. assert (EqDecision Compare) by solve_decision.
  solve_decision.
Defined.
#[export] Instance Premise_eq_dec : EqDecision Premise.
Proof.
  assert (EqDecision ConceptQuery) by solve_decision. assert (EqDecision FormulaQuery) by solve_decision.
  assert (EqDecision OptionalAttributeQuery) by solve_decision. assert (EqDecision Proposition_) by solve_decision.
  solve_decision.
Defined.

(** * Analysis *)
Record PremiseVars := mkVars { vars_binds : gset string; vars_needs : gset string }.
#[export] Instance PremiseVars_eq_dec : EqDecision PremiseVars.
Proof. solve_decision. Defined.
Record DependencyGraph := mkGraph { usage : list PremiseVars; requires : list (gset nat) }.
#[export] Instance DependencyGraph_eq_dec : EqDecision DependencyGraph.
Proof. solve_decision. Defined.
Definition premise_vars (premise : Premise) : PremiseVars :=
  let '(binds, requires) := categorize (premise_schema premise) (premise_parameters premise) (is_negation premise) ∅ in
  mkVars binds requires.
(** The other premises that bind something that premise [i] needs. *)
Definition binders (usage : list PremiseVars) (i : nat) (vars : PremiseVars) : gset nat :=
  list_to_set (omap (fun '(j, other) =>
    if decide (j <> i /\ vars_needs vars ∩ vars_binds other <> ∅) then Some j else None)
    (imap (fun j other => (j, other)) usage)).
Definition graph_from_premises (premises : list Premise) : DependencyGraph :=
  let usage := premise_vars <$> premises in mkGraph usage (imap (binders usage) usage).

Record AnalyzedRule := mkAnalyzed {
  conclusion : ConceptDescriptor; rule_premises : list Premise; types : TypeEnv; graph : DependencyGraph
}.
#[export] Instance AnalyzedRule_eq_dec : EqDecision AnalyzedRule.
Proof. solve_decision. Defined.

Inductive AnalysisError :=
  | InferenceFailed
  | AnalysisHeadFromOptional (variable : string)
  | AnalysisCoalesceMismatch
  | AnalysisNegatedOptional.

Section analysis.
Context `{HashOrder}.

Definition find_head (p : string -> bool) (conclusion : ConceptDescriptor) : option string :=
  head (filter (fun name => p name = true) (required_operands conclusion)).
Definition coalesce_valid (premise : Premise) : bool :=
  match premise with
  | Assert_ (ConstraintProposition (Constraint.Coalesce coalesce)) => is_ok (validate coalesce context_new)
  | _ => true
  end.
Definition negated_optional (premise : Premise) : bool :=
  match premise with Unless (OptionalAttribute _) => true | _ => false end.
(** [analyze]. *)
Definition analyze (conclusion : ConceptDescriptor) (premises : list Premise) : outcome AnalysisError AnalyzedRule :=
  types ← map_err (fun _ => InferenceFailed) (infer premises);
  match find_head (fun name => match types !! name with Some kind => is_optional kind | None => false end) conclusion with
  | Some variable => Err (AnalysisHeadFromOptional variable)
  | None =>
      if negb (forallb coalesce_valid premises) then Err AnalysisCoalesceMismatch
      else if existsb negated_optional premises then Err AnalysisNegatedOptional
      else Ok (mkAnalyzed conclusion premises types (graph_from_premises premises))
  end.

(** * Compilation *)
Record DeductiveRule := mkRule { analysis_of : AnalyzedRule }.
#[export] Instance DeductiveRule_eq_dec : EqDecision DeductiveRule.
Proof. solve_decision. Defined.
Definition type_error (e : AnalysisError) : TypeError :=
  match e with
  | InferenceFailed => TypeInference
  | AnalysisHeadFromOptional variable => RequiredHeadFromOptional variable
  | AnalysisCoalesceMismatch => CoalesceTypeMismatch
  | AnalysisNegatedOptional => NegatedOptional
  end.
(** [Compile::compile], the same for deductive and inductive rules. *)
Definition compile (conclusion : ConceptDescriptor) (premises : list Premise) : outcome TypeError DeductiveRule :=
  analysis ← map_err type_error (analyze conclusion premises);
  join ← planner_plan (rule_premises analysis) (types analysis) ∅;
  match find_head (fun name => negb (bool_decide (name ∈ conjunction_binds join))) conclusion with
  | Some variable => Err (UnboundHead variable)
  | None => Ok (mkRule analysis)
  end.
Definition rule_plan {E : Type} (self : DeductiveRule) (scope : Environment) : outcome E Conjunction :=
  match planner_plan (rule_premises (analysis_of self)) (types (analysis_of self)) scope with
  | Ok join => Ok join
  | Err _ => Panic "an analyzed rule is plannable by construction"
  | Panic m => Panic m
  | OutOfFuel => OutOfFuel
  end.

(** [DeductiveRuleDescriptor]. *)
Record RuleDescriptor := mkRuleDescriptor { deduce : ConceptDescriptor; when_ : list Proposition_; unless : list Proposition_ }.
Definition descriptor_compile (self : RuleDescriptor) : outcome TypeError DeductiveRule :=
  compile (deduce self) ((Assert_ <$> when_ self) ++ (Unless <$> unless self)).
Definition rule_descriptor (self : DeductiveRule) : RuleDescriptor :=
  let premises := rule_premises (analysis_of self) in
  mkRuleDescriptor (conclusion (analysis_of self))
    (omap (fun premise => match premise with Assert_ p => Some p | Unless _ => None end) premises)
    (omap (fun premise => match premise with Unless p => Some p | Assert_ _ => None end) premises).

(** [From<&ConceptDescriptor> for DeductiveRule]: the rule that looks the attributes
    up; the [source] of its [i]th query is [unique i] ([Term::unique]). *)
Definition field_premise (name : string) (field : ConceptFieldDescriptor) (source : Term) : Premise :=
  let value := match field_content_type field with
               | Some ty => typed_var name (kind_of ty)
               | None => any_var name
               end in
  let query := dynamic_new (Constant (Value.Symbol (field_the field))) (var Entity_type "this") value (blank Cause_type)
                 (Some (field_cardinality field)) source in
  if optional_field field then Assert_ (OptionalAttribute (mkOptional query)) else Assert_ (AttributeProposition query).
Definition concept_premises (concept : ConceptDescriptor) (unique : nat -> Term) : list Premise :=
  imap (fun i '(name, field) => field_premise name field (unique i)) (with_ concept).
Definition rule_from_concept {E : Type} (concept : ConceptDescriptor) (unique : nat -> Term) : outcome E DeductiveRule :=
  match compile concept (concept_premises concept unique) with
  | Ok rule => Ok rule
  | Err _ => Panic "Concept should compile"
  | Panic m => Panic m
  | OutOfFuel => OutOfFuel
  end.
End analysis.

(** * Patterns of bound parameters *)
Definition sorted_terms (terms : Parameters) : list (string * Term) := btree_collect (map_to_list terms).
Definition parameter_bound (matched : Match) (param : Term) : bool :=
  match param with
  | Constant _ => true
  | Variable_ (Some _) _ => match_contains matched param
  | Variable_ None _ => false
  end.
(** [Adornment::derive]: a bit for each parameter in the order of the names. *)
Definition adornment_derive {E : Type} (terms : Parameters) (matched : Match) : outcome E N :=
  let sorted := sorted_terms terms in
  if decide (length sorted <= 64)%nat
  then Ok (foldr N.lor 0%N (imap (fun i '(_, param) => if parameter_bound matched param then N.shiftl 1 (N.of_nat i) else 0%N) sorted))
  else Panic "Adornment supports at most 64 parameters".
Definition into_environment (adornment : N) (terms : Parameters) : Environment :=
  foldr (fun '(i, param) env => if N.testbit adornment (N.of_nat i) then term_bind param env else env) ∅
    (imap (fun i '(_, param) => (i, param)) (sorted_terms terms)).

(** * The rules of a concept *)
(** What is outside the repository: CBOR, Base58 and the cache of plans, which may
    forget. *)
Class RuleCodec := {
  encode_attribute : bytes -> Cardinality -> option ValueDataType.t -> bytes;
  encode_concept : gmap bytes bool -> bytes;
  encode_descriptor : RuleDescriptor -> bytes;
  decode_descriptor : bytes -> option RuleDescriptor;
  base58 : bytes -> bytes;
  evict : gmap (bytes * N) Conjunction -> gmap (bytes * N) Conjunction
}.
Abbreviation PlanCache := (gmap (bytes * N) Conjunction).

Section identity.
Context `{HashOrder, Blake3, RuleCodec}.

Definition attribute_uri (self : AttributeDescriptor) : bytes :=
  ascii "the:" ++ base58 (as_bytes (blake3 (encode_attribute (attribute_name (attribute_the self))
    (attribute_cardinality self) (attribute_content_type self)))).
(** [ConceptDescriptor::to_cbor_bytes] and [hash]: the names of the fields are not
    part of the identity. *)
Definition concept_hash (self : ConceptDescriptor) : Blake3Hash :=
  blake3 (encode_concept (foldl (fun map '(_, field) => <[attribute_uri (descriptor field) := optional_field field]> map) ∅ (with_ self))).
Definition concept_this (self : ConceptDescriptor) : bytes := ascii "concept:" ++ base58 (as_bytes (concept_hash self)).

(** Attribute premises have no formal notation. *)
Definition serializable (p : Proposition_) : bool :=
  match p with AttributeProposition _ | OptionalAttribute _ => false | _ => true end.
Definition try_encode (self : DeductiveRule) : option bytes :=
  let d := rule_descriptor self in
  if forallb serializable (when_ d ++ unless d) then Some (encode_descriptor d) else None.
Definition try_this (self : DeductiveRule) : option bytes :=
  (fun encoded => ascii "rule:" ++ base58 (as_bytes (blake3 encoded))) <$> try_encode self.
Definition rule_decode (b : bytes) : option (outcome TypeError DeductiveRule) := descriptor_compile <$> decode_descriptor b.

(** [PlanCache::get_or_plan]. *)
Definition get_or_plan {E : Type} (cache : PlanCache) (rule : DeductiveRule) (adornment : N)
    (plan : outcome E Conjunction) : outcome E (Conjunction * PlanCache) :=
  match try_this rule with
  | None => join ← plan; Ok (join, cache)
  | Some identity =>
      match cache !! (identity, adornment) with
      | Some hit => Ok (hit, cache)
      | None => planned ← plan; Ok (planned, evict (<[(identity, adornment) := planned]> cache))
      end
  end.

Record ConceptRules := mkConceptRules { implicit : DeductiveRule; installed : list DeductiveRule; plans : gmap N Disjunction }.
Definition concept_rules_new {E : Type} (concept : ConceptDescriptor) (unique : nat -> Term) : outcome E ConceptRules :=
  implicit ← rule_from_concept concept unique; Ok (mkConceptRules implicit [] ∅).
Definition install (self : ConceptRules) (rule : DeductiveRule) : ConceptRules :=
  if decide (rule ∈ installed self) then self else mkConceptRules (implicit self) (installed self ++ [rule]) ∅.
Definition rules_extend (self other : ConceptRules) : ConceptRules := foldl install self (installed other).

Fixpoint plan_installed {E : Type} (rules : list DeductiveRule) (adornment : N) (scope : Environment) (cache : PlanCache) :
    outcome E (list Conjunction * PlanCache) :=
  match rules with
  | [] => Ok ([], cache)
  | rule :: rules =>
      '(join, cache) ← get_or_plan cache rule adornment (rule_plan rule scope);
      '(joins, cache) ← plan_installed rules adornment scope cache;
      Ok (join :: joins, cache)
  end.
(** [ConceptRules::plan]. *)
Definition concept_rules_plan {E : Type} (self : ConceptRules) (cache : PlanCache) (terms : Parameters) (matched : Match) :
    outcome E (Disjunction * ConceptRules * PlanCache) :=
  adornment ← adornment_derive terms matched;
  match plans self !! adornment with
  | Some plan => Ok (plan, self, cache)
  | None =>
      let scope := into_environment adornment terms in
      first ← rule_plan (implicit self) scope;
      '(joins, cache) ← plan_installed (installed self) adornment scope cache;
      let fork := disjunction_from_iter (first :: joins) in
      Ok (fork, mkConceptRules (implicit self) (installed self) (<[adornment := fork]> (plans self)), cache)
  end.

(** [RuleRegistry]: the rules of each concept, by its identity. *)
Abbreviation RuleRegistry := (gmap bytes ConceptRules).
Definition register {E : Type} (self : RuleRegistry) (rule : DeductiveRule) (unique : nat -> Term) : outcome E RuleRegistry :=
  let concept := conclusion (analysis_of rule) in
  rules ← match self !! concept_this concept with Some rules => Ok rules | None => concept_rules_new concept unique end;
  Ok (<[concept_this concept := install rules rule]> self).
Definition acquire {E : Type} (self : RuleRegistry) (concept : ConceptDescriptor) (unique : nat -> Term) :
    outcome E (ConceptRules * RuleRegistry) :=
  rules ← match self !! concept_this concept with Some rules => Ok rules | None => concept_rules_new concept unique end;
  Ok (rules, <[concept_this concept := rules]> self).
Definition registry_extend (self other : RuleRegistry) : RuleRegistry :=
  union_with (fun existing rules => Some (rules_extend existing rules)) self other.
End identity.
