(* ===== verification/Evaluation.v ===== *)
(** Evaluation of plans (rust/dialog-query/src: planner/{plan,conjunction,disjunction}.rs,
    concept/query.rs, stream.rs, concept/descriptor.rs). *)
From S2P Require Import Prelude Common Artifact Layer TypeSystem Terms Unifier Constraints Numbers Formulas AttributeQuery Premises Planner.

Local Abbreviation EE := EvaluationError.t.

(** [stream_select!]: results in the order in which the two streams are ready. *)
Class StreamSelect := {
  stream_select : Selection -> Selection -> Selection;
  (** It yields nothing of its own, and all of both unless one of them failed. *)
  stream_select_from : forall l r row, row ∈ (stream_select l r).1 -> row ∈ l.1 \/ row ∈ r.1;
  stream_select_all : forall l r, (stream_select l r).2 = Ok tt -> (stream_select l r).1 ≡ₚ l.1 ++ r.1 /\ l.2 = Ok tt /\ r.2 = Ok tt;
  stream_select_status : forall l r, (stream_select l r).2 = l.2 \/ (stream_select l r).2 = r.2
}.
(** [Provider<SelectRules>]: the plan for a concept, its parameters and the row at
    hand ([ConceptRules::plan]). *)
Class SelectRules := select_rules : ConceptDescriptor -> Parameters -> Match -> eval Disjunction.

(** [fork_stream]: the task that feeds both streams ends at the first error, which it
    drops. *)
Definition fork_stream (input : Selection) : Selection :=
  (input.1, match input.2 with OutOfFuel => OutOfFuel | _ => Ok tt end).

Section evaluate.
Context `{Blake3, HashOrder, TextLibrary, SelectFacts, StreamSelect, SelectRules} (probe_source : Term).

(** * Concept boundaries *)
Definition extract_parameter (source : Match) (matched : Match) (entry : string * Term) : eval Match :=
  let '(param_name, user_param) := entry in
  match user_param with
  | Variable_ (Some _) _ =>
      match lookup_term source user_param with
      | Ok (Present value) => bind matched (any_var param_name) value
      | Ok Absent => bind_absent matched (any_var param_name)
      | Err (EvaluationError.UnboundVariable _) => Ok matched
      | Err e => Err e
      | Panic m => Panic m
      | OutOfFuel => OutOfFuel
      end
  | Constant value => bind matched (any_var param_name) value
  | Variable_ None _ => Ok matched
  end.
Definition extract_parameters (source : Match) (terms : Parameters) : eval Match :=
  fold_outcome (extract_parameter source) match_new (hash_iter terms).

Definition merge_parameter (result : Match) (merged : Match) (entry : string * Term) : eval Match :=
  let '(param_name, user_param) := entry in
  if is_constant user_param then Ok merged
  else
    match lookup_term result (any_var param_name) with
    | Ok (Present value) => bind merged user_param value
    | Ok Absent => bind_absent merged user_param
    | Err (EvaluationError.UnboundVariable _) => Ok merged
    | Err e => Err e
    | Panic m => Panic m
    | OutOfFuel => OutOfFuel
    end.
Definition merge_parameters (base result : Match) (terms : Parameters) : eval Match :=
  fold_outcome (merge_parameter result) base (hash_iter terms).
(** [.map_err(|e| EvaluationError::Store(e.to_string()))]. *)
Definition boundary {A} (o : eval A) : eval A := map_err EvaluationError.StoreEvaluation o.

(** * Plans *)
Section plans.
Context (concept : ConceptQuery -> Selection -> Selection).

Fixpoint plan_evaluate (self : Plan) (selection : Selection) : Selection :=
  match self with
  | Scan _ query => for_each selection (dynamic_row query)
  | OptionalScan _ query => for_each selection (optional_row (optional_query query) probe_source)
  | FormulaPlan _ query => formula_evaluate query selection
  | ConstraintPlan _ constraint => constraint_evaluate constraint selection
  | ConceptPlan _ query => concept query selection
  | Negate _ inner =>
      for_each selection (fun base =>
        match plan_evaluate inner (seed base) with
        | (_ :: _, _) => yields []
        | ([], Ok _) => yields [base]
        | ([], failure) => fails failure
        end)
  end.
Definition conjunction_evaluate (self : Conjunction) (selection : Selection) : Selection :=
  foldl (fun selection plan => plan_evaluate plan selection) selection (steps self).
Fixpoint disjunction_evaluate (self : Disjunction) (selection : Selection) : Selection :=
  match self with
  | Empty => yields []
  | Solo join => conjunction_evaluate join selection
  | Duet left_ right_ =>
      stream_select (conjunction_evaluate left_ (fork_stream selection)) (conjunction_evaluate right_ (fork_stream selection))
  | Or_ left_ right_ =>
      stream_select (disjunction_evaluate left_ (fork_stream selection)) (conjunction_evaluate right_ (fork_stream selection))
  end.

(** [ConceptQuery::evaluate]: the plan is made for the first row. *)
Definition concept_rows (self : ConceptQuery) (selection : Selection) : Selection :=
  match selection.1 with
  | [] => selection
  | first :: _ =>
      let_ok (select_rules (predicate self) (terms self) first) (fun plan =>
      for_each selection (fun input =>
        let_ok (boundary (extract_parameters input (terms self))) (fun initial_match =>
        for_each (disjunction_evaluate plan (seed initial_match)) (fun result_match =>
          let_ok (boundary (merge_parameters input result_match (terms self))) (fun merged => yields [merged])))))
  end.
End plans.

(** Rules may query other concepts: [fuel] bounds the nesting. *)
Fixpoint concept_evaluate (fuel : nat) (self : ConceptQuery) (selection : Selection) : Selection :=
  match fuel with
  | O => fails OutOfFuel
  | S fuel => concept_rows (concept_evaluate fuel) self selection
  end.
Definition join_evaluate (fuel : nat) (self : Conjunction) : Selection -> Selection :=
  conjunction_evaluate (concept_evaluate fuel) self.

(** [ConceptQuery::realize]: the entity that a row describes. *)
Definition realize (self : ConceptQuery) (source : Match) : eval Entity :=
  match terms self !! "this" with
  | None => Err (EvaluationError.UnboundVariable "this")
  | Some (Variable_ (Some name) _) =>
      b ← lookup_term source (var Entity_type name); value ← content b;
      match value with
      | Value.Entity e => Ok e
      | _ => Err (EvaluationError.TypeMismatch ValueDataType.Entity (data_type value))
      end
  | Some (Constant (Value.Entity e)) => Ok e
  | Some _ => Err (EvaluationError.UnboundVariable "this")
  end.
End evaluate.
