(* ===== verification/EvaluationCorrect.v ===== *)
(** What evaluation makes of a plan: every row extends a row it was given, binds the
    variables that the planner promises, and no variable is read before it is
    bound. *)
From S2P Require Import Prelude Common Artifact ArtifactKeys Layer TypeSystem Terms Unifier Constraints Numbers Formulas AttributeQuery Premises Planner PlannerCorrect Rules Evaluation.

Local Abbreviation EE := EvaluationError.t.

(** * Streams and what they emit *)
Definition extends (base row : Match) : Prop := bindings base ⊆ bindings row.
Definition binds_name (row : Match) (n : string) : Prop := is_Some (bindings row !! n).
Definition covers (env : Environment) (row : Match) : Prop := forall n, n ∈ env -> binds_name row n.
Definition binds_term (row : Match) (term : Term) : Prop := forall n, term_name term = Some n -> binds_name row n.

Lemma extends_binds base row n : extends base row -> binds_name base n -> binds_name row n.
Proof. intros He [b Hb]. exists b. by eapply lookup_weaken. Qed.
Lemma extends_refl row : extends row row.
Proof. unfold extends. reflexivity. Qed.
Lemma extends_trans a b c : extends a b -> extends b c -> extends a c.
Proof. unfold extends. intros. by etrans. Qed.
Lemma extends_covers env base row : extends base row -> covers env base -> covers env row.
Proof. intros He Hc n Hn. eapply extends_binds; eauto. Qed.
#[export] Hint Resolve extends_refl : dialog.

Section emits.
(** Whether a lookup that may fail to find its entity is around. *)
Context (optional_lookups : bool).

(** The errors of reading a variable that is not bound are excluded. *)
Definition sound_error (e : EE) : Prop :=
  match e with
  | EvaluationError.UnboundVariable _ => optional_lookups = true
  | EvaluationError.UnboundFormulaVariable _ _ | EvaluationError.ConstraintViolation _ _
  | EvaluationError.MissingParameter _ => False
  | _ => True
  end.
Definition fails_soundly {A} (o : eval A) : Prop := forall e, o = Err e -> sound_error e.
Definition emits (s : Selection) (Q : Match -> Prop) : Prop := (forall row, row ∈ s.1 -> Q row) /\ fails_soundly s.2.
Implicit Types (s : Selection) (Q : Match -> Prop) (row base : Match).

Lemma fails_soundly_Ok {A} (a : A) : fails_soundly (Ok a).
Proof. by intros e. Qed.
Lemma emits_none Q : emits (yields []) Q.
Proof. split; [by intros ? ?%not_elem_of_nil|by intros e]. Qed.
Lemma emits_one Q row : Q row -> emits (yields [row]) Q.
Proof. intros HQ. split; [by intros ? ->%list_elem_of_singleton|by intros e]. Qed.
Lemma emits_fails Q o : fails_soundly o -> emits (fails o) Q.
Proof. intros Ho. split; [by intros ? ?%not_elem_of_nil|done]. Qed.
Lemma emits_weaken s Q Q' : emits s Q -> (forall row, Q row -> Q' row) -> emits s Q'.
Proof. intros [Hr He] HQ. split; auto. Qed.
Lemma emits_chain s t Q : emits s Q -> emits t Q -> emits (chain s t) Q.
Proof.
  intros [Hs Es] [Ht Et]. unfold chain. destruct (s.2) eqn:E; try (rewrite <- E in Es; by split).
  split; [|done]. intros row [?|?]%elem_of_app; auto.
Qed.
Lemma emits_let {A} (o : eval A) k Q : fails_soundly o -> (forall a, o = Ok a -> emits (k a) Q) -> emits (let_ok o k) Q.
Proof.
  intros Ho Hk. destruct o; [by apply Hk|..]; (split; [by intros ? ?%not_elem_of_nil|]); [intros e' [= <-]; by apply Ho|by intros e..].
Qed.
Lemma emits_each s body Q : fails_soundly s.2 -> (forall row, row ∈ s.1 -> emits (body row) Q) -> emits (for_each s body) Q.
Proof.
  unfold for_each. intros He Hb. induction (s.1) as [|row rows IH]; simpl.
  - split; [by intros ? ?%not_elem_of_nil|done].
  - apply emits_chain; [apply Hb; by left|]. apply IH. intros r Hr. apply Hb. by right.
Qed.

(** ** Rows *)
Lemma bind_row base term value row : bind base term value = Ok row -> extends base row /\ binds_term row term.
Proof.
  destruct term as [[n|] d|c]; simpl; [|intros [= ->]; split; [apply extends_refl|by intros n ?]..]. destruct (match descriptor_kind d with Some _ => _ | None => _ end); try done.
  rewrite bind_Ok. unfold binds_term. simpl. destruct (bindings base !! n) as [[v|]|] eqn:E; [case_decide| |]; try done; intros [= <-].
  - split; [apply extends_refl|]. intros ? [= <-]. by exists (Present v).
  - split; [by apply insert_subseteq|]. intros ? [= <-]. eexists. simpl. by apply lookup_insert_eq.
Qed.
Lemma bind_sound base term value : fails_soundly (bind base term value).
Proof.
  intros e. destruct term as [[n|] d|c]; simpl; [|done..].
  destruct (descriptor_kind d) as [k|]; [destruct (admits k value)|]; simpl; try (by intros [= <-]);
    destruct (bindings base !! n) as [[v|]|]; try case_decide; by intros [= <-].
Qed.
Lemma bind_absent_row base term row : bind_absent base term = Ok row -> extends base row /\ binds_term row term.
Proof.
  destruct term as [[n|] d|c]; simpl; [|intros [= ->]; split; [apply extends_refl|by intros n ?]..]. unfold binds_term. simpl.
  destruct (bindings base !! n) as [[v|]|] eqn:E; try done; intros [= <-].
  - split; [apply extends_refl|]. intros ? [= <-]. by exists Absent.
  - split; [by apply insert_subseteq|]. intros ? [= <-]. eexists. simpl. by apply lookup_insert_eq.
Qed.
Lemma bind_absent_sound base term : fails_soundly (bind_absent base term).
Proof.
  intros e. destruct term as [[n|] d|c]; simpl; [|done..].
  destruct (bindings base !! n) as [[v|]|]; by intros [= <-].
Qed.
Lemma binds_term_widen row term : binds_term row (widen term) <-> binds_term row term.
Proof. by destruct term. Qed.
Lemma extends_term base row term : extends base row -> binds_term base term -> binds_term row term.
Proof. intros He Hb n Hn. eapply extends_binds; eauto. Qed.
Lemma fails_soundly_bind {A B} (o : eval A) (k : A -> eval B) :
  fails_soundly o -> (forall a, o = Ok a -> fails_soundly (k a)) -> fails_soundly (o ≫= k).
Proof. intros Ho Hk. destruct o; simpl; [by apply Hk|..]; intros e' E; try discriminate. injection E as <-. by apply Ho. Qed.
End emits.
#[export] Hint Resolve emits_none emits_one emits_fails bind_sound bind_absent_sound fails_soundly_Ok : dialog.

(** * Attribute queries *)
Section scans.
Context `{Blake3, SelectFacts} (optional_lookups : bool).
Local Abbreviation emits := (emits optional_lookups).
Local Abbreviation fails_soundly := (fails_soundly optional_lookups).
Implicit Types (q : AttributeQueryAll) (base row : Match).

Definition binds_slots q row : Prop :=
  binds_term row (query_the q) /\ binds_term row (query_of q) /\ binds_term row (query_is q) /\ binds_term row (query_cause q).
Definition scanned q base row : Prop := extends base row /\ binds_slots q row.

Lemma cite_extends base term claim : extends base (cite base term claim).
Proof. unfold extends. by destruct term as [[n|] d|c]. Qed.
Lemma merge_row q base artifact row : merge q base artifact = Ok row -> scanned q base row.
Proof.
  unfold merge. cbv zeta. pose proof (cite_extends base (query_source q) (claim_from artifact)) as Hcite.
  intros (r1 & [E1 B1]%bind_row & (r2 & [E2 B2]%bind_row & (r3 & [E3 B3]%bind_row & [E4 B4]%bind_row)%bind_Ok_inv)%bind_Ok_inv)%bind_Ok_inv.
  rewrite binds_term_widen in B1, B2, B4. split; [eauto 6 using extends_trans|].
  split_and!; [eapply extends_term, B1|eapply extends_term, B2|eapply extends_term, B3|done]; eauto using extends_trans.
Qed.
Lemma merge_sound q base artifact : fails_soundly (merge q base artifact).
Proof. repeat (apply fails_soundly_bind; [apply bind_sound|intros]). apply bind_sound. Qed.
Lemma map_err_sound {E A} (f : E -> EE) (o : outcome E A) : (forall e, sound_error optional_lookups (f e)) -> fails_soundly (map_err f o).
Proof. intros Hf e. destruct o; by intros [= <-]. Qed.
Lemma selector_sound q : fails_soundly (selector_try_from q).
Proof.
  unfold selector_try_from. apply fails_soundly_bind.
  - destruct (query_the q) as [|[]]; by intros ? [= <-].
  - intros s _. apply fails_soundly_bind.
    + destruct (query_of q) as [|[]]; by intros ? [= <-].
    + intros s' _. cbv zeta. destruct (match query_is q with Constant _ => _ | _ => _ end); by intros ? [= <-].
Qed.
Lemma execute_emits selector k Q : fails_soundly selector ->
  (forall artifacts status, fails_soundly status -> emits (k artifacts status) Q) -> emits (execute selector k) Q.
Proof.
  intros Hs Hk. unfold execute. apply emits_let; [done|]. intros a _. apply emits_let; [by apply map_err_sound|].
  intros [artifacts status] _. apply Hk. by apply map_err_sound.
Qed.
Lemma merged_emits q base artifact : emits (let_ok (merge q base artifact) (fun row => yields [row])) (scanned q base).
Proof. apply emits_let; [apply merge_sound|]. intros row Hr%merge_row. by apply emits_one. Qed.
Lemma merge_rows_emits q base artifacts status : fails_soundly status -> emits (merge_rows q base artifacts status) (scanned q base).
Proof.
  intros Hs. induction artifacts as [|a artifacts IH]; simpl; [by apply (emits_fails _ _ status)|].
  destruct (query_admits q (artifact_is a)); [|done]. apply emits_chain; [apply merged_emits|done].
Qed.
Lemma all_row_emits q base : emits (all_row q base) (scanned q base).
Proof.
  unfold all_row. destruct (absent_blocked q base); [apply emits_none|].
  apply execute_emits; [apply selector_sound|]. intros. by apply merge_rows_emits.
Qed.
Lemma yield_winner_emits q base value w : emits (yield_winner q base value w) (scanned q base).
Proof. unfold yield_winner. destruct (_ && _); [apply merged_emits|apply emits_none]. Qed.
Lemma window_emits q base value artifacts status : fails_soundly status -> forall candidate,
  emits (window q base value artifacts status candidate) (scanned q base).
Proof.
  intros Hs. induction artifacts as [|a artifacts IH]; intros candidate; simpl.
  - apply emits_let; [done|]. intros _ _. destruct candidate; [apply yield_winner_emits|apply emits_none].
  - destruct candidate as [c|]; [|done]. case_decide; [done|]. apply emits_chain; [apply yield_winner_emits|done].
Qed.
Lemma challenge_emits q candidate : binds_term candidate (query_cause q) -> emits (challenge q candidate) (fun row => row = candidate).
Proof.
  intros Hc. unfold challenge. apply emits_let.
  { unfold prove. intros err. destruct (query_source q) as [[n|] d|c]; [destruct (claims candidate !! n)| |]; by intros [= <-]. }
  intros claim _. apply emits_let.
  { destruct (is_blank (query_cause q)) eqn:Eb; [apply fails_soundly_Ok|].
    apply fails_soundly_bind.
    - intros err. destruct (query_cause q) as [[n|] d|c]; simpl; [|done..].
      destruct (Hc n eq_refl) as [b ->]. done.
    - intros b _. apply fails_soundly_bind; [intros e; destruct b; by intros [= <-]|]. intros v _.
      apply fails_soundly_bind; [|intros; apply fails_soundly_Ok].
      intros e. unfold cause_of. destruct (scalar_try_from Cause_type v) as [[]|]; by intros [= <-]. }
  intros cause _. apply execute_emits; [apply fails_soundly_Ok|]. intros challengers status Hs.
  apply emits_let; [done|]. intros _ _. destruct (winner_of None challengers); [|apply emits_none].
  repeat case_decide; try apply emits_none. by apply emits_one.
Qed.

Lemma resolve_binds T term base row : extends base row -> binds_term row (term_resolve T term base) -> binds_term row term.
Proof.
  intros He Hb. destruct term as [[n|] d|c]; [|intros ? Hn; discriminate Hn..]. unfold term_resolve in Hb. simpl in Hb.
  destruct (bindings base !! n) as [b|] eqn:E; [|done]. intros ? [= <-]. eapply extends_binds; [done|by exists b].
Qed.
Lemma scanned_resolved q base row : scanned (all_resolve q base) base row -> scanned q base row.
Proof.
  intros [He (Bt & Bo & Bi & Bc)]. split; [done|]. split_and!; [exact (resolve_binds The_type _ _ _ He Bt)|exact (resolve_binds Entity_type _ _ _ He Bo)| |exact (resolve_binds Cause_type _ _ _ He Bc)].
  unfold all_resolve in Bi. cbn [query_is] in Bi. destruct (query_is q) as [[n|] d|c]; [|intros ? Hn; discriminate Hn..]. simpl in Bi.
  destruct (bindings base !! n) as [b|] eqn:E; [|done]. intros ? [= <-]. eapply extends_binds; [done|by exists b].
Qed.
Lemma only_row_emits q base : emits (only_row q base) (scanned q base).
Proof.
  unfold only_row. destruct (absent_blocked q base); [apply emits_none|]. destruct (_ || _).
  - apply execute_emits; [apply selector_sound|]. intros. by apply window_emits.
  - destruct (all_row_emits (all_resolve q base) base) as [Hr He]. apply emits_each; [done|].
    intros row Hrow%Hr%scanned_resolved. eapply emits_weaken; [apply challenge_emits, Hrow|]. by intros ? ->.
Qed.
Lemma dynamic_row_emits query base : emits (dynamic_row query base) (scanned (inner query) base).
Proof. destruct query; [apply all_row_emits|apply only_row_emits]. Qed.
End scans.

(** * The other premises *)
(** A term that a row can read. *)
Definition readable (row : Match) (term : Term) : Prop := exists b, lookup_term row term = Ok b.
Lemma bound_readable env row term : covers env row -> is_bound term env = true -> readable row term.
Proof.
  intros Hc Hb. destruct term as [[n|] d|c]; [|done|by eexists]. simpl in Hb. apply bool_decide_eq_true in Hb.
  destruct (Hc n Hb) as [b Hb']. exists b. simpl. by rewrite Hb'.
Qed.
Lemma readable_binds row term : readable row term -> binds_term row term.
Proof. intros [b Hb] n Hn. destruct term as [[m|] d|c]; [|done..]. injection Hn as ->. simpl in Hb. unfold binds_name. by destruct (bindings row !! n). Qed.
Lemma readable_widen row term : readable row term -> readable row (widen term).
Proof. by destruct term. Qed.

Section rows.
Context `{Blake3, SelectFacts, TextLibrary} (optional_lookups : bool).
Local Abbreviation emits := (emits optional_lookups).
Local Abbreviation fails_soundly := (fails_soundly optional_lookups).
Implicit Types (base row : Match).

(** ** Left joins *)
Lemma optional_row_emits query probe base : optional_lookups = true ->
  is_constant (query_the (inner query)) = true -> is_blank (query_cause (inner query)) = true ->
  emits (optional_row query probe base) (scanned (inner query) base).
Proof.
  intros Hopt Ht Hc. unfold optional_row. cbv zeta. set (q := inner query) in *.
  destruct (is_constant (term_resolve Entity_type (query_of q) base)) eqn:Eo; cbn [negb].
  2: { apply (emits_fails optional_lookups). intros e [= <-]. done. }
  assert (binds_term base (query_of q)) as Ho.
  { eapply (resolve_binds Entity_type); [apply extends_refl|]. by destruct (term_resolve _ _ _). }
  assert (forall row, binds_term row (query_the q) /\ binds_term row (query_cause q)) as Htc.
  { intros row. split; [by destruct (query_the q)|]. by destruct (query_cause q) as [[n|] d|c]. }
  destruct (is_absent_at base (query_is q)) eqn:Ea.
  - destruct (dynamic_row_emits optional_lookups (dynamic_new (query_the q) (query_of q) any_blank (blank Cause_type) (Some Many) probe) base) as [_ He].
    destruct (dynamic_row _ base) as [[|r rows] status]; [|apply emits_none]. apply emits_let; [done|]. intros _ _.
    apply emits_one. split; [apply extends_refl|]. split_and!; [apply Htc|done| |apply Htc].
    unfold is_absent_at in Ea. apply readable_binds. destruct (lookup_term base (query_is q)) as [b| | |] eqn:E; [by exists b|done..].
  - apply emits_chain; [apply dynamic_row_emits|]. destruct (dynamic_row query base).1; [|apply emits_none].
    destruct (match_is_present base (query_is q)); [apply emits_none|].
    destruct (bind_absent base (query_is q)) as [fallback|e| |] eqn:E1; simpl.
    2: { apply (emits_fails optional_lookups). intros e' [= <-]. by eapply bind_absent_sound. }
    2, 3: by apply (emits_fails optional_lookups); intros e.
    apply emits_let; [apply bind_absent_sound|]. intros row E2.
    apply bind_absent_row in E1 as [X1 B1], E2 as [X2 B2]. apply emits_one.
    split; [by eapply extends_trans|]. split_and!; [apply Htc| |by eapply extends_term|apply Htc].
    eapply extends_term; [|exact Ho]. by eapply extends_trans.
Qed.

(** ** Constraints *)
Definition binds_both base row (s t : Term) : Prop := extends base row /\ binds_term row s /\ binds_term row t.
Lemma unread base term : ~ readable base term -> ~ exists n, term_name term = Some n /\ binds_name base n.
Proof. intros Hr (n & Hn & [b Hb]). apply Hr. destruct term as [[m|] d|c]; [|done..]. injection Hn as ->. exists b. simpl. by rewrite Hb. Qed.
Lemma equality_row_emits c base : readable base (this c) \/ readable base (eq_is c) ->
  emits (equality_row c base) (fun row => binds_both base row (this c) (eq_is c)).
Proof.
  intros Hr. unfold equality_row.
  assert (forall v, emits (let_ok (bind base (eq_is c) v) (fun row => yields [row])) (fun row => extends base row /\ binds_term row (eq_is c))) as Bis.
  { intros v. apply emits_let; [apply bind_sound|]. intros row [??]%bind_row. by apply emits_one. }
  assert (forall v, emits (let_ok (bind base (this c) v) (fun row => yields [row])) (fun row => extends base row /\ binds_term row (this c))) as Bthis.
  { intros v. apply emits_let; [apply bind_sound|]. intros row [??]%bind_row. by apply emits_one. }
  assert (emits (let_ok (bind_absent base (eq_is c)) (fun row => yields [row])) (fun row => extends base row /\ binds_term row (eq_is c))) as Ais.
  { apply emits_let; [apply bind_absent_sound|]. intros row [??]%bind_absent_row. by apply emits_one. }
  assert (emits (let_ok (bind_absent base (this c)) (fun row => yields [row])) (fun row => extends base row /\ binds_term row (this c))) as Athis.
  { apply emits_let; [apply bind_absent_sound|]. intros row [??]%bind_absent_row. by apply emits_one. }
  assert (forall b, lookup_term base (this c) = Ok b -> binds_term base (this c)) as Rthis by (intros b E; apply readable_binds; by exists b).
  assert (forall b, lookup_term base (eq_is c) = Ok b -> binds_term base (eq_is c)) as Ris by (intros b E; apply readable_binds; by exists b).
  assert (forall s t row, extends base row -> binds_term base s -> binds_term row t -> binds_both base row s t) as Hboth.
  { intros s t row He Hs Ht. split; [done|]. split; [by eapply extends_term|done]. }
  assert (forall s t row, binds_both base row s t -> binds_both base row t s) as Hsym by (intros s t row (? & ? & ?); done).
  destruct (lookup_term base (this c)) as [[v|]| | |] eqn:E1, (lookup_term base (eq_is c)) as [[w|]| | |] eqn:E2;
    repeat case_decide; try destruct (term_is_optional _);
    try apply emits_none;
    try (apply emits_one; apply Hboth; eauto with dialog; fail);
    try (eapply emits_weaken; [apply Bis || apply Ais|]; intros row [??]; apply Hboth; eauto; fail);
    try (eapply emits_weaken; [apply Bthis || apply Athis|]; intros row [??]; apply Hsym, Hboth; eauto; fail);
    exfalso; destruct Hr as [[b Hb]|[b Hb]]; congruence.
Qed.
Lemma coalesce_row_emits c base : readable base (source c) ->
  emits (coalesce_row c base) (fun row => extends base row /\ binds_term row (coalesce_is c)).
Proof.
  intros [b Hb]. unfold coalesce_row. rewrite Hb. cbv zeta.
  destruct (match b with Present value => Some value | Absent => _ end) as [value|]; [|apply emits_none].
  destruct (lookup_term base (coalesce_is c)) as [[existing|]| | |] eqn:E; try apply emits_none.
  - case_decide; [|apply emits_none]. apply emits_one. split; [apply extends_refl|]. apply readable_binds. by eexists.
  - apply emits_let; [apply bind_sound|]. intros row ?%bind_row. by apply emits_one.
  - apply emits_let; [apply bind_sound|]. intros row ?%bind_row. by apply emits_one.
  - apply emits_let; [apply bind_sound|]. intros row ?%bind_row. by apply emits_one.
Qed.
Lemma filter_emits base (b : bool) : emits (if b then yields [base] else yields []) (extends base).
Proof. destruct b; [apply emits_one, extends_refl|apply emits_none]. Qed.
Lemma type_of_row_emits c base : readable base (type_of c) -> emits (type_of_row c base) (extends base).
Proof. intros [b Hb]. unfold type_of_row. rewrite Hb. destruct b; apply filter_emits. Qed.
Lemma starts_with_row_emits c base : readable base (starts_of c) -> readable base (starts_prefix c) ->
  emits (starts_with_row c base) (extends base).
Proof.
  intros [b Hb] [p Hp]%readable_widen. unfold starts_with_row. rewrite Hb, Hp.
  destruct b as [v|], p as [[]|]; try apply emits_none. destruct (lexical_form v); [apply filter_emits|apply emits_none].
Qed.
Lemma compare_row_emits c base : readable base (compare_of c) -> readable base (compare_with c) ->
  emits (compare_row c base) (extends base).
Proof.
  intros [b Hb] [w Hw]. unfold compare_row. rewrite Hb, Hw. destruct b as [v|], w as [u|]; try apply emits_none.
  destruct (ordering _ _ _ _); [apply filter_emits|apply emits_none].
Qed.
End rows.

(** ** Formulas *)
Section formulas.
Context `{TextLibrary} (optional_lookups : bool).
Local Abbreviation emits := (emits optional_lookups).
Local Abbreviation fails_soundly := (fails_soundly optional_lookups).
Implicit Types (row : Match) (params : Parameters) (cs : list (string * Cell)).

(** Adapting literals exchanges constants. *)
Definition adapted params params' : Prop := forall key,
  match params !! key, params' !! key with
  | Some t, Some t' => t' = t \/ is_constant t = true /\ is_constant t' = true
  | None, None => True
  | _, _ => False
  end.
Lemma adapted_refl params : adapted params params.
Proof. intros key. destruct (params !! key); auto. Qed.
Lemma adapt_cells_adapted cs target : forall params params', adapt_cells cs target params = Some params' -> adapted params params'.
Proof.
  induction cs as [|[slot cell] cs IH]; intros params params'; simpl; [intros [= <-]; apply adapted_refl|].
  destruct (scheme_label cell); [|apply IH]. destruct (params !! slot) as [[|value]|] eqn:E; [apply IH| |apply IH].
  destruct (Numeric_try_from value); try apply IH. destruct (instantiate _ target) as [i|]; simpl; [|done].
  intros Ha%IH key. specialize (Ha key). destruct (decide (slot = key)) as [->|Hne].
  - rewrite lookup_insert_eq in Ha. rewrite E. destruct (params' !! key) as [t'|]; [|done]. right.
    by destruct Ha as [->|[_ ?]].
  - by rewrite lookup_insert_ne in Ha by done.
Qed.
Lemma adapt_literals_adapted cs self row params' : adapt_literals cs self row = Some params' -> adapted (formula_parameters self) params'.
Proof.
  unfold adapt_literals. cbv zeta. destruct (instantiation _ _ _); [by apply adapt_cells_adapted|]. intros [= <-]. apply adapted_refl.
Qed.

(** The inputs of a formula that a row can read, and its output slot. *)
Definition inputs_readable row params cs : Prop :=
  forall name cell, (name, cell) ∈ cs -> is_input cell = true -> exists t, params !! name = Some t /\ readable row t.
Lemma inputs_adapted row params params' cs : adapted params params' -> inputs_readable row params cs -> inputs_readable row params' cs.
Proof.
  intros Ha Hr name cell Hin Hi. destruct (Hr name cell Hin Hi) as (t & Ht & Hb). specialize (Ha name). rewrite Ht in Ha.
  destruct (params' !! name) as [t'|]; [|done]. exists t'. split; [done|]. destruct Ha as [->|[_ Hc]]; [done|].
  destruct t' as [|v]; [done|]. by eexists.
Qed.
Lemma bindings_resolve_sound row params key t : params !! key = Some t -> readable row t -> fails_soundly (bindings_resolve row params key).
Proof. unfold bindings_resolve. intros -> [b ->]. intros e. destruct b; by intros [= <-]. Qed.
Lemma read_inputs_sound row params cs : inputs_readable row params cs -> fails_soundly (read_inputs row params cs).
Proof.
  induction cs as [|[name cell] cs IH]; intros Hr; simpl; [apply fails_soundly_Ok|].
  assert (fails_soundly (read_inputs row params cs)) as Hcs by (apply IH; intros n c Hin; apply Hr; by right).
  destruct (is_input cell) eqn:Ei; [|done]. destruct (Hr name cell ltac:(by left) Ei) as (t & Ht & Hb).
  apply fails_soundly_bind; [by eapply bindings_resolve_sound|]. intros value _. apply fails_soundly_bind.
  - intros e. unfold input_try_from. destruct (scheme_label cell).
    + destruct (Numeric_try_from value) as [|[]| |]; by intros [= <-].
    + destruct (cell_type cell) as [[p| |]|]; try done. destruct (as_singleton p); [case_decide|]; by intros [= <-].
  - intros v _. apply fails_soundly_bind; [done|]. intros rest _. apply fails_soundly_Ok.
Qed.
Lemma bindings_write_row row params key value row' : bindings_write row params key value = Ok row' ->
  extends row row' /\ forall t, params !! key = Some t -> binds_term row' t.
Proof.
  unfold bindings_write. destruct (params !! key) as [[n d|c]|]; [|case_decide; [done|]|done].
  - destruct (bind row (Variable_ n d) value) as [r| | |] eqn:E; try done. intros [= <-]. apply bind_row in E as [??].
    split; [done|]. by intros t [= <-].
  - intros [= <-]. split; [apply extends_refl|]. by intros t [= <-].
Qed.
Lemma bindings_write_sound row params key value : is_Some (params !! key) -> fails_soundly (bindings_write row params key value).
Proof.
  unfold bindings_write. intros [t ->] e. destruct t as [n d|c]; [|by case_decide; intros [= <-]].
  destruct (bind row (Variable_ n d) value); by intros [= <-].
Qed.
Lemma map_outcome_emits row params outputs : is_Some (params !! "is") ->
  fails_soundly (map_outcome (fun output => bindings_write row params "is" output) outputs) /\
  forall rows, map_outcome (fun output => bindings_write row params "is" output) outputs = Ok rows ->
    forall r, r ∈ rows -> extends row r /\ forall t, params !! "is" = Some t -> binds_term r t.
Proof.
  intros Hp. induction outputs as [|o outputs [IHs IHr]]; simpl.
  - split; [apply fails_soundly_Ok|]. by intros rows [= <-] r ?%not_elem_of_nil.
  - split.
    + apply fails_soundly_bind; [by apply bindings_write_sound|]. intros r _. apply fails_soundly_bind; [done|].
      intros rs _. apply fails_soundly_Ok.
    + intros rows (r & Hr%bindings_write_row & (rs & Hrs & [= <-])%bind_Ok_inv)%bind_Ok_inv r' [->|Hr']%elem_of_cons; [done|].
      by eapply IHr.
Qed.
Lemma formula_row_emits self row : inputs_readable row (formula_parameters self) (cells (formula self)) ->
  is_Some (formula_parameters self !! "is") ->
  emits (formula_row self row) (fun r => extends row r /\ forall t, formula_parameters self !! "is" = Some t -> binds_term r t).
Proof.
  intros Hi [t Ht]. unfold formula_row, expand. destruct (adapt_literals _ self row) as [params|] eqn:Ea; [|apply emits_none].
  apply adapt_literals_adapted in Ea. pose proof (Ea "is") as His. rewrite Ht in His.
  destruct (params !! "is") as [t'|] eqn:Ep; [|done].
  destruct (map_outcome_emits row params (compute (formula self) (default [] (match read_inputs row params (cells (formula self)) with Ok i => Some i | _ => None end))))
    as [Hs Hr]; [by eexists|].
  assert (fails_soundly (formula_resolve self row params) /\ forall rows, formula_resolve self row params = Ok rows ->
    forall r, r ∈ rows -> extends row r /\ binds_term r t') as [Hfs Hfr].
  { unfold formula_resolve. pose proof (read_inputs_sound row params _ (inputs_adapted _ _ _ _ Ea Hi)) as Hrs.
    destruct (read_inputs row params (cells (formula self))) as [inputs|e| |]; simpl in *.
    - split; [done|]. intros rows Hrows r Hin. destruct (Hr rows Hrows r Hin). auto.
    - split; [|done]. intros e' [= <-]. by apply Hrs.
    - done.
    - done. }
  assert (forall r, extends row r /\ binds_term r t' -> extends row r /\ forall u, formula_parameters self !! "is" = Some u -> binds_term r u) as Hw.
  { intros r [He Hb]. split; [done|]. rewrite Ht. intros u [= <-]. destruct His as [->|[Hc _]]; [done|].
    destruct t; [done|]. by intros n. }
  apply emits_let.
  - intros e. destruct (formula_resolve self row params) as [|[]| |]; try (by intros [= <-]); intros [= <-]; by apply Hfs.
  - intros rows Hrows. split; [|apply fails_soundly_Ok]. intros r Hin. apply Hw.
    destruct (formula_resolve self row params) as [rs|[]| |]; try discriminate; try (injection Hrows as <-; by apply not_elem_of_nil in Hin).
    injection Hrows as <-. by eapply Hfr.
Qed.
End formulas.

(** * Premises in a plan *)
(** A proposition whose required slots are filled: not with a blank, which the
    planner lets pass; and an optional lookup of a known attribute. *)
Definition complete (self : Proposition_) : bool :=
  match self with
  | FormulaProposition query =>
      bool_decide (length (fields query) = length (cells (formula query))) &&
      forallb (fun '((_, cell), term) => negb (is_input cell) || negb (is_blank term)) (zip (cells (formula query)) (fields query))
  | ConstraintProposition (Constraint.Equality c) => negb (is_blank (this c) && is_blank (eq_is c))
  | ConstraintProposition (Constraint.Coalesce c) => negb (is_blank (source c))
  | ConstraintProposition (Constraint.TypeOf c) => negb (is_blank (type_of c))
  | ConstraintProposition (Constraint.StartsWith c) => negb (is_blank (starts_of c)) && negb (is_blank (starts_prefix c))
  | ConstraintProposition (Constraint.Compare c) => negb (is_blank (compare_of c)) && negb (is_blank (compare_with c))
  | OptionalAttribute query =>
      is_constant (query_the (inner (optional_query query))) && is_blank (query_cause (inner (optional_query query)))
  | AttributeProposition _ | Concept _ => true
  end.
Definition proposition_of (self : Premise) : Proposition_ := match self with Assert_ p | Unless p => p end.
Definition is_optional_lookup (self : Premise) : bool :=
  match proposition_of self with OptionalAttribute _ => true | _ => false end.

Section slots.
Implicit Types (premise : Premise) (env binds : Environment) (row : Match).

(** What a premise binds is in its slots. *)
Lemma feasible_binds premise env binds n : feasible premise env = Ok binds -> n ∈ binds ->
  is_negation premise = false /\ exists name field term, premise_schema premise !! name = Some field /\
    premise_parameters premise !! name = Some term /\ term_name term = Some n /\ (n ∉ env) /\ requirement field <> Required None.
Proof.
  intros [-> _]%feasible_Ok Hn. apply categorize_spec in Hn as (name & field & Hs & Ho & Hsup & Hneg). split; [done|].
  unfold open_variable in Ho. destruct (premise_parameters premise !! name) as [term|] eqn:Et; [|done]. simpl in Ho.
  destruct (term_name term) as [m|] eqn:Em; [|done]. case_decide; [done|]. injection Ho as ->.
  exists name, field, term. split_and!; [done..|]. unfold supplied in Hsup. intros E. by rewrite E in Hsup.
Qed.
(** What it needs can be read. *)
Lemma slot_readable premise env binds row name field term : feasible premise env = Ok binds -> covers env row ->
  premise_schema premise !! name = Some field -> premise_parameters premise !! name = Some term ->
  requirement field = Required None -> is_blank term = false -> readable row term.
Proof. intros Hf Hc Hs Hp Hr Hb. eapply bound_readable; [done|]. by eapply feasible_required. Qed.

(** In a negation every slot is needed. *)
Lemma proposition_readable (negation : bool) proposition env binds row name field term :
  feasible (if negation then Unless proposition else Assert_ proposition) env = Ok binds -> covers env row ->
  proposition_schema proposition !! name = Some field -> proposition_parameters proposition !! name = Some term ->
  requirement field = Required None -> is_blank term = false -> readable row term.
Proof.
  intros Hf Hc Hs Hp Hr Hb. destruct negation; [|by eapply slot_readable].
  eapply bound_readable; [done|]. by eapply (negation_bound proposition env binds name).
Qed.
End slots.

Section plans.
Context `{Blake3, HashOrder, TextLibrary, SelectFacts, StreamSelect, SelectRules} (probe_source : Term) (optional_lookups : bool).
Context (concept : ConceptQuery -> Selection -> Selection).
Local Abbreviation emits := (emits optional_lookups).
Local Abbreviation fails_soundly := (fails_soundly optional_lookups).
Implicit Types (row base : Match) (selection : Selection).

(** What the rules of a concept promise: rows with the variables of the query. *)
Definition concept_binds (query : ConceptQuery) : Prop := forall selection, fails_soundly selection.2 ->
  emits (concept query selection) (fun row => (exists base, base ∈ selection.1 /\ extends base row) /\
    forall name term, is_Some (concept_schema (predicate query) !! name) -> terms query !! name = Some term -> binds_term row term).

(** The rows of a proposition: it binds what its slots hold. *)
Definition fills (proposition : Proposition_) row : Prop := forall name field term,
  proposition_schema proposition !! name = Some field -> proposition_parameters proposition !! name = Some term ->
  requirement field <> Required None -> binds_term row term.

Lemma formula_slot query i name cell : length (fields query) = length (cells (formula query)) ->
  cells (formula query) !! i = Some (name, cell) ->
  exists term, fields query !! i = Some term /\ formula_parameters query !! name = Some (widen term) /\
    formula_schema query !! name = Some (mkField (cell_type cell) (cell_requirement cell) One).
Proof.
  intros Hl Hi. assert (Hnd : NoDup (cells (formula query)).*1).
  { destruct (formula query); simpl; repeat constructor; set_solver. }
  destruct (lookup_lt_is_Some_2 (fields query) i) as [term Ht]; [rewrite Hl; by eapply lookup_lt_Some|].
  exists term. split; [done|]. unfold formula_parameters, formula_schema. split; apply elem_of_list_to_map_1.
  - by rewrite fst_zip by (rewrite !length_fmap; lia).
  - apply list_elem_of_lookup. exists i. apply lookup_zip_Some. by rewrite !list_lookup_fmap, Hi, Ht.
  - rewrite <- list_fmap_compose. rewrite (list_fmap_ext _ fst); [done|]. by intros j [? ?] _.
  - apply list_elem_of_lookup. exists i. by rewrite list_lookup_fmap, Hi.
Qed.
Lemma formula_output query name field : formula_schema query !! name = Some field -> requirement field <> Required None -> name = "is".
Proof.
  unfold formula_schema. intros Hs%elem_of_list_to_map_2 Hr. apply list_elem_of_fmap in Hs as ([n cell] & [= -> ->] & Hin). simpl in Hr.
  revert Hin Hr. unfold cells, scheme_cell, typed_cell. destruct (formula query); rewrite ?elem_of_cons, elem_of_nil;
    intros Hin Hr; (repeat destruct Hin as [Hin|Hin]); try done; injection Hin as -> ->; done.
Qed.
Lemma formula_has_output query : exists i cell, cells (formula query) !! i = Some ("is", cell).
Proof.
  destruct (formula query); first [by eexists 1%nat, _|by eexists 2%nat, _].
Qed.
Lemma complete_inputs negation query env binds base :
  complete (FormulaProposition query) = true ->
  feasible (if negation : bool then Unless (FormulaProposition query) else Assert_ (FormulaProposition query)) env = Ok binds ->
  covers env base ->
  inputs_readable base (formula_parameters query) (cells (formula query)) /\ is_Some (formula_parameters query !! "is").
Proof.
  intros [Hl%bool_decide_eq_true Hc]%andb_true_iff Hf Hcov. rewrite forallb_forall in Hc. split.
  - intros name cell [i Hi]%list_elem_of_lookup Hin. destruct (formula_slot query i name cell Hl Hi) as (term & Ht & Hp & Hs).
    exists (widen term). split; [done|]. apply (proposition_readable negation _ env binds base name _ (widen term) Hf Hcov Hs Hp).
    + simpl. unfold is_input in Hin. destruct (formula query), (cell_requirement cell) as [[g|]|] eqn:Er; try done;
        exfalso; revert Hi Er; clear; unfold cells, scheme_cell, typed_cell; destruct i as [|[|[|i]]]; simpl; intros [= <- <-]; simpl; try done; by intros [=].
    + assert (Hz : In ((name, cell), term) (zip (cells (formula query)) (fields query))).
      { apply list_elem_of_In, list_elem_of_lookup. exists i. apply lookup_zip_Some. done. }
      specialize (Hc _ Hz). simpl in Hc. rewrite Hin in Hc. simpl in Hc. apply negb_true_iff in Hc. by rewrite is_blank_widen.
  - destruct (formula_has_output query) as (i & cell & Hi). destruct (formula_slot query i _ cell Hl Hi) as (term & _ & Hp & _).
    by eexists.
Qed.

(** The rows of a proposition that is not a concept. *)
Definition proposition_row (self : Proposition_) : Match -> Selection :=
  match self with
  | AttributeProposition query => dynamic_row query
  | OptionalAttribute query => optional_row (optional_query query) probe_source
  | FormulaProposition query => formula_row query
  | ConstraintProposition c => constraint_row c
  | Concept _ => fun _ => yields []
  end.
Lemma dynamic_fills query base row : scanned (inner query) base row ->
  forall name term, dynamic_parameters query !! name = Some term -> binds_term row term.
Proof.
  intros [_ (Bt & Bo & Bi & Bc)] name term [->|[->|[->| ->]]]%dynamic_parameters_cases; by rewrite ?binds_term_widen.
Qed.
(** The slots that a constraint reads. *)
Ltac slot := repeat first [rewrite lookup_insert_eq | rewrite lookup_insert_ne by done | rewrite lookup_singleton_eq]; reflexivity.
Lemma coalesce_source c : coalesce_schema c !! "source" = Some (mkField (term_kind (source c)) (Required None) One) /\
  coalesce_parameters c !! "source" = Some (source c).
Proof. unfold coalesce_schema, coalesce_parameters. split; slot. Qed.
Lemma coalesce_output c name field term : coalesce_schema c !! name = Some field -> coalesce_parameters c !! name = Some term ->
  requirement field <> Required None -> term = coalesce_is c.
Proof.
  unfold coalesce_schema, coalesce_parameters. intros Hs Hp Hr.
  rewrite !lookup_insert_Some, lookup_singleton_Some in Hs. rewrite !lookup_insert_Some, lookup_singleton_Some in Hp.
  destruct Hs as [[<- <-]|[_ [[<- <-]|[_ [<- <-]]]]]; [done|done|].
  by destruct Hp as [[? _]|[_ [[? _]|[_ [_ <-]]]]].
Qed.
Lemma type_of_slot c : type_of_schema c !! "of" = Some (mkField (Some (type_is c)) (Required None) One) /\
  type_of_parameters c !! "of" = Some (type_of c).
Proof. unfold type_of_schema, type_of_parameters. split; slot. Qed.
Lemma starts_with_slots c :
  (starts_with_schema c !! "of" = Some (mkField (Some (starts_with_content c)) (Required None) One) /\
   starts_with_parameters c !! "of" = Some (starts_of c)) /\
  (starts_with_schema c !! "prefix" = Some (mkField (Some (kind_of ValueDataType.String)) (Required None) One) /\
   starts_with_parameters c !! "prefix" = Some (widen (starts_prefix c))).
Proof. unfold starts_with_schema, starts_with_parameters. split; split; slot. Qed.
Lemma compare_slots c :
  (compare_schema c !! "of" = Some (mkField (Some (Kind.Primitive NUMERIC)) (Required None) One) /\
   compare_parameters c !! "of" = Some (compare_of c)) /\
  (compare_schema c !! "with" = Some (mkField (Some (Kind.Primitive NUMERIC)) (Required None) One) /\
   compare_parameters c !! "with" = Some (compare_with c)).
Proof. unfold compare_schema, compare_parameters. split; split; slot. Qed.
Lemma constraint_emits negation c env binds base :
  complete (ConstraintProposition c) = true ->
  feasible (if negation : bool then Unless (ConstraintProposition c) else Assert_ (ConstraintProposition c)) env = Ok binds ->
  covers env base ->
  emits (constraint_row c base) (fun row => extends base row /\ fills (ConstraintProposition c) row).
Proof.
  intros Hc Hf Hcov.
  assert (forall name field term, constraint_schema c !! name = Some field -> constraint_parameters c !! name = Some term ->
    requirement field = Required None -> is_blank term = false -> readable base term) as Hread.
  { intros name field term. exact (proposition_readable negation _ env binds base name field term Hf Hcov). }
  unfold fills. cbn [proposition_schema proposition_parameters].
  destruct c as [c|c|c|c|c]; cbn [constraint_row constraint_schema constraint_parameters] in *.
  - eapply emits_weaken; [apply equality_row_emits|].
    + destruct (equality_slots c) as ((f1 & S1 & _) & (f2 & S2 & _) & P1 & P2).
      assert (is_bound (this c) env || is_bound (eq_is c) env = true) as Hb.
      { simpl in Hc. apply negb_true_iff in Hc. destruct negation; [|by apply (equality_known _ _ _ Hf)].
        pose proof (negation_bound _ _ _ "this" _ Hf (mk_is_Some _ _ S1) P1) as H1'.
        pose proof (negation_bound _ _ _ "is" _ Hf (mk_is_Some _ _ S2) P2) as H2'.
        clear -Hc H1' H2'. destruct (is_blank (this c)); [|by rewrite H1'].
        destruct (is_blank (eq_is c)); [done|]. by rewrite H2', orb_true_r. }
      clear Hf Hread S1 S2. apply orb_true_iff in Hb as [Hb|Hb]; [left|right]; by eapply bound_readable.
    + intros row (He & B1 & B2). split; [done|]. intros name field term _ [->| ->]%equality_parameters_cases _; done.
  - simpl in Hc. apply negb_true_iff in Hc. eapply emits_weaken; [apply coalesce_row_emits|].
    + destruct (coalesce_source c) as [S P]. eapply Hread; [exact S|exact P|done..].
    + intros row [He Hb]. split; [done|]. intros name field term Hs Hp Hr.
      by rewrite (coalesce_output c name field term Hs Hp Hr).
  - simpl in Hc. apply negb_true_iff in Hc. eapply emits_weaken; [apply type_of_row_emits|].
    + destruct (type_of_slot c) as [S P]. eapply Hread; [exact S|exact P|done..].
    + intros row He. split; [done|]. intros name field term Hs Hp Hr. unfold type_of_schema in Hs.
      rewrite lookup_singleton_Some in Hs. destruct Hs as [_ <-]. done.
  - simpl in Hc. apply andb_true_iff in Hc as [H1'%negb_true_iff H2'%negb_true_iff].
    destruct (starts_with_slots c) as ([S1 P1] & [S2 P2]). eapply emits_weaken; [apply starts_with_row_emits|].
    + eapply Hread; [exact S1|exact P1|done..].
    + assert (readable base (widen (starts_prefix c))) as Hw; [|by destruct (starts_prefix c)].
      eapply Hread; [exact S2|exact P2|done|by rewrite is_blank_widen].
    + intros row He. split; [done|]. intros name field term Hs Hp Hr. unfold starts_with_schema in Hs.
      rewrite lookup_insert_Some, lookup_singleton_Some in Hs. destruct Hs as [[_ <-]|[_ [_ <-]]]; done.
  - simpl in Hc. apply andb_true_iff in Hc as [H1'%negb_true_iff H2'%negb_true_iff].
    destruct (compare_slots c) as ([S1 P1] & [S2 P2]). eapply emits_weaken; [apply compare_row_emits|].
    + eapply Hread; [exact S1|exact P1|done..].
    + eapply Hread; [exact S2|exact P2|done..].
    + intros row He. split; [done|]. intros name field term Hs Hp Hr. unfold compare_schema in Hs.
      rewrite lookup_insert_Some, lookup_singleton_Some in Hs. destruct Hs as [[_ <-]|[_ [_ <-]]]; done.
Qed.
Lemma proposition_emits negation p env binds base : (forall query, p <> Concept query) ->
  complete p = true -> (is_optional_lookup (Assert_ p) = true -> optional_lookups = true) ->
  feasible (if negation : bool then Unless p else Assert_ p) env = Ok binds -> covers env base ->
  emits (proposition_row p base) (fun row => extends base row /\ fills p row).
Proof.
  intros Hnc Hc Hopt Hf Hcov. destruct p as [query|query|query|query|c]; [by destruct (Hnc query)| | | |].
  - destruct (complete_inputs negation query env binds base Hc Hf Hcov) as [Hin His].
    eapply emits_weaken; [by apply formula_row_emits|]. intros row [He Hb]. split; [done|].
    intros name field term Hs Hp Hr. apply formula_output in Hs; [|done]. subst name. by apply Hb.
  - eapply emits_weaken; [apply dynamic_row_emits|]. intros row Hrow. split; [apply Hrow|].
    intros name field term _ Hp _. by eapply dynamic_fills.
  - simpl in Hc. apply andb_true_iff in Hc as [Ht Hca]. eapply emits_weaken; [apply optional_row_emits; [by apply Hopt|done..]|].
    intros row Hrow. split; [apply Hrow|]. intros name field term _ Hp _. by eapply dynamic_fills.
  - by eapply constraint_emits.
Qed.

Definition derived selection row : Prop := exists base, base ∈ selection.1 /\ extends base row.
Lemma lowered_emits negation p env binds header selection :
  (forall query, p = Concept query -> concept_binds query) ->
  complete p = true -> (is_optional_lookup (Assert_ p) = true -> optional_lookups = true) ->
  feasible (if negation : bool then Unless p else Assert_ p) env = Ok binds ->
  fails_soundly selection.2 -> (forall base, base ∈ selection.1 -> covers env base) ->
  emits (plan_evaluate probe_source concept (lower_proposition p header) selection) (fun row => derived selection row /\ fills p row).
Proof.
  intros Hconcept Hc Hopt Hf Hs Hcov.
  assert ((exists query, p = Concept query) \/ forall query, p <> Concept query) as [[query ->]|Hnc] by (destruct p; eauto).
  - simpl. eapply emits_weaken; [by apply (Hconcept query eq_refl)|]. intros row [Hd Hb]. split; [done|].
    intros name field term Hn Hp _. by apply (Hb name); [exists field|].
  - replace (plan_evaluate probe_source concept (lower_proposition p header) selection) with (for_each selection (proposition_row p))
      by (destruct p as [query| | | |]; [by destruct (Hnc query)|reflexivity..]).
    apply emits_each; [done|]. intros base Hin. eapply emits_weaken; [by eapply proposition_emits; eauto|].
    intros row [He Hfill]. split; [by exists base|done].
Qed.
Lemma premise_emits premise env binds header selection :
  (forall query, proposition_of premise = Concept query -> concept_binds query) ->
  complete (proposition_of premise) = true -> (is_optional_lookup premise = true -> optional_lookups = true) ->
  feasible premise env = Ok binds -> fails_soundly selection.2 -> (forall base, base ∈ selection.1 -> covers env base) ->
  emits (plan_evaluate probe_source concept (lower premise header) selection) (fun row => derived selection row /\ covers (env ∪ binds) row).
Proof.
  intros Hconcept Hc Hopt Hf Hs Hcov. destruct premise as [p|p]; cbn [proposition_of lower] in *.
  - eapply emits_weaken; [by apply (lowered_emits false p env binds)|].
    intros row [(base & Hin & He) Hfill]. split; [by exists base|]. intros n [Hn|Hn]%elem_of_union.
    + eapply extends_binds; [done|]. by apply (Hcov base).
    + destruct (feasible_binds _ _ _ _ Hf Hn) as (_ & name & field & term & Hsch & Hp & Hname & _ & Hreq).
      exact (Hfill name field term Hsch Hp Hreq n Hname).
  - cbn [plan_evaluate]. apply emits_each; [done|]. intros base Hin.
    destruct (lowered_emits true p env binds header (seed base) Hconcept Hc Hopt Hf) as [_ He];
      [apply fails_soundly_Ok|by intros ? ->%list_elem_of_singleton; apply Hcov|].
    destruct (plan_evaluate _ _ _ (seed base)) as [[|r rows] status]; [|apply emits_none].
    assert (emits (yields [base]) (fun row => derived selection row /\ covers (env ∪ binds) row)) as Hbase.
    { apply emits_one. split; [by exists base; split; [|apply extends_refl]|]. intros n [Hn|Hn]%elem_of_union; [by apply (Hcov base)|].
      by destruct (feasible_binds _ _ _ _ Hf Hn) as [Hneg _]. }
    destruct status; [exact Hbase|apply emits_fails; exact He..].
Qed.

(** The steps of a plan in order, from what is bound before to what is bound after. *)
Inductive run_order (premises : list Premise) : Environment -> list Plan -> Environment -> Prop :=
  | run_done env : run_order premises env [] env
  | run_step env premise binds header rest env' :
      premise ∈ premises -> feasible premise env = Ok binds -> run_order premises (env ∪ binds) rest env' ->
      run_order premises env (lower premise header :: rest) env'.

Lemma steps_emit premises env plans env' : run_order premises env plans env' ->
  (forall premise query, premise ∈ premises -> proposition_of premise = Concept query -> concept_binds query) ->
  (forall premise, premise ∈ premises -> complete (proposition_of premise) = true /\ (is_optional_lookup premise = true -> optional_lookups = true)) ->
  forall selection, fails_soundly selection.2 -> (forall base, base ∈ selection.1 -> covers env base) ->
  emits (foldl (fun selection plan => plan_evaluate probe_source concept plan selection) selection plans)
    (fun row => derived selection row /\ covers env' row).
Proof.
  intros Hrun Hconcept Hok. induction Hrun as [env|env premise binds header rest env' Hin Hf Hrun IH]; intros selection Hs Hcov; cbn [foldl].
  - split; [|done]. intros row Hrow. split; [exists row; split; [done|apply extends_refl]|by apply Hcov].
  - destruct (Hok premise Hin) as [Hc Hopt].
    destruct (premise_emits premise env binds header selection (fun query => Hconcept premise query Hin) Hc Hopt Hf Hs Hcov) as [Hr He].
    eapply emits_weaken; [apply IH; [exact He|intros base Hb%Hr; apply Hb]|].
    intros row [(mid & Hmid & Hext) Hcr]. split; [|done]. apply Hr in Hmid as [(base & Hb & Hext') _].
    exists base. split; [done|]. by eapply extends_trans.
Qed.
End plans.

(** * Plans of the planner *)
Lemma cheapest_feasible bound : forall remaining index best cost i binds,
  cheapest bound index remaining best = Ok (Some (cost, i, binds)) ->
  best = Some (cost, i, binds) \/
  exists k premise, i = (index + k)%nat /\ remaining !! k = Some premise /\ feasible premise bound = Ok binds.
Proof.
  induction remaining as [|premise remaining IH]; intros index best cost i binds; cbn [cheapest]; [intros [= ->]; by left|].
  assert (forall best', cheapest bound (S index) remaining best' = Ok (Some (cost, i, binds)) ->
    best' = Some (cost, i, binds) \/ exists k p, i = (index + k)%nat /\ (premise :: remaining) !! k = Some p /\ feasible p bound = Ok binds) as Hrest.
  { intros best' [?|(k & p & -> & Hk & Hf)]%IH; [by left|right]. exists (S k), p. split_and!; [lia|done|done]. }
  destruct (feasible premise bound) as [b| | |] eqn:Ef; [|exact (Hrest best)..].
  destruct (premise_estimate premise bound) as [estimate| | |]; try discriminate. cbv zeta. intros [E|?]%Hrest; [|by right].
  assert (exists k p, i = (index + k)%nat /\ (premise :: remaining) !! k = Some p /\ feasible p bound = Ok binds \/ best = Some (cost, i, binds)) as Hcase.
  { exists 0%nat, premise. destruct best as [[[c j] b']|]; [destruct (_ <? c)%N|]; [|by right|];
      injection E as <- <- <-; left; (split; [lia|done]). }
  destruct Hcase as (k & p & [?| ->]); [right; by exists k, p|by left].
Qed.
Lemma plan_loop_run premises : forall fuel remaining bound steps cost out total env,
  (forall p, p ∈ remaining -> p ∈ premises) -> plan_loop fuel remaining bound steps cost = Ok (out, total, env) ->
  exists rest, out = steps ++ rest /\ run_order premises bound rest env.
Proof.
  induction fuel as [|fuel IH]; intros remaining bound steps cost out total env Hin Hloop.
  - destruct remaining; [|discriminate]. injection Hloop as <- _ <-. exists []. split; [by rewrite app_nil_r|constructor].
  - destruct remaining as [|first others]; [injection Hloop as <- _ <-; exists []; split; [by rewrite app_nil_r|constructor]|].
    cbn [plan_loop] in Hloop. set (remaining := first :: others) in *.
    apply bind_Ok_inv in Hloop as (best & Hbest & Hloop). destruct best as [[[c i] binds]|].
    + apply cheapest_feasible in Hbest as [?|(k & premise & -> & Hk & Hf)]; [done|]. simpl plus in Hloop.
      unfold index_or_panic in Hloop. rewrite Hk, bind_Ok in Hloop. apply bind_Ok_inv in Hloop as (cost' & _ & Hloop).
      destruct (IH _ _ _ _ _ _ _ (fun p Hp => Hin p (list_elem_of_delete_inv _ _ _ Hp)) Hloop) as (rest & -> & Hrun).
      exists (lower premise (mkHeader c binds bound) :: rest). split; [by rewrite <- app_assoc|].
      econstructor; [|done|done]. apply Hin. by eapply list_elem_of_lookup_2.
    + exfalso. clear IH Hin. revert Hloop. generalize remaining. intros l. induction l as [|p l IHl]; simpl; [done|].
      destruct (feasible p bound); [done| |done..]. by case_decide.
Qed.
Lemma run_order_grows premises env plans env' : run_order premises env plans env' -> env ⊆ env'.
Proof. induction 1; set_solver. Qed.

(** * Concepts extend the rows of their query *)
Section concepts.
Context `{Blake3, HashOrder, TextLibrary, SelectFacts, StreamSelect, SelectRules} (probe_source : Term).
Implicit Types (s selection : Selection) (row base : Match).

Lemma let_rows {A} (o : eval A) k row : row ∈ (let_ok o k).1 -> exists a, o = Ok a /\ row ∈ (k a).1.
Proof. destruct o; simpl; [eauto|by intros ?%not_elem_of_nil..]. Qed.
Lemma each_rows s body row : row ∈ (for_each s body).1 -> exists base, base ∈ s.1 /\ row ∈ (body base).1.
Proof.
  unfold for_each. induction (s.1) as [|base rows IH]; simpl; [by intros ?%not_elem_of_nil|].
  assert (forall t, row ∈ (chain (body base) t).1 -> row ∈ (body base).1 \/ row ∈ t.1) as Hchain.
  { intros t. unfold chain. destruct ((body base).2); simpl; [by rewrite elem_of_app|auto..]. }
  intros [?|(b & ? & ?)%IH]%Hchain; [exists base|exists b]; split; try done; [by left|by right].
Qed.
Lemma merge_parameters_extends base result terms row : merge_parameters base result terms = Ok row -> extends base row.
Proof.
  unfold merge_parameters. generalize (hash_iter terms). intros l. revert base.
  induction l as [|[name term] l IH]; intros base; simpl; [intros [= <-]; apply extends_refl|].
  intros (mid & Hmid & Hrest%IH)%bind_Ok_inv. eapply extends_trans; [|done]. clear Hrest IH.
  unfold merge_parameter in Hmid. destruct (is_constant term); [injection Hmid as <-; apply extends_refl|].
  cbn [lookup_term any_var var] in Hmid. destruct (bindings result !! name) as [[v|]|].
  - by apply bind_row in Hmid as [? _].
  - by apply bind_absent_row in Hmid as [? _].
  - injection Hmid as <-. apply extends_refl.
Qed.
Lemma concept_evaluate_derived fuel query selection row :
  row ∈ (concept_evaluate probe_source fuel query selection).1 -> derived selection row.
Proof.
  destruct fuel as [|fuel]; cbn [concept_evaluate]; [by intros ?%not_elem_of_nil|]. unfold concept_rows.
  destruct selection as [[|first rows] status]; [by intros ?%not_elem_of_nil|].
  intros (plan & _ & (input & Hin & (initial & _ & (result & _ & (merged & Hm & ->%list_elem_of_singleton)%let_rows)%each_rows)%let_rows)%each_rows)%let_rows.
  exists input. split; [done|]. unfold boundary in Hm. destruct (merge_parameters _ _ _) eqn:E; try done. injection Hm as <-.
  by eapply merge_parameters_extends.
Qed.

(** A concept keeps the promise of its schema if its rows bind the variables of the
    query, whatever rows it is given. *)
Definition keeps_promise (optional_lookups : bool) (fuel : nat) (query : ConceptQuery) : Prop :=
  forall selection, fails_soundly optional_lookups selection.2 ->
  emits optional_lookups (concept_evaluate probe_source fuel query selection) (fun row =>
    forall name term, is_Some (concept_schema (predicate query) !! name) -> terms query !! name = Some term -> binds_term row term).

(** What the plan of any conjunction yields, for the rules below. *)
Lemma planned_rows_spec premises types scope join fuel selection :
  let narrowed := (fun premise => apply_types premise types) <$> premises in
  let optional_lookups := existsb is_optional_lookup narrowed in
  planner_plan premises types scope = Ok join ->
  Forall (fun premise => complete (proposition_of premise) = true) narrowed ->
  (forall premise query, premise ∈ narrowed -> proposition_of premise = Concept query -> keeps_promise optional_lookups fuel query) ->
  (forall e, selection.2 = Err e -> sound_error optional_lookups e) ->
  (forall base, base ∈ selection.1 -> covers scope base) ->
  let out := join_evaluate probe_source fuel join selection in
  (forall row, row ∈ out.1 -> (exists base, base ∈ selection.1 /\ bindings base ⊆ bindings row) /\ covers (scope ∪ conjunction_binds join) row) /\
  (forall e, out.2 = Err e -> sound_error optional_lookups e).
Proof.
  intros narrowed optional_lookups Hplan Hcomplete Hconcept Hs Hcov. unfold planner_plan in Hplan. fold narrowed in Hplan.
  apply bind_Ok_inv in Hplan as ([[plans total] bound] & Hloop & [= <-]).
  destruct (plan_loop_run narrowed (length narrowed) narrowed scope [] 0%N plans total bound) as (rest & -> & Hrun); [done..|].
  pose proof (run_order_grows _ _ _ _ Hrun) as Hgrows. rewrite Forall_forall in Hcomplete.
  destruct (steps_emit probe_source optional_lookups (concept_evaluate probe_source fuel) narrowed scope rest bound Hrun) with (selection := selection) as [Hr He].
  - intros premise query Hin Hq sel Hsel. destruct (Hconcept premise query Hin Hq sel Hsel) as [Hrows Herr].
    split; [|done]. intros row Hrow. split; [by eapply concept_evaluate_derived|by apply Hrows].
  - intros premise Hin. split; [by apply Hcomplete|]. intros Ho. apply existsb_exists. exists premise.
    split; [by apply list_elem_of_In|done].
  - done.
  - done.
  - split; [|exact He]. intros row Hrow. destruct (Hr row Hrow) as [Hd Hc]. split; [exact Hd|].
    intros n Hn. apply Hc. cbn [conjunction_binds] in Hn. set_solver.
Qed.

End concepts.

(** * Compiled rules *)
(** Running the premises in another order, from more, binds no less. *)
Lemma run_order_feasible premises env plans env' : run_order premises env plans env' ->
  forall premise, premise ∈ as_premise <$> plans ->
    exists at_ binds, at_ ⊆ env' /\ feasible premise at_ = Ok binds /\ binds ⊆ env'.
Proof.
  induction 1 as [env|env premise binds header rest env' Hin Hf Hrun IH]; intros p Hp.
  - by apply not_elem_of_nil in Hp.
  - rewrite fmap_cons, as_premise_lower in Hp. pose proof (run_order_grows _ _ _ _ Hrun) as Hg.
    apply elem_of_cons in Hp as [->|Hp]; [|by apply IH]. exists env, binds. split; [set_solver|]. split; [done|set_solver].
Qed.
Lemma run_order_confluent premises scope scope' plans plans' env env' :
  run_order premises scope plans env -> run_order premises scope' plans' env' ->
  (as_premise <$> plans) ≡ₚ (as_premise <$> plans') -> scope ⊆ env' -> env ⊆ env'.
Proof.
  intros Hrun Hrun' Hp. pose proof (run_order_feasible _ _ _ _ Hrun') as Hfeas.
  assert (forall p, p ∈ as_premise <$> plans -> p ∈ as_premise <$> plans') as Hin by (intros p; by rewrite Hp).
  clear Hp Hrun'. induction Hrun as [env|env premise binds header rest last Hpr Hf Hrun IH]; intros Hs; [done|].
  rewrite fmap_cons, as_premise_lower in Hin.
  destruct (Hfeas premise (Hin _ ltac:(by left))) as (at_ & b & Hat & Hf' & Hb).
  destruct (feasible_mono premise env env' binds Hs Hf) as (b1 & Hf1 & E1).
  destruct (feasible_mono premise at_ env' b Hat Hf') as (b2 & Hf2 & E2).
  rewrite Hf1 in Hf2. injection Hf2 as <-. apply IH; [intros p Hp; apply Hin; by right|]. set_solver.
Qed.
Lemma plan_loop_premises : forall fuel remaining bound steps cost out total env,
  plan_loop fuel remaining bound steps cost = Ok (out, total, env) -> as_premise <$> out ≡ₚ (as_premise <$> steps) ++ remaining.
Proof.
  induction fuel as [|fuel IH]; intros remaining bound steps cost out total env Hloop.
  - destruct remaining; [|discriminate]. injection Hloop as <- _ _. by rewrite app_nil_r.
  - destruct remaining as [|first others]; [injection Hloop as <- _ _; by rewrite app_nil_r|].
    cbn [plan_loop] in Hloop. set (remaining := first :: others) in *.
    apply bind_Ok_inv in Hloop as (best & Hbest & Hloop). destruct best as [[[c i] binds]|].
    + apply bind_Ok_inv in Hloop as (premise & Hi & Hloop). apply bind_Ok_inv in Hloop as (cost' & _ & Hloop).
      apply IH in Hloop. rewrite Hloop, fmap_app, <- app_assoc. cbn [fmap list_fmap]. rewrite as_premise_lower.
      unfold index_or_panic in Hi. destruct (remaining !! i) as [p|] eqn:E; [|done]. injection Hi as <-.
      apply Permutation_app_head. symmetry. by apply delete_Permutation.
    + exfalso. clear IH. revert Hloop. generalize remaining. intros l. induction l as [|p l IHl]; simpl; [done|].
      destruct (feasible p bound); [done| |done..]. by case_decide.
Qed.
Lemma planner_binds_mono `{HashOrder} premises types scope first join :
  planner_plan premises types ∅ = Ok first -> planner_plan premises types scope = Ok join ->
  conjunction_binds first ⊆ scope ∪ conjunction_binds join.
Proof.
  unfold planner_plan. set (narrowed := (fun premise => apply_types premise types) <$> premises).
  intros Hfirst Hjoin. apply bind_Ok_inv in Hfirst as ([[plans total] bound] & Hloop & [= <-]).
  apply bind_Ok_inv in Hjoin as ([[plans' total'] bound'] & Hloop' & [= <-]).
  destruct (plan_loop_run narrowed _ _ _ _ _ _ _ _ (fun p Hp => Hp) Hloop) as (rest & Erest & Hrun).
  destruct (plan_loop_run narrowed _ _ _ _ _ _ _ _ (fun p Hp => Hp) Hloop') as (rest' & Erest' & Hrun'). simpl in Erest, Erest'. subst rest rest'.
  apply plan_loop_premises in Hloop, Hloop'. simpl in Hloop, Hloop'.
  assert (bound ⊆ bound') as Hb.
  { eapply (run_order_confluent narrowed ∅ scope); [exact Hrun|exact Hrun'|by rewrite Hloop, Hloop'|apply empty_subseteq]. }
  cbn [conjunction_binds]. intros n [Hn _]%elem_of_difference. apply Hb in Hn.
  apply elem_of_union. destruct (decide (n ∈ scope)) as [|Hs]; [by left|right]. by apply elem_of_difference.
Qed.

Lemma find_head_None p concept name : find_head p concept = None -> name ∈ required_operands concept -> p name = false.
Proof.
  unfold find_head. intros Hh Hn. destruct (p name) eqn:E; [|done]. exfalso.
  assert (name ∈ filter (fun name => p name = true) (required_operands concept)) as Hin by by apply list_elem_of_filter.
  destruct (filter _ _); [by apply not_elem_of_nil in Hin|done].
Qed.
Lemma analyze_premises `{HashOrder} concept premises analysis :
  map_err type_error (analyze concept premises) = Ok analysis -> rule_premises analysis = premises.
Proof.
  unfold analyze. destruct (map_err _ (infer premises)) as [types| | |]; [|discriminate..]. rewrite bind_Ok.
  destruct (find_head _ concept); [discriminate|]. destruct (negb _); [discriminate|]. destruct (existsb _ _); [discriminate|].
  intros E. injection E as <-. reflexivity.
Qed.

