(* ===== verification/Session.v ===== *)
(** Statements, transactions and query sessions: what is asserted of concepts
    (rust/dialog-query/src: attribute/descriptor.rs, attribute/statement.rs,
    concept/descriptor.rs, statement.rs), what a repository says of itself
    (rust/dialog-repository/src/schema.rs, branch/metadata.rs), reading a branch
    (branch/select.rs), the rules its tree holds and their caches (rules.rs), and
    the environment a query runs in (branch/session.rs, branch/transaction.rs,
    branch/transaction/query.rs). *)
From Stdlib Require Import String.
From S2P Require Import Prelude Common Nodes Walker TransientTree Artifact ArtifactKeys ArtifactTree Layer Providers Cells Revisions Sync.
From S2P Require Import TypeSystem Terms Constraints Formulas AttributeQuery Premises Planner Rules.

(** * Statements *)
Class Statement (S : Type) := {
  statement_assert : S -> Changes -> Changes;
  statement_retract : S -> Changes -> Changes
}.
#[export] Instance changes_statement : Statement Changes := {|
  statement_assert := assert_changes; statement_retract := retract_changes
|}.

(** [Retraction], and [StatementExt::revert] and [!] of a statement. *)
Record Retraction (S : Type) := mkRetraction { retracted : S }.
Arguments mkRetraction {S} _.
Arguments retracted {S} _.
Definition revert {S} (self : S) : Retraction S := mkRetraction self.
Definition retraction_not {S} (self : Retraction S) : S := retracted self.

(** [AttributeStatement], a [DynamicAttributeExpression] of concrete parts. *)
Record AttributeStatement := mkStatement {
  statement_the : Attribute; statement_of : Entity; statement_is : Value.t;
  statement_cause : option bytes; statement_cardinality : option Cardinality
}.
Definition attribute_assert (self : AttributeStatement) (update : Changes) : Changes :=
  match statement_cardinality self with
  | Some One => associate_unique update (statement_the self) (statement_of self) (statement_is self)
  | _ => associate update (statement_the self) (statement_of self) (statement_is self)
  end.
Definition attribute_retract (self : AttributeStatement) (update : Changes) : Changes :=
  dissociate update (statement_the self) (statement_of self) (statement_is self).
#[export] Instance attribute_statement : Statement AttributeStatement := {|
  statement_assert := attribute_assert; statement_retract := attribute_retract
|}.
(** [#[derive(Concept)]]: the statements of the fields, in order. *)
#[export] Instance statements_statement : Statement (list AttributeStatement) := {|
  statement_assert l update := fold_left (fun update s => attribute_assert s update) l update;
  statement_retract l update := fold_left (fun update s => attribute_retract s update) l update
|}.

(** [Attribution] and [AttributeDescriptor::resolve]; the error waits for the name
    of the field ([FieldTypeError::at]). *)
Record Attribution := mkAttribution { attribution_the : Attribute; attribution_is : Value.t; attribution_cardinality : Cardinality }.
Definition attribute_resolve (self : AttributeDescriptor) (binding : string) (value : Value.t) : outcome TypeError Attribution :=
  let attribution := mkAttribution (attribute_the self) value (attribute_cardinality self) in
  match attribute_content_type self with
  | Some expected =>
      if decide (data_type value = expected) then Ok attribution
      else Err (TypeMismatch binding expected value)
  | None => Ok attribution
  end.

(** [AttributeDescriptor::check] and [conform], and [ConceptDescriptor::conform] and
    [apply]: every parameter passes. *)
Definition attribute_check (self : AttributeDescriptor) (parameter : Term) : outcome TypeError unit :=
  match attribute_content_type self, term_kind parameter ≫= as_value_type with
  | None, _ => Ok tt
  | _, None => Ok tt
  | Some _, Some _ => Ok tt
  end.
Definition attribute_conform (self : AttributeDescriptor) (parameter : option Term) : outcome TypeError unit :=
  match parameter with Some param => attribute_check self param | None => Ok tt end.
Fixpoint conform_fields (fields : NamedAttributes) (parameters : Parameters) : outcome TypeError unit :=
  match fields with
  | [] => Ok tt
  | (name, field) :: fields => _ ← attribute_conform (descriptor field) (parameters !! name); conform_fields fields parameters
  end.
Definition conform (self : ConceptDescriptor) (parameters : Parameters) : outcome TypeError Parameters :=
  _ ← conform_fields (with_ self) parameters; Ok parameters.
Definition concept_apply (self : ConceptDescriptor) (parameters : Parameters) : outcome TypeError ConceptQuery :=
  terms ← conform self parameters; Ok (mkConceptQuery self terms).

(** [Model], [ConceptStatement] and [Builder]. *)
Record Model := mkModel { model_this : Entity; model_attributes : gmap string Value.t }.
Record ConceptStatement := mkConceptStatement { statement_this : Entity; attributes : list Attribution }.
Fixpoint conform_relations (fields : NamedAttributes) (given : gmap string Value.t) : outcome TypeError (list Attribution) :=
  match fields with
  | [] => Ok []
  | (name, field) :: fields =>
      match given !! name with
      | Some value =>
          relation ← attribute_resolve (descriptor field) name value;
          relations ← conform_relations fields given; Ok (relation :: relations)
      | None => if optional_field field then conform_relations fields given else Err (OmittedRequirement name)
      end
  end.
Definition conform_model (self : ConceptDescriptor) (model : Model) : outcome TypeError ConceptStatement :=
  relations ← conform_relations (with_ self) (model_attributes model); Ok (mkConceptStatement (model_this model) relations).

Record Builder := mkBuilder { builder_predicate : ConceptDescriptor; builder_model : Model }.
Definition builder_edit (this : Entity) (predicate : ConceptDescriptor) : Builder := mkBuilder predicate (mkModel this ∅).
Definition builder_with (self : Builder) (name : string) (value : Value.t) : Builder :=
  mkBuilder (builder_predicate self)
    (mkModel (model_this (builder_model self)) (<[name := value]> (model_attributes (builder_model self)))).
Definition builder_build (self : Builder) : outcome TypeError ConceptStatement :=
  conform_model (builder_predicate self) (builder_model self).

(** [impl Statement for ConceptStatement]. *)
Definition concept_assert (self : ConceptStatement) (update : Changes) : Changes :=
  fold_left (fun update a => associate update (attribution_the a) (statement_this self) (attribution_is a)) (attributes self) update.
Definition concept_retract (self : ConceptStatement) (update : Changes) : Changes :=
  fold_left (fun update a => dissociate update (attribution_the a) (statement_this self) (attribution_is a)) (attributes self) update.
#[export] Instance concept_statement : Statement ConceptStatement := {|
  statement_assert := concept_assert; statement_retract := concept_retract
|}.

(** * What a repository says of itself *)
(** The serialized forms that entities are named by. *)
Class SchemaCodec := {
  encode_origin : Did -> Did -> bytes;
  encode_branch : Entity -> string -> bytes
}.
(** The attribute of a name that is written in the code. *)
Definition literal_attribute (name : string) : Attribute :=
  Artifact.mkAttribute (ascii name) (zero_padded ATTRIBUTE_LENGTH (ascii name)).

Section schema.
Context `{Blake3, Url, Base58, SchemaCodec}.

Definition expect_entity {E} (message : string) (s : bytes) : outcome E Entity :=
  match Entity_from_str s with Ok e => Ok e | _ => Panic message end.
(** [EntityExt::of] and [DidExt::this]. *)
Definition entity_of {E} (encoded : bytes) : outcome E Entity :=
  expect_entity "did:key URI formed from a 32-byte hash is always valid"
    (ascii "did:key:z6Mk" ++ ascii (to_base58 (as_bytes (blake3 encoded)))).
Definition did_entity {E} (did : Did) : outcome E Entity := expect_entity "DID string is always a valid Entity URI" (ascii did).

(** A field of a derived concept. *)
Definition fact_one (the : string) (this : Entity) (v : Value.t) : AttributeStatement :=
  mkStatement (literal_attribute the) this v None (Some One).

(** [Origin], [Branch] and [BranchRevision], as the statements of their fields. *)
Definition origin_new {E} (profile subject : Did) : outcome E (Entity * list AttributeStatement) :=
  this ← entity_of (encode_origin subject profile);
  subject ← did_entity subject;
  profile ← did_entity profile;
  Ok (this, [fact_one "dialog.origin/subject" this (Value.Entity subject);
             fact_one "dialog.origin/profile" this (Value.Entity profile)]).
Definition branch_concept_new {E} (origin : Entity) (name : string) : outcome E (Entity * list AttributeStatement) :=
  this ← entity_of (encode_branch origin name);
  Ok (this, [fact_one "dialog.branch/name" this (Value.String (ascii name));
             fact_one "dialog.branch/origin" this (Value.Entity origin)]).
Definition branch_revision_facts (this : Entity) (r : Revision) : list AttributeStatement :=
  [fact_one "dialog.branch/tree" this (Value.String (ascii (to_base58 (as_bytes (tree_hash (tree r))))));
   fact_one "dialog.branch/period" this (Value.UnsignedInt (period r));
   fact_one "dialog.branch/moment" this (Value.UnsignedInt (moment r))].

(** [BranchMetadata] and [Branch::metadata]. *)
Record BranchMetadata := mkMetadata { metadata_branch : Entity; metadata_facts : list AttributeStatement }.
Definition branch_metadata {E} (subject : Did) (name : string) (revision : option Revision) (operator : Did * Did)
    : outcome E BranchMetadata :=
  '(origin, origin_facts) ← origin_new operator.2 subject;
  '(this, branch_facts) ← branch_concept_new origin name;
  Ok (mkMetadata this (origin_facts ++ branch_facts ++
        match revision with Some r => branch_revision_facts this r | None => [] end)).
End schema.

(** * The rules of a repository *)
(** The texts of errors, which only their readers look at. *)
Class RuleMessages := {
  debug_artifacts : DialogArtifactsError -> string;
  cbor_failure : bytes -> string;
  display_type_error : TypeError -> string
}.
Definition conclusion_attr : Attribute := literal_attribute "db.rule/conclusion".
Definition source_attr : Attribute := literal_attribute "db.rule/source".

Section rules.
Context `{Blake3, Url, HashOrder, RuleCodec, RuleMessages}.

Definition conclusion_selector (concept : Entity) : ArtifactSelector :=
  selector_is (selector_the selector_new conclusion_attr) (Value.Entity concept).
Definition source_selector (rule : Entity) : ArtifactSelector :=
  selector_of (selector_the selector_new source_attr) rule.

(** [hydrate]. *)
Definition hydrate_rule (source : bytes) : eval DeductiveRule :=
  match rule_decode source with
  | None => Err (EvaluationError.Store ("rule hydrate: dag-cbor decode failed: " +:+ cbor_failure source))
  | Some compiled => map_err (fun reason => EvaluationError.Store ("rule hydrate: " +:+ display_type_error reason)) compiled
  end.
Definition rule_entities (conclusion_claims : list Artifact) : list Entity := artifact_of <$> conclusion_claims.
Fixpoint source_bytes (source_claims : list Artifact) : option bytes :=
  match source_claims with
  | [] => None
  | a :: source_claims => match artifact_is a with Value.Bytes b => Some b | _ => source_bytes source_claims end
  end.

(** [RuleCache]: a read and a write of the lock are one step each. *)
Record RuleCache := mkRuleCache { discovery : gmap Entity (Revision * list Entity); bodies : gmap Entity DeductiveRule }.
Definition rule_cache_new : RuleCache := mkRuleCache ∅ ∅.
Definition discovered (self : RuleCache) (concept : Entity) (head : Revision) : option (list Entity) :=
  match discovery self !! concept with
  | Some (scanned_at, entities) => if decide (scanned_at = head) then Some entities else None
  | None => None
  end.
Definition record_discovery (concept : Entity) (head : Revision) (entities : list Entity) (self : RuleCache) : RuleCache :=
  mkRuleCache (<[concept := (head, entities)]> (discovery self)) (bodies self).
Definition cached_body (self : RuleCache) (rule : Entity) : option DeductiveRule := bodies self !! rule.
Definition record_body (rule : Entity) (body : DeductiveRule) (self : RuleCache) : RuleCache :=
  mkRuleCache (discovery self) (<[rule := body]> (bodies self)).

(** [assemble]: the implicit rule, and the installed ones on top; plans are computed
    where the code looks them up in the shared cache. *)
Definition assemble {E} (concept : ConceptDescriptor) (rules : list DeductiveRule) (unique : nat -> Term) : outcome E ConceptRules :=
  concept_rules ← concept_rules_new concept unique; Ok (foldl install concept_rules rules).

(** [overlay_rules]: the rules that pending changes assert; of the sources of a
    rule, the first that can be hydrated. *)
Definition concludes (concept : Entity) (change : Entity * Attribute * Change.t) : option Entity :=
  let '(entity, attribute, change) := change in
  if decide (attribute = conclusion_attr) then
    match change_value change with
    | Some (Value.Entity c) => if decide (c = concept) then Some entity else None
    | _ => None
    end
  else None.
Fixpoint overlay_source (rule : Entity) (l : list (Entity * Attribute * Change.t)) : eval (list DeductiveRule) :=
  match l with
  | [] => Ok []
  | (entity, attribute, change) :: l =>
      if decide (entity = rule /\ attribute = source_attr) then
        match change_value change with
        | Some (Value.Bytes source) =>
            match hydrate_rule source with
            | Ok body => Ok [body]
            | Err _ => overlay_source rule l
            | Panic m => Panic m
            | OutOfFuel => OutOfFuel
            end
        | _ => overlay_source rule l
        end
      else overlay_source rule l
  end.
Fixpoint overlay_each (rules : list Entity) (l : list (Entity * Attribute * Change.t)) : eval (list DeductiveRule) :=
  match rules with
  | [] => Ok []
  | rule :: rules => found ← overlay_source rule l; rest ← overlay_each rules l; Ok (found ++ rest)
  end.
Definition overlay_rules (changes : Changes) (concept : Entity) : eval (list DeductiveRule) :=
  overlay_each (omap (concludes concept) (changes_iter changes)) (changes_iter changes).

(** The entity of a concept. *)
Definition concept_entity {E} (concept : ConceptDescriptor) : outcome E Entity :=
  expect_entity "valid entity URI" (concept_this concept).
End rules.

(** * Reading a branch *)
(** A branch with its caches of rules, which its handles share. *)
Record Handle := mkHandle { handle_branch : Branch; rule_cache : positive }.
(** What a session works on. *)
Record SessionState (W : Type) := mkSession { session_world : W; rule_caches : gmap positive RuleCache }.
Arguments mkSession {W} _ _.
Arguments session_world {W} _.
Arguments rule_caches {W} _.
#[export] Instance session_part {W} : Part (SessionState W) W := {|
  part := session_world; set_part w s := mkSession w (rule_caches s)
|}.
Definition cache_of {W} (self : Handle) (s : SessionState W) : RuleCache := default rule_cache_new (rule_caches s !! rule_cache self).
Definition write_cache {W E} (self : Handle) (f : RuleCache -> RuleCache) : stateful (SessionState W) E unit :=
  modify (fun s => mkSession (session_world s) (<[rule_cache self := f (cache_of self s)]> (rule_caches s))).

(** [TryStreamExt::try_collect]. *)
Definition try_collect {E A} (stream : list A * outcome E ()) : outcome E (list A) :=
  _ ← stream.2; Ok stream.1.

Section reading.
Context {L N Site : Type} `{!Codecs Site, !MemoryProvider L, !ArchiveProvider L, !ForkProvider Site N, !Identity}.
Context `{Blake3, Url, HashOrder, RuleCodec, RuleMessages, Base58, SchemaCodec, !NodeCodec KeyBytes State, !Distribution}.
(** The blocks that the lazy reads of a selector ask for, the fuel of a scan, and
    the names of fresh variables. *)
Context (reads : Branch -> ArtifactSelector -> list Blake3Hash) (fuel : nat) (unique : nat -> Term).
Local Abbreviation world := (World L N (cached Site)).
Local Abbreviation session := (SessionState world).

(** [Select::execute]: the root is probed, then the tree is scanned. *)
Definition select_execute (self : Branch) (remote : option (RemoteRepository Site)) (selector : ArtifactSelector)
    : stateful world DialogSearchTreeError ArtifactStream :=
  let subject := branch_of (reference self) in
  revision ← asks (branch_revision self);
  let root := match revision with Some r => tree_hash (tree r) | None => EMPTY_TREE_HASH end in
  _ ← (if decide (root = EMPTY_TREE_HASH) then mret tt
       else found ← or_err StorageError (networked_get subject remote root);
            match found with
            | Some _ => mret tt
            | None => lift_outcome (Err (NodeError ("Blob not found in storage: " +:+ to_base58 (as_bytes root))))
            end);
  acc ← asks (networked_accessor subject remote);
  _ ← attempt (hydrate subject remote (reads self selector));
  mret (scan (fun range => stream (K := KeyBytes) (V := State) acc fuel root range) selector).

(** [select_from_branch], which [Select::perform] does too. *)
Definition select_from_branch (self : Branch) (input : ArtifactSelector) : stateful world DialogArtifactsError ArtifactStream :=
  upstream ← asks (branch_upstream self);
  remote ← load_tracked (branch_of (reference self)) upstream;
  or_err Tree (select_execute self remote input).

(** [QueryEnv::select_tree]: the committed facts only. *)
Definition select_tree (self : Handle) (selector : ArtifactSelector) : stateful session DialogArtifactsError (list Artifact) :=
  stream ← perform (S := world) id (select_from_branch (handle_branch self) selector);
  lift_outcome (try_collect stream).

(** [QueryEnv::durable_rules]: discovery, then hydration. *)
Definition discover (self : Handle) (concept : Entity) : stateful session EvaluationError.t (list Entity) :=
  head ← asks (fun s => branch_revision (handle_branch self) (session_world s));
  known ← asks (fun s => head ≫= discovered (cache_of self s) concept);
  match known with
  | Some entities => mret entities
  | None =>
      claims ← or_err (fun e => EvaluationError.Store ("rule conclusion lookup: " +:+ debug_artifacts e))
                 (select_tree self (conclusion_selector concept));
      let entities := rule_entities claims in
      _ ← match head with Some head => write_cache self (record_discovery concept head entities) | None => mret tt end;
      mret entities
  end.
Fixpoint hydrate_rules (self : Handle) (entities : list Entity) : stateful session EvaluationError.t (list DeductiveRule) :=
  match entities with
  | [] => mret []
  | rule :: entities =>
      known ← asks (fun s => cached_body (cache_of self s) rule);
      match known with
      | Some body => rules ← hydrate_rules self entities; mret (body :: rules)
      | None =>
          claims ← or_err (fun e => EvaluationError.Store ("rule source lookup: " +:+ debug_artifacts e))
                     (select_tree self (source_selector rule));
          match source_bytes claims with
          | None => hydrate_rules self entities
          | Some source =>
              body ← lift_outcome (hydrate_rule source);
              _ ← write_cache self (record_body rule body);
              rules ← hydrate_rules self entities; mret (body :: rules)
          end
      end
  end.
Definition durable_rules (self : Handle) (concept : Entity) : stateful session EvaluationError.t (list DeductiveRule) :=
  entities ← discover self concept; hydrate_rules self entities.

(** * Query sessions *)
(** [QueryLayer]. *)
Record QueryLayer := mkLayer { layer_branches : list Handle; layer_changes : Changes }.
Definition layer_new : QueryLayer := mkLayer [] changes_new.
Definition layer_of_branch (branch : Handle) : QueryLayer := mkLayer [branch] changes_new.
Definition layer_of_changes (changes : Changes) : QueryLayer := mkLayer [] changes.
Definition layer_with {A} `{!Statement A} (self : QueryLayer) (statement : A) : QueryLayer :=
  mkLayer (layer_branches self) (statement_assert statement (layer_changes self)).
Definition layer_join (self other : QueryLayer) : QueryLayer :=
  mkLayer (layer_branches self ++ layer_branches other) (statement_assert (layer_changes other) (layer_changes self)).

(** [QueryLayer::metadata] and [overlay], in a state of the world. *)
Fixpoint branches_metadata {E} (w : world) (operator : Did * Did) (branches : list Handle)
    : outcome E (list Entity * list AttributeStatement) :=
  match branches with
  | [] => Ok ([], [])
  | h :: branches =>
      let self := handle_branch h in
      metadata ← branch_metadata (branch_of (reference self)) (BranchReference.name (reference self)) (branch_revision self w) operator;
      '(entities, facts) ← branches_metadata w operator branches;
      Ok (metadata_branch metadata :: entities, metadata_facts metadata ++ facts)
  end.
Definition metadata {E} (self : QueryLayer) (w : world) (operator : Did * Did) : outcome E Changes :=
  '(entities, facts) ← branches_metadata w operator (layer_branches self);
  this ← expect_entity "db:session is a valid entity URI" (ascii "db:session");
  profile ← did_entity operator.2;
  agent ← did_entity operator.1;
  Ok (statement_assert
    (facts ++ [fact_one "dialog.session/profile" this (Value.Entity profile);
               fact_one "dialog.session/operator" this (Value.Entity agent)] ++
     ((fun branch => mkStatement (literal_attribute "dialog.session/branch") this (Value.Entity branch) None (Some Many)) <$> entities))
    changes_new).
Definition overlay {E} (self : QueryLayer) (w : world) (operator : Did * Did) : outcome E Changes :=
  metadata ← metadata self w operator; Ok (statement_assert metadata (layer_changes self)).

(** [QueryEnv]. *)
Record QueryEnv := mkEnv { env_branches : list Handle; env_changes : Changes; env_tombstones : gset SortKey }.
(** The environment that [SelectQuery::perform] runs a query in. *)
Definition layer_env (self : QueryLayer) : stateful session DialogArtifactsError QueryEnv :=
  operator ← lift_outcome (map_err (fun e => Storage ("identify: " +:+ e)) identify);
  w ← asks session_world;
  overlay ← lift_outcome (overlay self w operator);
  mret (mkEnv (layer_branches self) overlay (tombstones_from overlay)).

(** [Provider<Select> for QueryEnv]. *)
Fixpoint env_scans (branches : list Handle) (input : ArtifactSelector) : stateful session DialogArtifactsError (list ArtifactStream) :=
  match branches with
  | [] => mret []
  | h :: branches =>
      raw ← perform (S := world) id (select_from_branch (handle_branch h) input);
      scans ← env_scans branches input; mret (raw :: scans)
  end.
Definition env_select (self : QueryEnv) (input : ArtifactSelector) : stateful session DialogArtifactsError ArtifactStream :=
  scans ← env_scans (env_branches self) input;
  mret (query_select scans (env_changes self) (env_tombstones self) input).

(** [Provider<SelectRules> for QueryEnv]. *)
Fixpoint durable_each (branches : list Handle) (concept : Entity) : stateful session EvaluationError.t (list DeductiveRule) :=
  match branches with
  | [] => mret []
  | h :: branches => rules ← durable_rules h concept; rest ← durable_each branches concept; mret (rules ++ rest)
  end.
Definition env_rules (self : QueryEnv) (input : ConceptDescriptor) : stateful session EvaluationError.t ConceptRules :=
  concept ← lift_outcome (concept_entity input);
  durable ← durable_each (env_branches self) concept;
  transient ← lift_outcome (overlay_rules (env_changes self) concept);
  lift_outcome (assemble input (durable ++ transient) unique).

(** * Transactions *)
Record Transaction := mkTransaction { transaction_branch : Handle; transaction_changes : Changes }.
Definition transaction (branch : Handle) : Transaction := mkTransaction branch changes_new.
Definition transaction_assert {A} `{!Statement A} (self : Transaction) (claim : A) : Transaction :=
  mkTransaction (transaction_branch self) (statement_assert claim (transaction_changes self)).
Definition transaction_retract {A} `{!Statement A} (self : Transaction) (claim : A) : Transaction :=
  mkTransaction (transaction_branch self) (statement_retract claim (transaction_changes self)).
(** [integrate] replays the instructions as [Statement::assert] of [Changes] does. *)
Definition transaction_integrate (self : Transaction) (changes : Changes) : Transaction :=
  mkTransaction (transaction_branch self) (assert_changes changes (transaction_changes self)).
Definition transaction_commit (self : Transaction) (asked : list Blake3Hash) : stateful world CommitError Revision :=
  commit fuel (handle_branch (transaction_branch self)) (into_instructions (transaction_changes self)) asked.
(** The environment of [TransactionSelectQuery::perform]. *)
Definition transaction_env (self : Transaction) : stateful session DialogArtifactsError QueryEnv :=
  layer_env (layer_with (layer_of_branch (transaction_branch self)) (transaction_changes self)).
End reading.
