(* ===== verification/SessionCorrect.v ===== *)
(** Sessions: what a statement asserts, what a query reads of a branch after a
    commit, and that the caches of rules change no answer. *)
From Stdlib Require Import String.
From S2P Require Import TypeSystem Terms Constraints Formulas AttributeQuery Premises Planner Rules Session.
From S2P Require Import Prelude Common Nodes SortedEntries Forest Walker TransientTree Instances Repr Spine Fuse Edits Batch Persist Read Access ArtifactTree Rebase Storage Artifact ArtifactKeys ArtifactFacts ArtifactTreeCorrect Layer Providers Cells Revisions Sync SyncBase SyncCorrect CommitCorrect.

(** * What statements assert *)
Section statements.
Implicit Types (changes : Changes) (self : ConceptStatement) (fields : NamedAttributes) (given : gmap string Value.t).

Lemma changes_at_put changes a e l a' e' :
  changes_at (changes_put changes a e l) a' e' = if decide (a' = a /\ e' = e) then l else changes_at changes a' e'.
Proof.
  unfold changes_at, changes_put. case_decide as E.
  { destruct E as [-> ->]. rewrite lookup_insert_eq. simpl. by rewrite lookup_insert_eq. }
  destruct (decide (e' = e)) as [->|He]; [|by rewrite lookup_insert_ne by congruence].
  rewrite lookup_insert_eq. simpl. rewrite lookup_insert_ne; [done|]. intros ->. by apply E.
Qed.
Lemma changes_at_associate changes a e v a' e' :
  changes_at (associate changes a e v) a' e' = changes_at changes a' e' ++ (if decide (a' = a /\ e' = e) then [Change.Assert v] else []).
Proof. unfold associate. rewrite changes_at_put. case_decide as E; [by destruct E as [-> ->]|by rewrite app_nil_r]. Qed.

(** A concept asserts its attributions, after what the batch says already. *)
Lemma concept_assert_at self changes a e :
  changes_at (concept_assert self changes) a e = changes_at changes a e ++
    (if decide (e = statement_this self)
     then (fun r => Change.Assert (attribution_is r)) <$> filter (fun r => attribution_the r = a) (attributes self) else []).
Proof.
  unfold concept_assert. destruct self as [this l]. simpl. revert changes.
  induction l as [|r l IH]; intros changes; simpl; [case_decide; by rewrite app_nil_r|].
  rewrite IH, changes_at_associate, <- app_assoc. f_equal. rewrite filter_cons.
  destruct (decide (e = this)) as [->|He]; destruct (decide (attribution_the r = a)) as [Ea|Ea].
  - by rewrite decide_True.
  - rewrite decide_False; [done|]. intros [? _]. by apply Ea.
  - rewrite decide_False; [done|]. by intros [_ ?].
  - rewrite decide_False; [done|]. by intros [_ ?].
Qed.

(** Building an instance: every field that is given has a value of its type, and
    every required field is given. *)
Definition field_given given (entry : string * ConceptFieldDescriptor) : Prop :=
  match given !! entry.1 with
  | Some v => forall T, field_content_type entry.2 = Some T -> data_type v = T
  | None => optional_field entry.2 = true
  end.
Definition given_attribution given (entry : string * ConceptFieldDescriptor) : option Attribution :=
  v ← given !! entry.1; Some (mkAttribution (field_the entry.2) v (field_cardinality entry.2)).
Lemma conform_relations_spec fields given l :
  conform_relations fields given = Ok l <-> Forall (field_given given) fields /\ l = omap (given_attribution given) fields.
Proof.
  revert l. induction fields as [|[name field] fields IH]; intros l; simpl.
  { split; [by intros [= <-]|by intros [_ ->]]. }
  rewrite Forall_cons. unfold field_given at 1, given_attribution at 1. simpl.
  destruct (given !! name) as [v|] eqn:Ev; simpl.
  - unfold attribute_resolve. unfold field_content_type. destruct (attribute_content_type (descriptor field)) as [T|].
    + case_decide as HT.
      * rewrite bind_Ok. split.
        -- intros E. outcome_inv. apply IH in Ha as [Hall ->]. by split_and!; [intros ? [= <-]| |].
        -- intros [[_ Hall] ->]. by rewrite (proj2 (IH _) (conj Hall eq_refl)).
      * split; [done|]. intros [[HT' _] _]. exfalso. by apply HT, HT'.
    + rewrite bind_Ok. split.
      * intros E. outcome_inv. by apply IH in Ha as [Hall ->].
      * intros [[_ Hall] ->]. by rewrite (proj2 (IH _) (conj Hall eq_refl)).
  - destruct (optional_field field); [rewrite IH; naive_solver|split; [done|by intros [[? _] _]]].
Qed.

(** An instance that is built asserts, of its entity, the given value of each
    field under the attribute of the field. *)
Lemma concept_build_asserts (b : Builder) self changes a :
  builder_build b = Ok self ->
  statement_this self = model_this (builder_model b) /\
  changes_at (concept_assert self changes) a (model_this (builder_model b)) =
    changes_at changes a (model_this (builder_model b)) ++
    ((fun r => Change.Assert (attribution_is r)) <$>
       filter (fun r => attribution_the r = a) (omap (given_attribution (model_attributes (builder_model b))) (with_ (builder_predicate b)))).
Proof.
  unfold builder_build, conform_model. intros E. outcome_inv. apply conform_relations_spec in Ha as [_ ->].
  split; [done|]. rewrite concept_assert_at. simpl. by rewrite decide_True.
Qed.

(** The cardinality of an attribution is not looked at: an attribute with a single
    value accumulates values when concepts assert it, where an attribute statement
    replaces the value. *)
Lemma concept_assert_accumulates a e v1 v2 :
  let one v := mkConceptStatement e [mkAttribution a v One] in
  changes_at (concept_assert (one v2) (concept_assert (one v1) changes_new)) a e = [Change.Assert v1; Change.Assert v2] /\
  let statement v := mkStatement a e v None (Some One) in
  changes_at (attribute_assert (statement v2) (attribute_assert (statement v1) changes_new)) a e = [Change.Replace v2].
Proof.
  cbv zeta. split.
  - rewrite !concept_assert_at. simpl. rewrite !decide_True by done. simpl. rewrite !filter_cons. simpl.
    rewrite !decide_True by done. reflexivity.
  - unfold attribute_assert, associate_unique. simpl. rewrite changes_at_put. by rewrite decide_True.
Qed.
End statements.

(** * Reading without writing *)
Section moving.
Context {L N Site : Type} (P : bytes -> Prop) `{Blake3, !Codecs Site, !CodecsLaws Site}.
Context `{!MemoryProvider L, !ArchiveProvider L, !ProviderLaws L P, !ForkProvider Site N, !ForkLaws Site N P}.
Context (subj : Did) (oa : option (RemoteAddress Site)).
Local Abbreviation world := (World L N (cached Site)).
Implicit Types (w : world) (self : Branch).

(** Handles, cells and the blocks that can be read stay; blocks may come closer. *)
Record moved w w' : Prop := {
  moved_heap id x : heap w !! id = Some x -> heap w' !! id = Some x;
  moved_held k : memory_valid (local w) -> held (local w') k = held (local w) k;
  moved_valid : memory_valid (local w) -> memory_valid (local w');
  moved_network : network w' = network w;
  moved_blocks h : networked_blocks P subj oa w' h = networked_blocks P subj oa w h
}.
Lemma moved_refl w : moved w w.
Proof. by split. Qed.
Lemma moved_trans w1 w2 w3 : moved w1 w2 -> moved w2 w3 -> moved w1 w3.
Proof.
  intros [H1 K1 V1 N1 B1] [H2 K2 V2 N2 B2]. split; [eauto| |eauto|congruence|].
  - intros k Hv. by rewrite K2, K1 by auto.
  - intros h. by rewrite B2, B1.
Qed.
Lemma frame_moved w w' : frame P no_cell w w' -> network w' = network w -> moved w w'.
Proof.
  intros [Hh [Hk Hb _] Hv] En. split; try done.
  - intros k _. apply Hk. by intros [].
  - intros h. unfold networked_blocks, local_blocks. by rewrite En, Hb.
Qed.
Lemma grown_moved w w' : grown P subj oa w w' -> moved w w'.
Proof.
  intros [Eh En Hk Hv _ Hb _]. split; try done.
  intros id x. by rewrite Eh.
Qed.

Lemma moved_open w w' self r o u : moved w w' -> open_branch self r o u w -> open_branch self r o u w'.
Proof.
  intros [Hh _ _ _ _] [E1 E2 E3 E4 [x1 A1] [x2 A2] C1 C2].
  apply Hh in A1 as A1', A2 as A2'. split; try done; try by eexists.
  - unfold cell_edition in *. by rewrite A1', <- A1.
  - unfold cell_edition in *. by rewrite A2', <- A2.
Qed.
Lemma moved_tracked w w' u : memory_valid (local w) -> moved w w' -> tracked_at P subj u oa w -> tracked_at P subj u oa w'.
Proof. intros Hv [_ Hk _ _ _]. apply tracked_at_held. intros remote. by apply Hk. Qed.
End moving.

Lemma stream_represents {K V} `{Key K, NodeCodec K V} {D : Distribution} acc R fuel es hash range :
  null_absent acc -> (S R <= MAXIMUM_TREE_DEPTH)%nat -> represents (K := K) (V := V) R acc es (Unloaded hash) ->
  (2 * S (S R) * length es < fuel)%nat -> stream (K := K) (V := V) acc fuel hash range = (in_range range es, Ok tt).
Proof.
  intros Hnull HR (Hs & o & Ho & Hr) Hf. destruct o as [t|].
  - destruct Hr as (h & Hh & _ & _ & p & Hp & Hr). pose proof (forest_uniform_one _ _ _ Hp) as Hu.
    rewrite <- (forest_flatten h es p) in Hs, Hf |- * by done.
    destruct (load_stored acc hash t p Ho Hr) as (Hn & node & Hnode & Hst).
    rewrite (stream_stored acc fuel h p _ node); [done|done|lia|done..|nia].
  - subst es. simpl in Ho. case_decide as Hh; [|by outcome_inv].
    unfold stream, search. by rewrite decide_True.
Qed.

(** * Queries of a branch *)
Section reading.
Context {L N Site : Type} (P : bytes -> Prop) `{Blake3, Url, !Codecs Site, !CodecsLaws Site}.
Context `{!MemoryProvider L, !ArchiveProvider L, !ProviderLaws L P, !ForkProvider Site N, !ForkLaws Site N P}.
Context `{!NodeCodec KeyBytes State} {D : Distribution} `{Base58} (Hcf : collision_free P).
Context (R : nat) (fuel : nat) (shallow : (S R <= MAXIMUM_TREE_DEPTH)%nat).
Context (reads : Branch -> ArtifactSelector -> list Blake3Hash).
Context (subj : Did) (oa : option (RemoteAddress Site)).
Local Abbreviation world := (World L N (cached Site)).
Local Abbreviation moved := (moved (Site := Site) P subj oa).
Implicit Types (w : world) (self : Branch) (facts : Facts).

(** What a scan of the three indexes of some facts yields. *)
Definition tree_reading facts (selector : ArtifactSelector) : ArtifactStream :=
  scan (fun range => (in_range range (index_entries facts), Ok tt)) selector.

(** The repository can be read, and a branch of it, at a head, holds some facts. *)
Definition archive_ready w : Prop := memory_valid (local w) /\ sound_archive (K := KeyBytes) (V := State) P subj oa w.
Record serves self (head : option Revision) facts w : Prop := {
  serves_branch : exists name eo u, head = content <$> eo /\ open_branch self (subject_branch subj name) eo u w /\
    tracked_at P subj (content <$> u) oa w;
  serves_tree : revision_holds P R subj oa w (index_entries facts) (tree_of head);
  serves_room : (2 * S (S R) * length (index_entries facts) < fuel)%nat
}.

Lemma archive_moved w w' : moved w w' -> archive_ready w -> archive_ready w'.
Proof.
  intros M [Hv Hs]. split; [by eapply moved_valid|].
  by apply (readable_blocks (K := KeyBytes) (V := State) P subj oa w w' (moved_blocks _ _ _ _ _ M)).
Qed.
Lemma serves_moved self head facts w w' : archive_ready w -> moved w w' -> serves self head facts w -> serves self head facts w'.
Proof.
  intros [Hv _] M [(name & eo & u & E & Ho & Ht) Htree Hroom]. split; [|eapply holds_tree_extends; [|exact Htree]|done].
  - exists name, eo, u. split_and!; [done|by eapply moved_open|by eapply moved_tracked].
  - by apply (readable_blocks (K := KeyBytes) (V := State) P subj oa w w' (moved_blocks _ _ _ _ _ M)).
Qed.

(** A scan of a branch reads the facts of its head, wherever the blocks are. *)
Lemma select_execute_spec self head facts remote input w :
  archive_ready w -> serves self head facts w -> at_remote remote oa w ->
  exists w', select_execute reads fuel self remote input w = (w', Ok (tree_reading facts input)) /\ moved w w'.
Proof.
  intros [Hv Hs] [(name & eo & u & -> & Ho & Ht) Htree Hroom] Hrem.
  assert (branch_of (reference self) = subj) as Esubj by (by rewrite (open_reference _ _ _ _ _ Ho)).
  unfold select_execute. cbv zeta. rewrite asks_bind, Esubj, (open_branch_revision _ _ _ _ _ Ho).
  set (root := match content <$> eo with Some r => tree_hash (tree r) | None => EMPTY_TREE_HASH end).
  assert (root = tree_hash (tree_of (content <$> eo))) as Eroot by (by destruct eo).
  destruct (networked_sound P subj remote oa w Hrem Hs) as (Hst & Hx & _).
  pose proof (holds_tree_extends R _ _ _ _ Hx Htree) as Htree'. unfold holds_tree in Htree'. rewrite <- Eroot in Htree'.
  assert (exists w1, (if decide (root = EMPTY_TREE_HASH) then mret tt
    else found ← or_err StorageError (networked_get subj remote root);
         match found with
         | Some _ => mret tt
         | None => lift_outcome (Err (NodeError ("Blob not found in storage: " +:+ to_base58 (as_bytes root))))
         end : stateful world DialogSearchTreeError unit) w = (w1, Ok tt) /\ moved w w1 /\ at_remote remote oa w1) as (w1 & E1 & M1 & Hrem1).
  { destruct Hs as [Hca _]. case_decide as Hnull; [exists w; split_and!; [done|apply moved_refl|done]|].
    destruct (networked_get_spec P subj remote oa root w Hrem Hca) as (w1 & E1 & Hg).
    exists w1. split; [|split; [by apply grown_moved|by eapply grown_at_remote]].
    rewrite (stateful_bind_Ok _ _ _ _ _ (or_err_Ok _ _ _ _ _ E1)).
    destruct Htree as (_ & o & Hload & _). rewrite <- Eroot in Hload. simpl in Hload. rewrite decide_False in Hload by done.
    apply bind_Ok_inv in Hload as (node & Hnode & _). apply blocks_accessor_Ok in Hnode as [-> _]. done. }
  rewrite (stateful_bind_Ok _ _ _ _ _ E1), asks_bind.
  destruct (archive_moved _ _ M1 (conj Hv Hs)) as [Hv1 Hs1].
  destruct (networked_sound P subj remote oa w1 Hrem1 Hs1) as (Hst1 & Hx1 & _). pose proof Hs1 as [Hca1 _].
  destruct (hydrate_spec P subj remote oa (reads self input) w1 Hrem1 Hca1) as (w2 & E2 & Hg2).
  exists w2. split; [|eapply moved_trans; [exact M1|by apply grown_moved]].
  rewrite (stateful_bind_Ok _ _ _ _ _ (attempt_Ok (F := DialogSearchTreeError) _ _ _ _ E2)).
  unfold mret, stateful_ret. do 2 f_equal. unfold tree_reading, scan. destruct (scan_index input) as [l|]; [|done].
  rewrite (stream_represents _ R _ (index_entries facts)); [done|by apply (tree_store_null P Hcf)|done| |done].
  rewrite Eroot. eapply represents_extends; [exact Hx1|]. eapply represents_extends; [|exact Htree].
  by apply (readable_blocks (K := KeyBytes) (V := State) P subj oa w w1 (moved_blocks _ _ _ _ _ M1)).
Qed.
Lemma select_from_branch_spec self head facts input w :
  archive_ready w -> serves self head facts w ->
  exists w', select_from_branch reads fuel self input w = (w', Ok (tree_reading facts input)) /\ moved w w'.
Proof.
  intros Hready Hserves. pose proof Hready as [Hv _]. pose proof Hserves as [(name & eo & u & _ & Ho & Ht) _ _].
  unfold select_from_branch.
  rewrite asks_bind, (open_reference _ _ _ _ _ Ho), (open_branch_upstream _ _ _ _ _ Ho). cbn [branch_of subject_branch].
  destruct (load_tracked_spec P (E := DialogArtifactsError) subj (content <$> u) oa w Hv Ht) as (w1 & remote & E1 & Hrem & F1 & N1).
  rewrite (stateful_bind_Ok _ _ _ _ _ E1). pose proof (frame_moved P subj oa _ _ F1 N1) as M1.
  destruct (select_execute_spec self head facts remote input w1) as (w2 & E2 & M2);
    [by eapply archive_moved|by eapply serves_moved|done|].
  exists w2. split; [by apply or_err_Ok|by eapply moved_trans].
Qed.
End reading.

Lemma size_apply_facts `{Blake3} changes : forall facts : Facts, (size (fold_left apply_fact changes facts) <= size facts + length changes)%nat.
Proof.
  induction changes as [|i changes IH]; intros facts; simpl; [lia|]. etrans; [apply IH|].
  pose proof (size_apply_fact facts i). lia.
Qed.

(** * Committing, then querying *)
Section committed_queries.
Context {L N Site : Type} (P Q : bytes -> Prop) `{Blake3, Url, !Codecs Site, !CodecsLaws Site}.
Context `{!MemoryProvider L, !ArchiveProvider L, !ProviderLaws L P, !ForkProvider Site N, !ForkLaws Site N P}.
Context `{!NodeCodec KeyBytes State} {D : Distribution} `{!Identity, Base58} (Hcf : collision_free P) (distinct : digests_distinct Q).
Context (Htotal : codec_total (K := KeyBytes) (V := State)) (R : nat).
Context (fuel : nat) (rank_le : forall b, (rank b <= R)%nat) (enough : (S R < fuel)%nat).
Context (shallow : (S R <= MAXIMUM_TREE_DEPTH)%nat).
Context (reads : Branch -> ArtifactSelector -> list Blake3Hash).
Local Abbreviation world := (World L N (cached Site)).
Implicit Types (w : world) (self : Branch) (facts : Facts).

(** C9: What a transaction commits, a query of the branch reads.  From a branch
    whose handle has seen what is stored and whose tree holds some facts, a
    transaction of storable changes commits; a selector is then answered by the
    branch, over the archive and the remote it tracks, with exactly the artifacts
    that satisfy it among the facts that the changes leave, each once and in the
    order of the index it picks, and the stream ends without an error.  The hashes
    of the long tails of entities and of values do not collide. *)
Theorem commit_then_select (t : Transaction) subj name asked o u oa by_ facts selector w :
  let self := handle_branch (transaction_branch t) in
  let changes := into_instructions (transaction_changes t) in
  let facts' := fold_left apply_fact changes facts in
  identify = Ok by_ -> memory_valid (local w) -> synced_branch P self subj name o u w ->
  tracked_at P subj (content <$> u) oa w -> sound_archive (K := KeyBytes) (V := State) P subj oa w ->
  wf_facts facts -> revision_holds P R subj oa w (index_entries facts) (tree_of (content <$> o)) ->
  Forall storable_instruction changes ->
  (3 * (size facts + length changes) <= search_tree_capacity fuel R)%nat ->
  serializes_in P R (index_entries facts') ->
  (forall root, root_of R (index_entries facts') root ->
    known P (committed subj (content <$> o) (mkTreeReference root) by_)) ->
  Forall Q (selector_hashed selector) -> Constrained selector -> wf_selector selector ->
  (forall f artifact, facts' !! f = Some (Some artifact) -> Forall Q (hashed artifact)) ->
  exists w1 w2 next l artifacts, transaction_commit fuel t asked w = (w1, Ok next) /\
    select_from_branch reads fuel self selector w1 = (w2, Ok (artifacts, Ok tt)) /\
    scan_index selector = Some l /\ StronglySorted (before l) artifacts /\
    forall artifact, artifact ∈ artifacts <-> (exists f, facts' !! f = Some (Some artifact)) /\ satisfies selector artifact.
Proof.
  intros self changes facts' Hid Hv Hsync Htr Hsound Hwf Ht Hi Hcap Hser Hknown Hsel Hb Hw Hh.
  destruct (commit_spec P Hcf Htotal R fuel rank_le enough shallow self subj name changes asked o u oa by_ facts w)
    as (w1 & next & v & E1 & _ & [Ho1 _] & Hs1 & Ht1 & _ & Hv1 & Htr1 & Hwf'); [done..|].
  assert (serves P R fuel subj oa self (Some next) facts' w1) as Hserves.
  { split; [by exists name, (Some (mkEdition next v)), u|done|].
    pose proof (length_index_entries facts') as Hlen. pose proof (size_apply_facts changes facts) as Hsize. fold facts' in Hsize.
    unfold search_tree_capacity in Hcap. pose proof (Nat.Div0.mul_div_le (fuel - 1) (2 * S (S R))). nia. }
  destruct (select_from_branch_spec P Hcf R fuel shallow reads subj oa self (Some next) facts' selector w1) as (w2 & E2 & _); [done..|].
  destruct (scan_facts Q selector facts' (fun range => (in_range range (index_entries facts'), Ok tt)))
    as (l & artifacts & El & Escan & Hsorted & Hall); [done..|].
  exists w1, w2, next, l, artifacts. split_and!; [exact E1| |done..]. by rewrite E2; unfold tree_reading; rewrite Escan.
Qed.
End committed_queries.

(** * Rules of a concept *)
Section rules.
Context {L N Site : Type} (P : bytes -> Prop) `{Blake3, Url, !Codecs Site, !CodecsLaws Site}.
Context `{!MemoryProvider L, !ArchiveProvider L, !ProviderLaws L P, !ForkProvider Site N, !ForkLaws Site N P}.
Context `{!NodeCodec KeyBytes State} {D : Distribution} `{Base58} (Hcf : collision_free P).
Context `{HashOrder, RuleCodec, RuleMessages}.
Context (R : nat) (fuel : nat) (shallow : (S R <= MAXIMUM_TREE_DEPTH)%nat).
Context (reads : Branch -> ArtifactSelector -> list Blake3Hash) (unique : nat -> Term).
Context (subj : Did) (oa : option (RemoteAddress Site)).
Local Abbreviation world := (World L N (cached Site)).
Local Abbreviation session := (SessionState world).
Implicit Types (w : world) (s : session) (facts : Facts) (h : Handle) (concept rule : Entity).

(** ** What the facts of a head say of rules *)
Definition concluding facts concept : eval (list Entity) :=
  claims ← map_err (fun e => EvaluationError.Store ("rule conclusion lookup: " +:+ debug_artifacts e))
             (try_collect (tree_reading facts (conclusion_selector concept)));
  Ok (rule_entities claims).
Definition source_claims facts rule : eval (list Artifact) :=
  map_err (fun e => EvaluationError.Store ("rule source lookup: " +:+ debug_artifacts e))
    (try_collect (tree_reading facts (source_selector rule))).
Fixpoint stored_bodies facts (entities : list Entity) : eval (list DeductiveRule) :=
  match entities with
  | [] => Ok []
  | rule :: entities =>
      claims ← source_claims facts rule;
      match source_bytes claims with
      | None => stored_bodies facts entities
      | Some source => body ← hydrate_rule source; rules ← stored_bodies facts entities; Ok (body :: rules)
      end
  end.
Definition stored_rules facts concept : eval (list DeductiveRule) :=
  entities ← concluding facts concept; stored_bodies facts entities.
(** The rules a query resolves, read afresh from every branch and the overlay. *)
Fixpoint stored_each (branch_facts : list Facts) concept : eval (list DeductiveRule) :=
  match branch_facts with
  | [] => Ok []
  | facts :: branch_facts => rules ← stored_rules facts concept; rest ← stored_each branch_facts concept; Ok (rules ++ rest)
  end.
Definition resolution (branch_facts : list Facts) (changes : Changes) (input : ConceptDescriptor) : eval ConceptRules :=
  concept ← concept_entity input;
  durable ← stored_each branch_facts concept;
  transient ← overlay_rules changes concept;
  assemble input (durable ++ transient) unique.

(** ** Caches that say what is stored *)
(** What the tree of a revision holds, and the source a rule is named after. *)
Context (history : Revision -> Facts) (source_of : Entity -> bytes).
Record cache_valid (c : RuleCache) : Prop := {
  valid_discovery concept r entities : discovery c !! concept = Some (r, entities) ->
    concluding (history r) concept = Ok entities;
  valid_bodies rule body : bodies c !! rule = Some body -> hydrate_rule (source_of rule) = Ok body
}.
(** Rules that facts mention are stored under the entity of their source. *)
Definition sources_stored facts : Prop := forall concept entities rule,
  concluding facts concept = Ok entities -> rule ∈ entities ->
  exists claims, source_claims facts rule = Ok claims /\ source_bytes claims = Some (source_of rule).

Definition session_ready s : Prop :=
  archive_ready P subj oa (session_world s) /\ forall id c, rule_caches s !! id = Some c -> cache_valid c.
Definition handle_ready h facts s : Prop := sources_stored facts /\ exists head,
  serves P R fuel subj oa (handle_branch h) head facts (session_world s) /\ forall r, head = Some r -> history r = facts.
Local Abbreviation session_moved := (fun s s' => moved (Site := Site) P subj oa (session_world s) (session_world s')).

Lemma cache_of_valid s h : session_ready s -> cache_valid (cache_of h s).
Proof.
  intros [_ Hc]. unfold cache_of. destruct (rule_caches s !! _) as [c|] eqn:E; [by eapply Hc|].
  split; intros ??; simpl; by rewrite lookup_empty.
Qed.
Lemma write_cache_ready {E} s h f : session_ready s -> cache_valid (f (cache_of h s)) ->
  exists s', write_cache (E := E) h f s = (s', Ok tt) /\ session_ready s' /\ session_world s' = session_world s.
Proof.
  intros [Ha Hc] Hf. eexists. split; [reflexivity|]. split; [|done]. split; [done|].
  intros id c. simpl. intros [[_ <-]|[_ ?]]%lookup_insert_Some; [done|by eapply Hc].
Qed.
Lemma handle_ready_moved h facts s s' : session_ready s -> session_moved s s' -> handle_ready h facts s -> handle_ready h facts s'.
Proof. intros [Ha _] M [Hs (head & Hserves & Hh)]. split; [done|]. exists head. split; [by eapply serves_moved|done]. Qed.

Lemma select_tree_spec h head facts selector s :
  session_ready s -> serves P R fuel subj oa (handle_branch h) head facts (session_world s) ->
  exists s', select_tree reads fuel h selector s = (s', try_collect (tree_reading facts selector)) /\
    session_ready s' /\ session_moved s s'.
Proof.
  intros [Ha Hc] Hserves.
  destruct (select_from_branch_spec P Hcf R fuel shallow reads subj oa _ _ _ selector _ Ha Hserves) as (w' & E & M).
  exists (mkSession w' (rule_caches s)). split_and!; [|split; [by eapply archive_moved|done]|done].
  unfold select_tree, perform. unfold mbind, stateful_bind. simpl. by rewrite E.
Qed.

(** The entities of the rules of a concept: the cached ones are the stored ones. *)
Lemma discover_spec h facts concept s :
  session_ready s -> handle_ready h facts s ->
  exists s', discover reads fuel h concept s = (s', concluding facts concept) /\ session_ready s' /\ session_moved s s'.
Proof.
  intros Hs [_ (head & Hserves & Hhist)]. pose proof Hserves as [(name & eo & u & -> & Ho & _) _ _].
  unfold discover. rewrite asks_bind, asks_bind, (open_branch_revision _ _ _ _ _ Ho).
  destruct ((content <$> eo) ≫= discovered (cache_of h s) concept) as [entities|] eqn:E.
  - exists s. split_and!; [|done|apply moved_refl]. apply bind_Some in E as (r & Er & Ed).
    unfold discovered in Ed. destruct (discovery (cache_of h s) !! concept) as [[r' es]|] eqn:Ec; [|done].
    case_decide as Err; [|done]. injection Ed as ->. subst r'.
    rewrite <- (Hhist r Er), (valid_discovery _ (cache_of_valid s h Hs) _ _ _ Ec). done.
  - destruct (select_tree_spec h (content <$> eo) facts (conclusion_selector concept) s Hs Hserves) as (s1 & E1 & Hs1 & M1).
    unfold or_err, concluding. unfold mbind at 1. unfold stateful_bind at 1. rewrite E1.
    destruct (try_collect _) as [claims|e|m|] eqn:Ecl; cbn [map_err]; [|by exists s1..].
    rewrite bind_Ok. destruct (content <$> eo) as [r|] eqn:Er; [|by exists s1].
    destruct (write_cache_ready (E := EvaluationError.t) s1 h (record_discovery concept r (rule_entities claims)) Hs1)
      as (s2 & E2 & Hs2 & Ew).
    { destruct (cache_of_valid s1 h Hs1) as [Hd Hb]. split; [|exact Hb]. intros c r' es. simpl.
      intros [[<- [= <- <-]]|[_ ?]]%lookup_insert_Some; [|by eapply Hd].
      rewrite (Hhist r eq_refl). unfold concluding. by rewrite Ecl. }
    exists s2. split_and!; [|done|by rewrite Ew]. by rewrite (stateful_bind_Ok _ _ _ _ _ E2).
Qed.

(** Running a step whose outcome is known, whatever it is. *)
Lemma stateful_outcome {A B} (m : stateful session EvaluationError.t A) (k : A -> stateful session EvaluationError.t B)
    (k' : A -> eval B) s s1 o :
  m s = (s1, o) -> session_ready s1 -> session_moved s s1 ->
  (forall a, o = Ok a -> exists s2, k a s1 = (s2, k' a) /\ session_ready s2 /\ session_moved s1 s2) ->
  exists s2, (m ≫= k) s = (s2, o ≫= k') /\ session_ready s2 /\ session_moved s s2.
Proof.
  intros E Hs1 M1 Hk. unfold mbind at 1, stateful_bind. rewrite E. destruct o as [a|e|msg|]; [|by exists s1..].
  destruct (Hk a eq_refl) as (s2 & E2 & Hs2 & M2). exists s2. split_and!; [exact E2|done|].
  exact (moved_trans _ _ _ _ _ _ M1 M2).
Qed.

(** The bodies: a cached body is the one its source makes. *)
Lemma hydrate_rules_spec h facts entities : forall s,
  session_ready s -> handle_ready h facts s ->
  Forall (fun rule => exists claims, source_claims facts rule = Ok claims /\ source_bytes claims = Some (source_of rule)) entities ->
  exists s', hydrate_rules reads fuel h entities s = (s', stored_bodies facts entities) /\ session_ready s' /\ session_moved s s'.
Proof.
  induction entities as [|rule entities IH]; intros s Hs Hh Hall; [exists s; split_and!; [done|done|apply moved_refl]|].
  apply Forall_cons in Hall as [(claims & Ecl & Esrc) Hall]. cbn [hydrate_rules stored_bodies].
  rewrite Ecl, bind_Ok, Esrc, asks_bind. destruct (cached_body (cache_of h s) rule) as [body|] eqn:Ec.
  - rewrite (valid_bodies _ (cache_of_valid s h Hs) _ _ Ec), bind_Ok.
    destruct (IH s Hs Hh Hall) as (s1 & E1 & Hs1 & M1).
    apply (stateful_outcome _ _ _ s s1 _ E1); [done..|]. intros rules _. exists s1. split_and!; [done|done|apply moved_refl].
  - pose proof Hh as [_ (head & Hserves & _)].
    destruct (select_tree_spec h head facts (source_selector rule) s Hs Hserves) as (s1 & E1 & Hs1 & M1).
    assert (or_err (fun e => EvaluationError.Store ("rule source lookup: " +:+ debug_artifacts e))
      (select_tree reads fuel h (source_selector rule)) s = (s1, Ok claims)) as E1'.
    { unfold or_err. rewrite E1. unfold source_claims in Ecl. by rewrite Ecl. }
    rewrite (stateful_bind_Ok _ _ _ _ _ E1'), Esrc.
    destruct (stateful_outcome (lift_outcome (hydrate_rule (source_of rule)))
      (fun body => _ ← write_cache h (record_body rule body); rules ← hydrate_rules reads fuel h entities; mret (body :: rules))
      (fun body => rules ← stored_bodies facts entities; Ok (body :: rules)) s1 s1 _ eq_refl Hs1 (moved_refl _ _ _ _))
      as (s2 & E2 & Hs2 & M2).
    { intros body Eb. destruct (write_cache_ready (E := EvaluationError.t) s1 h (record_body rule body) Hs1) as (s2 & E2 & Hs2 & Ew).
      { destruct (cache_of_valid s1 h Hs1) as [Hd Hb]. split; [exact Hd|]. intros rule' body'. simpl.
        intros [[<- <-]|[_ ?]]%lookup_insert_Some; [done|by apply Hb]. }
      rewrite (stateful_bind_Ok _ _ _ _ _ E2).
      destruct (IH s2 Hs2) as (s3 & E3 & Hs3 & M3); [eapply handle_ready_moved; [exact Hs| |exact Hh]|done|].
      { rewrite Ew. exact M1. }
      rewrite <- Ew. apply (stateful_outcome _ _ _ s2 s3 _ E3); [done..|]. intros rules _.
      exists s3. split_and!; [done|done|apply moved_refl]. }
    exists s2. split_and!; [exact E2|done|exact (moved_trans _ _ _ _ _ _ M1 M2)].
Qed.

Lemma durable_rules_spec h facts concept s :
  session_ready s -> handle_ready h facts s ->
  exists s', durable_rules reads fuel h concept s = (s', stored_rules facts concept) /\ session_ready s' /\ session_moved s s'.
Proof.
  intros Hs Hh. destruct (discover_spec h facts concept s Hs Hh) as (s1 & E1 & Hs1 & M1).
  apply (stateful_outcome _ _ _ s s1 _ E1); [done..|]. intros entities Ee. apply hydrate_rules_spec; [done| |].
  - exact (handle_ready_moved _ _ _ _ Hs M1 Hh).
  - apply Forall_forall. intros rule Hrule. destruct Hh as [Hsrc _]. by apply (Hsrc concept entities).
Qed.
Lemma durable_each_spec concept handles branch_facts : forall s,
  session_ready s -> Forall2 (fun h facts => handle_ready h facts s) handles branch_facts ->
  exists s', durable_each reads fuel handles concept s = (s', stored_each branch_facts concept) /\ session_ready s' /\ session_moved s s'.
Proof.
  revert branch_facts. induction handles as [|h handles IH]; intros branch_facts s Hs Hall.
  - apply Forall2_nil_inv_l in Hall as ->. exists s. split_and!; [done|done|apply moved_refl].
  - apply Forall2_cons_inv_l in Hall as (facts & rest & Hh & Hall & ->). cbn [durable_each stored_each].
    destruct (durable_rules_spec h facts concept s Hs Hh) as (s1 & E1 & Hs1 & M1).
    apply (stateful_outcome _ _ _ s s1 _ E1); [done..|]. intros rules _.
    destruct (IH rest s1 Hs1) as (s2 & E2 & Hs2 & M2).
    { eapply Forall2_impl; [exact Hall|]. intros h' facts' Hh'. exact (handle_ready_moved _ _ _ _ Hs M1 Hh'). }
    apply (stateful_outcome _ _ _ s1 s2 _ E2); [done..|]. intros more _. exists s2. split_and!; [done|done|apply moved_refl].
Qed.

End rules.
