(* ===== verification/QueryDemo.v ===== *)
(** Queries at work: lookups over a branch with pending changes, the planner on a
    rule, what evaluation makes of it, and a repository that stores a rule. *)
From S2P Require Import Prelude Common Nodes SortedEntries Walker Read Instances ArtifactTree Artifact ArtifactKeys ArtifactFacts ArtifactTreeCorrect Layer LayerCorrect ArtifactDemo.
From S2P Require Import TypeSystem Terms AttributeQuery Scans.

#[local] Existing Instances toy_blake3 toy_distribution toy_url.

(** * Lookups *)
Definition in_demo (b : bytes) : Prop := b ∈ demo_hashed.
#[local] Instance demo_session : SelectFacts := session_select [demo_branch] demo_changes.
Definition demo_session_facts : Artifact -> Prop := session_facts [demo_branch] demo_changes.
Lemma demo_session_known x : demo_session_facts x -> x ∈ demo_artifacts.
Proof. intros [[Hx _]|Hx]; apply demo_known; auto. Qed.
Lemma demo_fingerprints x y : x ∈ demo_artifacts -> y ∈ demo_artifacts -> Cause_from x = Cause_from y -> x = y.
Proof.
  intros Hx Hy E.
  assert (forall u v, u ∈ demo_artifacts -> v ∈ demo_artifacts ->
    bool_decide (Cause_from u <> Cause_from v) || bool_decide (u = v) = true) as Hall.
  { intros u v Hu Hv. revert v Hv. apply Forall_forall. revert u Hu. apply Forall_forall.
    unfold demo_artifacts. repeat constructor; vm_compute; reflexivity. }
  specialize (Hall x y Hx Hy). apply orb_true_iff in Hall as [Hall|Hall]; by apply bool_decide_eq_true in Hall.
Qed.
Lemma demo_session_distinct : fingerprints_distinct demo_session_facts.
Proof. intros x y ?%demo_session_known ?%demo_session_known _. by apply demo_fingerprints. Qed.
Lemma demo_answers : answers (exact_selector in_demo) demo_session_facts.
Proof.
  apply session_answers; [apply demo_distinct|done|apply Forall_singleton, demo_branch_ok|apply demo_changes_wf|].
  intros x y ?%demo_known ?%demo_known _. by apply demo_fingerprints.
Qed.
Lemma demo_keyed : keyed demo_session_facts.
Proof. apply (session_keyed in_demo); [apply demo_distinct|apply Forall_singleton, demo_branch_ok|apply demo_changes_wf]. Qed.

(** Who is called what, for a text. *)
Definition name_lookup : DynamicAttributeQuery :=
  dynamic_new (Constant (Value.Symbol person_name)) (var Entity_type "who") (typed_var "name" (kind_of ValueDataType.String))
    (blank Cause_type) (Some One) (any_var "source").
Lemma demo_names : selector_try_from (all_resolve (inner name_lookup) match_new) = Ok (selector_the selector_new person_name).
Proof. reflexivity. Qed.


(** * A rule *)
From Stdlib Require Import String.
From S2P Require Import Unifier Constraints Numbers Formulas Premises Planner PlannerCorrect InferenceCorrect Rules Evaluation EvaluationCorrect.
Open Scope list_scope.

#[local] Instance demo_hash : HashOrder := {|
  hash_iter A := map_to_list;
  hash_iter_permutation A m := reflexivity _
|}.
(** The demonstration computes with no text tables and no doubles. *)
#[local] Instance demo_text : TextLibrary := {|
  to_uppercase s := s; to_lowercase s := s; f64_to_string _ := []; parse_f64 _ := None
|}.
#[local] Program Instance demo_streams : StreamSelect := {| stream_select l r := chain l r |}.
Next Obligation. intros [l [[]| | |]] [r o] row; simpl; rewrite ?elem_of_app; auto. Qed.
Next Obligation. intros [l [[]| | |]] [r o]; simpl; intros E; try discriminate. split; [reflexivity|]. split; [reflexivity|exact E]. Qed.
Next Obligation. intros [l [[]| | |]] [r o]; simpl; auto. Qed.
#[local] Instance demo_rules : SelectRules := fun _ _ _ => Ok Empty.

(** The short names that are not Bob's: the premises in an order in which they
    cannot run. *)
Definition short_names : list Premise := [
  Assert_ (ConstraintProposition (Constraint.Compare (mkCompare AtMost (any_var "size") (Constant (Value.UnsignedInt 5)))));
  Assert_ (FormulaProposition (mkFormula Length [any_var "name"; any_var "size"]));
  Unless (ConstraintProposition (Constraint.Equality (mkEquality (any_var "name") (Constant (Value.String (str "Bob"))))));
  Assert_ (AttributeProposition name_lookup) ].
Definition demo_scope : Environment := ∅.

Lemma short_names_planned : is_ok (planner_plan short_names ∅ demo_scope) = true.
Proof. vm_compute. reflexivity. Qed.
Lemma short_names_unchanged : (fun premise => apply_types premise ∅) <$> short_names = short_names.
Proof. reflexivity. Qed.
Lemma short_names_estimable : Forall (fun p => estimable p = true) short_names.
Proof. repeat constructor. Qed.


(** A rule that derives a concept: who has a short name that is not Bob's. *)
Definition short_concept : ConceptDescriptor :=
  mkConcept None [("name", mkConceptField (mkAttribute person_name [] One (Some ValueDataType.String)) false)].
Definition short_premises : list Premise := [
  Assert_ (ConstraintProposition (Constraint.Compare (mkCompare AtMost (any_var "size") (Constant (Value.UnsignedInt 5)))));
  Assert_ (FormulaProposition (mkFormula Length [any_var "name"; any_var "size"]));
  Unless (ConstraintProposition (Constraint.Equality (mkEquality (any_var "name") (Constant (Value.String (str "Bob"))))));
  Assert_ (AttributeProposition (dynamic_new (Constant (Value.Symbol person_name)) (var Entity_type "this")
    (typed_var "name" (kind_of ValueDataType.String)) (blank Cause_type) (Some One) (any_var "source"))) ].
Definition checked_rule (rule : DeductiveRule) : bool :=
  let narrowed := (fun premise => apply_types premise (types (analysis_of rule))) <$> short_premises in
  forallb (fun premise => estimable premise && complete (proposition_of premise)) narrowed &&
  (total_limit narrowed <=? USIZE_MAX)%N &&
  forallb (fun premise => match proposition_of premise with Concept _ => false | _ => true end) narrowed &&
  negb (existsb is_optional_lookup narrowed).
Lemma short_rule_checked : match compile short_concept short_premises with Ok rule => checked_rule rule | _ => false end = true.
Proof. vm_compute. reflexivity. Qed.


(** * Inference *)
(** A name that may be missing and that must be present and start with [A]. *)
Definition starred : list Premise := [
  Assert_ (AttributeProposition name_lookup);
  Assert_ (ConstraintProposition (Constraint.StartsWith (mkStartsWith (any_var "name") (Constant (Value.String (str "A")))))) ].
Lemma infer_exact_witness :
  match infer starred with
  | Ok types => forall name,
      match types !! name with
      | Some kind => forall b, inhabits b kind = true <-> meets (starred ≫= premise_equations) name b
      | None => forall kind, (name, kind) ∉ (starred ≫= premise_equations)
      end
  | Err (Conflict name _) => forall v, ~ meets (starred ≫= premise_equations) name (Present v)
  | _ => False
  end.
Proof. apply (infer_exact starred). repeat constructor. Defined.

(** * Numbers *)
Lemma integer_arithmetic_witness :
  numeric_add (Numeric.SignedInt (-2)) (Numeric.SignedInt 5) = Some (Numeric.SignedInt 3).
Proof.
  apply (integer_arithmetic (Numeric.SignedInt (-2)) (Numeric.SignedInt 5) (Numeric.SignedInt 3) (-2) 5).
  - vm_compute. split; discriminate.
  - vm_compute. split; discriminate.
  - reflexivity.
  - reflexivity.
  - vm_compute. repeat split; discriminate.
Defined.

(** * A repository with a rule *)
From S2P Require Import TransientTree Spine Rebase Providers Cells Revisions Sync SyncBase SyncCorrect CommitCorrect History SyncInstances SyncDemo Session SessionCorrect.
Open Scope list_scope.

Module Sessions.
#[local] Existing Instances toy_blake3 plain_base58 toy_url artifact_codec flat_distribution commit_identity.
#[local] Existing Instances Volatile.volatile_memory Volatile.volatile_archive volatile_fork.

(** One byte string is the source of a rule: whoever is called has a short name. *)
Definition called_concept : ConceptDescriptor :=
  mkConcept None [("called", mkConceptField (Premises.mkAttribute person_age [] One (Some ValueDataType.String)) false)].
Definition called_rule : RuleDescriptor :=
  mkRuleDescriptor short_concept
    [Concept (mkConceptQuery called_concept {["this" := any_var "this"; "called" := typed_var "name" (kind_of ValueDataType.String)]})] [].
#[local] Instance demo_rule_codec : RuleCodec := {|
  encode_attribute name _ _ := name;
  encode_concept fields := List.concat (fst <$> map_to_list fields);
  encode_descriptor _ := [x07];
  decode_descriptor b := if decide (b = [x07]) then Some called_rule else None;
  base58 b := (fun x => if in_byte_range 97 122 x then x else x61) <$> b;
  evict cache := cache
|}.
#[local] Instance demo_messages : RuleMessages := {|
  debug_artifacts _ := "artifacts"; cbor_failure _ := "not a map"; display_type_error _ := "type"
|}.
Lemma called_rule_compiles : is_ok (hydrate_rule [x07]) = true.
Proof. vm_compute. reflexivity. Qed.

(** The rule as two facts, under one entity. *)
Definition short_entity : Entity := match concept_entity (E := EvaluationError.t) short_concept with Ok e => e | _ => ArtifactDemo.alice end.
Definition rule_entity : Entity := entity "rule:short".
Definition conclusion_claim : Artifact := mkArtifact conclusion_attr rule_entity (Value.Entity short_entity) None.
Definition source_claim : Artifact := mkArtifact source_attr rule_entity (Value.Bytes [x07]) None.
Definition rule_facts : Facts := fold_left apply_fact [Assert conclusion_claim; Assert source_claim] ∅.
Definition rule_transaction : Transaction :=
  transaction_assert (transaction (mkHandle trunk 1%positive)) (mkStatement person_name bob (Value.Symbol person_age) None None).
Definition bob_asserted : list Instruction := [Assert bob_name].
Lemma rule_transaction_changes : into_instructions (transaction_changes rule_transaction) = bob_asserted.
Proof. vm_compute. reflexivity. Qed.

Lemma rule_storable : Forall storable [conclusion_claim; source_claim; bob_name].
Proof.
  assert (wf_attribute conclusion_attr /\ wf_attribute source_attr) as [H H0] by (split; split; vm_compute; reflexivity).
  assert (wf_entity rule_entity) as H1 by (exists (str "rule:short"); vm_compute; reflexivity).
  assert (wf_entity short_entity) as H2 by (exists (entity_str short_entity); vm_compute; reflexivity).
  apply Forall_cons. split; [|apply Forall_cons; split; [|apply Forall_singleton; exact bob_storable]].
  - split; [exact (conj H (conj H1 H2))|]. split_and!; [exact I|discriminate|apply nul_freeb_spec; vm_compute; reflexivity].
  - split; [exact (conj H0 (conj H1 I))|]. split_and!; [exact I|discriminate|apply nul_freeb_spec; vm_compute; reflexivity].
Qed.
Lemma rule_facts_wf : wf_facts rule_facts.
Proof.
  pose proof rule_storable as Hst. apply Forall_cons in Hst as [H1 Hst]. apply Forall_cons in Hst as [H2 _].
  unfold rule_facts. cbn [fold_left apply_fact].
  apply wf_insert; [|exact (fact_key_sized _ (proj1 H2))|intros ? [= <-]; split; [exact H2|done]].
  apply wf_insert; [intros f o; by rewrite lookup_empty|exact (fact_key_sized _ (proj1 H1))|intros ? [= <-]; split; [exact H1|done]].
Qed.

(** The repository that holds them. *)
Lemma rule_free : collision_freeb (commit_in_play_list rule_facts bob_asserted) = true.
Proof. vm_compute. reflexivity. Qed.
#[local] Instance rule_codecs : Codecs unit := commit_codecs rule_facts bob_asserted.
#[local] Instance rule_codecs_laws : CodecsLaws unit := commit_codecs_laws rule_facts bob_asserted.
Definition in_rules : bytes -> Prop := in_commit rule_facts bob_asserted.
#[local] Instance rule_laws : ProviderLaws Volatile.t in_rules := commit_laws _ _ rule_free.
#[local] Instance rule_fork_laws : ForkLaws unit Volatile.t in_rules := commit_fork_laws _ _ rule_free.
Definition rule_world := trunk_world rule_facts bob_asserted.
Lemma rule_revision : Volatile.cell_of (trunk_store rule_facts bob_asserted) (BranchReference.revision trunk_ref) =
  Some (rev0_code rule_facts bob_asserted).
Proof. apply (bool_decide_eq_true_1 (_ = _)). vm_compute. reflexivity. Qed.
Lemma rule_upstream : Volatile.cell_of (trunk_store rule_facts bob_asserted) (BranchReference.upstream trunk_ref) = None.
Proof. apply (bool_decide_eq_true_1 (_ = _)). vm_compute. reflexivity. Qed.
Definition no_reads (_ : Branch) (_ : ArtifactSelector) : list Blake3Hash := [].
Definition rule_hashed : list bytes := [conclusion_claim; source_claim; bob_name] ≫= hashed.
Lemma rule_distinct : digests_distinct (fun b => b ∈ rule_hashed ++ selector_hashed (conclusion_selector short_entity)).
Proof. apply digests_distinctb_spec. vm_compute. reflexivity. Qed.
Lemma demo_depth : (2 <= MAXIMUM_TREE_DEPTH)%nat.
Proof. unfold MAXIMUM_TREE_DEPTH. lia. Qed.

Lemma rule_selector_wf : wf_selector (conclusion_selector short_entity).
Proof.
  split_and!; intros x Hx; try discriminate Hx; injection Hx as <-.
  - split; [split; vm_compute; reflexivity|apply nul_freeb_spec; vm_compute; reflexivity].
  - split; [|exact I]. exists (entity_str short_entity). vm_compute. reflexivity.
Qed.
Lemma rule_asserted f artifact : rule_facts !! f = Some (Some artifact) -> artifact ∈ [conclusion_claim; source_claim].
Proof.
  unfold rule_facts. intros [Ha|Ha]%apply_facts_asserted; [exact Ha|].
  rewrite lookup_empty in Ha. discriminate Ha.
Qed.
Lemma rule_hashed_spec artifact : artifact ∈ [conclusion_claim; source_claim; bob_name] ->
  Forall (fun b => b ∈ rule_hashed ++ selector_hashed (conclusion_selector short_entity)) (hashed artifact).
Proof. intros Ha. apply Forall_forall. intros b Hb. apply elem_of_app. left. apply list_elem_of_bind. by exists artifact. Qed.

(** Whatever concept is asked for, only the one rule can conclude it. *)
Lemma scan_entries_elem selector artifact : forall es, artifact ∈ (scan_entries selector es).1 ->
  exists e datum, e ∈ es /\ Nodes.value e = Added datum /\ Artifact_try_from datum = Ok artifact.
Proof.
  induction es as [|e es IH]; simpl; [by intros ?%elem_of_nil|].
  destruct (matches_selector selector e); [|intros (e' & d & ? & ?)%IH; exists e', d; split; [by right|done]].
  destruct (Nodes.value e) as [datum|] eqn:Ev; [|intros (e' & d & ? & ?)%IH; exists e', d; split; [by right|done]].
  destruct (Artifact_try_from datum) as [a|?|?|] eqn:Ea; simpl; try (by intros ?%elem_of_nil).
  destruct (scan_entries selector es) as [rest status]. simpl in *. intros [->|(e' & d & ? & ?)%IH]%elem_of_cons.
  - exists e, datum. split; [by left|done].
  - exists e', d. split; [by right|done].
Qed.
Lemma tree_reading_elem facts selector artifact : artifact ∈ (tree_reading facts selector).1 ->
  exists e datum, e ∈ index_entries facts /\ Nodes.value e = Added datum /\ Artifact_try_from datum = Ok artifact.
Proof.
  unfold tree_reading, scan. destruct (scan_index selector) as [l|]; [|by intros ?%elem_of_nil].
  intros Hread. assert (artifact ∈ (scan_entries selector (in_range (scan_range l selector) (index_entries facts))).1) as Hs.
  { destruct (scan_entries _ _) as [out [[]|?|?|]]; exact Hread. }
  apply scan_entries_elem in Hs as (e & datum & He & Hd). apply in_range_elem in He as [He _]. by exists e, datum.
Qed.
Lemma rule_sources : sources_stored (fun _ => [x07]) rule_facts.
Proof.
  intros concept entities rule Hc Hrule. assert (rule = rule_entity) as ->.
  { unfold concluding in Hc. apply bind_Ok_inv in Hc as (claims & Hcl & He). injection He as <-.
    unfold rule_entities in Hrule. apply list_elem_of_fmap in Hrule as (artifact & -> & Ha).
    assert (artifact ∈ (tree_reading rule_facts (conclusion_selector concept)).1) as Hread.
    { destruct (tree_reading _ _) as [out [[]|?|?|]]; simpl in Hcl; try discriminate Hcl. by injection Hcl as ->. }
    assert (Forall (fun e : Entry KeyBytes State => match Nodes.value e with
      | Added datum => match Artifact_try_from datum with Ok a => bool_decide (artifact_of a = rule_entity) | _ => false end
      | Removed => false end = true) (index_entries rule_facts)) as Hall.
    { apply Forall_forall. intros e He%list_elem_of_In. revert e He. apply (proj1 (forallb_forall _ _)). vm_compute. reflexivity. }
    apply tree_reading_elem in Hread as (e & datum & He & Ev & Ea).
    rewrite Forall_forall in Hall. specialize (Hall e He). rewrite Ev, Ea in Hall. by apply bool_decide_eq_true in Hall. }
  exists [source_claim]. split; [vm_compute; reflexivity|reflexivity].
Qed.

(** After Bob is given a name, the rules of the concept are read from the branch. *)
Lemma commit_then_select_witness :
  exists w1 w2 next l artifacts, transaction_commit 60 rule_transaction [] rule_world = (w1, Ok next) /\
    select_from_branch no_reads 60 trunk (conclusion_selector short_entity) w1 = (w2, Ok (artifacts, Ok tt)) /\
    scan_index (conclusion_selector short_entity) = Some l /\ StronglySorted (before l) artifacts /\
    forall artifact, artifact ∈ artifacts <->
      (exists f, fold_left apply_fact bob_asserted rule_facts !! f = Some (Some artifact)) /\
      satisfies (conclusion_selector short_entity) artifact.
Proof.
  pose proof (commit_then_select in_rules (fun b => b ∈ rule_hashed ++ selector_hashed (conclusion_selector short_entity))
    (in_commit_free _ _ rule_free) rule_distinct artifact_codec_total 1 60 flat_rank_le ltac:(lia) demo_depth no_reads
    rule_transaction commit_alice "main" [] (Some (rev0_edition rule_facts bob_asserted)) None None commit_by_alice
    rule_facts (conclusion_selector short_entity) rule_world) as Hc. cbv zeta in Hc. rewrite rule_transaction_changes in Hc.
  apply Hc; clear Hc.
  - reflexivity.
  - exact (trunk_valid _ _ rule_free).
  - exact (trunk_synced _ _ rule_free rule_revision rule_upstream).
  - reflexivity.
  - exact (proj1 (trunk_archive _ _ rule_free)).
  - exact rule_facts_wf.
  - exact (proj2 (trunk_archive _ _ rule_free)).
  - constructor; [exact bob_storable|constructor].
  - apply Nat.leb_le. vm_compute. reflexivity.
  - apply commit_serializes. by right.
  - exact (trunk_commit_known rule_facts bob_asserted).
  - apply Forall_forall. intros b Hb. apply elem_of_app. by right.
  - eapply built_is, built_the, built_new.
  - exact rule_selector_wf.
  - intros f artifact [Ha|Ha]%apply_facts_asserted.
    + apply list_elem_of_singleton in Ha as ->. apply rule_hashed_spec. in_list.
    + apply rule_asserted in Ha. apply rule_hashed_spec. apply elem_of_cons in Ha as [->|Ha]; [in_list|].
      apply list_elem_of_singleton in Ha as ->. in_list.
Defined.

(** The rule is found, by a query that has cached nothing. *)
Definition rule_handle : Handle := transaction_branch rule_transaction.
Definition rule_env : QueryEnv := mkEnv [rule_handle] changes_new ∅.
Definition rule_session : SessionState (World Volatile.t Volatile.t (cached unit)) := mkSession rule_world ∅.
Definition rule_variable (n : nat) : Term := any_var "fresh".
End Sessions.
